(* ===== verification/_CoqProject ===== *)
-Q . S2P
Prelude.v
CppString.v
Assoc.v
FsPath.v
StringExtras.v
ConfigFile.v
TextExtras.v
ConfigIterator.v
Json.v
ThunkDatabase.v
Protocol.v
Invocation.v
NextLibrary.v
HostServer.v
Runtime.v
Callback.v
VarSizeArray.v
Logging.v
LogMacros.v
Startup.v
Variadic.v
ThreadHook.v
ThreadHandshake.v
ManifestSummary.v
PassScheduler.v
ClangExtras.v
Document.v
PassTemplates.v
AliasMaker.v
ThunkCode.v
DefaultBuilder.v
LibCFormat.v
ManifestTypes.v
ThunkTyping.v
CallbackTree.v
CallbackSubstituter.v
StatCommand.v
GenerateCommand.v
ProcTables.v
DumpCommand.v
GuardPasses.v
SourceStatistics.v
RewriteInsertion.v
MacroTags.v
RewriteCommand.v
ToolMain.v
CompilerCommands.v
RewriterCommands.v
