(* ===== verification/Prelude.v ===== *)
(** * Lorelei: a verification development

    Lorelei lets a guest program, run by a user-mode emulator, call the host's
    native libraries.  A guest thunk library stands in for the real one; its
    calls cross to the host through a magic system call, are served by the host
    runtime and a host thunk library, and may come back as callbacks.  The thunk
    libraries are generated by a compiler from a manifest, and the sources of a
    host library can be rewritten so that its calls through function pointers are
    guarded.  This library models the parts of the program that decide what a call
    does, what the tools generate and what they leave in the files, and proves what
    makes them correct.

    ** Parts and files (sources are relative to [src/])

    Foundations.
    - [Prelude]: strings as byte lists, the [run] result type (a value, undefined
      behaviour, or exhausted fuel), machine integers, tactics and hints.
    - [CppString], [FsPath], [Assoc], [Json]: the standard library operations the
      code uses: searching and slicing of strings, character classes, [strtol],
      decimal numerals; [std::filesystem::path]; vectors with an index map, as
      ordered association lists; JSON values.

    The support library ([src/libs/Support], [include/lorelei/Support]).
    - [StringExtras], [TextExtras]: [split], [join], [replace], trimming, [format],
      [varexp], [vasprintf]; the overloads for characters and wide strings,
      conversions and [formatN].
    - [ConfigFile], [ConfigIterator]: the INI reader with [include] and typed access;
      its iterators, against the interface [RandomAccess].
    - [VarSizeArray]: the array with inline storage, its buffers and the lifetimes of
      its slots.
    - [Logging], [LogMacros]: categories, the text of filter rules, the registry, the
      default sink; the loggers and the macros, with the installed callback and the
      default category.

    The run time ([include/lorelei/DLCall], [src/libs/DLCall], [src/modules],
    [src/utils], [include/lorelei/ThunkInterface]).
    - [ThunkDatabase] ([ThunkDatabase.cpp]): the thunk database with its arenas and
      indexes.
    - [Protocol], [Invocation] ([Protocol.h], [TinyCoroutine/Invocation.cpp], the
      driver loop of [GuestClient.cpp], [invokeByConv] of [HostServer.cpp]): nested
      calls across the boundary.
    - [NextLibrary], [HostServer], [Runtime] ([NextLibrary.cpp], [modules/HostRT],
      [modules/GuestRT]): library names and database keys, thunk discovery, request
      packing, the start of a thunk, environment and log sink.
    - [Startup] (both [main.cpp], [GuestClient.cpp], [HostServer.cpp]): the start of
      the two runtimes, the requests the plugin serves itself, the common entry's
      immediate services, and the path of a guest's log record to the host's log.
    - [Callback] ([Detail/Callback.h], [FunctionTrampoline.cpp]): trampolines.
    - [Variadic] ([VariadicArgDefs.h], [VariadicAdaptor.cpp],
      [VariadicAdaptor_FFCall.cpp.inc]): boxed arguments, in C and in C++, the
      [printf] and [scanf] argument lists, calls with them.
    - [ThreadHook], [ThreadHandshake] ([QEMUThreadHook/main.cpp], [newThreadEntry] and
      the [SC_ThreadCreate] case of [GuestClient.cpp]): threads that the host creates,
      in the emulator's hook and between the guest's parent and child threads.
    - [ProcTables], [ManifestTypes] ([ThunkInterface/Detail]): the tables by which the
      two sides of a thunk library find each other's entries; the types its layers
      have before and after generation, and the lookup of arguments by type.

    The thunk compiler ([src/libs/TLCApi], [src/libs/ClangExtras], [src/tools/TLC]).
    - [ManifestSummary], [PassScheduler], [ClangExtras], [Document], [AliasMaker],
      [PassTemplates]: the summary that the commands exchange as JSON, the order of
      the passes, Clang's types as a class of operations, the generated document, the
      maker of its exported aliases, what the passes share.
    - [ThunkCode], [DefaultBuilder], [LibCFormat], [ThunkTyping]: a small language
      whose programs the generated layers are the text of, with an interpreter; the
      builders; its typing rules.
    - [CallbackTree], [CallbackSubstituter], [GuardPasses]: the callbacks reachable
      from an argument, the code that replaces and restores them, the type filter and
      the [GetProcAddress] pass.
    - [StatCommand], [GenerateCommand], [DumpCommand], [CompilerCommands]: what each
      command computes, and the commands as functions on the files.

    The header library rewriter ([src/tools/HLR]).
    - [SourceStatistics], [RewriteInsertion], [MacroTags], [RewriteCommand]: what is
      counted, the ranges to wrap, macro expansions, guards and batch runs.
    - [ToolMain], [RewriterCommands]: the commands of both tools and their dispatch;
      the rewriter's commands as functions on the files.

    A guest call goes through the run time in this order: the guest thunk finds its
    host thunk ([NextLibrary], [HostServer], which reads [ThunkDatabase] documents
    with [StringExtras] expansion), the two exchange their tables ([ProcTables]), the
    guest client packs the request ([Runtime]) and drives the host function
    ([Invocation]), and function pointers among the arguments are wrapped on the way
    ([Callback]); variadic arguments are boxed on one side and passed on the other
    ([Variadic]).  When the host function creates a thread, the emulator's hook turns
    the creation into a reentry ([ThreadHook]), whose service ([Invocation]) creates
    the guest's thread and hands it its entry ([ThreadHandshake]).  What such a call
    runs at its two ends is what the thunk compiler wrote: [stat] collects the
    callbacks, a file carries them ([ManifestSummary]), [generate] asks for them and
    runs the passes over the document.

    ** What the theorems show

    Refinements: the coroutine machine of [Invocation] is a nested call; the
    generated text of the two documents is that of programs whose run is the call of
    the native function ([generated_thunks_forward], [format_thunks_forward]), with
    every callback replaced, and restored where the call has left the way to it
    ([callbacks_restored]); the configuration
    reader and the thunk database are folds over ordered maps; an array is the list
    of its elements; the records a program emits are those that the levels it has set,
    its filter and its rules text decide, and a guest's reach the host's log in order; the exported aliases do not depend
    on what the alias maker adds to Clang's tree; the scheduling of passes is its
    specification; wrapped ranges and rewritten files are the source with each range
    between its texts.
    Types: the generated layers are well typed and never get stuck
    ([generated_thunks_typed]); a manifest sees the layers with the types they are
    generated with, but for [noexcept] and for one layer of a callback
    ([prebuild_types]).
    Composition: what [stat] collects the substituter resolves, but for callbacks
    behind qualified pointers ([callbacks_registered], [pipeline_resolves]); a guard
    that the common header declares is implemented by one file at most, and by it as
    long as the function is where the statistics saw it ([decay_guard_once]); both generated sides number their procs alike and each call reaches the other
    side's entry of the same proc ([thunk_linked]); a command writes its own file and
    no other, and [generate] writes nothing that an error has reached
    ([generate_checked]).
    Invariants: coroutine stacks never overlap; entries and strings of the database
    never move, whatever a lookup loads and whether it answers or throws
    ([forward_lookup_stable]); trampoline tables give each callback one stub; the flags of a live
    category are what the rules in force give it; an array's slots are live exactly
    below its size, and nothing leaks; the guest sends nothing through the host's
    entry before it has it; the thread handshake never reads a dead frame when no
    wake-up is spurious.
    Round trips: configuration text, rules text, requests, library names,
    [split]/[join], decimal integers, manifest summaries, statistics files.
    Termination: every run of the thread handshake ends ([handshake_safe]); every
    loop modelled with fuel has a theorem that enough fuel gives a result, or that
    the model diverges exactly when the reference does.
    Error paths and undefined behaviour that the code can reach are theorems too
    ([nested_error_undefined], [trampoline_overflow], [thunk_name_copies],
    [resize_value_dangles], [box64_ulong_truncated], [handshake_spurious],
    [default_sink], [exchange_by_number], [format_attribute_unchecked],
    [filter_callback_shifted], [aliased_not_restored], [output_bounds]).

    ** Fuel

    [split], [replace], [format] and [varexp] carry their own fuel, one more than
    the length of the input, proved enough.  [load] of [ConfigFile] and the
    machine of [Invocation] take fuel as an argument: the depth of includes, and
    the number of crossings; their theorems relate them to a reference with the
    same fuel, so that divergence is preserved both ways; the commands that read a
    configuration pass that fuel on.  An iterator's walk has one step more than there
    are elements.  The walks over types and declarations ([peel], [contains_loop],
    [build], [collect_deps], the walk of [StatCommand]) have the type's own depth, or
    the number of spellings not yet visited, as their fuel, which the class of Clang's
    operations bounds, and are proved to end.  The replacement of tagged texts has the
    length of the code.

    ** Interfaces

    The classes [Clang], [ClangRecords], [ClangUnit], [ClangDump], [ClangAst],
    [SourceManager] and [Rewriter] are what the tools ask of Clang, with the laws of
    it that they rely on; each has an instance, small C types and declarations or a
    plain text, on which the examples and witnesses evaluate.  [RandomAccess] with
    [RandomAccessLaws] is what the loops over a configuration ask of its iterators.
    The file system, the environment, the dynamic linker, the emulator with its
    plugin, the parser of JSON and the parser of options are parameters of the
    definitions that use them.

    ** Not modelled

    Assembly: the shims of coroutines, of system calls and of trampolines, whose
    effect [Invocation], [Startup] and [Callback] represent.  The emulator itself; the
    native call that ffcall makes and the format walker of the vendored [printf],
    which are parameters of [Variadic]; the libffi variant and the lookup of a
    module's path in [/proc/self/maps], which are compiled out.  The text syntax of
    JSON, [strtod], the text of floating-point numbers and the conversion between
    narrow and wide path names, which are the libraries'.  The locks of the registry
    and of the server: each operation holds its lock throughout.  [ScopeGuard], a
    destructor that runs a callable. *)

From Stdlib Require Export Ascii String ZArith Lia.
From stdpp Require Export base tactics option list gmap strings fin_maps.

#[export] Set Default Proof Using "Type".

(** ** Strings and characters

    A C++ [std::string] (or [std::string_view]) is a sequence of bytes; it is
    modelled as a list of [ascii], which are exactly the 256 byte values. *)

Declare Scope lore_scope.
Delimit Scope lore_scope with lore.

Abbreviation str := (list ascii).

(** [$ "abc"] is the byte string of a literal. *)
Notation "$ s" := (list_ascii_of_string s%string)
  (at level 1, s at level 0, format "$ s") : lore_scope.

(** Character and string comparison as the code's [==]. *)
Notation "c =c? d" := (Ascii.eqb c d) (at level 70) : lore_scope.
Notation "s =s? t" := (bool_decide (s = t)) (at level 70) : lore_scope.

Open Scope lore_scope.

(** Characters that have no convenient literal. *)
Definition c_nul : ascii := ascii_of_nat 0.
Definition c_tab : ascii := ascii_of_nat 9.
Definition c_nl : ascii := ascii_of_nat 10.
Definition c_vt : ascii := ascii_of_nat 11.
Definition c_ff : ascii := ascii_of_nat 12.
Definition c_cr : ascii := ascii_of_nat 13.
Definition c_dquote : ascii := ascii_of_nat 34.
Definition c_squote : ascii := ascii_of_nat 39.
Definition c_backslash : ascii := ascii_of_nat 92.

(** ** Execution results

    [run A] is the result of a piece of C++ code: a value, undefined
    behaviour (an operation whose precondition the code does not meet), or the
    exhaustion of the fuel that bounds a recursion of the model. *)

Inductive run (A : Type) : Type :=
  | Done (a : A)
  | Undef
  | NoFuel.
Arguments Done {A} _.
Arguments Undef {A}.
Arguments NoFuel {A}.

#[export] Instance run_ret : MRet run := @Done.
#[export] Instance run_bind : MBind run := λ A B f m,
  match m with
  | Done a => f a
  | Undef => Undef
  | NoFuel => NoFuel
  end.
#[export] Instance run_fmap : FMap run := λ A B f m,
  match m with
  | Done a => Done (f a)
  | Undef => Undef
  | NoFuel => NoFuel
  end.

(** A partial operation of the library, [None] when its precondition fails. *)
Definition defined {A} (o : option A) : run A :=
  match o with Some a => Done a | None => Undef end.

Definition is_Done {A} (m : run A) : Prop := ∃ a, m = Done a.

(** [m] refines [m'] when it agrees with it once it has enough fuel. *)
Definition run_le {A} (m m' : run A) : Prop :=
  m = NoFuel ∨ m = m'.

Lemma run_le_refl {A} (m : run A) : run_le m m.
Proof. by right. Qed.

Lemma run_le_NoFuel {A} (m : run A) : run_le NoFuel m.
Proof. by left. Qed.

Lemma run_le_bind {A B} (m m' : run A) (f f' : A → run B) :
  run_le m m' → (∀ a, run_le (f a) (f' a)) → run_le (m ≫= f) (m' ≫= f').
Proof.
  intros [-> | ->] Hf; [by left|].
  destruct m' as [a| |]; simpl; [apply Hf|by right|by right].
Qed.

Lemma run_le_Done {A} (m m' : run A) a :
  run_le m m' → m = Done a → m' = Done a.
Proof. intros [-> | ->]; congruence. Qed.

Lemma run_le_Undef {A} (m m' : run A) :
  run_le m m' → m = Undef → m' = Undef.
Proof. intros [-> | ->]; congruence. Qed.

Lemma run_bind_assoc {A B C} (m : run A) (f : A → run B) (g : B → run C) :
  (m ≫= f) ≫= g = m ≫= λ x, f x ≫= g.
Proof. by destruct m. Qed.

(** The steps of a computation that returned, from the last one. *)
Lemma bind_Done {A B} (m : run A) (f : A → run B) b : m ≫= f = Done b → ∃ a, f a = Done b.
Proof. destruct m; [|done..]. by eexists. Qed.

Ltac run_binds H := repeat (apply bind_Done in H as [? H]).

(** ** Machine integers *)

(** Unsigned and two's complement wrap-around at width [w]. *)
Definition wrapu (w z : Z) : Z := (z mod 2 ^ w)%Z.
Definition wraps (w z : Z) : Z := ((z + 2 ^ (w - 1)) mod 2 ^ w - 2 ^ (w - 1))%Z.

Definition INT_MAX : Z := 2147483647.
Definition INT_MIN : Z := -2147483648.
Definition LONG_MAX : Z := 9223372036854775807.
Definition LONG_MIN : Z := -9223372036854775808.

Lemma wrapu_range w z : (0 ≤ w)%Z → (0 ≤ wrapu w z < 2 ^ w)%Z.
Proof. intros. apply Z.mod_pos_bound. by apply Z.pow_pos_nonneg. Qed.

Lemma wrapu_id w z : (0 ≤ z < 2 ^ w)%Z → wrapu w z = z.
Proof. intros. by apply Z.mod_small. Qed.

Lemma wraps_id w z :
  (0 < w)%Z → (- 2 ^ (w - 1) ≤ z < 2 ^ (w - 1))%Z → wraps w z = z.
Proof.
  intros Hw Hz. unfold wraps.
  assert (2 ^ w = 2 * 2 ^ (w - 1))%Z as Hp.
  { rewrite <- Z.pow_succ_r by lia. f_equal. lia. }
  rewrite Z.mod_small; lia.
Qed.

Lemma wraps_range w z :
  (0 < w)%Z → (- 2 ^ (w - 1) ≤ wraps w z < 2 ^ (w - 1))%Z.
Proof.
  intros Hw. unfold wraps.
  assert (2 ^ w = 2 * 2 ^ (w - 1))%Z as Hp.
  { rewrite <- Z.pow_succ_r by lia. f_equal. lia. }
  pose proof (Z.mod_pos_bound (z + 2 ^ (w - 1)) (2 ^ w)).
  assert (0 < 2 ^ w)%Z by (apply Z.pow_pos_nonneg; lia). lia.
Qed.

(** ** Tactics and hints *)

Create HintDb lore.
Create Rewrite HintDb lore_rw.
#[export] Hint Resolve run_le_refl run_le_NoFuel run_le_bind : lore.

(** Case analysis on the innermost match or if of a hypothesis, remembering the
    equation, and closing the branches that are contradictory. *)
Ltac break_hyp H :=
  match type of H with
  | context [match ?e with _ => _ end] =>
      lazymatch e with
      | context [match _ with _ => _ end] => fail
      | _ => let E := fresh "E" in destruct e eqn:E; try discriminate
      end
  end.
Ltac break_goal :=
  match goal with
  | |- context [match ?e with _ => _ end] =>
      lazymatch e with
      | context [match _ with _ => _ end] => fail
      | _ => let E := fresh "E" in destruct e eqn:E; try discriminate
      end
  end.

(** Split the boolean tests of the code into the propositions they decide. *)
Ltac bool_cases :=
  repeat match goal with
  | H : context [Ascii.eqb ?a ?b] |- _ => destruct (Ascii.eqb_spec a b); subst
  | |- context [Ascii.eqb ?a ?b] => destruct (Ascii.eqb_spec a b); subst
  end.

(** ** Lists *)

Lemma Forall_lookup_total {A} (P : A → Prop) (l : list A) i x :
  Forall P l → l !! i = Some x → P x.
Proof. intros Hl Hi. by eapply Forall_lookup_1. Qed.

Lemma lookup_snoc_Some_inv {A} (l : list A) x i y :
  (l ++ [x]) !! i = Some y →
  (i < length l ∧ l !! i = Some y) ∨ (i = length l ∧ y = x).
Proof.
  intros [Hi | [Hlen Hi]]%lookup_app_Some.
  - left. split; [by eapply lookup_lt_Some | done].
  - destruct (i - length l) as [|k] eqn:E; simpl in Hi; [|done].
    right. split; [lia | congruence].
Qed.

Lemma NoDup_snoc {A} (l : list A) x : NoDup l → x ∉ l → NoDup (l ++ [x]).
Proof.
  intros Hl Hx. apply NoDup_app. repeat split; [done| |apply NoDup_singleton].
  intros y Hy ->%list_elem_of_singleton. done.
Qed.

Lemma filter_all {A} (P : A → Prop) `{∀ x, Decision (P x)} l :
  Forall P l → filter P l = l.
Proof.
  induction 1 as [|x l Hx _ IH]; [done|]. rewrite filter_cons_True by done. by rewrite IH.
Qed.

Lemma filter_fmap {A B} (f : A → B) (P : B → Prop) `{∀ x, Decision (P x)} (l : list A) :
  filter P (f <$> l) = f <$> filter (λ x, P (f x)) l.
Proof.
  induction l as [|x l IH]; [done|]. rewrite fmap_cons, !filter_cons. rewrite IH.
  by destruct (decide (P (f x))).
Qed.

(** Induction two elements at a time. *)
Lemma list_ind2 {A} (P : list A → Prop) :
  P [] → (∀ x, P [x]) → (∀ x y l, P l → P (y :: l) → P (x :: y :: l)) →
  ∀ l, P l.
Proof.
  intros H0 H1 H2. assert (∀ l, P l ∧ ∀ x, P (x :: l)) as H; [|intros; apply H].
  induction l as [|x l [IH1 IH2]]; split; auto.
Qed.

#[export] Hint Resolve NoDup_snoc : lore.
