(* ===== verification/CppString.v ===== *)
(** The part of the C and C++ standard library the modelled code uses on byte
    strings: searching, slicing, trimming, character classes in the C locale,
    [strtol] and the NUL-terminated view of a buffer.  Positions are [nat] and
    [npos] is [None]. *)

From S2P Require Import Prelude.

(** ** Prefixes and searching *)

Fixpoint prefixb (p s : str) : bool :=
  match p, s with
  | [], _ => true
  | _ :: _, [] => false
  | c :: p', d :: s' => (c =c? d) && prefixb p' s'
  end.

Lemma prefixb_spec p s : prefixb p s = true ↔ p `prefix_of` s.
Proof.
  revert s. induction p as [|c p IH]; intros [|d s]; simpl.
  - split; [intros _; by exists []|done].
  - split; [intros _; by exists (d :: s)|done].
  - split; [done|by intros [k ?]].
  - rewrite andb_true_iff, Ascii.eqb_eq, IH. split.
    + intros [-> [k ->]]. by exists k.
    + intros [k Hk]. simplify_eq/=. split; [done|by exists k].
Qed.

Lemma prefixb_app p s : prefixb p (p ++ s) = true.
Proof. apply prefixb_spec. by exists s. Qed.

Lemma prefixb_length p s : prefixb p s = true → length p ≤ length s.
Proof. intros [k ->]%prefixb_spec. rewrite length_app. lia. Qed.

(** [std::string_view::find(pat)]: the first position at which [pat] occurs. *)
Fixpoint find (pat s : str) : option nat :=
  if prefixb pat s then Some 0
  else match s with [] => None | _ :: s' => S <$> find pat s' end.

(** [find(pat, pos)]: no match when [pos] is past the end. *)
Definition find_from (pat s : str) (pos : nat) : option nat :=
  if bool_decide (pos ≤ length s) then (λ i, pos + i) <$> find pat (drop pos s)
  else None.

Definition find_char (c : ascii) (s : str) : option nat := find [c] s.

(** [rfind(pat)]: the last position at which [pat] occurs. *)
Fixpoint rfind (pat s : str) : option nat :=
  match s with
  | [] => if prefixb pat [] then Some 0 else None
  | _ :: s' =>
      match rfind pat s' with
      | Some i => Some (S i)
      | None => if prefixb pat s then Some 0 else None
      end
  end.

Definition rfind_char (c : ascii) (s : str) : option nat := rfind [c] s.

Lemma find_Some pat s i :
  find pat s = Some i →
  i ≤ length s ∧ pat `prefix_of` drop i s ∧
  ∀ j, j < i → ¬ pat `prefix_of` drop j s.
Proof.
  revert i. induction s as [|c s IH]; intros i; simpl;
    destruct (prefixb pat _) eqn:E; intros Hi.
  - simplify_eq. split_and!; [simpl; lia|by apply prefixb_spec|lia].
  - done.
  - simplify_eq. split_and!; [simpl; lia|by apply prefixb_spec|lia].
  - apply fmap_Some in Hi as (k & Hk & ->). apply IH in Hk as (? & ? & Hlt).
    simpl. split_and!; [lia|done|]. intros [|j] Hj; simpl.
    + intros Hp. apply prefixb_spec in Hp. congruence.
    + apply Hlt. lia.
Qed.

Lemma find_None pat s :
  find pat s = None → ∀ j, j ≤ length s → ¬ pat `prefix_of` drop j s.
Proof.
  induction s as [|c s IH]; simpl; destruct (prefixb pat _) eqn:E;
    intros Hn j Hj; try done.
  - destruct j; [|simpl in *; lia]. simpl. intros Hp%prefixb_spec. congruence.
  - apply fmap_None in Hn. destruct j as [|j]; simpl.
    + intros Hp%prefixb_spec. congruence.
    + apply IH; [done|lia].
Qed.

Lemma find_Some_le pat s i :
  find pat s = Some i → i + length pat ≤ length s.
Proof.
  intros (? & Hp & _)%find_Some. apply prefix_length in Hp.
  rewrite length_drop in Hp. lia.
Qed.

Lemma find_Some_split pat s i :
  find pat s = Some i → s = take i s ++ pat ++ drop (i + length pat) s.
Proof.
  intros (? & [k Hk] & _)%find_Some.
  rewrite <- (take_drop i s) at 1. f_equal. rewrite Hk. f_equal.
  rewrite <- drop_drop, Hk. by rewrite drop_app_length.
Qed.

Lemma find_char_None c s : find_char c s = None ↔ c ∉ s.
Proof.
  unfold find_char. induction s as [|d s IH]; simpl.
  - split; [|done]. intros _ H. by apply not_elem_of_nil in H.
  - destruct (Ascii.eqb_spec c d) as [->|Hne]; simpl.
    + split; [done|]. intros H. exfalso. apply H. by left.
    + rewrite fmap_None, IH, not_elem_of_cons. naive_solver.
Qed.

Lemma find_char_app c l r :
  c ∉ l → find_char c (l ++ c :: r) = Some (length l).
Proof.
  unfold find_char. induction l as [|d l IH]; simpl.
  - by rewrite Ascii.eqb_refl.
  - rewrite not_elem_of_cons. intros [Hne Hl].
    destruct (Ascii.eqb_spec c d) as [->|_]; [done|]. simpl.
    by rewrite IH.
Qed.

Lemma find_char_Some c s i :
  find_char c s = Some i →
  s = (take i s ++ c :: drop (S i) s) ∧ (c ∉ take i s) ∧ i < length s.
Proof.
  unfold find_char. revert i. induction s as [|d s IH]; intros i; simpl; [done|].
  destruct (Ascii.eqb_spec c d) as [->|Hne]; simpl.
  - intros [= <-]. simpl. split_and!; [done|apply not_elem_of_nil|lia].
  - intros (k & Hk & ->)%fmap_Some. apply IH in Hk as (Hs & Hn & Hl). simpl.
    split_and!; [by f_equal|by rewrite not_elem_of_cons|lia].
Qed.

Lemma rfind_char_None c s : rfind_char c s = None ↔ c ∉ s.
Proof.
  unfold rfind_char. induction s as [|d s IH]; simpl.
  - split; [|done]. intros _ H. by apply not_elem_of_nil in H.
  - rewrite not_elem_of_cons. destruct (rfind [c] s); simpl.
    + split; [done|]. intros [_ H]. apply IH in H. done.
    + destruct (Ascii.eqb_spec c d) as [->|Hne]; simpl; naive_solver.
Qed.

Lemma rfind_char_app c l r :
  c ∉ r → rfind_char c (l ++ c :: r) = Some (length l).
Proof.
  unfold rfind_char. intros Hr. induction l as [|d l IH]; simpl.
  - apply rfind_char_None in Hr. unfold rfind_char in Hr. rewrite Hr.
    by rewrite Ascii.eqb_refl.
  - by rewrite IH.
Qed.

Lemma rfind_Some_lookup pat s i :
  rfind pat s = Some i → i ≤ length s ∧ pat `prefix_of` drop i s.
Proof.
  revert i. induction s as [|c s IH]; intros i; cbn [rfind].
  - destruct (prefixb pat []) eqn:E; [|done]. intros [= <-].
    split; [done|]. by apply prefixb_spec.
  - destruct (rfind pat s) as [k|].
    + intros [= <-]. destruct (IH k eq_refl). simpl. split; [lia|done].
    + destruct (prefixb pat (c :: s)) eqn:E; [|done]. intros [= <-].
      split; [simpl; lia|]. by apply prefixb_spec.
Qed.

Lemma rfind_char_Some c s i :
  rfind_char c s = Some i → s = take i s ++ c :: drop (i + 1) s.
Proof.
  intros [_ [k Hk]]%rfind_Some_lookup.
  rewrite <- (take_drop i s) at 1. f_equal. rewrite <- drop_drop, Hk. done.
Qed.

(** ** Slices *)

(** [s.substr(pos, n)], used only where [pos <= size()] holds. *)
Definition substr (s : str) (pos n : nat) : str := take n (drop pos s).

(** [s.substr(pos)] in full: it throws [out_of_range] past the end. *)
Definition substr_checked (s : str) (pos : nat) : option str :=
  if bool_decide (pos ≤ length s) then Some (drop pos s) else None.

(** ** Prefix, suffix and containment tests *)

Definition starts_with (s prefix : str) : bool := prefixb prefix s.
Definition ends_with (s suffix : str) : bool :=
  bool_decide (length suffix ≤ length s) &&
  ((drop (length s - length suffix) s) =s? suffix).
Definition starts_with_char (s : str) (c : ascii) : bool :=
  match s with d :: _ => d =c? c | [] => false end.
Definition ends_with_char (s : str) (c : ascii) : bool :=
  match List.rev s with d :: _ => d =c? c | [] => false end.
Definition contains (s sub : str) : bool :=
  match find sub s with Some _ => true | None => false end.
Definition contains_char (s : str) (c : ascii) : bool :=
  match find_char c s with Some _ => true | None => false end.

Lemma ends_with_spec s t : ends_with s t = true ↔ ∃ k, s = k ++ t.
Proof.
  unfold ends_with. rewrite andb_true_iff, !bool_decide_eq_true. split.
  - intros [Hl Ht]. exists (take (length s - length t) s).
    rewrite <- Ht at 2. by rewrite take_drop.
  - intros [k ->]. rewrite length_app. split; [lia|].
    replace (length k + length t - length t) with (length k) by lia.
    by rewrite drop_app_length.
Qed.

Lemma contains_char_spec s c : contains_char s c = true ↔ c ∈ s.
Proof.
  unfold contains_char. destruct (find_char c s) eqn:E.
  - split; [|done]. intros _. apply find_char_Some in E as (-> & _ & _).
    apply elem_of_app. right. by left.
  - split; [done|]. apply find_char_None in E. done.
Qed.

(** ** Character sets and trimming *)

Definition in_set (cs : str) (c : ascii) : bool := existsb (Ascii.eqb c) cs.

Lemma in_set_spec cs c : in_set cs c = true ↔ c ∈ cs.
Proof.
  unfold in_set. rewrite existsb_exists. split.
  - intros (d & Hd & ->%Ascii.eqb_eq). by apply list_elem_of_In.
  - intros Hc. exists c. split; [by apply list_elem_of_In|apply Ascii.eqb_refl].
Qed.

(** [find_first_not_of] and [find_last_not_of]. *)
Fixpoint find_first_not_of (cs s : str) : option nat :=
  match s with
  | [] => None
  | c :: s' => if in_set cs c then S <$> find_first_not_of cs s' else Some 0
  end.

Fixpoint find_last_not_of (cs s : str) : option nat :=
  match s with
  | [] => None
  | c :: s' =>
      match find_last_not_of cs s' with
      | Some i => Some (S i)
      | None => if in_set cs c then None else Some 0
      end
  end.

Fixpoint drop_while (p : ascii → bool) (s : str) : str :=
  match s with
  | [] => []
  | c :: s' => if p c then drop_while p s' else s
  end.

Lemma find_first_not_of_None cs s :
  find_first_not_of cs s = None ↔ ∀ c, c ∈ s → c ∈ cs.
Proof.
  induction s as [|c s IH]; simpl.
  - split; [|done]. intros _ c Hc. by apply not_elem_of_nil in Hc.
  - destruct (in_set cs c) eqn:E.
    + apply in_set_spec in E. rewrite fmap_None, IH. split.
      * intros H d [->|?]%elem_of_cons; auto.
      * intros H d ?. apply H. by right.
    + split; [done|]. intros H. assert (c ∈ cs) as Hc%in_set_spec; [|congruence].
      apply H. by left.
Qed.

Lemma find_first_not_of_Some cs s i :
  find_first_not_of cs s = Some i →
  i < length s ∧ (∀ c, c ∈ take i s → c ∈ cs) ∧
  ∃ c, s !! i = Some c ∧ c ∉ cs.
Proof.
  revert i. induction s as [|c s IH]; intros i; simpl; [done|].
  destruct (in_set cs c) eqn:E.
  - intros (k & Hk & ->)%fmap_Some. apply IH in Hk as (? & Hin & Hn).
    apply in_set_spec in E. simpl. split_and!; [lia| |done].
    intros d [->|?]%elem_of_cons; auto.
  - intros [= <-]. simpl. split_and!; [lia| |].
    + intros d Hd. by apply not_elem_of_nil in Hd.
    + exists c. split; [done|]. intros Hc%in_set_spec. congruence.
Qed.

Lemma find_last_not_of_None cs s :
  find_last_not_of cs s = None ↔ ∀ c, c ∈ s → c ∈ cs.
Proof.
  induction s as [|c s IH]; simpl.
  - split; [|done]. intros _ c Hc. by apply not_elem_of_nil in Hc.
  - destruct (find_last_not_of cs s) eqn:E.
    + split; [done|]. intros H. exfalso.
      assert (Some n = None); [|done]. apply IH. intros d ?. apply H. by right.
    + destruct IH as [IH _]. specialize (IH eq_refl).
      destruct (in_set cs c) eqn:Ec.
      * apply in_set_spec in Ec. split; [|done]. intros _ d [->|?]%elem_of_cons; auto.
      * split; [done|]. intros H. assert (c ∈ cs) as Hc%in_set_spec; [|congruence].
        apply H. by left.
Qed.

Lemma find_last_not_of_Some cs s i :
  find_last_not_of cs s = Some i →
  i < length s ∧ (∀ c, c ∈ drop (S i) s → c ∈ cs) ∧
  ∃ c, s !! i = Some c ∧ c ∉ cs.
Proof.
  revert i. induction s as [|c s IH]; intros i; simpl; [done|].
  destruct (find_last_not_of cs s) as [k|] eqn:E.
  - intros [= <-]. destruct (IH k eq_refl) as (? & ? & ?). simpl.
    split_and!; [lia|done|done].
  - destruct (in_set cs c) eqn:Ec; [done|]. intros [= <-]. simpl.
    split_and!; [lia| |].
    + by apply find_last_not_of_None.
    + exists c. split; [done|]. intros Hc%in_set_spec. congruence.
Qed.

(** ** Character classes of the C locale *)

Definition code (c : ascii) : nat := nat_of_ascii c.

Definition isdigit (c : ascii) : bool := (48 <=? code c)%nat && (code c <=? 57)%nat.
Definition isupper (c : ascii) : bool := (65 <=? code c)%nat && (code c <=? 90)%nat.
Definition isspace (c : ascii) : bool :=
  in_set [" "%char; c_tab; c_nl; c_vt; c_ff; c_cr] c.
Definition tolower (c : ascii) : ascii :=
  if isupper c then ascii_of_nat (code c + 32) else c.
Definition digit_value (c : ascii) : Z := Z.of_nat (code c) - 48.

Lemma digit_value_range c : isdigit c = true → (0 ≤ digit_value c ≤ 9)%Z.
Proof.
  unfold isdigit, digit_value. rewrite andb_true_iff, !Nat.leb_le. lia.
Qed.

Lemma tolower_idemp c : tolower (tolower c) = tolower c.
Proof.
  unfold tolower. destruct (isupper c) eqn:E; [|by rewrite E].
  unfold isupper, code in *. apply andb_true_iff in E as [H1 H2].
  apply Nat.leb_le in H1, H2. rewrite !nat_ascii_embedding by lia.
  destruct (_ && _) eqn:E2; [|done].
  apply andb_true_iff in E2 as [_ H3]. apply Nat.leb_le in H3. lia.
Qed.

(** ** NUL-terminated strings *)

(** What a reader of [s.c_str()] sees: the bytes before the first NUL. *)
Fixpoint c_str (s : str) : str :=
  match s with
  | [] => []
  | c :: s' => if c =c? c_nul then [] else c :: c_str s'
  end.

Definition no_nul (s : str) : Prop := c_nul ∉ s.

Lemma c_str_id s : no_nul s → c_str s = s.
Proof.
  unfold no_nul. induction s as [|c s IH]; simpl; [done|].
  rewrite not_elem_of_cons. intros [Hc Hs].
  destruct (Ascii.eqb_spec c c_nul) as [->|_]; [done|]. by rewrite IH.
Qed.

Lemma c_str_no_nul s : no_nul (c_str s).
Proof.
  unfold no_nul. induction s as [|c s IH]; simpl; [apply not_elem_of_nil|].
  destruct (Ascii.eqb_spec c c_nul) as [->|Hne]; [apply not_elem_of_nil|].
  rewrite not_elem_of_cons. split; congruence.
Qed.

Lemma c_str_idemp s : c_str (c_str s) = c_str s.
Proof. apply c_str_id, c_str_no_nul. Qed.

(** ** [strtol(s, &end, 10)]

    The result is the value, the number of bytes consumed ([endptr - s]) and
    whether [errno] was set to [ERANGE].  Without a digit nothing is consumed. *)

Fixpoint digits_value (acc : Z) (s : str) : Z * nat :=
  match s with
  | c :: s' =>
      if isdigit c then
        let '(v, n) := digits_value (acc * 10 + digit_value c) s' in (v, S n)
      else (acc, 0)
  | [] => (acc, 0)
  end.

Fixpoint count_spaces (s : str) : nat :=
  match s with
  | c :: s' => if isspace c then S (count_spaces s') else 0
  | [] => 0
  end.

Definition strtol (s : str) : Z * nat * bool :=
  let ws := count_spaces s in
  let '(neg, sign) :=
    match drop ws s with
    | c :: _ => if c =c? "-"%char then (true, 1)
                else if c =c? "+"%char then (false, 1) else (false, 0)
    | [] => (false, 0)
    end in
  let '(v, n) := digits_value 0 (drop (ws + sign) s) in
  if (n =? 0)%nat then (0%Z, 0, false)
  else
    let v := if neg then (- v)%Z else v in
    let used := ws + sign + n in
    if (v <? LONG_MIN)%Z then (LONG_MIN, used, true)
    else if (v >? LONG_MAX)%Z then (LONG_MAX, used, true)
    else (v, used, false).

(** ** Decimal numerals: [std::to_string] of an unsigned value *)

Definition digit_char (n : nat) : ascii := ascii_of_nat (48 + n).

Fixpoint dec_fuel (fuel n : nat) : str :=
  match fuel with
  | 0 => []
  | S fuel' =>
      (if (n <? 10)%nat then [] else dec_fuel fuel' (n / 10)) ++ [digit_char (n mod 10)]
  end.

Definition dec (n : nat) : str := dec_fuel (S n) n.

Lemma code_digit_char n : n < 10 → code (digit_char n) = 48 + n.
Proof. intros. unfold code, digit_char. rewrite nat_ascii_embedding; lia. Qed.

Lemma isdigit_digit_char n : n < 10 → isdigit (digit_char n) = true.
Proof.
  intros. unfold isdigit. rewrite code_digit_char by done.
  apply andb_true_iff. rewrite !Nat.leb_le. lia.
Qed.

Lemma digit_value_digit_char n : n < 10 → digit_value (digit_char n) = Z.of_nat n.
Proof. intros. unfold digit_value. rewrite code_digit_char by done. lia. Qed.

Lemma dec_fuel_digits fuel n c : c ∈ dec_fuel fuel n → isdigit c = true.
Proof.
  revert n. induction fuel as [|fuel IH]; intros n; cbn [dec_fuel].
  - intros H. by apply not_elem_of_nil in H.
  - rewrite elem_of_app, list_elem_of_singleton. intros [H| ->].
    + destruct (n <? 10)%nat; [by apply not_elem_of_nil in H|by eapply IH].
    + apply isdigit_digit_char, Nat.mod_upper_bound. lia.
Qed.

Lemma dec_digits n c : c ∈ dec n → isdigit c = true.
Proof. apply dec_fuel_digits. Qed.

Lemma dec_nonempty n : dec n ≠ [].
Proof. unfold dec. cbn [dec_fuel]. by intros [_ [=]]%app_nil. Qed.

(** Reading digits back, stopping at the first non-digit. *)
Definition not_digit_head (s : str) : Prop :=
  match s with c :: _ => isdigit c = false | [] => True end.

Lemma digits_value_stop acc s : not_digit_head s → digits_value acc s = (acc, 0).
Proof. destruct s as [|c s]; simpl; [done|]. by intros ->. Qed.

Lemma digits_value_app acc l r :
  (∀ c, c ∈ l → isdigit c = true) →
  digits_value acc (l ++ r) =
    let '(v, n) := digits_value acc l in
    let '(v', n') := digits_value v r in (v', n + n').
Proof.
  revert acc. induction l as [|c l IH]; intros acc Hl; simpl.
  - by destruct (digits_value acc r).
  - rewrite (Hl c) by (by left). rewrite IH by (intros; apply Hl; by right).
    destruct (digits_value _ l) as [v n]. by destruct (digits_value v r).
Qed.

Lemma digits_value_dec_fuel fuel n :
  n < fuel →
  digits_value 0 (dec_fuel fuel n) = (Z.of_nat n, length (dec_fuel fuel n)).
Proof.
  revert n. induction fuel as [|fuel IH]; intros n Hn; [lia|].
  cbn [dec_fuel]. assert (n mod 10 < 10) by (apply Nat.mod_upper_bound; lia).
  rewrite digits_value_app, length_app.
  2: { intros c Hc. destruct (n <? 10)%nat; [by apply not_elem_of_nil in Hc|].
       by eapply dec_fuel_digits. }
  destruct (Nat.ltb_spec n 10) as [Hlt|Hge]; cbn [digits_value length].
  - rewrite isdigit_digit_char, digit_value_digit_char by done.
    rewrite Nat.mod_small by done. done.
  - rewrite IH. 2: { assert (n / 10 < n); [apply Nat.div_lt; lia|lia]. }
    rewrite isdigit_digit_char, digit_value_digit_char by done.
    f_equal. pose proof (Nat.div_mod_eq n 10). lia.
Qed.

Lemma digits_value_dec n : digits_value 0 (dec n) = (Z.of_nat n, length (dec n)).
Proof. apply digits_value_dec_fuel. lia. Qed.

(** ** Hints *)

#[export] Hint Rewrite c_str_idemp tolower_idemp : lore_rw.
#[export] Hint Resolve c_str_no_nul prefixb_app find_Some_le : lore.
