(* ===== verification/Assoc.v ===== *)
(** Ordered association lists, and the pattern several components share: a
    vector of entries together with a hash map from a key to its position in
    the vector.  [index_wf] is the invariant of such a pair; the lemmas say that
    lookup and update through the map are lookup and update of the ordered
    association list. *)

From S2P Require Import Prelude.

Section assoc.
Context {A : Type}.
Implicit Types l : list (str * A).

Fixpoint assoc_get (k : str) l : option A :=
  match l with
  | [] => None
  | (k', a) :: l' => if k =s? k' then Some a else assoc_get k l'
  end.

(** Update the entry of [k] in place, or append one. *)
Fixpoint assoc_set (k : str) (f : option A → A) l : list (str * A) :=
  match l with
  | [] => [(k, f None)]
  | (k', a) :: l' =>
      if k =s? k' then (k', f (Some a)) :: l' else (k', a) :: assoc_set k f l'
  end.

Lemma assoc_get_None k l : assoc_get k l = None ↔ k ∉ l.*1.
Proof.
  induction l as [|[k' a] l IH]; simpl.
  - split; [|done]. intros _ H. by apply not_elem_of_nil in H.
  - rewrite not_elem_of_cons. case_bool_decide; naive_solver.
Qed.

Lemma assoc_get_lookup k l a :
  NoDup l.*1 → assoc_get k l = Some a ↔ (k, a) ∈ l.
Proof.
  induction l as [|[k' b] l IH]; simpl.
  - intros _. split; [done|]. intros H. by apply not_elem_of_nil in H.
  - rewrite NoDup_cons. intros [Hk Hl]. rewrite elem_of_cons. specialize (IH Hl).
    case_bool_decide; subst.
    + split; [naive_solver|]. intros [|Hin]; [by simplify_eq|].
      exfalso. apply Hk. apply list_elem_of_fmap. by exists (k', a).
    + rewrite IH. naive_solver.
Qed.

Lemma assoc_get_set k f l : assoc_get k (assoc_set k f l) = Some (f (assoc_get k l)).
Proof.
  induction l as [|[k' b] l IH]; simpl.
  - by rewrite bool_decide_true.
  - case_bool_decide; simpl; [by rewrite bool_decide_true|].
    by rewrite bool_decide_false.
Qed.

Lemma assoc_get_set_ne k j f l :
  j ≠ k → assoc_get j (assoc_set k f l) = assoc_get j l.
Proof.
  intros Hne. induction l as [|[k' b] l IH]; simpl.
  - by rewrite bool_decide_false.
  - case_bool_decide; simpl; [|by rewrite IH]. subst. by rewrite bool_decide_false.
Qed.

Lemma assoc_set_keys k f l :
  (assoc_set k f l).*1 = if decide (k ∈ l.*1) then l.*1 else l.*1 ++ [k].
Proof.
  induction l as [|[k' b] l IH]; [done|]. rewrite fmap_cons. cbn [assoc_set fst].
  case_bool_decide as Hk; rewrite fmap_cons; cbn [fst].
  - subst. rewrite decide_True; [done|]. by left.
  - rewrite IH. destruct (decide (k ∈ l.*1)) as [Hl|Hl].
    + rewrite decide_True; [done|]. by right.
    + rewrite decide_False; [done|]. by rewrite not_elem_of_cons.
Qed.

Lemma assoc_set_NoDup k f l : NoDup l.*1 → NoDup (assoc_set k f l).*1.
Proof. rewrite assoc_set_keys. destruct (decide _); [done|]. intros. by apply NoDup_snoc. Qed.

Lemma assoc_set_new k f l : k ∉ l.*1 → assoc_set k f l = l ++ [(k, f None)].
Proof.
  induction l as [|[k' b] l IH]; simpl; [done|].
  rewrite not_elem_of_cons. intros [Hne Hl].
  rewrite bool_decide_false by done. by rewrite IH.
Qed.

Lemma assoc_set_app k f l1 l2 :
  k ∉ l1.*1 → assoc_set k f (l1 ++ l2) = l1 ++ assoc_set k f l2.
Proof.
  induction l1 as [|[k' b] l IH]; simpl; [done|].
  rewrite not_elem_of_cons. intros [Hne Hl].
  rewrite bool_decide_false by done. by rewrite IH.
Qed.

Lemma assoc_set_here k f a l : assoc_set k f ((k, a) :: l) = (k, f (Some a)) :: l.
Proof. simpl. by rewrite bool_decide_true. Qed.

Lemma assoc_set_at k f l i a :
  NoDup l.*1 → l !! i = Some (k, a) → assoc_set k f l = <[i := (k, f (Some a))]> l.
Proof.
  revert i. induction l as [|[k' b] l IH]; intros i; simpl; [done|].
  rewrite NoDup_cons. intros [Hk Hl] Hi. destruct i as [|i]; simpl in *.
  - simplify_eq. by rewrite bool_decide_true.
  - rewrite bool_decide_false; [by rewrite (IH i)|].
    intros ->. apply Hk. apply list_elem_of_fmap. exists (k', a).
    split; [done|]. by eapply list_elem_of_lookup_2.
Qed.

Lemma assoc_get_at k l i a :
  NoDup l.*1 → l !! i = Some (k, a) → assoc_get k l = Some a.
Proof.
  intros Hl Hi. apply assoc_get_lookup; [done|]. by eapply list_elem_of_lookup_2.
Qed.
End assoc.

(** ** The index of a vector *)

Definition index_wf (index : gmap str nat) (keys : list str) : Prop :=
  ∀ k i, index !! k = Some i ↔ keys !! i = Some k.

Lemma index_wf_NoDup index keys : index_wf index keys → NoDup keys.
Proof.
  intros H. apply NoDup_alt. intros i j x Hi Hj. apply H in Hi, Hj. congruence.
Qed.

Lemma index_wf_None index keys k : index_wf index keys → index !! k = None ↔ k ∉ keys.
Proof.
  intros H. split.
  - intros Hn [i Hi]%list_elem_of_lookup. apply H in Hi. congruence.
  - intros Hk. apply eq_None_ne_Some. intros i Hi%H. apply Hk.
    by eapply list_elem_of_lookup_2.
Qed.

Lemma index_wf_nil : index_wf ∅ [].
Proof. intros k i. by rewrite lookup_empty, lookup_nil. Qed.

Lemma index_wf_snoc index keys k :
  index_wf index keys → k ∉ keys →
  index_wf (<[k := length keys]> index) (keys ++ [k]).
Proof.
  intros H Hk j i. destruct (decide (j = k)) as [->|Hne].
  - rewrite lookup_insert_eq. split.
    + intros [= <-]. rewrite lookup_app_r by lia. by rewrite Nat.sub_diag.
    + intros [[Hi Hl]|[-> _]]%lookup_snoc_Some_inv; [|done].
      exfalso. apply Hk. by eapply list_elem_of_lookup_2.
  - rewrite lookup_insert_ne by done. rewrite (H j i). split.
    + intros Hi. by apply lookup_app_l_Some.
    + by intros [[Hi Hl]|[-> ->]]%lookup_snoc_Some_inv.
Qed.

#[export] Hint Resolve index_wf_nil index_wf_snoc index_wf_NoDup assoc_set_NoDup : lore.

Lemma index_wf_lookup {A} index (l : list (str * A)) k i :
  index_wf index l.*1 → index !! k = Some i → ∃ a, l !! i = Some (k, a).
Proof.
  intros H Hi%H. rewrite list_lookup_fmap in Hi.
  destruct (l !! i) as [[k' a]|]; simplify_eq/=. eauto.
Qed.
