(* ===== verification/FsPath.v ===== *)
(** The operations of [std::filesystem::path] the modelled code uses, on POSIX
    path names: [operator/], [parent_path], [filename] and [lexically_normal]. *)

From S2P Require Import Prelude CppString.

Definition slash : ascii := "/"%char.

Definition is_absolute (p : str) : bool := starts_with_char p slash.

(** [p / q]: an absolute [q] replaces [p]; a separator is added only after a
    path that has a file name. *)
Definition path_append (p q : str) : str :=
  if is_absolute q then q
  else match p with
       | [] => q
       | _ => if ends_with_char p slash then p ++ q else p ++ slash :: q
       end.

Fixpoint strip_slashes_rev (p : str) : str :=
  match p with
  | c :: p' => if c =c? slash then strip_slashes_rev p' else p
  | [] => []
  end.
Definition strip_trailing_slashes (p : str) : str := List.rev (strip_slashes_rev (List.rev p)).

(** Everything before the last component; the root is its own parent. *)
Definition parent_path (p : str) : str :=
  match rfind_char slash p with
  | None => []
  | Some i =>
      match strip_trailing_slashes (take i p) with
      | [] => [slash]
      | q => q
      end
  end.

Definition filename (p : str) : str :=
  match rfind_char slash p with
  | None => p
  | Some i => drop (S i) p
  end.

(** The pieces between the separators; empty pieces stand for repeated,
    leading and trailing separators. *)
Fixpoint path_pieces (p cur : str) : list str :=
  match p with
  | [] => [cur]
  | c :: p' => if c =c? slash then cur :: path_pieces p' [] else path_pieces p' (cur ++ [c])
  end.

(** [names] is the reversed stack of kept names, [dir] whether the path read so
    far ends in a directory position. *)
Fixpoint normal_loop (abs : bool) (pieces names : list str) (dir : bool) : list str * bool :=
  match pieces with
  | [] => (names, dir)
  | piece :: pieces' =>
      if (piece =s? []) || (piece =s? $".") then normal_loop abs pieces' names true
      else if piece =s? $".." then
        match names with
        | [] => if abs then normal_loop abs pieces' [] true
                else normal_loop abs pieces' [piece] false
        | top :: names' =>
            if top =s? $".." then normal_loop abs pieces' (piece :: names) false
            else normal_loop abs pieces' names' true
        end
      else normal_loop abs pieces' (piece :: names) false
  end.

Fixpoint join_pieces (ps : list str) : str :=
  match ps with
  | [] => []
  | [p] => p
  | p :: ps' => p ++ slash :: join_pieces ps'
  end.

Definition lexically_normal (p : str) : str :=
  match p with
  | [] => []
  | _ =>
      let abs := is_absolute p in
      let '(names, dir) := normal_loop abs (path_pieces p []) [] false in
      let root := if abs then [slash] else [] in
      match names with
      | [] => if abs then [slash] else $"."
      | top :: _ =>
          root ++ join_pieces (List.rev names) ++
          (if dir && negb (top =s? $"..") then [slash] else [])
      end
  end.

Example parent_path_ex :
  (parent_path <$> [$"a/b"; $"/a"; $"a"; $"a/"; $"a//b"; $"/"])
  = [$"a"; $"/"; []; $"a"; $"a"; $"/"].
Proof. reflexivity. Qed.
Example lexically_normal_ex :
  (lexically_normal <$> [$"/a/./b/../c"; $"a/.."; $"../a/"; $"a//b/."; $"/.."; $"a/b/.."])
  = [$"/a/c"; $"."; $"../a/"; $"a/b/"; $"/"; $"a/"].
Proof. reflexivity. Qed.

(** ** Lemmas *)

Lemma path_append_nonempty p q : p ≠ [] → path_append p q ≠ [].
Proof.
  intros Hp. unfold path_append. destruct (is_absolute q) eqn:E.
  - by destruct q.
  - destruct p; [done|]. by destruct (ends_with_char _ _).
Qed.

Lemma ends_with_char_snoc s c d : ends_with_char (s ++ [d]) c = (d =c? c).
Proof. unfold ends_with_char. by rewrite rev_app_distr. Qed.

(** A plain file name: no separator, not empty. *)
Definition plain_name (n : str) : Prop := (n ≠ []) ∧ (slash ∉ n).

Lemma path_append_plain p n :
  plain_name n → p ≠ [] → ends_with_char p slash = false →
  path_append p n = p ++ slash :: n.
Proof.
  intros [Hn Hs] Hp He. unfold path_append, is_absolute, starts_with_char.
  destruct n as [|c n]; [done|]. apply not_elem_of_cons in Hs as [Hc _].
  apply not_eq_sym, Ascii.eqb_neq in Hc. rewrite Hc. destruct p; [done|]. by rewrite He.
Qed.

Lemma filename_append p n :
  plain_name n → p ≠ [] → ends_with_char p slash = false →
  filename (path_append p n) = n.
Proof.
  intros Hn Hp He. rewrite path_append_plain by done. destruct Hn as [_ Hs].
  unfold filename. rewrite rfind_char_app by done.
  change (slash :: n) with ([slash] ++ n). rewrite app_assoc.
  replace (S (length p)) with (length (p ++ [slash])) by (rewrite length_app; simpl; lia).
  by rewrite drop_app_length.
Qed.

Lemma strip_slashes_rev_id p :
  starts_with_char p slash = false → strip_slashes_rev p = p.
Proof. destruct p as [|c p]; simpl; [done|]. by intros ->. Qed.

Lemma strip_trailing_slashes_id p :
  ends_with_char p slash = false → strip_trailing_slashes p = p.
Proof.
  intros H. unfold strip_trailing_slashes.
  rewrite strip_slashes_rev_id; [apply rev_involutive|exact H].
Qed.

Lemma parent_path_append p n :
  plain_name n → p ≠ [] → ends_with_char p slash = false →
  parent_path (path_append p n) = p.
Proof.
  intros Hn Hp He. rewrite path_append_plain by done. destruct Hn as [_ Hs].
  unfold parent_path. rewrite rfind_char_app by done.
  rewrite take_app_length, strip_trailing_slashes_id by done. by destruct p.
Qed.

#[export] Hint Rewrite filename_append parent_path_append using done : lore_rw.
