(* ===== verification/StringExtras.v ===== *)
(** String algorithms of the Support library
    ([src/libs/Support/StringExtras.cpp] and its header): [split], [join],
    [replace], the trimming family, [%N] formatting and [${VAR}] expansion.

    A [std::string_view] into the input is modelled by the bytes it denotes.
    The scanning loops are written on the suffix that starts at the scan
    position, so [s[i]] is the head of the suffix and [i + 1 < s.size()] is the
    test that it has a second element. *)

From S2P Require Import Prelude CppString.

(** ** Joining *)

(** [for (i = 0; i < size - 1; ++i) { append(v[i]); append(delim); }
    append(v.back())] on a non-empty [v]. *)
Fixpoint join_loop (v : list str) (delimiter res : str) : str :=
  match v with
  | [] => res
  | [x] => res ++ x
  | x :: v' => join_loop v' delimiter (res ++ x ++ delimiter)
  end.

Definition join (v : list str) (delimiter : str) : str :=
  match v with [] => [] | _ => join_loop v delimiter [] end.

(** ** Splitting *)

Fixpoint split_loop (fuel : nat) (s delimiter : str) (start : nat)
    (end_ : option nat) (tokens : list str) : run (list str) :=
  match end_ with
  | None => Done (tokens ++ [drop start s])
  | Some e =>
      match fuel with
      | 0 => NoFuel
      | S fuel' =>
          let tokens := tokens ++ [substr s start (e - start)] in
          let start := e + length delimiter in
          split_loop fuel' s delimiter start (find_from delimiter s start) tokens
      end
  end.

Definition split_fuel (fuel : nat) (s delimiter : str) : run (list str) :=
  split_loop fuel s delimiter 0 (find delimiter s) [].

(** The number of iterations [split] needs on a non-empty delimiter. *)
Definition split (s delimiter : str) : run (list str) :=
  split_fuel (S (length s)) s delimiter.

(** ** Replacing *)

(** [while ((start_pos = str.find(from, start_pos)) != npos)], mutating [s]. *)
Fixpoint replace_loop (fuel : nat) (s from to_ : str) (start_pos : nat) : run str :=
  match find_from from s start_pos with
  | None => Done s
  | Some p =>
      match fuel with
      | 0 => NoFuel
      | S fuel' =>
          let s := take p s ++ to_ ++ drop (p + length from) s in
          replace_loop fuel' s from to_ (p + length to_)
      end
  end.

Definition replace (s from to_ : str) : run str :=
  match from with
  | [] => Done s
  | _ => replace_loop (S (length s)) s from to_ 0
  end.

(** ** Trimming *)

Definition default_trim_chars : str :=
  [" "%char; c_tab; c_nl; c_vt; c_ff; c_cr].

(** [s.substr(N)], which throws past the end: the callers below stay within. *)
Definition drop_front (s : str) (N : nat) : str := drop N s.

(** [s.substr(0, s.size() - N)]: the count wraps around when [N] is too large,
    and [substr] clips it to the whole string. *)
Definition drop_back (s : str) (N : nat) : str :=
  if (N <=? length s)%nat then take (length s - N) s else s.

(** [std::min(s.size(), npos)] is [s.size()]. *)
Definition ltrim (s chars : str) : str :=
  drop_front s
    (match find_first_not_of chars s with
     | Some i => Nat.min (length s) i
     | None => length s
     end).

(** [npos + 1] wraps to [0]. *)
Definition rtrim (s chars : str) : str :=
  drop_back s
    (length s -
     Nat.min (length s)
       (match find_last_not_of chars s with Some i => i + 1 | None => 0 end)).

Definition trim (s chars : str) : str := rtrim (ltrim s chars) chars.

Definition to_lower (s : str) : str := tolower <$> s.

(** ** Positional formatting *)

(** The digits after [%]: the value read so far, the bytes consumed and the
    rest.  [index * 10 + digit] is computed in [int]. *)
Fixpoint format_index (index : Z) (q consumed : str) : run (Z * str * str) :=
  match q with
  | c :: q' =>
      if isdigit c then
        let index' := (index * 10 + digit_value c)%Z in
        if (index' <=? INT_MAX)%Z then format_index index' q' (consumed ++ [c])
        else Undef
      else Done (index, consumed, q)
  | [] => Done (index, consumed, [])
  end.

Definition push_segment (parts : list str) (segment : str) : list str :=
  match segment with [] => parts | _ => parts ++ [segment] end.

(** [rest] is the text from [p] on, [segment] the text between
    [segment_start] and [p]. *)
Fixpoint format_loop (fuel : nat) (rest segment : str) (parts args : list str)
    : run (list str) :=
  match fuel with
  | 0 => NoFuel
  | S fuel' =>
      match rest with
      | [] => Done (push_segment parts segment)
      | c :: rest1 =>
          match rest1 with
          | next :: rest2 =>
              if c =c? "%"%char then
                if next =c? "%"%char then
                  format_loop fuel' rest2 []
                    (push_segment parts segment ++ [["%"%char]]) args
                else if isdigit next then
                  '(index, consumed, q) ← format_index (digit_value next) rest2 [c; next];
                  let index := (index - 1)%Z in
                  if (0 <=? index)%Z && (index <? Z.of_nat (length args))%Z then
                    let arg := match args !! Z.to_nat index with
                               | Some a => a | None => [] end in
                    format_loop fuel' q [] (push_segment parts segment ++ [arg]) args
                  else format_loop fuel' q (segment ++ consumed) parts args
                else format_loop fuel' rest1 (segment ++ [c]) parts args
              else format_loop fuel' rest1 (segment ++ [c]) parts args
          | [] => format_loop fuel' rest1 (segment ++ [c]) parts args
          end
      end
  end.

Definition format (fmt : str) (args : list str) : run str :=
  parts ← format_loop (S (length fmt)) fmt [] [] args;
  Done (concat parts).

(** ** Variable expansion *)

Inductive varexp_part_type : Type :=
  | literal
  | literal_with_dollar
  | variable
  | nested_variable.

Record varexp_part : Type := VarexpPart {
  part_type : varexp_part_type;
  part_data : str;
}.

(** The inner loop of [varexp_split]: scan from just after a [${] until its
    braces balance.  Returns the brace count left, whether a nested [${] was
    seen, the text scanned and the rest. *)
Fixpoint varexp_braces (rest : str) (braceCount : nat) (nested : bool)
    (scanned : str) : nat * bool * str * str :=
  match braceCount with
  | 0 => (braceCount, nested, scanned, rest)
  | S fewer =>
      match rest with
      | [] => (braceCount, nested, scanned, rest)
      | c :: rest1 =>
          let single :=
            varexp_braces rest1 (if c =c? "}"%char then fewer else braceCount)
              nested (scanned ++ [c]) in
          match rest1 with
          | d :: rest2 =>
              if (c =c? "$"%char) && (d =c? "{"%char) then
                varexp_braces rest2 (S braceCount) true (scanned ++ [c; d])
              else single
          | [] => single
          end
      end
  end.

Definition push_part (result : list varexp_part) (ty : varexp_part_type) (buf : str)
    : list varexp_part :=
  match buf with [] => result | _ => result ++ [VarexpPart ty buf] end.

(** [None] is the "invalid expression" return. *)
Fixpoint varexp_split_loop (fuel : nat) (rest : str) (ty : varexp_part_type)
    (buf : str) (result : list varexp_part) : run (option (list varexp_part)) :=
  match fuel with
  | 0 => NoFuel
  | S fuel' =>
      match rest with
      | [] => Done (Some (push_part result ty buf))
      | c :: rest1 =>
          match rest1 with
          | d :: rest2 =>
              if c =c? "$"%char then
                if d =c? "{"%char then
                  let '(braceCount, nested, scanned, rest') :=
                    varexp_braces rest2 1 false [] in
                  if (braceCount =? 0)%nat then
                    let name := take (length scanned - 1) scanned in
                    let part := VarexpPart
                      (if nested then nested_variable else variable) name in
                    varexp_split_loop fuel' rest' literal []
                      (push_part result ty buf ++ [part])
                  else Done None
                else
                  varexp_split_loop fuel' rest2 literal_with_dollar (buf ++ [c; d]) result
              else varexp_split_loop fuel' rest1 ty (buf ++ [c]) result
          | [] => varexp_split_loop fuel' rest1 ty (buf ++ [c]) result
          end
      end
  end.

Definition varexp_split (s : str) : run (option (list varexp_part)) :=
  varexp_split_loop (S (length s)) s literal [] [].

(** Collapse each ["$$"] into one ['$']. *)
Fixpoint varexp_post (s : str) : str :=
  match s with
  | c :: s1 =>
      match s1 with
      | d :: s2 =>
          if (c =c? "$"%char) && (d =c? "$"%char) then c :: varexp_post s2
          else c :: varexp_post s1
      | [] => [c]
      end
  | [] => []
  end.

(** The loop over the parts; [rec] is the recursive call of [varexp]. *)
Fixpoint varexp_expand (rec : str → run str) (find : str → str)
    (parts : list varexp_part) (result : str) : run str :=
  match parts with
  | [] => Done result
  | part :: parts' =>
      match part_type part with
      | literal | literal_with_dollar =>
          varexp_expand rec find parts' (result ++ part_data part)
      | variable => varexp_expand rec find parts' (result ++ find (part_data part))
      | nested_variable =>
          name ← rec (part_data part);
          varexp_expand rec find parts' (result ++ find name)
      end
  end.

(** The recursion on nested variables, bounded by [fuel]. *)
Fixpoint varexp_fuel (fuel : nat) (s : str) (find : str → str) : run str :=
  match fuel with
  | 0 => NoFuel
  | S fuel' =>
      split ← varexp_split s;
      match split with
      | None => Done []
      | Some parts =>
          result ← varexp_expand (λ s, varexp_fuel fuel' s find) find parts [];
          Done (varexp_post result)
      end
  end.

Definition varexp (s : str) (find : str → str) : run str :=
  varexp_fuel (S (length s)) s find.

(** The overload over a map: an unknown variable is the empty string. *)
Definition map_find (vars : gmap str str) (name : str) : str :=
  default [] (vars !! name).
Definition varexp_map (s : str) (vars : gmap str str) : run str :=
  varexp s (map_find vars).

(** ** Checks against the unit tests of the repository *)

Example split_ex : split ($"a,,c") ($",") = Done [$"a"; []; $"c"].
Proof. reflexivity. Qed.
Example format_ex : format ($"%1-%2 %%%9") [$"x"; $"3"] = Done ($"x-3 %%9").
Proof. reflexivity. Qed.
Definition nested_vars : gmap str str :=
  list_to_map [($"k", $"a"); ($"a", $"1"); ($"i", $"1"); ($"x_1", $"foo")].
Example varexp_nested_ex : varexp_map ($"${${k}}/${x_${i}}") nested_vars = Done ($"1/foo").
Proof. vm_compute. reflexivity. Qed.
Example varexp_invalid_ex : varexp_map ($"a${k") nested_vars = Done [].
Proof. vm_compute. reflexivity. Qed.
Example replace_ex : replace ($"aXbXX") ($"X") ($"XY") = Done ($"aXYbXYXY").
Proof. reflexivity. Qed.

(** ** Splitting, joining and replacing *)

Arguments join : simpl never.

Lemma join_loop_acc v d res : v ≠ [] → join_loop v d res = res ++ join v d.
Proof.
  intros Hv. unfold join. destruct v as [|x v]; [done|]. clear Hv.
  revert x res. induction v as [|y v IH]; intros x res; [done|].
  change (join_loop (y :: v) d (res ++ x ++ d)
          = res ++ join_loop (y :: v) d (x ++ d)).
  rewrite IH, (IH y (x ++ d)). by rewrite <- !app_assoc.
Qed.

Lemma join_cons x v d : v ≠ [] → join (x :: v) d = x ++ d ++ join v d.
Proof.
  intros Hv. destruct v as [|y v]; [done|].
  change (join_loop (y :: v) d ([] ++ x ++ d) = x ++ d ++ join (y :: v) d).
  rewrite join_loop_acc by done. by rewrite <- !app_assoc.
Qed.

Lemma join_singleton x d : join [x] d = x.
Proof. done. Qed.

(** The tokens of a string: [take i s] up to the first delimiter, then those of
    the rest. *)
Inductive tokens (d : str) : str → list str → Prop :=
  | tokens_last s : find d s = None → tokens d s [s]
  | tokens_next s i v :
      find d s = Some i → tokens d (drop (i + length d) s) v →
      tokens d s (take i s :: v).

Lemma tokens_nonempty d s v : tokens d s v → v ≠ [].
Proof. by destruct 1. Qed.

Lemma tokens_join d s v : tokens d s v → join v d = s.
Proof.
  induction 1 as [s Hf|s i v Hf Ht IH]; [done|].
  rewrite join_cons by (by eapply tokens_nonempty). rewrite IH.
  symmetry. by apply find_Some_split.
Qed.

Lemma tokens_clean d s v t : d ≠ [] → tokens d s v → t ∈ v → find d t = None.
Proof.
  intros Hd Ht. induction Ht as [s Hf|s i v Hf Ht IH].
  - by intros ->%list_elem_of_singleton.
  - intros [->|?]%elem_of_cons; [|auto].
    destruct (find d (take i s)) as [j|] eqn:E; [|done]. exfalso.
    pose proof (find_Some_le _ _ _ E) as Hle. rewrite length_take in Hle.
    destruct (find_Some _ _ _ E) as (_ & [k Hk] & _).
    destruct (find_Some _ _ _ Hf) as (_ & _ & Hmin).
    assert (length d ≠ 0) by (by destruct d).
    apply (Hmin j); [lia|]. exists (k ++ drop i s).
    rewrite app_assoc, <- Hk.
    rewrite <- (take_drop i s) at 1. rewrite drop_app_le; [done|].
    rewrite length_take. lia.
Qed.

Lemma find_from_drop d s start i :
  find_from d s start = Some i →
  start ≤ length s ∧ start ≤ i ∧ find d (drop start s) = Some (i - start).
Proof.
  unfold find_from. case_bool_decide; [|done].
  intros (k & -> & ->)%fmap_Some. split_and!; [done|lia|]. f_equal. lia.
Qed.

Lemma find_from_drop_None d s start :
  start ≤ length s → find_from d s start = None → find d (drop start s) = None.
Proof.
  unfold find_from. intros Hs. rewrite bool_decide_true by done.
  apply fmap_None.
Qed.

Lemma split_loop_tokens fuel s d start toks :
  d ≠ [] → start ≤ length s → length s - start < fuel →
  ∃ v, tokens d (drop start s) v ∧
       split_loop fuel s d start (find_from d s start) toks = Done (toks ++ v).
Proof.
  intros Hd. revert start toks. induction fuel as [|fuel IH]; intros start toks Hs Hf;
    [lia|].
  destruct (find_from d s start) as [e|] eqn:E.
  - apply find_from_drop in E as (_ & Hse & Hfind).
    pose proof (find_Some_le _ _ _ Hfind) as Hle. rewrite length_drop in Hle.
    assert (length d ≠ 0) by (by destruct d).
    destruct (IH (e + length d) (toks ++ [substr s start (e - start)])) as (v & Hv & Hl);
      [lia|lia|].
    eexists (_ :: v). split.
    + apply (tokens_next _ _ (e - start)); [done|].
      rewrite drop_drop. by replace (start + _) with (e + length d) by lia.
    + cbn [split_loop]. rewrite Hl. by rewrite <- app_assoc.
  - exists [drop start s]. split; [|done].
    by apply tokens_last, find_from_drop_None.
Qed.

Lemma find_find_from d s : find d s = find_from d s 0.
Proof.
  unfold find_from. rewrite bool_decide_true by lia. rewrite drop_0.
  by destruct (find d s).
Qed.

Lemma split_tokens s d :
  d ≠ [] → ∃ v, tokens d s v ∧ split s d = Done v.
Proof.
  intros Hd. unfold split, split_fuel. rewrite find_find_from.
  destruct (split_loop_tokens (S (length s)) s d 0 []) as (v & Hv & ->);
    [done|lia|lia|].
  exists v. by rewrite drop_0 in Hv.
Qed.

Lemma tokens_char_join c v :
  v ≠ [] → Forall (λ t, c ∉ t) v → tokens [c] (join v [c]) v.
Proof.
  induction v as [|x v IH]; intros Hne Hv; [done|].
  apply Forall_cons in Hv as [Hx Hv]. destruct v as [|y v].
  - apply tokens_last, find_char_None, Hx.
  - rewrite join_cons by done.
    rewrite <- (take_app_length x ([c] ++ join (y :: v) [c])) at 2.
    apply tokens_next; [by apply find_char_app|].
    simpl length. rewrite app_assoc.
    replace (length x + 1) with (length (x ++ [c])) by (rewrite length_app; done).
    rewrite drop_app_length. by apply IH.
Qed.

Lemma tokens_det d s v w : tokens d s v → tokens d s w → v = w.
Proof.
  intros Hv. revert w. induction Hv as [s Hf|s i v Hf Hv IH]; intros w Hw;
    inversion Hw; simplify_eq; [done|]. f_equal. by apply IH.
Qed.

Lemma replace_loop_tokens fuel done_ rest from to_ v :
  from ≠ [] → length rest < fuel → tokens from rest v →
  replace_loop fuel (done_ ++ rest) from to_ (length done_)
  = Done (done_ ++ join v to_).
Proof.
  intros Hd. revert done_ rest v. induction fuel as [|fuel IH];
    intros done_ rest v Hf Hv; [lia|].
  cbn [replace_loop]. unfold find_from. rewrite length_app, bool_decide_true by lia.
  rewrite drop_app_length.
  destruct Hv as [s Hn|s i v Hs Hv]; rewrite ?Hn, ?Hs; [done|].
  simpl. pose proof (find_Some_le _ _ _ Hs).
  assert (length from ≠ 0) by (by destruct from).
  rewrite take_app_ge, drop_app_ge by lia.
  replace (length done_ + i - length done_) with i by lia.
  replace (length done_ + i + length from - length done_) with (i + length from) by lia.
  rewrite !app_assoc.
  replace (length done_ + i + length to_) with (length ((done_ ++ take i s) ++ to_)).
  2: { rewrite !length_app, length_take. lia. }
  rewrite (IH _ _ v); [|rewrite length_drop; lia|done].
  rewrite join_cons by (by eapply tokens_nonempty). by rewrite <- !app_assoc.
Qed.

(** ** Properties of splitting *)

(** [split] terminates on every non-empty delimiter; joining its tokens
    with the delimiter gives the input back, and no token contains the
    delimiter. *)
Theorem split_join s d :
  d ≠ [] →
  ∃ v, split s d = Done v ∧ join v d = s ∧ Forall (λ t, find d t = None) v.
Proof.
  intros Hd. destruct (split_tokens s d Hd) as (v & Hv & Hs). exists v.
  split_and!; [done|by eapply tokens_join|].
  apply Forall_forall. intros t Ht. by eapply tokens_clean.
Qed.

Lemma split_join_witness :
  [";"%char] ≠ [] ∧
  ∃ v, split ($"a;;b") [";"%char] = Done v ∧ join v [";"%char] = $"a;;b" ∧
       Forall (λ t, find [";"%char] t = None) v.
Proof. split; [done|]. apply (split_join ($"a;;b") [";"%char]). done. Defined.

(** [split] is a left inverse of [join] for a one-character delimiter, the
    form in which the callers use it: tokens free of the delimiter come back
    unchanged, empty ones included. *)
Theorem join_split c v :
  v ≠ [] → Forall (λ t, c ∉ t) v → split (join v [c]) [c] = Done v.
Proof.
  intros Hne Hv. destruct (split_tokens (join v [c]) [c]) as (w & Hw & ->); [done|].
  f_equal. eapply tokens_det; [done|]. by apply tokens_char_join.
Qed.

Lemma join_split_witness :
  split (join [$"a"; []; $"b"] [";"%char]) [";"%char] = Done [$"a"; []; $"b"].
Proof.
  apply (join_split ";"%char [$"a"; []; $"b"]); [done|].
  apply (bool_decide_unpack _). by vm_compute.
Defined.

(** An empty delimiter is found again at every position: the loop of [split]
    pushes empty tokens for ever. *)
Lemma split_empty_delimiter fuel s : split_fuel fuel s [] = NoFuel.
Proof.
  unfold split_fuel. rewrite find_find_from.
  assert (find_from [] s 0 = Some 0) as ->.
  { rewrite <- find_find_from. by destruct s. }
  generalize (@nil (list ascii)). induction fuel as [|fuel IH]; intros toks; [done|].
  cbn [split_loop length Nat.add]. rewrite <- find_find_from.
  replace (find [] s) with (Some 0) by (by destruct s). apply IH.
Qed.

Lemma replace_total s from to_ : from ≠ [] → ∃ r, replace s from to_ = Done r.
Proof.
  intros Hd. destruct (split_tokens s from Hd) as (v & Hv & Hs).
  exists (join v to_). unfold replace. destruct from as [|c from]; [done|].
  apply (replace_loop_tokens _ []); [done|lia|done].
Qed.

(** [replace], which edits the string in place while it searches it, is the
    split on [from] joined with [to_]; replaced text is never searched again, so
    it terminates whatever [to_] contains. *)
Theorem replace_split s from to_ :
  from ≠ [] →
  ∃ v, split s from = Done v ∧ replace s from to_ = Done (join v to_).
Proof.
  intros Hd. destruct (split_tokens s from Hd) as (v & Hv & Hs).
  exists v. split; [done|]. unfold replace. destruct from as [|c from]; [done|].
  apply (replace_loop_tokens _ []); [done|lia|done].
Qed.

Lemma replace_split_witness :
  $"X" ≠ [] ∧
  ∃ v, split ($"aXb") ($"X") = Done v ∧
       replace ($"aXb") ($"X") ($"XX") = Done (join v ($"XX")).
Proof. split; [done|]. apply (replace_split ($"aXb") ($"X") ($"XX")). done. Defined.

(** ** Trimming *)

Definition clean_ends (chars s : str) : Prop :=
  (∀ c, head s = Some c → c ∉ chars) ∧ (∀ c, last s = Some c → c ∉ chars).

Lemma ltrim_spec s chars :
  ∃ l, s = l ++ ltrim s chars ∧ (∀ c, c ∈ l → c ∈ chars) ∧
       (∀ c, head (ltrim s chars) = Some c → c ∉ chars).
Proof.
  unfold ltrim, drop_front. destruct (find_first_not_of chars s) as [i|] eqn:E.
  - apply find_first_not_of_Some in E as (Hi & Hin & c & Hc & Hn).
    rewrite Nat.min_r by lia. exists (take i s). split_and!; [by rewrite take_drop|done|].
    intros d. rewrite head_lookup, lookup_drop, Nat.add_0_r, Hc. congruence.
  - exists s. rewrite drop_all, app_nil_r. split_and!; [done| |done].
    by apply find_first_not_of_None.
Qed.

Lemma rtrim_spec s chars :
  ∃ r, s = rtrim s chars ++ r ∧ (∀ c, c ∈ r → c ∈ chars) ∧
       (∀ c, last (rtrim s chars) = Some c → c ∉ chars).
Proof.
  unfold rtrim, drop_back. rewrite (proj2 (Nat.leb_le _ _)) by lia.
  destruct (find_last_not_of chars s) as [i|] eqn:E.
  - apply find_last_not_of_Some in E as (Hi & Hin & c & Hc & Hn).
    rewrite Nat.min_r by lia.
    replace (length s - (length s - (i + 1))) with (S i) by lia.
    exists (drop (S i) s). split_and!; [by rewrite take_drop|done|].
    intros d. rewrite (take_S_r _ _ c) by done. rewrite last_snoc. congruence.
  - rewrite Nat.min_r by lia. replace (length s - _) with 0 by lia.
    exists s. split_and!; [done| |done]. by apply find_last_not_of_None.
Qed.

Lemma rtrim_head s chars c : head (rtrim s chars) = Some c → head s = Some c.
Proof.
  destruct (rtrim_spec s chars) as (r & Hr & _). intros H.
  rewrite Hr. destruct (rtrim s chars); [done|]. done.
Qed.

(** What remains after trimming is determined by: characters of the set on
    both sides, and a middle that neither begins nor ends with one. *)
Lemma trimmed_unique chars l m r m' :
  (∀ c, c ∈ l → c ∈ chars) → (∀ c, c ∈ r → c ∈ chars) →
  clean_ends chars m → clean_ends chars m' →
  ∀ l' r', (∀ c, c ∈ l' → c ∈ chars) → (∀ c, c ∈ r' → c ∈ chars) →
  l ++ m ++ r = l' ++ m' ++ r' → m = m'.
Proof.
  assert (∀ m m' r r' : str, (∀ c, last m = Some c → c ∉ chars) →
    (∀ c, c ∈ r' → c ∈ chars) → m ++ r = m' ++ r' → length m ≤ length m') as Hlen.
  { intros n n' s s' Hn Hs Heq. destruct (decide (length n ≤ length n')); [done|].
    exfalso. destruct (last n) as [c|] eqn:El.
    - apply last_Some in El as [k ->]. apply (Hn c); [done|].
      apply Hs. rewrite length_app in *. simpl in *.
      assert (s' = drop (length n') (k ++ [c]) ++ s) as ->.
      { transitivity (drop (length n') (n' ++ s')); [by rewrite drop_app_length|].
        rewrite <- Heq. apply drop_app_le. rewrite length_app. simpl. lia. }
      rewrite drop_app_le by lia. set_solver.
    - apply last_None in El as ->. simpl in *. lia. }
  assert (∀ m m' l l' s s' : str, (∀ c, head m = Some c → c ∉ chars) →
    (∀ c, c ∈ l' → c ∈ chars) → m = [] ∨ m ≠ [] →
    l ++ m ++ s = l' ++ m' ++ s' → m ≠ [] → length l' ≤ length l) as Hpre.
  { intros n n' k k' s s' Hn Hk _ Heq Hne. destruct (decide (length k' ≤ length k)); [done|].
    exfalso. destruct n as [|c n]; [done|]. apply (Hn c); [done|]. apply Hk.
    apply list_elem_of_lookup. exists (length k).
    rewrite <- (lookup_app_l k' (n' ++ s')) by lia. rewrite <- Heq.
    rewrite lookup_app_r by lia. by rewrite Nat.sub_diag. }
  intros Hl Hr [Hm1 Hm2] [Hm1' Hm2'] l' r' Hl' Hr' Heq.
  assert (m = [] → m' = []) as Hnil.
  { intros ->. destruct m' as [|c m']; [done|]. exfalso.
    apply (Hm1' c); [done|]. simpl in Heq.
    assert (c ∈ l ++ r) as Hc by (rewrite Heq; set_solver).
    apply elem_of_app in Hc as [?|?]; auto. }
  destruct m as [|c m]; [by rewrite Hnil|].
  destruct m' as [|c' m'].
  { exfalso. apply (Hm1 c); [done|].
    assert (c ∈ l' ++ r') as Hc by (simpl in Heq; rewrite <- Heq; set_solver).
    apply elem_of_app in Hc as [?|?]; auto. }
  assert (length l = length l') as Hll.
  { apply Nat.le_antisymm.
    - eapply (Hpre (c' :: m') (c :: m)); [..|symmetry; apply Heq|done]; auto.
    - eapply (Hpre (c :: m) (c' :: m')); [..|apply Heq|done]; auto. }
  apply app_inj_1 in Heq as [-> Heq]; [|done].
  assert (length (c :: m) = length (c' :: m')) as Hmm.
  { apply Nat.le_antisymm; [by eapply Hlen|by eapply (Hlen (c' :: m') _ r' r)]. }
  by apply app_inj_1 in Heq as [-> _].
Qed.

(** The shape [trim] gives. *)
Lemma trim_shape s chars :
  ∃ l r, s = l ++ trim s chars ++ r ∧
         (∀ c, c ∈ l → c ∈ chars) ∧ (∀ c, c ∈ r → c ∈ chars) ∧
         clean_ends chars (trim s chars).
Proof.
  destruct (ltrim_spec s chars) as (l & Hl & Hlc & Hh).
  destruct (rtrim_spec (ltrim s chars) chars) as (r & Hr & Hrc & Hlast).
  exists l, r. unfold trim. split_and!; [by rewrite <- Hr|done|done|].
  split; [|done]. intros c Hc%rtrim_head. auto.
Qed.

Lemma trim_unique s chars l m r :
  s = l ++ m ++ r → (∀ c, c ∈ l → c ∈ chars) → (∀ c, c ∈ r → c ∈ chars) →
  clean_ends chars m → trim s chars = m.
Proof.
  intros Hs Hl Hr Hm. destruct (trim_shape s chars) as (l' & r' & Hs' & Hl' & Hr' & Hc).
  eapply (trimmed_unique chars l' _ r'); [done..| |by apply Hl|by apply Hr|congruence].
  done.
Qed.

(** [trim] removes the longest prefix and the longest suffix made of the
    given characters and nothing else: its result is the only middle part of
    the input that neither begins nor ends with one of them. *)
Theorem trim_spec s chars m :
  trim s chars = m ↔
  (∃ l r, s = l ++ m ++ r ∧ (∀ c, c ∈ l → c ∈ chars) ∧ (∀ c, c ∈ r → c ∈ chars)) ∧
  clean_ends chars m.
Proof.
  split.
  - intros <-. destruct (trim_shape s chars) as (l & r & ? & ? & ? & ?). eauto 10.
  - intros [(l & r & ? & ? & ?) ?]. by eapply trim_unique.
Qed.

Lemma trim_idemp s chars : trim (trim s chars) chars = trim s chars.
Proof.
  destruct (trim_shape s chars) as (l & r & _ & _ & _ & Hc).
  apply (trim_unique _ _ [] _ []); [by rewrite app_nil_r| | |done];
    intros c Hc'; by apply not_elem_of_nil in Hc'.
Qed.

(** ** Formatting *)

(** A format string as a sequence of literal text and argument references. *)
Inductive fmt_piece : Type :=
  | FLit (text : str)
  | FArg (n : nat).

(** Its written form: [%] doubled in literals, [%n] for a reference. *)
Fixpoint fmt_escape (text : str) : str :=
  match text with
  | [] => []
  | c :: text' => (if c =c? "%"%char then [c; c] else [c]) ++ fmt_escape text'
  end.

Fixpoint fmt_render (ps : list fmt_piece) : str :=
  match ps with
  | [] => []
  | FLit text :: ps' => fmt_escape text ++ fmt_render ps'
  | FArg n :: ps' => "%"%char :: dec n ++ fmt_render ps'
  end.

(** Its meaning: an index that names no argument stays as it is written. *)
Definition fmt_arg (args : list str) (n : nat) : str :=
  match n with
  | 0 => "%"%char :: dec n
  | S k => match args !! k with Some a => a | None => "%"%char :: dec n end
  end.

Fixpoint fmt_value (args : list str) (ps : list fmt_piece) : str :=
  match ps with
  | [] => []
  | FLit text :: ps' => text ++ fmt_value args ps'
  | FArg n :: ps' => fmt_arg args n ++ fmt_value args ps'
  end.

(** A reference is not directly followed by a digit, and fits an [int]. *)
Fixpoint fmt_wf (ps : list fmt_piece) : Prop :=
  match ps with
  | [] => True
  | FLit _ :: ps' => fmt_wf ps'
  | FArg n :: ps' =>
      (Z.of_nat n <= INT_MAX)%Z ∧ not_digit_head (fmt_render ps') ∧ fmt_wf ps'
  end.

Lemma digits_value_ge acc s : (0 <= acc)%Z → (acc <= (digits_value acc s).1)%Z.
Proof.
  revert acc. induction s as [|c s IH]; intros acc Hacc; simpl; [lia|].
  destruct (isdigit c) eqn:E; simpl; [|lia].
  apply digit_value_range in E. specialize (IH (acc * 10 + digit_value c)%Z).
  destruct (digits_value _ s). simpl in *. lia.
Qed.

Lemma format_index_digits acc l r consumed v n :
  (0 <= acc)%Z → (∀ c, c ∈ l → isdigit c = true) → not_digit_head r →
  digits_value acc l = (v, n) → (v <= INT_MAX)%Z →
  format_index acc (l ++ r) consumed = Done (v, consumed ++ l, r).
Proof.
  revert acc consumed v n.
  induction l as [|c l IH]; intros acc consumed v n Hacc Hl Hr Hd Hv; simpl in *.
  - simplify_eq. rewrite app_nil_r. destruct r as [|c r]; simpl in *; [done|].
    by rewrite Hr.
  - rewrite (Hl c) in * by (by left).
    pose proof (digit_value_range c (Hl c (list_elem_of_here _ _))).
    pose proof (digits_value_ge (acc * 10 + digit_value c) l ltac:(lia)).
    destruct (digits_value _ l) as [v' n'] eqn:E. simpl in *. simplify_eq.
    destruct (Z.leb_spec (acc * 10 + digit_value c) INT_MAX); [|lia].
    rewrite (IH _ _ v n'); [by rewrite <- app_assoc|lia| |done|done|done].
    intros d Hd. apply Hl. by right.
Qed.

Lemma concat_push parts segment : concat (push_segment parts segment) = concat parts ++ segment.
Proof.
  destruct segment; simpl; [by rewrite app_nil_r|].
  by rewrite concat_app; simpl; rewrite app_nil_r.
Qed.

(** [rest] formats to [out], whatever was scanned before. *)
Definition formats (args : list str) (rest out : str) : Prop :=
  ∀ fuel segment parts, length rest < fuel →
  ∃ parts', format_loop fuel rest segment parts args = Done parts' ∧
            concat parts' = concat parts ++ segment ++ out.

Lemma formats_nil args : formats args [] [].
Proof.
  intros [|fuel] segment parts Hf; simpl in *; [lia|]. eexists; split; [done|].
  by rewrite concat_push, app_nil_r.
Qed.

Lemma formats_char args c rest out :
  c ≠ "%"%char → formats args rest out → formats args (c :: rest) (c :: out).
Proof.
  intros Hc H [|fuel] segment parts Hf; simpl in Hf; [lia|].
  destruct (H fuel (segment ++ [c]) parts) as (parts' & Hp & Hcat); [lia|].
  exists parts'. rewrite Hcat, <- !app_assoc. split; [|done]. simpl.
  apply Ascii.eqb_neq in Hc. rewrite Hc. by destruct rest.
Qed.

Lemma formats_percent args rest out :
  formats args rest out → formats args ("%" :: "%" :: rest)%char ("%" :: out)%char.
Proof.
  intros H [|fuel] segment parts Hf; simpl in Hf; [lia|].
  edestruct (H fuel [] (push_segment parts segment ++ [["%"%char]]))
    as (parts' & Hp & Hcat); [lia|].
  exists parts'. split; [exact Hp|].
  rewrite Hcat, concat_app, concat_push. simpl. by rewrite <- !app_assoc.
Qed.

Lemma formats_arg args n rest out :
  (Z.of_nat n <= INT_MAX)%Z → not_digit_head rest → formats args rest out →
  formats args ("%"%char :: dec n ++ rest) (fmt_arg args n ++ out).
Proof.
  intros Hn Hr H [|fuel] segment parts Hf; [simpl in Hf; lia|].
  pose proof (digits_value_dec n) as Hd. pose proof (dec_digits n) as Hdig.
  pose proof (dec_nonempty n) as Hne. unfold fmt_arg. simpl in Hf.
  destruct (dec n) as [|d l]; [done|].
  simpl in Hd. pose proof (Hdig d (list_elem_of_here _ _)) as Hdd. rewrite Hdd in Hd.
  change (0 * 10 + digit_value d)%Z with (digit_value d) in Hd.
  destruct (digits_value (digit_value d) l) as [v k] eqn:El. simplify_eq.
  assert (d ≠ "%"%char) as Hdp%Ascii.eqb_neq by (by intros ->).
  rewrite length_app in Hf. simpl in Hf.
  cbn [format_loop app]. rewrite Hdp, Hdd. simpl.
  rewrite (format_index_digits _ _ _ _ (Z.of_nat n) (length l));
    [|by apply digit_value_range in Hdd; lia| |done|by eauto|done].
  2: { intros c Hc. apply Hdig. by right. }
  simpl. destruct n as [|i].
  - simpl. destruct (H fuel (segment ++ "%"%char :: d :: l) parts) as (p & -> & Hc); [lia|].
    exists p. rewrite Hc. split; [done|]. by rewrite <- !app_assoc.
  - replace (Z.of_nat (S i) - 1)%Z with (Z.of_nat i) by lia. rewrite Nat2Z.id.
    destruct (args !! i) as [a|] eqn:Ea.
    + pose proof (lookup_lt_Some _ _ _ Ea).
      rewrite (proj2 (Z.leb_le _ _)), (proj2 (Z.ltb_lt _ _)) by lia. simpl.
      destruct (H fuel [] (push_segment parts segment ++ [a])) as (p & -> & Hc); [lia|].
      exists p. rewrite Hc, concat_app, concat_push. simpl.
      split; [done|]. by rewrite <- !app_assoc.
    + apply lookup_ge_None in Ea.
      rewrite (proj2 (Z.ltb_ge _ _)), andb_false_r by lia.
      destruct (H fuel (segment ++ "%"%char :: d :: l) parts) as (p & -> & Hc); [lia|].
      exists p. rewrite Hc. split; [done|]. by rewrite <- !app_assoc.
Qed.

Lemma formats_escape args text rest out :
  formats args rest out → formats args (fmt_escape text ++ rest) (text ++ out).
Proof.
  intros H. induction text as [|c text IH]; simpl; [done|].
  destruct (Ascii.eqb_spec c "%"%char) as [->|Hne]; simpl.
  - by apply formats_percent.
  - by apply formats_char.
Qed.

(** [format] replaces every [%n] by its argument and every doubled percent
    sign by one, leaves an index that names no argument as it is written, and
    never reads past the format string. *)
Theorem format_render ps args :
  fmt_wf ps → format (fmt_render ps) args = Done (fmt_value args ps).
Proof.
  intros Hwf. assert (formats args (fmt_render ps) (fmt_value args ps)) as H.
  { induction ps as [|[text|n] ps IH]; simpl in *.
    - apply formats_nil.
    - by apply formats_escape, IH.
    - destruct Hwf as (? & ? & ?). apply formats_arg; auto. }
  unfold format. destruct (H (S (length (fmt_render ps))) [] []) as (p & -> & Hc); [lia|].
  simpl. by rewrite Hc.
Qed.

Definition fmt_example : list fmt_piece :=
  [FLit ($"100% "); FArg 2; FLit ($"/"); FArg 7].
Lemma format_render_witness :
  fmt_render fmt_example = $"100%% %2/%7" ∧
  format (fmt_render fmt_example) [$"a"; $"b"] = Done (fmt_value [$"a"; $"b"] fmt_example).
Proof.
  split; [reflexivity|]. apply (format_render fmt_example [$"a"; $"b"]).
  split; [by vm_compute|]. by split_and!; vm_compute.
Defined.

(** The index is accumulated in an [int] without a bound. *)
Example format_index_overflow : format ($"%99999999999") [] = Undef.
Proof. vm_compute. reflexivity. Qed.

(** ** Variable expansion: termination *)

Lemma varexp_braces_length rest : ∀ bc nested scanned bc' nested' scanned' rest',
  varexp_braces rest bc nested scanned = (bc', nested', scanned', rest') →
  length scanned' + length rest' = length scanned + length rest.
Proof.
  induction rest as [|c|c d rest IH1 IH2] using list_ind2;
    intros bc nested scanned bc' nested' scanned' rest' H;
    destruct bc as [|bc]; try (simpl in H; by simplify_eq).
  - simpl in H. destruct (c =c? "}"%char), bc; simplify_eq; rewrite length_app; simpl; lia.
  - cbn [varexp_braces] in H. destruct (_ && _).
    + apply IH1 in H. rewrite H, length_app. simpl. lia.
    + apply IH2 in H. rewrite H, length_app. simpl. lia.
Qed.
Lemma push_part_elem result ty buf p :
  p ∈ push_part result ty buf → p ∈ result ∨ part_type p = ty.
Proof.
  destruct buf; simpl; [by left|]. rewrite elem_of_app, list_elem_of_singleton.
  intros [?| ->]; auto.
Qed.

Definition small_nested (n : nat) (p : varexp_part) : Prop :=
  part_type p = nested_variable → length (part_data p) < n.

Lemma push_part_small n result ty buf :
  ty ≠ nested_variable → Forall (small_nested n) result →
  Forall (small_nested n) (push_part result ty buf).
Proof.
  intros Hty Hr. destruct buf; simpl; [done|].
  apply Forall_app. split; [done|]. apply Forall_singleton. by intros ?.
Qed.

Lemma varexp_split_loop_total n fuel rest ty buf result :
  length rest < fuel → length rest ≤ n → ty ≠ nested_variable →
  Forall (small_nested n) result →
  ∃ o, varexp_split_loop fuel rest ty buf result = Done o ∧
       ∀ parts, o = Some parts → Forall (small_nested n) parts.
Proof.
  revert rest ty buf result. induction fuel as [|fuel IH];
    intros rest ty buf result Hf Hn Hty Hr; [lia|].
  destruct rest as [|c rest1].
  { eexists; split; [done|]. intros parts [= <-]. by apply push_part_small. }
  cbn [varexp_split_loop]. simpl in Hf, Hn.
  destruct rest1 as [|d rest2]; [apply IH; auto; simpl; lia|]. simpl in Hf, Hn.
  destruct (c =c? "$"%char); [|apply IH; auto; simpl; lia].
  destruct (d =c? "{"%char); [|apply IH; auto; lia].
  destruct (varexp_braces rest2 1 false []) as [[[bc nested] scanned] rest'] eqn:E.
  apply varexp_braces_length in E. simpl in E.
  destruct (bc =? 0)%nat; [|by eexists].
  apply IH; [lia|lia|done|]. apply Forall_app. split; [by apply push_part_small|].
  apply Forall_singleton. intros _. simpl. rewrite length_take. lia.
Qed.

Lemma varexp_expand_total rec find parts result :
  Forall (λ p, part_type p = nested_variable → ∃ r, rec (part_data p) = Done r) parts →
  ∃ r, varexp_expand rec find parts result = Done r.
Proof.
  intros H. revert result. induction H as [|[ty data] parts Hp _ IH]; intros result;
    [by eexists|].
  simpl in *. destruct ty; [apply IH..|].
  destruct (Hp eq_refl) as (r & ->). apply IH.
Qed.

Lemma varexp_fuel_total fuel s find :
  length s < fuel → ∃ r, varexp_fuel fuel s find = Done r.
Proof.
  revert s. induction fuel as [|fuel IH]; intros s Hs; [lia|]. cbn [varexp_fuel].
  unfold varexp_split.
  destruct (varexp_split_loop_total (length s) (S (length s)) s literal [] [])
    as (o & -> & Ho); [lia|lia|done|done|]. simpl.
  destruct o as [parts|]; [|by eexists]. specialize (Ho parts eq_refl).
  destruct (varexp_expand_total (λ s, varexp_fuel fuel s find) find parts [])
    as (r & ->); [|by eexists].
  eapply Forall_impl; [exact Ho|]. intros p Hp Hty. apply IH. specialize (Hp Hty). lia.
Qed.

(** [varexp] terminates on every input and every variable table: the
    recursion on nested references is on strictly shorter text. *)
Theorem varexp_total s find : ∃ r, varexp s find = Done r.
Proof. apply varexp_fuel_total. lia. Qed.

(** ** Variable expansion: meaning *)

(** A template: literal text and references whose names are templates. *)
Inductive tmpl : Type :=
  | TNil
  | TLit (text : str) (rest : tmpl)
  | TRef (name rest : tmpl).

Fixpoint tmpl_escape (text : str) : str :=
  match text with
  | [] => []
  | c :: text' => (if c =c? "$"%char then [c; c] else [c]) ++ tmpl_escape text'
  end.

Fixpoint tmpl_render (t : tmpl) : str :=
  match t with
  | TNil => []
  | TLit text rest => tmpl_escape text ++ tmpl_render rest
  | TRef name rest =>
      ["$"; "{"]%char ++ tmpl_render name ++ "}"%char :: tmpl_render rest
  end.

Fixpoint tmpl_value (find : str → str) (t : tmpl) : str :=
  match t with
  | TNil => []
  | TLit text rest => text ++ tmpl_value find rest
  | TRef name rest => find (tmpl_value find name) ++ tmpl_value find rest
  end.

(** Inside a name, literal text has neither a dollar nor a closing brace. *)
Fixpoint tmpl_name (t : tmpl) : Prop :=
  match t with
  | TNil => True
  | TLit text rest => ("$"%char ∉ text) ∧ ("}"%char ∉ text) ∧ tmpl_name rest
  | TRef name rest => tmpl_name name ∧ tmpl_name rest
  end.

Fixpoint tmpl_wf (t : tmpl) : Prop :=
  match t with
  | TNil => True
  | TLit _ rest => tmpl_wf rest
  | TRef name rest => tmpl_name name ∧ tmpl_wf rest
  end.

Fixpoint tmpl_refs (t : tmpl) : bool :=
  match t with
  | TNil => false
  | TLit _ rest => tmpl_refs rest
  | TRef _ _ => true
  end.

Lemma tmpl_name_wf t : tmpl_name t → tmpl_wf t.
Proof. induction t; simpl; naive_solver. Qed.

Lemma tmpl_escape_id text : "$"%char ∉ text → tmpl_escape text = text.
Proof.
  induction text as [|c text IH]; simpl; [done|]. rewrite not_elem_of_cons.
  intros [Hc Ht]. apply not_eq_sym, Ascii.eqb_neq in Hc. rewrite Hc. simpl. by rewrite IH.
Qed.

Lemma tmpl_value_literal find t :
  tmpl_name t → tmpl_refs t = false → tmpl_value find t = tmpl_render t.
Proof.
  induction t as [|text rest IH|]; simpl; [done| |done].
  intros (? & _ & ?) ?. rewrite tmpl_escape_id by done. by rewrite IH.
Qed.

Lemma varexp_braces_text text : ∀ rest bc nested scanned,
  "$"%char ∉ text → "}"%char ∉ text →
  varexp_braces (text ++ rest) (S bc) nested scanned
  = varexp_braces rest (S bc) nested (scanned ++ text).
Proof.
  induction text as [|c text IH]; intros rest bc nested scanned H1 H2.
  - by rewrite app_nil_r.
  - apply not_elem_of_cons in H1 as [Hc1 H1], H2 as [Hc2 H2].
    apply not_eq_sym, Ascii.eqb_neq in Hc1, Hc2.
    rewrite <- app_comm_cons. cbn [varexp_braces]. rewrite Hc1, Hc2. simpl andb.
    specialize (IH rest bc nested (scanned ++ [c]) H1 H2).
    rewrite <- app_assoc in IH. etransitivity; [|exact IH]. by destruct (text ++ rest).
Qed.

Lemma varexp_braces_name t : tmpl_name t → ∀ rest bc nested scanned,
  varexp_braces (tmpl_render t ++ rest) (S bc) nested scanned
  = varexp_braces rest (S bc) (nested || tmpl_refs t) (scanned ++ tmpl_render t).
Proof.
  induction t as [|text t IH|name IHn t IH]; intros Hn rest bc nested scanned; simpl in Hn.
  - by rewrite orb_false_r, app_nil_r.
  - destruct Hn as (H1 & H2 & Hn). simpl. rewrite tmpl_escape_id by done.
    rewrite <- app_assoc, varexp_braces_text by done.
    by rewrite IH, <- app_assoc.
  - destruct Hn as (H1 & H2). cbn [tmpl_render tmpl_refs app varexp_braces].
    simpl andb. cbn iota. rewrite <- app_assoc, IHn by done. rewrite <- app_comm_cons.
    transitivity (varexp_braces (tmpl_render t ++ rest) (S bc) true
      (((scanned ++ ["$"; "{"]%char) ++ tmpl_render name) ++ ["}"%char])).
    { cbn [varexp_braces]. simpl. by destruct (tmpl_render t ++ rest). }
    rewrite IH by done. rewrite orb_true_r. simpl. f_equal.
    rewrite <- !app_assoc. done.
Qed.

(** [parts] expands to [out]. *)
Definition expands (rec : str → run str) (find : str → str) (parts : list varexp_part)
    (out : str) : Prop :=
  ∀ acc, varexp_expand rec find parts acc = Done (acc ++ out).

Lemma expands_nil rec find : expands rec find [] [].
Proof. intros acc. by rewrite app_nil_r. Qed.

Lemma varexp_expand_app rec find p1 p2 acc :
  varexp_expand rec find (p1 ++ p2) acc
  = varexp_expand rec find p1 acc ≫= varexp_expand rec find p2.
Proof.
  revert acc. induction p1 as [|[ty data] p1 IH]; intros acc; simpl; [done|].
  destruct ty; [apply IH..|]. simpl. by destruct (rec data); simpl.
Qed.

Lemma expands_app rec find p1 p2 o1 o2 :
  expands rec find p1 o1 → expands rec find p2 o2 →
  expands rec find (p1 ++ p2) (o1 ++ o2).
Proof.
  intros H1 H2 acc. rewrite varexp_expand_app, H1. simpl. by rewrite H2, app_assoc.
Qed.

Definition is_literal (ty : varexp_part_type) : Prop :=
  ty = literal ∨ ty = literal_with_dollar.

Lemma expands_push rec find parts out ty buf :
  is_literal ty → expands rec find parts out →
  expands rec find (push_part parts ty buf) (out ++ buf).
Proof.
  intros Hty H. destruct buf as [|c buf]; simpl; [by rewrite app_nil_r|].
  apply expands_app; [done|]. intros acc. by destruct Hty as [-> | ->].
Qed.

(** What the expansion gives before the doubled dollars are collapsed. *)
Fixpoint tmpl_raw (find : str → str) (t : tmpl) : str :=
  match t with
  | TNil => []
  | TLit text rest => tmpl_escape text ++ tmpl_raw find rest
  | TRef name rest => find (tmpl_value find name) ++ tmpl_raw find rest
  end.

(** [rest] splits into parts that expand to [out]. *)
Definition splits (rec : str → run str) (find : str → str) (rest out : str) : Prop :=
  ∀ fuel ty buf result o, length rest < fuel → is_literal ty →
  expands rec find result o →
  ∃ parts, varexp_split_loop fuel rest ty buf result = Done (Some parts) ∧
           expands rec find parts (o ++ buf ++ out).

Lemma splits_nil rec find : splits rec find [] [].
Proof.
  intros [|fuel] ty buf result o Hf Hty Ho; simpl in Hf; [lia|].
  eexists; split; [done|]. rewrite app_nil_r. by apply expands_push.
Qed.

Lemma splits_char rec find c rest out :
  c ≠ "$"%char → splits rec find rest out → splits rec find (c :: rest) (c :: out).
Proof.
  intros Hc%Ascii.eqb_neq H [|fuel] ty buf result o Hf Hty Ho; simpl in Hf; [lia|].
  destruct (H fuel ty (buf ++ [c]) result o) as (parts & Hp & He); [lia|done|done|].
  exists parts. rewrite <- app_assoc in He. split; [|done].
  rewrite <- Hp. cbn [varexp_split_loop]. rewrite Hc. by destruct rest.
Qed.

Lemma splits_dollar rec find rest out :
  splits rec find rest out → splits rec find ("$" :: "$" :: rest)%char ("$" :: "$" :: out)%char.
Proof.
  intros H [|fuel] ty buf result o Hf Hty Ho; simpl in Hf; [lia|].
  destruct (H fuel literal_with_dollar (buf ++ ["$"; "$"]%char) result o)
    as (parts & Hp & He); [lia|by right|done|].
  exists parts. rewrite <- app_assoc in He. split; [|done]. by rewrite <- Hp.
Qed.

Lemma splits_escape rec find text rest out :
  splits rec find rest out →
  splits rec find (tmpl_escape text ++ rest) (tmpl_escape text ++ out).
Proof.
  intros H. induction text as [|c text IH]; simpl; [done|].
  destruct (Ascii.eqb_spec c "$"%char) as [->|Hne]; simpl.
  - by apply splits_dollar.
  - by apply splits_char.
Qed.

Lemma splits_ref rec find name rest out :
  tmpl_name name →
  (tmpl_refs name = true → rec (tmpl_render name) = Done (tmpl_value find name)) →
  splits rec find rest out →
  splits rec find (["$"; "{"]%char ++ tmpl_render name ++ "}"%char :: rest)
    (find (tmpl_value find name) ++ out).
Proof.
  intros Hn Hrec H [|fuel] ty buf result o Hf Hty Ho; simpl in Hf; [lia|].
  rewrite length_app in Hf. simpl in Hf.
  cbn [varexp_split_loop app]. simpl Ascii.eqb. cbn iota.
  rewrite varexp_braces_name by done.
  replace (varexp_braces ("}"%char :: rest) 1 (false || tmpl_refs name) ([] ++ tmpl_render name))
    with (0, tmpl_refs name, tmpl_render name ++ ["}"%char], rest)
    by (simpl; by destruct rest).
  cbn [Nat.eqb]. rewrite length_app, Nat.add_sub, take_app_length.
  match goal with |- context [varexp_split_loop _ _ _ _ (?ps ++ [?p])] =>
    destruct (H fuel literal [] (ps ++ [p]) (o ++ buf ++ find (tmpl_value find name)))
      as (parts & Hp & He) end; [lia|by left| |].
  - rewrite app_assoc. apply expands_app; [by apply expands_push|].
    intros acc. destruct (tmpl_refs name) eqn:Er; simpl.
    + by rewrite Hrec.
    + by rewrite (tmpl_value_literal find).
  - exists parts. split; [done|]. by rewrite <- !app_assoc in He.
Qed.

Lemma splits_tmpl rec find t :
  tmpl_wf t →
  (∀ name, tmpl_name name → length (tmpl_render name) < length (tmpl_render t) →
           rec (tmpl_render name) = Done (tmpl_value find name)) →
  splits rec find (tmpl_render t) (tmpl_raw find t).
Proof.
  induction t as [|text t IH|name _ t IH]; simpl; intros Hwf Hrec.
  - apply splits_nil.
  - apply splits_escape, IH; [done|]. intros n Hn Hl. apply Hrec; [done|].
    rewrite length_app. lia.
  - destruct Hwf as [Hn Hwf]. rewrite length_app in Hrec. simpl in Hrec.
    apply (splits_ref rec find name).
    + done.
    + intros _. apply Hrec; [done|lia].
    + apply IH; [done|]. intros n Hn' Hl. apply Hrec; [done|]. lia.
Qed.

Lemma varexp_post_cons c s : c ≠ "$"%char → varexp_post (c :: s) = c :: varexp_post s.
Proof. intros Hc%Ascii.eqb_neq. simpl. rewrite Hc. by destruct s. Qed.

Lemma varexp_post_text text s :
  "$"%char ∉ text → varexp_post (text ++ s) = text ++ varexp_post s.
Proof.
  induction text as [|c text IH]; [done|]. rewrite not_elem_of_cons. intros [Hc Ht].
  rewrite <- !app_comm_cons, varexp_post_cons by done. by rewrite IH.
Qed.

Lemma varexp_post_escape text s :
  varexp_post (tmpl_escape text ++ s) = text ++ varexp_post s.
Proof.
  induction text as [|c text IH]; [done|]. cbn [tmpl_escape].
  destruct (Ascii.eqb_spec c "$"%char) as [->|Hne].
  - change ("$"%char :: varexp_post (tmpl_escape text ++ s)
            = "$"%char :: (text ++ varexp_post s)). by rewrite IH.
  - rewrite <- app_assoc. cbn [app]. by rewrite varexp_post_cons, IH by done.
Qed.

Lemma varexp_post_raw find t :
  (∀ name, "$"%char ∉ find name) → varexp_post (tmpl_raw find t) = tmpl_value find t.
Proof.
  intros Hf. induction t as [|text t IH|name _ t IH]; simpl; [done| |].
  - by rewrite varexp_post_escape, IH.
  - by rewrite varexp_post_text, IH.
Qed.

Lemma varexp_fuel_render fuel t find :
  (∀ name, "$"%char ∉ find name) → tmpl_wf t → length (tmpl_render t) < fuel →
  varexp_fuel fuel (tmpl_render t) find = Done (tmpl_value find t).
Proof.
  intros Hfind. revert t. induction fuel as [|fuel IH]; intros t Hwf Hf; [lia|].
  cbn [varexp_fuel]. unfold varexp_split.
  destruct (splits_tmpl (λ s, varexp_fuel fuel s find) find t Hwf)
    with (fuel := S (length (tmpl_render t))) (ty := literal) (buf := @nil ascii)
         (result := @nil varexp_part) (o := @nil ascii) as (parts & -> & He).
  - intros name Hn Hl. apply IH; [by apply tmpl_name_wf|lia].
  - lia.
  - by left.
  - apply expands_nil.
  - simpl. rewrite He. simpl. by rewrite varexp_post_raw.
Qed.

(** [varexp] gives a template its meaning: literal text with its doubled
    dollars undone, each reference replaced by the value of the variable its
    name expands to, to any depth of nesting, when the values themselves hold no
    dollar. *)
Theorem varexp_render t find :
  (∀ name, "$"%char ∉ find name) → tmpl_wf t →
  varexp (tmpl_render t) find = Done (tmpl_value find t).
Proof. intros Hf Hwf. apply varexp_fuel_render; [done|done|]. lia. Qed.

Definition tmpl_example : tmpl :=
  TLit ($"$") (TRef (TLit ($"x_") (TRef (TLit ($"i") TNil) TNil)) (TLit ($"/") TNil)).
Definition find_example (name : str) : str :=
  if name =s? $"i" then $"1" else if name =s? $"x_1" then $"foo" else [].
Lemma find_example_clean name : "$"%char ∉ find_example name.
Proof.
  unfold find_example. repeat case_bool_decide; by apply (bool_decide_unpack _); vm_compute.
Qed.

Lemma varexp_render_witness :
  tmpl_value find_example tmpl_example = $"$foo/" ∧
  varexp ($"$$${x_${i}}/") find_example = Done ($"$foo/").
Proof.
  split; [by vm_compute|].
  change ($"$$${x_${i}}/") with (tmpl_render tmpl_example).
  rewrite (varexp_render tmpl_example find_example);
    [by vm_compute|exact find_example_clean|].
  simpl. split; [|done]. split_and!; apply (bool_decide_unpack _); by vm_compute.
Defined.

(** The collapse runs over the substituted values too: a doubled dollar that
    comes from a variable is halved. *)
Example varexp_value_collapsed : varexp ($"${a}") (λ _, $"x$$y") = Done ($"x$y").
Proof. vm_compute. reflexivity. Qed.

(** ** Formatted output: [vasprintf] *)

(** [vsnprintf(buf, n, fmt, args)] by its contract: [out] is the whole formatted
    text, [None] an encoding error.  At most [n - 1] bytes and a NUL are
    written; the length of the whole text is returned. *)
Definition vsnprintf (n : nat) (out : option str) : str * Z :=
  match out with
  | None => ([], -1)%Z
  | Some o => (if (n =? 0)%nat then [] else take (n - 1) o ++ [c_nul], Z.of_nat (length o))
  end.

Definition STACK_BUFFER_SIZE : nat := 4096.

(** [std::string(buffer, n)] and [resize(n)]: the first [n] bytes, which must
    exist in the first case, zero padding in the second. *)
Definition resize_str (s : str) (n : nat) : str :=
  take n s ++ List.repeat c_nul (n - length s).

Definition vasprintf (out : option str) : str :=
  let '(stack_buffer, len) := vsnprintf STACK_BUFFER_SIZE out in
  if (len <? 0)%Z then []
  else if (len <? Z.of_nat STACK_BUFFER_SIZE)%Z then take (Z.to_nat len) stack_buffer
  else
    let '(heap_buffer, len) := vsnprintf (Z.to_nat len + 1) out in
    resize_str heap_buffer (Z.to_nat len).

Lemma vasprintf_spec out : vasprintf out = default [] out.
Proof.
  unfold vasprintf, vsnprintf. destruct out as [o|]; [|done]. cbn [default].
  destruct (Z.ltb_spec (Z.of_nat (length o)) 0); [lia|].
  replace (STACK_BUFFER_SIZE =? 0)%nat with false by done.
  destruct (Z.ltb_spec (Z.of_nat (length o)) (Z.of_nat STACK_BUFFER_SIZE)) as [Hlt|Hge].
  - rewrite Nat2Z.id. rewrite (take_ge o) by lia. by rewrite take_app_length.
  - rewrite Nat2Z.id. destruct (Nat.eqb_spec (length o + 1) 0); [lia|].
    rewrite Nat.add_sub, (take_ge o) by lia. unfold resize_str.
    rewrite take_app_length, length_app. simpl.
    replace (length o - (length o + 1)) with 0 by lia. by rewrite app_nil_r.
Qed.
