(* ===== verification/ConfigFile.v ===== *)
(** The INI-style configuration reader
    ([src/libs/Support/ConfigFile.cpp], [include/lorelei/Support/ConfigFile.h]).

    The file system is a parameter: [fs_open] gives the contents of a file that
    can be opened and [fs_exists] is [fs::exists].  Everything else is the code:
    the scanning helpers, [Section] with its vector and index map, [parseLine]
    and the mutually recursive [load], whose recursion through [include] is
    bounded by fuel. *)

From S2P Require Import Prelude CppString Assoc FsPath StringExtras.

(** ** Scanning helpers *)

Definition ws_chars : str := [" "%char; c_tab; c_cr; c_nl].

Definition conf_trim (s : str) : str :=
  match find_first_not_of ws_chars s with
  | None => []
  | Some start =>
      match find_last_not_of ws_chars s with
      | Some end_ => substr s start (end_ - start + 1)
      | None => []
      end
  end.

Definition isWhitespace (c : ascii) : bool :=
  (c =c? " "%char) || (c =c? c_tab) || (c =c? c_cr) || (c =c? c_nl).

Definition front_is (s : str) (c : ascii) : bool := starts_with_char s c.
Definition back_is (s : str) (c : ascii) : bool := ends_with_char s c.

Definition unquoteString (s : str) : str :=
  if (2 <=? length s)%nat &&
     ((front_is s c_dquote && back_is s c_dquote) ||
      (front_is s c_squote && back_is s c_squote))
  then substr s 1 (length s - 2)
  else s.

Definition unescape (c : ascii) : option ascii :=
  if c =c? "n"%char then Some c_nl
  else if c =c? "t"%char then Some c_tab
  else if c =c? "r"%char then Some c_cr
  else if c =c? c_backslash then Some c_backslash
  else if c =c? c_dquote then Some c_dquote
  else if c =c? c_squote then Some c_squote
  else None.

(** The loop over [str[1 .. length - 2]], on that middle part. *)
Fixpoint parseQuoted_loop (mid result : str) : option str :=
  match mid with
  | [] => Some result
  | c :: mid1 =>
      if c =c? c_backslash then
        match mid1 with
        | d :: mid2 =>
            match unescape d with
            | Some e => parseQuoted_loop mid2 (result ++ [e])
            | None => None
            end
        | [] => None
        end
      else parseQuoted_loop mid1 (result ++ [c])
  end.

Definition parseQuotedString (s : str) : option str :=
  match s with
  | [] => Some s
  | quoteChar :: _ =>
      if negb (quoteChar =c? c_dquote) && negb (quoteChar =c? c_squote) then Some s
      else if (length s <? 2)%nat || negb (back_is s quoteChar) then None
      else parseQuoted_loop (substr s 1 (length s - 2)) []
  end.

Fixpoint removeInlineComment_loop (line result : str) (inQuotes : bool)
    (quoteChar : ascii) (escaped : bool) : option str :=
  match line with
  | [] => if inQuotes then None else if escaped then None else Some result
  | c :: line' =>
      if escaped then
        removeInlineComment_loop line' (result ++ [c]) inQuotes quoteChar false
      else if c =c? c_backslash then
        removeInlineComment_loop line' (result ++ [c]) inQuotes quoteChar true
      else if (c =c? c_dquote) || (c =c? c_squote) then
        if negb inQuotes then
          removeInlineComment_loop line' (result ++ [c]) true c escaped
        else if c =c? quoteChar then
          removeInlineComment_loop line' (result ++ [c]) false quoteChar escaped
        else removeInlineComment_loop line' (result ++ [c]) inQuotes quoteChar escaped
      else if (c =c? "#"%char) && negb inQuotes then
        (* the [break]: not in quotes and not escaped here *)
        Some result
      else removeInlineComment_loop line' (result ++ [c]) inQuotes quoteChar escaped
  end.

Definition removeInlineComment (line : str) : option str :=
  removeInlineComment_loop line [] false c_nul false.

(** ** Sections *)

Record ConfSection : Type := MkSection {
  m_name : str;
  m_keyValues : list (str * str);
  m_keyIndex : gmap str nat;
}.

Definition new_section (name : str) : ConfSection := MkSection name [] ∅.

(** [m_keyValues[i]] and [m_sections[i]] out of range are undefined. *)
Definition addKeyValue (s : ConfSection) (key value : str) : run ConfSection :=
  match m_keyIndex s !! key with
  | None =>
      let kvs := m_keyValues s ++ [(key, value)] in
      Done (MkSection (m_name s) kvs (<[key := length kvs - 1]> (m_keyIndex s)))
  | Some i =>
      kv ← defined (m_keyValues s !! i);
      Done (MkSection (m_name s) (<[i := (kv.1, value)]> (m_keyValues s)) (m_keyIndex s))
  end.

Definition section_contains (s : ConfSection) (key : str) : bool :=
  bool_decide (is_Some (m_keyIndex s !! key)).

Definition getString (s : ConfSection) (key : str) : run (option str) :=
  match m_keyIndex s !! key with
  | None => Done None
  | Some i => kv ← defined (m_keyValues s !! i); Done (Some kv.2)
  end.

Definition getString_or (s : ConfSection) (key defaultValue : str) : run str :=
  v ← getString s key; Done (default defaultValue v).

Definition parse_int (strVal : str) : option Z :=
  match strVal with
  | [] => None
  | _ =>
      let '(result, used, erange) := strtol (c_str strVal) in
      if erange || negb (used =? length (c_str strVal))%nat then None
      else if (result <? INT_MIN)%Z || (result >? INT_MAX)%Z then None
      else Some result
  end.

Definition getInt (s : ConfSection) (key : str) : run (option Z) :=
  v ← getString s key;
  Done (match v with None => None | Some strVal => parse_int strVal end).

Definition parse_bool (strVal : str) : option bool :=
  match strVal with
  | [] => None
  | _ =>
      let lowerVal := tolower <$> strVal in
      if (lowerVal =s? $"true") || (lowerVal =s? $"yes") ||
         (lowerVal =s? $"on") || (lowerVal =s? $"1") then Some true
      else if (lowerVal =s? $"false") || (lowerVal =s? $"no") ||
              (lowerVal =s? $"off") || (lowerVal =s? $"0") then Some false
      else None
  end.

Definition getBool (s : ConfSection) (key : str) : run (option bool) :=
  v ← getString s key;
  Done (match v with None => None | Some strVal => parse_bool strVal end).

Definition getInt_or (s : ConfSection) (key : str) (defaultValue : Z) : run Z :=
  v ← getInt s key; Done (default defaultValue v).
Definition getBool_or (s : ConfSection) (key : str) (defaultValue : bool) : run bool :=
  v ← getBool s key; Done (default defaultValue v).

(** [strtod] is the C library's: the number, what it has read, whether it sets [errno]. *)
Section doubles.
Context {D : Type} (strtod : str → D * nat * bool).

Definition parse_double (strVal : str) : option D :=
  match strVal with
  | [] => None
  | _ =>
      let '(result, used, failed) := strtod (c_str strVal) in
      if failed || negb (used =? length (c_str strVal))%nat then None else Some result
  end.

Definition getDouble (s : ConfSection) (key : str) : run (option D) :=
  v ← getString s key;
  Done (match v with None => None | Some strVal => parse_double strVal end).
Definition getDouble_or (s : ConfSection) (key : str) (defaultValue : D) : run D :=
  v ← getDouble s key; Done (default defaultValue v).
End doubles.

Definition section_size (s : ConfSection) : nat := length (m_keyValues s).
Definition section_empty (s : ConfSection) : bool := match m_keyValues s with [] => true | _ => false end.

(** [keys]: a loop that pushes each pair's key. *)
Definition section_keys (s : ConfSection) : list str := (m_keyValues s).*1.
Definition section_items (s : ConfSection) : list (str * str) := m_keyValues s.
Definition section_count (s : ConfSection) : nat := length (m_keyValues s).

(** ** The configuration *)

Record ConfigFile : Type := MkConfig {
  m_sections : list ConfSection;
  m_sectionIndex : gmap str nat;
  m_currentSectionIndex : nat;
  m_baseDirStack : list str;
}.

Definition GlobalSectionName : str := $"$global$".

(** The state the constructor and [clear] leave. *)
Definition ConfigFile_new : ConfigFile :=
  MkConfig [new_section GlobalSectionName] {[GlobalSectionName := 0]} 0 [].

Definition clear (c : ConfigFile) : ConfigFile := ConfigFile_new.

Definition config_contains (c : ConfigFile) (name : str) : bool :=
  bool_decide (is_Some (m_sectionIndex c !! name)).

Definition config_get (c : ConfigFile) (name : str) : run (option ConfSection) :=
  match m_sectionIndex c !! name with
  | None => Done None
  | Some i => s ← defined (m_sections c !! i); Done (Some s)
  end.

Definition config_global (c : ConfigFile) : run ConfSection := defined (m_sections c !! 0).

(** [operator[]] does not check its index, [at] does. *)
Definition config_index (c : ConfigFile) (index : nat) : run ConfSection := defined (m_sections c !! index).
Definition config_at (c : ConfigFile) (index : nat) : option ConfSection :=
  if bool_decide (index < length (m_sections c)) then m_sections c !! index else None.

(** [find]: the index of the section, [count()] for [end()]. *)
Definition config_find (c : ConfigFile) (name : str) : nat :=
  default (length (m_sections c)) (m_sectionIndex c !! name).

Definition config_count (c : ConfigFile) : nat := length (m_sections c).

Definition getOrCreateSection (c : ConfigFile) (sectionName : str) : ConfigFile * nat :=
  match m_sectionIndex c !! sectionName with
  | Some i => (c, i)
  | None =>
      let sections := m_sections c ++ [new_section sectionName] in
      let index := length sections - 1 in
      (MkConfig sections (<[sectionName := index]> (m_sectionIndex c))
         (m_currentSectionIndex c) (m_baseDirStack c), index)
  end.

Definition set_current (c : ConfigFile) (i : nat) : ConfigFile :=
  MkConfig (m_sections c) (m_sectionIndex c) i (m_baseDirStack c).
Definition set_stack (c : ConfigFile) (dirs : list str) : ConfigFile :=
  MkConfig (m_sections c) (m_sectionIndex c) (m_currentSectionIndex c) dirs.

(** [m_sections[m_currentSectionIndex].addKeyValue(key, value)]. *)
Definition add_to_current (c : ConfigFile) (key value : str) : run ConfigFile :=
  s ← defined (m_sections c !! m_currentSectionIndex c);
  s' ← addKeyValue s key value;
  Done (MkConfig (<[m_currentSectionIndex c := s']> (m_sections c))
          (m_sectionIndex c) (m_currentSectionIndex c) (m_baseDirStack c)).

(** [push_back], and [pop_back], undefined on an empty vector. *)
Definition push_dir (c : ConfigFile) (dir : str) : ConfigFile :=
  set_stack c (m_baseDirStack c ++ [dir]).
Definition pop_dir (c : ConfigFile) : run ConfigFile :=
  match m_baseDirStack c with
  | [] => Undef
  | dirs => Done (set_stack c (take (length dirs - 1) dirs))
  end.

Record ParseResult : Type := MkParseResult {
  success : bool;
  errorMessage : str;
  result_file : str;
  result_line : nat;
}.

Definition result_ok : ParseResult := MkParseResult true [] [] 0.
Definition result_error (msg file : str) (line : nat) : ParseResult :=
  MkParseResult false msg file line.

(** The re-trimming of the value inside [parseLine]. *)
Fixpoint ws_start (value : str) : nat :=
  match value with
  | c :: value' => if isWhitespace c then S (ws_start value') else 0
  | [] => 0
  end.

Fixpoint ws_end (value : str) (valueStart valueEnd : nat) : nat :=
  match valueEnd with
  | 0 => 0
  | S e =>
      if (valueStart <? S e)%nat &&
         match value !! S e with Some c => isWhitespace c | None => false end
      then ws_end value valueStart e
      else S e
  end.

Definition strip_value (value : str) : str :=
  match value with
  | [] => []
  | _ =>
      let valueStart := ws_start value in
      let valueEnd := ws_end value valueStart (length value - 1) in
      substr value valueStart (valueEnd - valueStart + 1)
  end.

(** What a line asks for, as [parseLine] decides it after the comment is
    removed and the line is trimmed. *)
Inductive line_kind : Type :=
  | LineError (msg : str)
  | LineEmpty
  | LineInclude (target : str)
  | LineSection (name : str)
  | LineKey (key value : str).

Definition classify_include (line : str) : line_kind :=
  match conf_trim (drop 7 line) with
  | [] => LineError ($"include directive requires a filename")
  | includeFile => LineInclude (unquoteString includeFile)
  end.

Definition classify_section (line : str) : line_kind :=
  match conf_trim (substr line 1 (length line - 2)) with
  | [] => LineError ($"Empty section name")
  | sectionName =>
      match parseQuotedString sectionName with
      | None => LineError ($"Invalid section name format")
      | Some name => LineSection name
      end
  end.

Definition classify_key (line : str) : line_kind :=
  let '(key, value) :=
    match find_char "="%char line with
    | Some equalPos =>
        (conf_trim (take equalPos line), strip_value (conf_trim (drop (equalPos + 1) line)))
    | None => (conf_trim line, [])
    end in
  match key with
  | [] => LineError ($"Empty key")
  | _ =>
      match parseQuotedString (unquoteString key), parseQuotedString (unquoteString value) with
      | None, _ => LineError ($"Invalid key format")
      | Some _, None => LineError ($"Invalid value format")
      | Some k, Some v => LineKey k v
      end
  end.

Definition classify_line (originalLine : str) : line_kind :=
  match removeInlineComment originalLine with
  | None => LineError ($"Unclosed quotes or invalid escape sequence")
  | Some l =>
      let line := conf_trim l in
      match line with
      | [] => LineEmpty
      | _ =>
          if starts_with line ($"include") then classify_include line
          else if front_is line "["%char && back_is line "]"%char then classify_section line
          else classify_key line
      end
  end.

(** [std::getline] until the end of the stream: a final line without a newline
    counts, an empty one after the last newline does not. *)
Fixpoint getlines_loop (text cur : str) : list str :=
  match text with
  | [] => match cur with [] => [] | _ => [cur] end
  | c :: text' =>
      if c =c? c_nl then cur :: getlines_loop text' []
      else getlines_loop text' (cur ++ [c])
  end.
Definition getlines (text : str) : list str := getlines_loop text [].

Section loading.
Context (fs_exists : str → bool) (fs_open : str → option str).

(** [(m_baseDirStack.empty() ? "." : m_baseDirStack.back()) / includeFile] *)
Definition include_path (c : ConfigFile) (includeFile : str) : str :=
  path_append (default ($".") (last (m_baseDirStack c))) includeFile.

Definition parseLine (load : ConfigFile → str → run (ConfigFile * ParseResult))
    (c : ConfigFile) (originalLine file : str) (lineNum : nat)
    : run (ConfigFile * ParseResult) :=
  match classify_line originalLine with
  | LineError msg => Done (c, result_error msg file lineNum)
  | LineEmpty => Done (c, result_ok)
  | LineInclude includeFile =>
      let includePath := include_path c includeFile in
      if fs_exists includePath then load c includePath
      else Done (c, result_error ($"Included file not found: " ++ includePath) file lineNum)
  | LineSection name =>
      let '(c', index) := getOrCreateSection c name in
      Done (set_current c' index, result_ok)
  | LineKey key value => c' ← add_to_current c key value; Done (c', result_ok)
  end.

(** The [while (std::getline(file, line))] loop and what follows it. *)
Fixpoint load_lines (load : ConfigFile → str → run (ConfigFile * ParseResult))
    (filename : str) (c : ConfigFile) (lines : list str) (lineNum : nat)
    : run (ConfigFile * ParseResult) :=
  match lines with
  | [] => c' ← pop_dir c; Done (c', result_ok)
  | line :: lines' =>
      '(c', result) ← parseLine load c line filename (S lineNum);
      if success result then load_lines load filename c' lines' (S lineNum)
      else c'' ← pop_dir c'; Done (clear c'', result)
  end.

Definition base_dir (filename : str) : str :=
  match parent_path filename with [] => $"." | d => d end.

Fixpoint load (fuel : nat) (c : ConfigFile) (filename : str)
    : run (ConfigFile * ParseResult) :=
  match fuel with
  | 0 => NoFuel
  | S fuel' =>
      match fs_open filename with
      | None =>
          Done (c, result_error ($"Cannot open file: " ++ filename) filename 0)
      | Some text =>
          load_lines (load fuel') filename (push_dir c (base_dir filename))
            (getlines text) 0
      end
  end.
End loading.

(** ** Scanning: lemmas *)

Lemma isWhitespace_spec c : isWhitespace c = true ↔ c ∈ ws_chars.
Proof.
  unfold isWhitespace, ws_chars.
  rewrite !orb_true_iff, !Ascii.eqb_eq, !elem_of_cons, elem_of_nil. tauto.
Qed.

Lemma conf_trim_shape s :
  ∃ l r, s = l ++ conf_trim s ++ r ∧
    (∀ c, c ∈ l → c ∈ ws_chars) ∧ (∀ c, c ∈ r → c ∈ ws_chars) ∧
    clean_ends ws_chars (conf_trim s).
Proof.
  unfold conf_trim. destruct (find_first_not_of ws_chars s) as [i|] eqn:Ei.
  - destruct (find_last_not_of ws_chars s) as [j|] eqn:Ej.
    + apply find_first_not_of_Some in Ei as (Hi & Hl & c & Hc & Hcn).
      apply find_last_not_of_Some in Ej as (Hj & Hr & d & Hd & Hdn).
      assert (i ≤ j) as Hij.
      { destruct (decide (i ≤ j)); [done|]. exfalso. apply Hcn, Hr.
        apply list_elem_of_lookup. exists (i - S j). rewrite lookup_drop.
        by replace (S j + (i - S j)) with i by lia. }
      exists (take i s), (drop (S j) s). unfold substr. split_and!; [|done|done|].
      * rewrite <- (take_drop i s) at 1. f_equal.
        rewrite <- (take_drop (j - i + 1) (drop i s)) at 1. rewrite drop_drop.
        by replace (i + (j - i + 1)) with (S j) by lia.
      * split; intros x.
        -- rewrite head_lookup, lookup_take_lt, lookup_drop, Nat.add_0_r, Hc by lia.
           congruence.
        -- rewrite last_lookup, length_take, length_drop, Nat.min_l by lia.
           replace (Nat.pred (j - i + 1)) with (j - i) by lia.
           rewrite lookup_take_lt, lookup_drop by lia.
           replace (i + (j - i)) with j by lia. rewrite Hd. congruence.
    + exfalso. apply find_first_not_of_Some in Ei as (Hi & _ & c & Hc & Hcn).
      apply Hcn. eapply find_last_not_of_None; [done|]. by eapply list_elem_of_lookup_2.
  - exists s, []. rewrite app_nil_r. split_and!; [done| | |done].
    + by apply find_first_not_of_None.
    + intros c Hc. by apply not_elem_of_nil in Hc.
Qed.

(** The file's own [trim] and the library's agree. *)
Lemma conf_trim_trim s : conf_trim s = trim s ws_chars.
Proof.
  destruct (conf_trim_shape s) as (l & r & Hs & Hl & Hr & Hc).
  symmetry. by eapply trim_unique.
Qed.

Lemma conf_trim_id s : clean_ends ws_chars s → conf_trim s = s.
Proof.
  intros Hc. rewrite conf_trim_trim. apply (trim_unique _ _ [] _ []); [|..|done].
  - by rewrite app_nil_r.
  - intros c H. by apply not_elem_of_nil in H.
  - intros c H. by apply not_elem_of_nil in H.
Qed.

Lemma ws_end_stop value start e :
  match value !! e with Some c => isWhitespace c = false | None => True end →
  ws_end value start e = e.
Proof.
  destruct e as [|e]; [done|]. cbn [ws_end]. destruct (value !! S e); intros H.
  - by rewrite H, andb_false_r.
  - by rewrite andb_false_r.
Qed.

(** The second trimming of the value has nothing left to remove. *)
Lemma strip_value_id value : clean_ends ws_chars value → strip_value value = value.
Proof.
  intros [Hh Hl]. destruct value as [|c value]; [done|]. unfold strip_value.
  assert (isWhitespace c = false) as Hc.
  { apply not_true_is_false. intros H%isWhitespace_spec. by apply (Hh c). }
  replace (ws_start (c :: value)) with 0 by (simpl; by rewrite Hc).
  rewrite ws_end_stop.
  - unfold substr. rewrite drop_0. apply take_ge. simpl. lia.
  - simpl length. rewrite Nat.sub_succ, Nat.sub_0_r.
    rewrite last_lookup in Hl. simpl in Hl. destruct ((c :: value) !! length value); [|done].
    apply not_true_is_false. intros H%isWhitespace_spec. by eapply Hl.
Qed.

(** ** Sections as ordered maps *)

Definition section_wf (s : ConfSection) : Prop := index_wf (m_keyIndex s) (m_keyValues s).*1.

Lemma new_section_wf name : section_wf (new_section name).
Proof. apply index_wf_nil. Qed.


(** A section's [addKeyValue] is the update of the ordered association list of
    its items, and it keeps the index in step. *)
Lemma addKeyValue_spec s k v :
  section_wf s →
  ∃ s', addKeyValue s k v = Done s' ∧ section_wf s' ∧ m_name s' = m_name s ∧
        m_keyValues s' = assoc_set k (λ _, v) (m_keyValues s).
Proof.
  intros Hwf. unfold addKeyValue. destruct (m_keyIndex s !! k) as [i|] eqn:Ei.
  - destruct (index_wf_lookup _ _ _ _ Hwf Ei) as [a Ha]. rewrite Ha. simpl.
    eexists; split_and!; [done| |done|].
    + unfold section_wf in *. simpl. rewrite list_fmap_insert. simpl.
      rewrite list_insert_id; [done|]. by rewrite list_lookup_fmap, Ha.
    + simpl. symmetry. apply (assoc_set_at k (λ _, v) _ i a); [by eapply index_wf_NoDup|done].
  - pose proof (proj1 (index_wf_None _ _ _ Hwf) Ei) as Hk.
    eexists; split_and!; [done| |done|].
    + unfold section_wf. simpl. rewrite fmap_app. simpl.
      rewrite length_app, Nat.add_sub.
      replace (length (m_keyValues s)) with (length (m_keyValues s).*1)
        by apply length_fmap.
      by apply index_wf_snoc.
    + simpl. by rewrite assoc_set_new.
Qed.

Lemma getString_spec s k :
  section_wf s → getString s k = Done (assoc_get k (m_keyValues s)).
Proof.
  intros Hwf. unfold getString. destruct (m_keyIndex s !! k) as [i|] eqn:Ei.
  - destruct (index_wf_lookup _ _ _ _ Hwf Ei) as [a Ha]. rewrite Ha. simpl.
    do 2 f_equal. symmetry. eapply assoc_get_at; [by eapply index_wf_NoDup|done].
  - f_equal. symmetry. apply assoc_get_None. by eapply index_wf_None.
Qed.

Lemma section_contains_spec s k :
  section_wf s → section_contains s k = bool_decide (k ∈ section_keys s).
Proof.
  intros Hwf. unfold section_contains, section_keys. apply bool_decide_ext.
  rewrite <- not_eq_None_Some, (index_wf_None _ _ _ Hwf).
  destruct (decide (k ∈ (m_keyValues s).*1)); naive_solver.
Qed.

(** ** The configuration as an ordered map of ordered maps *)

Record config_wf (c : ConfigFile) : Prop := {
  wf_index : index_wf (m_sectionIndex c) (m_name <$> m_sections c);
  wf_sections : Forall section_wf (m_sections c);
  wf_current : m_currentSectionIndex c < length (m_sections c);
  wf_global : m_name <$> m_sections c !! 0 = Some GlobalSectionName;
}.

(** The abstract state: the current section's name, and the sections with their
    items in the order of first appearance. *)
Abbreviation items := (list (str * list (str * str))).

Definition sections_view (c : ConfigFile) : items :=
  (λ s, (m_name s, m_keyValues s)) <$> m_sections c.
Definition current_name (c : ConfigFile) : str :=
  default [] (m_name <$> m_sections c !! m_currentSectionIndex c).
Definition abs (c : ConfigFile) : str * items := (current_name c, sections_view c).

Definition abs_new : str * items := (GlobalSectionName, [(GlobalSectionName, [])]).

Lemma sections_view_keys c : (sections_view c).*1 = m_name <$> m_sections c.
Proof. unfold sections_view. rewrite <- list_fmap_compose. done. Qed.

Lemma ConfigFile_new_wf : config_wf ConfigFile_new.
Proof.
  split; simpl; [|by repeat constructor; apply new_section_wf|lia|done].
  apply (index_wf_snoc ∅ [] GlobalSectionName); [apply index_wf_nil|].
  apply not_elem_of_nil.
Qed.

Lemma set_stack_wf c dirs : config_wf c → config_wf (set_stack c dirs).
Proof. by intros [????]. Qed.

Lemma abs_set_stack c dirs : abs (set_stack c dirs) = abs c.
Proof. done. Qed.

#[export] Hint Resolve ConfigFile_new_wf set_stack_wf new_section_wf : lore.
#[export] Hint Rewrite abs_set_stack : lore_rw.

(** What a section header and a key line do to the abstract state. *)
Definition abs_section (name : str) (st : str * items) : str * items :=
  (name, assoc_set name (default []) st.2).
Definition abs_key (k v : str) (st : str * items) : str * items :=
  (st.1, assoc_set st.1 (λ o, assoc_set k (λ _, v) (default [] o)) st.2).

Lemma section_line_spec c name :
  config_wf c →
  let c' := set_current (getOrCreateSection c name).1 (getOrCreateSection c name).2 in
  config_wf c' ∧ abs c' = abs_section name (abs c) ∧ m_baseDirStack c' = m_baseDirStack c.
Proof.
  intros [Hix Hs Hc Hg]. unfold getOrCreateSection.
  destruct (m_sectionIndex c !! name) as [i|] eqn:Ei; simpl.
  - pose proof (proj1 (Hix _ _) Ei) as Hi. rewrite list_lookup_fmap in Hi.
    apply fmap_Some in Hi as (s & Hi & ->). split_and!; [|  |done].
    + split; simpl; try done. by eapply lookup_lt_Some.
    + unfold abs, abs_section, current_name, set_current. simpl. rewrite Hi. simpl.
      f_equal. symmetry. rewrite (assoc_set_at (m_name s) _ _ i (m_keyValues s)).
      * apply list_insert_id. unfold sections_view. rewrite list_lookup_fmap. simpl.
        by rewrite Hi.
      * rewrite sections_view_keys. by eapply index_wf_NoDup.
      * unfold sections_view. by rewrite list_lookup_fmap, Hi.
  - pose proof (proj1 (index_wf_None _ _ _ Hix) Ei) as Hn.
    rewrite length_app, Nat.add_sub. split_and!; [| |done].
    + split; simpl.
      * rewrite fmap_app. simpl. replace (length (m_sections c))
          with (length (m_name <$> m_sections c)) by apply length_fmap.
        by apply index_wf_snoc.
      * apply Forall_app. split; [done|]. apply Forall_singleton, new_section_wf.
      * rewrite length_app. simpl. lia.
      * rewrite lookup_app_l by lia. done.
    + unfold abs, abs_section, current_name, sections_view, set_current. simpl.
      rewrite lookup_app_r by lia. rewrite Nat.sub_diag. simpl. f_equal.
      rewrite fmap_app. simpl. rewrite assoc_set_new; [done|].
      change (name ∉ (sections_view c).*1). by rewrite sections_view_keys.
Qed.

Lemma key_line_spec c k v :
  config_wf c →
  ∃ c', add_to_current c k v = Done c' ∧ config_wf c' ∧
        abs c' = abs_key k v (abs c) ∧ m_baseDirStack c' = m_baseDirStack c.
Proof.
  intros [Hix Hs Hc Hg]. unfold add_to_current.
  destruct (lookup_lt_is_Some_2 _ _ Hc) as [s Hsi]. rewrite Hsi. simpl.
  assert (section_wf s) as Hsw by (by eapply Forall_lookup_1).
  destruct (addKeyValue_spec s k v Hsw) as (s' & -> & Hs' & Hn & Hkv). simpl.
  assert (m_name <$> <[m_currentSectionIndex c:=s']> (m_sections c)
          = m_name <$> m_sections c) as Hnames.
  { rewrite list_fmap_insert, list_insert_id; [done|].
    by rewrite list_lookup_fmap, Hsi, Hn. }
  eexists; split_and!; [done| | |done].
  - split; simpl.
    + by rewrite Hnames.
    + by apply Forall_insert.
    + by rewrite length_insert.
    + rewrite <- list_lookup_fmap, Hnames, list_lookup_fmap. done.
  - unfold abs, abs_key, current_name. simpl.
    rewrite <- list_lookup_fmap, Hnames, list_lookup_fmap, Hsi. simpl. f_equal.
    unfold sections_view. simpl. rewrite list_fmap_insert. simpl. rewrite Hn, Hkv.
    symmetry. rewrite (assoc_set_at (m_name s) _ _ (m_currentSectionIndex c) (m_keyValues s)).
    + done.
    + change (NoDup (sections_view c).*1). rewrite sections_view_keys.
      by eapply index_wf_NoDup.
    + by rewrite list_lookup_fmap, Hsi.
Qed.

(** ** Loading: the abstract interpreter and the refinement *)

Section spec.
Context (fs_exists : str → bool) (fs_open : str → option str).

(** What the lines of [filename] mean: a fold over their kinds.  An error
    gives the fresh configuration; an error inside an included file that could
    be opened has no defined outcome. *)
Fixpoint spec_lines (rec : str * items → str → run ((str * items) * ParseResult))
    (filename : str) (st : str * items) (lines : list str) (lineNum : nat)
    : run ((str * items) * ParseResult) :=
  match lines with
  | [] => Done (st, result_ok)
  | line :: lines' =>
      match classify_line line with
      | LineError msg => Done (abs_new, result_error msg filename (S lineNum))
      | LineEmpty => spec_lines rec filename st lines' (S lineNum)
      | LineInclude includeFile =>
          let p := path_append (base_dir filename) includeFile in
          if fs_exists p then
            '(st', r) ← rec st p;
            if success r then spec_lines rec filename st' lines' (S lineNum)
            else match fs_open p with
                 | None => Done (abs_new, r)
                 | Some _ => Undef
                 end
          else Done (abs_new,
                 result_error ($"Included file not found: " ++ p) filename (S lineNum))
      | LineSection name => spec_lines rec filename (abs_section name st) lines' (S lineNum)
      | LineKey k v => spec_lines rec filename (abs_key k v st) lines' (S lineNum)
      end
  end.

Fixpoint spec_load (fuel : nat) (st : str * items) (filename : str)
    : run ((str * items) * ParseResult) :=
  match fuel with
  | 0 => NoFuel
  | S fuel' =>
      match fs_open filename with
      | None => Done (st, result_error ($"Cannot open file: " ++ filename) filename 0)
      | Some text => spec_lines (spec_load fuel') filename st (getlines text) 0
      end
  end.

(** The two agree: same termination, same undefined cases, same result; the
    concrete state is well formed, shows the abstract one, and the stack of
    base directories is back where it was, or the state is fresh. *)
Definition load_sim (opened : bool) (dirs : list str)
    (m : run (ConfigFile * ParseResult)) (sp : run ((str * items) * ParseResult)) : Prop :=
  match sp with
  | Undef => m = Undef
  | NoFuel => m = NoFuel
  | Done (st, r) =>
      ∃ c', m = Done (c', r) ∧ config_wf c' ∧ abs c' = st ∧
        if success r then m_baseDirStack c' = dirs
        else if opened then c' = ConfigFile_new else m_baseDirStack c' = dirs
  end.

Definition opens (f : str) : bool := match fs_open f with Some _ => true | None => false end.

Lemma pop_dir_snoc c dirs d :
  m_baseDirStack c = dirs ++ [d] → pop_dir c = Done (set_stack c dirs).
Proof.
  intros H. unfold pop_dir. rewrite H. destruct (dirs ++ [d]) as [|x l] eqn:E.
  - by destruct dirs.
  - rewrite <- E, length_app. simpl. by rewrite Nat.add_sub, take_app_length.
Qed.

Lemma load_lines_refines rec_load rec_spec filename dirs :
  (∀ c p, config_wf c →
    load_sim (opens p) (m_baseDirStack c) (rec_load c p) (rec_spec (abs c) p)) →
  ∀ lines c lineNum, config_wf c → m_baseDirStack c = dirs ++ [base_dir filename] →
  load_sim true dirs (load_lines fs_exists rec_load filename c lines lineNum)
    (spec_lines rec_spec filename (abs c) lines lineNum).
Proof.
  intros Hrec lines. induction lines as [|line lines IH]; intros c n Hwf Hst.
  { simpl. rewrite (pop_dir_snoc _ _ _ Hst). simpl. eexists; split_and!; eauto with lore. }
  cbn [load_lines spec_lines]. unfold parseLine.
  destruct (classify_line line) as [msg| |inc|name|k v].
  - simpl. rewrite (pop_dir_snoc _ _ _ Hst). simpl. eexists; split_and!; eauto with lore.
  - simpl. by apply IH.
  - unfold include_path. rewrite Hst, last_snoc. simpl default.
    destruct (fs_exists (path_append (base_dir filename) inc)).
    2: { simpl. rewrite (pop_dir_snoc _ _ _ Hst). simpl. eexists; split_and!; eauto with lore. }
    pose proof (Hrec c (path_append (base_dir filename) inc) Hwf) as Hp.
    unfold load_sim in Hp.
    destruct (rec_spec _ _) as [[st r]| |]; [|by rewrite Hp|by rewrite Hp].
    destruct Hp as (c' & -> & Hwf' & <- & Hend). simpl.
    destruct (success r) eqn:Er; simpl.
    + apply IH; [done|]. by rewrite Hend.
    + unfold opens in Hend. destruct (fs_open _); simpl in Hend; subst; simpl; [done|].
      rewrite (pop_dir_snoc c' dirs (base_dir filename)) by congruence.
      simpl. rewrite Er. eexists; split_and!; eauto with lore.
  - destruct (section_line_spec c name Hwf) as (Hwf' & Habs & Hst').
    destruct (getOrCreateSection c name) as [c' index]. simpl in *.
    rewrite <- Habs. apply IH; [done|]. simpl. by rewrite Hst'.
  - destruct (key_line_spec c k v Hwf) as (c' & -> & Hwf' & Habs & Hst'). simpl.
    rewrite <- Habs. apply IH; [done|]. simpl. by rewrite Hst'.
Qed.

(** C16: [load], with its vectors, index maps, current-section index and stack
    of base directories, refines the abstract interpreter over ordered maps:
    from a well-formed configuration it terminates exactly when that does,
    returns the same result, error file and line number, leaves a well-formed
    configuration that shows the same sections in the same order, restores the
    directory stack on success and leaves the fresh configuration when a line
    of the file is in error. *)
Theorem load_refines fuel c f :
  config_wf c →
  load_sim (opens f) (m_baseDirStack c) (load fs_exists fs_open fuel c f)
    (spec_load fuel (abs c) f).
Proof.
  revert c f. induction fuel as [|fuel IH]; intros c f Hwf; [done|].
  cbn [load spec_load]. unfold opens. destruct (fs_open f) as [text|] eqn:Ef.
  - change (abs c) with (abs (push_dir c (base_dir f))).
    apply load_lines_refines; [exact IH|by apply set_stack_wf|done].
  - simpl. eauto.
Qed.

(** ** Termination *)

(** [f] includes [g] by one of its lines. *)
Definition include_edge (f g : str) : Prop :=
  ∃ text line includeFile,
    fs_open f = Some text ∧ line ∈ getlines text ∧
    classify_line line = LineInclude includeFile ∧
    g = path_append (base_dir f) includeFile ∧ fs_exists g = true.

Lemma spec_lines_fuel rec f lines : ∀ st n,
  (∀ st line inc, line ∈ lines → classify_line line = LineInclude inc →
     fs_exists (path_append (base_dir f) inc) = true →
     rec st (path_append (base_dir f) inc) ≠ NoFuel) →
  spec_lines rec f st lines n ≠ NoFuel.
Proof.
  induction lines as [|line lines IH]; intros st n Hrec; [done|].
  assert (∀ st n, spec_lines rec f st lines n ≠ NoFuel) as IH'.
  { intros. apply IH. intros st2 l2 inc Hl. apply Hrec. by right. }
  cbn [spec_lines]. destruct (classify_line line) as [msg| |inc|name|k v] eqn:El;
    try done; try apply IH'.
  destruct (fs_exists _) eqn:Ex; [|done].
  pose proof (Hrec st line inc (list_elem_of_here _ _) El Ex) as Hr.
  destruct (rec st _) as [[st' r]| |]; simpl; [|done|done].
  destruct (success r); [apply IH'|]. by destruct (fs_open _).
Qed.

(** [load] terminates when no chain of include directives is endless: fuel
    above the rank of the file is enough, and the rank bounds the depth of
    nested [load] calls. *)
Theorem load_terminates (rank : str → nat) fuel c f :
  (∀ f g, include_edge f g → rank g < rank f) →
  config_wf c → rank f < fuel → load fs_exists fs_open fuel c f ≠ NoFuel.
Proof.
  intros Hrank Hwf Hfuel Hload. pose proof (load_refines fuel c f Hwf) as Hsim.
  rewrite Hload in Hsim. cut (spec_load fuel (abs c) f ≠ NoFuel).
  { unfold load_sim in Hsim. destruct (spec_load _ _ _) as [[? ?]| |]; try done.
    by destruct Hsim as (? & ? & _). }
  clear Hsim Hload. revert f Hfuel. generalize (abs c).
  induction fuel as [|fuel IH]; intros st f Hf; [lia|]. cbn [spec_load].
  destruct (fs_open f) as [text|] eqn:Ef; [|done]. apply spec_lines_fuel.
  intros st' line inc Hl Hc Hx. apply IH.
  assert (rank (path_append (base_dir f) inc) < rank f); [|lia].
  apply Hrank. exists text, line, inc. done.
Qed.

(** ** Files without include directives *)

Definition no_includes (lines : list str) : Prop :=
  ∀ line inc, line ∈ lines → classify_line line ≠ LineInclude inc.

Lemma spec_lines_flat rec f lines : ∀ st n,
  no_includes lines →
  ∃ st' r, spec_lines rec f st lines n = Done (st', r) ∧
           (success r = false → result_file r = f).
Proof.
  induction lines as [|line lines IH]; intros st n Hni;
    [by do 2 eexists|].
  assert (no_includes lines) as Hni'.
  { intros l inc Hl. apply Hni. by right. }
  cbn [spec_lines]. destruct (classify_line line) eqn:El; [by do 2 eexists|auto| |auto|auto].
  exfalso. eapply Hni; [by left|done].
Qed.

(** A file without include directives always loads with a defined outcome:
    success, or an error that names the file and leaves the configuration
    fresh. *)
Theorem load_flat_defined fuel c f text :
  config_wf c → fs_open f = Some text → no_includes (getlines text) →
  ∃ c' r, load fs_exists fs_open (S fuel) c f = Done (c', r) ∧ config_wf c' ∧
          (success r = false → c' = ConfigFile_new ∧ result_file r = f).
Proof.
  intros Hwf Hf Hni. pose proof (load_refines (S fuel) c f Hwf) as H.
  cbn [spec_load] in H. unfold opens in H. rewrite Hf in H.
  destruct (spec_lines_flat (spec_load fuel) f (getlines text) (abs c) 0 Hni)
    as (st & r & Hs & Hr). rewrite Hs in H.
  destruct H as (c' & -> & Hwf' & _ & Hend). exists c', r. split_and!; [done|done|].
  intros Hf'. rewrite Hf' in Hend. auto.
Qed.

(** An error inside an included file is not reported but undefined: the
    inner [load] runs [clear], which empties the directory stack, and the
    outer one then calls [pop_back] on the empty vector. *)
Theorem nested_error_undefined fuel c f g text lines text' bad lines' line inc msg :
  config_wf c →
  fs_open f = Some text → getlines text = line :: lines →
  classify_line line = LineInclude inc → g = path_append (base_dir f) inc →
  fs_exists g = true → fs_open g = Some text' → getlines text' = bad :: lines' →
  classify_line bad = LineError msg →
  load fs_exists fs_open (S (S fuel)) c f = Undef.
Proof.
  intros Hwf Hf Hl Hc -> Hx Hg Hl' Hc'.
  pose proof (load_refines (S (S fuel)) c f Hwf) as H. cbn [spec_load] in H.
  rewrite Hf, Hl in H. cbn [spec_lines] in H. rewrite Hc, Hx, Hg, Hl' in H.
  cbn [spec_lines] in H. rewrite Hc' in H. exact H.
Qed.
End spec.

Definition example_fs (f : str) : option str :=
  if f =s? $"etc/a.conf" then Some ($"k = v
include sub/b.conf
[s]
x = 1")
  else if f =s? $"etc/sub/b.conf" then Some ($"[t]
y = 2 # two")
  else if f =s? $"etc/bad.conf" then Some ($"include worse.conf")
  else if f =s? $"etc/worse.conf" then Some ($"= 3")
  else None.
Definition example_exists (f : str) : bool := bool_decide (is_Some (example_fs f)).

Lemma load_refines_witness :
  load_sim true [] (load example_exists example_fs 2 ConfigFile_new ($"etc/a.conf"))
    (Done (($"s", [(GlobalSectionName, [($"k", $"v")]); ($"t", [($"y", $"2")]);
                   ($"s", [($"x", $"1")])]), result_ok)).
Proof.
  exact (load_refines example_exists example_fs 2 ConfigFile_new ($"etc/a.conf")
    ConfigFile_new_wf).
Defined.

Definition flat_fs (f : str) : option str :=
  if f =s? $"f" then Some ($"a = 1") else None.

Lemma load_terminates_witness :
  load (λ _, false) flat_fs 1 ConfigFile_new ($"f") ≠ NoFuel.
Proof.
  apply (load_terminates (λ _, false) flat_fs (λ _, 0)); [|exact ConfigFile_new_wf|lia].
  intros f g (? & ? & ? & _ & _ & _ & _ & [=]).
Defined.

Lemma load_flat_defined_witness :
  ∃ c' r, load (λ _, false) flat_fs 1 ConfigFile_new ($"f") = Done (c', r) ∧ config_wf c' ∧
          (success r = false → c' = ConfigFile_new ∧ result_file r = $"f").
Proof.
  apply (load_flat_defined (λ _, false) flat_fs 0 ConfigFile_new ($"f") ($"a = 1"));
    [exact ConfigFile_new_wf|reflexivity|].
  intros line inc Hl%list_elem_of_singleton. subst line. vm_compute. discriminate.
Defined.

Lemma nested_error_undefined_witness :
  load example_exists example_fs 2 ConfigFile_new ($"etc/bad.conf") = Undef.
Proof.
  apply (nested_error_undefined example_exists example_fs 0 ConfigFile_new ($"etc/bad.conf")
    ($"etc/worse.conf") ($"include worse.conf") [] ($"= 3") ($"= 3") [] ($"include worse.conf")
    ($"worse.conf") ($"Empty key")); [exact ConfigFile_new_wf|vm_compute; reflexivity..].
Defined.

(** ** Typed access *)

(** [std::to_string] of a signed value. *)
Definition sdec (z : Z) : str :=
  if (z <? 0)%Z then "-"%char :: dec (Z.to_nat (- z)) else dec (Z.to_nat z).

Lemma digits_no_nul s : (∀ c, c ∈ s → isdigit c = true) → no_nul s.
Proof. intros H Hn. by specialize (H _ Hn). Qed.

Lemma dec_head n : ∃ c l, dec n = c :: l ∧ isdigit c = true.
Proof.
  pose proof (dec_nonempty n) as Hne. pose proof (dec_digits n) as H.
  destruct (dec n) as [|c l]; [done|]. exists c, l. split; [done|]. apply H. by left.
Qed.

Lemma digit_not_space c : isdigit c = true → isspace c = false ∧ (c =c? "-"%char) = false
  ∧ (c =c? "+"%char) = false.
Proof.
  intros H. split_and!; apply not_true_is_false; intros H2.
  - apply in_set_spec in H2. rewrite !elem_of_cons, elem_of_nil in H2.
    naive_solver (subst; done).
  - apply Ascii.eqb_eq in H2. by subst.
  - apply Ascii.eqb_eq in H2. by subst.
Qed.

Lemma strtol_sdec z :
  strtol (sdec z) =
    if (z <? LONG_MIN)%Z then (LONG_MIN, length (sdec z), true)
    else if (z >? LONG_MAX)%Z then (LONG_MAX, length (sdec z), true)
    else (z, length (sdec z), false).
Proof.
  unfold strtol, sdec. destruct (Z.ltb_spec z 0).
  - pose proof (digits_value_dec (Z.to_nat (- z))) as Hd.
    pose proof (dec_nonempty (Z.to_nat (- z))) as Hne.
    destruct (dec (Z.to_nat (- z))) as [|c l] eqn:E; [done|]. clear Hne E.
    assert (isspace "-"%char = false) as Hs by reflexivity.
    cbn [count_spaces]. rewrite Hs. cbn [drop]. rewrite Ascii.eqb_refl.
    cbn [Nat.add drop]. rewrite Hd. cbn [length Nat.eqb Nat.add].
    replace (- Z.of_nat (Z.to_nat (- z)))%Z with z by lia. done.
  - pose proof (digits_value_dec (Z.to_nat z)) as Hd.
    destruct (dec_head (Z.to_nat z)) as (c & l & Hcl & Hc). rewrite Hcl in *.
    destruct (digit_not_space c Hc) as (Hs & Hm & Hp).
    cbn [count_spaces]. rewrite Hs. cbn [drop]. rewrite Hm, Hp. cbn [Nat.add drop].
    rewrite Hd. cbn [length Nat.eqb]. by rewrite Z2Nat.id by lia.
Qed.

Lemma sdec_no_nul z : no_nul (sdec z).
Proof.
  unfold sdec. destruct (z <? 0)%Z.
  - intros [Hc|Hc]%elem_of_cons; [done|]. by apply dec_digits in Hc.
  - apply digits_no_nul, dec_digits.
Qed.

Lemma parse_int_sdec z :
  parse_int (sdec z) =
    if ((INT_MIN <=? z) && (z <=? INT_MAX))%Z then Some z else None.
Proof.
  unfold parse_int. assert (sdec z ≠ []) as Hne.
  { unfold sdec. destruct (z <? 0)%Z; [done|apply dec_nonempty]. }
  destruct (sdec z) eqn:E; [done|]. rewrite <- E. clear E Hne.
  rewrite (c_str_id _ (sdec_no_nul z)), strtol_sdec.
  unfold LONG_MIN, LONG_MAX, INT_MIN, INT_MAX.
  repeat case_match; simpl in *; simplify_eq; try done; try lia;
    rewrite ?Nat.eqb_refl in *; simpl in *; try done; lia.
Qed.

Lemma parse_int_range s n : parse_int s = Some n → (INT_MIN ≤ n ≤ INT_MAX)%Z.
Proof.
  unfold parse_int. destruct s; [done|]. destruct (strtol _) as [[v used] e].
  destruct (_ || _); [done|]. destruct (Z.ltb_spec v INT_MIN); [done|].
  destruct (Z.gtb_spec v INT_MAX); [done|]. simpl. intros [= <-]. lia.
Qed.

(** [getInt] reads back every [int] written in decimal, and answers
    [nullopt] for every decimal number that does not fit one, the numbers beyond
    [long] included. *)
Theorem getInt_roundtrip s k z :
  section_wf s →
  ∃ s', addKeyValue s k (sdec z) = Done s' ∧
        getInt s' k = Done (if ((INT_MIN <=? z) && (z <=? INT_MAX))%Z then Some z else None).
Proof.
  intros Hwf. destruct (addKeyValue_spec s k (sdec z) Hwf) as (s' & -> & Hwf' & _ & Hkv).
  exists s'. split; [done|]. unfold getInt.
  rewrite getString_spec, Hkv, assoc_get_set by done. cbn. by rewrite parse_int_sdec.
Qed.

Lemma getInt_roundtrip_witness :
  ∃ s', addKeyValue (new_section []) ($"k") ($"-42") = Done s' ∧
        getInt s' ($"k") = Done (Some (-42)%Z).
Proof. apply (getInt_roundtrip (new_section []) ($"k") (-42)), new_section_wf. Defined.

(** [getDouble] reads back every number whose text [strtod] reads as a whole without an error,
    and answers [nullopt] for a text it reads a part of, like a number with a unit, and for
    one that sets [errno]. *)
Theorem getDouble_roundtrip {D} (strtod : str → D * nat * bool) s k text d used failed :
  section_wf s → no_nul text → text ≠ [] → strtod text = (d, used, failed) →
  ∃ s', addKeyValue s k text = Done s' ∧
        getDouble strtod s' k = Done (if failed || negb (used =? length text)%nat then None else Some d).
Proof.
  intros Hwf Hnul Hne Hd. destruct (addKeyValue_spec s k text Hwf) as (s' & -> & Hwf' & _ & Hkv).
  exists s'. split; [done|]. unfold getDouble. rewrite getString_spec, Hkv, assoc_get_set by done. cbn.
  unfold parse_double. destruct text; [done|]. by rewrite (c_str_id _ Hnul), Hd.
Qed.

Lemma getDouble_roundtrip_witness :
  ∃ s', addKeyValue (new_section []) ($"k") ($"2x") = Done s' ∧
        getDouble (λ _, (2%Z, 1, false)) s' ($"k") = Done None.
Proof.
  apply (getDouble_roundtrip (λ _, (2%Z, 1, false)) (new_section []) ($"k") ($"2x") 2%Z 1 false).
  - apply new_section_wf.
  - intros H. repeat (apply elem_of_cons in H as [H|H]; [discriminate H|]). by apply not_elem_of_nil in H.
  - discriminate.
  - reflexivity.
Defined.

Example parse_int_too_big : parse_int ($"-2147483649") = None.
Proof. vm_compute. reflexivity. Qed.

Lemma parse_bool_case s t : tolower <$> s = tolower <$> t → parse_bool s = parse_bool t.
Proof.
  intros H. unfold parse_bool. rewrite H.
  assert (length s = length t) as Hl by (apply (f_equal length) in H; by rewrite !length_fmap in H).
  by destruct s, t.
Qed.

(** ** Quoting *)

Lemma substr_mid c m d : substr (c :: m ++ [d]) 1 (length (c :: m ++ [d]) - 2) = m.
Proof.
  unfold substr. simpl. rewrite length_app. simpl.
  replace (length m + 1 - 1) with (length m) by lia. apply take_app_length.
Qed.

Lemma back_is_snoc s c d : back_is (s ++ [c]) d = (c =c? d).
Proof. apply ends_with_char_snoc. Qed.

Lemma back_is_mid c m d e : back_is (c :: m ++ [d]) e = (d =c? e).
Proof. apply (back_is_snoc (c :: m)). Qed.

Lemma clean_ends_mid chars c m d :
  c ∉ chars → d ∉ chars → clean_ends chars (c :: m ++ [d]).
Proof.
  intros Hc Hd. split; intros x.
  - simpl. congruence.
  - change (c :: m ++ [d]) with ((c :: m) ++ [d]). rewrite last_snoc. congruence.
Qed.

Definition is_quote (c : ascii) : bool := (c =c? c_dquote) || (c =c? c_squote).

(** A quoted key or value is stored with its quotes removed and its escape
    sequences as they were written: [unquoteString] has already removed the
    quotes when [parseQuotedString], which decodes escapes only between quotes,
    sees it. *)
Theorem quoted_verbatim q x :
  is_quote q = true → (∀ c, head x = Some c → is_quote c = false) →
  parseQuotedString (unquoteString (q :: x ++ [q])) = Some x.
Proof.
  intros Hq Hx. unfold unquoteString. rewrite substr_mid.
  unfold front_is. rewrite !back_is_mid. simpl starts_with_char.
  replace (2 <=? length (q :: x ++ [q]))%nat with true.
  2: { symmetry. apply Nat.leb_le. simpl. rewrite length_app. simpl. lia. }
  unfold is_quote in Hq. rewrite !andb_diag, Hq. simpl.
  destruct x as [|c x]; [done|]. specialize (Hx c eq_refl).
  apply orb_false_iff in Hx as [H1 H2]. unfold parseQuotedString. by rewrite H1, H2.
Qed.

Lemma quoted_verbatim_witness :
  parseQuotedString (unquoteString (c_dquote :: $"a\nb" ++ [c_dquote])) = Some ($"a\nb").
Proof. apply quoted_verbatim; [reflexivity|]. by intros c [= <-]. Defined.

(** The written form of a string between double quotes. *)
Fixpoint quote_body (s : str) : str :=
  match s with
  | [] => []
  | c :: s' =>
      (if c =c? c_nl then [c_backslash; "n"%char]
       else if c =c? c_dquote then [c_backslash; c_dquote]
       else if c =c? c_backslash then [c_backslash; c_backslash]
       else [c]) ++ quote_body s'
  end.
Definition quote (s : str) : str := c_dquote :: quote_body s ++ [c_dquote].

Lemma parseQuoted_loop_body s : ∀ result,
  parseQuoted_loop (quote_body s) result = Some (result ++ s).
Proof.
  induction s as [|c s IH]; intros result; simpl; [by rewrite app_nil_r|].
  destruct (Ascii.eqb_spec c c_nl) as [->|H1]; [simpl; by rewrite IH, <- app_assoc|].
  destruct (Ascii.eqb_spec c c_dquote) as [->|H2]; [simpl; by rewrite IH, <- app_assoc|].
  destruct (Ascii.eqb_spec c c_backslash) as [->|H3]; [simpl; by rewrite IH, <- app_assoc|].
  simpl. apply Ascii.eqb_neq in H3. by rewrite H3, IH, <- app_assoc.
Qed.

Lemma parseQuotedString_quote s : parseQuotedString (quote s) = Some s.
Proof.
  unfold parseQuotedString, quote. rewrite substr_mid, parseQuoted_loop_body.
  rewrite back_is_mid. replace (_ <? 2)%nat with false; [done|].
  symmetry. apply Nat.ltb_ge. simpl. rewrite length_app. simpl. lia.
Qed.

(** ** Round trip *)

(** A configuration as a document: sections in order, each with its items. *)
Definition render_key (k v : str) : str :=
  (c_dquote :: k ++ [c_dquote]) ++ "="%char :: c_dquote :: v ++ [c_dquote].
Definition render_section (name : str) : str := "["%char :: quote name ++ ["]"%char].

Fixpoint render_lines (doc : items) : list str :=
  match doc with
  | [] => []
  | (name, kvs) :: doc' =>
      render_section name :: ((λ kv, render_key kv.1 kv.2) <$> kvs) ++ render_lines doc'
  end.

Definition render_text (lines : list str) : str :=
  concat ((λ l, l ++ [c_nl]) <$> lines).

(** What survives being written between double quotes verbatim. *)
Definition raw_ok (s : str) : Prop :=
  (c_dquote ∉ s) ∧ (c_backslash ∉ s) ∧ (c_nl ∉ s) ∧ head s ≠ Some c_squote.
Definition item_ok (kv : str * str) : Prop :=
  raw_ok kv.1 ∧ ("="%char ∉ kv.1) ∧ raw_ok kv.2.

Definition doc_ok (doc : items) : Prop :=
  NoDup doc.*1 ∧ (GlobalSectionName ∉ doc.*1) ∧
  Forall (λ s, NoDup s.2.*1 ∧ Forall item_ok s.2) doc.

Lemma getlines_loop_line l : ∀ rest cur,
  c_nl ∉ l → getlines_loop (l ++ c_nl :: rest) cur = (cur ++ l) :: getlines_loop rest [].
Proof.
  induction l as [|c l IH]; intros rest cur; cbn [app getlines_loop].
  - rewrite Ascii.eqb_refl. by rewrite app_nil_r.
  - rewrite not_elem_of_cons. intros [Hc Hl]. apply not_eq_sym, Ascii.eqb_neq in Hc.
    rewrite Hc, IH by done. by rewrite <- app_assoc.
Qed.

Lemma getlines_render lines :
  Forall (λ l, c_nl ∉ l) lines → getlines (render_text lines) = lines.
Proof.
  unfold getlines, render_text. induction 1 as [|l lines Hl _ IH]; [done|].
  rewrite fmap_cons. cbn [concat]. rewrite <- app_assoc.
  change ([c_nl] ++ ?r) with (c_nl :: r). rewrite getlines_loop_line by done.
  by f_equal.
Qed.

(** Steps of the scan at a quote and at a plain character. *)
Lemma ric_open r result q :
  removeInlineComment_loop (c_dquote :: r) result false q false
  = removeInlineComment_loop r (result ++ [c_dquote]) true c_dquote false.
Proof. reflexivity. Qed.
Lemma ric_close r result :
  removeInlineComment_loop (c_dquote :: r) result true c_dquote false
  = removeInlineComment_loop r (result ++ [c_dquote]) false c_dquote false.
Proof. reflexivity. Qed.
Lemma ric_plain c r result q :
  c ∉ [c_dquote; c_squote; c_backslash; "#"%char] →
  removeInlineComment_loop (c :: r) result false q false
  = removeInlineComment_loop r (result ++ [c]) false q false.
Proof.
  rewrite !not_elem_of_cons. intros (H1 & H2 & H3 & H4 & _).
  apply Ascii.eqb_neq in H1, H2, H3, H4. cbn [removeInlineComment_loop].
  by rewrite H1, H2, H3, H4.
Qed.
Lemma ric_end result q : removeInlineComment_loop [] result false q false = Some result.
Proof. reflexivity. Qed.

Lemma ric_body s : ∀ rest result,
  removeInlineComment_loop (quote_body s ++ rest) result true c_dquote false
  = removeInlineComment_loop rest (result ++ quote_body s) true c_dquote false.
Proof.
  induction s as [|c s IH]; intros rest result; cbn [quote_body]; [by rewrite app_nil_r|].
  destruct (Ascii.eqb_spec c c_nl) as [->|H1];
    [|destruct (Ascii.eqb_spec c c_dquote) as [->|H2];
      [|destruct (Ascii.eqb_spec c c_backslash) as [->|H3]]].
  1-3: rewrite <- app_assoc; etransitivity;
    [|rewrite app_assoc; apply IH]; simpl; by rewrite <- app_assoc.
  apply Ascii.eqb_neq in H2, H3. rewrite <- app_assoc. cbn [app removeInlineComment_loop].
  rewrite H2, H3. rewrite orb_false_l, andb_false_r.
  change (result ++ c :: quote_body s) with (result ++ [c] ++ quote_body s).
  rewrite app_assoc, <- IH. by destruct (c =c? c_squote).
Qed.

Lemma ric_raw s : ∀ rest result, c_dquote ∉ s → c_backslash ∉ s →
  removeInlineComment_loop (s ++ rest) result true c_dquote false
  = removeInlineComment_loop rest (result ++ s) true c_dquote false.
Proof.
  induction s as [|c s IH]; intros rest result; cbn [app]; [by rewrite app_nil_r|].
  rewrite !not_elem_of_cons. intros [H1 Hs1] [H2 Hs2].
  apply not_eq_sym, Ascii.eqb_neq in H1, H2. cbn [removeInlineComment_loop].
  rewrite H1, H2, orb_false_l, andb_false_r.
  change (result ++ c :: s) with (result ++ [c] ++ s). rewrite app_assoc, <- IH by done.
  by destruct (c =c? c_squote).
Qed.

Ltac plain_char := apply (bool_decide_unpack _); vm_compute; exact I.

Lemma dquote_not_ws : c_dquote ∉ ws_chars.
Proof. plain_char. Qed.

Lemma classify_render_section name :
  classify_line (render_section name) = LineSection name.
Proof.
  unfold classify_line, removeInlineComment, render_section, quote.
  replace (removeInlineComment_loop _ _ _ _ _)
    with (Some ("["%char :: (c_dquote :: quote_body name ++ [c_dquote]) ++ ["]"%char])).
  2: { symmetry. rewrite ric_plain by plain_char. rewrite <- app_comm_cons, ric_open.
       rewrite <- app_assoc, ric_body. cbn [app].
       rewrite ric_close, ric_plain by plain_char. rewrite ric_end.
       by rewrite <- !app_assoc. }
  cbn zeta. rewrite conf_trim_id.
  2: { apply clean_ends_mid; plain_char. }
  cbn [starts_with prefixb list_ascii_of_string]. change ("i" =c? "[")%char with false.
  cbn [andb]. change (front_is _ _) with true. cbn [andb].
  rewrite back_is_mid, Ascii.eqb_refl. unfold classify_section.
  rewrite substr_mid, conf_trim_id by (apply clean_ends_mid; apply dquote_not_ws).
  fold (quote name). by rewrite parseQuotedString_quote.
Qed.

Lemma quoted_raw s :
  raw_ok s → parseQuotedString (unquoteString (c_dquote :: s ++ [c_dquote])) = Some s.
Proof.
  intros (H1 & _ & _ & H2). unfold unquoteString. rewrite substr_mid.
  replace (2 <=? _)%nat with true.
  2: { symmetry. apply Nat.leb_le. simpl. rewrite length_app. simpl. lia. }
  rewrite !back_is_mid. simpl (front_is _ _). rewrite !Ascii.eqb_refl. cbn [andb orb].
  destruct s as [|c s]; [done|]. apply not_elem_of_cons in H1 as [Hc _].
  apply not_eq_sym, Ascii.eqb_neq in Hc. unfold parseQuotedString. rewrite Hc.
  destruct (Ascii.eqb_spec c c_squote) as [->|Hne]; [by exfalso; apply H2|reflexivity].
Qed.

Lemma classify_render_key k v :
  item_ok (k, v) → classify_line (render_key k v) = LineKey k v.
Proof.
  intros (Hk & Heq & Hv). simpl in Hk, Heq, Hv.
  pose proof (quoted_raw k Hk) as Hpk. pose proof (quoted_raw v Hv) as Hpv.
  destruct Hk as (Hk1 & Hk2 & _), Hv as (Hv1 & Hv2 & _).
  unfold classify_line, removeInlineComment.
  replace (removeInlineComment_loop _ _ _ _ _) with (Some (render_key k v)).
  2: { symmetry. unfold render_key. rewrite <- app_comm_cons, <- app_assoc.
       rewrite ric_open, ric_raw by done. cbn [app].
       rewrite ric_close, ric_plain by plain_char. rewrite ric_open, ric_raw by done.
       rewrite ric_close, ric_end. by rewrite <- !app_assoc. }
  cbn zeta. rewrite conf_trim_id.
  2: { unfold render_key. rewrite <- app_comm_cons.
       match goal with |- context [?l ++ "="%char :: c_dquote :: v ++ [c_dquote]] =>
         change (l ++ "="%char :: c_dquote :: v ++ [c_dquote])
           with (l ++ ("="%char :: c_dquote :: v) ++ [c_dquote]); rewrite app_assoc end.
       apply clean_ends_mid; apply dquote_not_ws. }
  unfold render_key at 1. cbn [app].
  change (starts_with _ _) with false. change (front_is _ _) with false. cbn [andb].
  unfold classify_key, render_key.
  rewrite find_char_app.
  2: { intros [Hc|Hc]%elem_of_cons; [done|]. apply elem_of_app in Hc as [Hc|Hc]; [done|].
       by apply list_elem_of_singleton in Hc. }
  rewrite take_app_length, drop_app_ge by lia.
  replace (_ + 1 - _) with 1 by lia. cbn [drop].
  rewrite !conf_trim_id by (apply clean_ends_mid; apply dquote_not_ws).
  rewrite strip_value_id by (apply clean_ends_mid; apply dquote_not_ws).
  by rewrite Hpk, Hpv.
Qed.

Lemma quote_body_no_nl s : c_nl ∉ quote_body s.
Proof.
  induction s as [|c s IH]; cbn [quote_body]; [apply not_elem_of_nil|].
  rewrite not_elem_of_app. split; [|done].
  destruct (Ascii.eqb_spec c c_nl) as [->|H1]; [plain_char|].
  destruct (c =c? c_dquote); [plain_char|]. destruct (c =c? c_backslash); [plain_char|].
  rewrite list_elem_of_singleton. congruence.
Qed.

Lemma render_lines_no_nl doc :
  Forall (λ s, NoDup s.2.*1 ∧ Forall item_ok s.2) doc →
  Forall (λ l, c_nl ∉ l) (render_lines doc).
Proof.
  assert (c_nl ∉ [c_dquote; "["%char; "]"%char; "="%char]) as Hc by plain_char.
  rewrite !not_elem_of_cons in Hc. destruct Hc as (H1 & H2 & H3 & H4 & _).
  induction 1 as [|[name kvs] doc [_ Hkvs] _ IH]; cbn [render_lines]; [done|].
  constructor; [|apply Forall_app; split; [|done]].
  - unfold render_section, quote. rewrite !not_elem_of_cons, !not_elem_of_app.
    rewrite !not_elem_of_cons, !not_elem_of_app, !not_elem_of_cons.
    pose proof (quote_body_no_nl name). pose proof (not_elem_of_nil c_nl). naive_solver.
  - simpl in Hkvs. apply Forall_fmap. eapply Forall_impl; [exact Hkvs|].
    intros [k v] ((? & ? & Hk & _) & _ & (? & ? & Hv & _)). simpl in *. unfold render_key.
    rewrite not_elem_of_app, !not_elem_of_cons, !not_elem_of_app, !not_elem_of_cons.
    pose proof (not_elem_of_nil c_nl). naive_solver.
Qed.

Section roundtrip.
Context (fs_exists : str → bool) (fs_open : str → option str).
Context (rec : str * items → str → run ((str * items) * ParseResult)).

Lemma spec_lines_items f name l kvs rest : ∀ done n,
  Forall item_ok kvs → NoDup (done ++ kvs).*1 → name ∉ l.*1 →
  spec_lines fs_exists fs_open rec f (name, l ++ [(name, done)])
    (((λ kv, render_key kv.1 kv.2) <$> kvs) ++ rest) n
  = spec_lines fs_exists fs_open rec f (name, l ++ [(name, done ++ kvs)]) rest
      (n + length kvs).
Proof.
  induction kvs as [|[k v] kvs IH]; intros dn n Hok Hnd Hl.
  - simpl. by rewrite app_nil_r, Nat.add_0_r.
  - apply Forall_cons in Hok as [Hkv Hok]. rewrite fmap_cons. cbn [app fst snd spec_lines].
    rewrite (classify_render_key k v Hkv). unfold abs_key. cbn [fst snd].
    rewrite assoc_set_app, assoc_set_here by done. cbn [default].
    rewrite assoc_set_new.
    2: { rewrite fmap_app in Hnd. apply NoDup_app in Hnd as (_ & Hd & _).
         intros Hin. apply (Hd k Hin). by left. }
    rewrite IH; [|done|by rewrite <- app_assoc|done].
    rewrite <- app_assoc. f_equal. simpl. lia.
Qed.

Lemma spec_lines_doc f doc : ∀ cur secs n,
  NoDup (secs ++ doc).*1 → Forall (λ s, NoDup s.2.*1 ∧ Forall item_ok s.2) doc →
  ∃ cur', spec_lines fs_exists fs_open rec f (cur, secs) (render_lines doc) n
          = Done ((cur', secs ++ doc), result_ok).
Proof.
  induction doc as [|[name kvs] doc IH]; intros cur secs n Hnd Hok.
  - exists cur. by rewrite app_nil_r.
  - apply Forall_cons in Hok as [[Hk Hi] Hok]. cbn [render_lines spec_lines].
    rewrite classify_render_section. unfold abs_section. cbn [fst snd].
    assert (name ∉ secs.*1) as Hn.
    { rewrite fmap_app in Hnd. apply NoDup_app in Hnd as (_ & Hd & _).
      intros Hin. apply (Hd name Hin). by left. }
    rewrite assoc_set_new by done. cbn [default].
    rewrite spec_lines_items; [|done|done|done]. cbn [app].
    destruct (IH name (secs ++ [(name, kvs)]) (S n + length kvs)) as [cur' H].
    { by rewrite <- app_assoc. }
    { done. }
    exists cur'. rewrite H. by rewrite <- app_assoc.
Qed.
End roundtrip.

Lemma load_document fs_exists fs_open fuel f doc :
  doc_ok doc → fs_open f = Some (render_text (render_lines doc)) →
  ∃ c, load fs_exists fs_open (S fuel) ConfigFile_new f = Done (c, result_ok) ∧
       config_wf c ∧ sections_view c = (GlobalSectionName, []) :: doc.
Proof.
  intros (Hnd & Hg & Hok) Hf.
  pose proof (load_refines fs_exists fs_open (S fuel) _ f ConfigFile_new_wf) as H.
  cbn [spec_load] in H. rewrite Hf, getlines_render in H by by apply render_lines_no_nl.
  change (abs ConfigFile_new) with abs_new in H. unfold abs_new in H.
  destruct (spec_lines_doc fs_exists fs_open (spec_load fs_exists fs_open fuel) f doc
    GlobalSectionName [(GlobalSectionName, [])] 0) as [cur Hs]; [|done|].
  { simpl. by apply NoDup_cons. }
  rewrite Hs in H. destruct H as (c & Hl & Hwf & Habs & _). exists c.
  split_and!; [done|done|]. by injection Habs.
Qed.

(** C18: a configuration written out as text, one quoted header per section and
    one quoted item per line, loads back as exactly that document: same
    sections in the same order, same items in the same order, with any bytes in
    section names and any byte but double quotes, backslashes and newlines in
    keys and values, comment signs and blanks included. *)
Theorem load_roundtrip fs_exists fs_open fuel f doc :
  doc_ok doc → fs_open f = Some (render_text (render_lines doc)) →
  ∃ c, load fs_exists fs_open (S fuel) ConfigFile_new f = Done (c, result_ok) ∧
       config_wf c ∧ sections_view c = (GlobalSectionName, []) :: doc.
Proof. apply load_document. Qed.

Definition example_doc : items :=
  [($"a ]#", [($"k#", $" v = 1 "); ($"empty", [])]); ($"b", [])].

Lemma load_roundtrip_witness :
  ∃ c, load (λ _, false) (λ _, Some (render_text (render_lines example_doc))) 1
         ConfigFile_new ($"f") = Done (c, result_ok) ∧
       config_wf c ∧ sections_view c = (GlobalSectionName, []) :: example_doc.
Proof.
  apply (load_roundtrip (λ _, false) (λ _, Some (render_text (render_lines example_doc))) 0
    ($"f") example_doc); [|reflexivity].
  split_and!; apply (bool_decide_unpack _); vm_compute; exact I.
Defined.

(** A key that merely begins with the directive's name is taken for one. *)
Example include_prefix :
  classify_line ($"includePath = /opt") = LineInclude ($"Path = /opt").
Proof. vm_compute. reflexivity. Qed.
