(* ===== verification/TextExtras.v ===== *)
(** The rest of [include/lorelei/Support/StringExtras.h]: the overloads for characters and
    for wide strings, the checked [drop_front], conversions to strings ([to_string], [conv])
    and the formatting that uses them ([formatN]).

    A wide string is a list of [wchar_t] values.  The wide algorithms are those of narrow
    strings on another character type; the theorem says that they agree. *)

From stdpp Require Import list.
From S2P Require Import Prelude CppString StringExtras ConfigFile.

(** [wchar_t] of the platforms at hand: 32 bits. *)
Definition wstr : Type := list Z.

(** ** Wide overloads *)

Fixpoint wprefixb (prefix s : wstr) : bool :=
  match prefix, s with
  | [], _ => true
  | p :: prefix, c :: s => (p =? c)%Z && wprefixb prefix s
  | _ :: _, [] => false
  end.

Definition wstarts_with (s prefix : wstr) : bool := wprefixb prefix s.
Definition wstarts_with_char (s : wstr) (c : Z) : bool := match s with d :: _ => (d =? c)%Z | [] => false end.
Definition wends_with (s suffix : wstr) : bool :=
  bool_decide (length suffix ≤ length s) && bool_decide (drop (length s - length suffix) s = suffix).
Definition wends_with_char (s : wstr) (c : Z) : bool := match List.rev s with d :: _ => (d =? c)%Z | [] => false end.

(** C's [toupper] and [tolower], in the "C" locale: defined for [EOF] and [unsigned char]. *)
Definition EOF_ : Z := -1.
Definition c_toupper (c : Z) : run Z :=
  if (EOF_ <=? c)%Z && (c <=? 255)%Z then Done (if (97 <=? c)%Z && (c <=? 122)%Z then c - 32 else c)%Z else Undef.
Definition c_tolower (c : Z) : run Z :=
  if (EOF_ <=? c)%Z && (c <=? 255)%Z then Done (if (65 <=? c)%Z && (c <=? 90)%Z then c + 32 else c)%Z else Undef.

(** [std::transform]. *)
Fixpoint transform {A B} (f : A → run B) (s : list A) : run (list B) :=
  match s with
  | [] => Done []
  | c :: s => c ← f c; s ← transform f s; Done (c :: s)
  end.

Definition wto_upper (s : wstr) : run wstr := transform c_toupper s.
Definition wto_lower (s : wstr) : run wstr := transform c_tolower s.

(** Narrow characters; bytes above 127 are taken as [unsigned char]s, as glibc's tables do. *)
Definition toupper (c : ascii) : ascii :=
  if (97 <=? code c)%nat && (code c <=? 122)%nat then ascii_of_nat (code c - 32) else c.
Definition to_upper (s : str) : str := toupper <$> s.

(** ** Characters *)

(** [substr] throws behind the end. *)
Definition drop_front_checked (s : str) (N : nat) : option str := if (N <=? length s)%nat then Some (drop N s) else None.

Definition ltrim_char (s : str) (c : ascii) : str := ltrim s [c].
Definition rtrim_char (s : str) (c : ascii) : str := rtrim s [c].
Definition trim_char (s : str) (c : ascii) : str := rtrim_char (ltrim_char s c) c.

(** ** Conversions *)

Section conversions.
(** [std::filesystem::path]'s conversions between narrow and wide text, and the text that a
    stream gives a floating-point number. *)
Variable path_wide : str → wstr.
Variable path_narrow : wstr → str.
Context {F : Type}.
Variable print_float : F → str.

(** The terminator of a wide C string. *)
Fixpoint c_wstr (s : wstr) : wstr := match s with [] => [] | c :: s => if (c =? 0)%Z then [] else c :: c_wstr s end.

(** [size] is an [int]; a negative one means that the text ends with a NUL.  The text is
    what the pointer points to. *)
Definition from_utf8 (s : str) (size : Z) : wstr :=
  let size := if (size <? 0)%Z then Z.of_nat (length (c_str s)) else size in
  if (size =? 0)%Z then [] else path_wide (take (Z.to_nat size) s).
Definition to_utf8 (s : wstr) (size : Z) : str :=
  let sv := if (size <? 0)%Z then c_wstr s else take (Z.to_nat size) s in
  match sv with [] => [] | _ => path_narrow sv end.

(** The overloads for views: the length is converted to [int]. *)
Definition from_utf8_view (s : str) : wstr := from_utf8 s (wraps 32 (Z.of_nat (length s))).
Definition to_utf8_view (s : wstr) : str := to_utf8 s (wraps 32 (Z.of_nat (length s))).

(** [normalize_separators], but on Windows. *)
Definition normalize_separators (utf8_path : str) (native : bool) : str :=
  (λ c, if c =c? c_backslash then "/"%char else c) <$> utf8_path.

(** What [to_string] is given, by its type. *)
Inductive Value : Type :=
  | V_bool (b : bool)
  | V_char (c : ascii)
  | V_wchar (c : Z)
  | V_integer (z : Z)
  | V_float (x : F)
  | V_string (s : str)
  | V_view (s : str)
  | V_chars (s : str)
  | V_wstring (s : wstr)
  | V_wview (s : wstr)
  | V_wchars (s : wstr)
  | V_path (s : str).

(** [None] where it does not compile: [std::string] has no constructor from a [char]. *)
Definition to_string (t : Value) : option str :=
  match t with
  | V_bool b => Some (if b then $"true" else $"false")
  | V_char _ => None
  | V_wchar c => Some (to_utf8 [c] 1)
  | V_integer z => Some (sdec z)
  | V_float x => Some (print_float x)
  | V_string s | V_view s => Some s
  | V_chars s => Some (c_str s)
  | V_wstring s | V_wview s => Some (to_utf8_view s)
  | V_wchars s => Some (to_utf8 s (-1))
  | V_path s => Some (normalize_separators s true)
  end.

(** [formatN]; without arguments it is another overload. *)
Definition formatN (fmt : str) (args : list Value) : option (run str) :=
  match args with
  | [] => Some (Done fmt)
  | _ => texts ← mapM to_string args; Some (format fmt texts)
  end.
End conversions.

(** The overload of [join] for views. *)
Definition join_views (v : list str) (delimiter : str) : str := match v with [] => [] | _ => join_loop v delimiter [] end.

(** [asprintf]: [vasprintf] on the arguments that follow. *)
Definition asprintf (out : option str) : str := vasprintf out.

(** ** The overloads agree *)

(** The wide text of narrow text. *)
Definition widen (s : str) : wstr := (λ c, Z.of_nat (code c)) <$> s.

Lemma widen_inj s t : widen s = widen t → s = t.
Proof.
  apply list_fmap_eq_inj. intros a b Hab. apply Nat2Z.inj in Hab.
  rewrite <- (ascii_nat_embedding a), <- (ascii_nat_embedding b). by f_equal.
Qed.

Lemma widen_char a b : (Z.of_nat (code a) =? Z.of_nat (code b))%Z = (a =c? b).
Proof.
  apply eq_bool_prop_intro. rewrite !Is_true_true, Z.eqb_eq, Ascii.eqb_eq. split; [|by intros ->].
  intros Hab. assert (widen [a] = widen [b]) as [=]%widen_inj; [|done]. unfold widen. cbn. by rewrite Hab.
Qed.

Lemma wprefixb_widen p s : wprefixb (widen p) (widen s) = prefixb p s.
Proof.
  revert s. induction p as [|a p IH]; intros [|b s]; [done..|]. cbn [widen fmap list_fmap wprefixb prefixb].
  fold (widen p) (widen s). by rewrite widen_char, IH.
Qed.

Lemma widen_rev s : List.rev (widen s) = widen (List.rev s).
Proof. unfold widen. symmetry. apply map_rev. Qed.

Lemma transform_widen f g s :
  (∀ c, f (Z.of_nat (code c)) = Done (Z.of_nat (code (g c)))) → transform f (widen s) = Done (widen (g <$> s)).
Proof.
  intros Hf. induction s as [|c s IH]; [done|]. cbn [widen fmap list_fmap transform]. fold (widen s) (widen (g <$> s)).
  rewrite Hf. cbn [mbind run_bind]. by rewrite IH.
Qed.

Lemma code_bound c : code c < 256.
Proof. apply nat_ascii_bounded. Qed.

Lemma c_toupper_widen c : c_toupper (Z.of_nat (code c)) = Done (Z.of_nat (code (toupper c))).
Proof.
  pose proof (code_bound c). unfold c_toupper, EOF_, toupper.
  replace ((-1 <=? Z.of_nat (code c)) && (Z.of_nat (code c) <=? 255))%Z with true by lia.
  destruct ((97 <=? code c)%nat && (code c <=? 122)%nat) eqn:E.
  - apply andb_true_iff in E as [?%Nat.leb_le ?%Nat.leb_le].
    replace ((97 <=? Z.of_nat (code c)) && (Z.of_nat (code c) <=? 122))%Z with true by lia.
    unfold code at 2. rewrite nat_ascii_embedding by lia. f_equal. lia.
  - apply andb_false_iff in E as [?%Nat.leb_gt|?%Nat.leb_gt];
      by replace ((97 <=? Z.of_nat (code c)) && (Z.of_nat (code c) <=? 122))%Z with false by lia.
Qed.

Lemma c_tolower_widen c : c_tolower (Z.of_nat (code c)) = Done (Z.of_nat (code (tolower c))).
Proof.
  pose proof (code_bound c). unfold c_tolower, EOF_, tolower, isupper.
  replace ((-1 <=? Z.of_nat (code c)) && (Z.of_nat (code c) <=? 255))%Z with true by lia.
  destruct ((65 <=? code c)%nat && (code c <=? 90)%nat) eqn:E.
  - apply andb_true_iff in E as [?%Nat.leb_le ?%Nat.leb_le].
    replace ((65 <=? Z.of_nat (code c)) && (Z.of_nat (code c) <=? 90))%Z with true by lia.
    unfold code at 2. rewrite nat_ascii_embedding by lia. f_equal. lia.
  - apply andb_false_iff in E as [?%Nat.leb_gt|?%Nat.leb_gt];
      by replace ((65 <=? Z.of_nat (code c)) && (Z.of_nat (code c) <=? 90))%Z with false by lia.
Qed.

(** On wide text that narrow text can hold, the wide overloads do what the narrow ones
    do; above that, where the characters of most scripts are, [to_upper] and [to_lower] of
    wide strings are undefined, since they call the functions for narrow characters. *)
Theorem wide_agrees :
  (∀ s p, wstarts_with (widen s) (widen p) = starts_with s p) ∧
  (∀ s p, wends_with (widen s) (widen p) = ends_with s p) ∧
  (∀ s c, wstarts_with_char (widen s) (Z.of_nat (code c)) = starts_with_char s c ∧
          wends_with_char (widen s) (Z.of_nat (code c)) = ends_with_char s c) ∧
  (∀ s, wto_upper (widen s) = Done (widen (to_upper s)) ∧ wto_lower (widen s) = Done (widen (to_lower s))) ∧
  (∀ s t c, (255 < c)%Z → wto_upper (widen s ++ c :: t) = Undef ∧ wto_lower (widen s ++ c :: t) = Undef).
Proof.
  split_and!.
  - intros s p. apply wprefixb_widen.
  - intros s p. unfold wends_with, ends_with. assert (∀ t, length (widen t) = length t) as Hl by (intros; apply length_fmap).
    rewrite !Hl. f_equal. 
    assert (drop (length s - length p) (widen s) = widen (drop (length s - length p) s)) as -> by (symmetry; apply fmap_drop).
    apply bool_decide_ext. split; [apply widen_inj|by intros ->].
  - intros s c. split; [by destruct s; [|apply widen_char]|]. unfold wends_with_char, ends_with_char.
    rewrite widen_rev. destruct (List.rev s); [done|apply widen_char].
  - intros s. split; apply transform_widen; [apply c_toupper_widen|apply c_tolower_widen].
  - intros s t c Hc. unfold wto_upper, wto_lower. induction s as [|a s [IH1 IH2]].
    + cbn. unfold c_toupper, c_tolower. by replace (c <=? 255)%Z with false by lia; rewrite andb_false_r.
    + cbn [widen fmap list_fmap app transform]. fold (widen s). rewrite c_toupper_widen, c_tolower_widen, IH1, IH2. done.
Qed.

(** ** Trimming does not throw *)

Lemma find_first_bound chars s i : find_first_not_of chars s = Some i → i < length s.
Proof.
  revert i. induction s as [|c s IH]; intros i; cbn; [done|]. destruct (in_set chars c); [|intros [= <-]; lia].
  destruct (find_first_not_of chars s); [|done]. intros [= <-]. specialize (IH _ eq_refl). lia.
Qed.

Lemma ltrim_checked s chars :
  Some (ltrim s chars) =
    drop_front_checked s (match find_first_not_of chars s with Some i => Nat.min (length s) i | None => length s end).
Proof. unfold ltrim, drop_front, drop_front_checked. destruct (find_first_not_of chars s); by rewrite leb_correct by lia. Qed.

(** ** Conversions *)

(** A view is converted in full if its length fits [int]. *)
Lemma from_utf8_whole path_wide s :
  (Z.of_nat (length s) ≤ INT_MAX)%Z → from_utf8_view path_wide s = match s with [] => [] | _ => path_wide s end.
Proof.
  unfold INT_MAX. intros Hs. unfold from_utf8_view, from_utf8.
  assert (wraps 32 (Z.of_nat (length s)) = Z.of_nat (length s)) as ->.
  { unfold wraps. rewrite Z.mod_small by (change (2 ^ 32)%Z with 4294967296%Z; change (2 ^ (32 - 1))%Z with 2147483648%Z; lia). lia. }
  replace (Z.of_nat (length s) <? 0)%Z with false by lia. destruct s as [|c s]; [done|].
  replace (Z.of_nat (length (c :: s)) =? 0)%Z with false by (symmetry; apply Z.eqb_neq; cbn [length]; lia).
  by rewrite Nat2Z.id, firstn_all.
Qed.

(** [formatN] is [format] on the texts of its arguments, if it has any, and it then always
    compiles unless one is a [char]; without arguments the format is returned as it is, and
    an escaped percent sign stays doubled. *)
Theorem formatN_spec path_narrow {F} (print_float : F → str) fmt args :
  formatN path_narrow print_float fmt [] = Some (Done fmt) ∧
  (args ≠ [] → (∀ c, V_char c ∉ args) →
     ∃ texts, mapM (to_string path_narrow print_float) args = Some texts ∧ length texts = length args ∧
       formatN path_narrow print_float fmt args = Some (format fmt texts)) ∧
  (∀ c, V_char c ∈ args → formatN path_narrow print_float fmt args = None).
Proof.
  split; [done|]. split.
  - intros Hne Hc. assert (is_Some (mapM (to_string path_narrow print_float) args)) as [texts Htexts].
    { apply mapM_is_Some. apply Forall_forall. intros v Hv. destruct v; try by eexists. by destruct (Hc c). }
    exists texts. split; [done|]. split; [by apply length_mapM in Htexts|]. unfold formatN. rewrite Htexts. by destruct args.
  - intros c Hc. assert (mapM (to_string path_narrow print_float) args = None) as Hnone.
    { apply mapM_None. apply Exists_exists. by exists (V_char c). }
    unfold formatN. rewrite Hnone. destruct args; [by apply not_elem_of_nil in Hc|done].
Qed.

Example formatN_percent :
  formatN (λ _, []) (λ _ : (), []) ($"100%%") [] = Some (Done ($"100%%")) ∧
  formatN (λ _, []) (λ _ : (), []) ($"100%% %1") [V_integer 7] = Some (Done ($"100% 7")) ∧
  formatN (λ _, []) (λ _ : (), []) ($"%1") [V_char "c"%char] = None ∧
  formatN (λ _, []) (λ _ : (), []) ($"%1 %2") [V_bool true; V_path ($"a\b")] = Some (Done ($"true a/b")).
Proof. repeat split; vm_compute; reflexivity. Qed.

Lemma formatN_spec_witness :
  ∃ texts, mapM (to_string (λ _, []) (λ _ : (), [])) [V_integer 7; V_bool false] = Some texts ∧
    formatN (λ _, []) (λ _ : (), []) ($"%2 %1") [V_integer 7; V_bool false] = Some (format ($"%2 %1") texts).
Proof.
  destruct (formatN_spec (λ _, []) (λ _ : (), []) ($"%2 %1") [V_integer 7; V_bool false]) as (_ & H & _).
  destruct H as (texts & H1 & _ & H2); [discriminate| |exists texts; exact (conj H1 H2)].
  intros c. rewrite !not_elem_of_cons. split; [discriminate|]. split; [discriminate|]. apply not_elem_of_nil.
Defined.

Lemma wide_agrees_witness : wto_upper (widen ($"abc") ++ [946%Z]) = Undef.
Proof. destruct wide_agrees as (_ & _ & _ & _ & H). apply H. reflexivity. Defined.
