(* ===== verification/ConfigIterator.v ===== *)
(** The iterators of [include/lorelei/Support/ConfigFile.h].

    [Section::iterator], [iterator] and [const_iterator] are the same code over two element
    types: a pointer to a vector and an index of type [size_t], with the arithmetic of
    [size_t].  [RandomAccess] is what a loop needs of them, [RandomAccessLaws] what it may
    rely on; the loops are verified against these.  Since they hold an index and not an
    address, the iterators survive what [addKeyValue] and [getOrCreateSection] do to the
    vectors. *)

From stdpp Require Import gmap.
From S2P Require Import Prelude CppString Assoc FsPath StringExtras ConfigFile.

(** ** Vectors in memory and indexes into them *)

(** The vectors that are alive, by address. *)
Abbreviation store A := (gmap nat (list A)).

(** [size_t] arithmetic, and the conversion of a difference to [ptrdiff_t]. *)
Definition size_add (i n : Z) : Z := wrapu 64 (i + n).
Definition size_sub (i n : Z) : Z := wrapu 64 (i - n).

(** The element at an index of the vector: undefined out of range, and through a null or dangling pointer. *)
Definition element {A} (st : store A) (vector : option nat) (i : Z) : run A :=
  p ← defined vector;
  l ← defined (st !! p);
  defined (l !! Z.to_nat i).

(** What the classes have: dereferencing, stepping, jumping and comparing. *)
Class RandomAccess (I A : Type) : Type := {
  deref : store A → I → run A;
  subscript : store A → I → Z → run A;
  pre_incr : I → I;
  post_incr : I → I * I;
  pre_decr : I → I;
  post_decr : I → I * I;
  add_assign : I → Z → I;
  sub_assign : I → Z → I;
  add_n : I → Z → I;
  n_add : Z → I → I;
  sub_n : I → Z → I;
  diff : I → I → Z;
  it_eq : I → I → bool;
  it_ne : I → I → bool;
  it_lt : I → I → bool;
  it_gt : I → I → bool;
  it_le : I → I → bool;
  it_ge : I → I → bool
}.

(** A post-increment gives the new iterator and, as its value, the old one. *)

(** ** [Section::iterator] *)

Record KeyIterator : Type := MkKeyIterator { m_keyValues_ptr : option nat; m_index : Z }.

Definition KeyIterator_default : KeyIterator := MkKeyIterator None 0.

#[export] Instance KeyIterator_ops : RandomAccess KeyIterator (str * str) := {
  deref st it := element st (m_keyValues_ptr it) (m_index it);
  subscript st it n := element st (m_keyValues_ptr it) (size_add (m_index it) n);
  pre_incr it := MkKeyIterator (m_keyValues_ptr it) (size_add (m_index it) 1);
  post_incr it := (MkKeyIterator (m_keyValues_ptr it) (size_add (m_index it) 1), it);
  pre_decr it := MkKeyIterator (m_keyValues_ptr it) (size_sub (m_index it) 1);
  post_decr it := (MkKeyIterator (m_keyValues_ptr it) (size_sub (m_index it) 1), it);
  add_assign it n := MkKeyIterator (m_keyValues_ptr it) (size_add (m_index it) n);
  sub_assign it n := MkKeyIterator (m_keyValues_ptr it) (size_sub (m_index it) n);
  add_n it n := MkKeyIterator (m_keyValues_ptr it) (size_add (m_index it) n);
  n_add n it := MkKeyIterator (m_keyValues_ptr it) (size_add (m_index it) n);
  sub_n it n := MkKeyIterator (m_keyValues_ptr it) (size_sub (m_index it) n);
  diff it other := wraps 64 (size_sub (m_index it) (m_index other));
  it_eq it other := (m_index it =? m_index other)%Z;
  it_ne it other := negb (m_index it =? m_index other)%Z;
  it_lt it other := (m_index it <? m_index other)%Z;
  it_gt it other := (m_index other <? m_index it)%Z;
  it_le it other := (m_index it <=? m_index other)%Z;
  it_ge it other := (m_index other <=? m_index it)%Z
}.

(** [begin] and [end] of a section whose vector is at [p]. *)
Definition section_begin (p : nat) (s : ConfSection) : KeyIterator := MkKeyIterator (Some p) 0.
Definition section_end (p : nat) (s : ConfSection) : KeyIterator :=
  MkKeyIterator (Some p) (Z.of_nat (length (m_keyValues s))).

(** ** [iterator] and [const_iterator] *)

Record SectionIterator : Type := MkSectionIterator { m_sections_ptr : nat; m_section_index : Z }.
Record ConstSectionIterator : Type := MkConstIterator { m_const_sections : nat; m_const_index : Z }.

#[export] Instance SectionIterator_ops : RandomAccess SectionIterator ConfSection := {
  deref st it := element st (Some (m_sections_ptr it)) (m_section_index it);
  subscript st it n := element st (Some (m_sections_ptr it)) (size_add (m_section_index it) n);
  pre_incr it := MkSectionIterator (m_sections_ptr it) (size_add (m_section_index it) 1);
  post_incr it := (MkSectionIterator (m_sections_ptr it) (size_add (m_section_index it) 1), it);
  pre_decr it := MkSectionIterator (m_sections_ptr it) (size_sub (m_section_index it) 1);
  post_decr it := (MkSectionIterator (m_sections_ptr it) (size_sub (m_section_index it) 1), it);
  add_assign it n := MkSectionIterator (m_sections_ptr it) (size_add (m_section_index it) n);
  sub_assign it n := MkSectionIterator (m_sections_ptr it) (size_sub (m_section_index it) n);
  add_n it n := MkSectionIterator (m_sections_ptr it) (size_add (m_section_index it) n);
  n_add n it := MkSectionIterator (m_sections_ptr it) (size_add (m_section_index it) n);
  sub_n it n := MkSectionIterator (m_sections_ptr it) (size_sub (m_section_index it) n);
  diff it other := wraps 64 (size_sub (m_section_index it) (m_section_index other));
  it_eq it other := (m_section_index it =? m_section_index other)%Z;
  it_ne it other := negb (m_section_index it =? m_section_index other)%Z;
  it_lt it other := (m_section_index it <? m_section_index other)%Z;
  it_gt it other := (m_section_index other <? m_section_index it)%Z;
  it_le it other := (m_section_index it <=? m_section_index other)%Z;
  it_ge it other := (m_section_index other <=? m_section_index it)%Z
}.

#[export] Instance ConstSectionIterator_ops : RandomAccess ConstSectionIterator ConfSection := {
  deref st it := element st (Some (m_const_sections it)) (m_const_index it);
  subscript st it n := element st (Some (m_const_sections it)) (size_add (m_const_index it) n);
  pre_incr it := MkConstIterator (m_const_sections it) (size_add (m_const_index it) 1);
  post_incr it := (MkConstIterator (m_const_sections it) (size_add (m_const_index it) 1), it);
  pre_decr it := MkConstIterator (m_const_sections it) (size_sub (m_const_index it) 1);
  post_decr it := (MkConstIterator (m_const_sections it) (size_sub (m_const_index it) 1), it);
  add_assign it n := MkConstIterator (m_const_sections it) (size_add (m_const_index it) n);
  sub_assign it n := MkConstIterator (m_const_sections it) (size_sub (m_const_index it) n);
  add_n it n := MkConstIterator (m_const_sections it) (size_add (m_const_index it) n);
  n_add n it := MkConstIterator (m_const_sections it) (size_add (m_const_index it) n);
  sub_n it n := MkConstIterator (m_const_sections it) (size_sub (m_const_index it) n);
  diff it other := wraps 64 (size_sub (m_const_index it) (m_const_index other));
  it_eq it other := (m_const_index it =? m_const_index other)%Z;
  it_ne it other := negb (m_const_index it =? m_const_index other)%Z;
  it_lt it other := (m_const_index it <? m_const_index other)%Z;
  it_gt it other := (m_const_index other <? m_const_index it)%Z;
  it_le it other := (m_const_index it <=? m_const_index other)%Z;
  it_ge it other := (m_const_index other <=? m_const_index it)%Z
}.

(** [begin], [end], [cbegin], [cend] and [find] of a configuration whose vector of
    sections is at [p]. *)
Definition config_begin (p : nat) (c : ConfigFile) : SectionIterator := MkSectionIterator p 0.
Definition config_end (p : nat) (c : ConfigFile) : SectionIterator :=
  MkSectionIterator p (Z.of_nat (length (m_sections c))).
Definition config_cbegin (p : nat) (c : ConfigFile) : ConstSectionIterator := MkConstIterator p 0.
Definition config_cend (p : nat) (c : ConfigFile) : ConstSectionIterator :=
  MkConstIterator p (Z.of_nat (length (m_sections c))).
Definition config_find_iterator (p : nat) (c : ConfigFile) (name : str) : SectionIterator :=
  match m_sectionIndex c !! name with
  | Some i => MkSectionIterator p (Z.of_nat i)
  | None => config_end p c
  end.
Definition config_cfind (p : nat) (c : ConfigFile) (name : str) : ConstSectionIterator :=
  match m_sectionIndex c !! name with
  | Some i => MkConstIterator p (Z.of_nat i)
  | None => config_cend p c
  end.

(** ** What a loop may rely on *)

(** [location] is the vector and the position an iterator stands for. *)
Class RandomAccessLaws (I A : Type) `{RandomAccess I A} : Type := {
  location : I → option nat * Z;
  deref_at st it : deref st it = element st (location it).1 (location it).2;
  subscript_at st it n : subscript st it n = element st (location it).1 (size_add (location it).2 n);
  pre_incr_at it : location (pre_incr it) = ((location it).1, size_add (location it).2 1);
  post_incr_at it : post_incr it = (pre_incr it, it);
  pre_decr_at it : location (pre_decr it) = ((location it).1, size_sub (location it).2 1);
  post_decr_at it : post_decr it = (pre_decr it, it);
  add_assign_at it n : location (add_assign it n) = ((location it).1, size_add (location it).2 n);
  sub_assign_at it n : location (sub_assign it n) = ((location it).1, size_sub (location it).2 n);
  add_n_at it n : add_n it n = add_assign it n;
  n_add_at it n : n_add n it = add_assign it n;
  sub_n_at it n : sub_n it n = sub_assign it n;
  diff_at a b : diff a b = wraps 64 (size_sub (location a).2 (location b).2);
  it_eq_at a b : it_eq a b = bool_decide ((location a).2 = (location b).2);
  it_ne_at a b : it_ne a b = negb (it_eq a b);
  it_lt_at a b : it_lt a b = bool_decide ((location a).2 < (location b).2)%Z;
  it_gt_at a b : it_gt a b = it_lt b a;
  it_le_at a b : it_le a b = negb (it_lt b a);
  it_ge_at a b : it_ge a b = negb (it_lt a b)
}.

Lemma eqb_decide a b : (a =? b)%Z = bool_decide (a = b).
Proof. case_bool_decide; [by apply Z.eqb_eq|by apply Z.eqb_neq]. Qed.
Lemma ltb_decide a b : (a <? b)%Z = bool_decide (a < b)%Z.
Proof. case_bool_decide; [by apply Z.ltb_lt|apply Z.ltb_ge; lia]. Qed.

Ltac iterator_laws :=
  intros; simpl; rewrite ?eqb_decide, ?Z.leb_antisym, ?negb_involutive; auto using ltb_decide.

#[export] Instance KeyIterator_laws : RandomAccessLaws KeyIterator (str * str).
Proof. refine {| location it := (m_keyValues_ptr it, m_index it) |}; iterator_laws. Defined.
#[export] Instance SectionIterator_laws : RandomAccessLaws SectionIterator ConfSection.
Proof. refine {| location it := (Some (m_sections_ptr it), m_section_index it) |}; iterator_laws. Defined.
#[export] Instance ConstSectionIterator_laws : RandomAccessLaws ConstSectionIterator ConfSection.
Proof. refine {| location it := (Some (m_const_sections it), m_const_index it) |}; iterator_laws. Defined.

(** ** Arithmetic of [size_t] *)

Lemma wrapu_shift w z : (0 ≤ w)%Z → ∃ k, wrapu w z = (z + k * 2 ^ w)%Z.
Proof.
  intros Hw. exists (- (z / 2 ^ w))%Z. unfold wrapu.
  rewrite (Z.div_mod z (2 ^ w)) at 2; [lia|]. apply Z.pow_nonzero; lia.
Qed.

Lemma wrapu_mod w z k : (0 ≤ w)%Z → wrapu w (z + k * 2 ^ w) = wrapu w z.
Proof. intros Hw. unfold wrapu. apply Z.mod_add, Z.pow_nonzero; lia. Qed.
Lemma wraps_mod w z k : (0 < w)%Z → wraps w (z + k * 2 ^ w) = wraps w z.
Proof.
  intros Hw. unfold wraps. f_equal. rewrite <- Z.add_assoc, (Z.add_comm (k * _)), Z.add_assoc.
  apply Z.mod_add, Z.pow_nonzero; lia.
Qed.
Lemma wraps_shift w z : (0 < w)%Z → ∃ k, wraps w z = (z + k * 2 ^ w)%Z.
Proof.
  intros Hw. destruct (wrapu_shift w (z + 2 ^ (w - 1))) as [k Hk]; [lia|]. exists k.
  unfold wraps. unfold wrapu in Hk. rewrite Hk. lia.
Qed.

Lemma size_add_sub i n : (0 ≤ i < 2 ^ 64)%Z → size_sub (size_add i n) n = i.
Proof.
  intros Hi. unfold size_add, size_sub. destruct (wrapu_shift 64 (i + n)) as [k ->]; [lia|].
  replace (i + n + k * 2 ^ 64 - n)%Z with (i + k * 2 ^ 64)%Z by lia.
  rewrite wrapu_mod by lia. by apply wrapu_id.
Qed.

Lemma size_add_diff i j : (0 ≤ j < 2 ^ 64)%Z → size_add i (wraps 64 (size_sub j i)) = j.
Proof.
  intros Hj. unfold size_add, size_sub. destruct (wrapu_shift 64 (j - i)) as [k ->]; [lia|].
  rewrite wraps_mod by lia. destruct (wraps_shift 64 (j - i)) as [k' ->]; [lia|].
  replace (i + (j - i + k' * 2 ^ 64))%Z with (j + k' * 2 ^ 64)%Z by lia.
  rewrite wrapu_mod by lia. by apply wrapu_id.
Qed.

Lemma diff_size_add i n :
  (- 2 ^ 63 ≤ n < 2 ^ 63)%Z → wraps 64 (size_sub (size_add i n) i) = n.
Proof.
  intros Hn. unfold size_add, size_sub. destruct (wrapu_shift 64 (i + n)) as [k ->]; [lia|].
  replace (i + n + k * 2 ^ 64 - i)%Z with (n + k * 2 ^ 64)%Z by lia. rewrite wrapu_mod by lia.
  destruct (wrapu_shift 64 n) as [k' ->]; [lia|]. rewrite wraps_mod by lia. by apply wraps_id.
Qed.

Lemma diff_order i j :
  (0 ≤ i < 2 ^ 63)%Z → (0 ≤ j < 2 ^ 63)%Z → wraps 64 (size_sub j i) = (j - i)%Z.
Proof.
  intros Hi Hj. unfold size_sub. destruct (wrapu_shift 64 (j - i)) as [k ->]; [lia|].
  rewrite wraps_mod by lia. apply wraps_id; lia.
Qed.

(** ** The laws of random access *)

Section random_access.
Context {I A : Type} `{Hops : !RandomAccess I A} `{Hlaws : !RandomAccessLaws I A}.
Implicit Types (it a b : I) (l : list A) (st : store A).

Definition vector it : option nat := (location it).1.
Definition position it : Z := (location it).2.
Definition in_size it : Prop := (0 ≤ position it < 2 ^ 64)%Z.
Definition same_place a b : Prop := location a = location b.

(** [for (it = first; it != last; ++it)] with a body that reads the
    element. *)
Fixpoint walk (fuel : nat) (st : store A) (it last : I) : run (list A) :=
  match fuel with
  | 0 => NoFuel
  | S fuel =>
      if it_ne it last then x ← deref st it; xs ← walk fuel st (pre_incr it) last; Done (x :: xs)
      else Done []
  end.

(** [while (it != first) { --it; ... }]. *)
Fixpoint walk_back (fuel : nat) (st : store A) (it first : I) : run (list A) :=
  match fuel with
  | 0 => NoFuel
  | S fuel =>
      if it_ne it first then
        let it := pre_decr it in
        x ← deref st it; xs ← walk_back fuel st it first; Done (x :: xs)
      else Done []
  end.

Lemma walk_S fuel st it last :
  walk (S fuel) st it last =
    if it_ne it last then x ← deref st it; xs ← walk fuel st (pre_incr it) last; Done (x :: xs) else Done [].
Proof using Type*. done. Qed.
Lemma walk_back_S fuel st it first :
  walk_back (S fuel) st it first =
    if it_ne it first then
      x ← deref st (pre_decr it); xs ← walk_back fuel st (pre_decr it) first; Done (x :: xs)
    else Done [].
Proof using Type*. done. Qed.

Lemma element_at st p l i : st !! p = Some l → element st (Some p) (Z.of_nat i) = defined (l !! i).
Proof. intros Hp. unfold element. simpl. rewrite Hp. simpl. by rewrite Nat2Z.id. Qed.

Lemma walk_from st p l it last i :
  st !! p = Some l → (Z.of_nat (length l) < 2 ^ 64)%Z → i ≤ length l →
  location it = (Some p, Z.of_nat i) → location last = (Some p, Z.of_nat (length l)) →
  walk (S (length l - i)) st it last = Done (drop i l).
Proof using Type*.
  intros Hp Hlen. remember (length l - i) as n eqn:En. revert it i En.
  induction n as [|n IH]; intros it i En Hi Hit Hlast;
    rewrite walk_S, it_ne_at, it_eq_at, Hit, Hlast; cbn [snd].
  - rewrite bool_decide_true by lia. simpl. by rewrite drop_ge by lia.
  - rewrite bool_decide_false by lia. cbn [negb]. rewrite deref_at, Hit. cbn [fst snd].
    rewrite (element_at st p l i Hp). destruct (lookup_lt_is_Some_2 l i) as [x Hx]; [lia|].
    rewrite Hx. cbn [defined mbind run_bind].
    rewrite (IH (pre_incr it) (S i)); [|lia|lia| |done].
    + cbn [mbind run_bind]. by rewrite (drop_S l x i Hx).
    + rewrite pre_incr_at, Hit. cbn [fst snd]. unfold size_add. rewrite wrapu_id by lia. repeat f_equal. lia.
Qed.

Lemma walk_all st p l first last :
  st !! p = Some l → (Z.of_nat (length l) < 2 ^ 64)%Z →
  location first = (Some p, 0%Z) → location last = (Some p, Z.of_nat (length l)) →
  walk (S (length l)) st first last = Done l.
Proof using Type*.
  intros Hp Hlen Hf Hl. pose proof (walk_from st p l first last 0 Hp Hlen ltac:(lia) Hf Hl) as Hw.
  by rewrite Nat.sub_0_r, drop_0 in Hw.
Qed.

Lemma walk_back_from st p l it first i :
  st !! p = Some l → (Z.of_nat (length l) < 2 ^ 64)%Z → i ≤ length l →
  location it = (Some p, Z.of_nat i) → location first = (Some p, 0%Z) →
  walk_back (S i) st it first = Done (reverse (take i l)).
Proof using Type*.
  intros Hp Hlen. revert it. induction i as [|i IH]; intros it Hi Hit Hf;
    rewrite walk_back_S, it_ne_at, it_eq_at, Hit, Hf; cbn [snd].
  - by rewrite bool_decide_true by lia.
  - rewrite bool_decide_false by lia. cbn [negb].
    assert (location (pre_decr it) = (Some p, Z.of_nat i)) as Hd.
    { rewrite pre_decr_at, Hit. cbn [fst snd]. unfold size_sub. rewrite wrapu_id by lia. repeat f_equal. lia. }
    rewrite deref_at, Hd. cbn [fst snd]. rewrite (element_at st p l i Hp).
    destruct (lookup_lt_is_Some_2 l i) as [x Hx]; [lia|]. rewrite Hx. cbn [defined mbind run_bind].
    rewrite (IH (pre_decr it)); [|lia|done|done]. cbn [mbind run_bind].
    by rewrite (take_S_r l i x Hx), reverse_snoc.
Qed.

(** The operations agree with each other. *)
Lemma step_back it : in_size it → same_place (pre_decr (pre_incr it)) it.
Proof using Type*.
  unfold in_size, position, same_place. intros Hi. rewrite pre_decr_at, pre_incr_at. cbn [fst snd].
  rewrite size_add_sub by done. by destruct (location it).
Qed.

Lemma jump_back it n : in_size it → same_place (sub_n (add_n it n) n) it.
Proof using Type*.
  unfold in_size, position, same_place. intros Hi. rewrite sub_n_at, add_n_at, sub_assign_at, add_assign_at. cbn [fst snd].
  rewrite size_add_sub by done. by destruct (location it).
Qed.

Lemma jump_diff it n : (- 2 ^ 63 ≤ n < 2 ^ 63)%Z → diff (add_n it n) it = n.
Proof using Type*. intros Hn. rewrite diff_at, add_n_at, add_assign_at. by apply diff_size_add. Qed.

Lemma jump_to a b : in_size b → vector a = vector b → same_place (add_n a (diff b a)) b.
Proof using Type*.
  unfold in_size, position, vector, same_place. intros Hb Hv. rewrite add_n_at, add_assign_at, diff_at, Hv.
  rewrite size_add_diff by done. by destruct (location b).
Qed.

Lemma subscript_jump st it n : subscript st it n = deref st (add_n it n).
Proof using Type*. by rewrite subscript_at, add_n_at, deref_at, add_assign_at. Qed.

(** Where the positions are those of a vector, the order is that of the positions, and
    the difference tells it. *)
Lemma order_diff a b :
  (0 ≤ position a < 2 ^ 63)%Z → (0 ≤ position b < 2 ^ 63)%Z →
  it_lt a b = bool_decide (0 < diff b a)%Z ∧ it_eq a b = bool_decide (diff b a = 0)%Z ∧
  it_gt a b = it_lt b a ∧ it_le a b = it_lt a b || it_eq a b ∧ it_ge a b = it_le b a ∧ it_ne a b = negb (it_eq a b).
Proof using Type*.
  unfold position. intros Ha Hb. rewrite diff_at, diff_order by done.
  rewrite it_gt_at, it_ge_at, !it_le_at, it_ne_at, !it_lt_at, it_eq_at.
  split_and!; try done; [apply bool_decide_ext; lia..|].
  repeat case_bool_decide; simpl; try done; lia.
Qed.
End random_access.

(** ** Sections and configurations *)

(** Memory in which the vector of items of a section, or that of a configuration's
    sections, is at an address. *)
Definition items_at (st : store (str * str)) (p : nat) (s : ConfSection) : Prop :=
  st !! p = Some (m_keyValues s) ∧ (Z.of_nat (length (m_keyValues s)) < 2 ^ 63)%Z.
Definition sections_at (st : store ConfSection) (p : nat) (c : ConfigFile) : Prop :=
  st !! p = Some (m_sections c) ∧ (Z.of_nat (length (m_sections c)) < 2 ^ 63)%Z.

(** The loop over a section's items, and the loop over the sections with the loop over
    the items of each in its body; the items of the [i]-th section are at [addr i]. *)
Definition list_items (st : store (str * str)) (p : nat) (s : ConfSection) : run (list (str * str)) :=
  walk (S (length (m_keyValues s))) st (section_begin p s) (section_end p s).

Fixpoint list_each (st : store (str * str)) (addr : nat → nat) (i : nat) (ss : list ConfSection) : run items :=
  match ss with
  | [] => Done []
  | s :: ss =>
      kvs ← list_items st (addr i) s;
      rest ← list_each st addr (S i) ss;
      Done ((m_name s, kvs) :: rest)
  end.

Definition list_config (secs : store ConfSection) (st : store (str * str)) (p : nat) (addr : nat → nat)
    (c : ConfigFile) : run items :=
  ss ← walk (S (length (m_sections c))) secs (config_begin p c) (config_end p c);
  list_each st addr 0 ss.
Definition list_const_config (secs : store ConfSection) (st : store (str * str)) (p : nat) (addr : nat → nat)
    (c : ConfigFile) : run items :=
  ss ← walk (S (length (m_sections c))) secs (config_cbegin p c) (config_cend p c);
  list_each st addr 0 ss.

Lemma list_items_all st p s : items_at st p s → list_items st p s = Done (m_keyValues s).
Proof. intros [Hp Hl]. unfold list_items. apply (walk_all st p); [done|lia|done..]. Qed.

Lemma list_each_all st addr ss : ∀ i,
  (∀ j s, ss !! j = Some s → items_at st (addr (i + j)) s) →
  list_each st addr i ss = Done ((λ s, (m_name s, m_keyValues s)) <$> ss).
Proof.
  induction ss as [|s ss IH]; intros i Hat; cbn [list_each]; [done|].
  rewrite list_items_all by (pose proof (Hat 0 s eq_refl) as H0; by rewrite Nat.add_0_r in H0).
  cbn [mbind run_bind]. rewrite IH; [done|]. intros j s' Hj.
  replace (S i + j) with (i + S j) by lia. by apply Hat.
Qed.

(** The loops see the sections and the items in the order they have in the vectors. *)
Lemma list_config_all secs st p addr c :
  sections_at secs p c → (∀ i s, m_sections c !! i = Some s → items_at st (addr i) s) →
  list_config secs st p addr c = Done (sections_view c) ∧
  list_const_config secs st p addr c = Done (sections_view c).
Proof.
  intros [Hp Hl] Hat. unfold list_config, list_const_config.
  rewrite !(walk_all secs p (m_sections c)) by (done || lia). cbn [mbind run_bind].
  by rewrite list_each_all.
Qed.

(** Enumerating a configuration that was loaded from the text of a document, by the
    mutable or the constant iterators and by those of each section, terminates and yields
    the document: the global section and then every section in the order of the text,
    each with its items in their order. *)
Theorem loaded_enumerates fs_exists fs_open fuel f doc :
  doc_ok doc → fs_open f = Some (render_text (render_lines doc)) →
  ∃ c, load fs_exists fs_open (S fuel) ConfigFile_new f = Done (c, result_ok) ∧
    ∀ secs st p addr,
      sections_at secs p c → (∀ i s, m_sections c !! i = Some s → items_at st (addr i) s) →
      list_config secs st p addr c = Done ((GlobalSectionName, []) :: doc) ∧
      list_const_config secs st p addr c = Done ((GlobalSectionName, []) :: doc).
Proof.
  intros Hdoc Hf. destruct (load_document fs_exists fs_open fuel f doc Hdoc Hf) as (c & Hc & _ & Hv).
  exists c. split; [done|]. intros secs st p addr Hs Ha. rewrite <- Hv. by apply list_config_all.
Qed.

(** ** Iterators over a changing vector *)

(** An iterator to the [i]-th item of a section. *)
Definition item_iterator (p i : nat) : KeyIterator := MkKeyIterator (Some p) (Z.of_nat i).
Definition section_iterator (p i : nat) : SectionIterator := MkSectionIterator p (Z.of_nat i).

Lemma item_deref st p s i :
  items_at st p s → deref st (item_iterator p i) = defined (m_keyValues s !! i).
Proof. intros [Hp _]. by apply element_at. Qed.

Lemma section_deref secs p c i :
  sections_at secs p c → deref secs (section_iterator p i) = defined (m_sections c !! i).
Proof. intros [Hp _]. by apply element_at. Qed.

Lemma assoc_set_lookup {B} k (f : option B → B) l i a :
  NoDup l.*1 → l !! i = Some a →
  assoc_set k f l !! i = Some (a.1, if decide (a.1 = k) then f (Some a.2) else a.2).
Proof.
  revert i. induction l as [|[k' b] l IH]; intros i Hnd Ha; [done|]. simpl in Hnd.
  apply NoDup_cons in Hnd as [Hk Hnd]. cbn [assoc_set]. case_bool_decide as Hkk; destruct i as [|i]; simpl in Ha |- *.
  - injection Ha as <-. simpl. by rewrite decide_True.
  - destruct a as [x y]. simpl. rewrite decide_False; [done|]. intros ->. subst. apply Hk, list_elem_of_fmap.
    exists (k', y). split; [done|]. by eapply list_elem_of_lookup_2.
  - injection Ha as <-. simpl. rewrite decide_False by congruence. done.
  - by apply IH.
Qed.

(** An iterator survives a change of its section: after [addKeyValue], which may
    reallocate the vector, it still stands for the item of the same key, with the new
    value if that is the key that was set; and the old [end()] is still the end when the
    key was there, and otherwise has become the iterator to the new item. *)
Theorem item_iterator_survives s key value st st' p i kv :
  section_wf s → m_keyValues s !! i = Some kv →
  ∃ s', addKeyValue s key value = Done s' ∧
    (items_at st p s → deref st (item_iterator p i) = Done kv) ∧
    (items_at st' p s' →
       deref st' (item_iterator p i) = Done (kv.1, if decide (kv.1 = key) then value else kv.2) ∧
       if section_contains s key then section_end p s' = section_end p s
       else deref st' (section_end p s) = Done (key, value)).
Proof.
  intros Hwf Hi. destruct (addKeyValue_spec s key value Hwf) as (s' & Hadd & _ & _ & Hkv).
  pose proof (index_wf_NoDup _ _ Hwf) as Hnd. exists s'. split_and!; [done| |].
  { intros Hst. by rewrite (item_deref _ _ _ _ Hst), Hi. }
  intros Hst. split.
  - by rewrite (item_deref _ _ _ _ Hst), Hkv, (assoc_set_lookup _ _ _ _ _ Hnd Hi).
  - rewrite section_contains_spec by done. unfold section_keys. case_bool_decide as Hk.
    + unfold section_end. do 2 f_equal. rewrite Hkv, <- (length_fmap fst (assoc_set _ _ _)), assoc_set_keys.
      by rewrite decide_True, length_fmap.
    + change (section_end p s) with (item_iterator p (length (m_keyValues s))).
      rewrite (item_deref _ _ _ _ Hst), Hkv, assoc_set_new by done.
      by rewrite lookup_app_r, Nat.sub_diag by lia.
Qed.

Lemma find_section c name j :
  config_wf c → m_sectionIndex c !! name = Some j → ∃ s, m_sections c !! j = Some s ∧ m_name s = name.
Proof.
  intros Hwf Hj%(wf_index _ Hwf). rewrite list_lookup_fmap in Hj.
  destruct (m_sections c !! j) as [s|]; [|done]. exists s. split; [done|]. by injection Hj.
Qed.

(** What [getOrCreateSection] leaves in place, and where the section asked for is. *)
Lemma getOrCreateSection_keeps c other c' i :
  getOrCreateSection c other = (c', i) →
  (∀ name j, m_sectionIndex c !! name = Some j → m_sectionIndex c' !! name = Some j) ∧
  (∀ j s, m_sections c !! j = Some s → m_sections c' !! j = Some s) ∧
  (config_wf c → ∃ s, m_sectionIndex c' !! other = Some i ∧ m_sections c' !! i = Some s ∧ m_name s = other) ∧
  (m_sectionIndex c !! other = None → i = length (m_sections c)).
Proof.
  unfold getOrCreateSection. destruct (m_sectionIndex c !! other) as [j|] eqn:Ej; intros [= <- <-].
  - split_and!; try done. intros Hwf. destruct (find_section _ _ _ Hwf Ej) as (s & Hs & Hn). by exists s.
  - cbn [m_sectionIndex m_sections]. rewrite length_app, Nat.add_sub. split_and!.
    + intros name j Hj. rewrite lookup_insert_ne; [done|]. congruence.
    + intros j s Hj. by apply lookup_app_l_Some.
    + intros _. exists (new_section other). rewrite lookup_insert_eq, lookup_app_r, Nat.sub_diag by lia. done.
    + done.
Qed.

(** The same for the sections of a configuration: [find] gives an iterator to the
    section of that name, or [end()]; it survives [getOrCreateSection], after which the
    section asked for is found, where the old [end()] was if it is new. *)
Theorem section_iterator_survives c name other secs secs' p c' i :
  config_wf c → getOrCreateSection c other = (c', i) → sections_at secs p c → sections_at secs' p c' →
  (if config_contains c name then
     ∃ s, deref secs (config_find_iterator p c name) = Done s ∧ m_name s = name ∧
          deref secs' (config_find_iterator p c name) = Done s ∧
          config_find_iterator p c' name = config_find_iterator p c name
   else config_find_iterator p c name = config_end p c) ∧
  (∃ s, config_find_iterator p c' other = section_iterator p i ∧
        deref secs' (section_iterator p i) = Done s ∧ m_name s = other) ∧
  (config_contains c other = false → section_iterator p i = config_end p c).
Proof.
  intros Hwf Hg Hs Hs'. pose proof (getOrCreateSection_keeps _ _ _ _ Hg) as (Hidx & Hsec & Hi & Hnew).
  split_and!.
  - unfold config_contains. case_bool_decide as Hc; [|unfold config_find_iterator].
    + destruct Hc as [j Hj]. destruct (find_section _ _ _ Hwf Hj) as (s & Hsj & Hname).
      unfold config_find_iterator. rewrite Hj, (Hidx _ _ Hj). exists s.
      change (MkSectionIterator p (Z.of_nat j)) with (section_iterator p j).
      rewrite (section_deref _ _ _ _ Hs), (section_deref _ _ _ _ Hs'), Hsj, (Hsec _ _ Hsj). done.
    + rewrite <- eq_None_not_Some in Hc. by rewrite Hc.
  - destruct (Hi Hwf) as (s & Hio & Hsi & Hname). exists s. unfold config_find_iterator. rewrite Hio.
    by rewrite (section_deref _ _ _ _ Hs'), Hsi.
  - intros Hc%bool_decide_eq_false. rewrite Hnew; [done|]. by apply eq_None_not_Some.
Qed.

(** For each of the three classes the operations agree, at the width of [size_t]: a
    step back undoes a step, a jump back a jump, a jump by the difference of two iterators
    of a vector leads from the one to the other, the difference of a jump is its distance,
    [it[n]] is the element at [it + n], the sum does not depend on the order of its
    operands, post-increment and post-decrement return the old iterator, and the
    comparisons are those of the differences while the positions are those of a vector. *)
Theorem random_access_laws {I A : Type} `{!RandomAccess I A} `{!RandomAccessLaws I A} (a b : I) (n : Z) :
  (0 ≤ position a < 2 ^ 63)%Z → (0 ≤ position b < 2 ^ 63)%Z → (- 2 ^ 63 ≤ n < 2 ^ 63)%Z →
  same_place (pre_decr (pre_incr a)) a ∧ same_place (sub_n (add_n a n) n) a ∧
  (vector a = vector b → same_place (add_n a (diff b a)) b) ∧ diff (add_n a n) a = n ∧
  (∀ st, subscript st a n = deref st (add_n a n)) ∧ n_add n a = add_n a n ∧
  post_incr a = (pre_incr a, a) ∧ post_decr a = (pre_decr a, a) ∧
  it_lt a b = bool_decide (0 < diff b a)%Z ∧ it_eq a b = bool_decide (diff b a = 0)%Z ∧
  it_le a b = it_lt a b || it_eq a b.
Proof.
  intros Ha Hb Hn. destruct (order_diff a b Ha Hb) as (Hlt & Heq & _ & Hle & _).
  split_and!; try done.
  - apply step_back. unfold in_size. lia.
  - apply jump_back. unfold in_size. lia.
  - apply jump_to. unfold in_size. lia.
  - by apply jump_diff.
  - intros st. apply subscript_jump.
  - by rewrite n_add_at, add_n_at.
  - apply post_incr_at.
  - apply post_decr_at.
Qed.

(** ** Examples *)

(** Items at address 1 and two sections at address 7, whose items are at 0 and 1. *)
Definition example_section : ConfSection :=
  MkSection ($"a") [($"x", $"1"); ($"y", $"2")] {[$"y" := 1; $"x" := 0]}.
Definition example_items : store (str * str) := {[1 := m_keyValues example_section]}.

Lemma random_access_laws_witness :
  let a := item_iterator 1 0 in let b := item_iterator 1 2 in
  diff b a = 2%Z ∧ it_lt a b = true ∧ same_place (add_n a (diff b a)) b ∧
  subscript example_items a 1 = Done ($"y", $"2").
Proof.
  destruct (random_access_laws (item_iterator 1 0) (item_iterator 1 2) 1)
    as (_ & _ & Hj & _ & Hs & _ & _ & _ & Hlt & _); [vm_compute; by split..|].
  split; [reflexivity|]. split; [rewrite Hlt; reflexivity|]. split; [apply Hj; reflexivity|].
  rewrite Hs. reflexivity.
Defined.

Lemma item_iterator_survives_witness :
  ∃ s', addKeyValue example_section ($"z") ($"3") = Done s' ∧
    deref {[2 := m_keyValues s']} (item_iterator 2 1) = Done ($"y", $"2") ∧
    deref {[2 := m_keyValues s']} (section_end 2 example_section) = Done ($"z", $"3").
Proof.
  assert (section_wf example_section) as Hwf.
  { unfold section_wf, example_section. simpl. apply (index_wf_snoc {[$"x" := 0]} [$"x"] ($"y")).
    - apply (index_wf_snoc ∅ [] ($"x")); [apply index_wf_nil|apply not_elem_of_nil].
    - apply (bool_decide_unpack _). vm_compute. exact I. }
  destruct (addKeyValue example_section ($"z") ($"3")) as [s'| |] eqn:E; [|discriminate E..].
  destruct (item_iterator_survives example_section ($"z") ($"3") ∅ {[2 := m_keyValues s']} 2 1 ($"y", $"2") Hwf eq_refl)
    as (s & Hs & _ & Hd). rewrite E in Hs. injection Hs as <-.
  exists s'. split; [reflexivity|]. injection E as <-.
  destruct Hd as [Hd He]; [split; [reflexivity|vm_compute; reflexivity]|]. split; [exact Hd|exact He].
Defined.

Lemma section_iterator_survives_witness :
  let '(c', i) := getOrCreateSection ConfigFile_new ($"new") in
  deref {[7 := m_sections c']} (config_find_iterator 7 ConfigFile_new GlobalSectionName) =
    Done (new_section GlobalSectionName) ∧
  section_iterator 7 i = config_end 7 ConfigFile_new.
Proof.
  destruct (getOrCreateSection ConfigFile_new ($"new")) as [c' i] eqn:E.
  destruct (section_iterator_survives ConfigFile_new GlobalSectionName ($"new")
    {[7 := m_sections ConfigFile_new]} {[7 := m_sections c']} 7 c' i ConfigFile_new_wf E) as (Hf & _ & Hn).
  - split; [reflexivity|vm_compute; reflexivity].
  - injection E as <- <-. split; [reflexivity|vm_compute; reflexivity].
  - split; [|apply Hn; reflexivity]. destruct Hf as (s & Hs & _ & Hs' & _). rewrite Hs'.
    injection Hs as <-. reflexivity.
Defined.

Lemma loaded_enumerates_witness :
  ∃ c, load (λ _, false) (λ _, Some (render_text (render_lines example_doc))) 1 ConfigFile_new ($"f") =
      Done (c, result_ok) ∧
    list_config {[7 := m_sections c]} (list_to_map (imap (λ i s, (i, m_keyValues s)) (m_sections c))) 7 id c =
      Done ((GlobalSectionName, []) :: example_doc).
Proof.
  destruct (loaded_enumerates (λ _, false) (λ _, Some (render_text (render_lines example_doc))) 0 ($"f") example_doc)
    as (c & Hc & Hall).
  - split_and!; apply (bool_decide_unpack _); vm_compute; exact I.
  - reflexivity.
  - exists c. split; [exact Hc|]. vm_compute in Hc. injection Hc as <-. 
    refine (proj1 (Hall _ _ 7 id _ _)).
    + split; [reflexivity|vm_compute; reflexivity].
    + intros i s Hi. destruct i as [|[|[|i]]]; [injection Hi as <-; split; [reflexivity|vm_compute; reflexivity]..|discriminate Hi].
Defined.
