(* ===== verification/Json.v ===== *)
(** JSON values as the vendored [json11::Json] class presents them to its users
    ([src/3rdparty/json11/json11.hpp]): the six types, the checked accessors and
    their defaults.  An object is a [std::map]: an association list with one
    entry per key.  Parsing is a parameter of the components that read JSON. *)

From S2P Require Import Prelude CppString Assoc.

#[local] Set Warnings "-register-all".

Inductive Json : Type :=
  | JNull
  | JNumber (n : Z)
  | JBool (b : bool)
  | JString (s : str)
  | JArray (items : list Json)
  | JObject (fields : list (str * Json)).

Definition is_string (j : Json) : bool := match j with JString _ => true | _ => false end.
Definition is_array (j : Json) : bool := match j with JArray _ => true | _ => false end.
Definition is_object (j : Json) : bool := match j with JObject _ => true | _ => false end.

Definition string_value (j : Json) : str := match j with JString s => s | _ => [] end.
Definition int_value (j : Json) : Z := match j with JNumber n => n | _ => 0%Z end.
Definition array_items (j : Json) : list Json := match j with JArray l => l | _ => [] end.
Definition object_items (j : Json) : list (str * Json) :=
  match j with JObject l => l | _ => [] end.

(** [j[key]]: null when absent or not an object. *)
Definition json_field (j : Json) (key : str) : Json :=
  default JNull (assoc_get key (object_items j)).

Lemma json_field_cons_eq k v l : json_field (JObject ((k, v) :: l)) k = v.
Proof. unfold json_field. simpl. by rewrite bool_decide_true. Qed.

Lemma json_field_cons_ne k k' v l :
  k' ≠ k → json_field (JObject ((k, v) :: l)) k' = json_field (JObject l) k'.
Proof. intros. unfold json_field. simpl. by rewrite bool_decide_false. Qed.
