(* ===== verification/ThunkDatabase.v ===== *)
(** The in-memory thunk database
    ([src/libs/DLCall/ThunkDatabase.cpp], [include/lorelei/DLCall/ThunkDatabase.h]).

    Entries are plain data whose pointers lead into two arenas.  A string
    pointer is the index of its string in [m_stringArena], a list pointer the
    index of its vector in [m_listArena]: both are deques, which never move an
    element.  What a reader of a pointer sees is the bytes up to the first NUL.
    Opening a file and parsing JSON are parameters. *)

From S2P Require Import Prelude CppString Assoc Json FsPath StringExtras.

(** ** Reading JSON fields *)

Definition jsonString (obj : list (str * Json)) (key : str) : option str :=
  match assoc_get key obj with
  | Some (JString []) => None
  | Some (JString s) => Some s
  | _ => None
  end.

Definition jsonStringArray (obj : list (str * Json)) (key : str) : list str :=
  match assoc_get key obj with
  | Some (JArray items) =>
      omap (λ item, match item with
                    | JString [] => None
                    | JString s => Some s
                    | _ => None
                    end) items
  | _ => []
  end.

(** ** Entries and arenas *)

Record CForwardThunkInfo : Type := MkForward {
  f_name : nat;
  f_alias : nat;
  f_aliasCount : nat;
  f_guestThunk : nat;
  f_hostThunk : nat;
  f_hostLibrary : nat;
}.

Record CReversedThunkInfo : Type := MkReversed {
  r_name : nat;
  r_alias : nat;
  r_aliasCount : nat;
  r_fileName : nat;
  r_thunks : nat;
  r_thunksCount : nat;
}.

Record Arenas : Type := MkArenas {
  m_stringArena : list str;
  m_listArena : list (list nat);
}.

Definition intern (a : Arenas) (s : str) : Arenas * nat :=
  (MkArenas (m_stringArena a ++ [s]) (m_listArena a), length (m_stringArena a)).

(** The loop that interns the strings of a list in order. *)
Fixpoint intern_all (a : Arenas) (strs : list str) (list_ : list nat) : Arenas * list nat :=
  match strs with
  | [] => (a, list_)
  | s :: strs' => let '(a, p) := intern a s in intern_all a strs' (list_ ++ [p])
  end.

(** The list is emplaced first and filled afterwards. *)
Definition intern_list (a : Arenas) (strs : list str) : Arenas * (nat * nat) :=
  let id := length (m_listArena a) in
  let a := MkArenas (m_stringArena a) (m_listArena a ++ [[]]) in
  let '(a, ptrs) := intern_all a strs [] in
  (MkArenas (m_stringArena a) (<[id := ptrs]> (m_listArena a)), (id, length ptrs)).

Record ThunkDatabase : Type := MkDatabase {
  m_arenas : Arenas;
  m_forwardThunks : list CForwardThunkInfo;
  m_reversedThunks : list CReversedThunkInfo;
  m_forwardThunkMap : gmap str nat;
  m_reversedThunkMap : gmap str nat;
  m_forwardIndex : gmap str nat;
}.

Definition db_empty : ThunkDatabase := MkDatabase (MkArenas [] []) [] [] ∅ ∅ ∅.

(** ** Building entries *)

(** The strings of one forward entry, before they are interned. *)
Record ForwardData : Type := MkForwardData {
  fd_alias : list str;
  fd_guestThunk : str;
  fd_hostThunk : str;
  fd_hostLibrary : str;
}.

Record ReversedData : Type := MkReversedData {
  rd_alias : list str;
  rd_fileName : str;
  rd_thunks : list str;
}.

Definition intern_forward (a : Arenas) (name : str) (d : ForwardData)
    : Arenas * CForwardThunkInfo :=
  let '(a, name) := intern a name in
  let '(a, (alias, aliasCount)) := intern_list a (fd_alias d) in
  let '(a, guestThunk) := intern a (fd_guestThunk d) in
  let '(a, hostThunk) := intern a (fd_hostThunk d) in
  let '(a, hostLibrary) := intern a (fd_hostLibrary d) in
  (a, MkForward name alias aliasCount guestThunk hostThunk hostLibrary).

Definition upsertForward (db : ThunkDatabase) (name : str) (d : ForwardData)
    (overwrite : bool) : ThunkDatabase :=
  let it := m_forwardIndex db !! name in
  if bool_decide (is_Some it) && negb overwrite then db
  else
    let '(a, info) := intern_forward (m_arenas db) name d in
    match it with
    | Some i =>
        MkDatabase a (<[i := info]> (m_forwardThunks db)) (m_reversedThunks db)
          (m_forwardThunkMap db) (m_reversedThunkMap db) (m_forwardIndex db)
    | None =>
        MkDatabase a (m_forwardThunks db ++ [info]) (m_reversedThunks db)
          (m_forwardThunkMap db) (m_reversedThunkMap db)
          (<[name := length (m_forwardThunks db)]> (m_forwardIndex db))
    end.

Definition intern_reversed (a : Arenas) (name : str) (d : ReversedData)
    : Arenas * CReversedThunkInfo :=
  let '(a, name) := intern a name in
  let '(a, (alias, aliasCount)) := intern_list a (rd_alias d) in
  let '(a, fileName) := intern a (rd_fileName d) in
  let '(a, (thunks, thunksCount)) := intern_list a (rd_thunks d) in
  (a, MkReversed name alias aliasCount fileName thunks thunksCount).

Definition addReversed (db : ThunkDatabase) (name : str) (d : ReversedData)
    (overwrite : bool) : ThunkDatabase :=
  if negb overwrite && bool_decide (is_Some (m_reversedThunkMap db !! name)) then db
  else
    let '(a, info) := intern_reversed (m_arenas db) name d in
    MkDatabase a (m_forwardThunks db) (m_reversedThunks db ++ [info])
      (m_forwardThunkMap db) (m_reversedThunkMap db) (m_forwardIndex db).

(** ** Interpreting the document *)

Definition so_name (dir name suffix : str) : str := dir ++ $"/" ++ name ++ suffix.

(** A field that may be absent: its default when there is one, the expanded
    string when it is a non-empty string, else the entry is skipped. *)
Definition field_or (obj : list (str * Json)) (key : str) (dflt : option str)
    (vars : gmap str str) : run (option str) :=
  match assoc_get key obj with
  | None => Done dflt
  | Some _ =>
      match jsonString obj key with
      | Some val => s ← varexp_map val vars; Done (Some s)
      | None => Done None
      end
  end.

Definition dir_default (dir : str) (name suffix : str) : option str :=
  match dir with [] => None | _ => Some (so_name dir name suffix) end.

(** One item of [forwardThunks]; [None] when it is skipped. *)
Definition forward_item (vars : gmap str str) (item : Json)
    : run (option (str * ForwardData)) :=
  let gtl := map_find vars ($"GTL_DIR") in
  let htl := map_find vars ($"HTL_DIR") in
  let allHasDefault := negb (gtl =s? []) && negb (htl =s? []) in
  match item with
  | JString name =>
      Done (if negb (name =s? []) && allHasDefault
            then Some (name, MkForwardData [] (so_name gtl name ($".so"))
                               (so_name htl name ($"_HTL.so")) (name ++ $".so"))
            else None)
  | JObject obj =>
      match jsonString obj ($"name") with
      | None => Done None
      | Some name =>
          guestThunk ← field_or obj ($"guestThunk") (dir_default gtl name ($".so")) vars;
          hostThunk ← field_or obj ($"hostThunk") (dir_default htl name ($"_HTL.so")) vars;
          hostLibrary ← field_or obj ($"hostLibrary") (Some (name ++ $".so")) vars;
          Done (match guestThunk, hostThunk, hostLibrary with
                | Some g, Some h, Some l =>
                    Some (name, MkForwardData (jsonStringArray obj ($"alias")) g h l)
                | _, _, _ => None
                end)
      end
  | _ => Done None
  end.

Definition reversed_item (item : Json) : option (str * ReversedData) :=
  match item with
  | JObject obj =>
      match jsonString obj ($"name"), jsonString obj ($"fileName") with
      | Some name, Some fileName =>
          Some (name, MkReversedData (jsonStringArray obj ($"alias")) fileName
                        (jsonStringArray obj ($"thunks")))
      | _, _ => None
      end
  | _ => None
  end.

Fixpoint load_forward (db : ThunkDatabase) (vars : gmap str str) (overwrite : bool)
    (items : list Json) : run ThunkDatabase :=
  match items with
  | [] => Done db
  | item :: items' =>
      e ← forward_item vars item;
      load_forward
        (match e with Some (name, d) => upsertForward db name d overwrite | None => db end)
        vars overwrite items'
  end.

Fixpoint load_reversed (db : ThunkDatabase) (overwrite : bool) (items : list Json)
    : ThunkDatabase :=
  match items with
  | [] => db
  | item :: items' =>
      load_reversed
        (match reversed_item item with
         | Some (name, d) => addReversed db name d overwrite
         | None => db
         end) overwrite items'
  end.

(** The elements of an array field of the document. *)
Definition doc_array (json : Json) (key : str) : list Json :=
  match assoc_get key (object_items json) with
  | Some (JArray items) => items
  | _ => []
  end.

(** ** The lookup indexes *)

(** [index.emplace(key, i)] keeps an existing entry. *)
Definition emplace (key : str) (i : nat) (index : gmap str nat) : gmap str nat :=
  match index !! key with Some _ => index | None => <[key := i]> index end.

Fixpoint emplace_all (keys : list str) (i : nat) (index : gmap str nat) : gmap str nat :=
  match keys with
  | [] => index
  | key :: keys' => emplace_all keys' i (emplace key i index)
  end.

Fixpoint indexEntries (entries : list (list str)) (i : nat) (index : gmap str nat)
    : gmap str nat :=
  match entries with
  | [] => index
  | keys :: entries' => indexEntries entries' (S i) (emplace_all keys i index)
  end.

(** What is read through a string pointer and through a list pointer. *)
Definition str_at (a : Arenas) (p : nat) : str := default [] (m_stringArena a !! p).
Definition list_at (a : Arenas) (l count : nat) : list str :=
  str_at a <$> take count (default [] (m_listArena a !! l)).

Definition forward_keys (a : Arenas) (e : CForwardThunkInfo) : list str :=
  c_str (str_at a (f_name e)) :: (c_str <$> list_at a (f_alias e) (f_aliasCount e)).
Definition reversed_keys (a : Arenas) (e : CReversedThunkInfo) : list str :=
  c_str (str_at a (r_name e)) :: (c_str <$> list_at a (r_alias e) (r_aliasCount e)).

Definition rebuildIndexes (db : ThunkDatabase) : ThunkDatabase :=
  MkDatabase (m_arenas db) (m_forwardThunks db) (m_reversedThunks db)
    (indexEntries (forward_keys (m_arenas db) <$> m_forwardThunks db) 0 ∅)
    (indexEntries (reversed_keys (m_arenas db) <$> m_reversedThunks db) 0 ∅)
    (m_forwardIndex db).

(** [lookup]: [None] is the null pointer; an index out of range is undefined. *)
Definition lookup_entry {T} (items : list T) (index : gmap str nat) (name : str)
    : run (option T) :=
  match index !! name with
  | None => Done None
  | Some i => e ← defined (items !! i); Done (Some e)
  end.

Definition forwardThunk (db : ThunkDatabase) (name : str) : run (option CForwardThunkInfo) :=
  lookup_entry (m_forwardThunks db) (m_forwardThunkMap db) name.
Definition reversedThunk (db : ThunkDatabase) (name : str) : run (option CReversedThunkInfo) :=
  lookup_entry (m_reversedThunks db) (m_reversedThunkMap db) name.

(** ** Loading *)

Section loading.
Context (fs_open : str → option str) (json_parse : str → Json * str).

(** Open and parse: [None] where [loadJsonDatabase] returns false. *)
Definition read_document (path : str) : option Json :=
  match fs_open path with
  | None => None
  | Some text =>
      let '(json, err) := json_parse text in
      if (err =s? []) && is_object json then Some json else None
  end.

Definition loadJsonDatabase (db : ThunkDatabase) (path : str) (vars : gmap str str)
    (overwrite : bool) : run (ThunkDatabase * bool) :=
  match read_document path with
  | None => Done (db, false)
  | Some json =>
      db ← load_forward db vars overwrite (doc_array json ($"forwardThunks"));
      Done (load_reversed db overwrite (doc_array json ($"reversedThunks")), true)
  end.

Definition load (db : ThunkDatabase) (jsonPath : str) (vars : gmap str str)
    : run (ThunkDatabase * bool) :=
  '(db, jsonOk) ← loadJsonDatabase db_empty jsonPath vars true;
  Done (rebuildIndexes db, jsonOk).

Definition loadPack (db : ThunkDatabase) (jsonPath guestThunkDir hostThunkDir : str)
    (vars : gmap str str) : run (ThunkDatabase * bool) :=
  let packVars := <[$"HTL_DIR" := hostThunkDir]> (<[$"GTL_DIR" := guestThunkDir]> vars) in
  '(db, jsonOk) ← loadJsonDatabase db jsonPath packVars false;
  Done (rebuildIndexes db, jsonOk).
End loading.

(** ** The indexes *)

Lemma emplace_lookup key i index name :
  emplace key i index !! name
  = match index !! name with
    | Some j => Some j
    | None => if decide (name = key) then Some i else None
    end.
Proof.
  unfold emplace. destruct (index !! key) eqn:Ek.
  - destruct (index !! name) eqn:En; [done|]. case_decide; congruence.
  - destruct (decide (name = key)) as [->|Hn].
    + by rewrite lookup_insert_eq, Ek.
    + rewrite lookup_insert_ne by done. by destruct (index !! name).
Qed.

Lemma emplace_all_lookup keys i index name :
  emplace_all keys i index !! name
  = match index !! name with
    | Some j => Some j
    | None => if decide (name ∈ keys) then Some i else None
    end.
Proof.
  revert index. induction keys as [|key keys IH]; intros index; cbn [emplace_all].
  - destruct (index !! name); [done|]. rewrite decide_False; [done|].
    apply not_elem_of_nil.
  - rewrite IH, emplace_lookup. destruct (index !! name); [done|].
    destruct (decide (name = key)) as [->|Hn].
    + rewrite decide_True; [done|by left].
    + destruct (decide (name ∈ keys)).
      * rewrite decide_True; [done|by right].
      * rewrite decide_False; [done|]. by rewrite not_elem_of_cons.
Qed.

Section index.
Context {T : Type} (keys_of : T → list str).

(** The first entry that carries a key. *)
Definition first_with (name : str) (items : list T) : option T :=
  head (filter (λ e, name ∈ keys_of e) items).

Lemma first_with_cons name e items :
  first_with name (e :: items)
  = if decide (name ∈ keys_of e) then Some e else first_with name items.
Proof. unfold first_with. rewrite filter_cons. by case_decide. Qed.

Lemma first_with_app name l1 l2 :
  first_with name (l1 ++ l2)
  = match first_with name l1 with Some e => Some e | None => first_with name l2 end.
Proof.
  induction l1 as [|e l1 IH]; [done|]. rewrite <- app_comm_cons, !first_with_cons.
  by case_decide.
Qed.

Lemma indexEntries_lookup items : ∀ i index name,
  match indexEntries (keys_of <$> items) i index !! name with
  | None => index !! name = None ∧ first_with name items = None
  | Some j =>
      index !! name = Some j ∨
      (index !! name = None ∧ i ≤ j ∧ ∃ e, items !! (j - i) = Some e ∧
       first_with name items = Some e)
  end.
Proof.
  induction items as [|e items IH]; intros i index name.
  - simpl. destruct (index !! name); [by left|done].
  - rewrite fmap_cons. cbn [indexEntries].
    specialize (IH (S i) (emplace_all (keys_of e) i index) name).
    rewrite emplace_all_lookup in IH. rewrite first_with_cons.
    destruct (indexEntries _ _ _ !! name) as [j|].
    + destruct (index !! name) as [k|]; [naive_solver|].
      right. destruct (decide (name ∈ keys_of e)).
      * destruct IH as [[= <-]|[? _]]; [|done]. split_and!; [done|lia|].
        exists e. by rewrite Nat.sub_diag.
      * destruct IH as [?|(_ & Hj & e' & He & Hf)]; [done|]. split_and!; [done|lia|].
        exists e'. split; [|done]. by replace (j - i) with (S (j - S i)) by lia.
    + destruct (index !! name); [by destruct IH|]. by case_decide; destruct IH.
Qed.

(** Looking a key up through the rebuilt index finds the first entry that has
    it, and never leaves the range. *)
Lemma lookup_entry_spec items name :
  lookup_entry items (indexEntries (keys_of <$> items) 0 ∅) name
  = Done (first_with name items).
Proof.
  unfold lookup_entry. pose proof (indexEntries_lookup items 0 ∅ name) as H.
  destruct (indexEntries _ _ _ !! name) as [j|].
  - rewrite lookup_empty in H. destruct H as [?|(_ & _ & e & He & ->)]; [done|].
    rewrite Nat.sub_0_r in He. by rewrite He.
  - by destruct H as [_ ->].
Qed.
End index.

(** ** The arenas only grow *)

Record arenas_le (a a' : Arenas) : Prop := {
  le_strings : m_stringArena a `prefix_of` m_stringArena a';
  le_lists : m_listArena a `prefix_of` m_listArena a';
}.

#[export] Instance arenas_le_preorder : PreOrder arenas_le.
Proof.
  split.
  - intros a. by split.
  - intros a b c [H1 H2] [H3 H4]. split; by etransitivity.
Qed.

Definition str_valid (a : Arenas) (p : nat) : Prop := p < length (m_stringArena a).
Definition list_valid (a : Arenas) (l count : nat) : Prop :=
  ∃ ptrs, m_listArena a !! l = Some ptrs ∧ count = length ptrs ∧
          Forall (str_valid a) ptrs.

Lemma str_valid_mono a a' p : arenas_le a a' → str_valid a p → str_valid a' p.
Proof. intros [Hs _] H. apply prefix_length in Hs. unfold str_valid in *. lia. Qed.

Lemma str_at_mono a a' p : arenas_le a a' → str_valid a p → str_at a' p = str_at a p.
Proof.
  intros [[k Hk] _] H. unfold str_at. rewrite Hk. by rewrite lookup_app_l.
Qed.

Lemma list_valid_mono a a' l n : arenas_le a a' → list_valid a l n → list_valid a' l n.
Proof.
  intros Hle (ptrs & Hl & Hn & Hv). exists ptrs. split_and!; [|done|].
  - destruct Hle as [_ [k Hk]]. rewrite Hk. by apply lookup_app_l_Some.
  - eapply Forall_impl; [exact Hv|]. intros p. by apply str_valid_mono.
Qed.

Lemma list_at_mono a a' l n : arenas_le a a' → list_valid a l n → list_at a' l n = list_at a l n.
Proof.
  intros Hle (ptrs & Hl & Hn & Hv). unfold list_at.
  assert (m_listArena a' !! l = Some ptrs) as ->.
  { destruct Hle as [_ [k Hk]]. rewrite Hk. by apply lookup_app_l_Some. }
  rewrite Hl. simpl. rewrite Hn, take_ge by lia. apply list_fmap_ext.
  intros i p Hp. apply str_at_mono; [done|]. by eapply Forall_lookup_1.
Qed.

#[export] Hint Resolve str_valid_mono list_valid_mono : lore.

Lemma intern_le a s : arenas_le a (intern a s).1.
Proof. split; simpl; [by eexists|done]. Qed.
Lemma intern_valid a s : str_valid (intern a s).1 (intern a s).2.
Proof. unfold str_valid. simpl. rewrite length_app. simpl. lia. Qed.
Lemma intern_at a s : str_at (intern a s).1 (intern a s).2 = s.
Proof.
  unfold str_at. simpl. rewrite lookup_app_r by lia. by rewrite Nat.sub_diag.
Qed.

Lemma intern_all_spec strs : ∀ a ptrs,
  intern_all a strs ptrs
  = (MkArenas (m_stringArena a ++ strs) (m_listArena a),
     ptrs ++ seq (length (m_stringArena a)) (length strs)).
Proof.
  induction strs as [|s strs IH]; intros a ptrs; cbn [intern_all intern length].
  - rewrite !app_nil_r. by destruct a.
  - rewrite IH. cbn [intern m_stringArena m_listArena fst snd].
    rewrite length_app. cbn [length]. rewrite <- !app_assoc.
    rewrite <- cons_seq. rewrite Nat.add_1_r. done.
Qed.

Lemma intern_list_eq a strs :
  intern_list a strs
  = (MkArenas (m_stringArena a ++ strs)
       (m_listArena a ++ [seq (length (m_stringArena a)) (length strs)]),
     (length (m_listArena a), length strs)).
Proof.
  unfold intern_list. rewrite intern_all_spec. cbn [m_stringArena m_listArena app].
  rewrite length_seq. do 2 f_equal.
  rewrite insert_app_r_alt by lia. by rewrite Nat.sub_diag.
Qed.

Lemma intern_list_le a strs : arenas_le a (intern_list a strs).1.
Proof. rewrite intern_list_eq. split; simpl; by eexists. Qed.

Lemma intern_list_valid a strs :
  list_valid (intern_list a strs).1 (intern_list a strs).2.1 (intern_list a strs).2.2.
Proof.
  rewrite intern_list_eq. cbn [fst snd].
  exists (seq (length (m_stringArena a)) (length strs)). split_and!.
  - simpl. rewrite lookup_app_r by lia. by rewrite Nat.sub_diag.
  - by rewrite length_seq.
  - apply Forall_forall. intros p Hp%elem_of_seq. unfold str_valid. simpl.
    rewrite length_app. lia.
Qed.

Lemma intern_list_at a strs :
  list_at (intern_list a strs).1 (intern_list a strs).2.1 (intern_list a strs).2.2 = strs.
Proof.
  rewrite intern_list_eq. unfold list_at. simpl.
  rewrite lookup_app_r by lia. rewrite Nat.sub_diag. simpl.
  rewrite take_ge by (rewrite length_seq; lia).
  apply list_eq. intros i. rewrite list_lookup_fmap.
  destruct (decide (i < length strs)) as [Hi|Hi].
  - rewrite lookup_seq_lt by done. simpl. unfold str_at. simpl.
    rewrite lookup_app_r by lia.
    replace (length (m_stringArena a) + i - length (m_stringArena a)) with i by lia.
    destruct (lookup_lt_is_Some_2 strs i Hi) as [x ->]. done.
  - rewrite lookup_seq_ge by lia. symmetry. apply lookup_ge_None. lia.
Qed.

#[export] Hint Resolve intern_le intern_valid intern_list_le intern_list_valid : lore.

(** ** What an entry says *)

Definition fwd_data (a : Arenas) (e : CForwardThunkInfo) : str * ForwardData :=
  (str_at a (f_name e),
   MkForwardData (list_at a (f_alias e) (f_aliasCount e)) (str_at a (f_guestThunk e))
     (str_at a (f_hostThunk e)) (str_at a (f_hostLibrary e))).
Definition rev_data (a : Arenas) (e : CReversedThunkInfo) : str * ReversedData :=
  (str_at a (r_name e),
   MkReversedData (list_at a (r_alias e) (r_aliasCount e)) (str_at a (r_fileName e))
     (list_at a (r_thunks e) (r_thunksCount e))).

Record fwd_valid (a : Arenas) (e : CForwardThunkInfo) : Prop := {
  fv_name : str_valid a (f_name e);
  fv_alias : list_valid a (f_alias e) (f_aliasCount e);
  fv_guest : str_valid a (f_guestThunk e);
  fv_host : str_valid a (f_hostThunk e);
  fv_library : str_valid a (f_hostLibrary e);
}.
Record rev_valid (a : Arenas) (e : CReversedThunkInfo) : Prop := {
  rv_name : str_valid a (r_name e);
  rv_alias : list_valid a (r_alias e) (r_aliasCount e);
  rv_file : str_valid a (r_fileName e);
  rv_thunks : list_valid a (r_thunks e) (r_thunksCount e);
}.

Lemma fwd_valid_mono a a' e : arenas_le a a' → fwd_valid a e → fwd_valid a' e.
Proof. intros Hle []. split; eauto with lore. Qed.
Lemma rev_valid_mono a a' e : arenas_le a a' → rev_valid a e → rev_valid a' e.
Proof. intros Hle []. split; eauto with lore. Qed.

Lemma fwd_data_mono a a' e : arenas_le a a' → fwd_valid a e → fwd_data a' e = fwd_data a e.
Proof.
  intros Hle []. unfold fwd_data. by rewrite !(str_at_mono a a'), (list_at_mono a a').
Qed.
Lemma rev_data_mono a a' e : arenas_le a a' → rev_valid a e → rev_data a' e = rev_data a e.
Proof.
  intros Hle []. unfold rev_data. by rewrite !(str_at_mono a a'), !(list_at_mono a a').
Qed.

(** Interning an entry: the arenas grow and the entry reads back as its data. *)
Ltac intern_step :=
  match goal with
  | |- context [intern ?a ?s] =>
      pose proof (intern_le a s); pose proof (intern_valid a s);
      pose proof (intern_at a s);
      let a' := fresh "a" in let p := fresh "p" in
      destruct (intern a s) as [a' p]; cbn [fst snd] in *
  | |- context [intern_list ?a ?s] =>
      pose proof (intern_list_le a s); pose proof (intern_list_valid a s);
      pose proof (intern_list_at a s);
      let a' := fresh "a" in let l := fresh "l" in let n := fresh "n" in
      destruct (intern_list a s) as [a' [l n]]; cbn [fst snd] in *
  end.
Ltac arenas_order := repeat (done || (etransitivity; [eassumption|])).
Ltac move_to a' :=
  repeat match goal with
  | H : str_valid ?a ?p |- _ =>
      lazymatch a with a' => fail | _ => idtac end;
      assert (arenas_le a a') by arenas_order;
      rewrite <- (str_at_mono a a' p) in * by done;
      apply (str_valid_mono a a') in H; [|done]
  | H : list_valid ?a ?l ?n |- _ =>
      lazymatch a with a' => fail | _ => idtac end;
      assert (arenas_le a a') by arenas_order;
      rewrite <- (list_at_mono a a' l n) in * by done;
      apply (list_valid_mono a a') in H; [|done]
  end.

Lemma intern_forward_spec a name d :
  let '(a', info) := intern_forward a name d in
  arenas_le a a' ∧ fwd_valid a' info ∧ fwd_data a' info = (name, d).
Proof.
  unfold intern_forward. do 5 intern_step.
  split; [arenas_order|]. move_to a4. split; [by split|].
  unfold fwd_data. simpl. by destruct d; simpl in *; subst.
Qed.

Lemma intern_reversed_spec a name d :
  let '(a', info) := intern_reversed a name d in
  arenas_le a a' ∧ rev_valid a' info ∧ rev_data a' info = (name, d).
Proof.
  unfold intern_reversed. do 4 intern_step.
  split; [arenas_order|]. move_to a3. split; [by split|].
  unfold rev_data. simpl. by destruct d; simpl in *; subst.
Qed.

Definition fwd_view (db : ThunkDatabase) : list (str * ForwardData) :=
  fwd_data (m_arenas db) <$> m_forwardThunks db.
Definition rev_view (db : ThunkDatabase) : list (str * ReversedData) :=
  rev_data (m_arenas db) <$> m_reversedThunks db.

Record db_wf (db : ThunkDatabase) : Prop := {
  wf_fwd : Forall (fwd_valid (m_arenas db)) (m_forwardThunks db);
  wf_rev : Forall (rev_valid (m_arenas db)) (m_reversedThunks db);
  wf_names : index_wf (m_forwardIndex db) (fwd_view db).*1;
}.

(** The relation a load step establishes: nothing the old entries point at is
    touched and no reversed entry moves. *)
Record db_grows (db db' : ThunkDatabase) : Prop := {
  gr_arenas : arenas_le (m_arenas db) (m_arenas db');
  gr_rev : m_reversedThunks db `prefix_of` m_reversedThunks db';
  gr_map : m_reversedThunkMap db' = m_reversedThunkMap db;
}.

#[export] Instance db_grows_preorder : PreOrder db_grows.
Proof.
  split.
  - intros db. by split.
  - intros a b c [? ? ?] [? ? ?]. split; [by etransitivity|by etransitivity|congruence].
Qed.

Lemma fwd_view_mono a a' l :
  arenas_le a a' → Forall (fwd_valid a) l → fwd_data a' <$> l = fwd_data a <$> l.
Proof.
  intros Hle Hl. apply list_fmap_ext. intros i e He. apply fwd_data_mono; [done|].
  by eapply Forall_lookup_1.
Qed.
Lemma rev_view_mono a a' l :
  arenas_le a a' → Forall (rev_valid a) l → rev_data a' <$> l = rev_data a <$> l.
Proof.
  intros Hle Hl. apply list_fmap_ext. intros i e He. apply rev_data_mono; [done|].
  by eapply Forall_lookup_1.
Qed.

Lemma Forall_fwd_mono a a' l :
  arenas_le a a' → Forall (fwd_valid a) l → Forall (fwd_valid a') l.
Proof. intros Hle H. eapply Forall_impl; [exact H|]. intros e. by apply fwd_valid_mono. Qed.
Lemma Forall_rev_mono a a' l :
  arenas_le a a' → Forall (rev_valid a) l → Forall (rev_valid a') l.
Proof. intros Hle H. eapply Forall_impl; [exact H|]. intros e. by apply rev_valid_mono. Qed.

(** What one forward entry does to the view. *)
Definition upsert_view (overwrite : bool) (l : list (str * ForwardData))
    (e : str * ForwardData) : list (str * ForwardData) :=
  assoc_set e.1 (λ old, if overwrite then e.2 else default e.2 old) l.

Lemma upsertForward_spec db name d overwrite :
  db_wf db →
  let db' := upsertForward db name d overwrite in
  db_wf db' ∧ db_grows db db' ∧
  fwd_view db' = upsert_view overwrite (fwd_view db) (name, d) ∧
  m_reversedThunks db' = m_reversedThunks db ∧
  (overwrite = false → m_forwardThunks db `prefix_of` m_forwardThunks db').
Proof.
  intros [Hf Hr Hi]. unfold upsertForward, upsert_view. cbn [fst snd].
  pose proof (index_wf_NoDup _ _ Hi) as Hnd.
  destruct (m_forwardIndex db !! name) as [i|] eqn:Ei.
  - destruct (index_wf_lookup _ _ _ _ Hi Ei) as [old Hold].
    rewrite (assoc_set_at name _ _ i old) by done. rewrite bool_decide_true by done.
    destruct overwrite; cbn [andb negb].
    + pose proof (intern_forward_spec (m_arenas db) name d) as Hin.
      destruct (intern_forward _ _ _) as [a info]. destruct Hin as (Hle & Hv & Hd).
      assert (fwd_data a <$> <[i:=info]> (m_forwardThunks db)
              = <[i:=(name, d)]> (fwd_view db)) as Hview.
      { rewrite list_fmap_insert, Hd. f_equal. by apply fwd_view_mono. }
      split_and!; [| |exact Hview|done|done].
      * split; simpl.
        -- apply Forall_insert; [by eapply Forall_fwd_mono|done].
        -- by eapply Forall_rev_mono.
        -- unfold fwd_view. simpl. rewrite Hview, list_fmap_insert. simpl.
           rewrite list_insert_id; [done|]. by rewrite list_lookup_fmap, Hold.
      * by split.
    + split_and!; [by split|done| |done|done]. by rewrite list_insert_id.
  - pose proof (proj1 (index_wf_None _ _ _ Hi) Ei) as Hn.
    rewrite bool_decide_false by (by intros [? [=]]). cbn [andb].
    pose proof (intern_forward_spec (m_arenas db) name d) as Hin.
    destruct (intern_forward _ _ _) as [a info]. destruct Hin as (Hle & Hv & Hd).
    assert (fwd_data a <$> (m_forwardThunks db ++ [info]) = fwd_view db ++ [(name, d)])
      as Hview.
    { rewrite fmap_app. simpl. rewrite Hd. f_equal. by apply fwd_view_mono. }
    rewrite assoc_set_new by done.
    split_and!; [| | |done|by eexists].
    + split; simpl.
      * apply Forall_app. split; [by eapply Forall_fwd_mono|by apply Forall_singleton].
      * by eapply Forall_rev_mono.
      * unfold fwd_view. simpl. rewrite Hview, fmap_app. simpl.
        replace (length (m_forwardThunks db)) with (length (fwd_view db).*1)
          by (unfold fwd_view; by rewrite !length_fmap).
        by apply index_wf_snoc.
    + by split.
    + unfold fwd_view at 1. simpl. rewrite Hview. by destruct overwrite.
Qed.

Lemma addReversed_spec db name d overwrite :
  db_wf db →
  let db' := addReversed db name d overwrite in
  db_wf db' ∧ db_grows db db' ∧ fwd_view db' = fwd_view db ∧
  m_forwardThunks db' = m_forwardThunks db ∧
  rev_view db' = rev_view db ++
    (if negb overwrite && bool_decide (is_Some (m_reversedThunkMap db !! name))
     then [] else [(name, d)]).
Proof.
  intros [Hf Hr Hi]. unfold addReversed.
  destruct (negb overwrite && _).
  { split_and!; [by split|done..|]. by rewrite app_nil_r. }
  pose proof (intern_reversed_spec (m_arenas db) name d) as Hin.
  destruct (intern_reversed _ _ _) as [a info]. destruct Hin as (Hle & Hv & Hd).
  assert (fwd_data a <$> m_forwardThunks db = fwd_view db) as Hview
    by (by apply fwd_view_mono).
  split_and!; [| |exact Hview|done|].
  - split; simpl.
    + by eapply Forall_fwd_mono.
    + apply Forall_app. split; [by eapply Forall_rev_mono|by apply Forall_singleton].
    + unfold fwd_view. simpl. by rewrite Hview.
  - split; simpl; [done|by eexists|done].
  - unfold rev_view. simpl. rewrite fmap_app. simpl. rewrite Hd. f_equal.
    by apply rev_view_mono.
Qed.

(** ** What a document says *)

Lemma varexp_map_total s vars : ∃ r, varexp_map s vars = Done r.
Proof. unfold varexp_map, varexp. apply varexp_fuel_total. lia. Qed.

Lemma field_or_total obj key dflt vars : ∃ r, field_or obj key dflt vars = Done r.
Proof.
  unfold field_or. destruct (assoc_get key obj); [|by eexists].
  destruct (jsonString obj key) as [v|]; [|by eexists].
  destruct (varexp_map_total v vars) as [r ->]. by eexists.
Qed.

Lemma forward_item_total vars item : ∃ e, forward_item vars item = Done e.
Proof.
  unfold forward_item. destruct item; try by eexists.
  destruct (jsonString _ _) as [name|]; [|by eexists].
  do 3 match goal with |- context [field_or ?o ?k ?d ?v] =>
    destruct (field_or_total o k d v) as [? ->]; cbn [mbind run_bind] end.
  by eexists.
Qed.

(** The entry an item of [forwardThunks] stands for. *)
Definition forward_data (vars : gmap str str) (item : Json) : option (str * ForwardData) :=
  match forward_item vars item with Done e => e | _ => None end.

Lemma load_forward_spec vars overwrite items : ∀ db,
  db_wf db →
  ∃ db', load_forward db vars overwrite items = Done db' ∧
    db_wf db' ∧ db_grows db db' ∧
    fwd_view db' = foldl (upsert_view overwrite) (fwd_view db) (omap (forward_data vars) items) ∧
    m_reversedThunks db' = m_reversedThunks db ∧
    (overwrite = false → m_forwardThunks db `prefix_of` m_forwardThunks db').
Proof.
  induction items as [|item items IH]; intros db Hwf.
  { exists db. split_and!; done. }
  cbn [load_forward omap list_omap]. unfold forward_data at 1.
  destruct (forward_item_total vars item) as [[[name d]|] ->]; cbn [mbind run_bind].
  - destruct (upsertForward_spec db name d overwrite Hwf) as (Hwf' & Hgr & Hv & Hr & Hp).
    destruct (IH _ Hwf') as (db' & -> & Hwf2 & Hgr2 & Hv2 & Hr2 & Hp2).
    exists db'. split_and!; [done|done|by etransitivity| |congruence|].
    + by rewrite Hv2, Hv.
    + intros Ho. etransitivity; [by apply Hp|by apply Hp2].
  - destruct (IH _ Hwf) as (db' & -> & H). by exists db'.
Qed.

(** A reversed entry is kept out only by an entry indexed before this load. *)
Definition new_reversed (overwrite : bool) (index : gmap str nat)
    (e : str * ReversedData) : Prop :=
  overwrite = true ∨ index !! e.1 = None.
#[export] Instance new_reversed_dec overwrite index e :
  Decision (new_reversed overwrite index e).
Proof. unfold new_reversed. apply _. Defined.

Lemma load_reversed_spec overwrite items : ∀ db,
  db_wf db →
  let db' := load_reversed db overwrite items in
  db_wf db' ∧ db_grows db db' ∧ fwd_view db' = fwd_view db ∧
  m_forwardThunks db' = m_forwardThunks db ∧
  rev_view db' = rev_view db ++
    filter (new_reversed overwrite (m_reversedThunkMap db)) (omap reversed_item items).
Proof.
  induction items as [|item items IH]; intros db Hwf; cbn [load_reversed].
  { split_and!; try done. simpl. by rewrite app_nil_r. }
  destruct (reversed_item item) as [[name d]|] eqn:Ei; cbn [omap list_omap]; rewrite Ei.
  - destruct (addReversed_spec db name d overwrite Hwf) as (Hwf' & Hgr & Hf & Hft & Hv).
    destruct (IH _ Hwf') as (Hwf2 & Hgr2 & Hf2 & Hft2 & Hv2).
    split_and!; [done|by etransitivity|congruence|congruence|].
    rewrite Hv2, Hv, (gr_map _ _ Hgr), <- app_assoc, filter_cons. f_equal.
    destruct overwrite; cbn [negb andb].
    + rewrite decide_True; [done|by left].
    + case_bool_decide as Hin.
      * rewrite decide_False; [done|]. intros [?|Hn]; [done|]. simpl in Hn.
        rewrite Hn in Hin. by destruct Hin.
      * rewrite decide_True; [done|]. right. simpl. by apply eq_None_not_Some.
  - by apply IH.
Qed.

Lemma rebuildIndexes_wf db : db_wf db → db_wf (rebuildIndexes db).
Proof. by intros []. Qed.

Lemma db_empty_wf : db_wf db_empty.
Proof. split; [constructor|constructor|apply index_wf_nil]. Qed.
#[export] Hint Resolve db_empty_wf rebuildIndexes_wf : lore.

(** The indexes are those of the entries. *)
Definition db_indexed (db : ThunkDatabase) : Prop := rebuildIndexes db = db.

(** ** Looking entries up *)

Lemma forwardThunk_first db name :
  db_indexed db →
  forwardThunk db name
  = Done (first_with (forward_keys (m_arenas db)) name (m_forwardThunks db)).
Proof.
  intros Hi. unfold forwardThunk. rewrite <- lookup_entry_spec. f_equal.
  exact (f_equal m_forwardThunkMap (eq_sym Hi)).
Qed.
Lemma reversedThunk_first db name :
  db_indexed db →
  reversedThunk db name
  = Done (first_with (reversed_keys (m_arenas db)) name (m_reversedThunks db)).
Proof.
  intros Hi. unfold reversedThunk. rewrite <- lookup_entry_spec. f_equal.
  exact (f_equal m_reversedThunkMap (eq_sym Hi)).
Qed.

(** After any load, [forwardThunk] and [reversedThunk] return the first
    entry whose name or one of whose aliases is the name asked for, the null
    pointer when there is none, and never index out of range. *)
Theorem thunk_lookup db name :
  db_indexed db →
  forwardThunk db name
    = Done (first_with (forward_keys (m_arenas db)) name (m_forwardThunks db)) ∧
  reversedThunk db name
    = Done (first_with (reversed_keys (m_arenas db)) name (m_reversedThunks db)).
Proof. intros Hi. split; [by apply forwardThunk_first|by apply reversedThunk_first]. Qed.

Section loading_theorems.
Context (fs_open : str → option str) (json_parse : str → Json * str).

Lemma load_steps db path vars :
  ∃ db' ok, load fs_open json_parse db path vars = Done (db', ok) ∧
    db_wf db' ∧ db_indexed db' ∧
    match read_document fs_open json_parse path with
    | None => ok = false ∧ fwd_view db' = [] ∧ rev_view db' = []
    | Some json =>
        ok = true ∧
        fwd_view db' = foldl (upsert_view true) []
          (omap (forward_data vars) (doc_array json ($"forwardThunks"))) ∧
        rev_view db' = omap reversed_item (doc_array json ($"reversedThunks"))
    end.
Proof.
  unfold load, loadJsonDatabase. destruct (read_document _ _ path) as [json|].
  - destruct (load_forward_spec vars true (doc_array json ($"forwardThunks")) db_empty
      db_empty_wf) as (db1 & -> & Hwf1 & Hgr1 & Hv1 & Hr1 & _). cbn [mbind run_bind].
    destruct (load_reversed_spec true (doc_array json ($"reversedThunks")) db1 Hwf1)
      as (Hwf2 & Hgr2 & Hf2 & _ & Hv2).
    do 2 eexists. split_and!; [done|by apply rebuildIndexes_wf|done|done| |].
    + change (fwd_view (load_reversed db1 true (doc_array json ($"reversedThunks")))
        = foldl (upsert_view true) (fwd_view db_empty)
            (omap (forward_data vars) (doc_array json ($"forwardThunks")))).
      by rewrite Hf2, Hv1.
    + change (rev_view (load_reversed db1 true (doc_array json ($"reversedThunks")))
        = omap reversed_item (doc_array json ($"reversedThunks"))).
      rewrite Hv2. unfold rev_view at 1. rewrite Hr1. cbn [db_empty m_reversedThunks].
      change (rev_data (m_arenas db1) <$> []) with (@nil (str * ReversedData)).
      rewrite app_nil_l. apply filter_all, Forall_forall.
      intros e _. by left.
  - do 2 eexists. split_and!; [done|by apply rebuildIndexes_wf, db_empty_wf|done..].
Qed.

(** C25: [load] succeeds exactly when the file opens and parses to an object,
    and the database then holds the entries the document describes: the
    forward ones in the order of their first occurrence, a later description
    of a name replacing an earlier one in place, and every reversed one; a
    failed load leaves the empty database. *)
Theorem load_spec db path vars :
  ∃ db' ok, load fs_open json_parse db path vars = Done (db', ok) ∧
    db_wf db' ∧ db_indexed db' ∧
    match read_document fs_open json_parse path with
    | None => ok = false ∧ fwd_view db' = [] ∧ rev_view db' = []
    | Some json =>
        ok = true ∧
        fwd_view db' = foldl (upsert_view true) []
          (omap (forward_data vars) (doc_array json ($"forwardThunks"))) ∧
        rev_view db' = omap reversed_item (doc_array json ($"reversedThunks"))
    end.
Proof. apply load_steps. Qed.

Definition pack_vars (guestThunkDir hostThunkDir : str) (vars : gmap str str)
    : gmap str str :=
  <[$"HTL_DIR" := hostThunkDir]> (<[$"GTL_DIR" := guestThunkDir]> vars).

Lemma loadPack_steps db path gdir hdir vars :
  db_wf db →
  ∃ db' ok, loadPack fs_open json_parse db path gdir hdir vars = Done (db', ok) ∧
    db_wf db' ∧ db_indexed db' ∧ arenas_le (m_arenas db) (m_arenas db') ∧
    m_forwardThunks db `prefix_of` m_forwardThunks db' ∧
    m_reversedThunks db `prefix_of` m_reversedThunks db' ∧
    match read_document fs_open json_parse path with
    | None => ok = false ∧ fwd_view db' = fwd_view db ∧ rev_view db' = rev_view db
    | Some json =>
        ok = true ∧
        fwd_view db' = foldl (upsert_view false) (fwd_view db)
          (omap (forward_data (pack_vars gdir hdir vars))
             (doc_array json ($"forwardThunks"))) ∧
        rev_view db' = rev_view db ++
          filter (new_reversed false (m_reversedThunkMap db))
            (omap reversed_item (doc_array json ($"reversedThunks")))
    end.
Proof.
  intros Hwf. unfold loadPack, loadJsonDatabase. fold (pack_vars gdir hdir vars).
  destruct (read_document _ _ path) as [json|].
  - destruct (load_forward_spec (pack_vars gdir hdir vars) false
      (doc_array json ($"forwardThunks")) db Hwf)
      as (db1 & -> & Hwf1 & Hgr1 & Hv1 & Hr1 & Hp1). cbn [mbind run_bind].
    destruct (load_reversed_spec false (doc_array json ($"reversedThunks")) db1 Hwf1)
      as (Hwf2 & Hgr2 & Hf2 & Hft2 & Hv2).
    assert (rev_view db1 = rev_view db) as Hrv1.
    { unfold rev_view. rewrite Hr1. apply rev_view_mono; [by apply Hgr1|by apply Hwf]. }
    do 2 eexists. split_and!; [done|by apply rebuildIndexes_wf|done| | | |done| |].
    + etransitivity; [apply Hgr1|apply Hgr2].
    + cbn [rebuildIndexes m_forwardThunks]. rewrite Hft2. by apply Hp1.
    + cbn [rebuildIndexes m_reversedThunks]. rewrite <- Hr1. apply Hgr2.
    + rewrite <- Hv1, <- Hf2. done.
    + rewrite <- Hrv1, <- (gr_map _ _ Hgr1), <- Hv2. done.
  - do 2 eexists. split_and!; [done|by apply rebuildIndexes_wf|done..].
Qed.

Lemma first_with_prefix {T} (k k' : T → list str) name l l' e :
  l `prefix_of` l' → (∀ x, x ∈ l → k' x = k x) →
  first_with k name l = Some e → first_with k' name l' = Some e.
Proof.
  intros [r ->] Hk He. rewrite first_with_app.
  assert (first_with k' name l = first_with k name l) as ->; [|by rewrite He].
  clear He. induction l as [|x l IH]; [done|]. rewrite !first_with_cons.
  rewrite Hk by by left. case_decide; [done|]. apply IH. intros y Hy. apply Hk. by right.
Qed.

Lemma fwd_keys_data a e :
  forward_keys a e = c_str (fwd_data a e).1 :: (c_str <$> fd_alias (fwd_data a e).2).
Proof. done. Qed.
Lemma rev_keys_data a e :
  reversed_keys a e = c_str (rev_data a e).1 :: (c_str <$> rd_alias (rev_data a e).2).
Proof. done. Qed.

(** C22: layering a pack disturbs nothing that was handed out: every earlier
    entry is still at its place with the same pointers, every string and list
    it points at reads the same, and every name or alias that was found before
    is still found at the same entry, whatever the pack's document holds. *)
Theorem pack_stable db path gdir hdir vars :
  db_wf db → db_indexed db →
  ∃ db' ok, loadPack fs_open json_parse db path gdir hdir vars = Done (db', ok) ∧
    m_forwardThunks db `prefix_of` m_forwardThunks db' ∧
    m_reversedThunks db `prefix_of` m_reversedThunks db' ∧
    (∀ e, e ∈ m_forwardThunks db → fwd_data (m_arenas db') e = fwd_data (m_arenas db) e) ∧
    (∀ e, e ∈ m_reversedThunks db → rev_data (m_arenas db') e = rev_data (m_arenas db) e) ∧
    (∀ n e, forwardThunk db n = Done (Some e) → forwardThunk db' n = Done (Some e)) ∧
    (∀ n e, reversedThunk db n = Done (Some e) → reversedThunk db' n = Done (Some e)).
Proof.
  intros Hwf Hix. destruct (loadPack_steps db path gdir hdir vars Hwf)
    as (db' & ok & Hl & Hwf' & Hix' & Hle & Hpf & Hpr & _). exists db', ok.
  assert (∀ e, e ∈ m_forwardThunks db →
    fwd_data (m_arenas db') e = fwd_data (m_arenas db) e) as Hfd.
  { intros e He. apply fwd_data_mono; [done|].
    by eapply (proj1 (Forall_forall _ _) (wf_fwd _ Hwf)). }
  assert (∀ e, e ∈ m_reversedThunks db →
    rev_data (m_arenas db') e = rev_data (m_arenas db) e) as Hrd.
  { intros e He. apply rev_data_mono; [done|].
    by eapply (proj1 (Forall_forall _ _) (wf_rev _ Hwf)). }
  split_and!; [done..| |]; intros n e.
  - rewrite !forwardThunk_first by done. intros [= He]. f_equal.
    eapply first_with_prefix; [done| |done].
    intros x Hx. by rewrite !fwd_keys_data, Hfd.
  - rewrite !reversedThunk_first by done. intros [= He]. f_equal.
    eapply first_with_prefix; [done| |done].
    intros x Hx. by rewrite !rev_keys_data, Hrd.
Qed.

(** A pack only adds: its forward entries are inserted where their name is
    absent, the first description of a name winning, and its reversed entries
    are appended unless their name was already indexed; a pack whose document
    cannot be read changes no entry. *)
Theorem pack_view db path gdir hdir vars :
  db_wf db →
  ∃ db' ok, loadPack fs_open json_parse db path gdir hdir vars = Done (db', ok) ∧
    db_wf db' ∧ db_indexed db' ∧
    match read_document fs_open json_parse path with
    | None => ok = false ∧ fwd_view db' = fwd_view db ∧ rev_view db' = rev_view db
    | Some json =>
        ok = true ∧
        fwd_view db' = foldl (upsert_view false) (fwd_view db)
          (omap (forward_data (pack_vars gdir hdir vars))
             (doc_array json ($"forwardThunks"))) ∧
        rev_view db' = rev_view db ++
          filter (new_reversed false (m_reversedThunkMap db))
            (omap reversed_item (doc_array json ($"reversedThunks")))
    end.
Proof.
  intros Hwf. destruct (loadPack_steps db path gdir hdir vars Hwf)
    as (db' & ok & Hl & Hwf' & Hix' & _ & _ & _ & Hv). by exists db', ok.
Qed.
End loading_theorems.

Lemma first_description_wins name d d' l :
  upsert_view false (upsert_view false l (name, d)) (name, d') = upsert_view false l (name, d).
Proof.
  unfold upsert_view. simpl. induction l as [|[k a] l IH]; simpl.
  - by rewrite bool_decide_true.
  - case_bool_decide; simpl; [by rewrite bool_decide_true|].
    by rewrite bool_decide_false, IH.
Qed.

(** The shorthand form, a bare name, means the object form that gives only
    the name, for every setting of the directory variables. *)
Theorem shorthand_object vars name :
  forward_item vars (JString name) = forward_item vars (JObject [($"name", JString name)]).
Proof.
  unfold forward_item, jsonString, field_or, jsonStringArray.
  assert (∀ k, k ≠ $"name" → assoc_get k [($"name", JString name)] = None) as Hk.
  { intros k Hk. simpl. by rewrite bool_decide_false. }
  rewrite !(Hk ($"guestThunk")), !(Hk ($"hostThunk")), !(Hk ($"hostLibrary")),
    !(Hk ($"alias")) by done.
  assert (assoc_get ($"name") [($"name", JString name)] = Some (JString name)) as -> by done.
  destruct name as [|c name]; [done|].
  cbn [mbind run_bind]. unfold dir_default.
  destruct (map_find vars ($"GTL_DIR")); [done|].
  by destruct (map_find vars ($"HTL_DIR")).
Qed.

(** ** Examples and witnesses *)

(** A document with an override of [a], a shorthand entry and a duplicate
    reversed entry. *)
Definition example_json : Json :=
  JObject [
    ($"forwardThunks", JArray [
       JString ($"z");
       JObject [($"name", JString ($"a")); ($"guestThunk", JString ($"${GTL_DIR}/g"));
                ($"alias", JArray [JString ($"a.1"); JNull; JString []])];
       JObject [($"name", JString ($"a")); ($"hostThunk", JString ($"h"))]]);
    ($"reversedThunks", JArray [
       JObject [($"name", JString ($"r")); ($"fileName", JString ($"f1"))];
       JObject [($"name", JString ($"r")); ($"fileName", JString ($"f2"))]])].
Definition example_open (path : str) : option str := if path =s? $"db" then Some [] else None.
Definition example_parse (text : str) : Json * str := (example_json, []).
Definition example_vars : gmap str str :=
  list_to_map [($"GTL_DIR", $"/g"); ($"HTL_DIR", $"/h")].
Definition example_db : ThunkDatabase :=
  match load example_open example_parse db_empty ($"db") example_vars with
  | Done (db, _) => db
  | _ => db_empty
  end.

Example load_ex :
  fwd_view example_db
  = [($"z", MkForwardData [] ($"/g/z.so") ($"/h/z_HTL.so") ($"z.so"));
     ($"a", MkForwardData [] ($"/g/a.so") ($"h") ($"a.so"))].
Proof. vm_compute. reflexivity. Qed.

(** Two reversed entries of one name in one document: both are kept and the
    first is found, while for forward entries the last one wins. *)
Example reversed_first_wins :
  match reversedThunk example_db ($"r") with
  | Done (Some e) => Some (str_at (m_arenas example_db) (r_fileName e))
  | _ => None
  end = Some ($"f1").
Proof. vm_compute. reflexivity. Qed.

Lemma example_db_ok : db_wf example_db ∧ db_indexed example_db.
Proof.
  destruct (load_steps example_open example_parse db_empty ($"db") example_vars)
    as (db' & ok & Hl & Hwf & Hix & _).
  unfold example_db. rewrite Hl. done.
Qed.

Lemma thunk_lookup_witness :
  db_indexed example_db ∧
  forwardThunk example_db ($"a") = Done (m_forwardThunks example_db !! 1).
Proof.
  split; [apply example_db_ok|].
  rewrite (proj1 (thunk_lookup example_db ($"a") (proj2 example_db_ok))).
  vm_compute. reflexivity.
Defined.

Lemma pack_stable_witness :
  ∃ db' ok, loadPack example_open example_parse example_db ($"db") ($"/p") ($"/q") ∅
            = Done (db', ok) ∧
    m_forwardThunks example_db `prefix_of` m_forwardThunks db'.
Proof.
  destruct (pack_stable example_open example_parse example_db ($"db") ($"/p") ($"/q") ∅
    (proj1 example_db_ok) (proj2 example_db_ok)) as (db' & ok & H & Hp & _).
  exists db', ok. done.
Defined.

Lemma pack_view_witness :
  ∃ db' ok, loadPack example_open example_parse example_db ($"db") ($"/p") ($"/q") ∅
            = Done (db', ok) ∧ db_wf db'.
Proof.
  destruct (pack_view example_open example_parse example_db ($"db") ($"/p") ($"/q") ∅
    (proj1 example_db_ok)) as (db' & ok & H & Hp & _).
  exists db', ok. done.
Defined.
