(* ===== verification/Protocol.v ===== *)
(** The wire protocol of the DLCall bridge ([include/lorelei/DLCall/Protocol.h]):
    request numbers, secondary operations, calling conventions and the two
    argument blocks.  A pointer is the integer of its address. *)

From S2P Require Import Prelude.

Definition DLCallSyscallNumber : Z := 4096.

Inductive DLCallRequestID : Type :=
  | DR_GetHostAttribute
  | DR_LoadLibrary
  | DR_GetProcAddress
  | DR_FreeLibrary
  | DR_GetLibraryError
  | DR_InvokeProc.

Inductive DLCallSecondaryID : Type :=
  | DS_InvokeFunction
  | DS_ResumeFunction
  | DS_LogMessage
  | DS_GetModulePath
  | DS_GetThunkInfo.

(** The enumerators' values, as they cross the boundary. *)
Definition request_number (r : DLCallRequestID) : Z :=
  match r with
  | DR_GetHostAttribute => 0 | DR_LoadLibrary => 1 | DR_GetProcAddress => 2
  | DR_FreeLibrary => 3 | DR_GetLibraryError => 4 | DR_InvokeProc => 5
  end.
Definition secondary_number (d : DLCallSecondaryID) : Z :=
  match d with
  | DS_InvokeFunction => 0 | DS_ResumeFunction => 1 | DS_LogMessage => 2
  | DS_GetModulePath => 3 | DS_GetThunkInfo => 4
  end.
Definition secondary_of_number (n : Z) : option DLCallSecondaryID :=
  match n with
  | 0 => Some DS_InvokeFunction | 1 => Some DS_ResumeFunction | 2 => Some DS_LogMessage
  | 3 => Some DS_GetModulePath | 4 => Some DS_GetThunkInfo | _ => None
  end%Z.

Lemma secondary_roundtrip d : secondary_of_number (secondary_number d) = Some d.
Proof. by destruct d. Qed.

Definition CC_Standard : Z := 0.
Definition CC_StandardCallback : Z := 1.
Definition CC_Format : Z := 2.
Definition CC_ThreadEntry : Z := 3.

Definition SC_Standard : Z := 0.
Definition SC_StandardCallback : Z := 1.
Definition SC_Format : Z := 2.
Definition SC_ThreadCreate : Z := 3.
Definition SC_ThreadExit : Z := 4.

(** [InvocationArguments]: [conv] selects the live member of the union. *)
Inductive InvocationArguments : Type :=
  | IA_standard (proc args ret metadata : Z)
  | IA_standardCallback (proc callback args ret metadata : Z)
  | IA_format (proc format args ret : Z)
  | IA_threadEntry (proc arg ret : Z)
  | IA_other (conv : Z).

(** [ReentryArguments]: the operands the convention uses. *)
Inductive ReentryArguments : Type :=
  | RA_standard (proc args ret metadata : Z)
  | RA_standardCallback (proc callback args ret metadata : Z)
  | RA_format (proc format args ret : Z)
  | RA_threadCreate (thread attr start_routine arg ret : Z)
  | RA_threadExit (ret : Z)
  | RA_other (conv : Z).

Definition ia_conv (ia : InvocationArguments) : Z :=
  match ia with
  | IA_standard _ _ _ _ => CC_Standard
  | IA_standardCallback _ _ _ _ _ => CC_StandardCallback
  | IA_format _ _ _ _ => CC_Format
  | IA_threadEntry _ _ _ => CC_ThreadEntry
  | IA_other conv => conv
  end.
Definition ra_conv (ra : ReentryArguments) : Z :=
  match ra with
  | RA_standard _ _ _ _ => SC_Standard
  | RA_standardCallback _ _ _ _ _ => SC_StandardCallback
  | RA_format _ _ _ _ => SC_Format
  | RA_threadCreate _ _ _ _ _ => SC_ThreadCreate
  | RA_threadExit _ => SC_ThreadExit
  | RA_other conv => conv
  end.

(** ** The argument blocks of the typed helpers

    [GuestClient::invoke*] and [HostServer::reenter*] fill a block, the fields of
    the chosen convention and no other, and hand it to [invokeFunction] and
    [reenter]. *)

Definition invokeStandard (proc args ret metadata : Z) : InvocationArguments :=
  IA_standard proc args ret metadata.
Definition invokeStandardCallback (proc callback args ret metadata : Z) : InvocationArguments :=
  IA_standardCallback proc callback args ret metadata.
Definition invokeFormat (proc format args ret : Z) : InvocationArguments :=
  IA_format proc format args ret.
Definition invokeThreadEntry (proc arg ret : Z) : InvocationArguments :=
  IA_threadEntry proc arg ret.

Definition reenterStandard (proc args ret metadata : Z) : ReentryArguments :=
  RA_standard proc args ret metadata.
Definition reenterStandardCallback (proc callback args ret metadata : Z) : ReentryArguments :=
  RA_standardCallback proc callback args ret metadata.
Definition reenterFormat (proc format args ret : Z) : ReentryArguments :=
  RA_format proc format args ret.
(** [ret] is the address of the local the helper returns. *)
Definition reenterThreadCreate (thread attr start_routine arg ret : Z) : ReentryArguments :=
  RA_threadCreate thread attr start_routine arg ret.
Definition reenterThreadExit (ret : Z) : ReentryArguments := RA_threadExit ret.
