(* ===== verification/Invocation.v ===== *)
(** Nested calls across the guest/host boundary
    ([src/utils/TinyCoroutine/Invocation.cpp], the dispatch of
    [LoreCommonHostEntry] and [invokeByConv] in
    [src/modules/HostRT/HostServer.cpp], and the driver loop
    [GuestClient::invokeFunction] of [src/modules/GuestRT/GuestClient.cpp]).

    A host function that calls back into the guest suspends its coroutine and
    hands the reentry to the guest's driver loop, which services it, possibly
    starting further host functions, and resumes it.  The machine keeps the
    thread's stack of suspended invocations, each with the address of its
    driver's [ra] variable and its saved context, the context a yield returns to
    ([mainHostState]), the [ra] variables of the live driver frames and the
    memory the two sides share.  What guest and host functions do is a
    parameter: a tree of the calls they make across the boundary. *)

From S2P Require Import Prelude Protocol.

Section machine.
Context {M : Type}.

(** A host computation: it returns a value, or suspends at a reentry with
    [used] bytes of its stack in use and continues on the memory it finds. *)
Inductive host : Type :=
  | HRet (m : M) (v : Z)
  | HReenter (used : Z) (m : M) (ra : ReentryArguments) (k : M → host).

(** A guest computation: it returns, ends its thread, or calls a host function. *)
Inductive guest : Type :=
  | GRet (m : M) (v : Z)
  | GExit (m : M) (v : Z)
  | GInvoke (m : M) (ia : InvocationArguments) (k : M → guest).

Fixpoint host_then (f : M → Z → M) (h : host) : host :=
  match h with
  | HRet m v => HRet (f m v) 0
  | HReenter used m ra k => HReenter used m ra (λ m, host_then f (k m))
  end.
Fixpoint guest_then (f : M → Z → M) (g : guest) : guest :=
  match g with
  | GRet m v => GRet (f m v) 0
  | GExit m v => GExit m v
  | GInvoke m ia k => GInvoke m ia (λ m, guest_then f (k m))
  end.

(** What the functions of each side do when they are called, how a format
    call proceeds, [pthread_create], a store through a pointer, and
    [fflush(nullptr)]. *)
Context (host_call : Z → list Z → M → host)
  (host_format : Z → Z → Z → Z → M → host)
  (guest_call : Z → list Z → M → guest)
  (guest_format : Z → Z → Z → Z → M → guest)
  (pthread_create : Z → Z → Z → M → guest)
  (store : M → Z → Z → M)
  (fflush : M → M).

(** [Invocation::invokeByConv]: an unknown convention calls nothing. *)
Definition invokeByConv (ia : InvocationArguments) (m : M) : host :=
  match ia with
  | IA_standard proc args ret metadata => host_call proc [args; ret; metadata] m
  | IA_standardCallback proc callback args ret metadata =>
      host_call proc [callback; args; ret; metadata] m
  | IA_format proc format args ret => host_format proc format args ret m
  | IA_threadEntry proc arg ret =>
      host_then (λ m v, store m ret v) (host_call proc [arg] m)
  | IA_other _ => HRet m (-1)
  end.

(** The [switch (ra->conv)] of the driver loop. *)
Definition service (ra : ReentryArguments) (m : M) : guest :=
  match ra with
  | RA_standard proc args ret metadata => guest_call proc [args; ret; metadata] m
  | RA_standardCallback proc callback args ret metadata =>
      guest_call proc [callback; args; ret; metadata] m
  | RA_format proc format args ret => guest_format proc format args ret m
  | RA_threadCreate thread attr start_routine arg ret =>
      guest_then (λ m rc, store m ret rc) (pthread_create attr start_routine arg m)
  | RA_threadExit ret => GExit m ret
  | RA_other _ => GRet m 0
  end.

(** ** The host's execution context *)

Record RegState : Type := MkRegState {
  reg_sp : Z;
  reg_cont : M → host;
}.

(** [ra_ptr] is the driver frame whose [ra] it points at; [hostState] points
    at a [RegState] that is unset until the first suspension; [stack_base] is
    where the coroutine's stack began. *)
Record InvocationInfo : Type := MkInvocationInfo {
  ra_ptr : nat;
  hostState : option RegState;
  stack_base : Z;
}.

Record Machine : Type := MkMachine {
  invocations : list InvocationInfo;
  mainHostState : option nat;
  ra_cells : list (option ReentryArguments);
  mem : M;
}.

(** [stackTop] and the number of [InvocationInfo]s the buffer holds. *)
Context (stackTop : Z) (capacity : nat).

Definition set_mem (s : Machine) (m : M) : Machine :=
  MkMachine (invocations s) (mainHostState s) (ra_cells s) m.

Definition lastInvocation (s : Machine) : run InvocationInfo :=
  defined (last (invocations s)).

Definition pushInvocation (s : Machine) (i : InvocationInfo) : run Machine :=
  if bool_decide (length (invocations s) < capacity) then
    Done (MkMachine (invocations s ++ [i]) (mainHostState s) (ra_cells s) (mem s))
  else Undef.

Definition popInvocation (s : Machine) : run Machine :=
  match invocations s with
  | [] => Undef
  | is_ => Done (MkMachine (take (length is_ - 1) is_) (mainHostState s) (ra_cells s) (mem s))
  end.

(** [*last.ra_ptr = ra] and the context switch that saves the suspended
    invocation's registers. *)
Definition suspend (s : Machine) (used : Z) (m : M) (ra : ReentryArguments)
    (k : M → host) : run Machine :=
  i ← lastInvocation s;
  if bool_decide (ra_ptr i < length (ra_cells s)) then
    let i' := MkInvocationInfo (ra_ptr i)
                (Some (MkRegState (stack_base i - used) k)) (stack_base i) in
    Done (MkMachine (<[length (invocations s) - 1 := i']> (invocations s))
            (mainHostState s) (<[ra_ptr i := Some ra]> (ra_cells s)) m)
  else Undef.

(** Run the coroutine until it finishes (0) or suspends at a reentry (1). *)
Definition run_coroutine (s : Machine) (h : host) : run (Machine * Z) :=
  match h with
  | HRet m _ => s' ← popInvocation (set_mem s m); Done (s', 0%Z)
  | HReenter used m ra k => s' ← suspend s used m ra k; Done (s', 1%Z)
  end.

(** A yield continues in the context saved in [mainHostState]; it has to be
    the one that started or resumed the coroutine. *)
Definition back_in (frame : nat) (r : Machine * Z) : run (Machine * Z) :=
  match mainHostState r.1 with
  | Some f => if bool_decide (f = frame) then Done r else Undef
  | None => Undef
  end.

Definition save_main (s : Machine) (frame : nat) : Machine :=
  MkMachine (invocations s) (Some frame) (ra_cells s) (mem s).

Definition align16 (sp : Z) : Z := (sp - sp mod 16)%Z.

(** [Invocation::invoke] and the [invocationEntry] it starts. *)
Definition invoke (s : Machine) (frame : nat) (ia : InvocationArguments) (ra_ptr : nat)
    : run (Machine * Z) :=
  stack ← (match last (invocations s) with
           | None => Done stackTop
           | Some i => r ← defined (hostState i); Done (align16 (reg_sp r))
           end);
  s1 ← pushInvocation (save_main s frame) (MkInvocationInfo ra_ptr None stack);
  r ← run_coroutine s1 (invokeByConv ia (mem s1));
  back_in frame r.

(** [Invocation::resume]. *)
Definition resume (s : Machine) (frame : nat) : run (Machine * Z) :=
  i ← lastInvocation s;
  r ← defined (hostState i);
  let s1 := save_main s frame in
  r ← run_coroutine s1 (reg_cont r (mem s1));
  back_in frame r.

(** The two cases of [LoreCommonHostEntry] that run host code. *)
Definition flush_if_done (r : Machine * Z) : Machine * Z :=
  if (r.2 =? 0)%Z then (set_mem r.1 (fflush (mem r.1)), r.2) else r.
Definition entry_InvokeFunction (s : Machine) (frame : nat) (ia : InvocationArguments)
    (ra_ptr : nat) : run (Machine * Z) :=
  r ← invoke s frame ia ra_ptr; Done (flush_if_done r).
Definition entry_ResumeFunction (s : Machine) (frame : nat) : run (Machine * Z) :=
  r ← resume s frame; Done (flush_if_done r).

(** ** The guest's driver loop *)

(** The frame of one [invokeFunction]: its local [ra], initially null. *)
Definition enter_frame (s : Machine) : Machine :=
  MkMachine (invocations s) (mainHostState s) (ra_cells s ++ [None]) (mem s).
Definition leave_frame (s : Machine) : Machine :=
  MkMachine (invocations s) (mainHostState s) (take (length (ra_cells s) - 1) (ra_cells s)) (mem s).

(** The flag tells that the thread ended inside. *)
Fixpoint invokeFunction (fuel : nat) (s : Machine) (ia : InvocationArguments)
    : run (Machine * bool) :=
  match fuel with
  | 0 => NoFuel
  | S fuel' =>
      let frame := length (ra_cells s) in
      r ← entry_InvokeFunction (enter_frame s) frame ia frame;
      drive fuel' frame r
  end
with drive (fuel : nat) (frame : nat) (r : Machine * Z) : run (Machine * bool) :=
  match fuel with
  | 0 => NoFuel
  | S fuel' =>
      let '(s, ret) := r in
      if (ret =? 0)%Z then Done (leave_frame s, false)
      else if (ret =? 1)%Z then
        match ra_cells s !! frame with
        | Some (Some ra) =>
            '(s, exited) ← run_guest fuel' (service ra (mem s)) s;
            if exited : bool then Done (s, true)
            else r ← entry_ResumeFunction s frame; drive fuel' frame r
        | _ => Undef
        end
      else Undef
  end
with run_guest (fuel : nat) (g : guest) (s : Machine) : run (Machine * bool) :=
  match fuel with
  | 0 => NoFuel
  | S fuel' =>
      match g with
      | GRet m _ => Done (set_mem s m, false)
      | GExit m _ => Done (set_mem s m, true)
      | GInvoke m ia k =>
          '(s, exited) ← invokeFunction fuel' (set_mem s m) ia;
          if exited : bool then Done (s, true) else run_guest fuel' (k (mem s)) s
      end
  end.

(** ** The reference semantics: nested calls *)

Inductive outcome : Type :=
  | Returned (m : M)
  | Exited (m : M).

(** A call across the boundary is a nested call: no coroutine, no stack of
    contexts, no [ra] variables; only the depth is bounded. *)
Fixpoint call_host (fuel depth : nat) (ia : InvocationArguments) (m : M) : run outcome :=
  match fuel with
  | 0 => NoFuel
  | S fuel' =>
      if bool_decide (depth < capacity) then eval_host fuel' (S depth) (invokeByConv ia m)
      else Undef
  end
with eval_host (fuel depth : nat) (h : host) : run outcome :=
  match fuel with
  | 0 => NoFuel
  | S fuel' =>
      match h with
      | HRet m _ => Done (Returned (fflush m))
      | HReenter _ m ra k =>
          o ← eval_guest fuel' depth (service ra m);
          match o with
          | Returned m => eval_host fuel' depth (k m)
          | Exited m => Done (Exited m)
          end
      end
  end
with eval_guest (fuel depth : nat) (g : guest) : run outcome :=
  match fuel with
  | 0 => NoFuel
  | S fuel' =>
      match g with
      | GRet m _ => Done (Returned m)
      | GExit m _ => Done (Exited m)
      | GInvoke m ia k =>
          o ← call_host fuel' depth ia m;
          match o with
          | Returned m => eval_guest fuel' depth (k m)
          | Exited m => Done (Exited m)
          end
      end
  end.

(** Every invocation on the stack is suspended: its context is saved. *)
Definition all_suspended (s : Machine) : Prop :=
  Forall (λ i, is_Some (hostState i)) (invocations s).

(** The machine's answer is the reference's, with the stack of invocations and
    the drivers' variables exactly as they were before the call. *)
Definition call_sim (s : Machine) (mach : run (Machine * bool)) (direct : run outcome)
    : Prop :=
  match direct with
  | Done (Returned m) =>
      ∃ s', mach = Done (s', false) ∧ invocations s' = invocations s ∧
            ra_cells s' = ra_cells s ∧ mem s' = m
  | Done (Exited m) => ∃ s', mach = Done (s', true) ∧ mem s' = m
  | Undef => mach = Undef
  | NoFuel => mach = NoFuel
  end.

Lemma call_sim_weaken s s' mach direct :
  invocations s = invocations s' → ra_cells s = ra_cells s' →
  call_sim s mach direct → call_sim s' mach direct.
Proof. unfold call_sim. intros -> ->. done. Qed.

(** The coroutine [h] on top of the stack of [s], driven by the frame whose
    variable is the last one. *)
Definition on_top (s sh : Machine) : Prop :=
  ∃ i c, invocations sh = invocations s ++ [i] ∧ ra_cells sh = ra_cells s ++ [c] ∧
         ra_ptr i = length (ra_cells s) ∧ mainHostState sh = Some (length (ra_cells s)).

Lemma take_snoc {A} (l : list A) x : take (length (l ++ [x]) - 1) (l ++ [x]) = l.
Proof. rewrite length_app. simpl. by rewrite Nat.add_sub, take_app_length. Qed.
Lemma insert_snoc {A} (l : list A) x y : <[length (l ++ [x]) - 1 := y]> (l ++ [x]) = l ++ [y].
Proof.
  rewrite length_app. simpl. rewrite Nat.add_sub, insert_app_r_alt by lia.
  by rewrite Nat.sub_diag.
Qed.

Lemma popInvocation_snoc s l i :
  invocations s = l ++ [i] →
  popInvocation s = Done (MkMachine l (mainHostState s) (ra_cells s) (mem s)).
Proof.
  intros Hi. unfold popInvocation. rewrite Hi. destruct (l ++ [i]) as [|x l'] eqn:E.
  - by destruct l.
  - by rewrite <- E, take_snoc.
Qed.

Lemma run_coroutine_ret s sh m v :
  on_top s sh →
  ∃ s1, run_coroutine sh (HRet m v) = Done (s1, 0%Z) ∧
        back_in (length (ra_cells s)) (s1, 0%Z) = Done (s1, 0%Z) ∧
        invocations s1 = invocations s ∧
        ra_cells (leave_frame s1) = ra_cells s ∧ mem s1 = m.
Proof.
  intros (i & c & Hi & Hc & Hp & Hm). cbn [run_coroutine].
  rewrite (popInvocation_snoc (set_mem sh m) (invocations s) i) by done.
  eexists. split_and!; [done| |done| |done].
  - unfold back_in. simpl. rewrite Hm. by rewrite bool_decide_true.
  - simpl. rewrite Hc. apply take_snoc.
Qed.

Lemma run_coroutine_reenter s sh used m ra k :
  on_top s sh →
  ∃ s1 i, run_coroutine sh (HReenter used m ra k) = Done (s1, 1%Z) ∧
    back_in (length (ra_cells s)) (s1, 1%Z) = Done (s1, 1%Z) ∧
    invocations s1 = invocations s ++ [i] ∧
    hostState i = Some (MkRegState (stack_base i - used) k) ∧
    ra_ptr i = length (ra_cells s) ∧
    ra_cells s1 = ra_cells s ++ [Some ra] ∧ mem s1 = m.
Proof.
  intros (i & c & Hi & Hc & Hp & Hm). simpl. unfold suspend, lastInvocation.
  rewrite Hi, last_snoc. simpl. rewrite Hc, Hp, length_app. simpl.
  rewrite bool_decide_true by lia. simpl. eexists _, _. split_and!; [done| | | | | |done].
  - unfold back_in. simpl. rewrite Hm. by rewrite bool_decide_true.
  - simpl. rewrite insert_snoc. done.
  - done.
  - done.
  - simpl. rewrite insert_app_r_alt by lia. by rewrite Nat.sub_diag.
Qed.

Lemma machine_simulates fuel :
  (∀ s ia, all_suspended s →
     call_sim s (invokeFunction fuel s ia) (call_host fuel (length (invocations s)) ia (mem s))) ∧
  (∀ s sh h, all_suspended s → on_top s sh →
     call_sim s
       (r ← run_coroutine sh h; r ← back_in (length (ra_cells s)) r;
        drive fuel (length (ra_cells s)) (flush_if_done r))
       (eval_host fuel (S (length (invocations s))) h)) ∧
  (∀ s g, all_suspended s →
     call_sim s (run_guest fuel g s) (eval_guest fuel (length (invocations s)) g)).
Proof.
  induction fuel as [|fuel (IHc & IHh & IHg)].
  { split_and!; [done| |done]. intros s sh h Hs Ht. simpl. destruct h.
    - destruct (run_coroutine_ret s sh m v Ht) as (s1 & -> & H & _). cbn [mbind run_bind].
      by rewrite H.
    - destruct (run_coroutine_reenter s sh used m ra k Ht) as (s1 & i & -> & H & _).
      cbn [mbind run_bind]. by rewrite H. }
  split_and!.
  - intros s ia Hs. cbn [invokeFunction call_host].
    unfold entry_InvokeFunction, invoke. cbn [invocations enter_frame].
    assert (∃ b, (match last (invocations s) with
                  | None => Done stackTop
                  | Some i => r ← defined (hostState i); Done (align16 (reg_sp r))
                  end) = Done b) as [b ->].
    { destruct (last (invocations s)) as [i|] eqn:El; [|by eexists].
      apply last_Some in El as [l El]. unfold all_suspended in Hs. rewrite El in Hs.
      apply Forall_app in Hs as [_ Hs]. apply Forall_singleton in Hs as [r ->].
      by eexists. }
    cbn [mbind run_bind]. unfold pushInvocation. cbn [invocations enter_frame save_main].
    destruct (bool_decide_reflect (length (invocations s) < capacity)) as [Hcap|Hcap];
      [|done]. cbn [mbind run_bind mem].
    rewrite !run_bind_assoc. apply IHh; [done|].
    by eexists _, _.
  - intros s sh h Hs Ht. cbn [eval_host]. destruct h as [m v|used m ra k].
    + destruct (run_coroutine_ret s sh m v Ht) as (s1 & -> & Hb & Hi & Hc & Hm).
      cbn [mbind run_bind]. rewrite Hb. cbn [mbind run_bind flush_if_done fst snd].
      cbn [drive Z.eqb]. eexists. split_and!; [done|done|done|]. cbn. by rewrite Hm.
    + destruct (run_coroutine_reenter s sh used m ra k Ht)
        as (s1 & i & -> & Hb & Hi & Hh & Hp & Hc & Hm).
      cbn [mbind run_bind]. rewrite Hb. cbn [mbind run_bind].
      change (flush_if_done (s1, 1%Z)) with (s1, 1%Z).
      cbn [drive Z.eqb Pos.eqb]. rewrite Hc, lookup_app_r, Nat.sub_diag by lia. cbn [lookup list_lookup].
      assert (all_suspended s1) as Hs1.
      { unfold all_suspended. rewrite Hi. apply Forall_app. split; [done|].
        apply Forall_singleton. by rewrite Hh. }
      specialize (IHg s1 (service ra (mem s1)) Hs1).
      rewrite Hi, length_app, Nat.add_1_r, Hm in IHg. rewrite Hm.
      destruct (eval_guest fuel _ _) as [[m'|m']| |]; unfold call_sim in IHg;
        cbn [mbind run_bind].
      * destruct IHg as (s2 & -> & Hi2 & Hc2 & <-). cbn [mbind run_bind].
        unfold entry_ResumeFunction, resume, lastInvocation. rewrite Hi2, Hi, last_snoc.
        cbn [defined mbind run_bind]. rewrite Hh. cbn [defined mbind run_bind reg_cont].
        rewrite !run_bind_assoc. apply IHh; [done|]. exists i, (Some ra).
        cbn. by rewrite Hi2, Hi, Hc2, Hc.
      * destruct IHg as (s2 & -> & Hm2). by exists s2.
      * by rewrite IHg.
      * by rewrite IHg.
  - intros s g Hs. cbn [run_guest eval_guest]. destruct g as [m v|m v|m ia k].
    + by exists (set_mem s m).
    + by exists (set_mem s m).
    + specialize (IHc (set_mem s m) ia Hs). cbn [invocations set_mem mem] in IHc.
      destruct (call_host fuel (length (invocations s)) ia m) as [[m'|m']| |];
        unfold call_sim in IHc; cbn [mbind run_bind].
      * destruct IHc as (s' & -> & Hi & Hc & Hm). cbn [mbind run_bind].
        change (invocations (set_mem s m)) with (invocations s) in Hi.
        change (ra_cells (set_mem s m)) with (ra_cells s) in Hc. rewrite Hm.
        eapply call_sim_weaken; [exact Hi|exact Hc|]. rewrite <- Hi.
        apply IHg. unfold all_suspended. by rewrite Hi.
      * destruct IHc as (s' & -> & Hm). by exists s'.
      * by rewrite IHc.
      * by rewrite IHc.
Qed.

(** C1: the bridge's call protocol is nested calls.  From any state of the
    thread in which every earlier invocation is suspended, driving a host
    function with [invokeFunction], through coroutines, the stack of
    invocations, [ra] variables and resumes, gives the result of calling it
    directly, to any depth of calls back and forth: same memory, same end of
    thread, same failure when the invocation buffer is full, same divergence;
    and it leaves the suspended invocations and the outer drivers' variables
    as they were. *)
Theorem nested_calls fuel s ia :
  all_suspended s →
  call_sim s (invokeFunction fuel s ia) (call_host fuel (length (invocations s)) ia (mem s)).
Proof. intros Hs. by apply machine_simulates. Qed.

(** ** The coroutine stacks *)

(** The stack a host computation uses is never negative. *)
Inductive frugal : host → Prop :=
  | frugal_ret m v : frugal (HRet m v)
  | frugal_reenter used m ra k :
      (0 <= used)%Z → (∀ m, frugal (k m)) → frugal (HReenter used m ra k).

(** The stacks of the suspended invocations lie below each other: each begins
    at or below the saved stack pointer of the one before it. *)
Fixpoint stacks_ordered (top : Z) (l : list InvocationInfo) : Prop :=
  match l with
  | [] => True
  | i :: l' =>
      ∃ r, hostState i = Some r ∧ (stack_base i <= top)%Z ∧ (reg_sp r <= stack_base i)%Z ∧
           (∀ m, frugal (reg_cont r m)) ∧ stacks_ordered (reg_sp r) l'
  end.

(** The lowest address in use: the saved pointer of the last invocation. *)
Fixpoint stacks_low (top : Z) (l : list InvocationInfo) : Z :=
  match l with
  | [] => top
  | i :: l' => stacks_low (match hostState i with Some r => reg_sp r | None => top end) l'
  end.

Lemma stacks_ordered_snoc l i : ∀ top,
  stacks_ordered top (l ++ [i]) ↔
  stacks_ordered top l ∧
  ∃ r, hostState i = Some r ∧ (stack_base i <= stacks_low top l)%Z ∧
       (reg_sp r <= stack_base i)%Z ∧ (∀ m, frugal (reg_cont r m)).
Proof.
  clear host_call host_format guest_call guest_format pthread_create store fflush.
  induction l as [|x l IH]; intros top; cbn [app stacks_ordered stacks_low].
  - naive_solver.
  - split.
    + intros (r & Hr & ? & ? & ? & H). rewrite Hr. apply IH in H as [? ?]. eauto 10.
    + intros [(r & Hr & ? & ? & ? & H) Hi]. rewrite Hr in Hi. exists r.
      split_and!; [done..|]. apply IH. done.
Qed.

Lemma stacks_low_last l i r : ∀ top,
  hostState i = Some r → stacks_low top (l ++ [i]) = reg_sp r.
Proof.
  induction l as [|x l IH]; intros top Hi; cbn [app stacks_low]; [by rewrite Hi|].
  by apply IH.
Qed.

Lemma align16_le sp : (align16 sp <= sp)%Z.
Proof. unfold align16. pose proof (Z.mod_pos_bound sp 16). lia. Qed.

Lemma run_coroutine_stacks l i sh h s' ret :
  invocations sh = l ++ [i] → stacks_ordered stackTop l →
  (stack_base i <= stacks_low stackTop l)%Z → frugal h →
  run_coroutine sh h = Done (s', ret) → stacks_ordered stackTop (invocations s').
Proof.
  intros Hi Hl Hb Hh Hrun. destruct Hh as [m v|used m ra k Hu Hk]; cbn [run_coroutine] in Hrun.
  - rewrite (popInvocation_snoc (set_mem sh m) l i) in Hrun by done.
    cbn in Hrun. by simplify_eq.
  - unfold suspend, lastInvocation in Hrun. rewrite Hi, last_snoc in Hrun.
    cbn [defined mbind run_bind] in Hrun.
    destruct (bool_decide _); [|done]. cbn [mbind run_bind] in Hrun. simplify_eq.
    cbn [invocations]. rewrite insert_snoc. apply stacks_ordered_snoc. split; [done|].
    eexists. split_and!; [done|done| |done]. cbn. lia.
Qed.

Lemma stacks_ordered_app_inv l i top :
  stacks_ordered top (l ++ [i]) → ∃ r, hostState i = Some r ∧ ∀ m, frugal (reg_cont r m).
Proof. intros [_ (r & ? & _ & _ & ?)]%stacks_ordered_snoc. by exists r. Qed.

(** C7: no two live coroutines share stack space.  Starting an invocation
    begins its stack at or below the saved stack pointer of the one it
    suspended, resuming continues on the stack it had, and both keep the
    stacks of all live invocations below one another. *)
Theorem coroutine_stacks s frame :
  stacks_ordered stackTop (invocations s) →
  (∀ ia ra_ptr s' ret, frugal (invokeByConv ia (mem s)) →
     invoke s frame ia ra_ptr = Done (s', ret) → stacks_ordered stackTop (invocations s')) ∧
  (∀ s' ret, resume s frame = Done (s', ret) → stacks_ordered stackTop (invocations s')).
Proof.
  intros Hs. split.
  - intros ia p s' ret Hf H. unfold invoke in H.
    destruct (match last (invocations s) with
              | Some _ => _ | None => _ end) as [b| |] eqn:Eb; cbn [mbind run_bind] in H;
      [|done|done].
    unfold pushInvocation in H. destruct (bool_decide _); [|done].
    cbn [mbind run_bind] in H. destruct (run_coroutine _ _) as [[s1 r1]| |] eqn:Er;
      cbn [mbind run_bind] in H; [|done|done].
    unfold back_in in H. cbn [fst] in H. destruct (mainHostState s1); [|done].
    destruct (bool_decide _); [|done]. simplify_eq.
    apply (run_coroutine_stacks (invocations s) (MkInvocationInfo p None b) _ _ s' ret)
      in Er; [done|done|done| |exact Hf]. cbn [stack_base].
    destruct (last (invocations s)) as [i|] eqn:El.
    + apply last_Some in El as [l El]. rewrite El in *.
      destruct (stacks_ordered_app_inv _ _ _ Hs) as (r & Hr & _). rewrite Hr in Eb.
      cbn in Eb. simplify_eq. rewrite (stacks_low_last _ _ r) by done. apply align16_le.
    + apply last_None in El. rewrite El. cbn. by simplify_eq.
  - intros s' ret H. unfold resume, lastInvocation in H.
    destruct (last (invocations s)) as [i|] eqn:El; [|done].
    apply last_Some in El as [l El]. rewrite El in Hs.
    pose proof Hs as (Hl & r & Hr & Hb & Hsp & Hk)%stacks_ordered_snoc.
    cbn [defined mbind run_bind] in H. rewrite Hr in H. cbn [defined mbind run_bind] in H.
    destruct (run_coroutine _ _) as [[s1 r1]| |] eqn:Er;
      cbn [mbind run_bind] in H; [|done|done].
    unfold back_in in H. cbn [fst] in H. destruct (mainHostState s1); [|done].
    destruct (bool_decide _); [|done]. simplify_eq.
    apply (run_coroutine_stacks l i _ _ s' ret) in Er; [done|exact El|exact Hl|exact Hb|].
    apply Hk.
Qed.
End machine.
Arguments host : clear implicits.
Arguments guest : clear implicits.
Arguments RegState : clear implicits.
Arguments InvocationInfo : clear implicits.
Arguments Machine : clear implicits.

(** ** An instance: a memory that logs what runs *)

Definition log_host (proc : Z) (args : list Z) (m : list Z) : host (list Z) :=
  match proc with
  | 1 => HReenter 64 (m ++ [1]) (RA_standard 10 0 0 0)
           (λ m, HReenter 32 (m ++ [2]) (RA_standard 11 0 0 0) (λ m, HRet (m ++ [3]) 0))
  | 5 => HReenter 100 (m ++ [5]) (RA_standard 11 0 0 0) (λ m, HRet (m ++ [6]) 0)
  | _ => HRet (m ++ [proc]) 0
  end%Z.
Definition log_guest (proc : Z) (args : list Z) (m : list Z) : guest (list Z) :=
  match proc with
  | 10 => GInvoke (m ++ [10]) (IA_standard 5 0 0 0) (λ m, GRet (m ++ [19]) 0)
  | _ => GRet (m ++ [proc]) 0
  end%Z.
Definition log_start (m : list Z) : Machine (list Z) := MkMachine [] None [] m.

Abbreviation log_invoke := (invokeFunction log_host (λ _ _ _ _ m, HRet m 0) log_guest
  (λ _ _ _ _ m, GRet m 0) (λ _ _ _ m, GRet m 0) (λ m _ _, m) (λ m, m ++ [0%Z]) 4096 8).
Abbreviation log_direct := (call_host log_host (λ _ _ _ _ m, HRet m 0) log_guest
  (λ _ _ _ _ m, GRet m 0) (λ _ _ _ m, GRet m 0) (λ m _ _, m) (λ m, m ++ [0%Z]) 8).

Lemma nested_calls_witness :
  log_direct 20 0 (IA_standard 1 0 0 0) [] = Done (Returned [1; 10; 5; 11; 6; 0; 19; 2; 11; 3; 0]%Z) ∧
  ∃ s', log_invoke 20 (log_start []) (IA_standard 1 0 0 0) = Done (s', false) ∧
        invocations s' = [] ∧ ra_cells s' = [] ∧
        mem s' = [1; 10; 5; 11; 6; 0; 19; 2; 11; 3; 0]%Z.
Proof.
  split; [vm_compute; reflexivity|].
  exact (nested_calls log_host (λ _ _ _ _ m, HRet m 0) log_guest (λ _ _ _ _ m, GRet m 0)
    (λ _ _ _ m, GRet m 0) (λ m _ _, m) (λ m, m ++ [0%Z]) 4096 8 20 (log_start [])
    (IA_standard 1 0 0 0) (Forall_nil_2 _)).
Defined.

Definition example_invoke (s : Machine (list Z)) (frame p : nat) :
    run (Machine (list Z) * Z) :=
  invoke log_host (λ _ _ _ _ m, HRet m 0) (λ m _ _, m) 4096 8 s frame (IA_standard 5 0 0 0) p.

Definition state_of (r : run (Machine (list Z) * Z)) : Machine (list Z) :=
  match r with Done (s, _) => s | _ => MkMachine [] None [] [] end.

Lemma coroutine_stacks_witness :
  let s0 := MkMachine [] None [None; None] [] in
  let s1 := state_of (example_invoke s0 0 0) in
  let s2 := state_of (example_invoke s1 1 1) in
  length (invocations s2) = 2 ∧ stacks_ordered 4096 (invocations s1) ∧
  stacks_ordered 4096 (invocations s2).
Proof.
  assert (Hf : ∀ m, frugal (invokeByConv log_host (λ _ _ _ _ m, HRet m 0) (λ m _ _, m)
                              (IA_standard 5 0 0 0) m)).
  { intros m. constructor; [lia|]. intros m'. constructor. }
  assert (Hstep : ∀ s frame p r, stacks_ordered 4096 (invocations s) →
            example_invoke s frame p = Done (state_of (example_invoke s frame p), r) →
            stacks_ordered 4096 (invocations (state_of (example_invoke s frame p)))).
  { intros s frame p r Hs.
    apply (proj1 (coroutine_stacks log_host (λ _ _ _ _ m, HRet m 0) (λ m _ _, m) 4096 8
                    s frame Hs)). apply Hf. }
  intros s0 s1 s2.
  assert (H1 : stacks_ordered 4096 (invocations s1)).
  { apply (Hstep s0 0 0 1%Z); [exact I|reflexivity]. }
  split; [reflexivity|]. split; [exact H1|].
  apply (Hstep s1 1 1 1%Z); [exact H1|reflexivity].
Defined.
