(* ===== verification/NextLibrary.v ===== *)
(** Library names: the next library a thunk loads
    ([src/utils/RuntimeUtils/NextLibrary.cpp]) and the thunk name that keys the
    database, computed by two copies of the same code, one into a fixed buffer
    ([src/modules/HostRT/HostServer.cpp]) and one into a string
    ([src/modules/HostRT/HostThunkContext.cpp]).  A path is a C string: it holds
    no NUL. *)

From S2P Require Import Prelude CppString FsPath.

Definition PATH_MAX : nat := 4096.

(** [std::strrchr(path, '/')] and one past it. *)
Definition pathGetName (path : str) : str := filename path.

(** The scan for the rightmost [".so"] of the base name, ignoring case. *)
Definition rfind_so (name : str) : option nat := rfind ($".so") (tolower <$> name).

(** [HostThunkContext.cpp]: the result is a string. *)
Definition getLibraryName (path : str) : str :=
  let start := pathGetName path in
  match rfind_so start with
  | Some end_ => take end_ start
  | None => start
  end.

Definition strip_htl (name : str) : str :=
  if ends_with name ($"_HTL") then take (length name - 4) name else name.

Definition normalizeThunkName (modulePath : option str) : str :=
  strip_htl (getLibraryName (default [] modulePath)).

(** [HostServer.cpp]: the name is copied into a [PATH_MAX] buffer, with a NUL
    after it; nothing bounds the copy. *)
Definition getLibraryName_buffer (size : nat) (path : str) : run str :=
  let name := getLibraryName path in
  if bool_decide (length name + 1 <= size) then Done (name ++ [c_nul]) else Undef.

Definition thunkNameOf (path : option str) : run str :=
  nameBuf ← getLibraryName_buffer PATH_MAX (default [] path);
  Done (strip_htl (c_str nameBuf)).

Definition resolveNextLibrary (next : str) (ownPath : option str) : str :=
  match find_char slash next with
  | None => next
  | Some _ =>
      if starts_with_char next slash then next
      else
        let dir := default [] ownPath in
        let dir := match rfind_char slash dir with
                   | None => $"."
                   | Some slash => take slash dir
                   end in
        dir ++ $"/" ++ next
  end.

Definition nextLibraryByName (ownPath : option str) (hostThunk : bool) : str :=
  let base := default [] ownPath in
  let base := match rfind_char slash base with
              | Some slash => drop (slash + 1) base
              | None => base
              end in
  let base := match rfind ($".so") base with Some so => take so base | None => base end in
  if hostThunk then
    (if ends_with base ($"_HTL") then take (length base - 4) base else base) ++ $".so"
  else base ++ $"_HTL.so".

Example nextLibrary_ex :
  nextLibraryByName (Some ($"/a/libz.so.1")) false = $"libz_HTL.so" ∧
  nextLibraryByName (Some ($"/a/libz_HTL.so")) true = $"libz.so" ∧
  thunkNameOf (Some ($"/a/libz.SO.1")) = Done ($"libz") ∧
  resolveNextLibrary ($"../x.so") (Some ($"/a/b.so")) = $"/a/../x.so".
Proof. by split_and!; vm_compute. Qed.

(** ** Lemmas *)

Lemma rfind_None pat s j : rfind pat s = None → j ≤ length s → ¬ pat `prefix_of` drop j s.
Proof.
  revert j. induction s as [|c s IH]; intros j; cbn [rfind].
  - destruct (prefixb pat []) eqn:E; [done|]. intros _ Hj. simpl in Hj.
    replace j with 0 by lia. intros Hp%prefixb_spec. simpl in Hp. congruence.
  - destruct (rfind pat s) eqn:Er; [done|]. destruct (prefixb pat (c :: s)) eqn:E; [done|].
    intros _ Hj. destruct j as [|j]; simpl.
    + intros Hp%prefixb_spec. congruence.
    + apply IH; [done|]. simpl in Hj. lia.
Qed.

Lemma rfind_at pat l r :
  (∀ j, 0 < j → j ≤ length (pat ++ r) → ¬ pat `prefix_of` drop j (pat ++ r)) →
  rfind pat (l ++ pat ++ r) = Some (length l).
Proof.
  intros Hlast. induction l as [|c l IH].
  - cbn [app length]. destruct (rfind pat (pat ++ r)) as [i|] eqn:E.
    + apply rfind_Some_lookup in E as [Hi Hp]. destruct i as [|i]; [done|].
      exfalso. by apply (Hlast (S i)); [lia|..].
    + exfalso. apply (rfind_None _ _ 0 E); [lia|]. by exists r.
  - cbn [app rfind]. by rewrite IH.
Qed.

Lemma dot_so_last r (j : nat) :
  rfind ($".so") r = None → 0 < j → j ≤ length ($".so" ++ r) →
  ¬ $".so" `prefix_of` drop j ($".so" ++ r).
Proof.
  intros Hr Hj Hl. destruct j as [|[|[|j]]]; [lia| | |]; cbn [drop app list_ascii_of_string].
  - intros [k Hk]. done.
  - intros [k Hk]. done.
  - apply (rfind_None _ _ j Hr). simpl in Hl. lia.
Qed.

Lemma filename_slash d n : slash ∉ n → filename (d ++ slash :: n) = n.
Proof.
  intros Hn. unfold filename. rewrite rfind_char_app by done.
  rewrite drop_app_ge by lia. by replace (S (length d) - length d) with 1 by lia.
Qed.

Lemma filename_plain n : slash ∉ n → filename n = n.
Proof. intros Hn. unfold filename. apply rfind_char_None in Hn. by rewrite Hn. Qed.

(** A path whose last component is [n]. *)
Inductive path_to (n : str) : str → Prop :=
  | path_bare : path_to n n
  | path_dir d : path_to n (d ++ slash :: n).

Lemma path_to_filename n p : slash ∉ n → path_to n p → filename p = n.
Proof. intros Hn [|d]; [by apply filename_plain|by apply filename_slash]. Qed.

Lemma lower_dot_so : tolower <$> $".so" = $".so".
Proof. reflexivity. Qed.

(** A library file name: the name, [".so"], and a version that has no other. *)
Record lib_name (name version : str) : Prop := {
  ln_slash : slash ∉ name ++ version;
  ln_version : rfind_so version = None;
  ln_htl : ends_with name ($"_HTL") = false;
}.

Lemma slash_so name version :
  slash ∉ name ++ version → slash ∉ name ++ $".so" ++ version.
Proof.
  rewrite !not_elem_of_app. intros [? ?]. split_and!; [done| |done].
  apply (bool_decide_unpack _). by vm_compute.
Qed.

Lemma getLibraryName_so p name version :
  slash ∉ name ++ version → rfind_so version = None → path_to (name ++ $".so" ++ version) p →
  getLibraryName p = name.
Proof.
  intros Hs Hv Hp. unfold getLibraryName, pathGetName.
  rewrite (path_to_filename (name ++ $".so" ++ version)); [|by apply slash_so|done].
  unfold rfind_so in *. rewrite !fmap_app, lower_dot_so.
  rewrite rfind_at by (intros j; by apply dot_so_last).
  rewrite length_fmap. by rewrite take_app_length.
Qed.

Lemma strip_htl_id name : ends_with name ($"_HTL") = false → strip_htl name = name.
Proof. unfold strip_htl. by intros ->. Qed.

Lemma ends_with_app name t : ends_with (name ++ t) t = true.
Proof. apply ends_with_spec. by exists name. Qed.

Lemma strip_htl_app name : strip_htl (name ++ $"_HTL") = name.
Proof.
  unfold strip_htl. rewrite ends_with_app, length_app.
  replace (length name + length ($"_HTL") - 4) with (length name) by (simpl; lia).
  by rewrite take_app_length.
Qed.

(** ** Properties *)

(** The two implementations of the database key agree wherever the one that
    uses a fixed buffer is defined: a library name that fits the buffer; a
    longer one overruns it. *)
Theorem thunk_name_copies p :
  no_nul (default [] p) →
  thunkNameOf p =
    if bool_decide (length (getLibraryName (default [] p)) < PATH_MAX)
    then Done (normalizeThunkName p) else Undef.
Proof.
  intros Hn. unfold thunkNameOf, getLibraryName_buffer, normalizeThunkName.
  set (name := getLibraryName (default [] p)).
  assert (no_nul name) as Hname.
  { assert (∀ c, c ∈ name → c ∈ default [] p) as Hsub.
    { intros c. unfold name, getLibraryName, pathGetName, filename.
      assert (∀ n (s : str), c ∈ drop n s → c ∈ s) as Hd.
      { intros n s Hc. rewrite <- (take_drop n s). apply elem_of_app. by right. }
      assert (∀ n (s : str), c ∈ take n s → c ∈ s) as Ht.
      { intros n s Hc. rewrite <- (take_drop n s). apply elem_of_app. by left. }
      repeat case_match; eauto. }
    intros Hc. apply Hn, Hsub, Hc. }
  destruct (decide (length name < PATH_MAX)) as [Hlt|Hge].
  - rewrite !bool_decide_true by lia. cbn [mbind run_bind]. do 2 f_equal.
    clear -Hname. unfold no_nul in Hname. induction name as [|c name IH]; [reflexivity|].
    apply not_elem_of_cons in Hname as [Hc Hname]. cbn [app c_str].
    apply not_eq_sym, Ascii.eqb_neq in Hc. rewrite Hc. by rewrite IH.
  - by rewrite !bool_decide_false by lia.
Qed.

Lemma thunk_name_copies_witness :
  thunkNameOf (Some ($"/usr/lib/libz_HTL.so"))
  = Done (normalizeThunkName (Some ($"/usr/lib/libz_HTL.so"))).
Proof.
  apply (thunk_name_copies (Some ($"/usr/lib/libz_HTL.so"))).
  apply (bool_decide_unpack _). by vm_compute.
Defined.

(** Guest thunk and host thunk of a library share one database key: the
    guest thunk's file, with any version after [".so"], and the host thunk's
    file give the library's name, wherever the two files lie. *)
Theorem thunk_key_agrees name version p q :
  lib_name name version →
  path_to (name ++ $".so" ++ version) p → path_to ((name ++ $"_HTL") ++ $".so") q →
  normalizeThunkName (Some p) = name ∧ normalizeThunkName (Some q) = name.
Proof.
  intros [Hs Hv Hh] Hp Hq. unfold normalizeThunkName.
  change (default [] (Some p)) with p. change (default [] (Some q)) with q. split.
  - rewrite (getLibraryName_so p name version) by done. by apply strip_htl_id.
  - rewrite (getLibraryName_so q (name ++ $"_HTL") []).
    + apply strip_htl_app.
    + rewrite app_nil_r, not_elem_of_app. rewrite not_elem_of_app in Hs.
      split; [by apply Hs|]. apply (bool_decide_unpack _). by vm_compute.
    + reflexivity.
    + by rewrite app_nil_r.
Qed.

Lemma thunk_key_agrees_witness :
  normalizeThunkName (Some ($"/g/libz.so.1")) = $"libz" ∧
  normalizeThunkName (Some ($"libz_HTL.so")) = $"libz".
Proof.
  apply (thunk_key_agrees ($"libz") ($".1") ($"/g/libz.so.1") ($"libz_HTL.so")).
  - split; [apply (bool_decide_unpack _); by vm_compute|reflexivity|reflexivity].
  - apply (path_dir _ ($"/g")).
  - apply path_bare.
Defined.

Lemma nextLibraryByName_base p name version h :
  slash ∉ name ++ version → rfind ($".so") version = None →
  path_to (name ++ $".so" ++ version) p →
  nextLibraryByName (Some p) h
  = if h then strip_htl name ++ $".so" else name ++ $"_HTL.so".
Proof.
  intros Hs Hv Hp. unfold nextLibraryByName.
  change (default [] (Some p)) with p.
  assert (match rfind_char slash p with
          | Some slash => drop (slash + 1) p | None => p end = filename p) as ->.
  { unfold filename. destruct (rfind_char slash p); [by rewrite Nat.add_1_r|done]. }
  rewrite (path_to_filename (name ++ $".so" ++ version)); [|by apply slash_so|done].
  rewrite rfind_at by (intros j; by apply dot_so_last).
  by rewrite take_app_length.
Qed.

(** The naming convention round trips: the host thunk that a guest thunk
    loads by name, in whatever directory it is found, loads by name the library
    the guest thunk stands for. *)
Theorem next_library_roundtrip name version p q :
  slash ∉ name ++ version → rfind ($".so") version = None →
  path_to (name ++ $".so" ++ version) p →
  path_to (nextLibraryByName (Some p) false) q →
  nextLibraryByName (Some q) true = name ++ $".so".
Proof.
  intros Hs Hv Hp Hq. rewrite (nextLibraryByName_base p name version) in Hq by done.
  rewrite (nextLibraryByName_base q (name ++ $"_HTL") []).
  - by rewrite strip_htl_app.
  - rewrite app_nil_r, not_elem_of_app. rewrite not_elem_of_app in Hs.
    split; [by apply Hs|]. apply (bool_decide_unpack _). by vm_compute.
  - reflexivity.
  - by rewrite app_nil_r, <- app_assoc.
Qed.

Lemma next_library_roundtrip_witness :
  nextLibraryByName (Some ($"/h/libz_HTL.so")) true = $"libz.so".
Proof.
  apply (next_library_roundtrip ($"libz") ($".1") ($"libz.so.1") ($"/h/libz_HTL.so")).
  - apply (bool_decide_unpack _). by vm_compute.
  - reflexivity.
  - apply path_bare.
  - apply (path_dir _ ($"/h")).
Defined.

(** A relative next library is found beside the thunk that names it; a bare
    name and an absolute path are left to the dynamic linker as they are. *)
Theorem resolve_next_library next dir file :
  slash ∉ file →
  resolveNextLibrary next (Some (dir ++ slash :: file)) =
    if bool_decide (slash ∈ next) then
      if is_absolute next then next else dir ++ slash :: next
    else next.
Proof.
  intros Hf. unfold resolveNextLibrary, is_absolute.
  destruct (find_char slash next) as [i|] eqn:E.
  - assert (slash ∈ next) as Hin.
    { destruct (decide (slash ∈ next)) as [|Hn]; [done|].
      apply find_char_None in Hn. congruence. }
    rewrite bool_decide_true by done. destruct (starts_with_char next slash); [done|].
    change (default [] (Some (dir ++ slash :: file))) with (dir ++ slash :: file).
    by rewrite rfind_char_app, take_app_length.
  - apply find_char_None in E. by rewrite bool_decide_false.
Qed.

Lemma resolve_next_library_witness :
  resolveNextLibrary ($"../h/x.so") (Some ($"/a/b" ++ slash :: $"t.so")) = $"/a/b/../h/x.so".
Proof.
  rewrite (resolve_next_library ($"../h/x.so") ($"/a/b") ($"t.so"));
    [reflexivity|]. apply (bool_decide_unpack _). by vm_compute.
Defined.
