(* ===== verification/HostServer.v ===== *)
(** The host runtime's server ([src/modules/HostRT/HostServer.cpp]) and the
    start of the two thunk contexts ([src/modules/HostRT/HostThunkContext.cpp],
    [src/modules/GuestRT/GuestThunkContext.cpp]): thunk discovery, the lookup
    served to the guest, configuration variables
    ([src/modules/HostRT/main.cpp]), and the choice and loading of the next
    library.  The file system, the JSON parser, the environment and the dynamic
    linker are parameters; the test for the document of a pack may throw. *)

From S2P Require Import Prelude CppString Assoc Json FsPath StringExtras ThunkDatabase NextLibrary.

(** ** Thunk discovery *)

Record HostServer : Type := MkHostServer {
  m_thunkDatabase : ThunkDatabase;
  m_thunkVars : gmap str str;
  m_hostArch : str;
  m_thunkAutoDiscover : bool;
  m_loadedPackPrefixes : gset str;
}.

(** [CThunkInfo]: the live member of the union, or null. *)
Inductive CThunkInfo : Type :=
  | ThunkNull
  | ThunkForward (e : CForwardThunkInfo)
  | ThunkReversed (e : CReversedThunkInfo).

Definition with_db (s : HostServer) (db : ThunkDatabase) : HostServer :=
  MkHostServer db (m_thunkVars s) (m_hostArch s) (m_thunkAutoDiscover s)
    (m_loadedPackPrefixes s).
Definition with_prefix (s : HostServer) (p : str) : HostServer :=
  MkHostServer (m_thunkDatabase s) (m_thunkVars s) (m_hostArch s) (m_thunkAutoDiscover s)
    ({[p]} ∪ m_loadedPackPrefixes s).

(** A call answers or throws; what it has written before stays written. *)
Inductive Reply (A : Type) : Type :=
  | Replied (a : A)
  | Thrown.
Arguments Replied {A} _.
Arguments Thrown {A}.

Definition reply_map {A B} (f : A → B) (r : Reply A) : Reply B :=
  match r with Replied a => Replied (f a) | Thrown => Thrown end.

Section server.
(** [std::filesystem::exists]: [None] where the status of the file is an error, which the
    overload without an error code throws. *)
Context (fs_exists : str → option bool) (fs_open : str → option str).
Context (json_parse : str → Json * str).

(** A failed load of the override is only logged. *)
Definition configureThunkDiscovery (s : HostServer) (vars : gmap str str)
    (overridePath hostArch : str) (autoDiscover : bool) : run HostServer :=
  db ← (match overridePath with
        | [] => Done db_empty
        | _ => '(db, _) ← load fs_open json_parse db_empty overridePath vars; Done db
        end);
  Done (MkHostServer db vars hostArch autoDiscover (m_loadedPackPrefixes s)).

Definition pack_json (prefix : str) : str :=
  path_append (path_append (path_append prefix ($"share")) ($"lorelei")) ($"ThunkDB.json").
Definition pack_htl_dir (prefix arch : str) : str :=
  path_append (path_append prefix ($"lib")) (arch ++ $"-LoreHTL").

Definition resolveForwardThunk (s : HostServer) (guestThunkPath : option str) (name : str)
    : run (HostServer * Reply (option CForwardThunkInfo)) :=
  entry ← forwardThunk (m_thunkDatabase s) name;
  match entry with
  | Some e => Done (s, Replied (Some e))
  | None =>
      let path := default [] guestThunkPath in
      if negb (m_thunkAutoDiscover s) || (path =s? []) then Done (s, Replied None)
      else
        let gtlDir := parent_path path in
        if negb (filename gtlDir =s? $"x86_64-LoreGTL") then Done (s, Replied None)
        else
          let prefix := parent_path (parent_path (parent_path gtlDir)) in
          let key := lexically_normal prefix in
          if (prefix =s? []) || bool_decide (key ∈ m_loadedPackPrefixes s)
          then Done (s, Replied None)
          else
            let s := with_prefix s key in
            match fs_exists (pack_json prefix) with
            | None => Done (s, Thrown)
            | Some found =>
                db ← (if found then
                        '(db, _) ← loadPack fs_open json_parse (m_thunkDatabase s)
                                     (pack_json prefix) gtlDir
                                     (pack_htl_dir prefix (m_hostArch s)) (m_thunkVars s);
                        Done db
                      else Done (m_thunkDatabase s));
                r ← forwardThunk db name;
                Done (with_db s db, Replied r)
            end
  end.

(** The forward member of the result. *)
Definition forward_info (r : option CForwardThunkInfo) : CThunkInfo :=
  match r with Some e => ThunkForward e | None => ThunkNull end.

(** A null [path] names the empty thunk. *)
Definition getThunkInfo (s : HostServer) (path : option str) (isReverse : bool)
    : run (HostServer * Reply CThunkInfo) :=
  name ← thunkNameOf path;
  if isReverse then
    r ← reversedThunk (m_thunkDatabase s) name;
    Done (s, Replied match r with Some e => ThunkReversed e | None => ThunkNull end)
  else
    '(s, r) ← resolveForwardThunk s path name;
    Done (s, reply_map forward_info r).

(** ** Invariant and stability *)

Record server_wf (s : HostServer) : Prop := {
  sw_db : db_wf (m_thunkDatabase s);
  sw_indexed : db_indexed (m_thunkDatabase s);
}.

(** What a server has handed out stays valid in a later one. *)
Record server_le (s s' : HostServer) : Prop := {
  sl_forward : m_forwardThunks (m_thunkDatabase s)
               `prefix_of` m_forwardThunks (m_thunkDatabase s');
  sl_reversed : m_reversedThunks (m_thunkDatabase s)
                `prefix_of` m_reversedThunks (m_thunkDatabase s');
  sl_arenas : arenas_le (m_arenas (m_thunkDatabase s)) (m_arenas (m_thunkDatabase s'));
  sl_find : ∀ n e, forwardThunk (m_thunkDatabase s) n = Done (Some e) →
                   forwardThunk (m_thunkDatabase s') n = Done (Some e);
}.

#[export] Instance server_le_preorder : PreOrder server_le.
Proof.
  split.
  - intros s. by split.
  - intros a b c [? ? ? ?] [? ? ? ?]. split; try (by etransitivity). auto.
Qed.

Lemma loadPack_le db path gdir hdir vars :
  db_wf db → db_indexed db →
  ∃ db' ok, loadPack fs_open json_parse db path gdir hdir vars = Done (db', ok) ∧
    db_wf db' ∧ db_indexed db' ∧
    m_forwardThunks db `prefix_of` m_forwardThunks db' ∧
    m_reversedThunks db `prefix_of` m_reversedThunks db' ∧
    arenas_le (m_arenas db) (m_arenas db') ∧
    (∀ n e, forwardThunk db n = Done (Some e) → forwardThunk db' n = Done (Some e)).
Proof.
  intros Hwf Hix. destruct (loadPack_steps fs_open json_parse db path gdir hdir vars Hwf)
    as (db' & ok & Hl & Hwf' & Hix' & Hle & Hpf & Hpr & _). exists db', ok.
  split_and!; [done..|]. intros n e.
  rewrite !forwardThunk_first by done. intros [= He]. f_equal.
  eapply first_with_prefix; [done| |done].
  intros x Hx. rewrite !fwd_keys_data, (fwd_data_mono (m_arenas db) (m_arenas db')); [done|done|].
  by eapply (proj1 (Forall_forall _ _) (wf_fwd _ Hwf)).
Qed.

Lemma forwardThunk_total db name :
  db_indexed db → ∃ r, forwardThunk db name = Done r.
Proof. intros Hix. rewrite forwardThunk_first by done. by eexists. Qed.

(** The lookup of a name consults the pack at a prefix: nothing describes the name, the
    path has the layout of a pack, and its prefix is new. *)
Record consults (s : HostServer) (path : option str) (name prefix : str) : Prop := {
  co_miss : forwardThunk (m_thunkDatabase s) name = Done None;
  co_auto : m_thunkAutoDiscover s = true;
  co_path : default [] path ≠ [];
  co_layout : filename (parent_path (default [] path)) = $"x86_64-LoreGTL";
  co_prefix : prefix = parent_path (parent_path (parent_path (parent_path (default [] path))));
  co_some : prefix ≠ [];
  co_new : lexically_normal prefix ∉ m_loadedPackPrefixes s;
}.

(** A lookup that consults nothing answers from the database and leaves the server. *)
Lemma resolve_known s path name :
  db_indexed (m_thunkDatabase s) → (∀ prefix, ¬ consults s path name prefix) →
  ∃ r, resolveForwardThunk s path name = Done (s, Replied r) ∧ forwardThunk (m_thunkDatabase s) name = Done r.
Proof.
  intros Hix Hno. unfold resolveForwardThunk.
  destruct (forwardThunk_total (m_thunkDatabase s) name Hix) as [[e|] He]; rewrite He; cbn [mbind run_bind]; [by eexists|].
  exists None. split; [|done].
  destruct (m_thunkAutoDiscover s) eqn:Ha; [|done]. cbn [negb orb].
  case_bool_decide as Hp; [done|]. case_bool_decide as Hg; [|done]. cbn [negb].
  case_bool_decide as Hs; [done|]. case_bool_decide as Hk; [done|].
  destruct (Hno (parent_path (parent_path (parent_path (parent_path (default [] path)))))). by split.
Qed.

(** One that consults a pack. *)
Lemma resolve_consults s path name prefix :
  server_wf s → consults s path name prefix →
  ∃ db r, resolveForwardThunk s path name = Done (with_db (with_prefix s (lexically_normal prefix)) db, r) ∧
    server_wf (with_db (with_prefix s (lexically_normal prefix)) db) ∧
    server_le s (with_db (with_prefix s (lexically_normal prefix)) db) ∧
    match fs_exists (pack_json prefix) with
    | None => db = m_thunkDatabase s ∧ r = Thrown
    | Some false => db = m_thunkDatabase s ∧ r = Replied None
    | Some true => ∃ ok r', r = Replied r' ∧ forwardThunk db name = Done r' ∧
        loadPack fs_open json_parse (m_thunkDatabase s) (pack_json prefix) (parent_path (default [] path))
          (pack_htl_dir prefix (m_hostArch s)) (m_thunkVars s) = Done (db, ok)
    end.
Proof.
  intros [Hwf Hix] [Hmiss Ha Hp Hg -> Hs Hk]. unfold resolveForwardThunk. rewrite Hmiss. cbn [mbind run_bind].
  rewrite Ha, (bool_decide_false (default [] path = [])), (bool_decide_true (filename _ = _)) by done.
  cbn [negb orb]. rewrite (bool_decide_false (_ = [])), (bool_decide_false (_ ∈ _)) by done. cbn [orb].
  cbn [with_prefix m_thunkDatabase m_hostArch m_thunkVars].
  set (prefix := parent_path (parent_path (parent_path (parent_path (default [] path))))) in *.
  destruct (fs_exists (pack_json prefix)) as [[|]|].
  - destruct (loadPack_le (m_thunkDatabase s) (pack_json prefix) (parent_path (default [] path))
      (pack_htl_dir prefix (m_hostArch s)) (m_thunkVars s) Hwf Hix) as (db & ok & Hl & Hwf' & Hix' & Hf & Hr & Harena & Hfind).
    rewrite Hl. cbn [mbind run_bind]. destruct (forwardThunk_total db name Hix') as [r Hn]. rewrite Hn. cbn [mbind run_bind].
    exists db, (Replied r). split; [done|]. split; [by split|]. split; [by split|]. by exists ok, r.
  - cbn [mbind run_bind]. rewrite Hmiss. cbn [mbind run_bind]. exists (m_thunkDatabase s), (Replied None).
    split; [done|]. split; [by split|]. split; [by split|done].
  - exists (m_thunkDatabase s), Thrown. split; [done|]. split; [by split|]. split; [by split|done].
Qed.

Lemma consults_cases s path name prefix :
  db_indexed (m_thunkDatabase s) → consults s path name prefix ∨ ¬ consults s path name prefix.
Proof.
  intros Hix. destruct (forwardThunk_total (m_thunkDatabase s) name Hix) as [[e|] He].
  { right. intros []. congruence. }
  destruct (decide (m_thunkAutoDiscover s = true ∧
    default [] path ≠ [] ∧ filename (parent_path (default [] path)) = $"x86_64-LoreGTL" ∧
    prefix = parent_path (parent_path (parent_path (parent_path (default [] path)))) ∧ prefix ≠ [] ∧
    lexically_normal prefix ∉ m_loadedPackPrefixes s)) as [(?&?&?&?&?&?)|Hno]; [left; by split|right].
  intros []. apply Hno. by split_and!.
Qed.

(** Every forward resolution, and the one after it. *)
Lemma resolve_stable s path name :
  server_wf s →
  ∃ s' r r', resolveForwardThunk s path name = Done (s', r) ∧ server_wf s' ∧ server_le s s' ∧
    (r = Thrown ↔ ∃ prefix, consults s path name prefix ∧ fs_exists (pack_json prefix) = None) ∧
    (∀ key, key ∈ m_loadedPackPrefixes s' ↔
       key ∈ m_loadedPackPrefixes s ∨ ∃ prefix, consults s path name prefix ∧ key = lexically_normal prefix) ∧
    ((∀ prefix, ¬ consults s path name prefix) → s' = s) ∧
    resolveForwardThunk s' path name = Done (s', Replied r') ∧ forwardThunk (m_thunkDatabase s') name = Done r' ∧
    (r = Replied r' ∨ r = Thrown ∧ r' = None).
Proof.
  intros Hs. pose proof (sw_indexed s Hs) as Hix.
  set (prefix := parent_path (parent_path (parent_path (parent_path (default [] path))))).
  destruct (consults_cases s path name prefix Hix) as [Hc|Hno].
  - destruct (resolve_consults s path name prefix Hs Hc) as (db & r & Hr & Hwf & Hle & Hcase).
    set (s' := with_db _ db) in *.
    assert (∀ q, ¬ consults s' path name q) as Hno.
    { intros q Hq. pose proof (co_prefix _ _ _ _ Hq) as Heq. fold prefix in Heq. subst q.
      apply (co_new _ _ _ _ Hq), elem_of_union_l, elem_of_singleton_2. done. }
    destruct (resolve_known s' path name (sw_indexed _ Hwf) Hno) as (r' & Hagain & Hfound).
    exists s', r, r'. split; [done|]. split; [done|]. split; [done|].
    assert (∀ q, consults s path name q ↔ q = prefix) as Hq by (intros q; split; [intros []; done|by intros ->]).
    split; [|split; [|split; [|split; [done|split; [done|]]]]].
    + transitivity (fs_exists (pack_json prefix) = None).
      * destruct (fs_exists (pack_json prefix)) as [[|]|]; [destruct Hcase as (ok & r1 & -> & _)|destruct Hcase as [_ ->]..]; done.
      * split; [intros Hx; by exists prefix|intros (q & ->%Hq & Hx); done].
    + intros key. cbn. rewrite elem_of_union, elem_of_singleton. split.
      * intros [->|Hin]; [right; by exists prefix|by left].
      * intros [Hin|(q & ->%Hq & ->)]; [by right|by left].
    + intros Hnone. by destruct (Hnone prefix).
    + cbn in Hfound. destruct (fs_exists (pack_json prefix)) as [[|]|].
      * destruct Hcase as (ok & r1 & -> & Hr1 & _). left. rewrite Hr1 in Hfound. by injection Hfound as ->.
      * destruct Hcase as [-> ->]. left. rewrite (co_miss _ _ _ _ Hc) in Hfound. by injection Hfound as <-.
      * destruct Hcase as [-> ->]. right. rewrite (co_miss _ _ _ _ Hc) in Hfound. by injection Hfound as <-.
  - assert (∀ q, ¬ consults s path name q) as Hnone.
    { intros q Hq. pose proof (co_prefix _ _ _ _ Hq) as Heq. fold prefix in Heq. by subst q. }
    destruct (resolve_known s path name Hix Hnone) as (r & Hr & Hf). exists s, (Replied r), r.
    split; [done|]. split; [done|]. split; [done|]. split; [|split; [|split; [done|split; [done|split; [done|by left]]]]].
    + split; [done|]. intros (q & Hq & _). by destruct (Hnone q).
    + intros key. split; [by left|]. intros [?|(q & Hq & _)]; [done|by destruct (Hnone q)].
Qed.

(** C29: a forward lookup of a library name that fits the buffer keeps the database well
    formed and disturbs nothing: entries and strings handed to the guest before stay where
    they are, and every name resolved before resolves to the same entry.  It consults a pack
    only if nothing describes the name and the prefix is new, and then the prefix is
    recorded; an exception leaves the service exactly when the existence of the document of
    that pack cannot be determined.  Asking again gives the same answer, or null after an
    exception, and changes nothing.  A name that does not fit overruns the buffer. *)
Theorem forward_lookup_stable s path :
  server_wf s → no_nul (default [] path) →
  if decide (length (getLibraryName (default [] path)) < PATH_MAX) then
    let name := normalizeThunkName path in
    ∃ s' r r', getThunkInfo s path false = Done (s', r) ∧ server_wf s' ∧ server_le s s' ∧
      (r = Thrown ↔ ∃ prefix, consults s path name prefix ∧ fs_exists (pack_json prefix) = None) ∧
      (∀ key, key ∈ m_loadedPackPrefixes s' ↔
         key ∈ m_loadedPackPrefixes s ∨ ∃ prefix, consults s path name prefix ∧ key = lexically_normal prefix) ∧
      ((∀ prefix, ¬ consults s path name prefix) → s' = s) ∧
      getThunkInfo s' path false = Done (s', Replied r') ∧ (r = Replied r' ∨ r = Thrown ∧ r' = ThunkNull)
  else getThunkInfo s path false = Undef.
Proof.
  intros Hs Hn. unfold getThunkInfo. rewrite (thunk_name_copies path Hn). rewrite bool_decide_decide.
  destruct (decide _) as [Hlen|Hlen]; cbn [mbind run_bind]; [|done]. cbv zeta.
  destruct (resolve_stable s path (normalizeThunkName path) Hs)
    as (s' & r & r' & Hr & Hwf & Hle & Hthrow & Hkeys & Hsame & Hagain & _ & Hcase).
  exists s', (reply_map forward_info r), (forward_info r'). rewrite Hr, Hagain. cbn [mbind run_bind].
  split; [done|]. split; [done|]. split; [done|]. split; [|split; [done|split; [done|split; [done|]]]].
  - rewrite <- Hthrow. by destruct r.
  - destruct Hcase as [->|[-> ->]]; [by left|by right].
Qed.

(** [getThunkInfo] is undefined only by overrunning its name buffer, and a reversed lookup
    never throws. *)
Lemma getThunkInfo_total s path isReverse name :
  server_wf s → thunkNameOf path = Done name →
  ∃ s' i, getThunkInfo s path isReverse = Done (s', i) ∧ server_wf s' ∧ server_le s s' ∧
    (isReverse = true → i ≠ Thrown).
Proof.
  intros Hwf Hn. unfold getThunkInfo. rewrite Hn. cbn [mbind run_bind]. destruct isReverse.
  - rewrite (reversedThunk_first _ _ (sw_indexed _ Hwf)). cbn [mbind run_bind].
    do 2 eexists. split_and!; done.
  - destruct (resolve_stable s path name Hwf) as (s' & r & r' & -> & ? & ? & _).
    cbn [mbind run_bind]. do 2 eexists. split_and!; done.
Qed.

Lemma configure_wf s vars overridePath hostArch autoDiscover :
  ∃ s', configureThunkDiscovery s vars overridePath hostArch autoDiscover = Done s' ∧
        server_wf s' ∧ m_loadedPackPrefixes s' = m_loadedPackPrefixes s.
Proof.
  unfold configureThunkDiscovery. destruct overridePath as [|c p].
  - eexists. split_and!; [done|by split; auto with lore|done].
  - destruct (load_steps fs_open json_parse db_empty (c :: p) vars)
      as (db & ok & -> & Hwf & Hix & _).
    eexists. split_and!; [done|by split|done].
Qed.

(** ** The standard pack layout *)

Definition pack_thunk (prefix file : str) : str :=
  path_append (path_append (path_append (path_append prefix ($"x86_64")) ($"lib"))
    ($"x86_64-LoreGTL")) file.

Lemma plain_literal n : (n =s? []) || contains_char n slash = false → plain_name n.
Proof.
  intros [H1 H2]%orb_false_iff. split; [by apply bool_decide_eq_false in H1|].
  intros H%contains_char_spec. congruence.
Qed.

Lemma append_not_slash p n :
  plain_name n → p ≠ [] → ends_with_char p slash = false →
  path_append p n ≠ [] ∧ ends_with_char (path_append p n) slash = false.
Proof.
  intros Hn Hp He. rewrite path_append_plain by done. split; [by destruct p|].
  destruct Hn as [Hn Hs]. destruct (exists_last Hn) as (l & c & ->).
  change (slash :: l ++ [c]) with ((slash :: l) ++ [c]).
  rewrite app_assoc, ends_with_char_snoc. apply Ascii.eqb_neq. intros ->.
  apply Hs, elem_of_app. right. by left.
Qed.

Lemma pack_thunk_dirs prefix file :
  plain_name file → prefix ≠ [] → ends_with_char prefix slash = false →
  let gtl := parent_path (pack_thunk prefix file) in
  gtl = path_append (path_append (path_append prefix ($"x86_64")) ($"lib")) ($"x86_64-LoreGTL") ∧
  filename gtl = $"x86_64-LoreGTL" ∧
  parent_path (parent_path (parent_path gtl)) = prefix.
Proof.
  intros Hf Hp He. unfold pack_thunk.
  assert (plain_name ($"x86_64")) as H1 by (by apply plain_literal).
  assert (plain_name ($"lib")) as H2 by (by apply plain_literal).
  assert (plain_name ($"x86_64-LoreGTL")) as H3 by (by apply plain_literal).
  destruct (append_not_slash prefix _ H1 Hp He) as [Hp1 He1].
  destruct (append_not_slash _ _ H2 Hp1 He1) as [Hp2 He2].
  destruct (append_not_slash _ _ H3 Hp2 He2) as [Hp3 He3].
  cbv zeta. rewrite parent_path_append by done. split; [done|].
  rewrite filename_append by done. split; [done|].
  by rewrite !parent_path_append.
Qed.

(** A guest thunk in the standard pack layout that no earlier document
    describes makes the server layer exactly its own pack: the document
    [share/lorelei/ThunkDB.json] of its prefix, with the pack's two thunk
    directories as defaults, and the answer is what the layered database says. *)
Theorem pack_discovery s prefix file name :
  server_wf s → plain_name file → prefix ≠ [] → ends_with_char prefix slash = false →
  m_thunkAutoDiscover s = true → forwardThunk (m_thunkDatabase s) name = Done None →
  lexically_normal prefix ∉ m_loadedPackPrefixes s →
  fs_exists (pack_json prefix) = Some true →
  ∃ db ok r,
    loadPack fs_open json_parse (m_thunkDatabase s) (pack_json prefix)
      (path_append (path_append (path_append prefix ($"x86_64")) ($"lib")) ($"x86_64-LoreGTL"))
      (pack_htl_dir prefix (m_hostArch s)) (m_thunkVars s) = Done (db, ok) ∧
    forwardThunk db name = Done r ∧
    resolveForwardThunk s (Some (pack_thunk prefix file)) name
    = Done (with_db (with_prefix s (lexically_normal prefix)) db, Replied r).
Proof.
  intros Hs Hf Hp He Ha Hn Hnew Hx. destruct (pack_thunk_dirs prefix file Hf Hp He) as (Hg & Hgf & Hgp).
  assert (consults s (Some (pack_thunk prefix file)) name prefix) as Hc.
  { split; cbn [default]; [done..| |done|done|done|done]. intros Heq. change (pack_thunk prefix file = []) in Heq.
    rewrite Heq in Hgf. by vm_compute in Hgf. }
  destruct (resolve_consults s _ name prefix Hs Hc) as (db & r & Hr & _ & _ & Hcase). rewrite Hx in Hcase.
  destruct Hcase as (ok & r' & -> & Hfound & Hl). exists db, ok, r'. split; [|done]. rewrite <- Hl. f_equal. by rewrite <- Hg.
Qed.
End server.

(** ** Witnesses *)

Definition example_server : HostServer :=
  MkHostServer db_empty ∅ ($"riscv64") true ∅.

Lemma example_server_wf : server_wf example_server.
Proof. split; [exact db_empty_wf|reflexivity]. Qed.

(** The document of the pack at [/q] cannot be reached. *)
Definition example_exists (f : str) : option bool :=
  if f =s? $"/q/share/lorelei/ThunkDB.json" then None else Some true.

Example unreachable_pack :
  getThunkInfo example_exists (λ _, Some []) example_parse example_server
    (Some ($"/q/x86_64/lib/x86_64-LoreGTL/a.so")) false = Done (with_prefix example_server ($"/q"), Thrown) ∧
  getThunkInfo example_exists (λ _, Some []) example_parse (with_prefix example_server ($"/q"))
    (Some ($"/q/x86_64/lib/x86_64-LoreGTL/a.so")) false = Done (with_prefix example_server ($"/q"), Replied ThunkNull).
Proof. split; reflexivity. Qed.

Lemma forward_lookup_stable_witness :
  ∃ s' r, getThunkInfo example_exists (λ _, Some []) example_parse example_server
            (Some ($"/p/x86_64/lib/x86_64-LoreGTL/a.so")) false = Done (s', r) ∧
          server_wf s' ∧ $"/p" ∈ m_loadedPackPrefixes s' ∧ r ≠ Thrown ∧
          getThunkInfo example_exists (λ _, Some []) example_parse s'
            (Some ($"/p/x86_64/lib/x86_64-LoreGTL/a.so")) false = Done (s', r).
Proof.
  assert (no_nul (default [] (Some ($"/p/x86_64/lib/x86_64-LoreGTL/a.so")))) as Hn
    by (apply (bool_decide_unpack _); vm_compute; exact I).
  pose proof (forward_lookup_stable example_exists (λ _, Some []) example_parse example_server
    (Some ($"/p/x86_64/lib/x86_64-LoreGTL/a.so")) example_server_wf Hn) as H.
  rewrite decide_True in H by (apply Nat.ltb_lt; vm_compute; reflexivity). cbv zeta in H.
  destruct H as (s' & r & r' & Hr & Hwf & _ & Hthrow & Hkeys & _ & Hagain & Hcase).
  assert (consults example_server (Some ($"/p/x86_64/lib/x86_64-LoreGTL/a.so"))
    (normalizeThunkName (Some ($"/p/x86_64/lib/x86_64-LoreGTL/a.so"))) ($"/p")) as Hc
    by (split; [reflexivity|reflexivity|discriminate|reflexivity|reflexivity|discriminate|apply not_elem_of_empty]).
  assert (r ≠ Thrown) as Hnot.
  { intros Ht. apply Hthrow in Ht as (q & Hq & Hx). rewrite (co_prefix _ _ _ _ Hq) in Hx. discriminate Hx. }
  exists s', r. split; [exact Hr|]. split; [exact Hwf|]. split; [|split; [exact Hnot|]].
  - apply Hkeys. right. exists ($"/p"). split; [exact Hc|reflexivity].
  - destruct Hcase as [->|[Ht _]]; [exact Hagain|destruct (Hnot Ht)].
Defined.

Lemma pack_discovery_witness :
  ∃ db ok r,
    loadPack (λ _, Some []) example_parse db_empty ($"/p/share/lorelei/ThunkDB.json")
      ($"/p/x86_64/lib/x86_64-LoreGTL") ($"/p/lib/riscv64-LoreHTL") ∅ = Done (db, ok) ∧
    forwardThunk db ($"a") = Done r ∧
    resolveForwardThunk example_exists (λ _, Some []) example_parse example_server
      (Some ($"/p/x86_64/lib/x86_64-LoreGTL/a.so")) ($"a")
    = Done (with_db (with_prefix example_server ($"/p")) db, Replied r).
Proof.
  apply (pack_discovery example_exists (λ _, Some []) example_parse example_server
    ($"/p") ($"a.so") ($"a") example_server_wf).
  - by apply plain_literal.
  - done.
  - reflexivity.
  - reflexivity.
  - reflexivity.
  - set_solver.
  - reflexivity.
Defined.
