(* ===== verification/Runtime.v ===== *)
(** The two runtimes around the server: the requests the guest client packs and
    the host entry unpacks ([src/modules/GuestRT/GuestClient.cpp],
    [LoreCommonHostEntry] in [src/modules/HostRT/HostServer.cpp]), the guest's
    search for the guest function behind a host address, the start of the thunk
    contexts ([src/modules/HostRT/HostThunkContext.cpp],
    [src/modules/GuestRT/GuestThunkContext.cpp]), and the host runtime's
    environment and log sink ([src/modules/HostRT/main.cpp]).  The dynamic
    linker is a parameter with a state of its own. *)

From S2P Require Import Prelude CppString Assoc StringExtras Protocol ThunkDatabase NextLibrary.

(** ** Requests *)

(** What the guest asks of [LoreCommonHostEntry]; pointers are addresses. *)
Inductive request : Type :=
  | ReqInvoke (ia ra_ptr ret : Z)
  | ReqResume (ret : Z)
  | ReqLog (level context msg : Z)
  | ReqModulePath (opaque : Z) (isHandle : bool) (ret : Z)
  | ReqThunkInfo (path : Z) (isReverse : bool) (ret : Z).

(** [static_cast<uintptr_t>] of a [bool] and of an [int], and back. *)
Definition bool_word (b : bool) : Z := if b then 1 else 0.
Definition word_bool (w : Z) : bool := negb (w =? 0)%Z.
Definition int_word (n : Z) : Z := wrapu 64 n.
Definition word_int (w : Z) : Z := wraps 32 w.

(** The secondary operation, the payload pointer and the block of words the
    guest has written at [buf], a local array of its frame. *)
Definition pack (buf : Z) (r : request) : DLCallSecondaryID * Z * list Z :=
  match r with
  | ReqInvoke ia ra_ptr ret => (DS_InvokeFunction, buf, [ia; ra_ptr; ret])
  | ReqResume ret => (DS_ResumeFunction, ret, [])
  | ReqLog level context msg => (DS_LogMessage, buf, [int_word level; context; msg])
  | ReqModulePath opaque isHandle ret =>
      (DS_GetModulePath, buf, [opaque; bool_word isHandle; ret])
  | ReqThunkInfo path isReverse ret =>
      (DS_GetThunkInfo, buf, [path; bool_word isReverse; ret])
  end.

(** [invokeHost]: the arguments of the magic system call. *)
Definition invokeHost (commonProcEntry : Z) (id : DLCallSecondaryID) (payload : Z) : list Z :=
  [DLCallSyscallNumber; request_number DR_InvokeProc; commonProcEntry;
   secondary_number id; payload].

(** [LoreCommonHostEntry(secondaryId, payload)]: [read] gives the words at an
    address; an unknown operation does nothing. *)
Definition unpack (read : Z → list Z) (secondaryId payload : Z) : option request :=
  match secondary_of_number secondaryId with
  | Some DS_InvokeFunction =>
      match read payload with a0 :: a1 :: a2 :: _ => Some (ReqInvoke a0 a1 a2) | _ => None end
  | Some DS_ResumeFunction => Some (ReqResume payload)
  | Some DS_LogMessage =>
      match read payload with
      | a0 :: a1 :: a2 :: _ => Some (ReqLog (word_int a0) a1 a2)
      | _ => None
      end
  | Some DS_GetModulePath =>
      match read payload with
      | a0 :: a1 :: a2 :: _ => Some (ReqModulePath a0 (word_bool a1) a2)
      | _ => None
      end
  | Some DS_GetThunkInfo =>
      match read payload with
      | a0 :: a1 :: a2 :: _ => Some (ReqThunkInfo a0 (word_bool a1) a2)
      | _ => None
      end
  | None => None
  end.

Lemma word_bool_word b : word_bool (bool_word b) = b.
Proof. by destruct b. Qed.

Lemma word_int_word n : (INT_MIN <= n <= INT_MAX)%Z → word_int (int_word n) = n.
Proof.
  unfold INT_MIN, INT_MAX, word_int, int_word, wraps, wrapu. intros Hn.
  change (2 ^ (32 - 1))%Z with 2147483648%Z. change (2 ^ 32)%Z with 4294967296%Z.
  change (2 ^ 64)%Z with 18446744073709551616%Z.
  rewrite <- Zplus_mod_idemp_l, Z.mod_mod_divide, Zplus_mod_idemp_l.
  - rewrite Z.mod_small; lia.
  - by exists 4294967296%Z.
Qed.

(** Every request reaches the host's operation with the operands the guest
    gave: unpacking what [invokeHost] delivers of a packed request gives the
    request back, the log level through its detour as an unsigned word. *)
Theorem request_roundtrip (buf commonProcEntry : Z) (r : request) (read : Z → list Z) :
  (∀ level context msg, r = ReqLog level context msg → (INT_MIN <= level <= INT_MAX)%Z) →
  read buf = (pack buf r).2 →
  match invokeHost commonProcEntry (pack buf r).1.1 (pack buf r).1.2 with
  | [nr; id; entry; a1; a2] =>
      nr = DLCallSyscallNumber ∧ id = request_number DR_InvokeProc ∧
      entry = commonProcEntry ∧ unpack read a1 a2 = Some r
  | _ => False
  end.
Proof.
  intros Hlevel Hread. unfold invokeHost. split_and!; [done..|].
  unfold unpack. rewrite secondary_roundtrip.
  destruct r; cbn [pack fst snd] in *; rewrite ?Hread; try done.
  - by rewrite word_int_word by eauto.
  - by rewrite word_bool_word.
  - by rewrite word_bool_word.
Qed.

Lemma request_roundtrip_witness :
  unpack (λ p, if (p =? 100)%Z then [int_word (-1); 7; 8]%Z else []) 2 100
  = Some (ReqLog (-1) 7 8).
Proof.
  apply (request_roundtrip 100 5 (ReqLog (-1) 7 8)
    (λ p, if (p =? 100)%Z then [int_word (-1); 7; 8]%Z else [])).
  - intros level context msg [= <- <- <-]. by vm_compute.
  - reflexivity.
Defined.

(** ** From a host address to a guest function *)

Section linker.
(** The dynamic linker: [dlopen] with or without [RTLD_NOLOAD], [dlsym]. *)
Context {L : Type} (dlopen : L → str → bool → L * option Z) (dlsym : L → Z → str → option Z).
(** Answers of the host: the module of an address, and the thunk entries. *)
Context (getModulePath : Z → option str)
  (forward_info : str → option str) (reversed_info : str → option (list str)).

Definition convertHostProcAddress_helper (l : L) (guestThunk name : str) : L * option Z :=
  let '(l, handle) := dlopen l guestThunk true in
  match handle with
  | Some h => (l, dlsym l h name)
  | None =>
      let '(l, handle) := dlopen l guestThunk false in
      match handle with
      | Some h => (l, dlsym l h name)
      | None => (l, None)
      end
  end.

(** The candidates of a reversed entry, tried in order. *)
Fixpoint try_candidates (l : L) (thunks : list str) (name : str) : L * option Z :=
  match thunks with
  | [] => (l, None)
  | thunk :: thunks' =>
      match forward_info thunk with
      | None => try_candidates l thunks' name
      | Some guestThunk =>
          let '(l, func) := convertHostProcAddress_helper l guestThunk name in
          match func with
          | Some f => (l, Some f)
          | None => try_candidates l thunks' name
          end
      end
  end.

Definition convertHostProcAddress (l : L) (name : str) (addr : Z) : L * option Z :=
  match getModulePath addr with
  | None => (l, None)
  | Some hostLibPath =>
      match reversed_info hostLibPath with
      | None =>
          match forward_info hostLibPath with
          | None => (l, None)
          | Some guestThunk => convertHostProcAddress_helper l guestThunk name
          end
      | Some thunks => try_candidates l thunks name
      end
  end.

(** ** Starting a host thunk *)

Record StaticThunkContext : Type := MkStaticThunkContext {
  autoLink : bool;
  nextLibraryPath : option str;
  thisProcs : list (str * option Z);
}.

Inductive init_result (A : Type) : Type :=
  | InitOk (a : A)
  | InitAbort.
Arguments InitOk {A} _.
Arguments InitAbort {A}.

(** A C string that is neither null nor empty. *)
Definition nonempty (s : option str) : option str :=
  match s with Some (c :: s') => Some (c :: s') | _ => None end.

(** The database wins, then the path baked in, then the convention. *)
Definition host_next_library (modulePath : str) (hostLibrary baked : option str) : str :=
  match nonempty hostLibrary with
  | Some next => next
  | None =>
      match nonempty baked with
      | Some next => next
      | None => nextLibraryByName (Some modulePath) true
      end
  end.

Fixpoint resolve_procs (l : L) (handle : Z) (procs : list (str * option Z))
    : init_result (list (str * option Z)) :=
  match procs with
  | [] => InitOk []
  | (key, _) :: procs' =>
      match dlsym l handle key with
      | None => InitAbort
      | Some addr =>
          match resolve_procs l handle procs' with
          | InitOk procs' => InitOk ((key, Some addr) :: procs')
          | InitAbort => InitAbort
          end
      end
  end.

(** [HostThunkContext::initialize]; [selfPath] is what [dladdr] says,
    [hostLibrary] the database entry's field. *)
Definition host_initialize (l : L) (ctx : StaticThunkContext) (selfPath : option str)
    (hostLibrary : str → option str) (vars : gmap str str)
    : run (L * init_result (StaticThunkContext * option Z)) :=
  match selfPath with
  | None => Done (l, InitAbort)
  | Some modulePath =>
      if autoLink ctx then Done (l, InitOk (ctx, None))
      else
        let next := host_next_library modulePath
                      (hostLibrary (normalizeThunkName (Some modulePath)))
                      (nextLibraryPath ctx) in
        expanded ← varexp_map next vars;
        let hostLib := resolveNextLibrary expanded (Some modulePath) in
        let '(l, handle) := dlopen l (c_str hostLib) false in
        Done (l, match handle with
                 | None => InitAbort
                 | Some h =>
                     match resolve_procs l h (thisProcs ctx) with
                     | InitAbort => InitAbort
                     | InitOk procs =>
                         InitOk (MkStaticThunkContext (autoLink ctx) (nextLibraryPath ctx)
                                   procs, Some h)
                     end
                 end)
  end.

(** [GuestThunkContext::initialize] up to the call of [LoreExchangeContext]:
    the host thunk's handle and the address of that function. *)
Definition guest_next_library (modulePath : str) (hostThunk baked : option str) : str :=
  match nonempty hostThunk with
  | Some next => next
  | None =>
      match nonempty baked with
      | Some next => next
      | None => nextLibraryByName (Some modulePath) false
      end
  end.
Definition guest_initialize (l : L) (selfPath : option str)
    (hostThunk : str → option str) (baked : option str) : L * init_result (Z * Z) :=
  match selfPath with
  | None => (l, InitAbort)
  | Some modulePath =>
      let next := guest_next_library modulePath (hostThunk modulePath) baked in
      let htlPath := resolveNextLibrary next (Some modulePath) in
      let '(l, handle) := dlopen l (c_str htlPath) false in
      match handle with
      | None => (l, InitAbort)
      | Some h =>
          match dlsym l h ($"LoreExchangeContext") with
          | None => (l, InitAbort)
          | Some exchangeFunc => (l, InitOk (h, exchangeFunc))
          end
      end
  end.

Lemma resolve_procs_spec l h procs :
  match resolve_procs l h procs with
  | InitOk procs' =>
      procs' = (λ p, (p.1, dlsym l h p.1)) <$> procs ∧
      Forall (λ p, is_Some p.2) procs'
  | InitAbort => ∃ key a, (key, a) ∈ procs ∧ dlsym l h key = None
  end.
Proof.
  clear dlopen getModulePath forward_info reversed_info.
  induction procs as [|[key a] procs IH]; cbn [resolve_procs]; [done|].
  destruct (dlsym l h key) as [addr|] eqn:E.
  - destruct (resolve_procs l h procs) as [procs'|].
    + destruct IH as [-> IH]. split; [simpl; by rewrite E|]. constructor; [|done].
      by eexists.
    + destruct IH as (k & b & Hin & Hn). exists k, b. split; [by right|done].
  - exists key, a. split; [by left|done].
Qed.

Lemma host_initialize_spec l ctx selfPath hostLibrary vars :
  ∃ l' r, host_initialize l ctx selfPath hostLibrary vars = Done (l', r) ∧
    match r with
    | InitAbort => True
    | InitOk (ctx', None) => autoLink ctx = true ∧ ctx' = ctx ∧ l' = l
    | InitOk (ctx', Some h) =>
        autoLink ctx = false ∧
        (∃ path, dlopen l path false = (l', Some h)) ∧
        thisProcs ctx' = (λ p, (p.1, dlsym l' h p.1)) <$> thisProcs ctx ∧
        Forall (λ p, is_Some p.2) (thisProcs ctx')
    end.
Proof.
  clear getModulePath forward_info reversed_info.
  unfold host_initialize. destruct selfPath as [modulePath|]; [|by do 2 eexists].
  destruct (autoLink ctx); [by do 2 eexists|].
  match goal with |- context [varexp_map ?n vars] =>
    destruct (varexp_map_total n vars) as [next ->] end.
  cbn [mbind run_bind].
  destruct (dlopen l _ false) as [l' [h|]] eqn:Ed; [|by do 2 eexists].
  pose proof (resolve_procs_spec l' h (thisProcs ctx)) as Hp.
  destruct (resolve_procs l' h (thisProcs ctx)) as [procs|]; do 2 eexists;
    (split; [reflexivity|]); [|done].
  cbn [thisProcs]. destruct Hp as [-> Hp]. split_and!; [done| |done|done]. by eexists.
Qed.

(** When a host thunk starts, either the process aborts or every entry of
    the thunk's procedure table, in order and under its own key, holds the
    non-null address of that symbol in the library that was opened; an
    automatically linked thunk opens nothing and keeps its table. *)
Theorem host_initialize_table l ctx selfPath hostLibrary vars :
  ∃ l' r, host_initialize l ctx selfPath hostLibrary vars = Done (l', r) ∧
    match r with
    | InitAbort => True
    | InitOk (ctx', None) => autoLink ctx = true ∧ ctx' = ctx ∧ l' = l
    | InitOk (ctx', Some h) =>
        autoLink ctx = false ∧
        (∃ path, dlopen l path false = (l', Some h)) ∧
        thisProcs ctx' = (λ p, (p.1, dlsym l' h p.1)) <$> thisProcs ctx ∧
        Forall (λ p, is_Some p.2) (thisProcs ctx')
    end.
Proof. apply host_initialize_spec. Qed.
End linker.
Arguments InitOk {A} _.
Arguments InitAbort {A}.

(** ** The host runtime's environment *)

Section environment.
Context (getenv : str → option str).

(** One [name=value] item; an item without [=] is skipped. *)
Definition add_config_item (vars : gmap str str) (item : str) : gmap str str :=
  match find_char "="%char item with
  | None => vars
  | Some eq => <[take eq item := drop (eq + 1) item]> vars
  end.

Definition buildConfigVars (kHostArch : str) : run (gmap str str) :=
  let vars := <[$"ARCH" := kHostArch]>
                (<[$"HOME" := default [] (getenv ($"HOME"))]> ∅) in
  match getenv ($"LORELEI_THUNKS_CONFIG_VARIABLES") with
  | Some (c :: s) =>
      items ← split (c :: s) ($";");
      Done (foldl add_config_item vars items)
  | _ => Done vars
  end.

Definition atoi (s : str) : Z := wraps 32 (strtol (c_str s)).1.1.
Definition Information : Z := 4.

(** The threshold: a value that reads as 0 is the default. *)
Definition runtime_level (variable : str) : Z :=
  match getenv variable with
  | None => Information
  | Some s => if (atoi s =? 0)%Z then Information else atoi s
  end.
End environment.

(** [logCallback]: what is written, and to which sink. *)
Inductive log_sink : Type :=
  | SinkFile (text : str)
  | SinkDefault (level : Z) (text : str)
  | SinkNone.

Definition render_line (category : option str) (s : str) : str :=
  match category with
  | Some (c :: name) =>
      if c :: name =s? $"default" then s else (c :: name) ++ $": " ++ s
  | _ => s
  end.

Definition logCallback (threshold : Z) (logFile hasDefault : bool) (level : Z)
    (category : option str) (s : str) : log_sink :=
  if (level <? threshold)%Z then SinkNone
  else
    let line := render_line category s in
    if logFile then SinkFile (line ++ [c_nl])
    else if hasDefault then SinkDefault level line
    else SinkNone.

Lemma add_config_item_eq vars k v :
  "="%char ∉ k → add_config_item vars (k ++ "="%char :: v) = <[k := v]> vars.
Proof.
  intros Hk. unfold add_config_item. rewrite find_char_app by done.
  rewrite take_app_length, drop_app_ge by lia.
  by replace (length k + 1 - length k) with 1 by lia.
Qed.

(** The configuration variables are the two built-in ones overridden, in
    order, by the [name=value] list of the environment: each name gets its last
    value, whatever [=] signs the value holds. *)
Theorem config_vars_roundtrip getenv arch kvs :
  kvs ≠ [] →
  Forall (λ kv, ("="%char ∉ kv.1) ∧ (";"%char ∉ kv.1) ∧ (";"%char ∉ kv.2)) kvs →
  getenv ($"LORELEI_THUNKS_CONFIG_VARIABLES")
    = Some (join ((λ kv, kv.1 ++ "="%char :: kv.2) <$> kvs) ($";")) →
  buildConfigVars getenv arch
  = Done (foldl (λ vars kv, <[kv.1 := kv.2]> vars)
      (<[$"ARCH" := arch]> (<[$"HOME" := default [] (getenv ($"HOME"))]> ∅)) kvs).
Proof.
  intros Hne Hok Henv. unfold buildConfigVars. rewrite Henv.
  set (items := (λ kv, kv.1 ++ "="%char :: kv.2) <$> kvs).
  assert (items ≠ []) as Hi by (unfold items; by destruct kvs).
  assert (Forall (λ t, ";"%char ∉ t) items) as Hsemi.
  { unfold items. apply Forall_fmap. eapply Forall_impl; [exact Hok|].
    intros [k v] (? & ? & ?). simpl in *. rewrite not_elem_of_app, not_elem_of_cons. done. }
  assert (join items ($";") ≠ []) as Hj.
  { unfold items. destruct kvs as [|[k v] kvs]; [done|]. rewrite fmap_cons.
    destruct ((λ kv, kv.1 ++ "="%char :: kv.2) <$> kvs); [simpl; by destruct k|].
    rewrite join_cons by done. simpl. by destruct k. }
  destruct (split_tokens (join items ($";")) ($";")) as (w & Hw & Hs); [done|].
  assert (w = items) as -> by (eapply tokens_det; [exact Hw|by apply tokens_char_join]).
  destruct (join items ($";")) as [|c s] eqn:Ej; [done|]. rewrite Hs. cbn [mbind run_bind].
  f_equal. clear -Hok. unfold items.
  generalize (<[$"ARCH" := arch]> (<[$"HOME" := default [] (getenv ($"HOME"))]> (∅ : gmap str str))).
  induction Hok as [|[k v] kvs (Hk & _) _ IH]; intros vars; [done|].
  rewrite fmap_cons. cbn [foldl fst snd]. simpl in Hk. by rewrite add_config_item_eq.
Qed.

Definition example_env (name : str) : option str :=
  if name =s? $"LORELEI_THUNKS_CONFIG_VARIABLES" then Some ($"A=1;ARCH=x=y") else None.
Lemma config_vars_roundtrip_witness :
  buildConfigVars example_env ($"riscv64")
  = Done (<[$"ARCH" := $"x=y"]> (<[$"A" := $"1"]>
      (<[$"ARCH" := $"riscv64"]> (<[$"HOME" := []]> ∅)))).
Proof.
  apply (config_vars_roundtrip example_env ($"riscv64") [($"A", $"1"); ($"ARCH", $"x=y")]).
  - done.
  - repeat constructor; apply (bool_decide_unpack _); by vm_compute.
  - reflexivity.
Defined.
