(* ===== verification/Callback.v ===== *)
(** Callback trampolines
    ([include/lorelei/ThunkInterface/Detail/Callback.h],
    [src/libs/DLCall/Tools/FunctionTrampoline.cpp] and its header): the tables of
    executable stubs, the allocation of a stub for a callback, the recognition of
    a stub by its magic word, and the wrapping of a callback around a call.

    Addresses are integers.  A table is one per callback signature, context and
    thread; where [mmap] puts it is a parameter.  A block is a saved function, 40
    bytes of stub code and the magic word. *)

From S2P Require Import Prelude.

Definition kMaxCallbackTrampolineCount : nat := 16.
Definition kTrampolineMagic : Z := 0x0B0F0B0F0B0F0B0F.

(** [sizeof(FunctionTrampolineTable)], [sizeof(FunctionTrampoline)] and
    [offsetof(FunctionTrampoline, thunk_instr)] on a 64-bit target. *)
Definition sizeof_table : Z := 8.
Definition sizeof_trampoline : Z := 56.
Definition offsetof_thunk_instr : Z := 8.

(** [saved] holds the [saved_function]s, 0 for null; its length is [count].
    Every block of a created table carries [magic_sign] and a stub that loads
    its own saved function and branches to [target]. *)
Record FunctionTrampolineTable : Type := MkTable {
  table_base : Z;
  table_target : Z;
  table_magic : Z;
  saved : list Z;
}.

Definition create (base : Z) (count : nat) (target magic_sign : Z) : FunctionTrampolineTable :=
  MkTable base target magic_sign (replicate count 0%Z).

(** The address of the stub of block [i]. *)
Definition stub_addr (t : FunctionTrampolineTable) (i : nat) : Z :=
  table_base t + sizeof_table + Z.of_nat i * sizeof_trampoline + offsetof_thunk_instr.

(** The search of [allocCallbackTrampoline] from block [i] on: the index of the
    block that is or becomes [input]'s; reading past the table is undefined. *)
Fixpoint alloc_search (blocks : list Z) (i : nat) (input : Z) : run nat :=
  match blocks with
  | [] => Undef
  | s :: blocks' =>
      if (s =? 0)%Z then Done i
      else if (s =? input)%Z then Done i
      else alloc_search blocks' (S i) input
  end.

Definition alloc_in (t : FunctionTrampolineTable) (input : Z)
    : run (FunctionTrampolineTable * Z) :=
  i ← alloc_search (saved t) 0 input;
  Done (MkTable (table_base t) (table_target t) (table_magic t) (<[i := input]> (saved t)),
        stub_addr t i).

Section tables.
(** Where [mmap] puts the table of a key, the handler [F] of a key, and what a
    read of memory outside the tables gives. *)
Context (mmap : nat → Z) (handler : nat → Z) (probe : Z → Z).

(** The template parameter [Count], [kMaxCallbackTrampolineCount] by default. *)
Context (count : nat).

(** The static thread-local table pointers, by key. *)
Abbreviation Tables := (gmap nat FunctionTrampolineTable).

Definition table_of (ts : Tables) (key : nat) : FunctionTrampolineTable :=
  default (create (mmap key) count (handler key) kTrampolineMagic) (ts !! key).

Definition allocCallbackTrampoline (ts : Tables) (key : nat) (input : Z)
    : run (Tables * Z) :=
  if (input =? 0)%Z then Done (ts, 0%Z)
  else
    '(t, stub) ← alloc_in (table_of ts key) input;
    Done (<[key := t]> ts, stub).

(** The block whose stub is at an address. *)
Definition block_in (t : FunctionTrampolineTable) (fp : Z) : option nat :=
  let off := (fp - table_base t - sizeof_table - offsetof_thunk_instr)%Z in
  let i := (off / sizeof_trampoline)%Z in
  if (off mod sizeof_trampoline =? 0)%Z && (0 <=? i)%Z &&
     (i <? Z.of_nat (length (saved t)))%Z
  then Some (Z.to_nat i) else None.

Definition find_block (ts : Tables) (fp : Z) : option (FunctionTrampolineTable * nat) :=
  head (omap (λ kt, (λ i, (kt.2, i)) <$> block_in kt.2 fp) (map_to_list ts)).

(** [magic_sign] and [saved_function] as read around [fp]. *)
Definition read_magic (ts : Tables) (fp : Z) : Z :=
  match find_block ts fp with
  | Some (t, _) => table_magic t
  | None => probe (fp + 40)
  end.
Definition read_saved (ts : Tables) (fp : Z) : Z :=
  match find_block ts fp with
  | Some (t, i) => nth i (saved t) 0%Z
  | None => probe (fp - 8)
  end.

Definition unwrapTrampoline (ts : Tables) (fp : Z) : Z :=
  if (fp =? 0)%Z then fp
  else if (read_magic ts fp =? kTrampolineMagic)%Z then read_saved ts fp
  else fp.

(** Calling a stub parks its saved function in [thread_last_callback] and
    branches to the table's target. *)
Definition call_stub (ts : Tables) (fp : Z) : option (Z * Z) :=
  (λ ti, (nth ti.2 (saved ti.1) 0%Z, table_target ti.1)) <$> find_block ts fp.

(** ** Wrapping a callback around a call *)

(** The slot [*p_fp] and what the context recorded: [None] for a null
    [org_fp]. *)
Record CallbackContext : Type := MkCallbackContext {
  slot : Z;
  org_fp : Z;
}.

Definition callback_init (isHostAddress : Z → bool) (isGuest : bool) (key : nat)
    (ts : Tables) (fp : Z) : run (Tables * CallbackContext) :=
  let real := unwrapTrampoline ts fp in
  if negb (eqb isGuest (isHostAddress real)) then
    '(ts, stub) ← allocCallbackTrampoline ts key real;
    Done (ts, MkCallbackContext stub fp)
  else if negb (real =? fp)%Z then Done (ts, MkCallbackContext real fp)
  else Done (ts, MkCallbackContext fp 0).

(** The slot after [fini]. *)
Definition callback_fini (c : CallbackContext) : Z :=
  if (org_fp c =? 0)%Z then slot c else org_fp c.

(** ** Invariant *)

(** Saved functions fill a prefix of the table, without repetition. *)
Definition blocks_wf (l : list Z) : Prop :=
  ∃ used free, l = used ++ replicate free 0%Z ∧ NoDup used ∧ 0%Z ∉ used.

Definition table_wf (key : nat) (t : FunctionTrampolineTable) : Prop :=
  table_base t = mmap key ∧ table_target t = handler key ∧
  table_magic t = kTrampolineMagic ∧ length (saved t) = count ∧ blocks_wf (saved t).

Definition tables_wf (ts : Tables) : Prop := map_Forall table_wf ts.

(** The mapped regions do not overlap: no address is a stub of two tables. *)
Definition disjoint_stubs : Prop :=
  ∀ k1 k2 t1 t2 fp i1 i2,
    table_base t1 = mmap k1 → table_base t2 = mmap k2 →
    length (saved t1) = count → length (saved t2) = count →
    block_in t1 fp = Some i1 → block_in t2 fp = Some i2 → k1 = k2.

Lemma create_wf key :
  table_wf key (create (mmap key) count (handler key) kTrampolineMagic).
Proof.
  split_and!; [done|done|done|apply length_replicate|]. exists [], count.
  split_and!; [done|constructor|].
  apply not_elem_of_nil.
Qed.

Lemma table_of_wf ts key : tables_wf ts → table_wf key (table_of ts key).
Proof.
  intros Hwf. unfold table_of. destruct (ts !! key) as [t|] eqn:E.
  - by apply (Hwf key).
  - apply create_wf.
Qed.

Lemma alloc_search_used used free input i :
  NoDup used → 0%Z ∉ used → input ≠ 0%Z →
  alloc_search (used ++ replicate free 0%Z) i input =
    match list_find (λ s, s = input) used with
    | Some (j, _) => Done (i + j)
    | None => if (free =? 0)%nat then Undef else Done (i + length used)
    end.
Proof.
  intros Hnd H0 Hin. revert i. induction used as [|s used IH]; intros i.
  - simpl. destruct free; [done|]. simpl. f_equal. lia.
  - apply NoDup_cons in Hnd as [_ Hnd]. apply not_elem_of_cons in H0 as [Hs H0].
    cbn [app alloc_search list_find length].
    destruct (Z.eqb_spec s 0); [congruence|].
    destruct (Z.eqb_spec s input) as [->|Hne].
    + rewrite decide_True by done. f_equal. lia.
    + rewrite decide_False by done. rewrite IH by done.
      destruct (list_find _ used) as [[j x]|]; simpl.
      * f_equal. lia.
      * destruct (free =? 0)%nat; [done|]. f_equal. lia.
Qed.

(** A table's answer: the block it had, or the first free one. *)
Lemma alloc_in_spec key t input :
  table_wf key t → input ≠ 0%Z → (input ∈ saved t ∨ 0%Z ∈ saved t) →
  ∃ t' i, alloc_in t input = Done (t', stub_addr t i) ∧ table_wf key t' ∧
    saved t' !! i = Some input ∧ length (saved t') = length (saved t) ∧
    (∀ j s, saved t !! j = Some s → s ≠ 0%Z → saved t' !! j = Some s).
Proof.
  intros (Hb & Ht & Hm & Hc & used & free & Hs & Hnd & H0) Hin Hroom.
  unfold alloc_in. rewrite Hs, alloc_search_used by done.
  destruct (list_find (λ s, s = input) used) as [[j x]|] eqn:Ef.
  - apply list_find_Some in Ef as (Hj & -> & _). cbn [mbind run_bind Nat.add].
    assert ((used ++ replicate free 0%Z) !! j = Some input) as Hj'
      by by apply lookup_app_l_Some.
    rewrite list_insert_id by done.
    do 2 eexists. split_and!; [done| |done|done|done].
    split_and!; [done|done|done|by rewrite <- Hc, Hs|]. by exists used, free.
  - apply list_find_None in Ef. destruct free as [|free].
    { exfalso. rewrite Hs in Hroom. simpl in Hroom. rewrite app_nil_r in Hroom.
      destruct Hroom as [Hu|Hu]; [|done]. rewrite Forall_forall in Ef. by eapply Ef. }
    cbn [Nat.eqb mbind run_bind Nat.add]. cbn [replicate].
    assert (<[length used := input]> (used ++ 0%Z :: replicate free 0%Z)
            = (used ++ [input]) ++ replicate free 0%Z) as Hins.
    { rewrite insert_app_r_alt by lia. rewrite Nat.sub_diag. simpl. by rewrite <- app_assoc. }
    rewrite Hins. do 2 eexists. split_and!; [done| | | |].
    + split_and!; [done|done|done| |].
      { cbn. rewrite <- Hc, Hs, !length_app. simpl. lia. }
      exists (used ++ [input]), free. split_and!; [done| |].
      * apply NoDup_snoc; [done|]. intros Hu. rewrite Forall_forall in Ef. by eapply Ef.
      * rewrite not_elem_of_app, list_elem_of_singleton. split; congruence.
    + cbn. rewrite <- app_assoc, lookup_app_r by lia. by rewrite Nat.sub_diag.
    + cbn. rewrite !length_app. simpl. lia.
    + intros j s Hj Hne. cbn. rewrite <- app_assoc. cbn [app].
      apply lookup_app_Some in Hj as [Hj|[Hl Hj]]; [by apply lookup_app_l_Some|].
      exfalso. apply Hne. apply list_elem_of_lookup_2 in Hj.
      apply elem_of_cons in Hj as [->|Hj]; [done|]. by apply elem_of_replicate in Hj as [-> _].
Qed.

Lemma alloc_in_full key t input :
  table_wf key t → input ≠ 0%Z → input ∉ saved t → 0%Z ∉ saved t → alloc_in t input = Undef.
Proof.
  intros (_ & _ & _ & _ & used & free & Hs & Hnd & H0) Hin Hn Hfull.
  unfold alloc_in. rewrite Hs, alloc_search_used by done.
  destruct (list_find (λ s, s = input) used) as [[j x]|] eqn:Ef.
  - exfalso. apply list_find_Some in Ef as (Hj & -> & _). apply Hn. rewrite Hs.
    apply elem_of_app. left. by eapply list_elem_of_lookup_2.
  - destruct free; [done|]. exfalso. apply Hfull. rewrite Hs. apply elem_of_app. right. by left.
Qed.

Lemma block_in_stub t i : i < length (saved t) → block_in t (stub_addr t i) = Some i.
Proof.
  intros Hi. unfold block_in, stub_addr, sizeof_table, sizeof_trampoline, offsetof_thunk_instr.
  replace (table_base t + 8 + Z.of_nat i * 56 + 8 - table_base t - 8 - 8)%Z
    with (Z.of_nat i * 56)%Z by lia.
  rewrite Z_mod_mult, Z_div_mult by lia. cbn [Z.eqb andb].
  destruct (Z.leb_spec 0 (Z.of_nat i)); [|lia].
  destruct (Z.ltb_spec (Z.of_nat i) (Z.of_nat (length (saved t)))); [|lia].
  simpl. by rewrite Nat2Z.id.
Qed.

Lemma find_block_unique ts key t fp i :
  disjoint_stubs → tables_wf ts → ts !! key = Some t → block_in t fp = Some i →
  find_block ts fp = Some (t, i).
Proof.
  intros Hdis Hwf Ht Hi. unfold find_block.
  assert (∀ l, (∀ k t', (k, t') ∈ l → ts !! k = Some t') → (key, t) ∈ l →
    head (omap (λ kt, (λ i, (kt.2, i)) <$> block_in kt.2 fp) l) = Some (t, i)) as H.
  { clear -Hdis Hwf Ht Hi. intros l Hl Hin. induction l as [|[k t'] l IH].
    - by apply not_elem_of_nil in Hin.
    - cbn [omap list_omap fst snd]. destruct (block_in t' fp) as [i'|] eqn:E; simpl.
      + assert (ts !! k = Some t') as Hk by (apply Hl; by left).
        assert (k = key) as ->.
        { eapply (Hdis k key t' t fp i' i);
            [by apply (Hwf k t' Hk)|by apply (Hwf key t Ht)|by apply (Hwf k t' Hk)
            |by apply (Hwf key t Ht)|done|done]. }
        simplify_eq. congruence.
      + apply elem_of_cons in Hin as [[= -> ->]|Hin]; [congruence|].
        apply IH; [|done]. intros k0 t0 H0. apply Hl. by right. }
  apply H; [|by apply elem_of_map_to_list].
  intros k t'. by rewrite elem_of_map_to_list.
Qed.

Lemma alloc_in_again key t input i :
  table_wf key t → input ≠ 0%Z → saved t !! i = Some input →
  alloc_in t input = Done (t, stub_addr t i).
Proof.
  intros (_ & _ & _ & _ & used & free & Hs & Hnd & H0) Hin Hi. unfold alloc_in.
  assert (used !! i = Some input) as Hu.
  { rewrite Hs in Hi. apply lookup_app_Some in Hi as [Hi|[_ Hi]]; [done|].
    apply list_elem_of_lookup_2, elem_of_replicate in Hi as [-> _]. done. }
  rewrite Hs at 1. rewrite alloc_search_used by done.
  destruct (list_find (λ s, s = input) used) as [[j x]|] eqn:Ef.
  - apply list_find_Some in Ef as (Hj & -> & _). cbn [mbind run_bind Nat.add].
    assert (j = i) as -> by by eapply NoDup_lookup.
    rewrite list_insert_id by done. by destruct t.
  - exfalso. apply list_find_None in Ef. rewrite Forall_forall in Ef.
    eapply Ef; [|done]. by eapply list_elem_of_lookup_2.
Qed.

Lemma find_block_inv ts fp t j :
  find_block ts fp = Some (t, j) → ∃ k, ts !! k = Some t ∧ block_in t fp = Some j.
Proof.
  unfold find_block. intros E.
  assert ((t, j) ∈ omap (λ kt, (λ i, (kt.2, i)) <$> block_in kt.2 fp) (map_to_list ts))
    as Hin.
  { destruct (omap _ _); [done|]. simpl in E. simplify_eq. by left. }
  apply list_elem_of_omap in Hin as ([k t0] & Hin & He).
  apply elem_of_map_to_list in Hin. simpl in He.
  destruct (block_in t0 fp) eqn:Eb; simplify_eq/=. by exists k.
Qed.

Lemma block_in_lt t fp j : block_in t fp = Some j → j < length (saved t).
Proof.
  unfold block_in. destruct (_ && _ && _) eqn:Ec; [|done]. intros [= <-].
  apply andb_true_iff in Ec as [[_ H1]%andb_true_iff H2].
  apply Z.leb_le in H1. apply Z.ltb_lt in H2. lia.
Qed.

Lemma block_in_inv t fp i : block_in t fp = Some i → fp = stub_addr t i.
Proof.
  unfold block_in, stub_addr, sizeof_table, sizeof_trampoline, offsetof_thunk_instr.
  destruct (_ && _ && _) eqn:Ec; [|done]. intros [= <-].
  apply andb_true_iff in Ec as [[H0 H1]%andb_true_iff H2].
  apply Z.eqb_eq in H0. apply Z.leb_le in H1. rewrite Z2Nat.id by done.
  pose proof (Z_div_mod_eq_full (fp - table_base t - 8 - 8) 56). lia.
Qed.

(** No table is mapped so low that the null pointer is a stub. *)
Definition null_not_stub : Prop :=
  ∀ k t i, table_base t = mmap k → block_in t 0 ≠ Some i.

(** The block of a key's table that stands for a callback. *)
Lemma stub_of_block ts key t i input :
  disjoint_stubs → null_not_stub → tables_wf ts → ts !! key = Some t →
  saved t !! i = Some input →
  call_stub ts (stub_addr t i) = Some (input, handler key) ∧
  unwrapTrampoline ts (stub_addr t i) = input ∧ stub_addr t i ≠ 0%Z.
Proof.
  intros Hdis Hnull Hwf Ht Hi. destruct (Hwf key t Ht) as (Hb & Hh & Hm & _ & _).
  assert (block_in t (stub_addr t i) = Some i) as Hblk
    by (apply block_in_stub; by eapply lookup_lt_Some).
  pose proof (find_block_unique ts key t _ i Hdis Hwf Ht Hblk) as Hfind.
  assert (nth i (saved t) 0%Z = input) as Hnth by by apply nth_lookup_Some.
  assert (stub_addr t i ≠ 0%Z) as Hne.
  { intros H0. rewrite H0 in Hblk. by eapply (Hnull key t). }
  split_and!; [| |done].
  - unfold call_stub. rewrite Hfind. simpl. by rewrite Hnth, Hh.
  - unfold unwrapTrampoline, read_magic, read_saved. rewrite Hfind, Hm, Z.eqb_refl.
    by rewrite (proj2 (Z.eqb_neq _ _)).
Qed.

(** Replacing a table by one that extends it keeps every stub's meaning. *)
Lemma call_stub_extend ts key t t' :
  disjoint_stubs → tables_wf ts → table_wf key t' → tables_wf (<[key := t']> ts) →
  ts !! key = Some t ∨ ts !! key = None → length (saved t') = length (saved t) →
  (∀ j s, saved t !! j = Some s → s ≠ 0%Z → saved t' !! j = Some s) →
  ∀ fp f h, call_stub ts fp = Some (f, h) → f ≠ 0%Z →
            call_stub (<[key := t']> ts) fp = Some (f, h).
Proof.
  intros Hdis Hwf Hwf' Hwfs Hkey Hlen Hold fp f h Hcall Hf. unfold call_stub in *.
  destruct (find_block ts fp) as [[t1 j]|] eqn:E; [|done]. simpl in Hcall. simplify_eq.
  destruct (find_block_inv _ _ _ _ E) as (k & Hk & Hj).
  destruct (decide (k = key)) as [->|Hne].
  - destruct Hkey as [Hkey|Hkey]; [|congruence].
    assert (t1 = t) as -> by congruence.
    destruct (Hwf key t Hk) as (Hb & Hh & _ & _ & _), Hwf' as (Hb' & Hh' & _ & _ & _).
    rewrite (find_block_unique (<[key:=t']> ts) key t' fp j);
      [|done|done|apply lookup_insert_eq|].
    2: { unfold block_in in *. by rewrite Hb', <- Hb, Hlen. }
    simpl. destruct (lookup_lt_is_Some_2 _ _ (block_in_lt _ _ _ Hj)) as [s Hs].
    rewrite (nth_lookup_Some _ _ _ _ Hs) in *.
    by rewrite (nth_lookup_Some _ _ _ _ (Hold j s Hs Hf)), Hh, Hh'.
  - rewrite (find_block_unique (<[key:=t']> ts) k t1 fp j); [done|done|done| |done].
    by rewrite lookup_insert_ne.
Qed.

Lemma alloc_spec ts key input :
  disjoint_stubs → null_not_stub → tables_wf ts → input ≠ 0%Z →
  (input ∈ saved (table_of ts key) ∨ 0%Z ∈ saved (table_of ts key)) →
  ∃ ts' stub,
    allocCallbackTrampoline ts key input = Done (ts', stub) ∧ tables_wf ts' ∧
    call_stub ts' stub = Some (input, handler key) ∧
    unwrapTrampoline ts' stub = input ∧ stub ≠ 0%Z ∧
    allocCallbackTrampoline ts' key input = Done (ts', stub) ∧
    ∀ fp f h, call_stub ts fp = Some (f, h) → f ≠ 0%Z → call_stub ts' fp = Some (f, h).
Proof.
  intros Hdis Hnull Hwf Hin Hroom. unfold allocCallbackTrampoline.
  rewrite (proj2 (Z.eqb_neq input 0)) by done.
  pose proof (table_of_wf ts key Hwf) as Hwf0.
  destruct (alloc_in_spec key (table_of ts key) input Hwf0 Hin Hroom)
    as (t' & i & Ha & Hwf' & Hi & Hlen & Hold). rewrite Ha. cbn [mbind run_bind].
  assert (stub_addr (table_of ts key) i = stub_addr t' i) as ->.
  { unfold stub_addr. destruct Hwf' as [-> _]. by destruct Hwf0 as [-> _]. }
  assert (tables_wf (<[key:=t']> ts)) as Hwfs by by apply map_Forall_insert_2.
  destruct (stub_of_block (<[key:=t']> ts) key t' i input) as (Hc & Hu & Hne);
    [done|done|done|apply lookup_insert_eq|done|].
  exists (<[key:=t']> ts), (stub_addr t' i). split_and!; [done..| |].
  - assert (table_of (<[key:=t']> ts) key = t') as ->
      by (unfold table_of; by rewrite lookup_insert_eq).
    rewrite (alloc_in_again key t' input i) by done.
    cbn [mbind run_bind]. by rewrite insert_insert_eq.
  - apply (call_stub_extend ts key (table_of ts key) t'); try done.
    unfold table_of. destruct (ts !! key); [by left|by right].
Qed.

(** ** Properties *)

(** C8: a callback gets a stub of its own.  While the table of its key has
    room, or already knows the callback, the stub returned invokes the key's
    handler with [thread_last_callback] set to that callback, unwraps to it,
    and is the same the next time; every stub handed out before, of any key,
    still stands for the callback it was made for. *)
Theorem trampoline_alloc ts key input :
  disjoint_stubs → null_not_stub → tables_wf ts → input ≠ 0%Z →
  (input ∈ saved (table_of ts key) ∨ 0%Z ∈ saved (table_of ts key)) →
  ∃ ts' stub,
    allocCallbackTrampoline ts key input = Done (ts', stub) ∧ tables_wf ts' ∧
    call_stub ts' stub = Some (input, handler key) ∧
    unwrapTrampoline ts' stub = input ∧
    allocCallbackTrampoline ts' key input = Done (ts', stub) ∧
    ∀ fp f h, call_stub ts fp = Some (f, h) → f ≠ 0%Z → call_stub ts' fp = Some (f, h).
Proof.
  intros Hdis Hnull Hwf Hin Hroom.
  destruct (alloc_spec ts key input Hdis Hnull Hwf Hin Hroom)
    as (ts' & stub & ? & ? & ? & ? & _ & ? & ?). eauto 10.
Qed.

(** Nothing stops the search at the end of a table: once as many distinct
    callbacks as it has blocks have been wrapped, the next one is looked up,
    and stored, past its end. *)
Theorem trampoline_overflow ts key input :
  tables_wf ts → input ≠ 0%Z →
  input ∉ saved (table_of ts key) → 0%Z ∉ saved (table_of ts key) →
  allocCallbackTrampoline ts key input = Undef.
Proof.
  intros Hwf Hin Hn Hfull. unfold allocCallbackTrampoline.
  rewrite (proj2 (Z.eqb_neq input 0)) by done.
  by rewrite (alloc_in_full key _ input (table_of_wf ts key Hwf)).
Qed.

Lemma callback_restore isHost isGuest key ts fp ts' c :
  callback_init isHost isGuest key ts fp = Done (ts', c) → callback_fini c = fp.
Proof.
  unfold callback_init, callback_fini.
  destruct (negb _).
  - destruct (Z.eqb_spec fp 0) as [->|Hne].
    + unfold unwrapTrampoline at 1. cbn [Z.eqb].
      unfold allocCallbackTrampoline. cbn. by intros [= <- <-].
    + destruct (allocCallbackTrampoline _ _ _) as [[ts1 stub]| |]; [|done|done].
      cbn [mbind run_bind]. intros [= <- <-]. cbn.
      by rewrite (proj2 (Z.eqb_neq fp 0)).
  - destruct (Z.eqb_spec (unwrapTrampoline ts fp) fp); cbn [negb]; intros [= <- <-];
      cbn; [done|]. destruct (Z.eqb_spec fp 0) as [->|]; [|done]. done.
Qed.

(** A callback that crosses the boundary and comes back is itself again:
    a guest function handed to the host is wrapped in a stub the host can
    call, restored in the caller's slot after the call, and a host that passes
    the stub back hands the guest its own function, not a stub of a stub. *)
Theorem callback_double_crossing isHost key key' ts g :
  disjoint_stubs → null_not_stub → tables_wf ts → g ≠ 0%Z →
  unwrapTrampoline ts g = g → isHost g = false →
  (g ∈ saved (table_of ts key) ∨ 0%Z ∈ saved (table_of ts key)) →
  ∃ ts' c,
    callback_init isHost true key ts g = Done (ts', c) ∧
    call_stub ts' (slot c) = Some (g, handler key) ∧ callback_fini c = g ∧
    (slot c ≠ g → callback_init isHost false key' ts' (slot c)
                  = Done (ts', MkCallbackContext g (slot c))).
Proof.
  intros Hdis Hnull Hwf Hg Hun Hhost Hroom.
  destruct (alloc_spec ts key g Hdis Hnull Hwf Hg Hroom)
    as (ts' & stub & Ha & Hwf' & Hc & Hu & Hne & _).
  assert (callback_init isHost true key ts g = Done (ts', MkCallbackContext stub g))
    as Hinit.
  { unfold callback_init. rewrite Hun, Hhost. cbn [eqb negb]. by rewrite Ha. }
  exists ts', (MkCallbackContext stub g).
  split_and!; [done|done|by eapply callback_restore|].
  intros Hs. cbn [slot] in *. unfold callback_init. rewrite Hu, Hhost. cbn [eqb negb].
  by rewrite (proj2 (Z.eqb_neq g stub)).
Qed.
End tables.

(** ** Witnesses: tables a megabyte apart *)

Definition page (key : nat) : Z := 4096 + 1048576 * Z.of_nat key.
Definition page_handler (key : nat) : Z := 100 + Z.of_nat key.

Lemma page_disjoint : disjoint_stubs page kMaxCallbackTrampolineCount.
Proof.
  intros k1 k2 t1 t2 fp i1 i2 H1 H2 Hl1 Hl2 Hb1 Hb2.
  pose proof (block_in_lt _ _ _ Hb1). pose proof (block_in_lt _ _ _ Hb2).
  apply block_in_inv in Hb1, Hb2. unfold stub_addr, page, kMaxCallbackTrampolineCount,
    sizeof_table, sizeof_trampoline, offsetof_thunk_instr in *. lia.
Qed.

Lemma page_null : null_not_stub page.
Proof.
  intros k t i Hb Hi. apply block_in_inv in Hi.
  unfold stub_addr, page, sizeof_table, sizeof_trampoline, offsetof_thunk_instr in *. lia.
Qed.

Lemma empty_tables_wf : tables_wf page page_handler kMaxCallbackTrampolineCount ∅.
Proof. apply map_Forall_empty. Qed.

Lemma trampoline_alloc_witness :
  ∃ ts' stub,
    allocCallbackTrampoline page page_handler kMaxCallbackTrampolineCount ∅ 3 77 = Done (ts', stub) ∧
    call_stub ts' stub = Some (77, 103)%Z.
Proof.
  destruct (trampoline_alloc page page_handler (λ _, 0%Z) kMaxCallbackTrampolineCount ∅ 3 77
    page_disjoint page_null empty_tables_wf ltac:(done)) as (ts' & stub & Ha & _ & Hc & _).
  - right. apply (bool_decide_unpack _). by vm_compute.
  - by exists ts', stub.
Defined.

(** Sixteen callbacks wrapped, a seventeenth to come. *)
Definition full_tables : gmap nat FunctionTrampolineTable :=
  {[0 := MkTable (page 0) (page_handler 0) kTrampolineMagic (Z.of_nat <$> seq 1 16)]}.

Lemma full_tables_wf : tables_wf page page_handler kMaxCallbackTrampolineCount full_tables.
Proof.
  apply map_Forall_singleton. split_and!; [done..|].
  exists (Z.of_nat <$> seq 1 16), 0. split_and!; [done| |].
  - apply (bool_decide_unpack _). by vm_compute.
  - apply (bool_decide_unpack _). by vm_compute.
Qed.

Lemma trampoline_overflow_witness :
  allocCallbackTrampoline page page_handler kMaxCallbackTrampolineCount full_tables 0 17 = Undef.
Proof.
  apply (trampoline_overflow page page_handler kMaxCallbackTrampolineCount full_tables 0 17
    full_tables_wf); [done|apply (bool_decide_unpack _); by vm_compute..].
Defined.

Lemma callback_double_crossing_witness :
  ∃ ts' c,
    callback_init page page_handler (λ _, 0%Z) kMaxCallbackTrampolineCount (λ _, false) true 3 ∅ 77
    = Done (ts', c) ∧ call_stub ts' (slot c) = Some (77, 103)%Z ∧ callback_fini c = 77%Z.
Proof.
  destruct (callback_double_crossing page page_handler (λ _, 0%Z) kMaxCallbackTrampolineCount
    (λ _, false) 3 4 ∅ 77 page_disjoint page_null empty_tables_wf)
    as (ts' & c & H1 & H2 & H3 & _); [done|reflexivity|done| |by exists ts', c].
  right. apply (bool_decide_unpack _). by vm_compute.
Defined.
