(* ===== verification/VarSizeArray.v ===== *)
(** Arrays with inline storage: [include/lorelei/Support/VarSizeArray.h].

    The store holds buffers of slots, each raw or holding a live object; using a
    slot the wrong way (reading or destroying raw storage, constructing over a
    live object, touching a freed buffer, freeing a buffer that still holds
    objects) is undefined behaviour, as is leaving a buffer's bounds.  The inline
    buffer is one of the buffers, and its address identifies the array.  The
    element type, what a move leaves behind and what a default construction
    makes are parameters, as they are of the template.  Allocation succeeds and
    sizes stay below [2^63], so [size_t] arithmetic is that of [nat].

    The representation predicate [repr] relates an array to the list of its
    elements, and the theorems show that the operations are the list operations:
    they never have undefined behaviour on their documented domain, even when an
    argument refers to an element of the array, they touch no other buffer, and
    they leak none.  The one exception is [resize] with a value of the array
    itself. *)

From S2P Require Import Prelude.
From stdpp Require Import fin_maps fin_sets list.

Abbreviation loc := nat.

(** An array object; [m_inlineBegin] is the address of its inline buffer. *)
Record VarSizeArrayBase : Type := MkVarSizeArray {
  m_begin : loc;
  m_size : nat;
  m_capacity : nat;
  m_inlineBegin : loc;
  m_inlineCapacity : nat
}.

Definition kMinHeapCapacity : nat := 4.

Definition isInline (a : VarSizeArrayBase) : bool :=
  bool_decide (m_begin a = m_inlineBegin a).

Definition set_size (a : VarSizeArrayBase) (n : nat) : VarSizeArrayBase :=
  MkVarSizeArray (m_begin a) n (m_capacity a) (m_inlineBegin a) (m_inlineCapacity a).

Definition set_buffer (a : VarSizeArrayBase) (b : loc) (n c : nat) : VarSizeArrayBase :=
  MkVarSizeArray b n c (m_inlineBegin a) (m_inlineCapacity a).

Definition computeNewCapacity (a : VarSizeArrayBase) (minCapacity : nat) : nat :=
  let c := m_capacity a * 2 in
  let c := if decide (c < minCapacity) then minCapacity else c in
  if decide (c < kMinHeapCapacity) then kMinHeapCapacity else c.

Section VarSizeArray.

Context {T : Type} (moved : T → T).

(** ** Slots and buffers *)

Abbreviation buffer := (list (option T)).
Abbreviation store := (gmap loc buffer).

Definition read (h : store) (l : loc) (i : nat) : run T :=
  b ← defined (h !! l);
  match b !! i with Some (Some x) => Done x | _ => Undef end.

Definition construct (h : store) (l : loc) (i : nat) (x : T) : run store :=
  b ← defined (h !! l);
  match b !! i with Some None => Done (<[l := <[i := Some x]> b]> h) | _ => Undef end.

Definition destroy (h : store) (l : loc) (i : nat) : run store :=
  b ← defined (h !! l);
  match b !! i with Some (Some _) => Done (<[l := <[i := None]> b]> h) | _ => Undef end.

(** Assignment to a live object. *)
Definition write (h : store) (l : loc) (i : nat) (x : T) : run store :=
  b ← defined (h !! l);
  match b !! i with Some (Some _) => Done (<[l := <[i := Some x]> b]> h) | _ => Undef end.

Definition allocate (h : store) (n : nat) : loc * store :=
  let l := fresh (dom h) in (l, <[l := replicate n None]> h).

Definition deallocate (h : store) (l : loc) (n : nat) : run store :=
  b ← defined (h !! l);
  if bool_decide (length b = n ∧ Forall (.= None) b) then Done (delete l h) else Undef.

(** What a constructor argument refers to: a value outside the arrays, or an
    element, copied or moved from. *)
Inductive source : Type :=
  | Val (x : T)
  | Copy (l : loc) (i : nat)
  | Move (l : loc) (i : nat).

Definition take_source (h : store) (s : source) : run (T * store) :=
  match s with
  | Val x => Done (x, h)
  | Copy l i => x ← read h l i; Done (x, h)
  | Move l i => x ← read h l i; h ← write h l i (moved x); Done (x, h)
  end.

Definition construct_from (h : store) (l : loc) (i : nat) (s : source) : run store :=
  '(x, h) ← take_source h s;
  construct h l i x.

(** ** Private helpers *)

Fixpoint destroy_loop (h : store) (l : loc) (from k : nat) : run store :=
  match k with
  | 0 => Done h
  | S k => h ← destroy h l from; destroy_loop h l (S from) k
  end.

Definition destroyRange (h : store) (a : VarSizeArrayBase) (from to : nat) : run store :=
  destroy_loop h (m_begin a) from (to - from).

Fixpoint relocate_loop (h : store) (src dst : loc) (i k : nat) : run store :=
  match k with
  | 0 => Done h
  | S k =>
      h ← construct_from h dst i (Move src i);
      h ← destroy h src i;
      relocate_loop h src dst (S i) k
  end.

Definition relocateTo (h : store) (a : VarSizeArrayBase) (dst : loc) : run store :=
  relocate_loop h (m_begin a) dst 0 (m_size a).

(** Free the buffer unless it is the inline one. *)
Definition release (h : store) (a : VarSizeArrayBase) : run store :=
  if isInline a then Done h else deallocate h (m_begin a) (m_capacity a).

Definition grow (h : store) (a : VarSizeArrayBase) (minCapacity : nat) :
    run (store * VarSizeArrayBase) :=
  let newCapacity := computeNewCapacity a minCapacity in
  let '(newBuffer, h) := allocate h newCapacity in
  h ← relocateTo h a newBuffer;
  h ← release h a;
  Done (h, set_buffer a newBuffer (m_size a) newCapacity).

Definition growAndEmplaceBack (h : store) (a : VarSizeArrayBase) (arg : source) :
    run (store * VarSizeArrayBase) :=
  let newCapacity := computeNewCapacity a (m_size a + 1) in
  let '(newBuffer, h) := allocate h newCapacity in
  h ← construct_from h newBuffer (m_size a) arg;
  h ← relocateTo h a newBuffer;
  h ← release h a;
  Done (h, set_buffer a newBuffer (S (m_size a)) newCapacity).

Definition resetToInline (h : store) (a : VarSizeArrayBase) : run (store * VarSizeArrayBase) :=
  h ← destroyRange h a 0 (m_size a);
  if isInline a then Done (h, set_size a 0)
  else
    h ← deallocate h (m_begin a) (m_capacity a);
    Done (h, set_buffer a (m_inlineBegin a) 0 (m_inlineCapacity a)).

(** ** Capacity and element access *)

Definition adoptInlineBuffer (buffer : loc) (capacity : nat) : VarSizeArrayBase :=
  MkVarSizeArray buffer 0 capacity buffer capacity.

(** [VarSizeArray<T, N>()]: the object with its own inline buffer. *)
Definition new_array (h : store) (N : nat) : store * VarSizeArrayBase :=
  let '(l, h) := allocate h N in (h, adoptInlineBuffer l N).

Definition destructor (h : store) (a : VarSizeArrayBase) : run store :=
  h ← destroyRange h a 0 (m_size a);
  release h a.

Definition empty (a : VarSizeArrayBase) : bool := bool_decide (m_size a = 0).

Definition reserve (h : store) (a : VarSizeArrayBase) (n : nat) : run (store * VarSizeArrayBase) :=
  if bool_decide (m_capacity a < n) then grow h a n else Done (h, a).

Definition at_index (h : store) (a : VarSizeArrayBase) (i : nat) : run T := read h (m_begin a) i.
Definition front (h : store) (a : VarSizeArrayBase) : run T := read h (m_begin a) 0.
Definition back (h : store) (a : VarSizeArrayBase) : run T :=
  match m_size a with 0 => Undef | S n => read h (m_begin a) n end.

(** ** Adding elements *)

Definition emplace_back (h : store) (a : VarSizeArrayBase) (arg : source) :
    run (store * VarSizeArrayBase) :=
  if bool_decide (m_size a = m_capacity a) then growAndEmplaceBack h a arg
  else
    h ← construct_from h (m_begin a) (m_size a) arg;
    Done (h, set_size a (S (m_size a))).

(** Both [push_back] overloads; the source says whether the value is moved. *)
Definition push_back (h : store) (a : VarSizeArrayBase) (value : source) :
    run (store * VarSizeArrayBase) :=
  emplace_back h a value.

Fixpoint append (h : store) (a : VarSizeArrayBase) (l : list source) :
    run (store * VarSizeArrayBase) :=
  match l with
  | [] => Done (h, a)
  | s :: l => '(h, a) ← push_back h a s; append h a l
  end.

(** [std::rotate(first, middle, last)] within one buffer. *)
Definition std_rotate (h : store) (l : loc) (first middle last : nat) : run store :=
  b ← defined (h !! l);
  let range := take (last - first) (drop first b) in
  if bool_decide (first <= middle <= last ∧ last <= length b ∧ Forall is_Some range) then
    Done (<[l := take first b ++ drop (middle - first) range ++ take (middle - first) range
                   ++ drop last b]> h)
  else Undef.

Definition insert (h : store) (a : VarSizeArrayBase) (index : nat) (value : source) :
    run (store * VarSizeArrayBase * nat) :=
  '(h, a) ← push_back h a value;
  h ← std_rotate h (m_begin a) index (m_size a - 1) (m_size a);
  Done (h, a, index).

Fixpoint construct_loop (h : store) (l : loc) (i : nat) (xs : list T) : run store :=
  match xs with
  | [] => Done h
  | x :: xs => h ← construct h l i x; construct_loop h l (S i) xs
  end.

Definition insert_count (h : store) (a : VarSizeArrayBase) (index count : nat) (value : source) :
    run (store * VarSizeArrayBase * nat) :=
  if bool_decide (count = 0) then Done (h, a, index)
  else
    '(copy, h) ← take_source h value;
    '(h, a) ← reserve h a (m_size a + count);
    h ← construct_loop h (m_begin a) (m_size a) (replicate count copy);
    let a := set_size a (m_size a + count) in
    h ← std_rotate h (m_begin a) index (m_size a - count) (m_size a);
    Done (h, a, index).

Definition insert_range (h : store) (a : VarSizeArrayBase) (index : nat) (l : list source) :
    run (store * VarSizeArrayBase * nat) :=
  let oldSize := m_size a in
  '(h, a) ← append h a l;
  h ← std_rotate h (m_begin a) index oldSize (m_size a);
  Done (h, a, index).

(** ** Removing elements *)

Definition pop_back (h : store) (a : VarSizeArrayBase) : run (store * VarSizeArrayBase) :=
  match m_size a with
  | 0 => Undef
  | S n => h ← destroy h (m_begin a) n; Done (h, set_size a n)
  end.

(** [std::move(first, last, dst)], [k] elements from [src], within one buffer. *)
Fixpoint std_move (h : store) (l : loc) (src dst k : nat) : run store :=
  match k with
  | 0 => Done h
  | S k =>
      x ← read h l src;
      h ← write h l src (moved x);
      h ← write h l dst x;
      std_move h l (S src) (S dst) k
  end.

Definition erase (h : store) (a : VarSizeArrayBase) (index : nat) :
    run (store * VarSizeArrayBase * nat) :=
  if bool_decide (index < m_size a) then
    h ← std_move h (m_begin a) (index + 1) index (m_size a - (index + 1));
    '(h, a) ← pop_back h a;
    Done (h, a, index)
  else Undef.

Definition erase_range (h : store) (a : VarSizeArrayBase) (from to : nat) :
    run (store * VarSizeArrayBase * nat) :=
  if bool_decide (from = to) then Done (h, a, from)
  else if bool_decide (from <= to <= m_size a) then
    h ← std_move h (m_begin a) to from (m_size a - to);
    let removed := to - from in
    h ← destroyRange h a (m_size a - removed) (m_size a);
    Done (h, set_size a (m_size a - removed), from)
  else Undef.

Definition clear (h : store) (a : VarSizeArrayBase) : run (store * VarSizeArrayBase) :=
  h ← destroyRange h a 0 (m_size a);
  Done (h, set_size a 0).

(** [default] is what [T()] makes. *)
Definition resize (default : T) (h : store) (a : VarSizeArrayBase) (n : nat) : run (store * VarSizeArrayBase) :=
  if bool_decide (n < m_size a) then
    h ← destroyRange h a n (m_size a);
    Done (h, set_size a n)
  else if bool_decide (m_size a < n) then
    '(h, a) ← reserve h a n;
    h ← construct_loop h (m_begin a) (m_size a) (replicate (n - m_size a) default);
    Done (h, set_size a n)
  else Done (h, set_size a n).

(** The second overload copies [value] anew for every element it adds. *)
Fixpoint construct_copies (h : store) (l : loc) (i k : nat) (value : source) : run store :=
  match k with
  | 0 => Done h
  | S k => h ← construct_from h l i value; construct_copies h l (S i) k value
  end.

Definition resize_value (h : store) (a : VarSizeArrayBase) (n : nat) (value : source) :
    run (store * VarSizeArrayBase) :=
  if bool_decide (n < m_size a) then
    h ← destroyRange h a n (m_size a);
    Done (h, set_size a n)
  else if bool_decide (m_size a < n) then
    '(h, a) ← reserve h a n;
    h ← construct_copies h (m_begin a) (m_size a) (n - m_size a) value;
    Done (h, set_size a n)
  else Done (h, set_size a n).

(** ** Two arrays *)

(** [dst[i] = std::move(src[i])] into raw slots. *)
Fixpoint move_construct_loop (h : store) (src dst : loc) (i k : nat) : run store :=
  match k with
  | 0 => Done h
  | S k => h ← construct_from h dst i (Move src i); move_construct_loop h src dst (S i) k
  end.

Fixpoint copy_construct_loop (h : store) (src dst : loc) (i k : nat) : run store :=
  match k with
  | 0 => Done h
  | S k => h ← construct_from h dst i (Copy src i); copy_construct_loop h src dst (S i) k
  end.

(** [std::swap] of the elements at [i] of two buffers, for [k] of them. *)
Fixpoint swap_loop (h : store) (l l' : loc) (i k : nat) : run store :=
  match k with
  | 0 => Done h
  | S k =>
      x ← read h l i;
      y ← read h l' i;
      h ← write h l i y;
      h ← write h l' i x;
      swap_loop h l l' (S i) k
  end.

(** Move the tail of the longer array over and cut it there. *)
Definition swap_tail (h : store) (longer shorter : VarSizeArrayBase) (shared : nat) :
    run (store * VarSizeArrayBase * VarSizeArrayBase) :=
  h ← move_construct_loop h (m_begin longer) (m_begin shorter) shared (m_size longer - shared);
  h ← destroyRange h longer shared (m_size longer);
  Done (h, set_size longer shared, set_size shorter (m_size longer)).

Definition swap (h : store) (a b : VarSizeArrayBase) :
    run (store * VarSizeArrayBase * VarSizeArrayBase) :=
  if bool_decide (m_inlineBegin a = m_inlineBegin b) then Done (h, a, b)
  else if negb (isInline a) && negb (isInline b) then
    Done (h, set_buffer a (m_begin b) (m_size b) (m_capacity b),
             set_buffer b (m_begin a) (m_size a) (m_capacity a))
  else
    '(h, a) ← reserve h a (m_size b);
    '(h, b) ← reserve h b (m_size a);
    let shared := m_size a `min` m_size b in
    h ← swap_loop h (m_begin a) (m_begin b) 0 shared;
    if bool_decide (m_size b <= m_size a) then
      '(h, a, b) ← swap_tail h a b shared;
      Done (h, a, b)
    else
      '(h, b, a) ← swap_tail h b a shared;
      Done (h, a, b).

Definition assign_copy (h : store) (a rhs : VarSizeArrayBase) : run (store * VarSizeArrayBase) :=
  if bool_decide (m_inlineBegin a = m_inlineBegin rhs) then Done (h, a)
  else
    '(h, a) ← clear h a;
    '(h, a) ← reserve h a (m_size rhs);
    h ← copy_construct_loop h (m_begin rhs) (m_begin a) 0 (m_size rhs);
    Done (h, set_size a (m_size rhs)).

Definition assign_move (h : store) (a rhs : VarSizeArrayBase) :
    run (store * VarSizeArrayBase * VarSizeArrayBase) :=
  if bool_decide (m_inlineBegin a = m_inlineBegin rhs) then Done (h, a, rhs)
  else
    '(h, a) ← resetToInline h a;
    if isInline rhs then
      '(h, a) ← reserve h a (m_size rhs);
      h ← move_construct_loop h (m_begin rhs) (m_begin a) 0 (m_size rhs);
      let a := set_size a (m_size rhs) in
      '(h, rhs) ← clear h rhs;
      Done (h, a, rhs)
    else
      Done (h, set_buffer a (m_begin rhs) (m_size rhs) (m_capacity rhs),
               set_buffer rhs (m_inlineBegin rhs) 0 (m_inlineCapacity rhs)).

(** [VarSizeArray(const Base &)] and [operator=(std::initializer_list)]. *)
Definition copy_array (h : store) (N : nat) (rhs : VarSizeArrayBase) : run (store * VarSizeArrayBase) :=
  let '(h, a) := new_array h N in assign_copy h a rhs.

Definition move_array (h : store) (N : nat) (rhs : VarSizeArrayBase) :
    run (store * VarSizeArrayBase * VarSizeArrayBase) :=
  let '(h, a) := new_array h N in assign_move h a rhs.

Definition init_array (h : store) (N : nat) (l : list source) : run (store * VarSizeArrayBase) :=
  let '(h, a) := new_array h N in append h a l.

Definition assign_list (h : store) (a : VarSizeArrayBase) (l : list source) :
    run (store * VarSizeArrayBase) :=
  '(h, a) ← clear h a; append h a l.

(** ** Slots *)

Lemma lookup_mid {A} (pre suf : list A) x i :
  i = length pre → (pre ++ x :: suf) !! i = Some x.
Proof. intros ->. by apply list_lookup_middle. Qed.

Lemma insert_mid {A} (pre suf : list A) x y i :
  i = length pre → <[i := y]> (pre ++ x :: suf) = pre ++ y :: suf.
Proof. intros ->. rewrite insert_app_r_alt by lia. by rewrite Nat.sub_diag. Qed.

Lemma read_at h l b i x :
  h !! l = Some b → b !! i = Some (Some x) → read h l i = Done x.
Proof. intros Hl Hi. unfold read. rewrite Hl. cbn. by rewrite Hi. Qed.

Lemma write_mid h l pre y suf i x :
  h !! l = Some (pre ++ Some y :: suf) → i = length pre →
  write h l i x = Done (<[l := pre ++ Some x :: suf]> h).
Proof.
  intros Hl Hi. unfold write. rewrite Hl. cbn.
  by rewrite (lookup_mid pre suf _ i Hi), (insert_mid pre suf _ _ i Hi).
Qed.

Lemma construct_mid h l pre suf i x :
  h !! l = Some (pre ++ None :: suf) → i = length pre →
  construct h l i x = Done (<[l := pre ++ Some x :: suf]> h).
Proof.
  intros Hl Hi. unfold construct. rewrite Hl. cbn.
  by rewrite (lookup_mid pre suf _ i Hi), (insert_mid pre suf _ _ i Hi).
Qed.

Lemma destroy_mid h l pre suf i x :
  h !! l = Some (pre ++ Some x :: suf) → i = length pre →
  destroy h l i = Done (<[l := pre ++ None :: suf]> h).
Proof.
  intros Hl Hi. unfold destroy. rewrite Hl. cbn.
  by rewrite (lookup_mid pre suf _ i Hi), (insert_mid pre suf _ _ i Hi).
Qed.

(** ** Loops over slots *)

Lemma snoc_len {A} (pre : list A) x n : n = length pre → S n = length (pre ++ [x]).
Proof. intros ->. rewrite length_app. cbn. lia. Qed.

Lemma destroy_loop_spec l ys : ∀ h pre suf i,
  h !! l = Some (pre ++ (Some <$> ys) ++ suf) → i = length pre →
  destroy_loop h l i (length ys) = Done (<[l := pre ++ replicate (length ys) None ++ suf]> h).
Proof.
  induction ys as [|y ys IH]; intros h pre suf i Hl Hi; cbn [length destroy_loop].
  - by rewrite insert_id.
  - cbn in Hl. rewrite (destroy_mid _ _ _ _ _ _ Hl Hi). cbn [mbind run_bind].
    rewrite (IH _ (pre ++ [None]) suf); [|by rewrite lookup_insert_eq, <- app_assoc|by apply snoc_len].
    rewrite insert_insert_eq, <- app_assoc. done.
Qed.

Lemma construct_loop_spec l xs : ∀ h pre suf i,
  h !! l = Some (pre ++ replicate (length xs) None ++ suf) → i = length pre →
  construct_loop h l i xs = Done (<[l := pre ++ (Some <$> xs) ++ suf]> h).
Proof.
  induction xs as [|x xs IH]; intros h pre suf i Hl Hi; cbn [length construct_loop].
  - by rewrite insert_id.
  - cbn in Hl. rewrite (construct_mid _ _ _ _ _ _ Hl Hi). cbn [mbind run_bind].
    rewrite (IH _ (pre ++ [Some x]) suf); [|by rewrite lookup_insert_eq, <- app_assoc|by apply snoc_len].
    rewrite insert_insert_eq, <- app_assoc. done.
Qed.

(** Collapse the updates of two different buffers. *)
Ltac two_buffers :=
  apply map_eq; intros ?l';
  repeat match goal with
  | |- context [<[?k := _]> _ !! ?k] => rewrite lookup_insert_eq
  | H : ?k <> ?k' |- context [<[?k := _]> _ !! ?k'] => rewrite lookup_insert_ne by done
  | H : ?k' <> ?k |- context [<[?k := _]> _ !! ?k'] => rewrite lookup_insert_ne by done
  | |- context [<[?k := _]> _ !! ?k'] => destruct (decide (k = k')) as [<-|?]
  end; try done; try congruence.

Lemma move_source h l i pre x suf :
  h !! l = Some (pre ++ Some x :: suf) → i = length pre →
  take_source h (Move l i) = Done (x, <[l := pre ++ Some (moved x) :: suf]> h).
Proof.
  intros Hl Hi. cbn. rewrite (read_at _ _ _ _ _ Hl (lookup_mid _ _ _ _ Hi)).
  cbn. by rewrite (write_mid _ _ _ _ _ _ _ Hl Hi).
Qed.

Lemma relocate_loop_spec src dst ys : src ≠ dst → ∀ h pre suf pre' suf' i,
  h !! src = Some (pre ++ (Some <$> ys) ++ suf) → i = length pre →
  h !! dst = Some (pre' ++ replicate (length ys) None ++ suf') → i = length pre' →
  relocate_loop h src dst i (length ys) =
    Done (<[dst := pre' ++ (Some <$> ys) ++ suf']>
          (<[src := pre ++ replicate (length ys) None ++ suf]> h)).
Proof.
  intros Hne. induction ys as [|y ys IH]; intros h pre suf pre' suf' i Hs Hi Hd Hi';
    cbn [length relocate_loop].
  - f_equal. cbn in *. symmetry. rewrite !insert_id; [done|done|by rewrite lookup_insert_ne].
  - cbn in Hs, Hd. unfold construct_from. rewrite (move_source _ _ _ _ _ _ Hs Hi).
    cbn [mbind run_bind].
    rewrite (construct_mid _ dst pre' (replicate (length ys) None ++ suf') i)
      by (done || by rewrite lookup_insert_ne).
    cbn [mbind run_bind].
    rewrite (destroy_mid _ src pre ((Some <$> ys) ++ suf) i (moved y)); [|
      by rewrite lookup_insert_ne, lookup_insert_eq by done | done].
    cbn [mbind run_bind].
    rewrite (IH _ (pre ++ [None]) suf (pre' ++ [Some y]) suf'); [| | |
      |by apply snoc_len]; [|by rewrite lookup_insert_eq, <- app_assoc|by apply snoc_len|
      by rewrite lookup_insert_ne, lookup_insert_eq, <- app_assoc by done].
    f_equal. two_buffers; by rewrite <- app_assoc.
Qed.

Lemma move_construct_loop_spec src dst ys : src ≠ dst → ∀ h pre suf pre' suf' i,
  h !! src = Some (pre ++ (Some <$> ys) ++ suf) → i = length pre →
  h !! dst = Some (pre' ++ replicate (length ys) None ++ suf') → i = length pre' →
  move_construct_loop h src dst i (length ys) =
    Done (<[dst := pre' ++ (Some <$> ys) ++ suf']>
          (<[src := pre ++ (Some <$> (moved <$> ys)) ++ suf]> h)).
Proof.
  intros Hne. induction ys as [|y ys IH]; intros h pre suf pre' suf' i Hs Hi Hd Hi';
    cbn [length move_construct_loop].
  - f_equal. cbn in *. symmetry. rewrite !insert_id; [done|done|by rewrite lookup_insert_ne].
  - cbn in Hs, Hd. unfold construct_from. rewrite (move_source _ _ _ _ _ _ Hs Hi).
    cbn [mbind run_bind].
    rewrite (construct_mid _ dst pre' (replicate (length ys) None ++ suf') i)
      by (done || by rewrite lookup_insert_ne).
    cbn [mbind run_bind].
    rewrite (IH _ (pre ++ [Some (moved y)]) suf (pre' ++ [Some y]) suf'); [| | |
      |by apply snoc_len]; [|by rewrite lookup_insert_ne, lookup_insert_eq, <- app_assoc by done
      |by apply snoc_len|by rewrite lookup_insert_eq, <- app_assoc].
    f_equal. two_buffers; by rewrite <- app_assoc.
Qed.

Lemma copy_construct_loop_spec src dst ys : src ≠ dst → ∀ h pre suf pre' suf' i,
  h !! src = Some (pre ++ (Some <$> ys) ++ suf) → i = length pre →
  h !! dst = Some (pre' ++ replicate (length ys) None ++ suf') → i = length pre' →
  copy_construct_loop h src dst i (length ys) =
    Done (<[dst := pre' ++ (Some <$> ys) ++ suf']> h).
Proof.
  intros Hne. induction ys as [|y ys IH]; intros h pre suf pre' suf' i Hs Hi Hd Hi';
    cbn [length copy_construct_loop].
  - by rewrite insert_id.
  - cbn in Hs, Hd. unfold construct_from. cbn [take_source].
    rewrite (read_at _ _ _ _ _ Hs (lookup_mid _ _ _ _ Hi)). cbn [mbind run_bind].
    rewrite (construct_mid _ dst pre' (replicate (length ys) None ++ suf') i) by done.
    cbn [mbind run_bind].
    rewrite (IH _ (pre ++ [Some y]) suf (pre' ++ [Some y]) suf'); [| | |
      |by apply snoc_len]; [|by rewrite lookup_insert_ne, <- app_assoc by done
      |by apply snoc_len|by rewrite lookup_insert_eq, <- app_assoc].
    by rewrite insert_insert_eq, <- app_assoc.
Qed.

Lemma swap_loop_spec l l' xs : l ≠ l' → ∀ ys h pre suf pre' suf' i,
  length xs = length ys →
  h !! l = Some (pre ++ (Some <$> xs) ++ suf) → i = length pre →
  h !! l' = Some (pre' ++ (Some <$> ys) ++ suf') → i = length pre' →
  swap_loop h l l' i (length xs) =
    Done (<[l' := pre' ++ (Some <$> xs) ++ suf']> (<[l := pre ++ (Some <$> ys) ++ suf]> h)).
Proof.
  intros Hne. induction xs as [|x xs IH]; intros [|y ys] h pre suf pre' suf' i Hlen Hs Hi Hd Hi';
    try discriminate; cbn [length swap_loop].
  - f_equal. cbn in *. symmetry. rewrite !insert_id; [done|done|by rewrite lookup_insert_ne].
  - cbn in Hs, Hd. rewrite (read_at _ _ _ _ _ Hs (lookup_mid _ _ _ _ Hi)). cbn [mbind run_bind].
    rewrite (read_at _ _ _ _ _ Hd (lookup_mid _ _ _ _ Hi')). cbn [mbind run_bind].
    rewrite (write_mid _ _ _ _ _ _ y Hs Hi). cbn [mbind run_bind].
    rewrite (write_mid _ l' pre' y ((Some <$> ys) ++ suf') i x)
      by (done || by rewrite lookup_insert_ne). cbn [mbind run_bind].
    rewrite (IH ys _ (pre ++ [Some y]) suf (pre' ++ [Some x]) suf');
      [|by injection Hlen| |by apply snoc_len| |by apply snoc_len];
      [|by rewrite lookup_insert_ne, lookup_insert_eq, <- app_assoc by done
      |by rewrite lookup_insert_eq, <- app_assoc].
    f_equal. two_buffers; by rewrite <- app_assoc.
Qed.

(** Moving [ys] down over the gap [gs] leaves it whole in front. *)
Lemma std_move_spec l ys : ∀ h pre gs suf dst,
  h !! l = Some (pre ++ (Some <$> gs) ++ (Some <$> ys) ++ suf) → gs ≠ [] → dst = length pre →
  ∃ zs, length zs = length gs ∧
    std_move h l (dst + length gs) dst (length ys) =
      Done (<[l := pre ++ (Some <$> ys) ++ (Some <$> zs) ++ suf]> h).
Proof.
  induction ys as [|y ys IH]; intros h pre gs suf dst Hl Hgs Hd; cbn [length std_move].
  - exists gs. split; [done|]. by rewrite insert_id.
  - destruct gs as [|g gs]; [done|].
    assert (Hsrc : h !! l = Some ((pre ++ (Some <$> g :: gs)) ++ Some y :: (Some <$> ys) ++ suf))
      by (rewrite <- app_assoc; exact Hl).
    assert (Hi : dst + length (g :: gs) = length (pre ++ (Some <$> g :: gs)))
      by (rewrite length_app, length_fmap; lia).
    rewrite (read_at _ _ _ _ _ Hsrc (lookup_mid _ _ _ _ Hi)). cbn [mbind run_bind].
    rewrite (write_mid _ _ _ _ _ _ (moved y) Hsrc Hi). cbn [mbind run_bind].
    rewrite (write_mid _ l pre g ((Some <$> gs) ++ Some (moved y) :: (Some <$> ys) ++ suf) dst y);
      [|by rewrite lookup_insert_eq, <- app_assoc|done].
    cbn [mbind run_bind]. rewrite insert_insert_eq.
    destruct (IH (<[l := pre ++ Some y :: (Some <$> gs) ++ Some (moved y) :: (Some <$> ys) ++ suf]> h)
                 (pre ++ [Some y]) (gs ++ [moved y]) suf (S dst)) as (zs & Hz & E).
    { rewrite lookup_insert_eq, fmap_app, <- !app_assoc. done. }
    { by destruct gs. }
    { by apply snoc_len. }
    exists zs. rewrite Hz, length_app. cbn [length]. split; [lia|].
    replace (S (dst + S (length gs))) with (S dst + length (gs ++ [moved y]))
      by (rewrite length_app; cbn; lia).
    rewrite E, insert_insert_eq, <- app_assoc. done.
Qed.

Lemma std_rotate_spec h l pre xs ys suf first middle last :
  h !! l = Some (pre ++ (Some <$> xs) ++ (Some <$> ys) ++ suf) → first = length pre →
  middle = first + length xs → last = middle + length ys →
  std_rotate h l first middle last =
    Done (<[l := pre ++ (Some <$> ys) ++ (Some <$> xs) ++ suf]> h).
Proof.
  intros Hl -> -> ->. unfold std_rotate. rewrite Hl. cbn [defined mbind run_bind].
  rewrite take_app_length, drop_app_length.
  replace (length pre + length xs + length ys - length pre)
    with (length ((Some <$> xs) ++ (Some <$> ys) : list (option T)))
    by (rewrite length_app, !length_fmap; lia).
  rewrite app_assoc with (l := Some <$> xs), take_app_length.
  rewrite bool_decide_true; cycle 1.
  { rewrite !length_app, !length_fmap. split_and!; [lia..|].
    rewrite <- fmap_app. apply Forall_fmap, Forall_true. intros x. by exists x. }
  replace (length pre + length xs - length pre) with (length (Some <$> xs : list (option T)))
    by (rewrite length_fmap; lia).
  rewrite drop_app_length, take_app_length.
  replace (length pre + length xs + length ys)
    with (length (pre ++ (Some <$> xs) ++ (Some <$> ys) : list (option T)))
    by (rewrite !length_app, !length_fmap; lia).
  rewrite (app_assoc pre _ suf), drop_app_length. done.
Qed.

(** ** Representation *)

(** A buffer of [n] slots with [xs] in front. *)
Definition cells (xs : list T) (n : nat) : buffer :=
  (Some <$> xs) ++ replicate (n - length xs) None.
#[local] Arguments cells : simpl never.

(** [a] holds [xs]; a heap-backed array has an empty inline buffer. *)
Record repr (h : store) (a : VarSizeArrayBase) (xs : list T) : Prop := MkRepr {
  repr_size : m_size a = length xs;
  repr_fits : length xs <= m_capacity a;
  repr_buffer : h !! m_begin a = Some (cells xs (m_capacity a));
  repr_inline : m_begin a = m_inlineBegin a → m_capacity a = m_inlineCapacity a;
  repr_spare : m_begin a ≠ m_inlineBegin a →
               h !! m_inlineBegin a = Some (replicate (m_inlineCapacity a) None)
}.

(** The buffers of an array. *)
Definition footprint (a : VarSizeArrayBase) : gset loc := {[m_begin a; m_inlineBegin a]}.

(** From [h, a] to [h', a']: other buffers are as they were, a buffer the array
    gained is new, one it lost is gone, and the object is the same. *)
Record framed (h : store) (a : VarSizeArrayBase) (h' : store) (a' : VarSizeArrayBase) : Prop :=
  MkFramed {
    framed_same : ∀ l, l ∉ footprint a → l ∉ footprint a' → h' !! l = h !! l;
    framed_new : ∀ l, l ∈ footprint a' → l ∉ footprint a → h !! l = None;
    framed_gone : ∀ l, l ∈ footprint a → l ∉ footprint a' → h' !! l = None;
    framed_inline : m_inlineBegin a' = m_inlineBegin a;
    framed_inlineCapacity : m_inlineCapacity a' = m_inlineCapacity a
  }.

Lemma framed_refl h a : framed h a h a.
Proof. split; done. Qed.

Lemma framed_trans h a h1 a1 h2 a2 :
  framed h a h1 a1 → framed h1 a1 h2 a2 → framed h a h2 a2.
Proof.
  intros [S1 N1 G1 I1 C1] [S2 N2 G2 I2 C2]. split; [..|congruence|congruence]; intros l H H'.
  - destruct (decide (l ∈ footprint a1)) as [Hl|Hl]; [|by rewrite S2, S1].
    by rewrite (G2 l), (N1 l).
  - destruct (decide (l ∈ footprint a1)) as [Hl|Hl]; [by apply N1|].
    rewrite <- (S1 l) by done. by apply N2.
  - destruct (decide (l ∈ footprint a1)) as [Hl|Hl]; [by apply G2|].
    rewrite S2 by done. by apply G1.
Qed.

(** Rewriting the array's own buffer stays inside its footprint. *)
Lemma framed_update h a a' b :
  m_begin a' = m_begin a → m_inlineBegin a' = m_inlineBegin a →
  m_inlineCapacity a' = m_inlineCapacity a → framed h a (<[m_begin a := b]> h) a'.
Proof.
  intros E E' E''. assert (F : footprint a' = footprint a) by (unfold footprint; congruence).
  split; rewrite ?F; [|done|done|done|done]. intros l Hl _.
  rewrite lookup_insert_ne; [done|]. unfold footprint in Hl. set_solver.
Qed.

Lemma cells_app xs ys n :
  cells (xs ++ ys) n = (Some <$> xs) ++ (Some <$> ys) ++ replicate (n - length xs - length ys) None.
Proof. unfold cells. rewrite fmap_app, length_app, <- app_assoc. do 3 f_equal. lia. Qed.

Lemma cells_raw xs n k :
  length xs + k <= n →
  cells xs n = (Some <$> xs) ++ replicate k None ++ replicate (n - length xs - k) None.
Proof.
  intros H. unfold cells. rewrite <- replicate_add. do 2 f_equal. lia.
Qed.

Lemma cells_nil n : cells [] n = replicate n None.
Proof. unfold cells. cbn. by rewrite Nat.sub_0_r. Qed.

Lemma cells_full xs n : n <= length xs → cells xs n = Some <$> xs.
Proof. intros H. unfold cells. replace (n - length xs) with 0 by lia. apply app_nil_r. Qed.

Lemma fmap_len (xs : list T) : length xs = length (Some <$> xs : buffer).
Proof. by rewrite length_fmap. Qed.

Lemma cells_lookup xs n i x : xs !! i = Some x → cells xs n !! i = Some (Some x).
Proof.
  intros H. unfold cells. rewrite lookup_app_l, list_lookup_fmap, H; [done|].
  rewrite length_fmap. by eapply lookup_lt_Some.
Qed.

Lemma read_repr h a xs i x :
  repr h a xs → xs !! i = Some x → read h (m_begin a) i = Done x.
Proof. intros R Hi. eapply read_at; [apply R|by apply cells_lookup]. Qed.

(** The array after its own buffer was rewritten. *)
Lemma repr_update h a a' xs ys :
  repr h a xs → m_begin a' = m_begin a → m_inlineBegin a' = m_inlineBegin a →
  m_capacity a' = m_capacity a → m_inlineCapacity a' = m_inlineCapacity a →
  m_size a' = length ys → length ys <= m_capacity a →
  repr (<[m_begin a := cells ys (m_capacity a)]> h) a' ys.
Proof.
  intros R E1 E2 E3 E4 E5 Hf. split; rewrite ?E1, ?E2, ?E3, ?E4; [done|done| |apply R|].
  - by rewrite lookup_insert_eq.
  - intros Hne. rewrite lookup_insert_ne by done. by apply R.
Qed.

Lemma repr_frame h h' a xs :
  repr h a xs → (∀ l, l ∈ footprint a → h' !! l = h !! l) → repr h' a xs.
Proof.
  intros R H. unfold footprint in H.
  split; [apply R|apply R| |apply R|intros Hne]; rewrite H by set_solver; by apply R.
Qed.

(** ** Construction and destruction *)

Lemma fresh_lookup (h : store) : h !! fresh (dom h) = None.
Proof. apply not_elem_of_dom, is_fresh. Qed.

Lemma new_array_spec h N :
  let '(h', a) := new_array h N in
  repr h' a [] ∧ h !! m_inlineBegin a = None ∧ footprint a = {[m_inlineBegin a]} ∧
  m_inlineCapacity a = N ∧ h' = <[m_inlineBegin a := replicate N None]> h.
Proof.
  cbn. split_and!; [|apply fresh_lookup|unfold footprint; cbn; set_solver|done|done].
  split; cbn; [done|lia| |done|done]. rewrite lookup_insert_eq. by rewrite cells_nil.
Qed.

Lemma destroyRange_spec h a xs ys :
  repr h a (xs ++ ys) →
  destroyRange h a (length xs) (length (xs ++ ys)) =
    Done (<[m_begin a := cells xs (m_capacity a)]> h).
Proof.
  intros R. unfold destroyRange. replace (length (xs ++ ys) - length xs) with (length ys)
    by (rewrite length_app; lia).
  pose proof (repr_fits _ _ _ R) as Hf. rewrite length_app in Hf.
  pose proof (repr_buffer _ _ _ R) as Hb. rewrite cells_app in Hb.
  rewrite (destroy_loop_spec _ _ _ _ _ _ Hb) by (by rewrite length_fmap).
  rewrite (cells_raw xs _ (length ys)) by lia. done.
Qed.

Lemma clear_spec h a xs :
  repr h a xs →
  clear h a = Done (<[m_begin a := cells [] (m_capacity a)]> h, set_size a 0) ∧
  repr (<[m_begin a := cells [] (m_capacity a)]> h) (set_size a 0) [] ∧
  framed h a (<[m_begin a := cells [] (m_capacity a)]> h) (set_size a 0).
Proof.
  intros R. split_and!.
  - unfold clear. rewrite (repr_size _ _ _ R). pose proof (destroyRange_spec h a [] xs R) as E.
    cbn [length app] in E. by rewrite E.
  - eapply repr_update; cbn; [exact R|done..|lia].
  - by apply framed_update.
Qed.

Lemma dealloc_spec (h : store) l n :
  h !! l = Some (cells [] n) → deallocate h l n = Done (delete l h).
Proof.
  intros H. unfold deallocate. rewrite H. cbn [defined mbind run_bind].
  rewrite cells_nil, bool_decide_true; [done|].
  split; [by rewrite length_replicate|by apply Forall_replicate].
Qed.

Lemma release_spec (h : store) a :
  h !! m_begin a = Some (cells [] (m_capacity a)) →
  release h a = Done (if isInline a then h else delete (m_begin a) h).
Proof. intros H. unfold release. destruct (isInline a); [done|]. by apply dealloc_spec. Qed.

(** ** Growing *)

Lemma computeNewCapacity_ge a n :
  n <= computeNewCapacity a n ∧ m_capacity a * 2 <= computeNewCapacity a n ∧
  kMinHeapCapacity <= computeNewCapacity a n.
Proof. unfold computeNewCapacity. repeat case_decide; lia. Qed.

(** The new buffer, with [k] raw slots and [suf] behind the old elements, takes
    the place of the old one. *)
Lemma regrow_spec h a xs nb ys c suf :
  repr h a xs → h !! nb = Some (replicate (length xs) None ++ suf) →
  nb ∉ footprint a → (Some <$> xs) ++ suf = cells ys c → length ys <= c →
  let a' := set_buffer a nb (length ys) c in
  ∃ h', (h ← relocateTo h a nb; release h a) = Done h' ∧ repr h' a' ys ∧
    (∀ l, l ∉ footprint a → l ≠ nb → h' !! l = h !! l) ∧
    (m_begin a ≠ m_inlineBegin a → h' !! m_begin a = None).
Proof.
  intros R Hnb Hf Hys Hc a'. unfold relocateTo. rewrite (repr_size _ _ _ R).
  assert (Hne : m_begin a ≠ nb ∧ m_inlineBegin a ≠ nb) by (unfold footprint in Hf; set_solver).
  destruct Hne as [Hb Hi].
  rewrite (relocate_loop_spec _ _ _ Hb h [] (replicate (m_capacity a - length xs) None) [] suf 0
             (repr_buffer _ _ _ R) eq_refl Hnb eq_refl). cbn [app].
  assert (E : replicate (length xs) None ++ replicate (m_capacity a - length xs) None
              = cells [] (m_capacity a)).
  { rewrite cells_nil, <- replicate_add. f_equal. pose proof (repr_fits _ _ _ R). lia. }
  rewrite E, Hys. cbn [mbind run_bind].
  rewrite release_spec by (by rewrite lookup_insert_ne, lookup_insert_eq).
  eexists. split; [done|]. unfold isInline. unfold footprint.
  split_and!.
  - split; cbn; [done|done| |done|]; case_bool_decide as Hin.
    + by rewrite lookup_insert_eq.
    + by rewrite lookup_delete_ne, lookup_insert_eq.
    + intros _. rewrite lookup_insert_ne, <- Hin, lookup_insert_eq by congruence.
      rewrite cells_nil. f_equal. f_equal. by apply R.
    + intros _. rewrite lookup_delete_ne, !lookup_insert_ne by congruence. by apply R.
  - intros l Hl Hl'. assert (l ≠ m_begin a) by set_solver.
    case_bool_decide; [|rewrite lookup_delete_ne by done]; by rewrite !lookup_insert_ne.
  - intros Hin. rewrite bool_decide_false by done. apply lookup_delete_eq.
Qed.

Lemma framed_regrow h h' a nb n c :
  h !! nb = None → (∀ l, l ∉ footprint a → l ≠ nb → h' !! l = h !! l) →
  (m_begin a ≠ m_inlineBegin a → h' !! m_begin a = None) →
  framed h a h' (set_buffer a nb n c).
Proof.
  intros Hnb Hs Hg. unfold footprint in Hs.
  split; cbn; [..|done|done]; unfold footprint; cbn; intros l H H'.
  - apply Hs; set_solver.
  - assert (l = nb) as -> by set_solver. done.
  - assert (l = m_begin a) as -> by set_solver. apply Hg. set_solver.
Qed.

(** A new buffer is outside every footprint of the store. *)
Lemma fresh_footprint h a xs : repr h a xs → fresh (dom h) ∉ footprint a.
Proof.
  intros R Hin. pose proof (fresh_lookup h) as Hf. unfold footprint in Hin.
  assert (fresh (dom h) = m_begin a ∨ fresh (dom h) = m_inlineBegin a) as [E|E] by set_solver.
  - rewrite E, (repr_buffer _ _ _ R) in Hf. done.
  - destruct (decide (m_begin a = m_inlineBegin a)) as [E'|E'].
    + rewrite E, <- E', (repr_buffer _ _ _ R) in Hf. done.
    + rewrite E, (repr_spare _ _ _ R E') in Hf. done.
Qed.

Lemma repr_allocate h a xs n :
  repr h a xs → repr (<[fresh (dom h) := replicate n None]> h) a xs.
Proof.
  intros R. eapply repr_frame; [exact R|]. intros l Hl.
  rewrite lookup_insert_ne; [done|]. intros <-. by eapply fresh_footprint.
Qed.

Lemma grow_spec h a xs n :
  repr h a xs → length xs <= n →
  ∃ h' a', grow h a n = Done (h', a') ∧ repr h' a' xs ∧ framed h a h' a' ∧ n <= m_capacity a'.
Proof.
  intros R Hn. unfold grow. cbn [allocate].
  set (c := computeNewCapacity a n). pose proof (computeNewCapacity_ge a n) as (Hc & _ & _).
  fold c in Hc.
  destruct (regrow_spec _ a xs (fresh (dom h)) xs c (replicate (c - length xs) None)
              (repr_allocate h a xs c R)) as (h' & E & R' & Hs & Hg);
    [|by eapply fresh_footprint|done|lia|].
  { rewrite lookup_insert_eq, <- replicate_add. do 2 f_equal. lia. }
  destruct (relocateTo _ _ _) as [h1| |]; cbn [mbind run_bind] in *; try discriminate.
  rewrite E. rewrite (repr_size _ _ _ R). eexists _, _. split; [done|]. split; [exact R'|].
  split; [|cbn; lia]. apply framed_regrow; [apply fresh_lookup| |exact Hg].
  intros l Hl Hl'. by rewrite Hs, lookup_insert_ne.
Qed.

Lemma reserve_spec h a xs n :
  repr h a xs →
  ∃ h' a', reserve h a n = Done (h', a') ∧ repr h' a' xs ∧ framed h a h' a' ∧ n <= m_capacity a'.
Proof.
  intros R. pose proof (repr_fits _ _ _ R). unfold reserve. case_bool_decide.
  - apply grow_spec; [done|lia].
  - exists h, a. split_and!; [done|done|apply framed_refl|lia].
Qed.

(** ** Constructor arguments *)

(** [s] is worth [x], and taking it leaves the elements [xs']. *)
Inductive denotes (h : store) (a : VarSizeArrayBase) (xs : list T) :
    source → T → list T → Prop :=
  | denotes_val x : denotes h a xs (Val x) x xs
  | denotes_copy i x : xs !! i = Some x → denotes h a xs (Copy (m_begin a) i) x xs
  | denotes_move i x :
      xs !! i = Some x → denotes h a xs (Move (m_begin a) i) x (<[i := moved x]> xs)
  | denotes_other l i x :
      l ∉ footprint a → read h l i = Done x → denotes h a xs (Copy l i) x xs.

Lemma denotes_length h a xs s x xs' : denotes h a xs s x xs' → length xs' = length xs.
Proof. destruct 1; rewrite ?length_insert; done. Qed.

Lemma denotes_allocate h a xs s x xs' n :
  denotes h a xs s x xs' → denotes (<[fresh (dom h) := replicate n None]> h) a xs s x xs'.
Proof.
  destruct 1 as [x|i x H|i x H|l i x H E]; constructor; try done.
  unfold read in *. destruct (decide (fresh (dom h) = l)) as [<-|Hne].
  - by rewrite fresh_lookup in E.
  - by rewrite lookup_insert_ne.
Qed.

Lemma split_at (xs : list T) i x :
  xs !! i = Some x → i = length (take i xs) ∧ xs = take i xs ++ x :: drop (S i) xs.
Proof.
  intros H. split; [|by symmetry; apply take_drop_middle].
  rewrite length_take. apply lookup_lt_Some in H. lia.
Qed.

Lemma take_source_spec h a xs s x xs' :
  repr h a xs → denotes h a xs s x xs' →
  ∃ h', take_source h s = Done (x, h') ∧ repr h' a xs' ∧ framed h a h' a.
Proof.
  intros R D. destruct D as [x|i x H|i x H|l i x H E].
  - exists h. split_and!; [done|done|apply framed_refl].
  - exists h. cbn. rewrite (read_repr _ _ _ _ _ R H). split_and!; [done|done|apply framed_refl].
  - destruct (split_at _ _ _ H) as [Hi E]. pose proof (repr_buffer _ _ _ R) as Hb.
    rewrite E, cells_app in Hb. cbn [fmap list_fmap app] in Hb.
    rewrite (move_source _ _ _ _ _ _ Hb) by (by rewrite length_fmap).
    eexists. split; [done|]. split; [|by apply framed_update].
    assert (E' : <[i := moved x]> xs = take i xs ++ moved x :: drop (S i) xs).
    { rewrite E at 1. by rewrite (insert_mid (take i xs) _ _ _ i Hi). }
    rewrite E'. replace (_ ++ Some (moved x) :: _)
      with (cells (take i xs ++ moved x :: drop (S i) xs) (m_capacity a)) by (by rewrite cells_app).
    eapply repr_update; [exact R|done..| |];
      rewrite <- E', length_insert; apply R.
  - exists h. cbn. rewrite E. split_and!; [done|done|apply framed_refl].
Qed.

(** Constructing behind the last element. *)
Lemma construct_back h a xs x :
  repr h a xs → length xs < m_capacity a →
  construct h (m_begin a) (length xs) x =
    Done (<[m_begin a := cells (xs ++ [x]) (m_capacity a)]> h).
Proof.
  intros R Hf. pose proof (repr_buffer _ _ _ R) as Hb. rewrite (cells_raw xs _ 1) in Hb by lia.
  cbn [replicate app] in Hb.
  rewrite (construct_mid _ _ _ _ _ x Hb) by (by rewrite length_fmap).
  by rewrite cells_app.
Qed.

Lemma growAndEmplaceBack_spec h a xs s x xs' :
  repr h a xs → denotes h a xs s x xs' →
  ∃ h' a', growAndEmplaceBack h a s = Done (h', a') ∧ repr h' a' (xs' ++ [x]) ∧ framed h a h' a'.
Proof.
  intros R D. unfold growAndEmplaceBack. cbn [allocate].
  set (c := computeNewCapacity a _). set (nb := fresh (dom h)).
  pose proof (computeNewCapacity_ge a (m_size a + 1)) as (Hc & _ & _). fold c in Hc.
  rewrite (repr_size _ _ _ R) in *. pose proof (denotes_length _ _ _ _ _ _ D) as Hl.
  pose proof (fresh_footprint _ _ _ R) as Hnb. fold nb in Hnb.
  destruct (take_source_spec _ a xs s x xs' (repr_allocate _ _ _ c R)
              (denotes_allocate _ _ _ _ _ _ c D)) as (h1 & E1 & R1 & F1). fold nb in E1, F1.
  unfold construct_from. rewrite E1. cbn [mbind run_bind].
  assert (Hb1 : h1 !! nb = Some (replicate (length xs) None ++ None :: replicate (c - length xs - 1) None)).
  { rewrite (framed_same _ _ _ _ F1), lookup_insert_eq by done.
    change (None :: replicate (c - length xs - 1) None)
      with (replicate (S (c - length xs - 1)) (@None T)).
    rewrite <- replicate_add. do 2 f_equal. lia. }
  rewrite (construct_mid _ _ _ _ _ x Hb1) by (by rewrite length_replicate).
  cbn [mbind run_bind].
  set (h2 := <[nb := _]> h1).
  destruct (regrow_spec h2 a xs' nb (xs' ++ [x]) c (Some x :: replicate (c - length xs - 1) None))
    as (h' & E & R' & Hs & Hg).
  - eapply repr_frame; [exact R1|]. intros l Hl1. apply lookup_insert_ne. by intros <-.
  - unfold h2. by rewrite lookup_insert_eq, Hl.
  - done.
  - rewrite cells_app, Hl. done.
  - rewrite length_app, Hl. cbn. lia.
  - destruct (relocateTo _ _ _) as [h3| |]; cbn [mbind run_bind] in *; try discriminate.
    rewrite E. rewrite length_app, Hl, Nat.add_comm in R'. eexists _, _. split; [done|].
    split; [exact R'|]. apply framed_regrow; [apply fresh_lookup| |exact Hg].
    intros l Hl1 Hl2. rewrite Hs by done. unfold h2.
    by rewrite lookup_insert_ne, (framed_same _ _ _ _ F1), lookup_insert_ne by done.
Qed.

Lemma emplace_back_spec h a xs s x xs' :
  repr h a xs → denotes h a xs s x xs' →
  ∃ h' a', emplace_back h a s = Done (h', a') ∧ repr h' a' (xs' ++ [x]) ∧ framed h a h' a'.
Proof.
  intros R D. unfold emplace_back. case_bool_decide as Hfull; [by eapply growAndEmplaceBack_spec|].
  pose proof (denotes_length _ _ _ _ _ _ D) as Hl. pose proof (repr_size _ _ _ R) as Hsz.
  destruct (take_source_spec _ _ _ _ _ _ R D) as (h1 & E1 & R1 & F1).
  pose proof (repr_fits _ _ _ R) as Hf. unfold construct_from. rewrite E1. cbn [mbind run_bind].
  rewrite Hsz, <- Hl, (construct_back h1 a xs' x R1) by lia. cbn [mbind run_bind].
  eexists _, _. split; [done|]. split.
  - eapply repr_update; [exact R1|done..| |]; rewrite length_app; cbn; lia.
  - eapply framed_trans; [exact F1|]. by apply framed_update.
Qed.

(** ** Inserting and erasing *)

(** What an operation on one array establishes. *)
Definition becomes (h : store) (a : VarSizeArrayBase) (ys : list T)
    (r : run (store * VarSizeArrayBase)) : Prop :=
  ∃ h' a', r = Done (h', a') ∧ repr h' a' ys ∧ framed h a h' a'.

(** The array, still of [n] elements, after its buffer got new cells. *)
Lemma becomes_update h a a' xs ys :
  repr h a xs → m_begin a' = m_begin a → m_inlineBegin a' = m_inlineBegin a →
  m_capacity a' = m_capacity a → m_inlineCapacity a' = m_inlineCapacity a →
  m_size a' = length ys → length ys <= m_capacity a →
  becomes h a ys (Done (<[m_begin a := cells ys (m_capacity a)]> h, a')).
Proof.
  intros. eexists _, _. split; [done|]. split; [by eapply repr_update|by apply framed_update].
Qed.

Lemma becomes_trans h a xs ys r f :
  becomes h a xs r → (∀ h' a', repr h' a' xs → becomes h' a' ys (f (h', a'))) →
  becomes h a ys (r ≫= f).
Proof.
  intros (h' & a' & -> & R & F) Hf. destruct (Hf h' a' R) as (h2 & a2 & E & R2 & F2).
  exists h2, a2. split_and!; [done|done|by eapply framed_trans].
Qed.

(** Rotating the last [length zs] elements down to [length xs]. *)
Lemma rotate_back_spec h a xs ys zs :
  repr h a (xs ++ ys ++ zs) →
  becomes h a (xs ++ zs ++ ys)
    (h' ← std_rotate h (m_begin a) (length xs) (length xs + length ys) (m_size a); Done (h', a)).
Proof.
  intros R. pose proof (repr_size _ _ _ R) as Hsz. pose proof (repr_fits _ _ _ R) as Hf.
  rewrite !length_app in Hsz, Hf.
  pose proof (repr_buffer _ _ _ R) as Hb. rewrite cells_app, fmap_app, <- app_assoc in Hb.
  rewrite (std_rotate_spec _ _ _ _ _ _ _ _ _ Hb) by (rewrite ?length_fmap; lia).
  replace (_ ++ _ ++ _ ++ replicate _ None) with (cells (xs ++ zs ++ ys) (m_capacity a)).
  - cbn [mbind run_bind]. apply becomes_update with (xs := xs ++ ys ++ zs);
      [exact R|done..| |]; rewrite !length_app; lia.
  - rewrite cells_app, fmap_app, <- app_assoc, !length_app. do 5 f_equal. lia.
Qed.

(** Forget the returned position. *)
Definition no_pos (r : run (store * VarSizeArrayBase * nat)) : run (store * VarSizeArrayBase) :=
  fst <$> r.

Lemma insert_spec h a xs index s x xs' :
  repr h a xs → denotes h a xs s x xs' → index <= length xs →
  becomes h a (take index xs' ++ x :: drop index xs') (no_pos (insert h a index s)).
Proof.
  intros R D Hi. pose proof (denotes_length _ _ _ _ _ _ D) as Hl. unfold insert, push_back.
  destruct (emplace_back_spec _ _ _ _ _ _ R D) as (h1 & a1 & -> & R1 & F1).
  cbn [mbind run_bind]. rewrite <- (take_drop index xs') in R1 at 1. rewrite <- app_assoc in R1.
  pose proof (rotate_back_spec _ _ _ _ _ R1) as (h2 & a2 & E & R2 & F2).
  rewrite length_take, length_drop in E.
  replace (index `min` length xs') with index in E by lia.
  pose proof (repr_size _ _ _ R1) as Hsz.
  rewrite !length_app, length_take, length_drop in Hsz. cbn in Hsz.
  replace (m_size a1 - 1) with (index + (length xs' - index)) by lia.
  destruct (std_rotate _ _ _ _ _) as [h3| |]; cbn in E; simplify_eq. cbn.
  eexists _, _. split; [done|]. split; [exact R2|]. by eapply framed_trans.
Qed.

Lemma construct_many h a xs ys :
  repr h a xs → length xs + length ys <= m_capacity a →
  construct_loop h (m_begin a) (length xs) ys =
    Done (<[m_begin a := cells (xs ++ ys) (m_capacity a)]> h).
Proof.
  intros R Hf. pose proof (repr_buffer _ _ _ R) as Hb.
  rewrite (cells_raw xs _ (length ys)) in Hb by lia.
  rewrite (construct_loop_spec _ _ _ _ _ _ Hb) by (by rewrite length_fmap).
  by rewrite cells_app.
Qed.

Lemma insert_count_spec h a xs index count s x :
  repr h a xs → denotes h a xs s x xs → index <= length xs →
  becomes h a (take index xs ++ replicate count x ++ drop index xs)
    (no_pos (insert_count h a index count s)).
Proof.
  intros R D Hi. unfold insert_count. case_bool_decide as Hc.
  { subst. cbn. rewrite take_drop. exists h, a. split_and!; [done|done|apply framed_refl]. }
  destruct (take_source_spec _ _ _ _ _ _ R D) as (h1 & E1 & R1 & F1). rewrite E1.
  cbn [mbind run_bind]. rewrite (repr_size _ _ _ R).
  destruct (reserve_spec h1 a xs (length xs + count) R1) as (h2 & a2 & E2 & R2 & F2 & Hf).
  rewrite E2. cbn [mbind run_bind]. rewrite (repr_size _ _ _ R2).
  rewrite (construct_many h2 a2 xs (replicate count x) R2) by (rewrite length_replicate; lia).
  cbn [mbind run_bind].
  set (h3 := <[_ := _]> h2). set (a3 := set_size a2 _).
  assert (R3 : repr h3 a3 (take index xs ++ drop index xs ++ replicate count x)).
  { rewrite app_assoc, take_drop.
    eapply repr_update; [exact R2|done..| |]; rewrite length_app, length_replicate; done. }
  pose proof (rotate_back_spec _ _ _ _ _ R3) as (h4 & a4 & E4 & R4 & F4).
  rewrite length_take, length_drop in E4.
  replace (index `min` length xs) with index in E4 by lia.
  replace (index + (length xs - index)) with (m_size a3 - count) in E4
    by (unfold a3; cbn; lia).
  destruct (std_rotate _ _ _ _ _) as [h5| |]; cbn [mbind run_bind] in E4; simplify_eq. cbn.
  eexists _, _. split; [done|]. split; [exact R4|].
  eapply framed_trans; [exact F1|]. eapply framed_trans; [exact F2|].
  eapply framed_trans; [|exact F4]. by apply framed_update.
Qed.

(** Values appended one after the other: each is outside the array. *)
Lemma append_spec l : ∀ h a xs,
  repr h a xs → becomes h a (xs ++ l) (append h a (Val <$> l)).
Proof.
  induction l as [|x l IH]; intros h a xs R; cbn [fmap list_fmap append].
  - rewrite app_nil_r. exists h, a. split_and!; [done|done|apply framed_refl].
  - replace (xs ++ x :: l) with ((xs ++ [x]) ++ l) by (by rewrite <- app_assoc).
    eapply becomes_trans with (xs := xs ++ [x]).
    + eapply emplace_back_spec; [exact R|constructor].
    + intros h' a' R'. by apply IH.
Qed.

Lemma insert_range_spec h a xs index l :
  repr h a xs → index <= length xs →
  becomes h a (take index xs ++ l ++ drop index xs) (no_pos (insert_range h a index (Val <$> l))).
Proof.
  intros R Hi. unfold insert_range.
  destruct (append_spec l h a xs R) as (h1 & a1 & -> & R1 & F1). cbn [mbind run_bind].
  rewrite <- (take_drop index xs) in R1 at 1. rewrite <- app_assoc in R1.
  pose proof (rotate_back_spec _ _ _ _ _ R1) as (h2 & a2 & E & R2 & F2).
  rewrite length_take, length_drop in E.
  replace (index `min` length xs) with index in E by lia.
  rewrite (repr_size _ _ _ R).
  replace (index + (length xs - index)) with (length xs) in E by lia.
  destruct (std_rotate _ _ _ _ _) as [h3| |]; cbn in E; simplify_eq. cbn.
  eexists _, _. split; [done|]. split; [exact R2|]. by eapply framed_trans.
Qed.

(** Cutting the array at [length xs]. *)
Lemma cut_spec h a xs ys n :
  repr h a (xs ++ ys) → n = length xs →
  becomes h a xs (h' ← destroyRange h a n (m_size a); Done (h', set_size a n)).
Proof.
  intros R ->. rewrite (repr_size _ _ _ R), (destroyRange_spec _ _ _ _ R). cbn [mbind run_bind].
  pose proof (repr_fits _ _ _ R) as Hf. rewrite length_app in Hf.
  eapply becomes_update; [exact R|done..|lia].
Qed.

Lemma pop_back_spec h a xs x :
  repr h a (xs ++ [x]) → becomes h a xs (pop_back h a).
Proof.
  intros R. pose proof (cut_spec _ _ _ _ _ R eq_refl) as H.
  unfold pop_back. pose proof (repr_size _ _ _ R) as Hsz. rewrite length_app in Hsz. cbn in Hsz.
  unfold destroyRange in H. rewrite Hsz in *. rewrite Nat.add_1_r in *.
  replace (S (length xs) - length xs) with 1 in H by lia. cbn [destroy_loop] in H.
  by destruct (destroy _ _ _).
Qed.

(** Moving [zs] down over [ys] and cutting the rest. *)
Lemma close_gap_spec h a xs ys zs :
  repr h a (xs ++ ys ++ zs) → ys ≠ [] →
  ∃ h' ys', std_move h (m_begin a) (length xs + length ys) (length xs) (length zs) = Done h' ∧
    length ys' = length ys ∧ repr h' a (xs ++ zs ++ ys') ∧ framed h a h' a.
Proof.
  intros R Hys. pose proof (repr_buffer _ _ _ R) as Hb. rewrite cells_app, fmap_app, <- app_assoc in Hb.
  destruct (std_move_spec _ _ _ _ _ _ (length xs) Hb Hys) as (ys' & Hl & E);
    [by rewrite length_fmap|].
  eexists _, ys'. split; [exact E|]. split; [done|]. split; [|by apply framed_update].
  pose proof (repr_fits _ _ _ R) as Hf. pose proof (repr_size _ _ _ R) as Hsz.
  rewrite !length_app in Hf, Hsz.
  replace (_ ++ _ ++ _ ++ replicate _ None) with (cells (xs ++ zs ++ ys') (m_capacity a)).
  - eapply repr_update; [exact R|done..| |]; rewrite !length_app; lia.
  - rewrite cells_app, fmap_app, <- app_assoc, !length_app. do 5 f_equal. lia.
Qed.

Lemma erase_range_spec h a xs from to :
  repr h a xs → from <= to <= length xs →
  becomes h a (take from xs ++ drop to xs) (no_pos (erase_range h a from to)).
Proof.
  intros R Hr. unfold erase_range. pose proof (repr_size _ _ _ R) as Hsz.
  case_bool_decide as Hft.
  { subst. cbn. rewrite take_drop. exists h, a. split_and!; [done|done|apply framed_refl]. }
  rewrite bool_decide_true by lia.
  assert (E : xs = take from xs ++ take (to - from) (drop from xs) ++ drop to xs).
  { rewrite <- (take_drop from xs) at 1. f_equal.
    rewrite <- (take_drop (to - from) (drop from xs)) at 1. rewrite drop_drop. do 3 f_equal. lia. }
  rewrite E in R.
  destruct (close_gap_spec _ _ _ _ _ R) as (h1 & ys & E1 & Hl & R1 & F1).
  { intros H%(f_equal length). rewrite length_take, length_drop in H. cbn in H. lia. }
  rewrite !length_take, !length_drop in E1. rewrite length_take, length_drop in Hl.
  replace (from `min` length xs + (to - from) `min` (length xs - from)) with to in E1 by lia.
  replace (from `min` length xs) with from in E1 by lia.
  rewrite Hsz, E1. cbn [mbind run_bind].
  rewrite app_assoc in R1.
  destruct (cut_spec _ _ _ _ (length xs - (to - from)) R1) as (h2 & a2 & E2 & R2 & F2).
  { rewrite length_app, length_take, length_drop. lia. }
  rewrite Hsz in E2. destruct (destroyRange _ _ _ _) as [h3| |]; cbn in E2; simplify_eq. cbn.
  eexists _, _. split; [done|]. split; [exact R2|]. by eapply framed_trans.
Qed.

Lemma erase_spec h a xs index :
  repr h a xs → index < length xs →
  becomes h a (take index xs ++ drop (S index) xs) (no_pos (erase h a index)).
Proof.
  intros R Hi. pose proof (erase_range_spec h a xs index (S index) R ltac:(lia)) as H.
  unfold erase_range in H. rewrite (bool_decide_false (index = S index)) in H by lia.
  unfold erase. rewrite (repr_size _ _ _ R) in *. rewrite bool_decide_true in H by lia.
  rewrite bool_decide_true by lia. rewrite Nat.add_1_r.
  replace (S index - index) with 1 in H by lia.
  unfold destroyRange in H. replace (length xs - (length xs - 1)) with 1 in H by lia.
  destruct (std_move _ _ _ _ _) as [h1| |]; cbn [mbind run_bind] in *; [|done..].
  unfold pop_back. rewrite (repr_size _ _ _ R).
  destruct (length xs) as [|n] eqn:En; [lia|]. rewrite Nat.sub_0_r in H || idtac.
  replace (S n - 1) with n in H by lia. cbn [destroy_loop] in H.
  by destruct (destroy _ _ _).
Qed.

Lemma resize_spec default h a xs n :
  repr h a xs →
  becomes h a (take n xs ++ replicate (n - length xs) default) (resize default h a n).
Proof.
  intros R. unfold resize. rewrite (repr_size _ _ _ R). case_bool_decide as H1.
  { replace (n - length xs) with 0 by lia. cbn. rewrite app_nil_r.
    rewrite <- (repr_size _ _ _ R). eapply cut_spec; [by rewrite take_drop|].
    rewrite length_take. lia. }
  rewrite take_ge by lia. case_bool_decide as H2.
  - destruct (reserve_spec h a xs n R) as (h1 & a1 & E1 & R1 & F1 & Hf). rewrite E1.
    cbn [mbind run_bind]. rewrite (repr_size _ _ _ R1).
    rewrite (construct_many h1 a1 xs (replicate (n - length xs) default) R1)
      by (rewrite length_replicate; lia). cbn [mbind run_bind].
    eexists _, _. split; [done|]. split.
    + eapply repr_update; [exact R1|done..| |]; rewrite length_app, length_replicate; cbn; lia.
    + eapply framed_trans; [exact F1|]. by apply framed_update.
  - assert (n = length xs) as -> by lia. rewrite Nat.sub_diag, app_nil_r.
    exists h, (set_size a (length xs)). rewrite <- (repr_size _ _ _ R).
    destruct a; split_and!; [done|exact R|apply framed_refl].
Qed.

(** ** Programs over one array *)

(** An argument of a program: a value, or the element at a position. *)
Inductive arg : Type :=
  | AVal (x : T)
  | AElem (i : nat)
  | AElemMove (i : nat).

Inductive op : Type :=
  | OpPushBack (x : arg)
  | OpAppend (l : list T)
  | OpInsert (index : nat) (x : arg)
  | OpInsertCount (index count : nat) (x : arg)
  | OpInsertRange (index : nat) (l : list T)
  | OpPopBack
  | OpErase (index : nat)
  | OpEraseRange (from to : nat)
  | OpClear
  | OpReserve (n : nat)
  | OpResize (n : nat) (default : T).

(** A reference to an element is one into the current buffer. *)
Definition source_of (a : VarSizeArrayBase) (x : arg) : source :=
  match x with
  | AVal x => Val x
  | AElem i => Copy (m_begin a) i
  | AElemMove i => Move (m_begin a) i
  end.

Definition run_op (h : store) (a : VarSizeArrayBase) (o : op) : run (store * VarSizeArrayBase) :=
  match o with
  | OpPushBack x => push_back h a (source_of a x)
  | OpAppend l => append h a (Val <$> l)
  | OpInsert i x => no_pos (insert h a i (source_of a x))
  | OpInsertCount i n x => no_pos (insert_count h a i n (source_of a x))
  | OpInsertRange i l => no_pos (insert_range h a i (Val <$> l))
  | OpPopBack => pop_back h a
  | OpErase i => no_pos (erase h a i)
  | OpEraseRange i j => no_pos (erase_range h a i j)
  | OpClear => clear h a
  | OpReserve n => reserve h a n
  | OpResize n d => resize d h a n
  end.

Fixpoint run_ops (h : store) (a : VarSizeArrayBase) (l : list op) : run (store * VarSizeArrayBase) :=
  match l with
  | [] => Done (h, a)
  | o :: l => '(h, a) ← run_op h a o; run_ops h a l
  end.

(** The meaning of an argument: its value, and the elements once it is taken. *)
Definition arg_value (xs : list T) (x : arg) : option (T * list T) :=
  match x with
  | AVal x => Some (x, xs)
  | AElem i => x ← xs !! i; Some (x, xs)
  | AElemMove i => x ← xs !! i; Some (x, <[i := moved x]> xs)
  end.

(** The abstract operations on lists, [None] outside the documented domain. *)
Definition spec_op (xs : list T) (o : op) : option (list T) :=
  match o with
  | OpPushBack x => '(x, xs) ← arg_value xs x; Some (xs ++ [x])
  | OpAppend l => Some (xs ++ l)
  | OpInsert i x =>
      if decide (i <= length xs) then
        '(x, xs) ← arg_value xs x; Some (take i xs ++ x :: drop i xs)
      else None
  | OpInsertCount i n (AElemMove _) => None
  | OpInsertCount i n x =>
      if decide (i <= length xs) then
        '(x, _) ← arg_value xs x; Some (take i xs ++ replicate n x ++ drop i xs)
      else None
  | OpInsertRange i l =>
      if decide (i <= length xs) then Some (take i xs ++ l ++ drop i xs) else None
  | OpPopBack => match xs with [] => None | _ => Some (take (length xs - 1) xs) end
  | OpErase i => if decide (i < length xs) then Some (take i xs ++ drop (S i) xs) else None
  | OpEraseRange i j =>
      if decide (i <= j <= length xs) then Some (take i xs ++ drop j xs) else None
  | OpClear => Some []
  | OpReserve n => Some xs
  | OpResize n d => Some (take n xs ++ replicate (n - length xs) d)
  end.

Fixpoint spec_ops (xs : list T) (l : list op) : option (list T) :=
  match l with
  | [] => Some xs
  | o :: l => xs ← spec_op xs o; spec_ops xs l
  end.

Lemma arg_denotes h a xs v x xs' :
  arg_value xs v = Some (x, xs') → denotes h a xs (source_of a v) x xs'.
Proof.
  destruct v as [y|i|i]; cbn; intros H.
  - simplify_eq. constructor.
  - destruct (xs !! i) as [z|] eqn:E; cbn in H; simplify_eq. by constructor.
  - destruct (xs !! i) as [z|] eqn:E; cbn in H; simplify_eq. by constructor.
Qed.

Lemma run_op_spec h a xs o ys :
  repr h a xs → spec_op xs o = Some ys → becomes h a ys (run_op h a o).
Proof.
  intros R S. destruct o as [v|l|i v|i n v|i l| |i|i j| |n|n d]; cbn [spec_op run_op] in *.
  - destruct (arg_value xs v) as [[x xs']|] eqn:E; cbn in S; simplify_eq.
    eapply emplace_back_spec; [exact R|by apply arg_denotes].
  - simplify_eq. by apply append_spec.
  - case_decide; [|done]. destruct (arg_value xs v) as [[x xs']|] eqn:E; cbn in S; simplify_eq.
    eapply insert_spec; [exact R|by apply arg_denotes|done].
  - assert (Hv : ∃ x, arg_value xs v = Some (x, xs) ∧ i <= length xs ∧
              ys = take i xs ++ replicate n x ++ drop i xs).
    { destruct v as [y|k|k]; [| |done]; (case_decide; [|done]); cbn in *.
      - simplify_eq. eauto.
      - destruct (xs !! k) eqn:E; cbn in *; simplify_eq. eauto. }
    destruct Hv as (x & E & Hi & ->).
    eapply insert_count_spec; [exact R|by apply arg_denotes|done].
  - case_decide; simplify_eq. by apply insert_range_spec.
  - destruct xs as [|x0 xs0] eqn:Exs; [done|]. rewrite <- Exs in *. simplify_eq.
    destruct (exists_last (l := x0 :: xs0)) as (l & x & E); [done|]. rewrite E in *.
    rewrite length_app, Nat.add_sub, take_app_length. by eapply pop_back_spec.
  - case_decide; simplify_eq. by apply erase_spec.
  - case_decide; simplify_eq. by apply erase_range_spec.
  - simplify_eq. destruct (clear_spec h a xs R) as (E & R' & F). by eexists _, _.
  - simplify_eq. destruct (reserve_spec h a ys n R) as (h' & a' & E & R' & F & _).
    by exists h', a'.
  - simplify_eq. by apply resize_spec.
Qed.

Lemma run_ops_spec l : ∀ h a xs ys,
  repr h a xs → spec_ops xs l = Some ys → becomes h a ys (run_ops h a l).
Proof.
  induction l as [|o l IH]; intros h a xs ys R S; cbn [spec_ops run_ops] in *.
  - simplify_eq. exists h, a. split_and!; [done|done|apply framed_refl].
  - destruct (spec_op xs o) as [zs|] eqn:E; [|done]. cbn in S.
    eapply becomes_trans; [by eapply run_op_spec|]. intros h' a' R'. by eapply IH.
Qed.

(** C12: every program over an array does what it does to the list of its
    elements, whatever the inline capacity and however often the buffer is
    reallocated: no access is out of bounds, to raw storage or to a freed
    buffer, even when an argument refers to an element of the array itself; the
    elements are those of the list; and no other buffer is touched. *)
Theorem array_programs h a xs l ys :
  repr h a xs → spec_ops xs l = Some ys →
  ∃ h' a', run_ops h a l = Done (h', a') ∧ repr h' a' ys ∧ framed h a h' a' ∧
    (∀ i, i < length ys → ys !! i = (match at_index h' a' i with Done x => Some x | _ => None end)).
Proof.
  intros R S. destruct (run_ops_spec l h a xs ys R S) as (h' & a' & E & R' & F).
  exists h', a'. split_and!; [done|done|done|]. intros i Hi.
  destruct (lookup_lt_is_Some_2 ys i Hi) as [x Hx]. unfold at_index.
  by rewrite (read_repr _ _ _ _ _ R' Hx), Hx.
Qed.

(** C23: an array's life leaves nothing behind.  Construct an array of any
    inline capacity, run a program over it and destroy it: every object it made
    was destroyed exactly once, every heap buffer it allocated was freed, and the
    rest of the store is untouched. *)
Theorem array_lifetime h N l ys :
  spec_ops [] l = Some ys →
  let '(h0, a0) := new_array h N in
  ∃ h', ('(h1, a1) ← run_ops h0 a0 l; destructor h1 a1) = Done h' ∧
    h' = <[m_inlineBegin a0 := replicate N None]> h ∧ h !! m_inlineBegin a0 = None.
Proof.
  intros S. pose proof (new_array_spec h N) as H. destruct (new_array h N) as [h0 a0].
  destruct H as (R0 & Hn & F0 & HN & E0).
  destruct (run_ops_spec l h0 a0 [] ys R0 S) as (h1 & a1 & E1 & R1 & F1). rewrite E1.
  cbn [mbind run_bind]. unfold destructor. rewrite (repr_size _ _ _ R1).
  pose proof (destroyRange_spec h1 a1 [] ys R1) as Ed. cbn [length app] in Ed. rewrite Ed.
  cbn [mbind run_bind]. rewrite release_spec by (by rewrite lookup_insert_eq).
  eexists. split; [done|]. split; [|done].
  destruct F1 as [Fs Fn Fg Fi Fc].
  assert (Hout : ∀ l, l ≠ m_inlineBegin a0 → l ≠ m_begin a1 → h1 !! l = h0 !! l).
  { intros k Hk Hk'. apply Fs; [rewrite F0; set_solver|]. unfold footprint. rewrite Fi. set_solver. }
  apply map_eq. intros k. unfold isInline. rewrite Fi. case_bool_decide as Hin.
  - assert (Hc : cells [] (m_capacity a1) = replicate N None).
    { rewrite cells_nil, (repr_inline _ _ _ R1) by congruence. congruence. }
    destruct (decide (k = m_inlineBegin a0)) as [->|Hk].
    + by rewrite Hin, !lookup_insert_eq, Hc.
    + rewrite !lookup_insert_ne by congruence. rewrite Hout by congruence.
      rewrite E0, lookup_insert_ne by congruence. done.
  - destruct (decide (k = m_begin a1)) as [->|Hk'].
    + rewrite lookup_delete_eq, lookup_insert_ne by congruence.
      symmetry. specialize (Fn (m_begin a1)). rewrite F0, E0 in Fn.
      rewrite lookup_insert_ne in Fn by congruence. apply Fn; [unfold footprint|]; set_solver.
    + rewrite lookup_delete_ne, lookup_insert_ne by congruence.
      destruct (decide (k = m_inlineBegin a0)) as [->|Hk].
      * rewrite lookup_insert_eq, <- Fi, (repr_spare _ _ _ R1) by congruence. congruence.
      * rewrite Hout, E0 by congruence. by rewrite !lookup_insert_ne by congruence.
Qed.

(** ** Two arrays *)

(** The same relation as [framed] for sets of buffers. *)
Record framed_on (h : store) (F : gset loc) (h' : store) (F' : gset loc) : Prop := MkFramedOn {
  fo_same : ∀ l, l ∉ F → l ∉ F' → h' !! l = h !! l;
  fo_new : ∀ l, l ∈ F' → l ∉ F → h !! l = None;
  fo_gone : ∀ l, l ∈ F → l ∉ F' → h' !! l = None
}.

Lemma framed_on_refl h F : framed_on h F h F.
Proof. split; done. Qed.

Lemma framed_on_trans h F h1 F1 h2 F2 :
  framed_on h F h1 F1 → framed_on h1 F1 h2 F2 → framed_on h F h2 F2.
Proof.
  intros [S1 N1 G1] [S2 N2 G2]. split; intros l H H'.
  - destruct (decide (l ∈ F1)) as [Hl|Hl]; [|by rewrite S2, S1]. by rewrite (G2 l), (N1 l).
  - destruct (decide (l ∈ F1)) as [Hl|Hl]; [by apply N1|].
    rewrite <- (S1 l) by done. by apply N2.
  - destruct (decide (l ∈ F1)) as [Hl|Hl]; [by apply G2|]. rewrite S2 by done. by apply G1.
Qed.

Lemma repr_dom h a xs l : repr h a xs → l ∈ footprint a → is_Some (h !! l).
Proof.
  intros R Hl. unfold footprint in Hl.
  destruct (decide (l = m_begin a)) as [->|Hb]; [rewrite (repr_buffer _ _ _ R); eauto|].
  assert (l = m_inlineBegin a) as -> by set_solver.
  rewrite (repr_spare _ _ _ R); [eauto|congruence].
Qed.

(** An operation on [a] leaves a separate array [b] alone, and separate. *)
Lemma framed_other h a h' a' b ys :
  framed h a h' a' → repr h b ys → footprint a ## footprint b →
  repr h' b ys ∧ footprint a' ## footprint b ∧
  framed_on h (footprint a ∪ footprint b) h' (footprint a' ∪ footprint b).
Proof.
  intros [S N G _ _] R D.
  assert (D' : footprint a' ## footprint b).
  { intros l Hl Hl'. destruct (repr_dom _ _ _ _ R Hl') as [x Hx].
    rewrite N in Hx; [done|done|]. intros Hl2. by apply (D l). }
  assert (E : ∀ l, l ∈ footprint b → h' !! l = h !! l).
  { intros l Hl. apply S; intros Hl'; [by apply (D l)|by apply (D' l)]. }
  split_and!; [by eapply repr_frame|done|].
  split; intros l; rewrite ?not_elem_of_union, ?elem_of_union.
  - intros [? ?] [? ?]. by apply S.
  - intros [Hl|Hl] [? ?]; [by apply N|done].
  - intros [Hl|Hl] [? ?]; [by apply G|done].
Qed.

(** Rewriting the buffers of two separate arrays. *)
Lemma framed_on_update2 h a b x y :
  framed_on h (footprint a ∪ footprint b)
    (<[m_begin b := y]> (<[m_begin a := x]> h)) (footprint a ∪ footprint b).
Proof.
  split; [|done|done]. intros l Hl _. unfold footprint in Hl.
  rewrite !lookup_insert_ne by set_solver. done.
Qed.

Lemma separate_begins a b :
  footprint a ## footprint b →
  m_begin a ≠ m_begin b ∧ m_begin a ≠ m_inlineBegin b ∧ m_inlineBegin a ≠ m_begin b ∧
  m_inlineBegin a ≠ m_inlineBegin b.
Proof. intros D. unfold footprint in D. set_solver. Qed.

Lemma repr_other h b ys l x :
  repr h b ys → l ∉ footprint b → repr (<[l := x]> h) b ys.
Proof. intros R Hl. eapply repr_frame; [exact R|]. intros l' ?. rewrite lookup_insert_ne by congruence. done. Qed.

Lemma set_size_id a n : m_size a = n → set_size a n = a.
Proof. destruct a. cbn. by intros ->. Qed.

(** Copy assignment.  The target holds the source's elements, the source is
    as it was, and nothing else moves. *)
Theorem assign_copy_spec h a b xs ys :
  repr h a xs → repr h b ys → footprint a ## footprint b →
  ∃ h' a', assign_copy h a b = Done (h', a') ∧ repr h' a' ys ∧ repr h' b ys ∧
    footprint a' ## footprint b ∧
    framed_on h (footprint a ∪ footprint b) h' (footprint a' ∪ footprint b).
Proof.
  intros R Rb D. unfold assign_copy. rewrite bool_decide_false by (by apply separate_begins).
  destruct (clear_spec h a xs R) as (E1 & R1 & F1). rewrite E1. cbn [mbind run_bind].
  destruct (framed_other _ _ _ _ _ _ F1 Rb D) as (Rb1 & D1 & O1).
  destruct (reserve_spec _ _ _ (m_size b) R1) as (h2 & a2 & E2 & R2 & F2 & Hf).
  rewrite E2. cbn [mbind run_bind].
  destruct (framed_other _ _ _ _ _ _ F2 Rb1 D1) as (Rb2 & D2 & O2).
  rewrite (repr_size _ _ _ Rb) in *.
  pose proof (repr_buffer _ _ _ R2) as Hb. rewrite (cells_raw [] _ (length ys)) in Hb by (cbn; lia).
  destruct (separate_begins _ _ D2) as (Hne & _).
  rewrite (copy_construct_loop_spec _ _ ys (not_eq_sym Hne) h2 []
             (replicate (m_capacity b - length ys) None) [] _ 0 (repr_buffer _ _ _ Rb2) eq_refl Hb eq_refl).
  cbn [mbind run_bind app].
  replace ((Some <$> ys) ++ _) with (cells ys (m_capacity a2)) by (unfold cells; do 2 f_equal; cbn; lia).
  eexists _, _. split; [done|]. split.
  { eapply repr_update; [exact R2|done..|lia]. }
  assert (F3 : framed h2 a2 (<[m_begin a2 := cells ys (m_capacity a2)]> h2) (set_size a2 (length ys)))
    by (by apply framed_update).
  destruct (framed_other _ _ _ _ _ _ F3 Rb2 D2) as (Rb3 & D3 & O3).
  split_and!; [done|done|]. eapply framed_on_trans; [exact O1|]. by eapply framed_on_trans.
Qed.

Lemma resetToInline_spec h a xs :
  repr h a xs →
  ∃ h' a', resetToInline h a = Done (h', a') ∧ repr h' a' [] ∧ framed h a h' a' ∧
    m_begin a' = m_inlineBegin a ∧ m_capacity a' = m_inlineCapacity a.
Proof.
  intros R. unfold resetToInline. rewrite (repr_size _ _ _ R).
  pose proof (destroyRange_spec h a [] xs R) as E. cbn [length app] in E. rewrite E.
  cbn [mbind run_bind]. unfold isInline. case_bool_decide as Hin.
  - eexists _, _. split; [done|]. split_and!; [|by apply framed_update|done|by apply R].
    eapply repr_update; [exact R|done..|cbn; lia].
  - rewrite (dealloc_spec _ _ (m_capacity a)) by (by rewrite lookup_insert_eq).
    cbn [mbind run_bind]. eexists _, _. split; [done|]. cbn. split_and!; [| |done|done].
    + split; cbn; [done|lia| |done|done].
      rewrite lookup_delete_ne, lookup_insert_ne by done.
      rewrite cells_nil. by apply R.
    + split; cbn; [..|done|done]; unfold footprint; cbn; intros l H H'.
      * rewrite lookup_delete_ne, lookup_insert_ne by set_solver. done.
      * set_solver.
      * assert (l = m_begin a) as -> by set_solver. apply lookup_delete_eq.
Qed.

(** Move assignment.  The target holds the source's elements, the source is
    empty, whether its heap buffer was taken over or its elements were moved out
    of its inline buffer, and nothing else moves. *)
Theorem assign_move_spec h a b xs ys :
  repr h a xs → repr h b ys → footprint a ## footprint b →
  ∃ h' a' b', assign_move h a b = Done (h', a', b') ∧ repr h' a' ys ∧ repr h' b' [] ∧
    footprint a' ## footprint b' ∧
    framed_on h (footprint a ∪ footprint b) h' (footprint a' ∪ footprint b').
Proof.
  intros R Rb D. unfold assign_move. rewrite bool_decide_false by (by apply separate_begins).
  destruct (resetToInline_spec h a xs R) as (h1 & a1 & E1 & R1 & F1 & Hb1 & Hc1).
  rewrite E1. cbn [mbind run_bind].
  destruct (framed_other _ _ _ _ _ _ F1 Rb D) as (Rb1 & D1 & O1).
  unfold isInline. case_bool_decide as Hin.
  - destruct (reserve_spec _ _ _ (m_size b) R1) as (h2 & a2 & E2 & R2 & F2 & Hf).
    rewrite E2. cbn [mbind run_bind].
    destruct (framed_other _ _ _ _ _ _ F2 Rb1 D1) as (Rb2 & D2 & O2).
    rewrite (repr_size _ _ _ Rb) in *.
    pose proof (repr_buffer _ _ _ R2) as Hb. rewrite (cells_raw [] _ (length ys)) in Hb by (cbn; lia).
    destruct (separate_begins _ _ D2) as (Hne & Hne2 & Hne3 & _).
    rewrite (move_construct_loop_spec _ _ ys (not_eq_sym Hne) h2 []
               (replicate (m_capacity b - length ys) None) [] _ 0 (repr_buffer _ _ _ Rb2) eq_refl Hb eq_refl).
    cbn [mbind run_bind app].
    replace ((Some <$> ys) ++ _) with (cells ys (m_capacity a2)) by (unfold cells; do 2 f_equal; cbn; lia).
    set (h3 := <[m_begin a2 := _]> (<[m_begin b := _]> h2)).
    assert (Rb3 : repr h3 b (moved <$> ys)).
    { apply repr_other; [|unfold footprint; set_solver].
      replace ((Some <$> _) ++ _) with (cells (moved <$> ys) (m_capacity b))
        by (unfold cells; do 2 f_equal; by rewrite length_fmap).
      eapply repr_update; [exact Rb2|done..| |]; rewrite length_fmap; by apply Rb2. }
    assert (Ra3 : repr h3 (set_size a2 (length ys)) ys).
    { unfold h3. eapply repr_update; [|done..|lia].
      apply repr_other; [exact R2|unfold footprint; set_solver]. }
    assert (O3 : framed_on h2 (footprint a2 ∪ footprint b) h3 (footprint a2 ∪ footprint b)).
    { unfold h3. rewrite (union_comm_L (footprint a2)). apply framed_on_update2. }
    destruct (clear_spec h3 b _ Rb3) as (E4 & Rb4 & F4). rewrite E4. cbn [mbind run_bind].
    eexists _, _, _. split; [done|].
    destruct (framed_other _ _ _ _ (set_size a2 (length ys)) ys F4 Ra3) as (Ra4 & D4 & O4);
      [by symmetry|].
    split_and!; [done|done|by symmetry|].
    eapply framed_on_trans; [exact O1|]. eapply framed_on_trans; [exact O2|].
    eapply framed_on_trans; [exact O3|]. rewrite (union_comm_L (footprint a2)), (union_comm_L _ (footprint (set_size b 0))).
    exact O4.
  - eexists _, _, _. split; [done|].
    destruct (separate_begins _ _ D1) as (Hne & Hne2 & Hne3 & Hne4).
    pose proof (framed_inline _ _ _ _ F1) as Fi.
    split_and!.
    + split; cbn; [apply Rb1|apply Rb1|apply Rb1|congruence|intros _].
      rewrite <- (repr_buffer _ _ _ R1) || idtac.
      assert (Hi : m_begin a1 = m_inlineBegin a1) by congruence.
      rewrite <- Hi, (repr_buffer _ _ _ R1), cells_nil. f_equal. f_equal. by apply R1.
    + split; cbn; [done|lia| |done|done]. rewrite cells_nil. by apply Rb1.
    + unfold footprint. cbn. set_solver.
    + eapply framed_on_trans; [exact O1|].
      replace (footprint (set_buffer a1 _ _ _) ∪ footprint (set_buffer b _ _ _))
        with (footprint a1 ∪ footprint b); [apply framed_on_refl|].
      unfold footprint; cbn. rewrite Hb1, <- Fi. set_solver.
Qed.

Lemma footprint_size a n : footprint (set_size a n) = footprint a.
Proof. done. Qed.

(** Moving the tail [zs] of the longer array over. *)
Lemma swap_tail_spec h L S xs ys zs n :
  repr h L (xs ++ zs) → repr h S ys → footprint L ## footprint S →
  n = length xs → n = length ys → length ys + length zs <= m_capacity S →
  ∃ h', swap_tail h L S n = Done (h', set_size L n, set_size S (m_size L)) ∧
    repr h' (set_size L n) xs ∧ repr h' (set_size S (m_size L)) (ys ++ zs) ∧
    framed_on h (footprint L ∪ footprint S) h' (footprint L ∪ footprint S).
Proof.
  intros RL RS D Hn Hn' Hf. unfold swap_tail.
  pose proof (repr_size _ _ _ RL) as HszL. pose proof (repr_size _ _ _ RS) as HszS.
  destruct (separate_begins _ _ D) as (Hne & Hne2 & Hne3 & _).
  pose proof (repr_buffer _ _ _ RL) as HbL. rewrite cells_app in HbL.
  pose proof (repr_buffer _ _ _ RS) as HbS. rewrite (cells_raw ys _ (length zs)) in HbS by lia.
  rewrite length_app in HszL.
  replace (m_size L - n) with (length zs) by lia.
  rewrite (move_construct_loop_spec _ _ zs Hne h _ _ _ _ n HbL ltac:(by rewrite length_fmap)
             HbS ltac:(by rewrite length_fmap)).
  cbn [mbind run_bind].
  replace (m_capacity L - length xs - length zs)
    with (m_capacity L - length xs - length (moved <$> zs)) by (by rewrite length_fmap).
  rewrite <- (cells_app ys zs), <- (cells_app xs (moved <$> zs)).
  set (h1 := <[m_begin S := _]> (<[m_begin L := _]> h)).
  assert (R1 : repr h1 L (xs ++ (moved <$> zs))).
  { apply repr_other; [|unfold footprint; set_solver].
    eapply repr_update; [exact RL|done..| |]; rewrite length_app, length_fmap; [lia|].
    pose proof (repr_fits _ _ _ RL) as Hf'. by rewrite length_app in Hf'. }
  assert (R2 : repr h1 (set_size S (m_size L)) (ys ++ zs)).
  { unfold h1. eapply repr_update; [|done..| |]; [|cbn; rewrite length_app; lia|by rewrite length_app].
    apply repr_other; [exact RS|unfold footprint; set_solver]. }
  destruct (cut_spec _ _ _ _ n R1 Hn) as (h2 & L2 & E2 & R3 & F3).
  destruct (destroyRange h1 L n (m_size L)) as [h3| |]; cbn [mbind run_bind] in E2; simplify_eq.
  cbn [mbind run_bind]. eexists. split; [done|]. split; [done|].
  destruct (framed_other _ _ _ _ (set_size S (m_size L)) _ F3 R2) as (R4 & D4 & O4); [done|].
  rewrite !footprint_size in O4.
  split; [done|]. eapply framed_on_trans; [|exact O4]. apply framed_on_update2.
Qed.

Lemma swap_elems_spec h a b xs xs' ys ys' :
  repr h a (xs ++ xs') → repr h b (ys ++ ys') → footprint a ## footprint b →
  length xs = length ys →
  ∃ h', swap_loop h (m_begin a) (m_begin b) 0 (length xs) = Done h' ∧
    repr h' a (ys ++ xs') ∧ repr h' b (xs ++ ys') ∧
    framed_on h (footprint a ∪ footprint b) h' (footprint a ∪ footprint b).
Proof.
  intros Ra Rb D Hl. destruct (separate_begins _ _ D) as (Hne & Hne2 & Hne3 & _).
  pose proof (repr_buffer _ _ _ Ra) as HbA. rewrite cells_app in HbA.
  pose proof (repr_buffer _ _ _ Rb) as HbB. rewrite cells_app in HbB.
  rewrite (swap_loop_spec _ _ xs Hne ys h [] _ [] _ 0 Hl HbA eq_refl HbB eq_refl).
  cbn [app].
  replace (m_capacity a - length xs - _) with (m_capacity a - length ys - length xs') by lia.
  replace (m_capacity b - length ys - _) with (m_capacity b - length xs - length ys') by lia.
  rewrite <- (cells_app xs ys'), <- (cells_app ys xs').
  eexists. split; [done|].
  pose proof (repr_fits _ _ _ Ra) as HfA. pose proof (repr_fits _ _ _ Rb) as HfB.
  pose proof (repr_size _ _ _ Ra) as HsA. pose proof (repr_size _ _ _ Rb) as HsB.
  rewrite length_app in HfA, HfB, HsA, HsB.
  split_and!; [| |apply framed_on_update2].
  - apply repr_other; [|unfold footprint; set_solver].
    eapply repr_update; [exact Ra|done..| |]; rewrite length_app; lia.
  - eapply repr_update; [|done..| |]; [|rewrite length_app; lia..].
    apply repr_other; [exact Rb|unfold footprint; set_solver].
Qed.

(** [swap] exchanges the elements of two arrays of any inline capacities,
    whether they trade buffers or move elements between them, and touches
    nothing else. *)
Theorem swap_spec h a b xs ys :
  repr h a xs → repr h b ys → footprint a ## footprint b →
  ∃ h' a' b', swap h a b = Done (h', a', b') ∧ repr h' a' ys ∧ repr h' b' xs ∧
    footprint a' ## footprint b' ∧
    framed_on h (footprint a ∪ footprint b) h' (footprint a' ∪ footprint b').
Proof.
  intros Ra Rb D. unfold swap. destruct (separate_begins _ _ D) as (Hne & Hne2 & Hne3 & Hne4).
  rewrite bool_decide_false by done.
  destruct (negb (isInline a) && negb (isInline b)) eqn:Eh.
  { unfold isInline in Eh. repeat case_bool_decide; try done.
    eexists _, _, _. split; [done|]. split_and!.
    - split; cbn; [apply Rb|apply Rb|apply Rb|congruence|intros _; by apply Ra].
    - split; cbn; [apply Ra|apply Ra|apply Ra|congruence|intros _; by apply Rb].
    - unfold footprint. cbn. set_solver.
    - replace (footprint (set_buffer a _ _ _) ∪ footprint (set_buffer b _ _ _))
        with (footprint a ∪ footprint b); [apply framed_on_refl|].
      unfold footprint. cbn. set_solver. }
  destruct (reserve_spec h a xs (m_size b) Ra) as (h1 & a1 & E1 & Ra1 & F1 & Hf1).
  rewrite E1. cbn [mbind run_bind].
  destruct (framed_other _ _ _ _ _ _ F1 Rb D) as (Rb1 & D1 & O1).
  destruct (reserve_spec h1 b ys (m_size a1) Rb1) as (h2 & b2 & E2 & Rb2 & F2 & Hf2).
  rewrite E2. cbn [mbind run_bind].
  destruct (framed_other _ _ _ _ _ _ F2 Ra1 (symmetry D1)) as (Ra2 & D2 & O2).
  symmetry in D2. rewrite (union_comm_L _ (footprint a1)), (union_comm_L _ (footprint a1)) in O2.
  pose proof (framed_on_trans _ _ _ _ _ _ O1 O2) as O. clear O1 O2 F1 F2.
  pose proof (repr_size _ _ _ Ra2) as HsA. pose proof (repr_size _ _ _ Rb2) as HsB.
  rewrite (repr_size _ _ _ Rb) in Hf1. rewrite HsA in *. rewrite HsB.
  set (n := length xs `min` length ys).
  rewrite <- (take_drop n xs) in Ra2. rewrite <- (take_drop n ys) in Rb2.
  destruct (swap_elems_spec _ _ _ _ _ _ _ Ra2 Rb2 D2) as (h3 & E3 & Ra3 & Rb3 & O3).
  { rewrite !length_take. lia. }
  rewrite length_take in E3. replace (n `min` length xs) with n in E3 by lia. rewrite E3.
  cbn [mbind run_bind].
  pose proof (framed_on_trans _ _ _ _ _ _ O O3) as O4. case_bool_decide as Hlen.
  - assert (Hy : drop n ys = []) by (apply drop_ge; lia). rewrite Hy, app_nil_r in Rb3.
    assert (Ey : take n ys = ys) by (apply take_ge; lia). rewrite Ey in *.
    destruct (swap_tail_spec h3 a1 b2 ys (take n xs) (drop n xs) n Ra3 Rb3 D2)
      as (h4 & E4 & R5 & R6 & O5); rewrite ?length_take, ?length_drop; [lia..|].
    rewrite E4. cbn [mbind run_bind]. rewrite take_drop in R6.
    eexists _, _, _. split; [done|]. split_and!; [done|done|done|].
    by eapply framed_on_trans.
  - assert (Hx : drop n xs = []) by (apply drop_ge; lia). rewrite Hx, app_nil_r in Ra3.
    assert (Ex : take n xs = xs) by (apply take_ge; lia). rewrite Ex in *.
    destruct (swap_tail_spec h3 b2 a1 xs (take n ys) (drop n ys) n Rb3 Ra3 (symmetry D2))
      as (h4 & E4 & R5 & R6 & O5); rewrite ?length_take, ?length_drop; [lia..|].
    rewrite E4. cbn [mbind run_bind]. rewrite take_drop in R6.
    eexists _, _, _. split; [done|]. split_and!; [done|done|done|].
    eapply framed_on_trans; [exact O4|]. rewrite (union_comm_L (footprint a1)).
    rewrite !footprint_size, (union_comm_L (footprint a1)). exact O5.
Qed.

(** ** [resize] with a value of the array *)

Lemma read_raw h l b i : h !! l = Some b → b !! i = Some None → read h l i = Undef.
Proof. intros Hl Hi. unfold read. rewrite Hl. cbn. by rewrite Hi. Qed.

Lemma read_gone h l i : h !! l = None → read h l i = Undef.
Proof. intros Hl. unfold read. by rewrite Hl. Qed.

(** [grow] destroys or frees what the old buffer held. *)
Lemma grow_dangles h a xs n i h' a' :
  repr h a xs → length xs <= n → i < length xs → grow h a n = Done (h', a') →
  read h' (m_begin a) i = Undef.
Proof.
  intros R Hn Hi. unfold grow. cbn [allocate].
  set (c := computeNewCapacity a n). pose proof (computeNewCapacity_ge a n) as (Hc & _ & _).
  fold c in Hc. pose proof (repr_allocate h a xs c R) as R1.
  pose proof (fresh_footprint _ _ _ R) as Hnb. set (h1 := <[_ := _]> h) in *.
  unfold relocateTo. rewrite (repr_size _ _ _ R).
  assert (Hd : h1 !! fresh (dom h) = Some (replicate (length xs) None ++ replicate (c - length xs) None)).
  { unfold h1. rewrite lookup_insert_eq, <- replicate_add. do 2 f_equal. lia. }
  assert (Hne : m_begin a ≠ fresh (dom h)).
  { intros E. apply Hnb. rewrite <- E. unfold footprint. set_solver. }
  rewrite (relocate_loop_spec _ _ xs Hne h1 [] _ [] _ 0 (repr_buffer _ _ _ R1) eq_refl Hd eq_refl).
  cbn [mbind run_bind app]. rewrite <- replicate_add.
  replace (length xs + (m_capacity a - length xs)) with (m_capacity a)
    by (pose proof (repr_fits _ _ _ R); lia).
  rewrite release_spec by (by rewrite lookup_insert_ne, lookup_insert_eq, cells_nil).
  cbn [mbind run_bind]. intros E. simplify_eq. destruct (isInline a).
  - eapply read_raw; [by rewrite lookup_insert_ne, lookup_insert_eq|].
    apply lookup_replicate. split; [done|]. pose proof (repr_fits _ _ _ R). lia.
  - apply read_gone, lookup_delete_eq.
Qed.

(** [resize(n, v[i])] is undefined when it has to reallocate: the reference
    to the element is read after the element was moved out of the old buffer and
    destroyed, unlike [emplace_back] and [insert], which take such arguments. *)
Theorem resize_value_dangles h a xs i n :
  repr h a xs → i < length xs → m_capacity a < n →
  resize_value h a n (Copy (m_begin a) i) = Undef.
Proof.
  intros R Hi Hn. unfold resize_value. pose proof (repr_fits _ _ _ R) as Hf.
  rewrite (repr_size _ _ _ R), bool_decide_false by lia. rewrite bool_decide_true by lia.
  unfold reserve. rewrite bool_decide_true by lia.
  destruct (grow_spec h a xs n R) as (h' & a' & E & R' & _ & _); [lia|].
  rewrite E. cbn [mbind run_bind]. rewrite (repr_size _ _ _ R').
  pose proof (grow_dangles _ _ _ n i h' a' R ltac:(lia) Hi E) as Hr.
  replace (n - length xs) with (S (n - length xs - 1)) by lia.
  cbn [construct_copies]. unfold construct_from. cbn [take_source]. by rewrite Hr.
Qed.

End VarSizeArray.

(** ** Concrete arrays *)

(** Two inline slots, outgrown by the fourth operation; moving leaves 0. *)
Definition example_ops : list (op (T := nat)) :=
  [OpPushBack (AVal 1); OpAppend [2; 3]; OpPushBack (AElemMove 0); OpInsert 1 (AElem 2);
   OpInsertCount 0 2 (AElem 3); OpErase 2; OpResize 7 9; OpEraseRange 1 3].

Definition example_array : gmap loc (list (option nat)) * VarSizeArrayBase :=
  new_array ∅ 2.

Lemma example_array_repr : repr example_array.1 example_array.2 [].
Proof. exact (proj1 (new_array_spec (T := nat) ∅ 2)). Qed.

Lemma array_programs_witness :
  ∃ h' a', run_ops (λ _, 0) example_array.1 example_array.2 example_ops = Done (h', a') ∧
    repr h' a' [3; 2; 3; 1; 9].
Proof.
  destruct (array_programs (λ _, 0) example_array.1 example_array.2 [] example_ops [3; 2; 3; 1; 9]
              example_array_repr eq_refl) as (h' & a' & E & R & _).
  exact (ex_intro _ h' (ex_intro _ a' (conj E R))).
Defined.

Lemma array_lifetime_witness :
  ('(h1, a1) ← run_ops (λ _, 0) example_array.1 example_array.2 example_ops;
   destructor h1 a1) = Done (<[m_inlineBegin example_array.2 := replicate 2 None]> ∅).
Proof.
  destruct (array_lifetime (λ _, 0) ∅ 2 example_ops [3; 2; 3; 1; 9] eq_refl) as (h' & E & -> & _).
  exact E.
Defined.

(** A heap-backed array of three elements next to an inline one of two. *)
Definition example_store : gmap loc (list (option nat)) :=
  {[ 0 := [None; None]; 1 := [Some 5; Some 6; Some 7; None]; 2 := [Some 8; Some 9; None] ]}.
Definition example_heap : VarSizeArrayBase := MkVarSizeArray 1 3 4 0 2.
Definition example_inline : VarSizeArrayBase := MkVarSizeArray 2 2 3 2 3.

Lemma example_heap_repr : repr example_store example_heap [5; 6; 7].
Proof. split; cbn; [done|lia|done|done|done]. Qed.

Lemma example_inline_repr : repr example_store example_inline [8; 9].
Proof. split; cbn; [done|lia|done|done|done]. Qed.

Lemma example_separate : footprint example_heap ## footprint example_inline.
Proof. unfold footprint. cbn. set_solver. Qed.

Lemma assign_copy_spec_witness :
  ∃ h' a', assign_copy (λ _, 0) example_store example_inline example_heap = Done (h', a') ∧
    repr h' a' [5; 6; 7].
Proof.
  destruct (assign_copy_spec (λ _, 0) example_store example_inline example_heap [8; 9] [5; 6; 7]
              example_inline_repr example_heap_repr (symmetry example_separate))
    as (h' & a' & E & R & _). exact (ex_intro _ h' (ex_intro _ a' (conj E R))).
Defined.

Lemma assign_move_spec_witness :
  ∃ h' a' b', assign_move (λ _, 0) example_store example_inline example_heap = Done (h', a', b') ∧
    repr h' a' [5; 6; 7] ∧ repr h' b' [].
Proof.
  destruct (assign_move_spec (λ _, 0) example_store example_inline example_heap [8; 9] [5; 6; 7]
              example_inline_repr example_heap_repr (symmetry example_separate))
    as (h' & a' & b' & E & R & R' & _). exact (ex_intro _ h' (ex_intro _ a' (ex_intro _ b' (conj E (conj R R'))))).
Defined.

Lemma swap_spec_witness :
  ∃ h' a' b', swap (λ _, 0) example_store example_heap example_inline = Done (h', a', b') ∧
    repr h' a' [8; 9] ∧ repr h' b' [5; 6; 7].
Proof.
  destruct (swap_spec (λ _, 0) example_store example_heap example_inline [5; 6; 7] [8; 9]
              example_heap_repr example_inline_repr example_separate)
    as (h' & a' & b' & E & R & R' & _). exact (ex_intro _ h' (ex_intro _ a' (ex_intro _ b' (conj E (conj R R'))))).
Defined.

Lemma resize_value_dangles_witness :
  resize_value (λ _, 0) example_store example_heap 5 (Copy 1 0) = Undef.
Proof.
  apply (resize_value_dangles (λ _, 0) example_store example_heap [5; 6; 7] 0 5
           example_heap_repr); cbn; lia.
Defined.
