(* ===== verification/Logging.v ===== *)
(** Logging categories and filter rules: [src/libs/Support/Logging.cpp] and
    [include/lorelei/Support/Logging.h].

    A category has a flag per level; the registry holds the parsed rules and the
    live categories.  A filter is a function on categories, as the code's
    function pointer is, and may read the registry's rules by calling the default
    one; [None] stands for the default filter itself.  The theorems show that the rules text means what the
    header documents, and that the flags of every live category are the ones the
    rules in force give it, whatever the order of registrations and changes. *)

From stdpp Require Import gmap list.
From S2P Require Import Prelude CppString StringExtras.

(** ** Levels *)

Definition Trace : nat := 1.
Definition Debug : nat := 2.
Definition Success : nat := 3.
Definition Information : nat := 4.
Definition Warning : nat := 5.
Definition Critical : nat := 6.
Definition Fatal : nat := 7.

(** ** Rules *)

Inductive MatchMode : Type := Exact | Prefix | Suffix | Contains.

#[export] Instance MatchMode_eq : EqDecision MatchMode.
Proof. solve_decision. Defined.

Record LoggingRule : Type := MkRule {
  text : str;
  mode : MatchMode;
  level : nat;
  enable : bool
}.

Definition matchesCategory (r : LoggingRule) (name : str) : bool :=
  match mode r with
  | Prefix => starts_with name (text r)
  | Suffix => ends_with name (text r)
  | Contains => contains name (text r)
  | Exact => name =s? text r
  end.

Definition appliesToLevel (r : LoggingRule) (lv : nat) : bool :=
  (level r =? 0) || (level r =? lv).

Definition levelFromToken (token : str) : nat :=
  if token =s? $"trace" then Trace
  else if token =s? $"debug" then Debug
  else if token =s? $"success" then Success
  else if (token =s? $"info") || (token =s? $"information") then Information
  else if token =s? $"warning" then Warning
  else if token =s? $"critical" then Critical
  else if token =s? $"fatal" then Fatal
  else 0.

Definition parseBool (value : str) : option bool :=
  let v := to_lower value in
  if (v =s? $"true") || (v =s? $"1") then Some true
  else if (v =s? $"false") || (v =s? $"0") then Some false
  else None.

(** The level selector: the text behind the last dot, if it names a level. *)
Definition split_level (pattern : str) : str * nat :=
  match rfind_char "."%char pattern with
  | Some dot =>
      match levelFromToken (drop (dot + 1) pattern) with
      | 0 => (pattern, 0)
      | lv => (take dot pattern, lv)
      end
  | None => (pattern, 0)
  end.

(** Fold a wildcard at each end into the match mode. *)
Definition fold_wildcards (pattern : str) : str * MatchMode :=
  let left := starts_with_char pattern "*"%char in
  let right := ends_with_char pattern "*"%char in
  let pattern := if left then drop_front pattern 1 else pattern in
  let pattern := if right && negb (pattern =s? []) then drop_back pattern 1 else pattern in
  (pattern, if left && right then Contains else if left then Suffix
            else if right then Prefix else Exact).

Definition parseRule (line : str) : option LoggingRule :=
  eq ← find_char "="%char line;
  let pattern := trim (take eq line) default_trim_chars in
  value ← parseBool (trim (drop (eq + 1) line) default_trim_chars);
  if pattern =s? [] then None
  else
    let '(pattern, lv) := split_level pattern in
    let '(pattern, md) := fold_wildcards pattern in
    if contains_char pattern "*"%char then None
    else if bool_decide (md = Exact) && (pattern =s? []) then None
    else Some (MkRule pattern md lv value).

(** One entry of the rules text. *)
Definition parseEntry (rawEntry : str) (result : list LoggingRule) : list LoggingRule :=
  let entry := trim rawEntry default_trim_chars in
  if (entry =s? []) || starts_with_char entry "#"%char then result
  else match parseRule entry with Some rule => result ++ [rule] | None => result end.

Fixpoint parseEntries (l : list str) (result : list LoggingRule) : list LoggingRule :=
  match l with
  | [] => result
  | rawEntry :: l => parseEntries l (parseEntry rawEntry result)
  end.

Fixpoint parseLines (l : list str) (result : list LoggingRule) : run (list LoggingRule) :=
  match l with
  | [] => Done result
  | rawLine :: l =>
      entries ← split rawLine [";"%char];
      parseLines l (parseEntries entries result)
  end.

Definition parseRules (rules : str) : run (list LoggingRule) :=
  lines ← split rules [c_nl];
  parseLines lines [].

(** ** Categories *)

(** [cat_name] is the empty string for a null name, as the filter reads it. *)
Record LogCategory : Type := MkCategory {
  cat_name : str;
  levelEnabled : list bool
}.

Definition isLevelEnabled (c : LogCategory) (lv : nat) : run bool := defined (levelEnabled c !! lv).

Definition setLevelEnabled (lv : nat) (b : bool) (c : LogCategory) : run LogCategory :=
  if bool_decide (lv < length (levelEnabled c)) then
    Done (MkCategory (cat_name c) (<[lv := b]> (levelEnabled c)))
  else Undef.

(** [for (level = Trace; level <= Fatal; ++level)] of one rule. *)
Fixpoint apply_levels (r : LoggingRule) (lv k : nat) (c : LogCategory) : run LogCategory :=
  match k with
  | 0 => Done c
  | S k =>
      c ← (if appliesToLevel r lv then setLevelEnabled lv (enable r) c else Done c);
      apply_levels r (S lv) k c
  end.

Fixpoint enable_levels (lv k : nat) (c : LogCategory) : run LogCategory :=
  match k with
  | 0 => Done c
  | S k => c ← setLevelEnabled lv true c; enable_levels (S lv) k c
  end.

Fixpoint apply_rules (rules : list LoggingRule) (name : str) (c : LogCategory) : run LogCategory :=
  match rules with
  | [] => Done c
  | r :: rules =>
      c ← (if matchesCategory r name then apply_levels r Trace (Fatal + 1 - Trace) c else Done c);
      apply_rules rules name c
  end.

Definition defaultLogCategoryFilter (rules : list LoggingRule) (c : LogCategory) : run LogCategory :=
  c' ← enable_levels Trace (Fatal + 1 - Trace) c;
  apply_rules rules (cat_name c) c'.

(** ** The registry *)

(** A function on a category; the rules are the registry's, which it may read by the default
    filter only. *)
Definition LogCategoryFilter : Type := list LoggingRule → LogCategory → run LogCategory.

(** Objects are identified by their address; [None] is the default filter. *)
Record LogRegistry : Type := MkRegistry {
  filterRules : str;
  rules : list LoggingRule;
  categories : gmap nat LogCategory;
  categoryFilter : option LogCategoryFilter
}.

Definition registry_new : LogRegistry := MkRegistry [] [] ∅ None.

(** [LogCategory::logFilter]. *)
Definition logFilter (reg : LogRegistry) : LogCategoryFilter :=
  match categoryFilter reg with Some f => f | None => defaultLogCategoryFilter end.

Definition call_filter (reg : LogRegistry) (c : LogCategory) : run LogCategory := logFilter reg (rules reg) c.

(** The set is iterated in no particular order; each call touches its own category. *)
Fixpoint update_all (f : LogCategory → run LogCategory) (l : list (nat * LogCategory))
    (acc : gmap nat LogCategory) : run (gmap nat LogCategory) :=
  match l with
  | [] => Done acc
  | (i, c) :: l => c ← f c; update_all f l (<[i := c]> acc)
  end.

Definition updateFilterRules (reg : LogRegistry) : run LogRegistry :=
  cs ← update_all (call_filter reg) (map_to_list (categories reg)) (categories reg);
  Done (MkRegistry (filterRules reg) (rules reg) cs (categoryFilter reg)).

(** The constructor: all eight flag bytes set, then registered and filtered. *)
Definition new_category (name : str) : LogCategory := MkCategory name (replicate 8 true).

Definition register (i : nat) (name : str) (reg : LogRegistry) : run LogRegistry :=
  c ← call_filter reg (new_category name);
  Done (MkRegistry (filterRules reg) (rules reg) (<[i := c]> (categories reg)) (categoryFilter reg)).

Definition unregister (i : nat) (reg : LogRegistry) : LogRegistry :=
  MkRegistry (filterRules reg) (rules reg) (delete i (categories reg)) (categoryFilter reg).

Definition setLogFilter (f : option LogCategoryFilter) (reg : LogRegistry) :
    run LogRegistry :=
  updateFilterRules (MkRegistry (filterRules reg) (rules reg) (categories reg) f).

Definition setFilterRules (s : str) (reg : LogRegistry) : run LogRegistry :=
  rs ← parseRules s;
  updateFilterRules (MkRegistry s rs (categories reg) (categoryFilter reg)).

(** ** Emitting *)

(** What the default sink does with a record; [%s] stops at a NUL byte. *)
Inductive sink : Type :=
  | Silent
  | ToStdout (line : str)
  | ToStderr (line : str)
  | AssertFails.

Definition defaultLogCallback (lv : nat) (message : str) : sink :=
  if bool_decide (lv < Success) then Silent
  else if bool_decide (lv = Success) then ToStdout (c_str message ++ [c_nl])
  else if bool_decide (lv = Warning) || bool_decide (lv = Critical) || bool_decide (lv = Fatal)
  then ToStderr (c_str message ++ [c_nl])
  else AssertFails.

(** ** What the filter does *)

Definition rule_hits (name : str) (lv : nat) (r : LoggingRule) : bool :=
  matchesCategory r name && appliesToLevel r lv.

(** The documented meaning: the last rule that matches, over an enabled baseline. *)
Definition effective (rules : list LoggingRule) (name : str) (lv : nat) : bool :=
  match last (filter (λ r, rule_hits name lv r = true) rules) with
  | Some r => enable r
  | None => true
  end.

(** One flag through the rules in order. *)
Definition override (name : str) (lv : nat) (b : bool) (r : LoggingRule) : bool :=
  if rule_hits name lv r then enable r else b.

Lemma override_last name lv rules : ∀ b,
  foldl (override name lv) b rules =
  match last (filter (λ r, rule_hits name lv r = true) rules) with
  | Some r => enable r
  | None => b
  end.
Proof.
  induction rules as [|r rules IH] using rev_ind; intros b; [done|].
  rewrite foldl_app, filter_app. cbn [foldl]. unfold override at 1.
  destruct (rule_hits name lv r) eqn:E.
  - rewrite filter_cons_True by done. rewrite filter_nil, last_snoc. done.
  - rewrite filter_cons_False by congruence. rewrite filter_nil, app_nil_r. apply IH.
Qed.

Lemma effective_fold rules name lv : effective rules name lv = foldl (override name lv) true rules.
Proof. symmetry. apply override_last. Qed.

(** [c'] is [c] with the flags [f lv] at the levels of [lo..hi-1]. *)
Definition flags_set (c c' : LogCategory) (lo hi : nat) (f : nat → bool → bool) : Prop :=
  cat_name c' = cat_name c ∧ length (levelEnabled c') = length (levelEnabled c) ∧
  ∀ j b, levelEnabled c !! j = Some b →
    levelEnabled c' !! j = Some (if decide (lo <= j < hi) then f j b else b).

Lemma setLevelEnabled_spec lv b c :
  lv < length (levelEnabled c) →
  ∃ c', setLevelEnabled lv b c = Done c' ∧ flags_set c c' lv (S lv) (λ _ _, b).
Proof.
  intros H. unfold setLevelEnabled. rewrite bool_decide_true by done.
  eexists. split; [done|]. split_and!; cbn; [done|by rewrite length_insert|].
  intros j b' Hj. case_decide.
  - assert (j = lv) as -> by lia. by apply list_lookup_insert_eq.
  - rewrite list_lookup_insert_ne by lia. done.
Qed.

Lemma flags_set_step c c1 c2 lo hi f g :
  lo < hi → flags_set c c1 lo (S lo) f → flags_set c1 c2 (S lo) hi g →
  (∀ b, f lo b = g lo b) → flags_set c c2 lo hi g.
Proof.
  intros Hlo (N1 & L1 & F1) (N2 & L2 & F2) Hfg. split_and!; [congruence|congruence|].
  intros j b Hj. pose proof (F2 _ _ (F1 _ _ Hj)) as ->. f_equal.
  destruct (decide (j = lo)) as [->|Hne].
  - rewrite (decide_False (P := S lo <= lo < hi)) by lia.
    rewrite !decide_True by lia. apply Hfg.
  - rewrite (decide_False (P := lo <= j < S lo)) by lia.
    destruct (decide (S lo <= j < hi)); [rewrite decide_True by lia|rewrite decide_False by lia]; done.
Qed.

Lemma flags_set_none c lo f : flags_set c c lo lo f.
Proof. split_and!; [done|done|]. intros j b Hj. by rewrite decide_False by lia. Qed.

Lemma enable_levels_spec k : ∀ lv c,
  lv + k <= length (levelEnabled c) →
  ∃ c', enable_levels lv k c = Done c' ∧ flags_set c c' lv (lv + k) (λ _ _, true).
Proof.
  induction k as [|k IH]; intros lv c H; cbn [enable_levels].
  - exists c. rewrite Nat.add_0_r. split; [done|apply flags_set_none].
  - destruct (setLevelEnabled_spec lv true c) as (c1 & -> & S1); [lia|]. cbn [mbind run_bind].
    destruct (IH (S lv) c1) as (c2 & -> & S2).
    { destruct S1 as (_ & -> & _). lia. }
    exists c2. split; [done|]. rewrite <- Nat.add_succ_comm.
    eapply flags_set_step; [|exact S1|exact S2|done]. lia.
Qed.

Lemma apply_levels_spec r k : ∀ lv c,
  lv + k <= length (levelEnabled c) →
  ∃ c', apply_levels r lv k c = Done c' ∧
    flags_set c c' lv (lv + k) (λ j b, if appliesToLevel r j then enable r else b).
Proof.
  induction k as [|k IH]; intros lv c H; cbn [apply_levels].
  - exists c. rewrite Nat.add_0_r. split; [done|apply flags_set_none].
  - assert (∃ c1, (if appliesToLevel r lv then setLevelEnabled lv (enable r) c else Done c) = Done c1
              ∧ flags_set c c1 lv (S lv) (λ _ b, if appliesToLevel r lv then enable r else b))
      as (c1 & -> & S1).
    { destruct (appliesToLevel r lv).
      - apply setLevelEnabled_spec. lia.
      - exists c. split; [done|]. split_and!; [done|done|]. intros j b Hj. by case_decide. }
    cbn [mbind run_bind]. destruct (IH (S lv) c1) as (c2 & -> & S2).
    { destruct S1 as (_ & -> & _). lia. }
    exists c2. split; [done|]. rewrite <- Nat.add_succ_comm.
    eapply flags_set_step; [|exact S1|exact S2|done]. lia.
Qed.

(** The eight flag bytes of a category. *)
Definition category_wf (c : LogCategory) : Prop := length (levelEnabled c) = 8.

Lemma apply_rules_spec rules : ∀ c,
  category_wf c →
  ∃ c', apply_rules rules (cat_name c) c = Done c' ∧
    flags_set c c' Trace (S Fatal) (λ j b, foldl (override (cat_name c) j) b rules).
Proof.
  induction rules as [|r rules IH]; intros c Hc; cbn [apply_rules].
  - exists c. split; [done|]. split_and!; [done|done|]. intros j b Hj. by case_decide.
  - assert (∃ c1, (if matchesCategory r (cat_name c) then apply_levels r Trace (Fatal + 1 - Trace) c
                   else Done c) = Done c1 ∧
              flags_set c c1 Trace (S Fatal) (λ j b, override (cat_name c) j b r))
      as (c1 & -> & S1).
    { unfold override, rule_hits. destruct (matchesCategory r (cat_name c)); cbn [andb].
      - apply apply_levels_spec. rewrite Hc. done.
      - exists c. split; [done|]. split_and!; [done|done|]. intros j b Hj. by case_decide. }
    cbn [mbind run_bind]. destruct S1 as (N1 & L1 & F1).
    destruct (IH c1) as (c2 & E2 & N2 & L2 & F2); [unfold category_wf in *; congruence|].
    rewrite N1 in *. exists c2. split; [done|]. split_and!; [congruence|congruence|].
    intros j b Hj. pose proof (F2 _ _ (F1 _ _ Hj)) as ->. f_equal. by case_decide.
Qed.

(** What the default filter leaves: the flags the rules give, by level. *)
Definition flags_of (rules : list LoggingRule) (c : LogCategory) : Prop :=
  category_wf c ∧ ∀ lv, Trace <= lv <= Fatal →
    levelEnabled c !! lv = Some (effective rules (cat_name c) lv).

Lemma default_filter_spec rules c :
  category_wf c →
  ∃ c', defaultLogCategoryFilter rules c = Done c' ∧ cat_name c' = cat_name c ∧ flags_of rules c'.
Proof.
  intros Hc. unfold defaultLogCategoryFilter.
  destruct (enable_levels_spec (Fatal + 1 - Trace) Trace c) as (c1 & E1 & N1 & L1 & F1);
    [rewrite Hc; done|].
  rewrite E1. cbn [mbind run_bind]. rewrite <- N1.
  destruct (apply_rules_spec rules c1) as (c2 & E2 & N2 & L2 & F2); [unfold category_wf in *; congruence|].
  exists c2. split; [done|]. split; [congruence|]. split; [unfold category_wf in *; congruence|].
  intros lv Hlv. destruct (lookup_lt_is_Some_2 (levelEnabled c) lv) as [b Hb].
  { rewrite Hc. unfold Fatal in Hlv. lia. }
  rewrite (F2 _ _ (F1 _ _ Hb)). f_equal. rewrite decide_True by (unfold Fatal, Trace in *; lia).
  change (Trace + (Fatal + 1 - Trace)) with (S Fatal). rewrite decide_True by lia.
  rewrite N2. by rewrite effective_fold.
Qed.

(** The default filter gives a category exactly the flags its documentation
    says: for every level, the last rule that matches the category's name and
    the level decides, and without one the level is on. *)
Theorem filter_last_match rules c :
  category_wf c →
  ∃ c', defaultLogCategoryFilter rules c = Done c' ∧ cat_name c' = cat_name c ∧
    ∀ lv, Trace <= lv <= Fatal →
      isLevelEnabled c' lv = Done (effective rules (cat_name c) lv).
Proof.
  intros Hc. destruct (default_filter_spec rules c Hc) as (c' & E & N & W & F).
  exists c'. split_and!; [done|done|]. intros lv Hlv. unfold isLevelEnabled.
  by rewrite F, N.
Qed.

(** ** The rules text *)

Definition star : str := ["*"%char].

(** The wildcards of a mode around a text. *)
Definition render_pattern (r : LoggingRule) : str :=
  match mode r with
  | Exact => text r
  | Prefix => text r ++ star
  | Suffix => star ++ text r
  | Contains => star ++ text r ++ star
  end.

Definition level_name (lv : nat) : str :=
  match lv with
  | 1 => $"trace" | 2 => $"debug" | 3 => $"success" | 4 => $"info"
  | 5 => $"warning" | 6 => $"critical" | _ => $"fatal"
  end.

Definition render_selector (lv : nat) : str :=
  match lv with 0 => [] | _ => "."%char :: level_name lv end.

Definition render_bool (b : bool) : str := if b then $"true" else $"false".

Definition render_rule (r : LoggingRule) : str :=
  render_pattern r ++ render_selector (level r) ++ $" = " ++ render_bool (enable r).

(** Rules that the text can express: the category has none of the characters of
    the grammar and does not begin or end with white space, only [*foo*] may have
    an empty text, and without a selector the pattern must not look like one. *)
Record rule_wf (r : LoggingRule) : Prop := MkRuleWf {
  rw_clean : ∀ c, c ∈ text r → c ≠ "*"%char ∧ c ≠ "="%char ∧ c ≠ ";"%char ∧ c ≠ c_nl;
  rw_ends : clean_ends default_trim_chars (text r);
  rw_comment : head (text r) ≠ Some "#"%char;
  rw_nonempty : mode r ≠ Contains → text r ≠ [];
  rw_level : level r <= Fatal;
  rw_selector : level r = 0 →
    ∀ k t, render_pattern r = k ++ "."%char :: t → levelFromToken t = 0
}.

Lemma levelFromToken_name lv :
  1 <= lv <= Fatal → levelFromToken (level_name lv) = lv ∧ "."%char ∉ level_name lv.
Proof.
  intros H. unfold Fatal in H.
  assert (lv = 1 ∨ lv = 2 ∨ lv = 3 ∨ lv = 4 ∨ lv = 5 ∨ lv = 6 ∨ lv = 7) as Hc by lia.
  destruct_or! Hc; subst; (split; [reflexivity|]);
    apply (bool_decide_unpack _); reflexivity.
Qed.

Lemma split_level_render r :
  rule_wf r →
  split_level (render_pattern r ++ render_selector (level r)) = (render_pattern r, level r).
Proof.
  intros W. destruct (level r) as [|n] eqn:El.
  { cbn. rewrite app_nil_r. unfold split_level.
    destruct (rfind_char "." (render_pattern r)) as [dot|] eqn:E; [|done].
    by rewrite (rw_selector _ W El _ _ (rfind_char_Some _ _ _ E)). }
  destruct (levelFromToken_name (S n)) as [Hlv Hdot].
  { pose proof (rw_level _ W). lia. }
  unfold split_level, render_selector. rewrite rfind_char_app by done.
  replace (drop (length (render_pattern r) + 1) _) with (level_name (S n)).
  - rewrite Hlv, take_app_length. done.
  - rewrite drop_app_ge by lia. by replace (_ + 1 - _) with 1 by lia.
Qed.

Lemma not_star_ends s :
  "*"%char ∉ s → starts_with_char s "*"%char = false ∧ ends_with_char s "*"%char = false.
Proof.
  intros H. split.
  - destruct s as [|c s]; [done|]. cbn. destruct (Ascii.eqb_spec c "*"); [|done].
    subst. set_solver.
  - unfold ends_with_char. destruct (List.rev s) as [|c l] eqn:E; [done|].
    destruct (Ascii.eqb_spec c "*"); [|done]. subst.
    exfalso. apply H. apply list_elem_of_In, in_rev. rewrite E. by left.
Qed.

Lemma ends_with_star s : ends_with_char (s ++ star) "*"%char = true.
Proof. unfold ends_with_char, star. by rewrite rev_unit. Qed.

Lemma drop_back_star s : drop_back (s ++ star) 1 = s.
Proof.
  unfold drop_back, star. rewrite length_app. cbn [length].
  destruct (Nat.leb_spec 1 (length s + 1)); [|lia].
  by rewrite Nat.add_sub, take_app_length.
Qed.

Lemma fold_wildcards_render r :
  rule_wf r → fold_wildcards (render_pattern r) = (text r, mode r).
Proof.
  intros W. pose proof (rw_nonempty _ W) as Hn.
  assert (Hs : "*"%char ∉ text r) by (intros H; by apply (rw_clean _ W) in H as [? _]).
  destruct (not_star_ends _ Hs) as [Ht Ht'].
  unfold fold_wildcards, render_pattern. destruct (mode r) eqn:Em.
  - rewrite Ht, Ht'. done.
  - assert (E : starts_with_char (text r ++ star) "*" = false).
    { destruct (text r) as [|c t]; [by apply Hn in Em || (exfalso; by apply Hn)|]. exact Ht. }
    rewrite E, ends_with_star, drop_back_star. cbn [andb].
    rewrite bool_decide_false; [done|]. by destruct (text r).
  - cbn [starts_with_char star app]. rewrite Ascii.eqb_refl. cbn [drop_front drop andb].
    assert (E : ends_with_char ("*"%char :: text r) "*" = false).
    { unfold ends_with_char in *. cbn [List.rev]. specialize (Hn ltac:(done)).
      destruct (List.rev (text r)) as [|c l] eqn:Er; [|exact Ht'].
      apply (f_equal (@List.rev _)) in Er. rewrite rev_involutive in Er. done. }
    rewrite E. done.
  - cbn [starts_with_char star app]. rewrite Ascii.eqb_refl. cbn [drop_front drop].
    change ("*"%char :: text r ++ star) with (("*"%char :: text r) ++ star).
    rewrite ends_with_star, drop_0, drop_back_star. cbn [andb]. rewrite bool_decide_false; [done|]. by destruct (text r).
Qed.

(** Text between padding that [trim] removes. *)
Definition padding (s : str) : Prop := ∀ c, c ∈ s → c = " "%char ∨ c = c_tab.

Lemma padding_trim s : padding s → ∀ c, c ∈ s → c ∈ default_trim_chars.
Proof. intros H c Hc. destruct (H c Hc) as [-> | ->]; apply (bool_decide_unpack _); reflexivity. Qed.

Lemma trim_padded l m r :
  padding l → padding r → clean_ends default_trim_chars m →
  trim (l ++ m ++ r) default_trim_chars = m.
Proof.
  intros Hl Hr Hm. eapply trim_unique; [done|by apply padding_trim|by apply padding_trim|done].
Qed.

Lemma clean_ends_app a b :
  a ≠ [] → b ≠ [] → clean_ends default_trim_chars a → clean_ends default_trim_chars b →
  clean_ends default_trim_chars (a ++ b).
Proof.
  intros Ha Hb [H1 _] [_ H2]. split; intros c Hc.
  - destruct a; [done|]. by apply H1.
  - rewrite last_app in Hc. destruct (last b) eqn:E; [|by apply last_None in E].
    simplify_eq. by apply H2.
Qed.

Lemma star_clean : clean_ends default_trim_chars star.
Proof. split; intros c [= <-]; apply (bool_decide_unpack _); reflexivity. Qed.

Lemma pattern_clean r :
  rule_wf r → render_pattern r ≠ [] ∧ clean_ends default_trim_chars (render_pattern r).
Proof.
  intros W. pose proof (rw_ends _ W) as He. pose proof (rw_nonempty _ W) as Hn.
  unfold render_pattern. destruct (mode r) eqn:Em.
  - split; [by apply Hn|done].
  - split; [by destruct (text r)|]. apply clean_ends_app; [by apply Hn|done|done|apply star_clean].
  - split; [done|]. apply clean_ends_app; [done|by apply Hn|apply star_clean|done].
  - split; [done|]. destruct (decide (text r = [])) as [E|E].
    + rewrite E. apply clean_ends_app; [done|done|apply star_clean..].
    + apply clean_ends_app; [done|by destruct (text r)|apply star_clean|].
      apply clean_ends_app; [done|done|done|apply star_clean].
Qed.

Lemma selector_clean lv :
  lv ≠ 0 → render_selector lv ≠ [] ∧ clean_ends default_trim_chars (render_selector lv).
Proof.
  intros H. destruct lv as [|lv]; [done|]. split; [done|]. split.
  - intros c [= <-]. apply (bool_decide_unpack _); reflexivity.
  - intros c. do 6 (destruct lv as [|lv]; [intros [= <-]; apply (bool_decide_unpack _); reflexivity|]).
    intros [= <-]; apply (bool_decide_unpack _); reflexivity.
Qed.

Lemma category_clean r :
  rule_wf r →
  render_pattern r ++ render_selector (level r) ≠ [] ∧
  clean_ends default_trim_chars (render_pattern r ++ render_selector (level r)).
Proof.
  intros W. destruct (pattern_clean r W) as [Hp Hc].
  split; [by destruct (render_pattern r)|].
  destruct (decide (level r = 0)) as [E|E].
  - rewrite E. cbn. by rewrite app_nil_r.
  - destruct (selector_clean _ E). by apply clean_ends_app.
Qed.

Lemma render_bool_spec b :
  parseBool (render_bool b) = Some b ∧ render_bool b ≠ [] ∧
  clean_ends default_trim_chars (render_bool b).
Proof.
  destruct b; (split; [reflexivity|]); (split; [done|]);
    split; intros c [= <-]; apply (bool_decide_unpack _); reflexivity.
Qed.

(** Characters that no part of a rendered rule has. *)
Lemma render_pattern_clean r c :
  rule_wf r → c ∈ render_pattern r → c ≠ "="%char ∧ c ≠ ";"%char ∧ c ≠ c_nl.
Proof.
  intros W Hc. assert (Hs : c ∈ text r ∨ c = "*"%char).
  { unfold render_pattern, star in Hc. destruct (mode r); set_solver. }
  destruct Hs as [Hs| ->]; [by apply (rw_clean _ W)|]. done.
Qed.

Lemma render_selector_clean lv c :
  c ∈ render_selector lv → c ≠ "="%char ∧ c ≠ ";"%char ∧ c ≠ c_nl.
Proof.
  assert (H : Forall (λ c, c ≠ "="%char ∧ c ≠ ";"%char ∧ c ≠ c_nl) (render_selector lv)).
  { destruct lv as [|lv]; [constructor|].
    do 6 (destruct lv as [|lv]; [by apply (bool_decide_unpack _)|]).
    by apply (bool_decide_unpack _). }
  rewrite Forall_forall in H. apply H.
Qed.

Lemma parseRule_render r : rule_wf r → parseRule (render_rule r) = Some r.
Proof.
  intros W. destruct (category_clean r W) as [Hne Hcl].
  destruct (render_bool_spec (enable r)) as (Hb & Hbn & Hbc).
  set (cat := render_pattern r ++ render_selector (level r)) in *.
  assert (E : render_rule r = (cat ++ [" "%char]) ++ "="%char :: " "%char :: render_bool (enable r)).
  { unfold render_rule, cat. rewrite <- !app_assoc. done. }
  rewrite E. unfold parseRule. rewrite find_char_app; cycle 1.
  { intros H. unfold cat in H. rewrite !elem_of_app in H. destruct H as [[H|H]|H].
    - by apply (render_pattern_clean _ _ W) in H as [? _].
    - by apply render_selector_clean in H as [? _].
    - apply list_elem_of_singleton in H. done. }
  cbn [mbind option_bind]. rewrite take_app_length.
  assert (Et : trim (cat ++ [" "%char]) default_trim_chars = cat).
  { apply (trim_padded [] cat [" "%char]); [by intros ? ?%elem_of_nil| |done].
    intros c Hc%list_elem_of_singleton. by left. }
  rewrite Et.
  replace (drop (length (cat ++ [" "%char]) + 1) _) with (([" "%char]) ++ render_bool (enable r)).
  2:{ rewrite drop_app_ge by lia. by replace (_ + 1 - _) with 1 by lia. }
  assert (Ev : trim (([" "%char]) ++ render_bool (enable r)) default_trim_chars = render_bool (enable r)).
  { rewrite <- (app_nil_r (render_bool _)) at 1.
    apply trim_padded; [|by intros ? ?%elem_of_nil|done].
    intros c Hc%list_elem_of_singleton. by left. }
  rewrite Ev, Hb. cbn [mbind option_bind]. rewrite bool_decide_false by done.
  unfold cat. rewrite split_level_render, fold_wildcards_render by done.
  destruct (contains_char (text r) "*") eqn:Es.
  { apply contains_char_spec in Es. by apply (rw_clean _ W) in Es as [? _]. }
  destruct (bool_decide (mode r = Exact)) eqn:Em.
  - apply bool_decide_eq_true in Em. rewrite bool_decide_false.
    + by destruct r.
    + apply (rw_nonempty _ W). by rewrite Em.
  - by destruct r.
Qed.

(** The entries of a rules text: a rule with padding around it, white space, or
    a comment. *)
Inductive entry : Type :=
  | ERule (l : str) (r : LoggingRule) (after : str)
  | EBlank (l : str)
  | EComment (l comment : str).

Definition entry_wf (e : entry) : Prop :=
  match e with
  | ERule l r after => padding l ∧ rule_wf r ∧ padding after
  | EBlank l => padding l
  | EComment l comment => padding l ∧ (";"%char ∉ comment) ∧ (c_nl ∉ comment)
  end.

Definition render_entry (e : entry) : str :=
  match e with
  | ERule l r after => l ++ render_rule r ++ after
  | EBlank l => l
  | EComment l comment => l ++ "#"%char :: comment
  end.

Definition entry_rules (e : entry) : list LoggingRule :=
  match e with ERule _ r _ => [r] | _ => [] end.

(** Lines of entries, and the text of them. *)
Definition render_rules (lines : list (list entry)) : str :=
  join ((λ line, join (render_entry <$> line) [";"%char]) <$> lines) [c_nl].

Definition lines_wf (lines : list (list entry)) : Prop :=
  lines ≠ [] ∧ Forall (λ line, line ≠ [] ∧ Forall entry_wf line) lines.

Lemma render_rule_shape r :
  rule_wf r →
  render_rule r ≠ [] ∧ clean_ends default_trim_chars (render_rule r) ∧
  starts_with_char (render_rule r) "#"%char = false ∧
  ∀ c, c ∈ render_rule r → c ≠ ";"%char ∧ c ≠ c_nl.
Proof.
  intros W. destruct (pattern_clean r W) as [Hp _].
  destruct (category_clean r W) as [Hne Hcl].
  destruct (render_bool_spec (enable r)) as (_ & Hbn & Hbc).
  split_and!.
  - unfold render_rule. by destruct (render_pattern r).
  - unfold render_rule. rewrite 2!app_assoc. split.
    + intros c Hc. apply (proj1 Hcl).
      by destruct (render_pattern r ++ render_selector (level r)).
    + intros c Hc. rewrite last_app in Hc.
      destruct (last (render_bool _)) eqn:E; [|by apply last_None in E].
      simplify_eq. by apply Hbc.
  - unfold render_rule, render_pattern. pose proof (rw_comment _ W) as Hh.
    pose proof (rw_nonempty _ W) as Hn.
    destruct (mode r); try reflexivity;
      (destruct (text r) as [|c t]; [by destruct Hn|]); cbn in *;
      destruct (Ascii.eqb_spec c "#"); congruence.
  - unfold render_rule. intros c Hc. rewrite !elem_of_app in Hc.
    destruct Hc as [Hc|[Hc|[Hc|Hc]]].
    + by apply (render_pattern_clean _ _ W) in Hc as [_ ?].
    + by apply render_selector_clean in Hc as [_ ?].
    + revert c Hc. apply Forall_forall. by apply (bool_decide_unpack _).
    + revert c Hc. apply Forall_forall. destruct (enable r); by apply (bool_decide_unpack _).
Qed.

Lemma trim_padding_only l : padding l → trim l default_trim_chars = [].
Proof.
  intros H. rewrite <- (app_nil_r l). rewrite <- (app_nil_l []).
  apply (trim_padded l [] []); [done|by intros ? ?%elem_of_nil|done].
Qed.

(** A trimmed comment still begins with the number sign. *)
Lemma trim_comment l comment :
  padding l → starts_with_char (trim (l ++ "#"%char :: comment) default_trim_chars) "#"%char = true.
Proof.
  intros Hl. set (s := l ++ "#"%char :: comment).
  destruct (trim_shape s default_trim_chars) as (l' & r' & E & Hl' & Hr' & [Hh _]).
  generalize dependent (trim s default_trim_chars). intros m E Hh.
  assert (Hhash : "#"%char ∉ default_trim_chars) by (apply (bool_decide_unpack _); reflexivity).
  assert (Hm : m ≠ []).
  { intros ->. assert (Hin : "#"%char ∈ s) by (unfold s; set_solver).
    rewrite E in Hin. set_solver. }
  destruct m as [|c m]; [done|]. specialize (Hh c eq_refl). cbn.
  destruct (Ascii.eqb_spec c "#"); [done|]. exfalso.
  assert (Hll : l = l').
  { unfold s in E. clear -E Hl Hl' Hh Hhash. revert l' Hl' E.
    pose proof (padding_trim _ Hl) as Hp. clear Hl. induction l as [|x l IH]; intros [|y l'] Hl' E.
    - done.
    - cbn in E. injection E as <- _. exfalso. apply Hhash, Hl'. by left.
    - cbn in E. injection E as <- _. exfalso. apply Hh, Hp. by left.
    - cbn in E. injection E as -> E. f_equal. apply IH; [|intros; apply Hl'; by right|done].
      intros c' ?. apply Hp. by right. }
  subst l'. unfold s in E. apply app_inv_head in E. injection E. congruence.
Qed.

Lemma parseEntry_render e result :
  entry_wf e → parseEntry (render_entry e) result = result ++ entry_rules e.
Proof.
  intros W. unfold parseEntry. destruct e as [l r after|l|l comment]; cbn [render_entry entry_rules] in *.
  - destruct W as (Hl & W & Hr). destruct (render_rule_shape r W) as (Hn & Hc & Hh & _).
    rewrite trim_padded by done. rewrite bool_decide_false by done. rewrite Hh.
    cbn [orb]. by rewrite parseRule_render.
  - rewrite trim_padding_only by done. by rewrite app_nil_r.
  - rewrite trim_comment by apply W. rewrite orb_true_r. by rewrite app_nil_r.
Qed.

Lemma render_entry_clean e c : entry_wf e → c ∈ render_entry e → c ≠ ";"%char ∧ c ≠ c_nl.
Proof.
  assert (Hpad : ∀ l, padding l → ∀ c, c ∈ l → c ≠ ";"%char ∧ c ≠ c_nl).
  { intros l Hl d Hd. destruct (Hl d Hd) as [-> | ->]; split; discriminate. }
  destruct e as [l r after|l|l comment]; cbn; intros W Hc.
  - destruct W as (Hl & W & Hr). rewrite !elem_of_app in Hc. destruct Hc as [Hc|[Hc|Hc]]; eauto.
    by apply (render_rule_shape r W).
  - eauto.
  - destruct W as (Hl & H1 & H2). rewrite elem_of_app, elem_of_cons in Hc.
    destruct Hc as [Hc|[->|Hc]]; [eauto|split; discriminate|]. split; intros ->; done.
Qed.

Lemma parseEntries_render line : ∀ result,
  Forall entry_wf line →
  parseEntries (render_entry <$> line) result = result ++ (line ≫= entry_rules).
Proof.
  induction line as [|e line IH]; intros result W; cbn [fmap list_fmap parseEntries].
  - by rewrite app_nil_r.
  - apply Forall_cons in W as [We W]. rewrite parseEntry_render, IH by done.
    cbn. by rewrite <- app_assoc.
Qed.

Lemma split_render_line line :
  line ≠ [] → Forall entry_wf line →
  split (join (render_entry <$> line) [";"%char]) [";"%char] = Done (render_entry <$> line).
Proof.
  intros Hn W. destruct (split_tokens (join (render_entry <$> line) [";"%char]) [";"%char]) as (v & Hv & ->);
    [done|]. f_equal. eapply tokens_det; [done|]. apply tokens_char_join; [by destruct line|].
  apply Forall_fmap. eapply Forall_impl; [exact W|]. cbn. intros e We Hc.
  by apply render_entry_clean in Hc as [? _].
Qed.

Lemma join_clean c d v : c ≠ d → Forall (λ t, c ∉ t) v → c ∉ join v [d].
Proof.
  intros Hcd. induction v as [|t v IH]; intros H; [apply not_elem_of_nil|].
  apply Forall_cons in H as [Ht Hv]. destruct v as [|t' v]; [by rewrite join_singleton|].
  rewrite join_cons by done. rewrite !not_elem_of_app. split_and!; [done| |by apply IH].
  by rewrite list_elem_of_singleton.
Qed.

Lemma parseLines_render lines : ∀ result,
  Forall (λ line, line ≠ [] ∧ Forall entry_wf line) lines →
  parseLines ((λ line, join (render_entry <$> line) [";"%char]) <$> lines) result =
    Done (result ++ (concat lines ≫= entry_rules)).
Proof.
  induction lines as [|line lines IH]; intros result W; cbn [fmap list_fmap parseLines concat].
  - by rewrite app_nil_r.
  - apply Forall_cons in W as [[Hn We] W]. rewrite split_render_line by done.
    cbn [mbind run_bind]. rewrite parseEntries_render, IH by done.
    by rewrite bind_app, <- app_assoc.
Qed.

Lemma parseRules_render lines :
  lines_wf lines → parseRules (render_rules lines) = Done (concat lines ≫= entry_rules).
Proof.
  intros [Hn W]. unfold parseRules, render_rules.
  set (ls := (λ line, join (render_entry <$> line) [";"%char]) <$> lines).
  destruct (split_tokens (join ls [c_nl]) [c_nl]) as (v & Hv & ->); [done|].
  assert (Hls : tokens [c_nl] (join ls [c_nl]) ls).
  { apply tokens_char_join; [by destruct lines|]. apply Forall_fmap.
    eapply Forall_impl; [exact W|]. cbn. intros line [_ We]. apply join_clean; [done|].
    apply Forall_fmap. eapply Forall_impl; [exact We|]. cbn. intros e He Hc.
    by apply render_entry_clean in Hc as [_ ?]. }
  rewrite (tokens_det _ _ _ _ Hv Hls). cbn [mbind run_bind]. unfold ls.
  by rewrite parseLines_render.
Qed.

(** The rules text round-trips.  Rules written in the documented grammar,
    one or more to a line separated by semicolons, padded, with blank entries and
    comments between them, parse to exactly those rules in that order. *)
Theorem rules_roundtrip lines :
  lines_wf lines → parseRules (render_rules lines) = Done (concat lines ≫= entry_rules).
Proof. apply parseRules_render. Qed.

(** A semicolon ends a comment: the rest of the line is read as a rule. *)
Lemma comment_semicolon :
  parseRules ($"# off for now; *.debug = false") = Done [MkRule [] Contains Debug false].
Proof. vm_compute. reflexivity. Qed.

(** ** The registry *)

(** Every rules text parses. *)
Lemma parseLines_total l : ∀ result, ∃ rs, parseLines l result = Done rs.
Proof.
  induction l as [|s l IH]; intros result; cbn [parseLines]; [eauto|].
  destruct (split_tokens s [";"%char]) as (v & _ & ->); [done|]. cbn [mbind run_bind]. apply IH.
Qed.

Lemma parseRules_total s : ∃ rs, parseRules s = Done rs.
Proof.
  unfold parseRules. destruct (split_tokens s [c_nl]) as (v & _ & ->); [done|]. apply parseLines_total.
Qed.

(** A custom filter that keeps the name and the eight flags. *)
Definition filter_ok (f : LogCategoryFilter) : Prop :=
  ∀ rs c, category_wf c → ∃ c', f rs c = Done c' ∧ cat_name c' = cat_name c ∧ category_wf c'.

(** The operations of the registry. *)
Inductive reg_op : Type :=
  | Register (i : nat) (name : str)
  | Unregister (i : nat)
  | SetFilterRules (s : str)
  | SetLogFilter (f : option LogCategoryFilter).

Definition op_ok (o : reg_op) : Prop :=
  match o with SetLogFilter (Some f) => filter_ok f | _ => True end.

Definition run_reg_op (reg : LogRegistry) (o : reg_op) : run LogRegistry :=
  match o with
  | Register i name => register i name reg
  | Unregister i => Done (unregister i reg)
  | SetFilterRules s => setFilterRules s reg
  | SetLogFilter f => setLogFilter f reg
  end.

Fixpoint run_reg_ops (reg : LogRegistry) (l : list reg_op) : run LogRegistry :=
  match l with
  | [] => Done reg
  | o :: l => reg ← run_reg_op reg o; run_reg_ops reg l
  end.

(** The names of the live categories and the text and filter in force, which is
    all a client can know of the registry. *)
Record view : Type := MkView {
  v_names : gmap nat str;
  v_text : str;
  v_filter : option LogCategoryFilter
}.

Definition view_of (reg : LogRegistry) : view :=
  MkView (cat_name <$> categories reg) (filterRules reg) (categoryFilter reg).

Definition view_step (v : view) (o : reg_op) : view :=
  match o with
  | Register i name => MkView (<[i := name]> (v_names v)) (v_text v) (v_filter v)
  | Unregister i => MkView (delete i (v_names v)) (v_text v) (v_filter v)
  | SetFilterRules s => MkView (v_names v) s (v_filter v)
  | SetLogFilter f => MkView (v_names v) (v_text v) f
  end.

(** The rules are those of the text, the categories are well formed, and under
    the default filter their flags are the ones the rules give. *)
Record registry_wf (reg : LogRegistry) : Prop := MkRegistryWf {
  rg_rules : parseRules (filterRules reg) = Done (rules reg);
  rg_filter : ∀ f, categoryFilter reg = Some f → filter_ok f;
  rg_cats : map_Forall (λ _, category_wf) (categories reg);
  rg_flags : categoryFilter reg = None → map_Forall (λ _, flags_of (rules reg)) (categories reg)
}.

(** What any filter in force establishes for a category. *)
Definition filtered (reg : LogRegistry) (c c' : LogCategory) : Prop :=
  cat_name c' = cat_name c ∧ category_wf c' ∧ (categoryFilter reg = None → flags_of (rules reg) c').

Lemma call_filter_spec reg c :
  (∀ f, categoryFilter reg = Some f → filter_ok f) → category_wf c →
  ∃ c', call_filter reg c = Done c' ∧ filtered reg c c'.
Proof.
  intros Hf Hc. unfold call_filter, logFilter, filtered. destruct (categoryFilter reg) as [f|].
  - destruct (Hf f eq_refl (rules reg) c Hc) as (c' & E & N & W). by exists c'.
  - destruct (default_filter_spec (rules reg) c Hc) as (c' & E & N & F).
    exists c'. split_and!; [done|done|apply F|done].
Qed.

Lemma update_all_spec f P l : ∀ acc,
  NoDup l.*1 → (∀ i c, (i, c) ∈ l → ∃ c', f c = Done c' ∧ P c c') →
  ∃ m, update_all f l acc = Done m ∧
    (∀ i c, (i, c) ∈ l → ∃ c', m !! i = Some c' ∧ P c c') ∧
    (∀ i, i ∉ l.*1 → m !! i = acc !! i).
Proof.
  induction l as [|[i c] l IH]; intros acc Hnd Hf; cbn [update_all].
  - exists acc. split_and!; [done|set_solver|done].
  - cbn in Hnd. apply NoDup_cons in Hnd as [Hi Hnd].
    destruct (Hf i c) as (c' & E & HP); [by left|]. rewrite E. cbn [mbind run_bind].
    destruct (IH (<[i := c']> acc) Hnd) as (m & Em & Hin & Hout).
    { intros j d Hj. apply (Hf j d). by right. }
    exists m. split; [done|]. split.
    + intros j d [[= -> ->]|Hj]%elem_of_cons; [|by apply Hin].
      exists c'. split; [|done]. by rewrite Hout, lookup_insert_eq.
    + intros j Hj. cbn in Hj. apply not_elem_of_cons in Hj as [Hne Hj].
      by rewrite Hout, lookup_insert_ne by done.
Qed.

Lemma updateFilterRules_spec reg :
  (∀ f, categoryFilter reg = Some f → filter_ok f) →
  map_Forall (λ _, category_wf) (categories reg) →
  ∃ cs, updateFilterRules reg = Done (MkRegistry (filterRules reg) (rules reg) cs (categoryFilter reg)) ∧
    cat_name <$> cs = cat_name <$> categories reg ∧ map_Forall (λ _, category_wf) cs ∧
    (categoryFilter reg = None → map_Forall (λ _, flags_of (rules reg)) cs).
Proof.
  intros Hf Hc. unfold updateFilterRules.
  destruct (update_all_spec (call_filter reg) (filtered reg) (map_to_list (categories reg))
              (categories reg)) as (cs & -> & Hin & Hout).
  - apply NoDup_fst_map_to_list.
  - intros i c Hi. apply call_filter_spec; [done|]. eapply Hc. by apply elem_of_map_to_list.
  - cbn [mbind run_bind]. exists cs. split; [done|].
    assert (Hl : ∀ i, (∃ c c', categories reg !! i = Some c ∧ cs !! i = Some c' ∧ filtered reg c c')
                 ∨ (categories reg !! i = None ∧ cs !! i = None)).
    { intros i. destruct (categories reg !! i) as [c|] eqn:E.
      - left. destruct (Hin i c) as (c' & E' & Hp); [by apply elem_of_map_to_list|]. eauto 10.
      - right. split; [done|]. rewrite Hout; [done|].
        intros ([? ?] & -> & Hi)%list_elem_of_fmap. apply elem_of_map_to_list in Hi. cbn in E. congruence. }
    split_and!.
    + apply map_eq. intros i. rewrite !lookup_fmap.
      destruct (Hl i) as [(c & c' & -> & -> & N & _)|[-> ->]]; cbn; congruence.
    + intros i d Hd. destruct (Hl i) as [(c & c' & _ & E & _ & W & _)|[_ E]]; congruence.
    + intros Hn i d Hd. destruct (Hl i) as [(c & c' & _ & E & _ & _ & W)|[_ E]]; [|congruence].
      rewrite E in Hd. simplify_eq. by apply W.
Qed.

Lemma new_category_wf name : category_wf (new_category name).
Proof. done. Qed.

Lemma run_reg_op_spec reg o :
  registry_wf reg → op_ok o →
  ∃ reg', run_reg_op reg o = Done reg' ∧ registry_wf reg' ∧ view_of reg' = view_step (view_of reg) o.
Proof.
  intros [R F C L] Ho. unfold view_of. destruct o as [i name|i|s|f]; cbn [run_reg_op view_step].
  - unfold register. destruct (call_filter_spec reg (new_category name) F (new_category_wf name))
      as (c & -> & N & W & Hfl). cbn [mbind run_bind]. eexists. split; [done|]. split.
    + split; cbn; [done|done|by apply map_Forall_insert_2|]. intros Hn.
      apply map_Forall_insert_2; [by apply Hfl|by apply L].
    + cbn. rewrite fmap_insert, N. done.
  - eexists. split; [done|]. split.
    + split; cbn; [done|done|by apply map_Forall_delete|]. intros Hn. apply map_Forall_delete. by apply L.
    + cbn. by rewrite fmap_delete.
  - unfold setFilterRules. destruct (parseRules_total s) as [rs Hrs]. rewrite Hrs.
    cbn [mbind run_bind].
    destruct (updateFilterRules_spec (MkRegistry s rs (categories reg) (categoryFilter reg)) F C)
      as (cs & -> & N & W & Hfl). cbn in *. eexists. split; [done|]. split.
    + by split.
    + cbn. by rewrite N.
  - unfold setLogFilter.
    destruct (updateFilterRules_spec (MkRegistry (filterRules reg) (rules reg) (categories reg) f))
      as (cs & -> & N & W & Hfl); [cbn; intros g ->; exact Ho|done|]. cbn in *.
    eexists. split; [done|]. split.
    + split; cbn; [done|intros g ->; exact Ho|done|done].
    + cbn. by rewrite N.
Qed.

Lemma run_reg_ops_spec l : ∀ reg,
  registry_wf reg → Forall op_ok l →
  ∃ reg', run_reg_ops reg l = Done reg' ∧ registry_wf reg' ∧
    view_of reg' = foldl view_step (view_of reg) l.
Proof.
  induction l as [|o l IH]; intros reg W Hl; cbn [run_reg_ops foldl]; [eauto|].
  apply Forall_cons in Hl as [Ho Hl].
  destruct (run_reg_op_spec reg o W Ho) as (reg1 & -> & W1 & V1). cbn [mbind run_bind].
  rewrite <- V1. by apply IH.
Qed.

Lemma registry_new_wf : registry_wf registry_new.
Proof. split; cbn; [by vm_compute|done|apply map_Forall_empty|intros; apply map_Forall_empty]. Qed.

(** C26: whatever sequence of registrations, destructions, rule changes and filter
    changes a program makes, the live categories are the registered ones, and when
    the default filter is in force each of their levels is on exactly as the last
    rules text says, also for categories registered before the text was set, after
    it, or while another filter was installed. *)
Theorem registry_flags l :
  Forall op_ok l →
  let v := foldl view_step (view_of registry_new) l in
  ∃ reg rs, run_reg_ops registry_new l = Done reg ∧ view_of reg = v ∧
    parseRules (v_text v) = Done rs ∧
    (v_filter v = None → ∀ i name lv, v_names v !! i = Some name → Trace <= lv <= Fatal →
      ∃ c, categories reg !! i = Some c ∧ cat_name c = name ∧
           isLevelEnabled c lv = Done (effective rs name lv)).
Proof.
  intros Hl v. destruct (run_reg_ops_spec l registry_new registry_new_wf Hl) as (reg & E & W & V).
  fold v in V. exists reg, (rules reg). split_and!; [done|done|rewrite <- V; apply W|].
  intros Hn i name lv Hi Hlv. rewrite <- V in Hn, Hi. cbn in Hn, Hi.
  apply lookup_fmap_Some in Hi as (c & <- & Hc). exists c. split_and!; [done|done|].
  unfold isLevelEnabled. by rewrite (proj2 (rg_flags _ W Hn _ _ Hc)).
Qed.

(** ** The default sink *)

(** A record at the [Information] level, which passes the sink's threshold,
    runs into [assert(false)]; the levels the documentation says are printed are
    printed, and only [Trace] and [Debug] are dropped. *)
Theorem default_sink lv message :
  Trace <= lv <= Fatal →
  defaultLogCallback lv message =
    if decide (lv = Information) then AssertFails
    else if decide (lv < Success) then Silent
    else if decide (lv = Success) then ToStdout (c_str message ++ [c_nl])
    else ToStderr (c_str message ++ [c_nl]).
Proof.
  intros H. unfold Trace, Fatal in H.
  assert (lv = 1 ∨ lv = 2 ∨ lv = 3 ∨ lv = 4 ∨ lv = 5 ∨ lv = 6 ∨ lv = 7) as Hc by lia.
  destruct_or! Hc; subst; reflexivity.
Qed.

(** ** Concrete rules *)

Lemma filter_last_match_witness :
  ∃ c', defaultLogCategoryFilter [MkRule [] Contains Debug false; MkRule ($"lore.io") Exact 0 false;
                                  MkRule ($"lore.io") Exact Warning true]
          (new_category ($"lore.io")) = Done c' ∧ isLevelEnabled c' Warning = Done true ∧
        isLevelEnabled c' Critical = Done false.
Proof.
  destruct (filter_last_match [MkRule [] Contains Debug false; MkRule ($"lore.io") Exact 0 false;
                               MkRule ($"lore.io") Exact Warning true] (new_category ($"lore.io"))
              (new_category_wf _)) as (c' & E & _ & H).
  exists c'. split; [exact E|]. split.
  - exact (H Warning ltac:(unfold Trace, Warning, Fatal; lia)).
  - exact (H Critical ltac:(unfold Trace, Critical, Fatal; lia)).
Defined.

Lemma plain_text_clean s :
  Forall (λ c, c ∉ default_trim_chars) s → clean_ends default_trim_chars s.
Proof.
  rewrite Forall_forall. intros H. split; intros c Hc; apply H.
  - destruct s; [done|]. simplify_eq/=. by left.
  - apply last_Some in Hc as [l ->]. set_solver.
Qed.

Lemma example_rule_wf t md lv b :
  bool_decide (Forall (λ c, c ≠ "*"%char ∧ c ≠ "="%char ∧ c ≠ ";"%char ∧ c ≠ c_nl) t) = true →
  bool_decide (Forall (λ c, c ∉ default_trim_chars) t) = true → head t ≠ Some "#"%char →
  t ≠ [] → lv <= Fatal →
  (lv = 0 → ∀ k u, render_pattern (MkRule t md 0 b) = k ++ "."%char :: u → levelFromToken u = 0) →
  rule_wf (MkRule t md lv b).
Proof.
  intros H1%bool_decide_eq_true H2%bool_decide_eq_true H3 H4 H5 H6.
  rewrite Forall_forall in H1. split; cbn; [done|by apply plain_text_clean|done|done|done|].
  intros ->. by apply H6.
Qed.

Lemma rules_roundtrip_witness :
  parseRules (render_rules [[EComment [" "%char] ($"a comment")];
                            [ERule [] (MkRule ($"lore.") Prefix 0 false) [];
                             ERule [" "%char] (MkRule ($"lore.io") Exact Warning true) [c_tab]];
                            [EBlank []]]) =
  Done [MkRule ($"lore.") Prefix 0 false; MkRule ($"lore.io") Exact Warning true].
Proof.
  apply (rules_roundtrip [[EComment [" "%char] ($"a comment")];
                          [ERule [] (MkRule ($"lore.") Prefix 0 false) [];
                           ERule [" "%char] (MkRule ($"lore.io") Exact Warning true) [c_tab]];
                          [EBlank []]]).
  assert (W1 : rule_wf (MkRule ($"lore.") Prefix 0 false)).
  { apply example_rule_wf; [reflexivity|reflexivity|done|done|unfold Fatal; lia|].
    intros _ k u E. cbn in E.
    do 6 (destruct k as [|? k]; [by simplify_eq/=|]).
    exfalso. apply (f_equal length) in E. cbn in E. rewrite length_app in E. cbn in E. lia. }
  assert (W2 : rule_wf (MkRule ($"lore.io") Exact Warning true)).
  { apply example_rule_wf; [reflexivity|reflexivity|done|done|unfold Warning, Fatal; lia|done]. }
  assert (P0 : padding []) by (intros c Hc; by apply elem_of_nil in Hc).
  assert (P1 : padding [" "%char]) by (intros c Hc%list_elem_of_singleton; by left).
  assert (P2 : padding [c_tab]) by (intros c Hc%list_elem_of_singleton; by right).
  split; [done|].
  repeat (apply Forall_cons; split; [split; [done|]|]); [..|constructor];
    repeat (apply Forall_cons; split); try apply Forall_nil; cbn; try done.
  split; apply (bool_decide_unpack _); reflexivity.
Defined.

Definition example_changes : list reg_op :=
  [Register 0 ($"lore.io"); SetFilterRules ($"lore.* = false; *.warning = true");
   Register 1 ($"x")].

Lemma registry_flags_witness :
  ∃ reg c, run_reg_ops registry_new example_changes = Done reg ∧
    categories reg !! 0 = Some c ∧ isLevelEnabled c Warning = Done true.
Proof.
  destruct (registry_flags example_changes) as (reg & rs & E & V & Ers & H);
    [repeat constructor|].
  destruct (H eq_refl 0 ($"lore.io") Warning eq_refl) as (c & Hc & _ & Hl);
    [unfold Trace, Warning, Fatal; lia|].
  assert (Hrs : rs = [MkRule ($"lore.") Prefix 0 false; MkRule [] Contains Warning true]).
  { clear -Ers. vm_compute in Ers. injection Ers as <-. reflexivity. }
  exact (ex_intro _ reg (ex_intro _ c (conj E (conj Hc (eq_trans Hl (f_equal (λ rs,
    Done (effective rs ($"lore.io") Warning)) Hrs)))))).
Defined.

Lemma default_sink_witness : defaultLogCallback Information ($"hello") = AssertFails.
Proof. exact (default_sink Information ($"hello") ltac:(unfold Trace, Information, Fatal; lia)). Defined.
