(* ===== verification/LogMacros.v ===== *)
(** Emitting log records: the loggers and macros of [include/lorelei/Support/Logging.h]
    and the sinks of [src/libs/Support/Logging.cpp].

    The process-wide state is the installed callback, the registry of [Logging] and the
    function-local default category, which the first macro outside any category creates.
    A callback acts on a world of its own, and may end the process.  The theorem is that
    a program's records are those of a specification without flags: whether a macro emits
    is decided by what the program has set of the level since the last change of the filter
    or the rules, and else by the filter and the rules text in force, whatever the order of
    the changes. *)

From stdpp Require Import gmap list.
From S2P Require Import Prelude CppString StringExtras TextExtras Logging.

(** [LogContext]; the pointers may be null. *)
Record LogContext : Type := MkContext {
  line : Z;
  file : option str;
  function : option str;
  category : option str
}.

Definition LogContext_default : LogContext := MkContext 0 None None None.

(** What a call leaves: it returns, or the process has aborted. *)
Inductive effect (W : Type) : Type :=
  | Returns (w : W)
  | Aborts (w : W).
Arguments Returns {W} w.
Arguments Aborts {W} w.

Definition and_then {W} (e : effect W) (k : W → effect W) : effect W :=
  match e with Returns w => k w | Aborts w => Aborts w end.

(** [Logger::abort]. *)
Definition Logger_abort {W} (w : W) : effect W := Aborts w.

(** What [__FILE__], [__LINE__] and [__FUNCTION__] expand to. *)
Record Place : Type := MkPlace {
  p_file : str;
  p_line : Z;
  p_function : str
}.

Section emitting.
Context {W F : Type}.
Variable path_narrow : TextExtras.wstr → str.
Variable print_float : F → str.

Definition LogCallback : Type := nat → LogContext → str → W → effect W.

(** [default_made]: the function-local static of [defaultCategory] has been constructed. *)
Record LogState : Type := MkLogState {
  callback : LogCallback;
  registry : LogRegistry;
  default_made : bool
}.

(** ** Loggers *)

Definition print (ctx : LogContext) (lv : nat) (message : str) (st : LogState) (w : W) : effect W :=
  callback st lv ctx message w.

(** [out]: what the C library makes of the format and the arguments. *)
Definition printf (ctx : LogContext) (lv : nat) (out : option str) (st : LogState) (w : W) : effect W :=
  callback st lv ctx (vasprintf out) w.

(** A call of [formatN] that does not compile has no run. *)
Definition message_of (fmt : str) (args : list (Value (F := F))) : run str :=
  match formatN path_narrow print_float fmt args with Some m => m | None => Undef end.

Definition Logger_log (ctx : LogContext) (lv : nat) (fmt : str) (args : list Value) (st : LogState)
    (w : W) : run (effect W) :=
  m ← message_of fmt args; Done (print ctx lv m st w).

Definition trace (ctx : LogContext) := Logger_log ctx Trace.
Definition debug (ctx : LogContext) := Logger_log ctx Debug.
Definition success (ctx : LogContext) := Logger_log ctx Success.
Definition info (ctx : LogContext) := Logger_log ctx Information.
Definition warning (ctx : LogContext) := Logger_log ctx Warning.
Definition critical (ctx : LogContext) := Logger_log ctx Critical.
Definition fatal (ctx : LogContext) (fmt : str) (args : list Value) (st : LogState) (w : W) :
    run (effect W) :=
  m ← message_of fmt args; Done (and_then (print ctx Fatal m st w) Logger_abort).

(** ** The process-wide sink *)

Definition logCallback (st : LogState) : LogCallback := callback st.
Definition setLogCallback (f : LogCallback) (st : LogState) : LogState :=
  MkLogState f (registry st) (default_made st).

(** ** Macros *)

Definition after_level (lv : nat) (e : effect W) : effect W :=
  if bool_decide (lv = Fatal) then and_then e Logger_abort else e.

(** [LogCategory::log<Level>] and [logf<Level>]. *)
Definition category_log (c : LogCategory) (lv : nat) (at_ : Place) (fmt : str) (args : list Value)
    (st : LogState) (w : W) : run (effect W) :=
  on ← isLevelEnabled c lv;
  if (on : bool) then
    e ← Logger_log (MkContext (p_line at_) (Some (p_file at_)) (Some (p_function at_)) (Some (cat_name c)))
          lv fmt args st w;
    Done (after_level lv e)
  else Done (Returns w).

Definition category_logf (c : LogCategory) (lv : nat) (at_ : Place) (out : option str)
    (st : LogState) (w : W) : run (effect W) :=
  on ← isLevelEnabled c lv;
  if (on : bool) then
    Done (after_level lv (printf
      (MkContext (p_line at_) (Some (p_file at_)) (Some (p_function at_)) (Some (cat_name c))) lv out st w))
  else Done (Returns w).

(** The address of the default category. *)
Variable default_at : nat.

Definition defaultCategory (st : LogState) : run (nat * LogState) :=
  if default_made st then Done (default_at, st)
  else
    reg ← register default_at ($"default") (registry st);
    Done (default_at, MkLogState (callback st) reg true).

(** [__loreGetLogCategory]: the member of the category in scope, or the function. *)
Definition loreGetLogCategory (scope : option nat) (st : LogState) : run (nat * LogState) :=
  match scope with
  | Some i => Done (i, st)
  | None => defaultCategory st
  end.

Definition loreLog (lv : nat) (scope : option nat) (at_ : Place) (fmt : str) (args : list Value)
    (st : LogState) (w : W) : run (LogState * effect W) :=
  r ← loreGetLogCategory scope st;
  c ← defined (categories (registry r.2) !! r.1);
  e ← category_log c lv at_ fmt args r.2 w;
  Done (r.2, e).

Definition loreLogF (lv : nat) (scope : option nat) (at_ : Place) (out : option str)
    (st : LogState) (w : W) : run (LogState * effect W) :=
  r ← loreGetLogCategory scope st;
  c ← defined (categories (registry r.2) !! r.1);
  e ← category_logf c lv at_ out r.2 w;
  Done (r.2, e).

Definition loreTrace := loreLog Trace.
Definition loreDebug := loreLog Debug.
Definition loreSuccess := loreLog Success.
Definition loreInfo := loreLog Information.
Definition loreWarning := loreLog Warning.
Definition loreCritical := loreLog Critical.
Definition loreFatal := loreLog Fatal.
Definition loreTraceF := loreLogF Trace.
Definition loreDebugF := loreLogF Debug.
Definition loreSuccessF := loreLogF Success.
Definition loreInfoF := loreLogF Information.
Definition loreWarningF := loreLogF Warning.
Definition loreCriticalF := loreLogF Critical.
Definition loreFatalF := loreLogF Fatal.

(** ** Programs that log *)

(** [setLevelEnabled] on a category, or on the default one. *)
Definition set_category_level (scope : option nat) (lv : nat) (b : bool) (st : LogState) : run LogState :=
  r ← loreGetLogCategory scope st;
  c ← defined (categories (registry r.2) !! r.1);
  c' ← setLevelEnabled lv b c;
  let reg := registry r.2 in
  Done (MkLogState (callback r.2)
    (MkRegistry (filterRules reg) (rules reg) (<[r.1 := c']> (categories reg)) (categoryFilter reg)) (default_made r.2)).

Inductive log_op : Type :=
  | OnRegistry (o : reg_op)
  | SetLevelEnabled (scope : option nat) (lv : nat) (b : bool)
  | SetCallback (f : LogCallback)
  | Log (lv : nat) (scope : option nat) (at_ : Place) (fmt : str) (args : list (Value (F := F)))
  | LogF (lv : nat) (scope : option nat) (at_ : Place) (out : option str).

Definition run_op (o : log_op) (st : LogState) (w : W) : run (LogState * effect W) :=
  match o with
  | OnRegistry o => reg ← run_reg_op (registry st) o; Done (MkLogState (callback st) reg (default_made st), Returns w)
  | SetLevelEnabled scope lv b => st ← set_category_level scope lv b st; Done (st, Returns w)
  | SetCallback f => Done (setLogCallback f st, Returns w)
  | Log lv scope at_ fmt args => loreLog lv scope at_ fmt args st w
  | LogF lv scope at_ out => loreLogF lv scope at_ out st w
  end.

Fixpoint run_ops (l : list log_op) (st : LogState) (w : W) : run (effect W) :=
  match l with
  | [] => Done (Returns w)
  | o :: l =>
      r ← run_op o st w;
      match r.2 with Returns w' => run_ops l r.1 w' | Aborts w' => Done (Aborts w') end
  end.

Definition log_start (f : LogCallback) : LogState := MkLogState f registry_new false.

(** ** The specification *)

(** The names of the live categories, the rules text, the filter unless it is the default
    one, the levels set since the two were changed, the sink; no flags. *)
Record spec_state : Type := MkSpec {
  s_names : gmap nat str;
  s_text : str;
  s_filter : option LogCategoryFilter;
  s_set : gmap (nat * nat) bool;
  s_callback : LogCallback;
  s_default : bool
}.

(** The rules decide under the default filter, and a custom one by what it makes of a new
    category of that name. *)
Definition filter_on (f : option LogCategoryFilter) (rs : list LoggingRule) (name : str) (lv : nat) : run bool :=
  match f with
  | None => Done (effective rs name lv)
  | Some f => c ← f rs (new_category name); isLevelEnabled c lv
  end.

Definition spec_on (s : spec_state) (rs : list LoggingRule) (i : nat) (name : str) (lv : nat) : run bool :=
  match s_set s !! (i, lv) with
  | Some b => Done b
  | None => filter_on (s_filter s) rs name lv
  end.

Definition spec_register (i : nat) (name : str) (s : spec_state) (made : bool) : spec_state :=
  MkSpec (<[i := name]> (s_names s)) (s_text s) (s_filter s) (filter (λ e, e.1.1 ≠ i) (s_set s)) (s_callback s) made.

Definition spec_scope (scope : option nat) (s : spec_state) : spec_state :=
  match scope with
  | Some _ => s
  | None => if s_default s then s else spec_register default_at ($"default") s true
  end.

(** A record is emitted when its level is on; the level of the record then says whether the
    process goes on. *)
Definition spec_emit (lv : nat) (scope : option nat) (at_ : Place) (message : run str)
    (s : spec_state) (w : W) : run (spec_state * effect W) :=
  let s := spec_scope scope s in
  name ← defined (s_names s !! default default_at scope);
  rs ← parseRules (s_text s);
  on ← spec_on s rs (default default_at scope) name lv;
  if (on : bool) then
    m ← message;
    Done (s, after_level lv (s_callback s lv
      (MkContext (p_line at_) (Some (p_file at_)) (Some (p_function at_)) (Some name)) m w))
  else Done (s, Returns w).

(** Setting a level beyond the eight flags is undefined. *)
Definition spec_set (lv : nat) (scope : option nat) (b : bool) (s : spec_state) : run spec_state :=
  let s := spec_scope scope s in
  _ ← defined (s_names s !! default default_at scope);
  if bool_decide (lv < 8) then
    Done (MkSpec (s_names s) (s_text s) (s_filter s) (<[(default default_at scope, lv) := b]> (s_set s))
            (s_callback s) (s_default s))
  else Undef.

Definition spec_op (o : log_op) (s : spec_state) (w : W) : run (spec_state * effect W) :=
  match o with
  | OnRegistry (Register i name) => Done (spec_register i name s (s_default s), Returns w)
  | OnRegistry (Unregister i) =>
      Done (MkSpec (delete i (s_names s)) (s_text s) (s_filter s) (s_set s) (s_callback s) (s_default s), Returns w)
  | OnRegistry (SetFilterRules t) => Done (MkSpec (s_names s) t (s_filter s) ∅ (s_callback s) (s_default s), Returns w)
  | OnRegistry (SetLogFilter f) => Done (MkSpec (s_names s) (s_text s) f ∅ (s_callback s) (s_default s), Returns w)
  | SetLevelEnabled scope lv b => s ← spec_set lv scope b s; Done (s, Returns w)
  | SetCallback f => Done (MkSpec (s_names s) (s_text s) (s_filter s) (s_set s) f (s_default s), Returns w)
  | Log lv scope at_ fmt args => spec_emit lv scope at_ (message_of fmt args) s w
  | LogF lv scope at_ out => spec_emit lv scope at_ (Done (vasprintf out)) s w
  end.

Fixpoint spec_ops (l : list log_op) (s : spec_state) (w : W) : run (effect W) :=
  match l with
  | [] => Done (Returns w)
  | o :: l =>
      r ← spec_op o s w;
      match r.2 with Returns w' => spec_ops l r.1 w' | Aborts w' => Done (Aborts w') end
  end.

Definition spec_start (f : LogCallback) : spec_state := MkSpec ∅ [] None ∅ f false.

(** A custom filter sets every level by the category's name and the rules. *)
Definition decides_by_name (f : LogCategoryFilter) : Prop :=
  ∀ rs c, category_wf c → ∃ c', f rs c = Done c' ∧ cat_name c' = cat_name c ∧ category_wf c' ∧
    ∀ c0 lv, f rs (new_category (cat_name c)) = Done c0 → Trace <= lv <= Fatal →
      levelEnabled c' !! lv = levelEnabled c0 !! lv.

(** The levels of the records are those of the enumeration. *)
Definition log_op_ok (o : log_op) : Prop :=
  match o with
  | OnRegistry (SetLogFilter (Some f)) => decides_by_name f
  | Log lv _ _ _ _ | LogF lv _ _ _ => Trace <= lv <= Fatal
  | _ => True
  end.

(** ** The records of a program *)

(** A registry, and what the specification knows of it. *)
Record mirrors (reg : LogRegistry) (s : spec_state) : Prop := {
  mi_names : s_names s = cat_name <$> categories reg;
  mi_text : s_text s = filterRules reg;
  mi_filter : s_filter s = categoryFilter reg;
  mi_rules : parseRules (filterRules reg) = Done (rules reg);
  mi_policy : ∀ f, categoryFilter reg = Some f → decides_by_name f;
  mi_cats : map_Forall (λ _, category_wf) (categories reg);
  mi_flags : ∀ i c lv, categories reg !! i = Some c → Trace <= lv <= Fatal →
    isLevelEnabled c lv = spec_on s (rules reg) i (cat_name c) lv
}.

Record corresponds (st : LogState) (s : spec_state) : Prop := {
  co_registry : mirrors (registry st) s;
  co_callback : s_callback s = callback st;
  co_default : s_default s = default_made st
}.

(** Two steps agree: same outcome, and the states correspond. *)
Definition agrees (r : run (LogState * effect W)) (s : run (spec_state * effect W)) : Prop :=
  match r with
  | Done (st, e) => ∃ s', s = Done (s', e) ∧ corresponds st s'
  | Undef => s = Undef
  | NoFuel => s = NoFuel
  end.

(** What the filter in force makes of a category. *)
Definition filtered_by (reg : LogRegistry) (c c' : LogCategory) : Prop :=
  cat_name c' = cat_name c ∧ category_wf c' ∧
  ∀ lv, Trace <= lv <= Fatal → isLevelEnabled c' lv = filter_on (categoryFilter reg) (rules reg) (cat_name c) lv.

Lemma call_filter_on reg c :
  (∀ f, categoryFilter reg = Some f → decides_by_name f) → category_wf c →
  ∃ c', call_filter reg c = Done c' ∧ filtered_by reg c c'.
Proof.
  intros Hf Hc. unfold call_filter, logFilter, filtered_by, filter_on, isLevelEnabled. destruct (categoryFilter reg) as [f|].
  - destruct (Hf f eq_refl (rules reg) c Hc) as (c' & E & N & Wc & Hlv).
    destruct (Hf f eq_refl (rules reg) (new_category (cat_name c)) (new_category_wf _)) as (c0 & E0 & _).
    exists c'. split; [done|]. split; [done|]. split; [done|]. intros lv Hr. rewrite E0. cbn [mbind run_bind].
    by rewrite (Hlv c0 lv E0 Hr).
  - destruct (default_filter_spec (rules reg) c Hc) as (c' & E & N & Wc & Hlv).
    exists c'. split; [done|]. split; [done|]. split; [done|]. intros lv Hr. by rewrite (Hlv lv Hr), N.
Qed.

Lemma update_mirrors reg cb made :
  parseRules (filterRules reg) = Done (rules reg) → (∀ f, categoryFilter reg = Some f → decides_by_name f) →
  map_Forall (λ _, category_wf) (categories reg) →
  ∃ reg', updateFilterRules reg = Done reg' ∧
    mirrors reg' (MkSpec (cat_name <$> categories reg) (filterRules reg) (categoryFilter reg) ∅ cb made).
Proof.
  intros Hr Hf Hc. unfold updateFilterRules.
  destruct (update_all_spec (call_filter reg) (filtered_by reg) (map_to_list (categories reg)) (categories reg))
    as (cs & -> & Hin & Hout).
  - apply NoDup_fst_map_to_list.
  - intros i c Hi. apply call_filter_on; [done|]. eapply Hc. by apply elem_of_map_to_list.
  - cbn [mbind run_bind]. eexists. split; [done|].
    assert (∀ i c', cs !! i = Some c' → ∃ c, categories reg !! i = Some c ∧ filtered_by reg c c') as Hback.
    { intros i c' Hi. destruct (categories reg !! i) as [c|] eqn:E.
      - destruct (Hin i c) as (c1 & E1 & Hp); [by apply elem_of_map_to_list|]. exists c. split; [done|]. by simplify_eq.
      - rewrite Hout in Hi; [congruence|].
        intros ([? ?] & -> & Hj)%list_elem_of_fmap. apply elem_of_map_to_list in Hj. cbn in E. congruence. }
    split; cbn [filterRules rules categories categoryFilter s_names s_text s_filter]; [|done|done|done|done| |].
    + apply map_eq. intros i. rewrite !lookup_fmap. destruct (cs !! i) as [c'|] eqn:E.
      * destruct (Hback i c' E) as (c & -> & N & _). cbn. by rewrite N.
      * destruct (categories reg !! i) as [c|] eqn:E'; [|done].
        destruct (Hin i c) as (c' & E1 & _); [by apply elem_of_map_to_list|]. congruence.
    + intros i c' Hi. by destruct (Hback i c' Hi) as (c & _ & _ & Wc & _).
    + intros i c' lv Hi Hlv. destruct (Hback i c' Hi) as (c & _ & N & _ & Hon). unfold spec_on. cbn [s_set s_filter].
      rewrite lookup_empty. by rewrite N, Hon.
Qed.

Lemma register_mirrors i name reg s made :
  mirrors reg s → ∃ reg', register i name reg = Done reg' ∧ mirrors reg' (spec_register i name s made).
Proof.
  intros [N T Hfl R P C L]. unfold register.
  destruct (call_filter_on reg (new_category name) P (new_category_wf name)) as (c & -> & Nc & Wc & Hon).
  cbn [mbind run_bind]. eexists. split; [done|].
  split; cbn [filterRules rules categories categoryFilter spec_register s_names s_text s_filter]; [|done|done|done|done| |].
  - rewrite fmap_insert, N, Nc. done.
  - by apply map_Forall_insert_2.
  - intros j d lv [[<- <-]|[Hne Hd]]%lookup_insert_Some Hlv; unfold spec_on; cbn [spec_register s_set s_filter].
    + rewrite (proj2 (map_lookup_filter_None _ _ _)); [|by right; intros b _ []].
      rewrite Hon by done. by rewrite Hfl, Nc.
    + rewrite (L j d lv Hd Hlv). unfold spec_on. f_equal.
      destruct (s_set s !! (j, lv)) as [b|] eqn:E.
      * rewrite (proj2 (map_lookup_filter_Some _ _ _ _) (conj E (not_eq_sym Hne))). done.
      * rewrite (proj2 (map_lookup_filter_None _ _ _)) by (by left). done.
Qed.

Lemma registry_step o st s w :
  corresponds st s → log_op_ok (OnRegistry o) → agrees (run_op (OnRegistry o) st w) (spec_op (OnRegistry o) s w).
Proof.
  intros [M Cb D] Ho. destruct o as [i name|i|t|f]; cbn [run_op run_reg_op spec_op].
  - destruct (register_mirrors i name (registry st) s (s_default s) M) as (reg & -> & M'). cbn [mbind run_bind agrees].
    eexists. split; [done|]. by split.
  - cbn [mbind run_bind agrees]. eexists. split; [done|]. split; [|done|done]. destruct M as [N T Hfl R P C L].
    split; cbn [registry unregister filterRules rules categories categoryFilter s_names s_text s_filter]; [|done|done|done|done| |].
    + by rewrite fmap_delete, N.
    + by apply map_Forall_delete.
    + intros j c lv [Hne Hj]%lookup_delete_Some Hlv. exact (L j c lv Hj Hlv).
  - unfold setFilterRules. destruct (parseRules_total t) as [rs Hrs]. rewrite Hrs. cbn [mbind run_bind].
    destruct M as [N T Hfl R P C L].
    destruct (update_mirrors (MkRegistry t rs (categories (registry st)) (categoryFilter (registry st))) (callback st)
      (default_made st)) as (reg & -> & M'); [done..|]. cbn [mbind run_bind agrees].
    eexists. split; [done|]. cbn in M'. rewrite N, Hfl, Cb, D. by split.
  - unfold setLogFilter. destruct M as [N T Hfl R P C L].
    destruct (update_mirrors (MkRegistry (filterRules (registry st)) (rules (registry st)) (categories (registry st)) f)
      (callback st) (default_made st)) as (reg & -> & M'); [done|by intros g [= ->]|done|]. cbn [mbind run_bind agrees].
    eexists. split; [done|]. cbn in M'. rewrite N, T, Cb, D. by split.
Qed.

(** The category in scope, in both. *)
Lemma scope_step scope st s :
  corresponds st s →
  ∃ st', loreGetLogCategory scope st = Done (default default_at scope, st') ∧ corresponds st' (spec_scope scope s).
Proof.
  intros Hst. destruct scope as [i|]; [by exists st|]. cbn [loreGetLogCategory spec_scope default]. unfold defaultCategory.
  pose proof Hst as [M Cb D]. rewrite D. destruct (default_made st) eqn:Hm; [by exists st|].
  destruct (register_mirrors default_at ($"default") (registry st) s true M) as (reg & -> & M'). cbn [mbind run_bind].
  eexists. split; [done|]. by split.
Qed.

Lemma category_step st s i lv at_ (message : run str) w (emit : LogCategory → run (effect W)) :
  corresponds st s → Trace <= lv <= Fatal →
  (∀ c, emit c =
     on ← isLevelEnabled c lv;
     if (on : bool) then m ← message; Done (after_level lv (callback st lv
       (MkContext (p_line at_) (Some (p_file at_)) (Some (p_function at_)) (Some (cat_name c))) m w))
     else Done (Returns w)) →
  agrees (c ← defined (categories (registry st) !! i); e ← emit c; Done (st, e))
    (name ← defined (s_names s !! i); rs ← parseRules (s_text s); on ← spec_on s rs i name lv;
     if (on : bool) then m ← message; Done (s, after_level lv (s_callback s lv
       (MkContext (p_line at_) (Some (p_file at_)) (Some (p_function at_)) (Some name)) m w))
     else Done (s, Returns w)).
Proof.
  intros Hst Hlv Hemit. destruct (Hst) as [[N T _ R _ _ L] Cb _]. rewrite N, T, R, lookup_fmap.
  destruct (categories (registry st) !! i) as [c|] eqn:Hc; cbn [fmap option_fmap option_map defined mbind run_bind]; [|done].
  rewrite Hemit, <- (L i c lv Hc Hlv), Cb.
  destruct (isLevelEnabled c lv) as [[]| |]; cbn [mbind run_bind agrees]; [|by exists s|done|done].
  destruct message as [m| |]; cbn [mbind run_bind agrees]; [by eexists|done|done].
Qed.

Lemma emit_step lv scope at_ (message : run str) st s w (emit : LogCategory → LogState → run (effect W)) :
  corresponds st s → Trace <= lv <= Fatal →
  (∀ c st', emit c st' =
     on ← isLevelEnabled c lv;
     if (on : bool) then m ← message; Done (after_level lv (callback st' lv
       (MkContext (p_line at_) (Some (p_file at_)) (Some (p_function at_)) (Some (cat_name c))) m w))
     else Done (Returns w)) →
  agrees (r ← loreGetLogCategory scope st; c ← defined (categories (registry r.2) !! r.1);
          e ← emit c r.2; Done (r.2, e))
    (spec_emit lv scope at_ message s w).
Proof.
  intros Hst Hlv Hemit. unfold spec_emit. destruct (scope_step scope st s Hst) as (st' & -> & Hst').
  cbn [mbind run_bind fst snd]. apply (category_step st' _ _ lv at_ message w (λ c, emit c st')); [done|done|].
  intros c. apply Hemit.
Qed.

Lemma set_step lv scope b st s w :
  corresponds st s → agrees (run_op (SetLevelEnabled scope lv b) st w) (spec_op (SetLevelEnabled scope lv b) s w).
Proof.
  intros Hst. cbn [run_op spec_op]. unfold set_category_level, spec_set.
  destruct (scope_step scope st s Hst) as (st' & -> & [[N T Hfl R P C L] Cb D]).
  cbn [mbind run_bind fst snd]. set (i := default default_at scope). rewrite N, lookup_fmap.
  destruct (categories (registry st') !! i) as [c|] eqn:Hc; cbn [fmap option_fmap option_map defined mbind run_bind]; [|done].
  pose proof (C i c Hc) as Wc. unfold setLevelEnabled. rewrite Wc.
  destruct (decide (lv < 8)) as [Hlt|Hge]; [rewrite !bool_decide_true by done|by rewrite !bool_decide_false by done].
  cbn [mbind run_bind agrees]. eexists. split; [done|]. split; [|done|done].
  split; cbn [registry filterRules rules categories categoryFilter s_names s_text s_filter cat_name]; [|done|done|done|done| |].
  - rewrite fmap_insert. cbn [cat_name]. symmetry. apply insert_id. by rewrite lookup_fmap, Hc.
  - apply map_Forall_insert_2; [|done]. unfold category_wf. cbn [levelEnabled]. by rewrite length_insert.
  - intros j d k Hj Hk. unfold spec_on, isLevelEnabled. cbn [s_set s_filter].
    apply lookup_insert_Some in Hj as [[<- <-]|[Hne Hd]]; cbn [cat_name levelEnabled].
    + destruct (decide (k = lv)) as [->|Hne].
      * rewrite lookup_insert_eq, list_lookup_insert_eq by (rewrite Wc; lia). done.
      * rewrite lookup_insert_ne by congruence. rewrite list_lookup_insert_ne by done. exact (L i c k Hc Hk).
    + rewrite lookup_insert_ne by congruence. exact (L j d k Hd Hk).
Qed.

Lemma op_step o st s w :
  corresponds st s → log_op_ok o → agrees (run_op o st w) (spec_op o s w).
Proof.
  intros Hst Ho. destruct o as [o|scope lv b|f|lv scope at_ fmt args|lv scope at_ out].
  - by apply registry_step.
  - by apply set_step.
  - cbn [run_op spec_op agrees]. eexists. split; [done|]. destruct Hst as [[] ? ?]. by split; [split|..].
  - apply (emit_step lv scope at_ (message_of fmt args) st s w (λ c st, category_log c lv at_ fmt args st w)); [done|done|].
    intros c st'. unfold category_log, Logger_log, print. destruct (isLevelEnabled c lv) as [[]| |]; try done.
    by destruct (message_of fmt args).
  - apply (emit_step lv scope at_ (Done (vasprintf out)) st s w (λ c st, category_logf c lv at_ out st w)); [done|done|].
    intros c st'. by unfold category_logf, printf.
Qed.

Lemma ops_agree l : ∀ st s w, corresponds st s → Forall log_op_ok l → run_ops l st w = spec_ops l s w.
Proof.
  induction l as [|o l IH]; intros st s w Hst Hl; [done|]. apply Forall_cons in Hl as [Ho Hl].
  cbn [run_ops spec_ops]. pose proof (op_step o st s w Hst Ho) as H.
  destruct (run_op o st w) as [[st' e]| |]; cbn [agrees] in H; [|by rewrite H..].
  destruct H as (s' & -> & Hst'). cbn [mbind run_bind fst snd]. destruct e as [w'|w']; [by apply IH|done].
Qed.

Lemma start_corresponds f : corresponds (log_start f) (spec_start f).
Proof.
  split; [|done|done]. split; cbn [log_start registry registry_new spec_start filterRules rules categories categoryFilter
    s_names s_text s_filter]; [by rewrite fmap_empty|done|done|by vm_compute|done|apply map_Forall_empty|].
  intros i c lv Hi. by rewrite lookup_empty in Hi.
Qed.

(** C27: the records that a program emits with the macros, in order, with their levels,
    contexts and texts, and the point where it aborts, are those that a specification
    without flags decides: a level of a category is as the program has set it since the
    category's registration and the last change of the rules or the filter, and else as the
    rules text says under the default filter, or as a custom filter, which may read the
    rules, decides for the category's name.  The flags that the categories keep, the order
    of their registrations and the moment the default category is made do not show. *)
Theorem records_exact f l w :
  Forall log_op_ok l → run_ops l (log_start f) w = spec_ops l (spec_start f) w.
Proof. intros Hl. apply ops_agree; [apply start_corresponds|done]. Qed.

(** A fatal record ends the process at any level of the sink, but only if it is emitted. *)
Lemma fatal_aborts c at_ out st w e :
  category_logf c Fatal at_ out st w = Done e →
  isLevelEnabled c Fatal = Done true ∧ (∃ w', e = Aborts w') ∨ isLevelEnabled c Fatal = Done false ∧ e = Returns w.
Proof.
  unfold category_logf. destruct (isLevelEnabled c Fatal) as [[]| |]; cbn [mbind run_bind]; intros [= <-]; [left|by right].
  split; [done|]. unfold after_level. rewrite bool_decide_true by done. destruct (printf _ _ _ _ _); eexists; reflexivity.
Qed.
End emitting.

(** ** A program *)

(** A sink that keeps the records. *)
Definition keep : LogCallback (W := list (nat * str)) := λ lv _ message w, Returns (w ++ [(lv, message)]).

(** The default sink on the lines of the two streams. *)
Definition default_callback : LogCallback (W := list sink) := λ lv _ message w,
  match defaultLogCallback lv message with
  | AssertFails => Aborts w
  | Silent => Returns w
  | line => Returns (w ++ [line])
  end.

Definition here : Place := MkPlace ($"a.cpp") 7 ($"main").

(** A filter that defers to the default one, but for the categories of the network. *)
Definition net_filter : LogCategoryFilter := λ rs c,
  if starts_with (cat_name c) ($"net") then Done (MkCategory (cat_name c) (replicate 8 false))
  else defaultLogCategoryFilter rs c.

Lemma net_filter_by_name : decides_by_name net_filter.
Proof.
  intros rs c Hc. unfold net_filter. cbn [new_category cat_name]. destruct (starts_with (cat_name c) _).
  - eexists. split; [done|]. split; [done|]. split; [done|]. by intros c0 lv [= <-].
  - destruct (default_filter_spec rs c Hc) as (c' & E & N & Wc & Hlv).
    destruct (default_filter_spec rs (new_category (cat_name c)) (new_category_wf _)) as (c1 & E1 & N1 & _ & Hlv1).
    exists c'. split; [done|]. split; [done|]. split; [done|]. intros c0 lv E0 Hr. rewrite E0 in E1. injection E1 as <-.
    rewrite (Hlv lv Hr), (Hlv1 lv Hr), N, N1. done.
Qed.

Definition quiet_program : list (log_op (W := list (nat * str)) (F := ())) :=
  [Log Warning None here ($"one") []; OnRegistry (Register 4 ($"lore.io"));
   OnRegistry (SetFilterRules ($"lore.io = false; lore.io.fatal = true"));
   Log Warning (Some 4) here ($"two %1") [V_integer 2];
   SetLevelEnabled (Some 4) Warning true; Log Warning (Some 4) here ($"set %1") [V_integer 2];
   OnRegistry (Register 5 ($"net.io")); OnRegistry (SetLogFilter (Some net_filter));
   Log Warning (Some 4) here ($"unset") []; Log Warning (Some 5) here ($"net") [];
   Log Critical None here ($"%1 of %2") [V_integer 3; V_string ($"3")];
   LogF Fatal (Some 4) here (Some ($"four")); Log Warning None here ($"five") []].

Lemma records_exact_witness :
  run_ops (λ _, []) (λ _ : (), []) 0 quiet_program (log_start keep) [] =
    Done (Aborts [(Warning, $"one"); (Warning, $"set 2"); (Critical, $"3 of 3"); (Fatal, $"four")]).
Proof.
  refine (eq_trans (records_exact (λ _, []) (λ _ : (), []) 0 keep quiet_program [] _) _).
  - repeat (apply Forall_cons; split); try apply Forall_nil; cbn; unfold Trace, Fatal, Warning, Critical; try exact I; try lia.
    exact net_filter_by_name.
  - vm_compute. reflexivity.
Defined.

(** With the default sink an information record ends the process. *)
Example info_aborts :
  run_ops (λ _, []) (λ _ : (), []) 0
    [Log Warning None here ($"seen") []; Log Information None here ($"hello") []; Log Warning None here ($"lost") []]
    (log_start default_callback) [] = Done (Aborts [ToStderr ($"seen" ++ [c_nl])]).
Proof. vm_compute. reflexivity. Qed.
