(* ===== verification/Startup.v ===== *)
(** The start of the two runtimes and the path of a log record between them:
    [src/modules/GuestRT/main.cpp], [src/modules/HostRT/main.cpp], the library requests of
    [src/modules/GuestRT/GuestClient.cpp] and the services of [LoreCommonHostEntry] in
    [src/modules/HostRT/HostServer.cpp] that answer at once.

    The emulator and its plugin are a state [E] with one operation, the magic system call:
    it is given the guest's memory and the words of the call, and may store a result.  The
    dynamic linker, the environment and the file system are parameters.  The theorems say
    that the guest sends nothing to the common entry before it has it, what the host
    runtime is once it runs, and which line of the host's log a guest's record becomes. *)

From stdpp Require Import gmap list.
From S2P Require Import Prelude CppString StringExtras Json ThunkDatabase Protocol NextLibrary HostServer Runtime.
From S2P Require Import Logging LogMacros.

(** What the guest has at the addresses it passes. *)
Record Memory : Type := MkMemory {
  words_at : Z → list Z;
  context_at : Z → LogContext;
  chars_at : Z → str
}.

(** ** The host's side *)

(** [HostRuntime], once constructed, with what the records of the guest put into its log. *)
Record HostRuntime : Type := MkHostRuntime {
  hr_level : Z;
  hr_logFile : bool;
  hr_hasDefault : bool;
  hr_emuAddr : Z;
  hr_server : HostServer;
  hr_log : list log_sink
}.

Inductive host_started : Type :=
  | HostExits (logged : log_sink)
  | HostRuns (rt : HostRuntime).

Definition host_category : str := $"lorelei.host-rt".

Section host.
Context (fs_exists : str → option bool) (fs_open : str → option str) (json_parse : str → Json * str).
(** [getenv]; whether [fopen] for writing succeeds; the symbol in the default scope. *)
Context (getenv : str → option str) (fopen : str → bool) (dlsym_default : str → option Z).

Definition plugin_symbol : str := $"qemu_plugin_register_vcpu_syscall_filter_cb".

Definition server_new : HostServer := MkHostServer db_empty ∅ [] false ∅.

(** The constructor of [HostRuntime]; a sink is installed in every process before it. *)
Definition start_host_runtime (kHostArch : str) : run host_started :=
  let level := runtime_level getenv ($"LORELEI_HOST_LOG_LEVEL") in
  let logFile := match getenv ($"LORELEI_HOST_LOG_FILE") with Some path => fopen path | None => false end in
  match dlsym_default plugin_symbol with
  | None =>
      Done (HostExits (Runtime.logCallback level logFile true (Z.of_nat Critical) (Some host_category)
        ($"failed to find " ++ plugin_symbol)))
  | Some emuAddr =>
      let overridePath := default [] (getenv ($"LORELEI_THUNK_DATABASE")) in
      let autoDiscover := bool_decide (getenv ($"LORELEI_THUNK_NO_AUTODISCOVER") = None) in
      vars ← buildConfigVars getenv kHostArch;
      server ← configureThunkDiscovery fs_open json_parse server_new vars overridePath kHostArch autoDiscover;
      Done (HostRuns (MkHostRuntime level logFile true emuAddr server []))
  end.

(** [Logger(context).print] with the runtime's sink installed. *)
Definition host_print (level : Z) (context : LogContext) (s : str) (rt : HostRuntime) : HostRuntime :=
  MkHostRuntime (hr_level rt) (hr_logFile rt) (hr_hasDefault rt) (hr_emuAddr rt) (hr_server rt)
    (hr_log rt ++ [Runtime.logCallback (hr_level rt) (hr_logFile rt) (hr_hasDefault rt) level (category context) s]).

(** [dlinfo] of a handle, [dladdr] of an address: the name of the module. *)
Context (link_name : Z → option str) (module_of : Z → option str).

Definition host_getModulePath (opaque : Z) (isHandle : bool) : option str :=
  if isHandle then
    match link_name opaque with Some (c :: s) => Some (c :: s) | _ => None end
  else module_of opaque.

(** An address of a loaded module is the host's. *)
Definition host_isHostAddressNaive (addr : Z) : bool := bool_decide (is_Some (module_of addr)).

(** [setThunkDatabase]; the database is not null. *)
Definition setThunkDatabase (db : ThunkDatabase) (rt : HostRuntime) : HostRuntime :=
  MkHostRuntime (hr_level rt) (hr_logFile rt) (hr_hasDefault rt) (hr_emuAddr rt) (with_db (hr_server rt) db) (hr_log rt).

(** What a service leaves: the runtime, and the result it has stored. *)
Inductive answer : Type :=
  | AnswerNone
  | AnswerPath (path : option str)
  | AnswerThunk (info : CThunkInfo).

(** [LoreCommonHostEntry]; [None] for the two operations of the coroutines, which are the
    entries of [Invocation].  An exception would leave it for the emulator, which is C. *)
Definition LoreCommonHostEntry (mem : Memory) (id payload : Z) (rt : HostRuntime) :
    option (run (HostRuntime * answer)) :=
  match unpack (words_at mem) id payload with
  | Some (ReqInvoke _ _ _) | Some (ReqResume _) => None
  | Some (ReqLog level context msg) =>
      Some (Done (host_print level (context_at mem context) (c_str (chars_at mem msg)) rt, AnswerNone))
  | Some (ReqModulePath opaque isHandle _) => Some (Done (rt, AnswerPath (host_getModulePath opaque isHandle)))
  | Some (ReqThunkInfo path isReverse _) =>
      Some ('(s, reply) ← getThunkInfo fs_exists fs_open json_parse (hr_server rt)
                           (if (path =? 0)%Z then None else Some (c_str (chars_at mem path))) isReverse;
            match reply with
            | Replied info =>
                Done (MkHostRuntime (hr_level rt) (hr_logFile rt) (hr_hasDefault rt) (hr_emuAddr rt) s (hr_log rt),
                      AnswerThunk info)
            | Thrown => Undef
            end)
  | None => Some (Done (rt, AnswerNone))
  end.
End host.

(** ** The guest's side *)

Section guest.
Context {E : Type}.
(** The system call; its result is what was stored in the cell of the last word. *)
Variable send : E → Memory → list Z → E * option Z.
(** Where the literals and the result cell are; what the emulator's addresses hold. *)
Variables (literal : str → Z) (cell : Z) (text_at : E → Z → str).
Variable mem : Memory.

Definition send_for (e : E) (r : DLCallRequestID) (words : list Z) : E * Z :=
  let '(e, stored) := send e mem ([DLCallSyscallNumber; request_number r] ++ words ++ [cell]) in
  (e, default 0%Z stored).

Definition getHostAttribute (e : E) (key : str) : E * Z := send_for e DR_GetHostAttribute [literal key].
Definition loadLibrary (e : E) (path : str) (flags : Z) : E * Z := send_for e DR_LoadLibrary [literal path; flags].
Definition getProcAddress (e : E) (handle : Z) (name : str) : E * Z := send_for e DR_GetProcAddress [handle; literal name].
(** The result is an [int]. *)
Definition freeLibrary (e : E) (handle : Z) : E * Z := send_for e DR_FreeLibrary [handle].
Definition getLibraryError (e : E) : E * Z := send_for e DR_GetLibraryError [].

Record GuestRuntime : Type := MkGuestRuntime {
  gr_level : Z;
  gr_entry : Z
}.

(** [abort] after a line on the standard error. *)
Inductive guest_started : Type :=
  | GuestAborts (line : str)
  | GuestRuns (rt : GuestRuntime).

Definition guest_category : str := $"lorelei.guest-rt".

Definition abortHostError (e : E) (what : str) : E * guest_started :=
  let '(e, err) := getLibraryError e in
  (e, GuestAborts (guest_category ++ $": " ++ what ++ $": " ++
        (if (err =? 0)%Z then $"unknown error" else c_str (text_at e err)) ++ [c_nl])).

Definition RTLD_NOW : Z := 2.

(** The constructor of [GuestRuntime]. *)
Definition start_guest_runtime (getenv : str → option str) (e : E) : E * guest_started :=
  let '(e, hostRuntimeHandle) := loadLibrary e ($"libLoreHostRT.so") RTLD_NOW in
  if (hostRuntimeHandle =? 0)%Z then abortHostError e ($"failed to load host runtime")
  else
    let '(e, commonHostEntry) := getProcAddress e hostRuntimeHandle ($"LoreCommonHostEntry") in
    if (commonHostEntry =? 0)%Z then abortHostError e ($"failed to resolve host common entry")
    else (e, GuestRuns (MkGuestRuntime (runtime_level getenv ($"LORELEI_GUEST_LOG_LEVEL")) commonHostEntry)).

(** An address of no module that the guest's linker knows is the host's. *)
Definition guest_isHostAddressNaive (module_of : Z → option str) (addr : Z) : bool :=
  bool_decide (module_of addr = None).

(** [~GuestThunkContext]. *)
Definition guest_thunk_stop (e : E) (htlHandle : Z) : E :=
  if (htlHandle =? 0)%Z then e else (freeLibrary e htlHandle).1.
End guest.

Section records.
Context {E : Type}.
Variable send : E → Memory → list Z → E * option Z.
(** The addresses of the frame of [logMessage]: the block, the context, the text. *)
Variables (block context_ptr msg_ptr : Z).

(** What the frame holds; the text is a [std::string]'s, with its terminator. *)
Definition log_frame (words : list Z) (ctx : LogContext) (message : str) : Memory :=
  MkMemory (λ p, if (p =? block)%Z then words else [])
    (λ p, if (p =? context_ptr)%Z then ctx else LogContext_default)
    (λ p, if (p =? msg_ptr)%Z then message ++ [c_nul] else []).

Definition logMessage (rt : GuestRuntime) (level : Z) (ctx : LogContext) (message : str) (e : E) : E :=
  let '(id, payload, words) := pack block (ReqLog level context_ptr msg_ptr) in
  (send e (log_frame words ctx message) (invokeHost (gr_entry rt) id payload)).1.

(** The guest runtime's sink. *)
Definition guest_logCallback (rt : GuestRuntime) : LogCallback (W := E) := λ level ctx s e,
  if (gr_level rt <=? Z.of_nat level)%Z then Returns (logMessage rt (Z.of_nat level) ctx s e) else Returns e.
End records.

(** ** The order of the start *)

(** A request of the plugin itself, not of the host runtime. *)
Definition plugin_request (words : list Z) : Prop :=
  ∃ r, words !! 1 = Some (request_number r) ∧ r ≠ DR_InvokeProc.

Lemma plugin_not_invoke r rest : r ≠ DR_InvokeProc → plugin_request (DLCallSyscallNumber :: request_number r :: rest).
Proof. intros Hr. by exists r. Qed.

Section bootstrap.
Context {E : Type} (send : E → Memory → list Z → E * option Z).
Context (literal : str → Z) (cell : Z) (text_at : E → Z → str) (mem : Memory).

(** What no plugin request changes still holds after one. *)
Lemma send_for_keeps (P : E → Prop) e r words :
  (∀ e mem words, plugin_request words → P e → P (send e mem words).1) → r ≠ DR_InvokeProc →
  P e → P (send_for send cell mem e r words).1.
Proof.
  intros HP Hr He. unfold send_for. pose proof (HP e mem _ (plugin_not_invoke r (words ++ [cell]) Hr) He) as H.
  cbn [app]. by destruct (send _ _ _) as [e' stored].
Qed.

Lemma abort_keeps (P : E → Prop) e what :
  (∀ e mem words, plugin_request words → P e → P (send e mem words).1) → P e →
  P (abortHostError send cell text_at mem e what).1.
Proof.
  intros HP He. unfold abortHostError. pose proof (send_for_keeps P e DR_GetLibraryError [] HP ltac:(done) He) as H.
  unfold getLibraryError. by destruct (send_for _ _ _ _ _ _).
Qed.

Lemma start_guest_keeps getenv (P : E → Prop) e :
  (∀ e mem words, plugin_request words → P e → P (send e mem words).1) → P e →
  P (start_guest_runtime send literal cell text_at mem getenv e).1.
Proof.
  intros HP He. unfold start_guest_runtime.
  pose proof (send_for_keeps P e DR_LoadLibrary [literal ($"libLoreHostRT.so"); RTLD_NOW] HP ltac:(done) He) as H1.
  unfold loadLibrary. destruct (send_for _ _ _ e _ _) as [e1 handle]. cbn [fst] in H1.
  destruct (handle =? 0)%Z; [by apply abort_keeps|].
  pose proof (send_for_keeps P e1 DR_GetProcAddress [handle; literal ($"LoreCommonHostEntry")] HP ltac:(done) H1) as H2.
  unfold getProcAddress. destruct (send_for _ _ _ e1 _ _) as [e2 entry]. cbn [fst] in H2.
  by destruct (entry =? 0)%Z; [apply abort_keeps|].
Qed.

(** C37: the guest runtime starts with requests that the plugin serves itself, whatever they
    answer: no request is sent through the common entry before the runtime has it.  The
    runtime runs exactly if the library was loaded and the entry was found; the entry is
    then not null and the threshold is the environment's, and otherwise the process ends
    with the linker's error. *)
Theorem guest_bootstrap getenv e :
  (∀ P : E → Prop, (∀ e mem words, plugin_request words → P e → P (send e mem words).1) → P e →
     P (start_guest_runtime send literal cell text_at mem getenv e).1) ∧
  let '(e1, handle) := loadLibrary send literal cell mem e ($"libLoreHostRT.so") RTLD_NOW in
  let '(e2, entry) := getProcAddress send literal cell mem e1 handle ($"LoreCommonHostEntry") in
  match start_guest_runtime send literal cell text_at mem getenv e with
  | (e', GuestRuns rt) =>
      handle ≠ 0%Z ∧ entry ≠ 0%Z ∧ e' = e2 ∧ gr_entry rt = entry ∧
      gr_level rt = runtime_level getenv ($"LORELEI_GUEST_LOG_LEVEL") ∧ gr_level rt ≠ 0%Z
  | (_, GuestAborts line) =>
      (handle = 0%Z ∨ entry = 0%Z) ∧ ∃ err, line = guest_category ++ $": " ++
        (if decide (handle = 0%Z) then $"failed to load host runtime" else $"failed to resolve host common entry") ++
        $": " ++ err ++ [c_nl]
  end.
Proof.
  split; [intros P; apply start_guest_keeps|]. unfold start_guest_runtime.
  destruct (loadLibrary _ _ _ _ e _ _) as [e1 handle]. destruct (getProcAddress _ _ _ _ e1 handle _) as [e2 entry].
  destruct (Z.eqb_spec handle 0) as [->|Hh]; [|destruct (Z.eqb_spec entry 0) as [->|He]].
  1, 2: unfold abortHostError; destruct (getLibraryError _ _ _ _) as [e' err]; (split; [by auto|]); eexists.
  1: by rewrite decide_True by done.
  1: by rewrite decide_False by done.
  split_and!; try done. unfold runtime_level. cbn. destruct (getenv _) as [s|]; [|done].
  by destruct (Z.eqb_spec (atoi s) 0).
Qed.
End bootstrap.

(** ** The host runtime that starts *)

(** The host runtime runs exactly inside an emulator that has the plugin's symbol; its
    database is then well formed, whatever the override file holds, its packs are still to
    be discovered, and the environment has set its threshold and its discovery.  Outside of
    one it exits, and its last line names the symbol unless the threshold hides it. *)
Theorem host_starts fs_open json_parse getenv fopen dlsym_default arch vars :
  buildConfigVars getenv arch = Done vars →
  match dlsym_default plugin_symbol with
  | Some emuAddr => ∃ rt, start_host_runtime fs_open json_parse getenv fopen dlsym_default arch = Done (HostRuns rt) ∧
      server_wf (hr_server rt) ∧ m_loadedPackPrefixes (hr_server rt) = ∅ ∧ hr_emuAddr rt = emuAddr ∧
      hr_level rt = runtime_level getenv ($"LORELEI_HOST_LOG_LEVEL") ∧
      m_thunkVars (hr_server rt) = vars ∧ m_hostArch (hr_server rt) = arch ∧
      (m_thunkAutoDiscover (hr_server rt) = true ↔ getenv ($"LORELEI_THUNK_NO_AUTODISCOVER") = None)
  | None => ∃ line, start_host_runtime fs_open json_parse getenv fopen dlsym_default arch = Done (HostExits line) ∧
      (line = SinkNone ↔ (6 < runtime_level getenv ($"LORELEI_HOST_LOG_LEVEL"))%Z)
  end.
Proof.
  intros Hvars. unfold start_host_runtime. destruct (dlsym_default plugin_symbol) as [emuAddr|].
  - destruct (configure_wf fs_open json_parse server_new vars (default [] (getenv ($"LORELEI_THUNK_DATABASE"))) arch
      (bool_decide (getenv ($"LORELEI_THUNK_NO_AUTODISCOVER") = None))) as (s & Hs & Hwf & Hp).
    rewrite Hvars. cbn [mbind run_bind]. rewrite Hs. cbn [mbind run_bind]. eexists. split; [done|].
    split; [exact Hwf|]. split; [exact Hp|]. split; [done|]. split; [done|].
    unfold configureThunkDiscovery in Hs. run_binds Hs. injection Hs as <-. cbn. split_and!; [done..|].
    apply bool_decide_eq_true.
  - eexists. split; [done|]. unfold Runtime.logCallback. change (Z.of_nat Critical) with 6%Z.
    destruct (Z.ltb_spec 6 (runtime_level getenv ($"LORELEI_HOST_LOG_LEVEL"))); [done|].
    split; [by destruct (match getenv _ with Some _ => _ | None => _ end)|lia].
Qed.

(** ** The path of a record *)

(** A program's records, in the order its sink is called with them. *)
Abbreviation record := (nat * LogContext * str)%type.

Fixpoint emit_all {W} (f : LogCallback (W := W)) (l : list record) (w : W) : effect W :=
  match l with
  | [] => Returns w
  | (lv, ctx, s) :: l => and_then (f lv ctx s w) (emit_all f l)
  end.

(** The line of a record in the host's log, and the records that the guest sends. *)
Definition host_line (rt : HostRuntime) (r : record) : log_sink :=
  Runtime.logCallback (hr_level rt) (hr_logFile rt) (hr_hasDefault rt) (Z.of_nat r.1.1) (category r.1.2) (c_str r.2).
Definition sent (g : GuestRuntime) (r : record) : Prop := (gr_level g ≤ Z.of_nat r.1.1)%Z.
#[export] Instance sent_dec g r : Decision (sent g r).
Proof. unfold sent. apply _. Defined.

Definition with_log (rt : HostRuntime) (lines : list log_sink) : HostRuntime :=
  MkHostRuntime (hr_level rt) (hr_logFile rt) (hr_hasDefault rt) (hr_emuAddr rt) (hr_server rt) (hr_log rt ++ lines).

Section path.
Context (fs_exists : str → option bool) (fs_open : str → option str) (json_parse : str → Json * str).
Context (link_name module_of : Z → option str).
Context {E : Type} (send : E → Memory → list Z → E * option Z) (host : E → HostRuntime).
Variables (block context_ptr msg_ptr : Z) (g : GuestRuntime).

(** What the plugin documents: the request calls the entry with its two operands. *)
Hypothesis served : ∀ e mem id payload rt' a,
  LoreCommonHostEntry fs_exists fs_open json_parse link_name module_of mem id payload (host e) = Some (Done (rt', a)) →
  host (send e mem [DLCallSyscallNumber; request_number DR_InvokeProc; gr_entry g; id; payload]).1 = rt'.

Lemma c_str_terminated s : c_str (s ++ [c_nul]) = c_str s.
Proof.
  induction s as [|c s IH]; [done|]. cbn [app c_str]. by destruct (c =c? c_nul); [|rewrite IH].
Qed.

Lemma logMessage_host lv ctx s e :
  Trace <= lv <= Fatal →
  host (logMessage send block context_ptr msg_ptr g (Z.of_nat lv) ctx s e)
    = with_log (host e) [host_line (host e) (lv, ctx, s)].
Proof using served.
  intros Hlv. unfold logMessage. cbn [pack]. apply (served _ _ _ _ _ AnswerNone).
  unfold LoreCommonHostEntry, unpack. rewrite secondary_roundtrip. cbn [log_frame words_at context_at chars_at].
  rewrite !Z.eqb_refl, word_int_word.
  - unfold host_print, with_log, host_line. cbn. by rewrite c_str_terminated.
  - unfold Trace, Fatal, INT_MIN, INT_MAX in *. lia.
Qed.

Lemma with_log_app rt l1 l2 : with_log (with_log rt l1) l2 = with_log rt (l1 ++ l2).
Proof. unfold with_log. cbn. by rewrite app_assoc. Qed.

Lemma records_logged l : ∀ e,
  Forall (λ r, Trace <= r.1.1 <= Fatal) l →
  ∃ e', emit_all (guest_logCallback send block context_ptr msg_ptr g) l e = Returns e' ∧
    host e' = with_log (host e) (host_line (host e) <$> filter (sent g) l).
Proof using served.
  induction l as [|[[lv ctx] s] l IH]; intros e Hl.
  - exists e. split; [done|]. destruct (host e). unfold with_log. cbn. by rewrite app_nil_r.
  - apply Forall_cons in Hl as [Hlv Hl]. cbn [emit_all]. unfold guest_logCallback at 1. rewrite filter_cons.
    unfold sent at 2. cbn [fst snd] in *. destruct (Z.leb_spec (gr_level g) (Z.of_nat lv)) as [Hs|Hs].
    + rewrite decide_True by exact Hs. cbn [and_then]. destruct (IH (logMessage send block context_ptr msg_ptr g (Z.of_nat lv) ctx s e) Hl) as (e' & -> & Hhost).
      exists e'. split; [done|]. rewrite Hhost, logMessage_host, with_log_app by done. done.
    + rewrite decide_False by lia. cbn [and_then]. by apply IH.
Qed.
End path.

(** C28: when the plugin calls the common entry as it documents, the records of a guest reach
    the host's log in the order they were emitted: one line for each record at or above the
    guest's threshold, with the level, the category and the text up to a NUL byte that the
    record had, written to the log file or the host's former sink if the level is also at or
    above the host's threshold; nothing else of the host runtime changes. *)
Theorem guest_records_logged fs_exists fs_open json_parse link_name module_of {E} send (host : E → HostRuntime)
    block context_ptr msg_ptr g :
  (∀ e mem id payload rt' a,
    LoreCommonHostEntry fs_exists fs_open json_parse link_name module_of mem id payload (host e) = Some (Done (rt', a)) →
    host (send e mem [DLCallSyscallNumber; request_number DR_InvokeProc; gr_entry g; id; payload]).1 = rt') →
  ∀ l e, Forall (λ r : record, Trace <= r.1.1 <= Fatal) l →
  ∃ e', emit_all (guest_logCallback send block context_ptr msg_ptr g) l e = Returns e' ∧
    host e' = with_log (host e) (host_line (host e) <$> filter (sent g) l) ∧
    (∀ lv ctx s, host_line (host e) (lv, ctx, s) =
       if (Z.of_nat lv <? hr_level (host e))%Z then SinkNone
       else let line := render_line (category ctx) (c_str s) in
            if hr_logFile (host e) then SinkFile (line ++ [c_nl])
            else if hr_hasDefault (host e) then SinkDefault (Z.of_nat lv) line else SinkNone).
Proof.
  intros Hserved l e Hl.
  destruct (records_logged fs_exists fs_open json_parse link_name module_of send host block context_ptr msg_ptr g Hserved l e Hl)
    as (e' & H1 & H2). by exists e'.
Qed.

(** ** Examples *)

(** An emulator whose state is the host runtime, and that serves the entry at 77. *)
Definition u_send (rt : HostRuntime) (mem : Memory) (words : list Z) : HostRuntime * option Z :=
  match words with
  | [_; 5; 77; id; payload]%Z =>
      match LoreCommonHostEntry (λ _, Some false) (λ _, None) (λ s, (JNull, s)) (λ _, None) (λ _, None) mem id payload rt with
      | Some (Done (rt', _)) => (rt', None)
      | _ => (rt, None)
      end
  | [_; 1; _; _; _]%Z => (rt, Some 9%Z)
  | [_; 2; 9; _; _]%Z => (rt, Some 77%Z)
  | _ => (rt, None)
  end.
Definition u_host : HostRuntime := MkHostRuntime 5 true true 1 server_new [].
Definition u_guest : GuestRuntime := MkGuestRuntime 4 77.
Definition u_context (name : str) : LogContext := MkContext 1 None None (Some name).
Definition u_records : list record :=
  [(Information, u_context ($"lib"), $"quiet"); (Debug, u_context ($"lib"), $"unsent");
   (Warning, u_context ($"default"), $"plain"); (Fatal, u_context ($"lib"), $"last")].

Lemma guest_records_logged_witness :
  ∃ rt, emit_all (guest_logCallback u_send 10 20 30 u_guest) u_records u_host = Returns rt ∧
    hr_log rt = [SinkNone; SinkFile ($"plain" ++ [c_nl]); SinkFile ($"lib: last" ++ [c_nl])].
Proof.
  destruct (guest_records_logged (λ _, Some false) (λ _, None) (λ s, (JNull, s)) (λ _, None) (λ _, None) u_send id
    10 20 30 u_guest) with (l := u_records) (e := u_host) as (rt & Hrun & Hhost & _).
  - intros e mem i payload rt' a H. unfold u_send. cbn -[LoreCommonHostEntry] in H |- *. by rewrite H.
  - repeat (apply Forall_cons; split); try apply Forall_nil; cbn; unfold Trace, Fatal, Information, Debug, Warning; lia.
  - exists rt. split; [exact Hrun|]. exact (eq_trans (f_equal hr_log Hhost) ltac:(vm_compute; reflexivity)).
Defined.

Example guest_runs :
  start_guest_runtime u_send (λ _, 3%Z) 4 (λ _ _, []) (log_frame 0 0 0 [] LogContext_default []) (λ _, None) u_host
  = (u_host, GuestRuns (MkGuestRuntime 4 77)).
Proof. vm_compute. reflexivity. Qed.

Lemma guest_bootstrap_witness :
  (start_guest_runtime u_send (λ _, 3%Z) 4 (λ _ _, []) (log_frame 0 0 0 [] LogContext_default []) (λ _, None) u_host).1 = u_host.
Proof.
  destruct (guest_bootstrap u_send (λ _, 3%Z) 4 (λ _ _, []) (log_frame 0 0 0 [] LogContext_default []) (λ _, None) u_host)
    as [Hkeep _].
  apply (Hkeep (λ e, e = u_host)); [|reflexivity].
  intros e mem words (r & Hr & Hne) ->. unfold u_send. destruct words as [|w [|w1 [|w2 [|w3 [|w4 [|]]]]]]; try reflexivity;
    injection Hr as ->; destruct r; try done; cbn; repeat case_match; reflexivity.
Defined.

Lemma host_starts_witness :
  ∃ rt, start_host_runtime (λ _, None) (λ s, (JNull, s)) (λ _, None) (λ _, false) (λ _, Some 5%Z) ($"x86_64") = Done (HostRuns rt) ∧
    server_wf (hr_server rt) ∧ hr_level rt = 4%Z.
Proof.
  destruct (host_starts (λ _, None) (λ s, (JNull, s)) (λ _, None) (λ _, false) (λ _, Some 5%Z) ($"x86_64")
    (<[$"ARCH" := $"x86_64"]> (<[$"HOME" := []]> ∅))) as (rt & H1 & H2 & _ & _ & H3 & _); [reflexivity|].
  exists rt. exact (conj H1 (conj H2 H3)).
Defined.
