(* ===== verification/Variadic.v ===== *)
(** Boxed arguments and dynamic calls:
    [include/lorelei/DLCall/Tools/VariadicArgDefs.h],
    [src/libs/DLCall/Tools/VariadicAdaptor.cpp] and
    [src/libs/DLCall/Tools/VariadicAdaptor_FFCall.cpp.inc].

    A boxed argument is a tag and a union; the union is a 64-bit little-endian
    word, of which a member is the low bytes, and floating-point values are their
    bit patterns.  The call library's argument list is the list of the macros
    called on it, and [native] is what calling a function with such a list does to
    the state [M], with the bits of the result.  The format walker of the vendored
    [printf] is the parameter [walk].  An argument list slot holds an argument's
    value; a callee that declares a parameter of a type reads the low bytes of its
    slot, which is how the platform conventions pass the types considered here.

    The theorems show that a call through boxes is the call with the arguments'
    own values, except for [unsigned long], whose union member is an [unsigned]. *)

From S2P Require Import Prelude CppString.

(** ** C types and storage *)

Inductive ctype : Type :=
  | T_char | T_uchar | T_short | T_ushort | T_int | T_uint | T_long | T_ulong
  | T_longlong | T_ulonglong | T_float | T_double | T_pointer.

#[export] Instance ctype_eq : EqDecision ctype.
Proof. solve_decision. Defined.

Definition ctype_width (t : ctype) : Z :=
  match t with
  | T_char | T_uchar => 8
  | T_short | T_ushort => 16
  | T_int | T_uint | T_float => 32
  | _ => 64
  end.

Definition ctype_signed (t : ctype) : bool :=
  match t with T_char | T_short | T_int | T_long | T_longlong => true | _ => false end.

(** Conversion to an integer type of the same or another width. *)
Definition convert (t : ctype) (v : Z) : Z :=
  if ctype_signed t then wraps (ctype_width t) v else wrapu (ctype_width t) v.

(** An 8-byte object read and written through a pointer to a type. *)
Definition load (t : ctype) (w : Z) : Z := convert t w.
Definition store (t : ctype) (v w : Z) : Z :=
  (w - w mod 2 ^ ctype_width t + wrapu (ctype_width t) v)%Z.

(** ** Boxes *)

(** [CVargType_Other] is an [int] that names no type. *)
Inductive CVargType : Type :=
  | CVargType_Void | CVargType_Char | CVargType_UChar | CVargType_Short | CVargType_UShort
  | CVargType_Int | CVargType_UInt | CVargType_Long | CVargType_ULong | CVargType_LongLong
  | CVargType_ULongLong | CVargType_Float | CVargType_Double | CVargType_Pointer
  | CVargType_Other (n : Z).

Inductive member : Type :=
  | M_c | M_uc | M_s | M_us | M_i | M_u | M_l | M_ul | M_ll | M_ull | M_f | M_d | M_p.

(** The declared types of the members; note [ul]. *)
Definition member_type (m : member) : ctype :=
  match m with
  | M_c => T_char | M_uc => T_uchar | M_s => T_short | M_us => T_ushort
  | M_i => T_int | M_u => T_uint | M_l => T_long | M_ul => T_uint
  | M_ll => T_longlong | M_ull => T_ulonglong | M_f => T_float | M_d => T_double
  | M_p => T_pointer
  end.

Record CVargEntry : Type := MkEntry {
  type : CVargType;
  value : Z
}.

Definition get (m : member) (e : CVargEntry) : Z := load (member_type m) (value e).
Definition set (m : member) (v : Z) (e : CVargEntry) : CVargEntry :=
  MkEntry (type e) (store (member_type m) v (value e)).

Definition is_void (e : CVargEntry) : bool :=
  match type e with CVargType_Void => true | _ => false end.

(** The walk to the sentinel runs off an array that has none. *)
Fixpoint length_loop (argv : list CVargEntry) (argc : nat) : run nat :=
  match argv with
  | [] => Undef
  | p :: argv => if is_void p then Done argc else length_loop argv (S argc)
  end.

(** [None] is the null pointer. *)
Definition CVargEntryLength (argv : option (list CVargEntry)) : run nat :=
  match argv with Some argv => length_loop argv 0 | None => Done 0 end.

(** *** Boxing a C++ value *)

(** A type as [_CVargTypeID] sees it; [cv] qualifiers are already gone. *)
Inductive cpp_type : Type :=
  | CppVoid
  | CppBase (t : ctype)
  | CppEnum (underlying : ctype).

Definition Enum2Underlying (t : cpp_type) : cpp_type :=
  match t with CppEnum u => CppBase u | _ => t end.

Definition CVargTypeID (t : cpp_type) : CVargType :=
  match Enum2Underlying t with
  | CppVoid => CVargType_Void
  | CppBase T_char => CVargType_Char
  | CppBase T_uchar => CVargType_UChar
  | CppBase T_short => CVargType_Short
  | CppBase T_ushort => CVargType_UShort
  | CppBase T_int => CVargType_Int
  | CppBase T_uint => CVargType_UInt
  | CppBase T_long => CVargType_Long
  | CppBase T_ulong => CVargType_ULong
  | CppBase T_longlong => CVargType_LongLong
  | CppBase T_ulonglong => CVargType_ULongLong
  | CppBase T_float => CVargType_Float
  | CppBase T_double => CVargType_Double
  | _ => CVargType_Pointer
  end.

Definition CVargValueRef (t : cpp_type) : member :=
  match Enum2Underlying t with
  | CppBase T_char => M_c
  | CppBase T_uchar => M_uc
  | CppBase T_short => M_s
  | CppBase T_ushort => M_us
  | CppBase T_int => M_i
  | CppBase T_uint => M_u
  | CppBase T_long => M_l
  | CppBase T_ulong => M_ul
  | CppBase T_longlong => M_ll
  | CppBase T_ulonglong => M_ull
  | CppBase T_float => M_f
  | CppBase T_double => M_d
  | _ => M_p
  end.

(** [garbage] is what the uninitialised union held. *)
Definition CVargGet (garbage : Z) (t : cpp_type) (x : Z) : CVargEntry :=
  let result := MkEntry (CVargTypeID t) garbage in
  match t with
  | CppBase T_pointer => set M_p x result
  | _ => set (CVargValueRef t) x result
  end.

(** *** Boxing a C value

    The macros of the C branch.  [__builtin_classify_type] is 5 for a pointer; an enumeration
    is compatible with its integer type, which [_Generic] then selects. *)

Definition is_pointer (t : ctype) : bool := match t with T_pointer => true | _ => false end.

Definition c_CVargTypeID (t : ctype) : CVargType :=
  if is_pointer t then CVargType_Pointer
  else
    match t with
    | T_char => CVargType_Char
    | T_uchar => CVargType_UChar
    | T_short => CVargType_Short
    | T_ushort => CVargType_UShort
    | T_int => CVargType_Int
    | T_uint => CVargType_UInt
    | T_long => CVargType_Long
    | T_ulong => CVargType_ULong
    | T_longlong => CVargType_LongLong
    | T_ulonglong => CVargType_ULongLong
    | T_float => CVargType_Float
    | T_double => CVargType_Double
    | _ => CVargType_Pointer
    end.

Definition c_CVargValueRef (t : ctype) : member :=
  if is_pointer t then M_p
  else
    match t with
    | T_char => M_c
    | T_uchar => M_uc
    | T_short => M_s
    | T_ushort => M_us
    | T_int => M_i
    | T_uint => M_u
    | T_long => M_l
    | T_ulong => M_ul
    | T_longlong => M_ll
    | T_ulonglong => M_ull
    | T_float => M_f
    | T_double => M_d
    | _ => M_p
    end.

(** The members that the initializer does not name are zero. *)
Definition c_CVargGet (t : ctype) (x : Z) : CVargEntry :=
  set (c_CVargValueRef t) x (MkEntry (c_CVargTypeID t) 0).

(** *** Boxing by a format code *)

Definition box (ty : CVargType) (m : member) (t : ctype) (entry : CVargEntry) (arg : Z) : CVargEntry :=
  set m (load t arg) (MkEntry ty (value entry)).

Definition callFormatBox64_arg_entry (fmt : ascii) (entry : CVargEntry) (arg : Z) : CVargEntry :=
  if fmt =c? "c" then box CVargType_Char M_c T_char entry arg
  else if fmt =c? "C" then box CVargType_UChar M_uc T_uchar entry arg
  else if fmt =c? "s" then box CVargType_Short M_s T_short entry arg
  else if fmt =c? "S" then box CVargType_UShort M_us T_ushort entry arg
  else if fmt =c? "i" then box CVargType_Int M_i T_int entry arg
  else if fmt =c? "I" then box CVargType_UInt M_u T_uint entry arg
  else if fmt =c? "l" then box CVargType_Long M_l T_long entry arg
  else if fmt =c? "u" then box CVargType_ULong M_ul T_ulong entry arg
  else if fmt =c? "L" then box CVargType_LongLong M_ll T_longlong entry arg
  else if fmt =c? "U" then box CVargType_ULongLong M_ull T_ulonglong entry arg
  else if fmt =c? "f" then box CVargType_Float M_f T_float entry arg
  else if fmt =c? "F" then box CVargType_Double M_d T_double entry arg
  else if fmt =c? "p" then box CVargType_Pointer M_p T_pointer entry arg
  else MkEntry CVargType_Void (value entry).

Definition callFormatBox64_ret_entry (fmt : ascii) (entry : CVargEntry) : CVargEntry :=
  let ty :=
    if fmt =c? "c" then CVargType_Char
    else if fmt =c? "C" then CVargType_UChar
    else if fmt =c? "s" then CVargType_Short
    else if fmt =c? "S" then CVargType_UShort
    else if fmt =c? "i" then CVargType_Int
    else if fmt =c? "I" then CVargType_UInt
    else if fmt =c? "l" then CVargType_Long
    else if fmt =c? "u" then CVargType_ULong
    else if fmt =c? "L" then CVargType_LongLong
    else if fmt =c? "U" then CVargType_ULongLong
    else if fmt =c? "f" then CVargType_Float
    else if fmt =c? "F" then CVargType_Double
    else if fmt =c? "p" then CVargType_Pointer
    else CVargType_Void in
  MkEntry ty (value entry).

(** ** The call library's argument list *)

(** The start macros, with the type of the result they store. *)
Inductive AvStart : Type := av_start_void | av_start (t : ctype).

(** The argument macros: the type they are named after and the value given; a
    [va_list] forwarded as an argument holds the arguments it walks. *)
#[warnings="-register-all"]
Inductive AvArg : Type :=
  | av (t : ctype) (v : Z)
  | av_va_list (l : list AvArg).

(** The result address is a member of the box, in which the call stores. *)
Definition avcall_start_helper (entry : CVargEntry) : option AvStart :=
  match type entry with
  | CVargType_Void => Some av_start_void
  | CVargType_Char => Some (av_start T_char)
  | CVargType_UChar => Some (av_start T_uchar)
  | CVargType_Short => Some (av_start T_short)
  | CVargType_UShort => Some (av_start T_ushort)
  | CVargType_Int => Some (av_start T_int)
  | CVargType_UInt => Some (av_start T_uint)
  | CVargType_Long => Some (av_start T_long)
  | CVargType_ULong => Some (av_start T_ulong)
  | CVargType_LongLong => Some (av_start T_longlong)
  | CVargType_ULongLong => Some (av_start T_longlong)
  | CVargType_Float => Some (av_start T_float)
  | CVargType_Double => Some (av_start T_double)
  | CVargType_Pointer => Some (av_start T_pointer)
  | CVargType_Other _ => None
  end.

(** [av_int(list, x)] converts its argument to the type it is named after. *)
Definition av_arg (t : ctype) (v : Z) : AvArg := av t (convert t v).

Definition avcall_arg_helper (entry : CVargEntry) : list AvArg :=
  match type entry with
  | CVargType_Char => [av_arg T_char (get M_c entry)]
  | CVargType_UChar => [av_arg T_uchar (get M_uc entry)]
  | CVargType_Short => [av_arg T_short (get M_s entry)]
  | CVargType_UShort => [av_arg T_ushort (get M_us entry)]
  | CVargType_Int => [av_arg T_int (get M_i entry)]
  | CVargType_UInt => [av_arg T_int (get M_u entry)]
  | CVargType_Long => [av_arg T_long (get M_l entry)]
  | CVargType_ULong => [av_arg T_ulong (get M_ul entry)]
  | CVargType_LongLong => [av_arg T_longlong (get M_ll entry)]
  | CVargType_ULongLong => [av_arg T_ulonglong (get M_ull entry)]
  | CVargType_Float => [av_arg T_float (get M_f entry)]
  | CVargType_Double => [av_arg T_double (get M_d entry)]
  | CVargType_Pointer => [av_arg T_pointer (get M_p entry)]
  | CVargType_Void | CVargType_Other _ => []
  end.

Section VariadicAdaptor.

Context {M : Type}.
(** What calling a function with a list does, with the bits of its result. *)
Variable native : Z → AvStart → list AvArg → M → run (M * Z).
(** The host is riscv64; [(double) f] on bit patterns. *)
Variable riscv64 : bool.
Variable to_double : Z → Z.

Definition avcall_vararg_helper (entry : CVargEntry) : list AvArg :=
  match type entry with
  | CVargType_Double => if riscv64 then [av_arg T_longlong (get M_d entry)] else avcall_arg_helper entry
  | CVargType_Float =>
      if riscv64 then [av_arg T_longlong (to_double (get M_f entry))] else avcall_arg_helper entry
  | _ => avcall_arg_helper entry
  end.

(** [for (i = 0; i < argc; ++i) helper(&alist, argv + i)]. *)
Fixpoint push_loop (helper : CVargEntry → list AvArg) (argv : list CVargEntry) (argc : nat)
    (alist : list AvArg) : run (list AvArg) :=
  match argc with
  | 0 => Done alist
  | S argc =>
      match argv with
      | [] => Undef
      | e :: argv => push_loop helper argv argc (alist ++ helper e)
      end
  end.

Definition push_args (helper : CVargEntry → list AvArg) (argv : option (list CVargEntry))
    (argc : Z) (alist : list AvArg) : run (list AvArg) :=
  push_loop helper (default [] argv) (Z.to_nat argc) alist.

(** A negative count asks for the sentinel. *)
Definition arg_count (argc : Z) (argv : option (list CVargEntry)) : run Z :=
  if (argc <? 0)%Z then n ← CVargEntryLength argv; Done (Z.of_nat n) else Done argc.

(** [av_call]: the result goes to the address the start macro was given, the
    union of the result box.  A list that was never started is not one. *)
Definition av_call (func : Z) (ret : CVargEntry) (alist : list AvArg) (m : M) :
    run (M * CVargEntry) :=
  start ← defined (avcall_start_helper ret);
  '(m, bits) ← native func start alist m;
  Done (m, match start with
           | av_start_void => ret
           | av_start t => MkEntry (type ret) (store t bits (value ret))
           end).

Definition call (func : Z) (argc1 : Z) (argv1 : option (list CVargEntry)) (argc2 : Z)
    (argv2 : option (list CVargEntry)) (ret : CVargEntry) (m : M) : run (M * CVargEntry) :=
  argc1 ← arg_count argc1 argv1;
  argc2 ← arg_count argc2 argv2;
  alist ← push_args avcall_arg_helper argv1 argc1 [];
  alist ← push_args avcall_vararg_helper argv2 argc2 alist;
  av_call func ret alist m.

(** The variadic function [vcall] goes through; [ap] walks its variadic arguments. *)
Definition vcall_forward (func : Z) (argc1 : Z) (argv1 : option (list CVargEntry))
    (ret : CVargEntry) (ap : list AvArg) (m : M) : run (M * CVargEntry) :=
  argc1 ← arg_count argc1 argv1;
  alist ← push_args avcall_arg_helper argv1 argc1 [];
  av_call func ret (alist ++ [av_va_list ap]) m.

Definition vcall (func : Z) (argc1 : Z) (argv1 : option (list CVargEntry)) (argc2 : Z)
    (argv2 : option (list CVargEntry)) (ret : CVargEntry) (m : M) : run (M * CVargEntry) :=
  argc2 ← arg_count argc2 argv2;
  varargs ← push_args avcall_vararg_helper argv2 argc2 [];
  vcall_forward func argc1 argv1 ret varargs m.

(** [vret] back into the caller's storage. *)
Definition unbox_ret (vret : CVargEntry) (ret : Z) : Z :=
  match type vret with
  | CVargType_Char => store T_char (get M_c vret) ret
  | CVargType_UChar => store T_uchar (get M_uc vret) ret
  | CVargType_Short => store T_short (get M_s vret) ret
  | CVargType_UShort => store T_ushort (get M_us vret) ret
  | CVargType_Int => store T_int (get M_i vret) ret
  | CVargType_UInt => store T_uint (get M_u vret) ret
  | CVargType_Long => store T_long (get M_l vret) ret
  | CVargType_ULong => store T_ulong (get M_ul vret) ret
  | CVargType_LongLong => store T_longlong (get M_ll vret) ret
  | CVargType_ULongLong => store T_ulonglong (get M_ull vret) ret
  | CVargType_Float => store T_float (get M_f vret) ret
  | CVargType_Double => store T_double (get M_d vret) ret
  | CVargType_Pointer => store T_pointer (get M_p vret) ret
  | CVargType_Void | CVargType_Other _ => ret
  end.

(** A box of the resized array is zero before it is filled. *)
Fixpoint box_args (codes : str) (args : list Z) : run (list CVargEntry) :=
  match codes with
  | [] => Done []
  | fmt_char :: codes =>
      match args with
      | [] => Undef
      | arg :: args =>
          rest ← box_args codes args;
          Done (callFormatBox64_arg_entry fmt_char (MkEntry CVargType_Void 0) arg :: rest)
      end
  end.

(** [args] is the contents of the objects pointed to, [ret] that of the result
    object if there is one. *)
Definition callFormatBox64 (func : Z) (fmt : str) (args : list Z) (ret : option Z) (m : M) :
    run (M * option Z) :=
  match fmt with
  | r :: sep :: codes =>
      if sep =c? "_" then
        let vret := callFormatBox64_ret_entry r (MkEntry CVargType_Void 0) in
        vargs ← box_args codes args;
        '(m, vret) ← call func (Z.of_nat (length vargs)) (Some vargs) 0 None vret m;
        Done (m, unbox_ret vret <$> ret)
      else Undef
  | _ => Undef
  end.

End VariadicAdaptor.

(** ** Extraction *)

Inductive FormatStyle : Type := PrintF | ScanF.

Section Extract.

Context {va_list : Type}.
(** The patched formatters: the boxes they fill, before the sentinel. *)
Variable walk : FormatStyle → str → va_list → list CVargEntry.

(** The boxes and the sentinel overwrite the front of [out], which must have room. *)
Definition fill (boxes out : list CVargEntry) : run (list CVargEntry) :=
  if bool_decide (length boxes < length out)
  then Done (boxes ++ MkEntry CVargType_Void 0 :: drop (S (length boxes)) out)
  else Undef.

Definition extractArgs (style : FormatStyle) (format : str) (ap : va_list) (out : list CVargEntry) :
    run (list CVargEntry * nat) :=
  out ← fill (walk style format ap) out;
  n ← length_loop out 0;
  Done (out, n).

Definition extract (style : FormatStyle) (format : str) (ap : va_list) (out : list CVargEntry) :
    run (list CVargEntry * nat) :=
  match style with
  | PrintF => extractArgs PrintF format ap out
  | ScanF => extractArgs ScanF format ap out
  end.

End Extract.

(** ** Words and types *)

(** Equal low [w] bits. *)
Definition low_eq (w a b : Z) : Prop := (a mod 2 ^ w = b mod 2 ^ w)%Z.

Lemma low_eq_trans w a b c : low_eq w a b → low_eq w b c → low_eq w a c.
Proof. unfold low_eq. congruence. Qed.

Lemma low_eq_mod w k a : (0 <= w <= k)%Z → low_eq w (a mod 2 ^ k) a.
Proof.
  intros H. unfold low_eq. replace k with (w + (k - w))%Z by lia.
  rewrite Z.pow_add_r by lia.
  assert (0 < 2 ^ w)%Z by (apply Z.pow_pos_nonneg; lia).
  assert (0 < 2 ^ (k - w))%Z by (apply Z.pow_pos_nonneg; lia).
  rewrite Z.rem_mul_r by lia. rewrite Z.mul_comm, Z.mod_add by lia. by rewrite Z.mod_mod by lia.
Qed.

Lemma low_eq_wraps w k a : (0 <= w <= k)%Z → (0 < k)%Z → low_eq w (wraps k a) a.
Proof.
  intros H Hk. unfold wraps.
  pose proof (low_eq_mod w k (a + 2 ^ (k - 1))%Z H) as E. unfold low_eq in *.
  rewrite Zminus_mod, E, <- Zminus_mod. f_equal. lia.
Qed.

Lemma ctype_width_range t : (8 <= ctype_width t <= 64)%Z.
Proof. destruct t; cbn; lia. Qed.

Lemma convert_low w t v : (0 <= w <= ctype_width t)%Z → low_eq w (convert t v) v.
Proof.
  intros H. pose proof (ctype_width_range t). unfold convert.
  destruct (ctype_signed t); [apply low_eq_wraps; lia|by apply low_eq_mod].
Qed.

Lemma convert_ext t a b : low_eq (ctype_width t) a b → convert t a = convert t b.
Proof.
  unfold low_eq, convert, wraps, wrapu. intros H. destruct (ctype_signed t); [|done].
  f_equal. rewrite Zplus_mod, H, <- Zplus_mod. done.
Qed.

Lemma store_low w t v x : (0 <= w <= ctype_width t)%Z → low_eq w (store t v x) v.
Proof.
  intros H. pose proof (ctype_width_range t). unfold store, wrapu.
  assert (0 < 2 ^ ctype_width t)%Z by (apply Z.pow_pos_nonneg; lia).
  eapply low_eq_trans; [|by apply (low_eq_mod w (ctype_width t))].
  unfold low_eq. rewrite Zplus_mod.
  replace (x - x mod 2 ^ ctype_width t)%Z with ((x / 2 ^ ctype_width t) * 2 ^ ctype_width t)%Z.
  - replace (ctype_width t) with (w + (ctype_width t - w))%Z at 2 by lia.
    rewrite Z.pow_add_r by lia.
    replace (x / 2 ^ ctype_width t * (2 ^ w * 2 ^ (ctype_width t - w)))%Z
      with (x / 2 ^ ctype_width t * 2 ^ (ctype_width t - w) * 2 ^ w)%Z by lia.
    rewrite Z.mod_mul by (apply Z.pow_nonzero; lia). rewrite Z.add_0_l.
    rewrite Z.mod_mod; [done|apply Z.pow_nonzero; lia].
  - pose proof (Z.div_mod x (2 ^ ctype_width t)). lia.
Qed.

Lemma load_store t v x : load t (store t v x) = convert t v.
Proof. apply convert_ext, store_low. pose proof (ctype_width_range t). lia. Qed.

Lemma convert_idemp t v : convert t (convert t v) = convert t v.
Proof. apply convert_ext, convert_low. pose proof (ctype_width_range t). lia. Qed.

Lemma get_set m v e : get m (set m v e) = convert (member_type m) v.
Proof. apply load_store. Qed.

(** ** What a callee receives *)

Definition is_fp (t : ctype) : bool := match t with T_float | T_double => true | _ => false end.

(** A parameter of type [t] read from an argument: integers and pointers come in
    64-bit slots, floating-point values only from arguments of their own type. *)
Definition receive (t : ctype) (a : AvArg) : option Z :=
  match a with
  | av t' v => if (is_fp t || is_fp t') && negb (bool_decide (t = t')) then None
               else Some (load t (wrapu 64 v))
  | av_va_list _ => None
  end.

Lemma receive_arg t t' v :
  (is_fp t || is_fp t' = true → t = t') → (ctype_width t <= ctype_width t')%Z →
  receive t (av_arg t' v) = Some (convert t v).
Proof.
  intros Hfp Hw. pose proof (ctype_width_range t). pose proof (ctype_width_range t').
  unfold receive, av_arg.
  assert (E : (is_fp t || is_fp t') && negb (bool_decide (t = t')) = false).
  { destruct (is_fp t || is_fp t'); [|done]. rewrite bool_decide_true by (by apply Hfp). done. }
  rewrite E. f_equal. apply convert_ext.
  eapply low_eq_trans; [by apply low_eq_mod; lia|]. apply convert_low. lia.
Qed.

(** The type a format code names. *)
Definition code_type (c : ascii) : option ctype :=
  if c =c? "c" then Some T_char else if c =c? "C" then Some T_uchar
  else if c =c? "s" then Some T_short else if c =c? "S" then Some T_ushort
  else if c =c? "i" then Some T_int else if c =c? "I" then Some T_uint
  else if c =c? "l" then Some T_long else if c =c? "u" then Some T_ulong
  else if c =c? "L" then Some T_longlong else if c =c? "U" then Some T_ulonglong
  else if c =c? "f" then Some T_float else if c =c? "F" then Some T_double
  else if c =c? "p" then Some T_pointer else None.

(** What survives the union: an [unsigned long] loses its upper half. *)
Definition boxed_value (t : ctype) (v : Z) : Z :=
  if decide (t = T_ulong) then wrapu 32 v else v.

Ltac each_code :=
  repeat match goal with
  | |- context [Ascii.eqb ?c ?d] => destruct (Ascii.eqb_spec c d) as [->|?]; [|try done]
  end.

Lemma boxed_arg m t t' a ty g :
  (is_fp t || is_fp t' = true → t = t') → (ctype_width t <= ctype_width t')%Z →
  (ctype_width t <= ctype_width (member_type m))%Z →
  receive t (av_arg t' (get m (box ty m t (MkEntry ty g) a))) = Some (load t a).
Proof.
  intros Hfp Hw Hm. rewrite receive_arg by done. f_equal. unfold box. rewrite get_set.
  unfold load. rewrite <- (convert_idemp t a) at 2. apply convert_ext, convert_low.
  pose proof (ctype_width_range t). lia.
Qed.

Lemma boxed_ulong a ty g :
  receive T_ulong (av_arg T_ulong (get M_ul (box ty M_ul T_ulong (MkEntry ty g) a))) =
  Some (wrapu 32 (load T_ulong a)).
Proof.
  rewrite receive_arg by done. f_equal. unfold box. rewrite get_set.
  change (convert (member_type M_ul)) with (wrapu 32). change (convert T_ulong) with (wrapu 64).
  apply wrapu_id. pose proof (wrapu_range 32 (load T_ulong a)). lia.
Qed.

Lemma arg_entry_spec c t e a :
  code_type c = Some t →
  ∃ x, avcall_arg_helper (callFormatBox64_arg_entry c e a) = [x] ∧
       receive t x = Some (boxed_value t (load t a)).
Proof.
  unfold code_type, callFormatBox64_arg_entry.
  repeat match goal with
  | |- context [Ascii.eqb ?c ?d] =>
      destruct (Ascii.eqb c d);
      [intros [= <-]; eexists; (split; [reflexivity|]); first [apply boxed_arg; [done|done|done]|apply boxed_ulong]|]
  end.
  done.
Qed.

Section Calls.

Context {M : Type}.
Variable native : Z → AvStart → list AvArg → M → run (M * Z).
Variable riscv64 : bool.
Variable to_double : Z → Z.

Lemma push_loop_snoc helper argv : ∀ n alist,
  n <= length argv →
  push_loop helper argv n alist = Done (alist ++ concat (helper <$> take n argv)).
Proof.
  induction argv as [|e argv IH]; intros [|n] alist H; cbn [push_loop take fmap list_fmap concat length] in *;
    try (by rewrite app_nil_r); [lia|].
  rewrite IH by lia. by rewrite <- app_assoc.
Qed.

(** The boxes of a format's arguments, and what a callee receives from them. *)
Lemma box_args_spec codes : ∀ ts args,
  Forall2 (λ c t, code_type c = Some t) codes ts → length codes <= length args →
  ∃ vargs as_, box_args codes args = Done vargs ∧ length vargs = length codes ∧
    concat (avcall_arg_helper <$> vargs) = as_ ∧
    Forall3 (λ t a x, receive t x = Some (boxed_value t (load t a)))
      ts (take (length codes) args) as_.
Proof.
  induction codes as [|c codes IH]; intros ts args H Hl; inversion H as [|? t ? ts' Hc Hcs]; subst.
  - exists [], []. cbn. split_and!; [done|done|done|constructor].
  - destruct args as [|a args]; cbn in Hl; [lia|].
    destruct (IH ts' args Hcs) as (vargs & as_ & E & Hlen & Ec & HF); [lia|].
    cbn [box_args]. rewrite E. cbn [mbind run_bind].
    destruct (arg_entry_spec c t (MkEntry CVargType_Void 0) a Hc) as (x & Ex & Hx).
    eexists _, (x :: as_). split; [done|]. cbn. rewrite Ex, Ec, Hlen.
    split_and!; [done|done|]. by constructor.
Qed.

(** The start of a result of a format code, and the result object after it. *)
Definition ret_start (c : ascii) : AvStart :=
  match code_type c with
  | Some T_ulonglong => av_start T_longlong
  | Some t => av_start t
  | None => av_start_void
  end.

Definition ret_store (c : ascii) (bits w : Z) : Z :=
  match code_type c with
  | Some t => store t (boxed_value t bits) w
  | None => w
  end.

Lemma store_ext t a b w : low_eq (ctype_width t) a b → store t a w = store t b w.
Proof. unfold low_eq, store, wrapu. congruence. Qed.

Lemma unbox_through t m bits g w :
  (ctype_width t <= ctype_width (member_type m))%Z →
  ∀ st, ctype_width st = ctype_width t →
  store t (load (member_type m) (store st bits g)) w = store t bits w.
Proof.
  intros Hm st Hst. pose proof (ctype_width_range t). apply store_ext.
  eapply low_eq_trans; [by apply convert_low; lia|]. apply store_low. lia.
Qed.

Lemma unbox_ulong bits g w :
  store T_ulong (load T_uint (store T_ulong bits g)) w = store T_ulong (wrapu 32 bits) w.
Proof.
  f_equal. unfold load. change (convert T_uint) with (wrapu 32). unfold wrapu.
  apply (store_low 32 T_ulong bits g). cbn. lia.
Qed.

Lemma ret_entry_spec r bits :
  let vret := callFormatBox64_ret_entry r (MkEntry CVargType_Void 0) in
  avcall_start_helper vret = Some (ret_start r) ∧
  ∀ w, unbox_ret (match ret_start r with
                  | av_start_void => vret
                  | av_start t => MkEntry (type vret) (store t bits (value vret))
                  end) w = ret_store r bits w.
Proof.
  unfold ret_start, ret_store, code_type, callFormatBox64_ret_entry.
  repeat match goal with
  | |- context [Ascii.eqb ?c ?d] =>
      destruct (Ascii.eqb c d);
      [split; [reflexivity|]; intros w; unfold unbox_ret; cbn [type value];
       first [by apply unbox_through|apply unbox_ulong]|]
  end.
  done.
Qed.

Lemma box64_steps func r codes ts args w m :
  Forall2 (λ c t, code_type c = Some t) codes ts → length codes <= length args →
  ∃ as_,
    Forall3 (λ t a x, receive t x = Some (boxed_value t (load t a)))
      ts (take (length codes) args) as_ ∧
    callFormatBox64 native riscv64 to_double func (r :: "_"%char :: codes) args (Some w) m =
      ('(m, bits) ← native func (ret_start r) as_ m; Done (m, Some (ret_store r bits w))).
Proof.
  intros Hc Hl. destruct (box_args_spec codes ts args Hc Hl) as (vargs & as_ & E & Hlen & Ec & HF).
  exists as_. split; [done|]. cbn [callFormatBox64]. rewrite Ascii.eqb_refl, E.
  cbn [mbind run_bind]. unfold call, arg_count.
  destruct (Z.ltb_spec (Z.of_nat (length vargs)) 0); [lia|]. cbn [mbind run_bind Z.ltb Z.compare].
  unfold push_args. change (default [] (Some vargs)) with vargs. rewrite Nat2Z.id.
  rewrite push_loop_snoc, firstn_all by done. change (Z.to_nat 0) with 0.
  change (default [] None) with ([] : list CVargEntry).
  cbn [mbind run_bind app push_loop]. rewrite Ec.
  unfold av_call.
  destruct (ret_entry_spec r 0) as [Es _]. cbn zeta in Es. rewrite Es.
  cbn [defined mbind run_bind].
  destruct (native func (ret_start r) as_ m) as [[m' bits]| |]; [|done|done].
  cbn [mbind run_bind fmap option_fmap option_map]. do 3 f_equal.
  apply (proj2 (ret_entry_spec r bits)).
Qed.

(** C30: a call by format string is the call itself.  For a string of known
    codes, the callee receives, for every parameter, the value the argument
    object holds at the parameter's type, and the result object gets the bits the
    callee returned, at the width of the return type and nothing beyond it; the
    one loss is that of [unsigned long]s, which are cut to 32 bits on the way in
    and out. *)
Theorem box64_call func r codes ts args w m :
  Forall2 (λ c t, code_type c = Some t) codes ts → length codes <= length args →
  ∃ as_,
    Forall3 (λ t a x, receive t x = Some (boxed_value t (load t a)))
      ts (take (length codes) args) as_ ∧
    callFormatBox64 native riscv64 to_double func (r :: "_"%char :: codes) args (Some w) m =
      ('(m, bits) ← native func (ret_start r) as_ m; Done (m, Some (ret_store r bits w))).
Proof. apply box64_steps. Qed.

(** An [unsigned long] that needs more than 32 bits does not reach the
    callee: the parameter is received without its upper half. *)
Theorem box64_ulong_truncated func r codes args w m a :
  (2 ^ 32 <= load T_ulong a)%Z → codes = ["u"%char] → args = [a] →
  ∃ x v, callFormatBox64 native riscv64 to_double func (r :: "_"%char :: codes) args (Some w) m =
      ('(m, bits) ← native func (ret_start r) [x] m; Done (m, Some (ret_store r bits w))) ∧
    receive T_ulong x = Some v ∧ v ≠ load T_ulong a ∧ v = wrapu 32 (load T_ulong a).
Proof.
  intros Ha -> ->.
  destruct (box64_steps func r ["u"%char] [T_ulong] [a] w m) as (as_ & HF & E);
    [by repeat constructor|done|].
  inversion HF as [|? ? x ? ? as' Hx HF']; subst. inversion HF'; subst.
  exists x, (wrapu 32 (load T_ulong a)). split_and!; [done|done| |done].
  pose proof (wrapu_range 32 (load T_ulong a)). lia.
Qed.

(** ** Boxes as arguments *)

(** The type a tag stands for and the member that holds its value. *)
Definition tag_member (ty : CVargType) : option (ctype * member) :=
  match ty with
  | CVargType_Char => Some (T_char, M_c)
  | CVargType_UChar => Some (T_uchar, M_uc)
  | CVargType_Short => Some (T_short, M_s)
  | CVargType_UShort => Some (T_ushort, M_us)
  | CVargType_Int => Some (T_int, M_i)
  | CVargType_UInt => Some (T_uint, M_u)
  | CVargType_Long => Some (T_long, M_l)
  | CVargType_ULong => Some (T_ulong, M_ul)
  | CVargType_LongLong => Some (T_longlong, M_ll)
  | CVargType_ULongLong => Some (T_ulonglong, M_ull)
  | CVargType_Float => Some (T_float, M_f)
  | CVargType_Double => Some (T_double, M_d)
  | CVargType_Pointer => Some (T_pointer, M_p)
  | CVargType_Void | CVargType_Other _ => None
  end.

(** Types that default argument promotion leaves alone. *)
Definition promoted (t : ctype) : bool :=
  match t with T_char | T_uchar | T_short | T_ushort | T_float => false | _ => true end.

(** [va_arg(ap, t)]: a variadic callee on riscv64 finds every argument, also a
    [double], in an integer slot. *)
Definition va_arg (t : ctype) (a : AvArg) : option Z :=
  if riscv64 then
    match a with
    | av t' v => if is_fp t' then None else Some (load t (wrapu 64 v))
    | av_va_list _ => None
    end
  else receive t a.

(** The value of a box. *)
Definition holds (e : CVargEntry) (t : ctype) (v : Z) : Prop :=
  ∃ m, tag_member (type e) = Some (t, m) ∧ v = get m e.

Lemma convert_range_id t v : convert t (wrapu 64 (convert t v)) = convert t v.
Proof.
  apply convert_ext. pose proof (ctype_width_range t).
  eapply low_eq_trans; [by apply low_eq_mod; lia|]. apply convert_low. lia.
Qed.

(** A fixed parameter receives its box. *)
Lemma holds_receive e t v :
  holds e t v → ∃ x, avcall_arg_helper e = [x] ∧ receive t x = Some v.
Proof.
  intros (m & Ht & ->). destruct e as [ty g]. destruct ty; cbn in Ht; simplify_eq;
    (eexists; split; [reflexivity|]; rewrite receive_arg by done; f_equal);
    try apply convert_idemp.
  unfold get. cbn [member_type value]. unfold load.
  change (convert T_ulong) with (wrapu 64). change (convert T_uint) with (wrapu 32).
  apply wrapu_id. pose proof (wrapu_range 32 g). lia.
Qed.

(** A variadic argument is found where the callee looks for it. *)
Lemma holds_va_arg e t v :
  holds e t v → promoted t = true →
  ∃ x, avcall_vararg_helper riscv64 to_double e = [x] ∧ va_arg t x = Some v.
Proof.
  intros H Hp. pose proof (holds_receive e t v H) as (x & Ex & Hx).
  destruct H as (m & Ht & ->). unfold avcall_vararg_helper, va_arg.
  destruct riscv64; [|exists x; by destruct (type e)].
  destruct e as [ty g]. destruct ty; cbn in Ht; simplify_eq; cbn [type] in *; try discriminate;
    try (exists x; split; [exact Ex|]; cbn in Ex; simplify_eq; exact Hx).
  eexists. split; [reflexivity|]. cbn [is_fp av_arg]. f_equal. unfold get, load.
  cbn [member_type value]. change (convert T_double) with (wrapu 64).
  apply (low_eq_trans 64 _ (wrapu 64 (convert T_longlong (wrapu 64 g))) _ eq_refl).
  eapply low_eq_trans; [apply low_eq_mod; lia|].
  eapply low_eq_trans; [apply convert_low; cbn; lia|]. apply low_eq_mod; lia.
Qed.

Lemma is_void_holds e t v : holds e t v → is_void e = false.
Proof. intros (m & Ht & _). unfold is_void. by destruct (type e). Qed.

(** Boxes with their types and values, as an array ends in a sentinel. *)
Definition boxes (es : list CVargEntry) (tvs : list (ctype * Z)) : Prop :=
  Forall2 (λ e tv, holds e tv.1 tv.2) es tvs.

Lemma length_loop_boxes es tvs s rest : ∀ n,
  boxes es tvs → is_void s = true → length_loop (es ++ s :: rest) n = Done (length es + n).
Proof.
  intros n H Hs. revert n. induction H as [|e tv es tvs He H IH]; intros n; cbn [app length_loop].
  - by rewrite Hs.
  - rewrite (is_void_holds _ _ _ He), IH. cbn. f_equal. lia.
Qed.

(** An array given by its count or ended by a sentinel. *)
Definition arg_array (argc : Z) (argv : option (list CVargEntry)) (es : list CVargEntry) : Prop :=
  (∃ rest, argc = Z.of_nat (length es) ∧ argv = Some (es ++ rest)) ∨
  (∃ s rest, (argc < 0)%Z ∧ is_void s = true ∧ argv = Some (es ++ s :: rest)) ∨
  (es = [] ∧ argv = None ∧ (argc <= 0)%Z).

Lemma push_array helper argc argv es tvs alist :
  arg_array argc argv es → boxes es tvs →
  (n ← arg_count argc argv; push_args helper argv n alist) =
    Done (alist ++ concat (helper <$> es)).
Proof.
  intros Ha Hb. unfold arg_count, push_args.
  destruct Ha as [(rest & -> & ->)|[(s & rest & Hlt & Hs & ->)|(-> & -> & Hle)]].
  - destruct (Z.ltb_spec (Z.of_nat (length es)) 0); [lia|]. cbn [mbind run_bind].
    change (default [] (Some ?l)) with l. rewrite Nat2Z.id, push_loop_snoc, take_app_length; [done|].
    rewrite length_app. lia.
  - destruct (Z.ltb_spec argc 0); [|lia]. cbn [CVargEntryLength].
    rewrite (length_loop_boxes _ _ _ _ 0 Hb Hs). cbn [mbind run_bind].
    change (default [] (Some ?l)) with l.
    rewrite Nat.add_0_r, Nat2Z.id, push_loop_snoc, take_app_length; [done|].
    rewrite length_app. lia.
  - destruct (Z.ltb_spec argc 0); cbn [mbind run_bind CVargEntryLength].
    + cbn. by rewrite app_nil_r.
    + assert (argc = 0%Z) as -> by lia. cbn. by rewrite app_nil_r.
Qed.

Lemma boxes_received es tvs :
  boxes es tvs →
  Forall2 (λ tv x, receive tv.1 x = Some tv.2) tvs (concat (avcall_arg_helper <$> es)).
Proof.
  induction 1 as [|e tv es tvs He H IH]; cbn; [constructor|].
  destruct (holds_receive _ _ _ He) as (x & -> & Hx). by constructor.
Qed.

Lemma boxes_va_args es tvs :
  boxes es tvs → Forall (λ tv, promoted tv.1 = true) tvs →
  Forall2 (λ tv x, va_arg tv.1 x = Some tv.2) tvs
    (concat (avcall_vararg_helper riscv64 to_double <$> es)).
Proof.
  induction 1 as [|e tv es tvs He H IH]; cbn; intros Hp; [constructor|].
  apply Forall_cons in Hp as [Hp Hps].
  destruct (holds_va_arg _ _ _ He Hp) as (x & -> & Hx). constructor; [done|by apply IH].
Qed.

(** The bits a callee returned, in the result box. *)
Definition result_box (start : AvStart) (bits : Z) (ret : CVargEntry) : CVargEntry :=
  match start with
  | av_start_void => ret
  | av_start t => MkEntry (type ret) (store t bits (value ret))
  end.

(** [call] passes boxes as arguments.  The fixed parameters receive the
    values of the first array's boxes in order, the variadic ones are found at
    their types by the callee, also on a platform that passes floating-point
    variadic arguments in integer registers, whether the arrays come with a count
    or a sentinel, and the result goes to the result box. *)
Theorem call_passes func argc1 argv1 argc2 argv2 es1 tvs1 es2 tvs2 ret start m :
  arg_array argc1 argv1 es1 → boxes es1 tvs1 → arg_array argc2 argv2 es2 → boxes es2 tvs2 →
  Forall (λ tv, promoted tv.1 = true) tvs2 → avcall_start_helper ret = Some start →
  ∃ as1 as2,
    Forall2 (λ tv x, receive tv.1 x = Some tv.2) tvs1 as1 ∧
    Forall2 (λ tv x, va_arg tv.1 x = Some tv.2) tvs2 as2 ∧
    call native riscv64 to_double func argc1 argv1 argc2 argv2 ret m =
      ('(m, bits) ← native func start (as1 ++ as2) m; Done (m, result_box start bits ret)).
Proof.
  intros Ha1 Hb1 Ha2 Hb2 Hp Hs.
  eexists _, _. split; [by apply boxes_received|]. split; [by apply boxes_va_args|].
  pose proof (push_array avcall_arg_helper _ _ _ _ [] Ha1 Hb1) as E1.
  pose proof (push_array (avcall_vararg_helper riscv64 to_double) _ _ _ _
                (concat (avcall_arg_helper <$> es1)) Ha2 Hb2) as E2.
  unfold call. destruct (arg_count argc1 argv1) as [n1| |]; cbn [mbind run_bind] in *; [|done..].
  destruct (arg_count argc2 argv2) as [n2| |]; cbn [mbind run_bind] in *; [|done..].
  rewrite E1. cbn [mbind run_bind app]. rewrite E2. cbn [mbind run_bind].
  unfold av_call. by rewrite Hs.
Qed.

(** [vcall] passes the second array as one [va_list].  The callee's fixed
    parameters receive the first array, and walking the [va_list] that follows
    them with the types of the second array yields its values. *)
Theorem vcall_passes func argc1 argv1 argc2 argv2 es1 tvs1 es2 tvs2 ret start m :
  arg_array argc1 argv1 es1 → boxes es1 tvs1 → arg_array argc2 argv2 es2 → boxes es2 tvs2 →
  Forall (λ tv, promoted tv.1 = true) tvs2 → avcall_start_helper ret = Some start →
  ∃ as1 ap,
    Forall2 (λ tv x, receive tv.1 x = Some tv.2) tvs1 as1 ∧
    Forall2 (λ tv x, va_arg tv.1 x = Some tv.2) tvs2 ap ∧
    vcall native riscv64 to_double func argc1 argv1 argc2 argv2 ret m =
      ('(m, bits) ← native func start (as1 ++ [av_va_list ap]) m; Done (m, result_box start bits ret)).
Proof.
  intros Ha1 Hb1 Ha2 Hb2 Hp Hs.
  eexists _, _. split; [by apply boxes_received|]. split; [by apply boxes_va_args|].
  pose proof (push_array avcall_arg_helper _ _ _ _ [] Ha1 Hb1) as E1.
  pose proof (push_array (avcall_vararg_helper riscv64 to_double) _ _ _ _ [] Ha2 Hb2) as E2.
  unfold vcall, vcall_forward.
  destruct (arg_count argc2 argv2) as [n2| |]; cbn [mbind run_bind] in *; [|done..].
  rewrite E2. cbn [mbind run_bind].
  destruct (arg_count argc1 argv1) as [n1| |]; cbn [mbind run_bind] in *; [|done..].
  rewrite E1. cbn [mbind run_bind app]. unfold av_call. by rewrite Hs.
Qed.

End Calls.

(** ** Boxing values *)

(** The C++ types a value can have; a boxed one is read back at its own type. *)
Definition value_type (t : cpp_type) : option ctype :=
  match Enum2Underlying t with CppBase u => Some u | _ => None end.

(** A C file and a C++ file box a value alike: the same type, and the same value in the
    member that is read for it. *)
Theorem c_boxing_agrees (garbage : Z) (t : ctype) (x : Z) :
  type (c_CVargGet t x) = type (CVargGet garbage (CppBase t) x) ∧
  c_CVargValueRef t = CVargValueRef (CppBase t) ∧
  get (c_CVargValueRef t) (c_CVargGet t x) = get (CVargValueRef (CppBase t)) (CVargGet garbage (CppBase t) x).
Proof.
  split; [by destruct t|]. split; [by destruct t|]. unfold c_CVargGet, CVargGet.
  destruct t; cbn [Enum2Underlying CVargValueRef c_CVargValueRef is_pointer]; by rewrite !get_set.
Qed.

(** Boxing a value tags it with its own type, or its enumeration's underlying
    type, and keeps the value; an [unsigned long] keeps its lower half. *)
Lemma CVargGet_holds g t u x :
  value_type t = Some u →
  holds (CVargGet g t x) u (boxed_value u (convert u x)).
Proof.
  unfold value_type, holds, boxed_value. intros H.
  destruct t as [|u'|u']; cbn in H; simplify_eq;
    destruct u; eexists; (split; [reflexivity|]); unfold CVargGet; rewrite get_set; try reflexivity;
    change (convert (member_type M_ul)) with (wrapu 32); cbn [decide];
    change (convert T_ulong) with (wrapu 64);
    apply (low_eq_mod 32 64 x); lia.
Qed.

Section Extraction.

Context {va_list : Type}.
Variable walk : FormatStyle → str → va_list → list CVargEntry.

(** [extract] leaves the walked boxes and a sentinel in the caller's array
    and returns their number, so that the array can be passed on without it. *)
Theorem extract_sentinel style format ap out tvs :
  boxes (walk style format ap) tvs → length (walk style format ap) < length out →
  ∃ out', extract walk style format ap out = Done (out', length (walk style format ap)) ∧
    length out' = length out ∧
    arg_array (-1) (Some out') (walk style format ap) ∧
    arg_array (Z.of_nat (length (walk style format ap))) (Some out') (walk style format ap).
Proof.
  intros Hb Hl. set (es := walk style format ap) in *.
  exists (es ++ MkEntry CVargType_Void 0 :: drop (S (length es)) out).
  assert (E : extract walk style format ap out = extractArgs walk style format ap out)
    by (by destruct style).
  rewrite E. unfold extractArgs, fill. fold es. rewrite bool_decide_true by done.
  cbn [mbind run_bind]. rewrite (length_loop_boxes es tvs) by done. cbn [mbind run_bind].
  rewrite Nat.add_0_r. split_and!; [done| | |].
  - rewrite length_app. cbn. rewrite length_drop. lia.
  - right. left. eexists _, _. split_and!; [lia| |done]. done.
  - left. by eexists.
Qed.

End Extraction.

(** ** Concrete calls *)

(** A function that logs its arguments and returns -2. *)
Definition log_native (func : Z) (start : AvStart) (l : list AvArg) (m : list AvArg) :
    run (list AvArg * Z) := Done (m ++ l, (-2)%Z).

Lemma box64_call_witness :
  ∃ as_, Forall3 (λ t a x, receive t x = Some (boxed_value t (load t a)))
           [T_int; T_double] [(2 ^ 32 - 1)%Z; 77%Z] as_ ∧
    callFormatBox64 log_native false id 5 ($"i_iF") [(2 ^ 32 - 1)%Z; 77%Z] (Some 0%Z) [] =
      Done (as_, Some (2 ^ 32 - 2)%Z).
Proof.
  destruct (box64_call log_native false id 5 "i"%char ["i"%char; "F"%char] [T_int; T_double]
              [(2 ^ 32 - 1)%Z; 77%Z] 0 []) as (as_ & HF & E); [by repeat constructor|done|].
  exists as_. split; [exact HF|exact E].
Defined.

Lemma box64_ulong_truncated_witness :
  ∃ x, callFormatBox64 log_native false id 5 ($"v_u") [(2 ^ 32 + 7)%Z] (Some 0%Z) [] =
         Done ([x], Some 0%Z) ∧ receive T_ulong x = Some 7%Z.
Proof.
  destruct (box64_ulong_truncated log_native false id 5 "v"%char ["u"%char] [(2 ^ 32 + 7)%Z] 0 []
              (2 ^ 32 + 7)) as (x & v & E & Hx & _ & Hv); [vm_compute; discriminate|done|done|].
  exists x. split; [exact E|]. rewrite Hx, Hv. reflexivity.
Defined.

Definition example_args : list CVargEntry := [MkEntry CVargType_Int 3; MkEntry CVargType_Double 77].
Definition example_values : list (ctype * Z) := [(T_int, 3%Z); (T_double, 77%Z)].

Lemma example_boxes : boxes example_args example_values.
Proof. repeat constructor; eexists; (split; [reflexivity|reflexivity]). Qed.

Lemma call_passes_witness :
  ∃ as1 as2,
    Forall2 (λ tv x, receive tv.1 x = Some tv.2) [(T_int, 3%Z); (T_double, 77%Z)] as1 ∧
    Forall2 (λ tv x, va_arg true tv.1 x = Some tv.2) [(T_int, 3%Z); (T_double, 77%Z)] as2 ∧
    call log_native true id 5 2 (Some [MkEntry CVargType_Int 3; MkEntry CVargType_Double 77])
      (-1) (Some [MkEntry CVargType_Int 3; MkEntry CVargType_Double 77; MkEntry CVargType_Void 0])
      (MkEntry CVargType_Long 0) [] = Done (as1 ++ as2, MkEntry CVargType_Long (2 ^ 64 - 2)).
Proof.
  destruct (call_passes log_native true id 5 2
              (Some [MkEntry CVargType_Int 3; MkEntry CVargType_Double 77]) (-1)
              (Some [MkEntry CVargType_Int 3; MkEntry CVargType_Double 77; MkEntry CVargType_Void 0])
              example_args example_values example_args example_values (MkEntry CVargType_Long 0) (av_start T_long) []
              ltac:(left; exists []; split; reflexivity) example_boxes
              ltac:(right; left; exists (MkEntry CVargType_Void 0), []; split; [lia|split; reflexivity]) example_boxes
              ltac:(by repeat constructor) eq_refl) as (as1 & as2 & H1 & H2 & E).
  exists as1, as2. split; [exact H1|]. split; [exact H2|]. exact E.
Defined.

Lemma vcall_passes_witness :
  ∃ as1 ap,
    Forall2 (λ tv x, receive tv.1 x = Some tv.2) [(T_int, 3%Z); (T_double, 77%Z)] as1 ∧
    Forall2 (λ tv x, va_arg false tv.1 x = Some tv.2) [(T_int, 3%Z); (T_double, 77%Z)] ap ∧
    vcall log_native false id 5 2 (Some [MkEntry CVargType_Int 3; MkEntry CVargType_Double 77])
      2 (Some [MkEntry CVargType_Int 3; MkEntry CVargType_Double 77])
      (MkEntry CVargType_Void 0) [] = Done (as1 ++ [av_va_list ap], MkEntry CVargType_Void 0).
Proof.
  destruct (vcall_passes log_native false id 5 2
              (Some [MkEntry CVargType_Int 3; MkEntry CVargType_Double 77]) 2
              (Some [MkEntry CVargType_Int 3; MkEntry CVargType_Double 77])
              example_args example_values example_args example_values (MkEntry CVargType_Void 0) av_start_void []
              ltac:(left; exists []; split; reflexivity) example_boxes
              ltac:(left; exists []; split; reflexivity) example_boxes
              ltac:(by repeat constructor) eq_refl) as (as1 & as2 & H1 & H2 & E).
  exists as1, as2. split; [exact H1|]. split; [exact H2|]. exact E.
Defined.

(** A walker that boxes an [int] for every character of the format. *)
Definition int_walk (style : FormatStyle) (format : str) (ap : list Z) : list CVargEntry :=
  MkEntry CVargType_Int <$> take (length format) ap.

Lemma extract_sentinel_witness :
  ∃ out', extract int_walk PrintF ($"ab") [3%Z; 4%Z] (replicate 8 (MkEntry CVargType_Char 9)) =
            Done (out', 2) ∧ length out' = 8.
Proof.
  destruct (extract_sentinel int_walk PrintF ($"ab") [3%Z; 4%Z]
              (replicate 8 (MkEntry CVargType_Char 9)) [(T_int, 3%Z); (T_int, 4%Z)])
    as (out' & E & Hl & _).
  - repeat constructor; eexists; (split; [reflexivity|reflexivity]).
  - cbn. lia.
  - exists out'. split; [exact E|exact Hl].
Defined.
