(* ===== verification/ThreadHook.v ===== *)
(** The emulator's thread hooks: [src/modules/QEMUThreadHook/main.cpp].

    The interposed [pthread_create] and [pthread_exit] on the state of one emulator
    thread.  A reentry is a parameter, since the guest decides what it does; the
    theorems instantiate it with what the guest's own [pthread_create] and
    [pthread_exit] do, a system call that the emulator serves by calling the hook
    again. *)

From S2P Require Import Prelude Protocol.
From stdpp Require Import gmap.

(** [None] is the null pointer. *)
Record ThreadContext : Type := MkContext {
  in_hook : bool;
  pending_host_thread_create : bool;
  pending_host_thread : option Z;
  pending_host_attr : option Z
}.

Definition context_new : ThreadContext := MkContext false false None None.

(** The calls of the real library, in order. *)
Inductive event : Type :=
  | RealCreate (thread : Z) (attr : option Z) (detached : bool) (start_routine arg : Z)
  | RealExit (ret : Z).

(** [mem] holds [pthread_t] and [int] objects, [detached] the detach state of
    the attribute objects. *)
Record HookState : Type := MkHookState {
  qemu_syscall_number : Z;
  thread_ctx : ThreadContext;
  mem : gmap Z Z;
  detached : gmap Z bool;
  log : list event
}.

Definition set_syscall (n : Z) (s : HookState) : HookState :=
  MkHookState n (thread_ctx s) (mem s) (detached s) (log s).
Definition set_ctx (c : ThreadContext) (s : HookState) : HookState :=
  MkHookState (qemu_syscall_number s) c (mem s) (detached s) (log s).
Definition set_mem (p v : Z) (s : HookState) : HookState :=
  MkHookState (qemu_syscall_number s) (thread_ctx s) (<[p := v]> (mem s)) (detached s) (log s).
Definition set_in_hook (b : bool) (s : HookState) : HookState :=
  let c := thread_ctx s in
  set_ctx (MkContext b (pending_host_thread_create c) (pending_host_thread c)
             (pending_host_attr c)) s.

Definition is_pass_through (s : HookState) : bool :=
  bool_decide (qemu_syscall_number s = DLCallSyscallNumber).
Definition is_qemu_thread_create (s : HookState) : bool := bool_decide (qemu_syscall_number s = 56%Z).
Definition is_qemu_thread_exit (s : HookState) : bool := bool_decide (qemu_syscall_number s = 60%Z).

(** [std::abort] ends the process; [Exited] is a thread that is gone. *)
Inductive result : Type :=
  | Returned (rc : Z)
  | Aborted
  | Exited.

Section Hooks.

(** The real [pthread_create]: its code and the new handle, by its call's place
    in the log; what a reentry does to the thread's state, and whether the thread
    is gone afterwards. *)
Variable spawn : list event → Z * Z.
Variable reenter : ReentryArguments → HookState → run (HookState * bool).
(** The address of [reenterThreadCreate]'s local. *)
Variable ret_local : Z.

Definition attr_detached (attr : option Z) (s : HookState) : run bool :=
  match attr with
  | None => Done false
  | Some a => defined (detached s !! a)
  end.

Definition real_pthread_create (thread : Z) (attr : option Z) (start_routine arg : Z) (s : HookState) :
    run (HookState * Z) :=
  d ← attr_detached attr s;
  let '(rc, handle) := spawn (log s) in
  let mem' := if bool_decide (rc = 0%Z) then <[thread := handle]> (mem s) else mem s in
  Done (MkHookState (qemu_syscall_number s) (thread_ctx s) mem' (detached s)
          (log s ++ [RealCreate thread attr d start_routine arg]), rc).

Definition setdetachstate (attr : Z) (d : bool) (s : HookState) : HookState :=
  MkHookState (qemu_syscall_number s) (thread_ctx s) (mem s) (<[attr := d]> (detached s)) (log s).

(** Obey the host's detach intent on the emulator's attribute object. *)
Definition obey_host_attr (attr : Z) (s : HookState) : run HookState :=
  match pending_host_attr (thread_ctx s) with
  | Some host_attr =>
      d ← defined (detached s !! host_attr);
      Done (if (d : bool) then s else setdetachstate attr false s)
  | None => Done (setdetachstate attr false s)
  end.

Definition pass_real (thread : Z) (attr : option Z) (start_routine arg : Z) (s : HookState) :
    run (HookState * result) :=
  '(s, rc) ← real_pthread_create thread attr start_routine arg s;
  Done (s, Returned rc).

Definition qemu_create (thread : Z) (attr : option Z) (start_routine arg : Z) (s : HookState) :
    run (HookState * result) :=
  match attr with
  | None => Done (s, Aborted)
  | Some a =>
      if pending_host_thread_create (thread_ctx s) then
        s ← obey_host_attr a s;
        '(s, rc) ← real_pthread_create thread attr start_routine arg s;
        p ← defined (pending_host_thread (thread_ctx s));
        h ← defined (mem s !! thread);
        Done (set_mem p h s, Returned rc)
      else pass_real thread attr start_routine arg s
  end.

Definition pthread_create (thread : Z) (attr : option Z) (start_routine arg : Z) (s : HookState) :
    run (HookState * result) :=
  if is_qemu_thread_create s then qemu_create thread attr start_routine arg s
  else if in_hook (thread_ctx s) then pass_real thread attr start_routine arg s
  else if negb (is_pass_through s) then pass_real thread attr start_routine arg s
  else
    let s := set_ctx (MkContext true true (Some thread) attr) s in
    '(s, gone) ← reenter (reenterThreadCreate thread (default 0%Z attr) start_routine arg ret_local) s;
    if (gone : bool) then Done (s, Exited)
    else
      ret ← defined (mem s !! ret_local);
      Done (set_ctx (MkContext false false None None) s, Returned ret).

Definition real_pthread_exit (ret : Z) (s : HookState) : HookState :=
  MkHookState (qemu_syscall_number s) (thread_ctx s) (mem s) (detached s) (log s ++ [RealExit ret]).

Definition pthread_exit (ret : Z) (s : HookState) : run (HookState * result) :=
  if is_qemu_thread_exit s then Done (real_pthread_exit ret s, Exited)
  else if in_hook (thread_ctx s) then Done (real_pthread_exit ret s, Exited)
  else if negb (is_pass_through s) then Done (real_pthread_exit ret s, Exited)
  else
    let s := set_in_hook true s in
    '(s, gone) ← reenter (reenterThreadExit ret) s;
    if (gone : bool) then Done (s, Exited)
    else Done (real_pthread_exit ret (set_in_hook false s), Exited).

End Hooks.

(** What the guest does with a creation request: its library's [pthread_create]
    makes a [clone] system call, the emulator serves it by calling the hook with an
    attribute object of its own, always detached, and the request's result is the
    code; then the resume request sets the system call number back. *)
Definition guest_create (spawn : list event → Z * Z) (qemu_thread qemu_attr qemu_start qemu_arg : Z)
    (ra : ReentryArguments) (s : HookState) : run (HookState * bool) :=
  match ra with
  | RA_threadCreate _ _ _ _ ret =>
      let s := MkHookState 56 (thread_ctx s) (mem s) (<[qemu_attr := true]> (detached s)) (log s) in
      '(s, r) ← pthread_create spawn (λ _ _, Undef) 0 qemu_thread (Some qemu_attr) qemu_start qemu_arg s;
      match r with
      | Returned rc => Done (set_syscall DLCallSyscallNumber (set_mem ret rc s), false)
      | _ => Done (s, true)
      end
  | _ => Undef
  end.

(** The guest's [pthread_exit] ends in an [exit] system call, in which the
    emulator ends the thread through the hook, with a null value of its own. *)
Definition guest_exit (ra : ReentryArguments) (s : HookState) :
    run (HookState * bool) :=
  match ra with
  | RA_threadExit ret =>
      '(s, _) ← pthread_exit (λ _ _, Undef) 0 (set_syscall 60 s);
      Done (s, true)
  | _ => Undef
  end.

(** The detach state a host's attributes ask for. *)
Definition host_intent (attr : option Z) (s : HookState) (d : bool) : Prop :=
  match attr with Some a => detached s !! a = Some d | None => d = false end.

(** C24: a thread the host code creates is created once, by the emulator.  With
    the hook reached from a bridged call, the request goes to the guest, the
    guest's own creation comes back to the hook with the emulator's detached
    attributes, and the one real creation uses those attributes with the detach
    state the host asked for; the host's [pthread_t] receives the new handle, the
    hook returns the real result, and the thread's context is idle again. *)
Theorem host_create_intent spawn qt qa qs qarg rl thread attr start arg s d rc handle :
  is_pass_through s = true → thread_ctx s = context_new → host_intent attr s d →
  attr ≠ Some qa → spawn (log s) = (rc, handle) → rc = 0%Z → rl ≠ thread →
  ∃ s', pthread_create spawn (guest_create spawn qt qa qs qarg) rl thread attr start arg s =
          Done (s', Returned 0) ∧
    log s' = log s ++ [RealCreate qt (Some qa) d qs qarg] ∧
    mem s' !! thread = Some handle ∧ thread_ctx s' = context_new ∧ is_pass_through s' = true.
Proof.
  intros Hp Hc Hi Hne Hs -> Hrl. destruct s as [n c m ds lg]. cbn in *. subst c.
  unfold is_pass_through in Hp. cbn in Hp. apply bool_decide_eq_true in Hp. subst n.
  unfold pthread_create at 1, is_qemu_thread_create, is_pass_through.
  cbn [qemu_syscall_number thread_ctx in_hook context_new].
  rewrite (bool_decide_false (DLCallSyscallNumber = 56%Z)) by discriminate.
  rewrite bool_decide_true by done. cbn [negb set_ctx guest_create reenterThreadCreate
    qemu_syscall_number thread_ctx mem detached log].
  unfold pthread_create, is_qemu_thread_create, qemu_create.
  cbn [qemu_syscall_number]. rewrite bool_decide_true by done.
  cbn [thread_ctx pending_host_thread_create].
  assert (Hob : ∃ ds', obey_host_attr qa (MkHookState 56 (MkContext true true (Some thread) attr) m
                          (<[qa := true]> ds) lg) =
                        Done (MkHookState 56 (MkContext true true (Some thread) attr) m ds' lg) ∧
                      ds' !! qa = Some d).
  { unfold obey_host_attr. cbn. destruct attr as [a|]; cbn in Hi.
    - rewrite lookup_insert_ne by congruence. rewrite Hi. cbn. destruct d; (eexists; split; [done|]).
      + by rewrite lookup_insert_eq.
      + cbn. by rewrite lookup_insert_eq.
    - subst d. eexists; split; [done|]. cbn. by rewrite lookup_insert_eq. }
  destruct Hob as (ds' & -> & Hd). cbn [mbind run_bind].
  unfold real_pthread_create, attr_detached. cbn. rewrite Hd. cbn [defined mbind run_bind].
  rewrite Hs. cbn [mbind run_bind fst snd]. rewrite (bool_decide_true (0%Z = 0%Z)) by done. cbn. rewrite lookup_insert_eq. cbn.
  rewrite lookup_insert_eq. cbn. eexists. split; [done|].
  split_and!; [done| |done|by apply bool_decide_eq_true].
  cbn. by rewrite lookup_insert_ne, lookup_insert_eq.
Qed.

(** A bridged [pthread_exit] ends the thread exactly once, through the
    guest's own exit. *)
Theorem host_exit_once ret s :
  is_pass_through s = true → in_hook (thread_ctx s) = false →
  ∃ s', pthread_exit guest_exit ret s = Done (s', Exited) ∧ log s' = log s ++ [RealExit 0].
Proof.
  intros Hp Hh. destruct s as [n c m ds lg]. unfold is_pass_through in Hp. cbn in *.
  apply bool_decide_eq_true in Hp. subst n.
  unfold pthread_exit at 1, is_qemu_thread_exit, is_pass_through.
  cbn [qemu_syscall_number thread_ctx]. rewrite Hh.
  rewrite (bool_decide_false (DLCallSyscallNumber = 60%Z)) by discriminate.
  rewrite bool_decide_true by done. by eexists.
Qed.

(** Creation by the guest keeps the emulator's attributes. *)
Lemma guest_create_detached spawn reenter rl thread a start arg s d :
  qemu_syscall_number s = 56%Z → pending_host_thread_create (thread_ctx s) = false →
  detached s !! a = Some d →
  ∃ s' rc, pthread_create spawn reenter rl thread (Some a) start arg s = Done (s', Returned rc) ∧
    log s' = log s ++ [RealCreate thread (Some a) d start arg] ∧ detached s' = detached s.
Proof.
  intros Hn Hp Hd. unfold pthread_create, is_qemu_thread_create. rewrite Hn.
  rewrite bool_decide_true by done. cbn. rewrite Hp. unfold pass_real, real_pthread_create, attr_detached. rewrite Hd. cbn.
  destruct (spawn (log s)). by eexists _, _.
Qed.

Lemma host_create_intent_witness :
  ∃ s', pthread_create (λ _, (0%Z, 99%Z)) (guest_create (λ _, (0%Z, 99%Z)) 50 51 52 53) 60 10 (Some 11%Z) 12 13
          (MkHookState DLCallSyscallNumber context_new ∅ {[11%Z := false]} []) = Done (s', Returned 0) ∧
    log s' = [RealCreate 50 (Some 51%Z) false 52 53] ∧ mem s' !! 10%Z = Some 99%Z.
Proof.
  destruct (host_create_intent (λ _, (0%Z, 99%Z)) 50 51 52 53 60 10 (Some 11%Z) 12 13
              (MkHookState DLCallSyscallNumber context_new ∅ {[11%Z := false]} []) false 0 99
              eq_refl eq_refl (lookup_singleton_eq _ _) ltac:(discriminate) eq_refl eq_refl ltac:(discriminate))
    as (s' & E & L & Hm & _).
  exists s'. exact (conj E (conj L Hm)).
Defined.

Lemma host_exit_once_witness :
  ∃ s', pthread_exit guest_exit 7 (MkHookState DLCallSyscallNumber context_new ∅ ∅ []) =
          Done (s', Exited) ∧ log s' = [RealExit 0].
Proof. exact (host_exit_once 7 (MkHookState DLCallSyscallNumber context_new ∅ ∅ []) eq_refl eq_refl). Defined.
