(* ===== verification/ThreadHandshake.v ===== *)
(** Handing a new guest thread its entry: [newThreadEntry] and the
    [SC_ThreadCreate] case of [invokeFunction] in
    [src/modules/GuestRT/GuestClient.cpp].

    The parent's and the child's steps around the [NewThreadInfo] in the parent's
    frame, as a step relation on their interleavings.  Without spurious wake-ups the
    child never touches a dead frame and both sides finish; with one, which
    [pthread_cond_wait] permits, it does. *)

From S2P Require Import Prelude.
From stdpp Require Import relations.

(** The parent in the [SC_ThreadCreate] case after [pthread_create] succeeded:
    waiting with the mutex released, waking up (it must take the mutex again),
    past the wait with the mutex held, past the unlock, and with the frame that
    holds the [NewThreadInfo] gone. *)
Inductive parent_pc : Type := P_waiting | P_waking | P_locked | P_unlocked | P_returned.

(** The child in [newThreadEntry]: before reading [info], before locking, with
    the mutex, after the broadcast, after the unlock (it calls the host entry). *)
Inductive child_pc : Type := C_start | C_copied | C_locked | C_signalled | C_running (entry arg : Z).

#[export] Instance parent_pc_eq : EqDecision parent_pc.
Proof. solve_decision. Defined.
#[export] Instance child_pc_eq : EqDecision child_pc.
Proof. solve_decision. Defined.

Inductive holder : Type := Free | Parent | Child.

(** [info] is [None] when the frame is gone; [copied] is what the child read. *)
Record HandshakeState : Type := MkHandshakeState {
  parent : parent_pc;
  child : child_pc;
  mutex : holder;
  info : option (Z * Z);
  copied : Z * Z
}.

(** Just after [pthread_create] returned 0 and the parent began to wait. *)
Definition start (entry arg : Z) : HandshakeState :=
  MkHandshakeState P_waiting C_start Free (Some (entry, arg)) (0, 0)%Z.

(** [spurious] says whether a wait may return without a broadcast. *)
Inductive step (spurious : bool) : HandshakeState → HandshakeState → Prop :=
  | wake p c m i r :
      spurious = true → p = P_waiting →
      step spurious (MkHandshakeState p c m i r) (MkHandshakeState P_waking c m i r)
  | relock c i r : step spurious (MkHandshakeState P_waking c Free i r) (MkHandshakeState P_locked c Parent i r)
  | parent_unlock c i r : step spurious (MkHandshakeState P_locked c Parent i r) (MkHandshakeState P_unlocked c Free i r)
  | parent_return c m i r : step spurious (MkHandshakeState P_unlocked c m i r) (MkHandshakeState P_returned c m None r)
  | child_copy p m i r :
      step spurious (MkHandshakeState p C_start m (Some i) r) (MkHandshakeState p C_copied m (Some i) i)
  | child_lock p i r :
      step spurious (MkHandshakeState p C_copied Free (Some i) r) (MkHandshakeState p C_locked Child (Some i) r)
  | child_broadcast p m i r :
      step spurious (MkHandshakeState p C_locked m (Some i) r)
        (MkHandshakeState (if decide (p = P_waiting) then P_waking else p) C_signalled m (Some i) r)
  | child_unlock p i r :
      step spurious (MkHandshakeState p C_signalled Child (Some i) r)
        (MkHandshakeState p (C_running r.1 r.2) Free (Some i) r).

Definition reachable (spurious : bool) (entry arg : Z) : HandshakeState → Prop :=
  rtc (step spurious) (start entry arg).

(** The child still has to use [info], which is gone. *)
Definition use_after_return (s : HandshakeState) : Prop :=
  info s = None ∧ ∀ e a, child s ≠ C_running e a.

Definition finished (entry arg : Z) (s : HandshakeState) : Prop :=
  parent s = P_returned ∧ child s = C_running entry arg.

(** While the child has not broadcast the parent waits; while the child holds
    the mutex the parent is at most waking; afterwards the child is done. *)
Definition inv (entry arg : Z) (s : HandshakeState) : Prop :=
  match child s with
  | C_start => parent s = P_waiting ∧ mutex s = Free ∧ info s = Some (entry, arg)
  | C_copied =>
      parent s = P_waiting ∧ mutex s = Free ∧ info s = Some (entry, arg) ∧ copied s = (entry, arg)
  | C_locked =>
      parent s = P_waiting ∧ mutex s = Child ∧ info s = Some (entry, arg) ∧ copied s = (entry, arg)
  | C_signalled =>
      parent s = P_waking ∧ mutex s = Child ∧ info s = Some (entry, arg) ∧ copied s = (entry, arg)
  | C_running e a =>
      (e, a) = (entry, arg) ∧
      match parent s with
      | P_waiting => False
      | P_waking | P_unlocked => mutex s = Free
      | P_locked => mutex s = Parent
      | P_returned => mutex s = Free
      end
  end.

Lemma inv_step entry arg s s' : inv entry arg s → step false s s' → inv entry arg s'.
Proof.
  intros I H. destruct H as [| c i r | c i r | c m i r | p m i r | p i r | p m i r | p i r ];
    unfold inv in *; cbn [parent child mutex info copied] in *; try discriminate.
  - destruct c; naive_solver.
  - destruct c; naive_solver.
  - destruct c; naive_solver.
  - naive_solver.
  - naive_solver.
  - destruct I as (-> & -> & ? & ?). rewrite decide_True by done. naive_solver.
  - destruct r as [e a]. destruct I as (-> & _ & ? & ?). naive_solver.
Qed.

Lemma inv_reachable entry arg s : reachable false entry arg s → inv entry arg s.
Proof.
  intros H. unfold reachable in H. remember (start entry arg) as s0 eqn:E.
  assert (I : inv entry arg s0) by (subst; done). clear E.
  induction H as [|s1 s2 s3 H _ IH]; [done|]. apply IH. by eapply inv_step.
Qed.

(** The steps left, an upper bound. *)
Definition measure (s : HandshakeState) : nat :=
  match parent s with P_waiting => 4 | P_waking => 3 | P_locked => 2 | P_unlocked => 1 | P_returned => 0 end
  + match child s with C_start => 4 | C_copied => 3 | C_locked => 2 | C_signalled => 1 | C_running _ _ => 0 end.

(** A state of the invariant is finished, or can take a step. *)
Lemma inv_progress entry arg s : inv entry arg s → finished entry arg s ∨ ∃ s', step false s s'.
Proof.
  intros I. destruct s as [p c m i r]. unfold inv, finished in *. cbn in *. destruct c as [| | | |e a].
  - destruct I as (-> & -> & ->). right. eexists. apply child_copy.
  - destruct I as (-> & -> & -> & ->). right. eexists. apply child_lock.
  - destruct I as (-> & -> & -> & ->). right. eexists. apply child_broadcast.
  - destruct I as (-> & -> & -> & ->). right. eexists. apply child_unlock.
  - destruct I as [E I]. destruct p; try done; try rewrite I.
    + right. eexists. apply relock.
    + right. eexists. apply parent_unlock.
    + right. eexists. apply parent_return.
    + left. split; [done|]. congruence.
Qed.

Lemma measure_step s s' : step false s s' → measure s' < measure s.
Proof.
  intros Hs. destruct Hs; unfold measure; cbn; try discriminate; try lia.
  destruct (decide (p = P_waiting)); subst; cbn; lia.
Qed.

(** C39: without spurious wake-ups the parent's frame outlives every use of it:
    in no interleaving does the child touch [info] after the parent returned, the
    two never deadlock, every run ends after at most eight steps, and it ends with
    the parent back in its caller and the child running the entry it was given. *)
Theorem handshake_safe entry arg s :
  reachable false entry arg s →
  ¬ use_after_return s ∧
  (finished entry arg s ∨ ∃ s', step false s s') ∧
  (∀ s', step false s s' → measure s' < measure s) ∧ measure s <= 8.
Proof.
  intros H. pose proof (inv_reachable _ _ _ H) as I. split_and!.
  - intros [Hi Hc]. destruct s as [p c m i r]; cbn in *. destruct c; cbn in I; naive_solver.
  - by apply inv_progress.
  - apply measure_step.
  - unfold measure. destruct (parent s), (child s); lia.
Qed.

(** C34: [pthread_cond_wait] may return without a broadcast, and the code does not
    test a condition when it does: the parent can then return and give up its
    frame while the child has not read [info] yet. *)
Theorem handshake_spurious entry arg :
  ∃ s, reachable true entry arg s ∧ use_after_return s ∧ child s = C_start.
Proof.
  exists (MkHandshakeState P_returned C_start Free None (0, 0)%Z).
  split; [|by split; [split; [done|discriminate]|]].
  unfold reachable, start.
  eapply rtc_l; [apply wake; done|]. eapply rtc_l; [apply relock|].
  eapply rtc_l; [apply parent_unlock|]. eapply rtc_l; [apply parent_return|]. apply rtc_refl.
Qed.

Lemma handshake_safe_witness :
  measure (start 1 2) <= 8 ∧ ¬ use_after_return (start 1 2) ∧ ∃ s', step false (start 1 2) s'.
Proof.
  destruct (handshake_safe 1 2 (start 1 2) (rtc_refl _ _)) as (H1 & _ & _ & H2).
  split; [exact H2|]. split; [exact H1|]. eexists. apply child_copy.
Defined.
