(* ===== verification/ManifestSummary.v ===== *)
(** The summary of a manifest that TLC's [stat] command writes and its other
    commands read: [src/libs/TLCApi/ManifestSummary.cpp] and
    [include/lorelei/TLCApi/ManifestSummary.h].

    A [std::map] is a finite map, listed in the order of its keys; the document is
    a [Json] value, whose text form is left to the JSON library: [parse] and
    [print] are parameters, as are reading and writing a file.  The theorems show
    that a summary built by the code's own operations survives being saved and
    loaded, that a failed load changes nothing, and which alias and origin a
    callback signature keeps. *)

From stdpp Require Import gmap sorting.
From S2P Require Import Prelude CppString Assoc Json.

(** ** The summary *)

Inductive Direction : Type := GuestToHost | HostToGuest.

#[export] Instance Direction_eq : EqDecision Direction.
Proof. solve_decision. Defined.

Record FunctionEntry : Type := MkFunctionEntry { location : str }.

Record CallbackInfo : Type := MkCallbackInfo {
  signature : str;
  alias : str;
  origin : str
}.

(** An array indexed by a direction is the pair of its two elements. *)
Record ManifestSummary : Type := MkSummary {
  fileName : str;
  functions : gmap str FunctionEntry * gmap str FunctionEntry;
  missingFunctions : gset str * gset str;
  callbacks : gmap str CallbackInfo
}.

Definition at_dir {A} (p : A * A) (d : Direction) : A :=
  match d with GuestToHost => p.1 | HostToGuest => p.2 end.
Definition set_dir {A} (p : A * A) (d : Direction) (x : A) : A * A :=
  match d with GuestToHost => (x, p.2) | HostToGuest => (p.1, x) end.

Definition summary_clear (s : ManifestSummary) : ManifestSummary := MkSummary [] (∅, ∅) (∅, ∅) ∅.

Definition addFunction (d : Direction) (name loc : str) (s : ManifestSummary) : ManifestSummary :=
  MkSummary (fileName s)
    (set_dir (functions s) d (<[name := MkFunctionEntry loc]> (at_dir (functions s) d)))
    (missingFunctions s) (callbacks s).

(** [callbacks[signature]] makes an empty entry when there is none. *)
Definition callback_entry (sig : str) (m : gmap str CallbackInfo) : CallbackInfo :=
  default (MkCallbackInfo [] [] []) (m !! sig).

Definition addCallbackSignature (sig org preferredAlias : str) (s : ManifestSummary) :
    ManifestSummary :=
  let info := callback_entry sig (callbacks s) in
  let al := if negb (preferredAlias =s? []) && (alias info =s? []) then preferredAlias
            else alias info in
  let og := if negb (org =s? []) && (origin info =s? []) then org else origin info in
  MkSummary (fileName s) (functions s) (missingFunctions s)
    (<[sig := MkCallbackInfo sig al og]> (callbacks s)).

(** ** Saving *)

(** [std::map] iterates in the order of its keys, byte by byte. *)
Fixpoint str_leb (a b : str) : bool :=
  match a, b with
  | [], _ => true
  | _ :: _, [] => false
  | x :: a, y :: b =>
      (code x <? code y) || ((code x =? code y) && str_leb a b)
  end.

Definition key_le {A} (x y : str * A) : Prop := str_leb x.1 y.1 = true.

#[export] Instance key_le_dec {A} : RelDecision (@key_le A).
Proof. intros x y. unfold key_le. apply _. Defined.

Definition entries {A} (m : gmap str A) : list (str * A) := merge_sort key_le (map_to_list m).
Definition set_entries (m : gset str) : list str :=
  (merge_sort key_le ((λ s, (s, ())) <$> elements m)).*1.

Definition serializeFunctionMap (m : gmap str FunctionEntry) : Json :=
  JArray ((λ p, JObject [($"name", JString p.1); ($"location", JString (location p.2))])
            <$> entries m).

Definition serializeMissingFunctionSet (m : gset str) : Json := JArray (JString <$> set_entries m).

Definition serializeCallback (p : str * CallbackInfo) : Json :=
  JObject [($"signature", JString (signature p.2)); ($"alias", JString (alias p.2));
           ($"origin", JString (origin p.2))].

Definition summary_json (s : ManifestSummary) : Json :=
  JObject
    [($"fileName", JString (fileName s));
     ($"functions",
       JObject [($"GuestToHost", serializeFunctionMap (functions s).1);
                ($"HostToGuest", serializeFunctionMap (functions s).2)]);
     ($"missingFunctions",
       JObject [($"GuestToHost", serializeMissingFunctionSet (missingFunctions s).1);
                ($"HostToGuest", serializeMissingFunctionSet (missingFunctions s).2)]);
     ($"callbacks", JArray (serializeCallback <$> entries (callbacks s)))].

(** ** Loading *)

(** The typed lookups of a JSON object. *)
Definition as_string (j : Json) : option str := match j with JString s => Some s | _ => None end.
Definition as_array (j : Json) : option (list Json) := match j with JArray l => Some l | _ => None end.
Definition as_object (j : Json) : option Json := match j with JObject l => Some j | _ => None end.

Definition parseFunction (m : gmap str FunctionEntry) (item : Json) : gmap str FunctionEntry :=
  match as_object item with
  | None => m
  | Some itemObj =>
      match as_string (json_field itemObj ($"name")) with
      | None => m
      | Some name =>
          <[name := MkFunctionEntry (default [] (as_string (json_field itemObj ($"location"))))]> m
      end
  end.

Definition parseFunctionArray (functionsObj : Json) (key : str) : gmap str FunctionEntry :=
  match as_array (json_field functionsObj key) with
  | None => ∅
  | Some arr => foldl parseFunction ∅ arr
  end.

Definition parseMissing (m : gset str) (item : Json) : gset str :=
  match as_string item with Some name => {[name]} ∪ m | None => m end.

Definition parseMissingFunctionArray (missingObj : Json) (key : str) : gset str :=
  match as_array (json_field missingObj key) with
  | None => ∅
  | Some arr => foldl parseMissing ∅ arr
  end.

Definition parseCallback (m : gmap str CallbackInfo) (item : Json) : gmap str CallbackInfo :=
  match as_object item with
  | None => m
  | Some itemObj =>
      match as_string (json_field itemObj ($"signature")) with
      | None => m
      | Some sig =>
          let info := callback_entry sig m in
          let al := match as_string (json_field itemObj ($"alias")) with
                    | Some a => a | None => alias info end in
          let og := match as_string (json_field itemObj ($"origin")) with
                    | Some o => o | None => origin info end in
          <[sig := MkCallbackInfo sig al og]> m
      end
  end.

(** The document's summary, once it is known to be an object. *)
Definition summary_of_json (obj : Json) : ManifestSummary :=
  MkSummary
    (default [] (as_string (json_field obj ($"fileName"))))
    (match as_object (json_field obj ($"functions")) with
     | Some f => (parseFunctionArray f ($"GuestToHost"), parseFunctionArray f ($"HostToGuest"))
     | None => (∅, ∅)
     end)
    (match as_object (json_field obj ($"missingFunctions")) with
     | Some f => (parseMissingFunctionArray f ($"GuestToHost"),
                  parseMissingFunctionArray f ($"HostToGuest"))
     | None => (∅, ∅)
     end)
    (match as_array (json_field obj ($"callbacks")) with
     | Some arr => foldl parseCallback ∅ arr
     | None => ∅
     end).

(** ** Round trip *)

(** A callback entry is filed under its own signature. *)
Definition summary_wf (s : ManifestSummary) : Prop :=
  map_Forall (λ k i, signature i = k) (callbacks s).

Lemma entries_perm {A} (m : gmap str A) : entries m ≡ₚ map_to_list m.
Proof. apply merge_sort_Permutation. Qed.

(** Folding insertions of the entries of a map, in any order, rebuilds it. *)
Lemma foldl_insert_entries {A B} (f : gmap str B → A → gmap str B) (ins : A → str * B) (l : list A) :
  (∀ m a, a ∈ l → f m a = <[(ins a).1 := (ins a).2]> m) →
  NoDup (ins <$> l).*1 → ∀ m0 : gmap str B,
  (∀ k, k ∈ (ins <$> l).*1 → m0 !! k = None) →
  foldl f m0 l = list_to_map (ins <$> l) ∪ m0.
Proof.
  induction l as [|a l IH]; intros Hf Hnd m0 Hm0; cbn [foldl fmap list_fmap].
  - cbn. by rewrite (left_id_L ∅ (∪)).
  - cbn in Hnd. apply NoDup_cons in Hnd as [Ha Hnd].
    rewrite Hf by set_solver. rewrite IH; [|intros; apply Hf; set_solver|done|].
    + destruct (ins a) as [k v] eqn:E. cbn.
      rewrite <- insert_union_l. symmetry. apply insert_union_r.
      by apply not_elem_of_list_to_map_1.
    + intros k Hk. destruct (ins a) as [k' v] eqn:E. cbn in *. rewrite lookup_insert_ne.
      * apply Hm0. cbn. by right.
      * intros ->. done.
Qed.

Lemma rebuild_map {A B} (f : gmap str B → A → gmap str B) (ins : A → str * B) (l : list A) (m : gmap str B) :
  (∀ m a, a ∈ l → f m a = <[(ins a).1 := (ins a).2]> m) → (ins <$> l) ≡ₚ map_to_list m →
  foldl f ∅ l = m.
Proof.
  intros Hf Hp. rewrite (foldl_insert_entries f ins); [|done| |done].
  - rewrite (right_id_L ∅ (∪)). rewrite <- (list_to_map_to_list m).
    apply list_to_map_proper; [|done].
    rewrite Hp. apply NoDup_fst_map_to_list.
  - rewrite Hp. apply NoDup_fst_map_to_list.
Qed.

Lemma functions_roundtrip m :
  foldl parseFunction ∅
    ((λ p, JObject [($"name", JString p.1); ($"location", JString (location p.2))]) <$> entries m) = m.
Proof.
  apply (rebuild_map _ (λ j, (string_value (json_field j ($"name")),
                              MkFunctionEntry (string_value (json_field j ($"location")))))).
  - intros m' a ([k v] & -> & _)%list_elem_of_fmap. reflexivity.
  - rewrite <- list_fmap_compose, <- (entries_perm m).
    rewrite <- (list_fmap_id (entries m)) at 2. apply Permutation_refl'.
    apply list_fmap_ext. intros i [k [v]] _. reflexivity.
Qed.

Lemma callbacks_roundtrip m :
  map_Forall (λ k i, signature i = k) m →
  foldl parseCallback ∅ (serializeCallback <$> entries m) = m.
Proof.
  intros Hm.
  apply (rebuild_map _ (λ j, (string_value (json_field j ($"signature")),
                              MkCallbackInfo (string_value (json_field j ($"signature")))
                                (string_value (json_field j ($"alias")))
                                (string_value (json_field j ($"origin")))))).
  - intros m' a ([k v] & -> & _)%list_elem_of_fmap. reflexivity.
  - rewrite <- list_fmap_compose, <- (entries_perm m).
    rewrite <- (list_fmap_id (entries m)) at 2. apply Permutation_refl'.
    apply list_fmap_ext. intros i [k [s a o]] Hi.
    assert (Hk : m !! k = Some (MkCallbackInfo s a o)).
    { apply elem_of_map_to_list. rewrite <- entries_perm. by eapply list_elem_of_lookup_2. }
    apply Hm in Hk. cbn in Hk. subst s. reflexivity.
Qed.

Lemma set_entries_perm m : set_entries m ≡ₚ elements m.
Proof.
  unfold set_entries. rewrite (merge_sort_Permutation key_le ((λ s, (s, ())) <$> elements m)).
  rewrite <- list_fmap_compose. apply Permutation_refl'. apply list_fmap_id.
Qed.

Lemma foldl_missing l : ∀ m, foldl parseMissing m (JString <$> l) = list_to_set l ∪ m.
Proof.
  induction l as [|s l IH]; intros m; cbn [fmap list_fmap foldl list_to_set].
  - set_solver.
  - rewrite IH. cbn [parseMissing as_string]. set_solver.
Qed.

Lemma missing_roundtrip m : foldl parseMissing ∅ (JString <$> set_entries m) = m.
Proof. rewrite foldl_missing, set_entries_perm. rewrite list_to_set_elements_L. set_solver. Qed.

Lemma summary_json_roundtrip s : summary_wf s → summary_of_json (summary_json s) = s.
Proof.
  intros W. destruct s as [n [f1 f2] [m1 m2] c].
  change (summary_of_json (summary_json (MkSummary n (f1, f2) (m1, m2) c))) with
    (MkSummary n
       (foldl parseFunction ∅ ((λ p, JObject [($"name", JString p.1); ($"location", JString (location p.2))]) <$> entries f1),
        foldl parseFunction ∅ ((λ p, JObject [($"name", JString p.1); ($"location", JString (location p.2))]) <$> entries f2))
       (foldl parseMissing ∅ (JString <$> set_entries m1), foldl parseMissing ∅ (JString <$> set_entries m2))
       (foldl parseCallback ∅ (serializeCallback <$> entries c))).
  by rewrite !functions_roundtrip, !missing_roundtrip, callbacks_roundtrip.
Qed.

(** ** Building *)

Inductive build : Type :=
  | AddFunction (d : Direction) (name loc : str)
  | AddMissing (d : Direction) (name : str)
  | AddCallback (sig org preferredAlias : str).

Definition run_build (s : ManifestSummary) (b : build) : ManifestSummary :=
  match b with
  | AddFunction d name loc => addFunction d name loc s
  | AddMissing d name =>
      MkSummary (fileName s) (functions s)
        (set_dir (missingFunctions s) d ({[name]} ∪ at_dir (missingFunctions s) d)) (callbacks s)
  | AddCallback sig org al => addCallbackSignature sig org al s
  end.

Lemma run_build_wf s b : summary_wf s → summary_wf (run_build s b).
Proof.
  intros W. destruct b; cbn; [done|done|]. unfold summary_wf. cbn.
  apply map_Forall_insert_2; [done|exact W].
Qed.

Lemma run_builds_wf bs : ∀ s, summary_wf s → summary_wf (foldl run_build s bs).
Proof. induction bs as [|b bs IH]; intros s W; cbn; [done|]. by apply IH, run_build_wf. Qed.

Lemma empty_summary_wf n : summary_wf (MkSummary n (∅, ∅) (∅, ∅) ∅).
Proof. apply map_Forall_empty. Qed.

(** ** Files *)

Section Files.

(** Reading a file and parsing a text give a value or an error message; printing
    a value cannot fail, writing a file may. *)
Variable read_file : str → str + str.
Variable parse : str → str + Json.
Variable print : Json → str.
Variable open_error : str → option str.
Variable write_failed : str → bool.

(** The object afterwards, the result, and the message ([None] if untouched). *)
Definition loadFromJson (filePath : str) (self : ManifestSummary) :
    ManifestSummary * bool * option str :=
  match read_file filePath with
  | inl e => (self, false, Some e)
  | inr text =>
      match parse text with
      | inl e => (self, false, Some e)
      | inr json =>
          match as_object json with
          | None => (self, false, Some ($"not an object"))
          | Some obj => (summary_of_json obj, true, None)
          end
      end
  end.

(** The result, the message, and what the file then holds if all went well. *)
Definition saveAsJson (filePath : str) (self : ManifestSummary) : bool * option str * option str :=
  match open_error filePath with
  | Some e => (false, Some e, None)
  | None =>
      if write_failed filePath then (false, Some ($"Failed to write JSON to file"), None)
      else (true, None, Some (print (summary_json self)))
  end.

Lemma load_saved s path text other :
  summary_wf s → parse (print (summary_json s)) = inr (summary_json s) →
  saveAsJson path s = (true, None, Some text) → read_file path = inr text →
  loadFromJson path other = (s, true, None).
Proof.
  intros W Hp Hs Hr. unfold saveAsJson in Hs. destruct (open_error path); [done|].
  destruct (write_failed path); [done|]. injection Hs as <-.
  unfold loadFromJson. rewrite Hr, Hp. cbn [as_object summary_json].
  by rewrite <- (summary_json_roundtrip s) at 2.
Qed.

(** A summary survives its file.  Whatever functions, missing functions and
    callbacks the statistics collected for a manifest, saving the summary and
    loading the file into any object gives that object exactly the summary, for a
    JSON library that reads back what it wrote. *)
Theorem summary_roundtrip n bs path text other :
  let s := foldl run_build (MkSummary n (∅, ∅) (∅, ∅) ∅) bs in
  parse (print (summary_json s)) = inr (summary_json s) →
  saveAsJson path s = (true, None, Some text) → read_file path = inr text →
  loadFromJson path other = (s, true, None).
Proof. intros s. apply load_saved, run_builds_wf, empty_summary_wf. Qed.

(** A failed load leaves the object as it was and reports why. *)
Lemma load_failure_unchanged path self s' m :
  loadFromJson path self = (s', false, m) → s' = self ∧ is_Some m.
Proof.
  unfold loadFromJson. destruct (read_file path) as [e|text]; [intros [= <- <-]; eauto|].
  destruct (parse text) as [e|j]; [intros [= <- <-]; eauto|].
  destruct (as_object j); [done|]. intros [= <- <-]; eauto.
Qed.

End Files.

(** ** Which alias a signature keeps *)

(** The first non-empty string of a list, or the empty one. *)
Fixpoint first_nonempty (l : list str) : str :=
  match l with
  | [] => []
  | x :: l => if x =s? [] then first_nonempty l else x
  end.

(** The aliases and origins offered for a signature, in order. *)
Fixpoint offered (f : str * str → str) (sig : str) (bs : list build) : list str :=
  match bs with
  | [] => []
  | AddCallback s org al :: bs =>
      if decide (s = sig) then f (org, al) :: offered f sig bs else offered f sig bs
  | _ :: bs => offered f sig bs
  end.

Lemma first_nonempty_snoc l x :
  first_nonempty (l ++ [x]) =
  if negb (x =s? []) && (first_nonempty l =s? []) then x else first_nonempty l.
Proof.
  induction l as [|y l IH]; cbn.
  - repeat case_bool_decide; subst; done.
  - destruct (bool_decide (y = [])) eqn:E; [exact IH|].
    apply bool_decide_eq_false in E. rewrite (bool_decide_false (y = [])) by done.
    by rewrite andb_false_r.
Qed.

Lemma offered_app f sig bs bs' : offered f sig (bs ++ bs') = offered f sig bs ++ offered f sig bs'.
Proof.
  induction bs as [|b bs IH]; [done|]. destruct b; cbn; [done|done|].
  case_decide; cbn; by rewrite IH.
Qed.

Definition mentions (sig : str) (b : build) : bool :=
  match b with AddCallback s _ _ => bool_decide (s = sig) | _ => false end.

Lemma callbacks_collected n bs sig :
  callbacks (foldl run_build (MkSummary n (∅, ∅) (∅, ∅) ∅) bs) !! sig =
  if existsb (mentions sig) bs
  then Some (MkCallbackInfo sig (first_nonempty (offered snd sig bs)) (first_nonempty (offered fst sig bs)))
  else None.
Proof.
  induction bs as [|b bs IH] using rev_ind; [done|].
  rewrite foldl_app, existsb_app, !offered_app. cbn [foldl existsb orb].
  set (s := foldl _ _ bs) in *. destruct b as [d name loc|d name|sig' org al]; cbn.
  - rewrite orb_false_r, !app_nil_r. exact IH.
  - rewrite orb_false_r, !app_nil_r. exact IH.
  - destruct (decide (sig' = sig)) as [->|Hne].
    + rewrite (bool_decide_true (sig = sig)) by done. rewrite orb_true_r, lookup_insert_eq.
      rewrite !first_nonempty_snoc. unfold callback_entry. rewrite IH.
      assert (Hnone : existsb (mentions sig) bs = false →
                      offered snd sig bs = [] ∧ offered fst sig bs = []).
      { clear. induction bs as [|b bs IH]; [done|]. cbn. intros [H1 H2]%orb_false_iff.
        destruct b; cbn in *; [auto|auto|]. apply bool_decide_eq_false in H1.
        rewrite !decide_False by done. auto. }
      destruct (existsb (mentions sig) bs); [done|].
      destruct (Hnone eq_refl) as [-> ->]. done.
    + rewrite (bool_decide_false (sig' = sig)) by done. cbn [orb].
      rewrite orb_false_r, !app_nil_r.
      rewrite lookup_insert_ne by done. exact IH.
Qed.

(** The callbacks of a summary are the signatures offered to it, each once,
    with the first alias and the first origin offered for it that were not empty,
    whatever else was added in between. *)
Theorem callback_first_wins n bs sig :
  let s := foldl run_build (MkSummary n (∅, ∅) (∅, ∅) ∅) bs in
  callbacks s !! sig =
  if existsb (mentions sig) bs
  then Some (MkCallbackInfo sig (first_nonempty (offered snd sig bs)) (first_nonempty (offered fst sig bs)))
  else None.
Proof. apply callbacks_collected. Qed.

(** ** A concrete summary *)

Definition example_builds : list build :=
  [AddFunction GuestToHost ($"SDL_CreateWindow") ($"SDL_video.h:42:1");
   AddMissing GuestToHost ($"SDL_Unmatched");
   AddCallback ($"int (*)(void *)") ($"Config[Function]:f@arg2") [];
   AddCallback ($"int (*)(void *)") ($"Config[Function]:g@arg1") ($"SDL_HitTest")].

Definition example_summary : ManifestSummary :=
  foldl run_build (MkSummary ($"manifest.cpp") (∅, ∅) (∅, ∅) ∅) example_builds.

Lemma summary_roundtrip_witness :
  loadFromJson (λ _, inr ($"text")) (λ _, inr (summary_json example_summary)) ($"f.json")
    (MkSummary [] (∅, ∅) (∅, ∅) ∅) = (example_summary, true, None).
Proof.
  exact (summary_roundtrip (λ _, inr ($"text")) (λ _, inr (summary_json example_summary))
           (λ _, $"text") (λ _, None) (λ _, false) ($"manifest.cpp") example_builds ($"f.json")
           ($"text") (MkSummary [] (∅, ∅) (∅, ∅) ∅) eq_refl eq_refl eq_refl).
Defined.
