(* ===== verification/PassScheduler.v ===== *)
(** The pass pipeline of the thunk compiler: the registration and the scheduling of
    passes in [src/libs/TLCApi/DocumentContext.cpp] and
    [include/lorelei/TLCApi/Pass.h].

    A pass is its phase, its id and its hooks, which are functions on the state [S]:
    the diagnostics engine, the document with its procs and the passes' own members.
    A [PassMessage] is passed by reference, so the hooks of a proc return the new
    one.  The keys of the proc tables do not change while the passes run, and are a
    parameter.

    The nested loops with their early returns are shown to run one flat schedule
    up to its first error: each proc's builder and then the matching guard and misc
    passes on the way in, the same tasks in reverse on the way out, and the document
    hooks last. *)

From stdpp Require Import gmap sorting.
From S2P Require Import Prelude ManifestSummary.

(** ** Passes *)

Inductive ProcKind : Type := Function_ | Callback.

#[export] Instance ProcKind_eq : EqDecision ProcKind.
Proof. solve_decision. Defined.

(** [Pass::Phase]; [NumPhases] is 3. *)
Definition Builder : nat := 0.
Definition Guard : nat := 1.
Definition Misc : nat := 2.
Definition NumPhases : nat := 3.

(** [lore::thunk::pass::PassID]. *)
Definition ID_DefaultBuilder : Z := 0.
Definition ID_printf : Z := 1.
Definition ID_vprintf : Z := 2.
Definition ID_scanf : Z := 3.
Definition ID_vscanf : Z := 4.
Definition ID_CallbackSubstituter : Z := 5.
Definition ID_TypeFilter : Z := 6.
Definition ID_GetProcAddress : Z := 7.

(** A proc of [m_procs]: its kind, direction and name. *)
Record ProcRef : Type := MkProcRef { ref_kind : ProcKind; ref_direction : Direction; ref_name : str }.

#[export] Instance ProcRef_eq : EqDecision ProcRef.
Proof. solve_decision. Defined.

Record Pass (S Msg : Type) : Type := MkPass {
  phase : nat;
  pass_id : Z;
  hook_beginProcessDocument : S → S;
  hook_handleTranslationUnit : S → S;
  hook_endProcessDocument : S → S;
  testProc : ProcRef → S → bool * option Msg * S;
  beginHandleProc : ProcRef → option Msg → S → option Msg * S;
  endHandleProc : ProcRef → option Msg → S → option Msg * S
}.
Arguments MkPass {S Msg}.
Arguments phase {S Msg}.
Arguments pass_id {S Msg}.
Arguments hook_beginProcessDocument {S Msg}.
Arguments hook_handleTranslationUnit {S Msg}.
Arguments hook_endProcessDocument {S Msg}.
Arguments testProc {S Msg}.
Arguments beginHandleProc {S Msg}.
Arguments endHandleProc {S Msg}.

(** ** Loops with early return

    The flag says that the function has returned. *)

Fixpoint for_each {A T} (body : A → T → T * bool) (l : list A) (t : T) : T * bool :=
  match l with
  | [] => (t, false)
  | x :: l =>
      let '(t, returned) := body x t in
      if returned then (t, true) else for_each body l t
  end.

Section scheduler.
Context {S Msg : Type}.
Abbreviation pass := (Pass S Msg).
Implicit Types (p : pass) (s : S) (q : ProcRef).

(** [hasErrorOccurred], and reporting that there is no default builder. *)
Variable has_error : S → bool.
Variable report : S → S.

(** ** Registration: [beginSourceFileAction] *)

(** [m_passMaps]: for each phase a map from ids to passes. *)
Abbreviation pass_maps := (list (gmap Z pass)).

Definition no_passes : pass_maps := replicate NumPhases ∅.

(** One entry of the registry; [None] is an entry that gives no pass. *)
Definition register (maps : pass_maps) (entry : option pass) : pass_maps :=
  match entry with
  | None => maps
  | Some p =>
      if length maps <=? phase p then maps
      else alter (λ m, <[pass_id p := p]> m) (phase p) maps
  end.

Definition beginSourceFileAction (entries : list (option pass)) : pass_maps :=
  foldl register no_passes entries.

(** A [std::map] iterates in the order of its keys. *)
Definition id_le (x y : Z * pass) : Prop := (x.1 ≤ y.1)%Z.

#[local] Instance id_le_dec : RelDecision id_le.
Proof. intros x y. unfold id_le. apply _. Defined.

Definition pass_map (maps : pass_maps) (ph : nat) : gmap Z pass := default ∅ (maps !! ph).
Definition passes (maps : pass_maps) (ph : nat) : list (Z * pass) :=
  merge_sort id_le (map_to_list (pass_map maps ph)).

(** ** The document hooks *)

Definition return_if_error {T} (t : T) (s : S) : T * bool := (t, has_error s).

Definition document_hooks (hook : pass → S → S) (maps : pass_maps) (s : S) : S * bool :=
  for_each (λ ph, for_each (λ entry s, let s := hook entry.2 s in return_if_error s s)
                           (passes maps ph))
    (seq Builder NumPhases) s.

(** The end of [beginProcessDocument], and [handleTranslationUnit]. *)
Definition begin_document_hooks (maps : pass_maps) (s : S) : S :=
  (document_hooks hook_beginProcessDocument maps s).1.
Definition handleTranslationUnit (maps : pass_maps) (s : S) : S :=
  (document_hooks hook_handleTranslationUnit maps s).1.

(** ** [endProcessDocument] *)

Record RunPassTask : Type := MkTask { task_proc : ProcRef; task_pass : pass; task_message : option Msg }.

(** The keys of [m_procs]. *)
Variable procs : ProcKind → Direction → list str.

Definition for_each_proc {T} (body : ProcRef → T → T * bool) : T → T * bool :=
  for_each (λ kind,
    for_each (λ direction,
      for_each (λ name, body (MkProcRef kind direction name)) (procs kind direction))
      [GuestToHost; HostToGuest])
    [Function_; Callback].

(** The state of the selection is the tasks so far and [S]. *)
Abbreviation selection := (list RunPassTask * S)%type.

Definition test_multi (q : ProcRef) (entry : Z * pass) (t : selection) : selection * bool :=
  let '(tasks, s) := t in
  let '(matched, msg, s) := testProc entry.2 q s in
  if has_error s then ((tasks, s), true)
  else ((if matched then tasks ++ [MkTask q entry.2 msg] else tasks, s), false).

Definition appendMultiMatchPassTasks (maps : pass_maps) (ph : nat) (t : selection) : selection :=
  (for_each_proc (λ q, for_each (test_multi q) (passes maps ph)) t).1.

(** The search for a builder: the flag of the loop is its [break] or its [return],
    and [Some true] says that a builder was found. *)
Fixpoint find_builder (q : ProcRef) (l : list (Z * pass)) (t : selection) : selection * option bool :=
  match l with
  | [] => (t, Some false)
  | (passID, p) :: l =>
      if (passID =? ID_DefaultBuilder)%Z then find_builder q l t
      else
        let '(tasks, s) := t in
        let '(matched, msg, s) := testProc p q s in
        if has_error s then ((tasks, s), None)
        else if matched then ((tasks ++ [MkTask q p msg], s), Some true)
        else find_builder q l (tasks, s)
  end.

Definition append_builder (maps : pass_maps) (defaultBuilder : pass) (q : ProcRef) (t : selection) :
    selection * bool :=
  match find_builder q (passes maps Builder) t with
  | (t, None) => (t, true)
  | (t, Some true) => (t, false)
  | ((tasks, s), Some false) => ((tasks ++ [MkTask q defaultBuilder None], s), false)
  end.

Definition appendBuilderPassTasks (maps : pass_maps) (t : selection) : selection :=
  match pass_map maps Builder !! ID_DefaultBuilder with
  | None => (t.1, report t.2)
  | Some defaultBuilder => (for_each_proc (append_builder maps defaultBuilder) t).1
  end.

(** The begin hooks, which may change the messages of their tasks. *)
Fixpoint run_begin (tasks : list RunPassTask) (s : S) : list RunPassTask * S * bool :=
  match tasks with
  | [] => ([], s, false)
  | task :: tasks =>
      let '(msg, s) := beginHandleProc (task_pass task) (task_proc task) (task_message task) s in
      let task := MkTask (task_proc task) (task_pass task) msg in
      if has_error s then (task :: tasks, s, true)
      else let '(tasks, s, returned) := run_begin tasks s in (task :: tasks, s, returned)
  end.

Definition end_task (task : RunPassTask) (s : S) : S * bool :=
  let s := (endHandleProc (task_pass task) (task_proc task) (task_message task) s).2 in
  return_if_error s s.

Definition endProcessDocument (maps : pass_maps) (s : S) : S :=
  let '(tasks, s) := appendBuilderPassTasks maps ([], s) in
  if has_error s then s else
  let '(tasks, s) := appendMultiMatchPassTasks maps Guard (tasks, s) in
  if has_error s then s else
  let '(tasks, s) := appendMultiMatchPassTasks maps Misc (tasks, s) in
  if has_error s then s else
  let '(tasks, s, returned) := run_begin tasks s in
  if returned then s else
  let '(s, returned) := for_each end_task (reverse tasks) s in
  if returned then s else
  (document_hooks hook_endProcessDocument maps s).1.

(** ** The schedule

    What [endProcessDocument] is meant to do, when the tests are predicates. *)

Definition all_procs : list ProcRef :=
  kind ← [Function_; Callback]; direction ← [GuestToHost; HostToGuest];
  MkProcRef kind direction <$> procs kind direction.

Definition matches (q : ProcRef) (s : S) (p : pass) : bool := (testProc p q s).1.1.
Definition task_of (q : ProcRef) (s : S) (p : pass) : RunPassTask := MkTask q p (testProc p q s).1.2.

(** The first matching builder in the order of the ids, or the default one. *)
Definition builder_task (maps : pass_maps) (defaultBuilder : pass) (s : S) (q : ProcRef) : RunPassTask :=
  match list_find (λ entry, entry.1 ≠ ID_DefaultBuilder ∧ matches q s entry.2 = true)
          (passes maps Builder) with
  | Some (_, (_, p)) => task_of q s p
  | None => MkTask q defaultBuilder None
  end.

Definition multi_tasks (maps : pass_maps) (ph : nat) (s : S) (q : ProcRef) : list RunPassTask :=
  (λ entry, task_of q s entry.2) <$> filter (λ entry, matches q s entry.2 = true) (passes maps ph).

Definition selected (maps : pass_maps) (defaultBuilder : pass) (s : S) : list RunPassTask :=
  (builder_task maps defaultBuilder s <$> all_procs) ++
  (all_procs ≫= multi_tasks maps Guard s) ++ (all_procs ≫= multi_tasks maps Misc s).

Inductive action : Type := Begin (i : nat) | End (i : nat) | Finish (p : pass).

Definition act (a : action) (t : selection) : selection :=
  let '(tasks, s) := t in
  match a with
  | Begin i =>
      match tasks !! i with
      | None => t
      | Some task =>
          let '(msg, s) := beginHandleProc (task_pass task) (task_proc task) (task_message task) s in
          (<[i := MkTask (task_proc task) (task_pass task) msg]> tasks, s)
      end
  | End i =>
      match tasks !! i with
      | None => t
      | Some task => (tasks, (endHandleProc (task_pass task) (task_proc task) (task_message task) s).2)
      end
  | Finish p => (tasks, hook_endProcessDocument p s)
  end.

(** Run actions up to the first error. *)
Fixpoint until_error (l : list action) (t : selection) : selection :=
  match l with
  | [] => t
  | a :: l => let t := act a t in if has_error t.2 then t else until_error l t
  end.

Definition document_passes (maps : pass_maps) : list pass :=
  ph ← seq Builder NumPhases; snd <$> passes maps ph.

Definition schedule (maps : pass_maps) (n : nat) : list action :=
  (Begin <$> seq 0 n) ++ (End <$> reverse (seq 0 n)) ++ (Finish <$> document_passes maps).

(** ** Loops *)

Lemma for_each_ext {A T} (body body' : A → T → T * bool) l t :
  (∀ x t, body x t = body' x t) → for_each body l t = for_each body' l t.
Proof.
  intros Hb. revert t. induction l as [|x l IH]; intros t; simpl; [done|].
  rewrite Hb. destruct (body' x t) as [t' []]; [done|]. apply IH.
Qed.

Lemma for_each_app {A T} (body : A → T → T * bool) l l' t :
  for_each body (l ++ l') t =
    (let '(t, returned) := for_each body l t in if returned then (t, true) else for_each body l' t).
Proof.
  revert t. induction l as [|x l IH]; intros t; simpl; [done|].
  destruct (body x t) as [t' []]; [done|]. apply IH.
Qed.

Lemma for_each_fmap {A B T} (body : B → T → T * bool) (f : A → B) l t :
  for_each body (f <$> l) t = for_each (λ x, body (f x)) l t.
Proof.
  revert t. induction l as [|x l IH]; intros t; simpl; [done|].
  destruct (body (f x) t) as [t' []]; [done|]. apply IH.
Qed.

Lemma for_each_bind {A B T} (body : B → T → T * bool) (f : A → list B) l t :
  for_each body (l ≫= f) t = for_each (λ x, for_each body (f x)) l t.
Proof.
  revert t. induction l as [|x l IH]; intros t; simpl; [done|].
  rewrite for_each_app. destruct (for_each body (f x) t) as [t' []]; [done|]. apply IH.
Qed.

Lemma for_each_proc_flat {T} (body : ProcRef → T → T * bool) t :
  for_each_proc body t = for_each body all_procs t.
Proof.
  unfold for_each_proc, all_procs. rewrite for_each_bind. apply for_each_ext. intros k t'.
  rewrite for_each_bind. apply for_each_ext. intros d t''. by rewrite for_each_fmap.
Qed.

Lemma document_hooks_flat hook maps s :
  document_hooks hook maps s =
    for_each (λ p s, return_if_error (hook p s) (hook p s)) (document_passes maps) s.
Proof.
  unfold document_hooks, document_passes. rewrite for_each_bind. apply for_each_ext.
  intros ph s'. rewrite for_each_fmap. by apply for_each_ext.
Qed.

(** Without an error, the hook of every pass ran; and there was no error to begin with, if
    hooks do not take errors back. *)
Lemma document_hooks_all hook maps s :
  has_error (document_hooks hook maps s).1 = false →
  (document_hooks hook maps s).1 = foldl (λ s p, hook p s) s (document_passes maps).
Proof.
  rewrite document_hooks_flat. generalize (document_passes maps). intros l. revert s.
  induction l as [|p l IH]; intros s; [done|]. cbn [for_each foldl]. unfold return_if_error.
  destruct (has_error (hook p s)) eqn:He; [|by apply IH]. cbn [fst]. by rewrite He.
Qed.

Lemma document_hooks_error hook maps s :
  (∀ p s, p ∈ document_passes maps → has_error s = true → has_error (hook p s) = true) →
  has_error (document_hooks hook maps s).1 = false → has_error s = false.
Proof.
  intros Hstay Hok. destruct (has_error s) eqn:Hs; [|done]. rewrite <- Hok. symmetry.
  rewrite document_hooks_all by done. revert Hstay Hs. clear. generalize (document_passes maps). intros l.
  revert s. induction l as [|p l IH]; intros s Hstay Hs; [done|]. cbn [foldl]. apply IH.
  - intros q s' Hq. apply Hstay. by right.
  - apply Hstay; [by left|done].
Qed.

(** ** Selection *)

(** A test that is a predicate only, as its documentation asks. *)
Definition pure (p : pass) : Prop := ∀ q s, (testProc p q s).2 = s.
Definition pure_passes (maps : pass_maps) : Prop :=
  ∀ ph k p, pass_map maps ph !! k = Some p → pure p.

Lemma passes_elem maps ph k p : (k, p) ∈ passes maps ph ↔ pass_map maps ph !! k = Some p.
Proof. unfold passes. by rewrite merge_sort_Permutation, elem_of_map_to_list. Qed.

Lemma passes_pure maps ph : pure_passes maps → Forall (λ entry, pure entry.2) (passes maps ph).
Proof.
  intros Hm. apply Forall_forall. intros [k p] Hin. apply passes_elem in Hin. by eapply Hm.
Qed.

Lemma test_eq p q s : pure p → testProc p q s = (matches q s p, (testProc p q s).1.2, s).
Proof.
  intros Hp. unfold matches. rewrite <- (Hp q s) at 4. by destruct (testProc p q s) as [[??]?].
Qed.

Lemma test_multi_all q l tasks s :
  has_error s = false → Forall (λ entry, pure entry.2) l →
  for_each (test_multi q) l (tasks, s) =
    ((tasks ++ ((λ entry, task_of q s entry.2) <$> filter (λ entry, matches q s entry.2 = true) l), s),
     false).
Proof.
  intros Hs Hl. revert tasks. induction Hl as [|[k p] l Hp _ IH]; intros tasks; simpl.
  { by rewrite app_nil_r. }
  rewrite test_eq, Hs, IH, filter_cons by done. unfold task_of. simpl.
  destruct (matches q s p); simpl; [|done].
  by rewrite <- app_assoc.
Qed.

Lemma multi_all maps ph l tasks s :
  has_error s = false → pure_passes maps →
  for_each (λ q, for_each (test_multi q) (passes maps ph)) l (tasks, s) =
    ((tasks ++ (l ≫= multi_tasks maps ph s), s), false).
Proof.
  intros Hs Hm. revert tasks. induction l as [|q l IH]; intros tasks; simpl.
  { by rewrite app_nil_r. }
  rewrite test_multi_all by auto using passes_pure. by rewrite IH, <- app_assoc.
Qed.

Lemma find_builder_spec q l tasks s :
  has_error s = false → Forall (λ entry, pure entry.2) l →
  find_builder q l (tasks, s) =
    match list_find (λ entry, entry.1 ≠ ID_DefaultBuilder ∧ matches q s entry.2 = true) l with
    | Some (_, (_, p)) => ((tasks ++ [task_of q s p], s), Some true)
    | None => ((tasks, s), Some false)
    end.
Proof.
  intros Hs. induction 1 as [|[k p] l Hp _ IH]; simpl; [done|].
  destruct (Z.eqb_spec k ID_DefaultBuilder) as [->|Hk].
  - rewrite decide_False by by intros [[] _]. rewrite IH.
    by destruct (list_find _ l) as [[? [??]]|].
  - rewrite test_eq, Hs by done. destruct (matches q s p) eqn:Hm.
    + by rewrite decide_True.
    + rewrite decide_False by (intros [_ ?]; congruence). rewrite IH.
      by destruct (list_find _ l) as [[? [??]]|].
Qed.

Lemma builder_all maps d l tasks s :
  has_error s = false → pure_passes maps →
  for_each (append_builder maps d) l (tasks, s) = ((tasks ++ (builder_task maps d s <$> l), s), false).
Proof.
  intros Hs Hm. revert tasks. induction l as [|q l IH]; intros tasks; simpl.
  { by rewrite app_nil_r. }
  unfold append_builder. rewrite find_builder_spec by auto using passes_pure. unfold builder_task at 1.
  destruct (list_find _ (passes maps Builder)) as [[? [??]]|]; by rewrite IH, <- app_assoc.
Qed.

(** ** Execution *)

Lemma until_error_app l l' t :
  has_error t.2 = false →
  until_error (l ++ l') t =
    (let t' := until_error l t in if has_error t'.2 then t' else until_error l' t').
Proof.
  revert t. induction l as [|a l IH]; intros t Ht; simpl; [by rewrite Ht|].
  destruct (has_error (act a t).2) eqn:He; [by rewrite He|]. by apply IH.
Qed.

Lemma run_begin_spec pre tasks s :
  has_error s = false →
  ∃ tasks' s', run_begin tasks s = (tasks', s', has_error s') ∧
    until_error (Begin <$> seq (length pre) (length tasks)) (pre ++ tasks, s) = (pre ++ tasks', s') ∧
    length tasks' = length tasks.
Proof.
  revert pre s. induction tasks as [|task tasks IH]; intros pre s Hs; simpl.
  { exists [], s. by rewrite Hs. }
  rewrite lookup_app_r, Nat.sub_diag by lia. simpl.
  destruct (beginHandleProc _ _ _ s) as [msg s1]. simpl.
  rewrite insert_app_r_alt, Nat.sub_diag by lia. simpl.
  set (task' := MkTask _ _ msg). destruct (has_error s1) eqn:He.
  { exists (task' :: tasks), s1. by rewrite He. }
  destruct (IH (pre ++ [task']) s1 He) as (tasks' & s' & -> & Hrun & Hlen).
  exists (task' :: tasks'), s'. split; [done|]. split; [|simpl; congruence].
  revert Hrun. rewrite length_app, <- !app_assoc. simpl. by rewrite Nat.add_1_r.
Qed.

Lemma end_spec tasks idx ts s :
  Forall2 (λ i task, tasks !! i = Some task) idx ts → has_error s = false →
  ∃ s', for_each end_task ts s = (s', has_error s') ∧
    until_error (End <$> idx) (tasks, s) = (tasks, s').
Proof.
  intros Hts. revert s. induction Hts as [|i task idx ts Hi _ IH]; intros s Hs; simpl.
  { exists s. by rewrite Hs. }
  rewrite Hi. simpl. unfold return_if_error.
  destruct (has_error (endHandleProc _ _ _ s).2) eqn:He.
  - eexists. by rewrite He.
  - by apply IH.
Qed.

Lemma finish_spec tasks ps s :
  has_error s = false →
  ∃ s', for_each (λ p s, return_if_error (hook_endProcessDocument p s) (hook_endProcessDocument p s))
          ps s = (s', has_error s') ∧
    until_error (Finish <$> ps) (tasks, s) = (tasks, s').
Proof.
  revert s. induction ps as [|p ps IH]; intros s Hs; simpl.
  { exists s. by rewrite Hs. }
  unfold return_if_error. destruct (has_error (hook_endProcessDocument p s)) eqn:He.
  - eexists. by rewrite He.
  - by apply IH.
Qed.

Lemma seq_lookups {A} (l : list A) :
  Forall2 (λ i x, l !! i = Some x) (reverse (seq 0 (length l))) (reverse l).
Proof.
  apply Forall2_reverse, Forall2_same_length_lookup. split; [by rewrite length_seq|].
  intros i j x Hj Hx. apply lookup_seq in Hj as [-> _]. done.
Qed.

Lemma endProcessDocument_schedule maps d s :
  pure_passes maps → has_error s = false →
  pass_map maps Builder !! ID_DefaultBuilder = Some d →
  let tasks := selected maps d s in
  endProcessDocument maps s = (until_error (schedule maps (length tasks)) (tasks, s)).2.
Proof.
  intros Hpred Hs Hd tasks. unfold endProcessDocument, appendBuilderPassTasks, appendMultiMatchPassTasks.
  rewrite Hd, for_each_proc_flat, builder_all by done. simpl. rewrite Hs.
  rewrite for_each_proc_flat, multi_all by done. simpl. rewrite Hs.
  rewrite for_each_proc_flat, multi_all by done. simpl. rewrite Hs.
  rewrite <- app_assoc. fold (selected maps d s). fold tasks.
  unfold schedule. rewrite until_error_app by done.
  destruct (run_begin_spec [] tasks s Hs) as (tasks' & s1 & -> & Hb & Hlen). simpl in Hb.
  rewrite Hb. simpl. destruct (has_error s1) eqn:H1; [done|].
  rewrite until_error_app by done.
  destruct (end_spec tasks' _ _ s1 (seq_lookups tasks') H1) as (s2 & -> & He).
  rewrite Hlen in He. rewrite He. simpl. destruct (has_error s2) eqn:H2; [done|].
  rewrite document_hooks_flat.
  by destruct (finish_spec tasks' (document_passes maps) s2 H2) as (s3 & -> & ->).
Qed.

(** Without an error, every action of the schedule ran. *)
Lemma until_error_all l t : has_error (until_error l t).2 = false → until_error l t = foldl (λ t a, act a t) t l.
Proof.
  revert t. induction l as [|a l IH]; intros t; [done|]. cbn [until_error foldl].
  destruct (has_error (act a t).2) eqn:He; [by rewrite He|]. apply IH.
Qed.

(** C9: when the tests are predicates, [endProcessDocument] runs exactly the schedule
    of the selected tasks, action by action, up to and including the first one that
    reports an error: the begin hooks of every proc's builder, then those of the
    guard and misc passes that match, each task's end hook in the reverse order, and
    the passes' document hooks; a message that a begin hook changes is the one its
    end hook gets. *)
Theorem schedule_refines maps d s :
  pure_passes maps → has_error s = false →
  pass_map maps Builder !! ID_DefaultBuilder = Some d →
  let tasks := selected maps d s in
  endProcessDocument maps s = (until_error (schedule maps (length tasks)) (tasks, s)).2.
Proof. apply endProcessDocument_schedule. Qed.

(** ** Registration *)

Definition has_key (ph : nat) (k : Z) (p : pass) : Prop := phase p = ph ∧ pass_id p = k.

#[local] Instance has_key_dec ph k p : Decision (has_key ph k p).
Proof. unfold has_key. apply _. Defined.

Lemma beginSourceFileAction_snoc entries entry :
  beginSourceFileAction (entries ++ [entry]) = register (beginSourceFileAction entries) entry.
Proof. apply foldl_snoc. Qed.

Lemma register_length maps entry : length (register maps entry) = length maps.
Proof. unfold register. destruct entry as [p|]; [|done]. case_match; [done|]. apply length_alter. Qed.

Lemma beginSourceFileAction_length entries : length (beginSourceFileAction entries) = NumPhases.
Proof.
  induction entries as [|entry entries IH] using rev_ind; [done|].
  by rewrite beginSourceFileAction_snoc, register_length.
Qed.

Lemma pass_map_register entries p ph :
  ph < NumPhases →
  pass_map (register (beginSourceFileAction entries) (Some p)) ph =
    (if decide (phase p = ph) then <[pass_id p := p]> (pass_map (beginSourceFileAction entries) ph)
     else pass_map (beginSourceFileAction entries) ph).
Proof.
  intros Hph. unfold register, pass_map. rewrite beginSourceFileAction_length.
  destruct (Nat.leb_spec NumPhases (phase p)); case_decide as Hp; try lia; [done| |].
  - rewrite Hp, list_lookup_alter_eq.
    destruct (lookup_lt_is_Some_2 (beginSourceFileAction entries) ph) as [m ->]; [|done].
    by rewrite beginSourceFileAction_length.
  - by rewrite list_lookup_alter_ne.
Qed.

Lemma pass_map_last entries ph k :
  ph < NumPhases →
  pass_map (beginSourceFileAction entries) ph !! k =
    last (filter (has_key ph k) (omap (λ entry, entry) entries)).
Proof.
  intros Hph. induction entries as [|entry entries IH] using rev_ind.
  { unfold beginSourceFileAction, pass_map, no_passes. simpl.
    by destruct ph as [|[|[|ph]]]. }
  rewrite beginSourceFileAction_snoc, omap_app, filter_app.
  destruct entry as [p|]; [|simpl; by rewrite app_nil_r].
  rewrite pass_map_register by done. change (omap _ [Some p]) with [p]. rewrite filter_cons, filter_nil.
  destruct (decide (phase p = ph)) as [Hp|Hp].
  - destruct (decide (pass_id p = k)) as [Hk|Hk].
    + rewrite decide_True by done. by rewrite last_snoc, Hk, lookup_insert_eq.
    + rewrite decide_False by by intros [??]. by rewrite app_nil_r, lookup_insert_ne.
  - rewrite decide_False by by intros [??]. by rewrite app_nil_r.
Qed.

(** The registry decides by its order: for each phase and id the pass in force is
    the last entry registered with them; an entry that gives no pass, or whose phase
    is out of range, changes nothing. *)
Theorem registry_last entries ph k :
  ph < NumPhases →
  pass_map (beginSourceFileAction entries) ph !! k =
    last (filter (has_key ph k) (omap (λ entry, entry) entries)).
Proof. apply pass_map_last. Qed.

(** A map of a phase holds passes of that phase, under their ids. *)
Lemma pass_map_wf entries ph k p :
  ph < NumPhases → pass_map (beginSourceFileAction entries) ph !! k = Some p → has_key ph k p.
Proof.
  intros Hph. rewrite pass_map_last by done. intros Hl.
  apply last_Some_elem_of, list_elem_of_filter in Hl. tauto.
Qed.

Lemma passes_phase entries ph :
  ph < NumPhases → Forall (λ entry, has_key ph entry.1 entry.2) (passes (beginSourceFileAction entries) ph).
Proof.
  intros Hph. apply Forall_forall. intros [k p] Hin. apply passes_elem in Hin. by eapply pass_map_wf.
Qed.

Lemma multi_tasks_elem entries ph s q t :
  ph < NumPhases →
  t ∈ multi_tasks (beginSourceFileAction entries) ph s q ↔
    ∃ p, t = task_of q s p ∧ matches q s p = true ∧ phase p = ph ∧
      pass_map (beginSourceFileAction entries) ph !! pass_id p = Some p.
Proof.
  intros Hph. unfold multi_tasks. rewrite list_elem_of_fmap. setoid_rewrite list_elem_of_filter. split.
  - intros ([k p] & -> & Hm & Hin). apply passes_elem in Hin.
    destruct (pass_map_wf _ _ _ _ Hph Hin) as [<- <-]. by exists p.
  - intros (p & -> & Hm & <- & Hin). exists (pass_id p, p). by rewrite passes_elem.
Qed.

Lemma builder_task_phase entries d s q :
  pass_map (beginSourceFileAction entries) Builder !! ID_DefaultBuilder = Some d →
  task_proc (builder_task (beginSourceFileAction entries) d s q) = q ∧
  phase (task_pass (builder_task (beginSourceFileAction entries) d s q)) = Builder.
Proof.
  intros Hd. unfold builder_task.
  destruct (list_find _ _) as [[i [k p]]|] eqn:Hf.
  - split; [done|]. apply list_find_Some in Hf as (Hi & _ & _).
    apply list_elem_of_lookup_2, passes_elem, pass_map_wf in Hi; [|unfold Builder, NumPhases; lia].
    by destruct Hi.
  - split; [done|]. apply pass_map_wf in Hd; [by destruct Hd|unfold Builder, NumPhases; lia].
Qed.

(** The tasks selected for a document are, in this order, exactly one builder for
    each proc, then the guard passes that match, then the misc passes that match; so
    whatever a builder writes in its begin hook is there when a guard or misc pass
    begins on the proc. *)
Theorem schedule_phases entries d s :
  let maps := beginSourceFileAction entries in
  pass_map maps Builder !! ID_DefaultBuilder = Some d →
  ∃ builders guards miscs,
    selected maps d s = builders ++ guards ++ miscs ∧
    task_proc <$> builders = all_procs ∧
    Forall (λ t, phase (task_pass t) = Builder) builders ∧
    (∀ t, t ∈ guards ↔ ∃ q p, q ∈ all_procs ∧ t = task_of q s p ∧ matches q s p = true ∧
       phase p = Guard ∧ pass_map maps Guard !! pass_id p = Some p) ∧
    (∀ t, t ∈ miscs ↔ ∃ q p, q ∈ all_procs ∧ t = task_of q s p ∧ matches q s p = true ∧
       phase p = Misc ∧ pass_map maps Misc !! pass_id p = Some p).
Proof.
  intros maps Hd. eexists _, _, _. split; [done|].
  assert (∀ ph, ph < NumPhases → ∀ t, t ∈ all_procs ≫= multi_tasks maps ph s ↔
    ∃ q p, q ∈ all_procs ∧ t = task_of q s p ∧ matches q s p = true ∧
       phase p = ph ∧ pass_map maps ph !! pass_id p = Some p) as Hmulti.
  { intros ph Hph t. unfold maps. rewrite list_elem_of_bind. setoid_rewrite (multi_tasks_elem entries ph); [|done].
    split.
    - intros (q & (p & -> & H) & Hq). exists q, p. by split.
    - intros (q & p & Hq & -> & H). exists q. split; [|done]. by exists p. }
  split; [|split; [|split; apply Hmulti; unfold Guard, Misc, NumPhases; lia]].
  - rewrite <- list_fmap_compose. rewrite <- (list_fmap_id all_procs) at 2.
    apply list_fmap_ext. intros i q _. by apply builder_task_phase.
  - apply Forall_fmap, Forall_true. intros q. by apply builder_task_phase.
Qed.

(** The passes in force are entries of the registry. *)
Lemma entries_pass entries ph k p :
  pass_map (beginSourceFileAction entries) ph !! k = Some p → p ∈ omap (λ entry, entry) entries.
Proof.
  intros Hp. destruct (decide (ph < NumPhases)) as [Hph|Hph].
  - rewrite pass_map_last in Hp by done. by apply last_Some_elem_of, list_elem_of_filter in Hp as [_ Hin].
  - unfold pass_map in Hp. rewrite lookup_ge_None_2 in Hp; [done|]. rewrite beginSourceFileAction_length. lia.
Qed.

Lemma entries_pure entries : Forall pure (omap (λ entry, entry) entries) → pure_passes (beginSourceFileAction entries).
Proof. intros Hall ph k p Hp%entries_pass. rewrite Forall_forall in Hall. by apply Hall. Qed.

Lemma document_passes_elem maps p : p ∈ document_passes maps → ∃ ph k, pass_map maps ph !! k = Some p.
Proof.
  unfold document_passes. intros (ph & Hp & _)%list_elem_of_bind.
  apply list_elem_of_fmap in Hp as ([k p'] & -> & Hin). exists ph, k. by apply passes_elem.
Qed.
End scheduler.

(** ** An example pipeline

    The state is the trace of the hooks; a trace that holds ["error"] has an error. *)

Definition trace_pass (ph : nat) (k : Z) (who : str) (test : str → bool) : Pass (list str) str :=
  MkPass ph k id id (λ s, s ++ [$"finish " ++ who])
    (λ q s, (test (ref_name q), Some who, s))
    (λ q msg s, ((λ m, m ++ $"!") <$> msg, s ++ [$"begin " ++ who ++ $" " ++ ref_name q]))
    (λ q msg s, (msg, s ++ [$"end " ++ default who msg ++ $" " ++ ref_name q])).

Definition trace_error (s : list str) : bool := bool_decide ($"error" ∈ s).
Definition trace_report (s : list str) : list str := s ++ [$"error"].

Definition trace_entries : list (option (Pass (list str) str)) :=
  [Some (trace_pass Guard ID_TypeFilter ($"filter") (λ _, true));
   None;
   Some (trace_pass Builder ID_printf ($"old printf") (λ _, true));
   Some (trace_pass Builder ID_DefaultBuilder ($"default") (λ _, true));
   Some (trace_pass Builder ID_printf ($"printf") (λ n, n =s? $"printf"));
   Some (trace_pass 7 ID_printf ($"out of range") (λ _, true));
   Some (trace_pass Misc ID_GetProcAddress ($"gpa") (λ n, n =s? $"glGetProcAddress"))].

Definition trace_procs (k : ProcKind) (d : Direction) : list str :=
  match k, d with
  | Function_, GuestToHost => [$"glGetProcAddress"; $"printf"]
  | _, _ => []
  end.

Definition trace_maps : list (gmap Z (Pass (list str) str)) := beginSourceFileAction trace_entries.

Lemma trace_maps_pure : pure_passes trace_maps.
Proof. apply entries_pure. by repeat constructor. Qed.

Lemma schedule_refines_witness :
  endProcessDocument trace_error trace_report trace_procs trace_maps [] =
    [$"begin default glGetProcAddress"; $"begin printf printf";
     $"begin filter glGetProcAddress"; $"begin filter printf"; $"begin gpa glGetProcAddress";
     $"end gpa! glGetProcAddress"; $"end filter! printf"; $"end filter! glGetProcAddress";
     $"end printf! printf"; $"end default glGetProcAddress";
     $"finish default"; $"finish printf"; $"finish filter"; $"finish gpa"].
Proof.
  etransitivity.
  - apply (schedule_refines trace_error trace_report trace_procs trace_maps
      (trace_pass Builder ID_DefaultBuilder ($"default") (λ _, true)) []).
    + exact trace_maps_pure.
    + reflexivity.
    + vm_compute. reflexivity.
  - vm_compute. reflexivity.
Defined.

Lemma registry_last_witness :
  ∃ p, pass_map trace_maps Builder !! ID_printf = Some p ∧
    (testProc p (MkProcRef Function_ GuestToHost ($"puts")) []).1.1 = false.
Proof.
  eexists. split.
  - etransitivity; [apply (registry_last trace_entries Builder ID_printf); unfold Builder, NumPhases; lia|].
    reflexivity.
  - reflexivity.
Defined.

Lemma schedule_phases_witness :
  ∃ builders guards miscs,
    selected trace_procs trace_maps (trace_pass Builder ID_DefaultBuilder ($"default") (λ _, true)) [] =
      builders ++ guards ++ miscs ∧
    task_proc <$> builders = all_procs trace_procs.
Proof.
  edestruct (schedule_phases trace_procs trace_entries
    (trace_pass Builder ID_DefaultBuilder ($"default") (λ _, true)) []) as (bs & gs & ms & Heq & Hp & _).
  - vm_compute. reflexivity.
  - exists bs, gs, ms. exact (conj Heq Hp).
Defined.
