(* ===== verification/ClangExtras.v ===== *)
(** What the thunk compiler uses of Clang, and its helpers on top:
    [include/lorelei/ClangExtras/SourceLineList.h], [FunctionTypeView.h],
    [src/libs/ClangExtras/FunctionInfo.cpp] and [TypeUtils.cpp].

    Clang's types and declarations are the class [Clang]: what the code asks of them.
    The instance [c_clang], the types of C with their spelling, is the one the
    examples use. *)

From stdpp Require Import gmap.
From S2P Require Import Prelude CppString StringExtras.

(** ** Source lines: [SourceLineList.h] *)

Record Line : Type := MkLine { line_id : str; line_text : str }.

Definition push_back (lines : list Line) (line : Line) : list Line :=
  match line_text line with [] => lines | _ => lines ++ [line] end.
Definition push_front (lines : list Line) (line : Line) : list Line :=
  match line_text line with [] => lines | _ => line :: lines end.

Definition append_line (result : str) (line : Line) : str :=
  let result := result ++ line_text line in
  match line_text line with
  | [] => result
  | _ => if ends_with_char (line_text line) c_nl then result else result ++ [c_nl]
  end.
Definition toRawText (lines : list Line) : str := foldl append_line [] lines.

(** ** Clang *)

(** What an argument of a template specialization is, with its accessor's result:
    a declaration that may be a function, or an expression that may be null. *)
Inductive TemplateArgument (T F E : Type) : Type :=
  | TA_Type (t : T)
  | TA_Integral (value : Z)
  | TA_Declaration (fd : option F)
  | TA_Expression (e : option E)
  | TA_Other.
Arguments TA_Type {T F E}.
Arguments TA_Integral {T F E}.
Arguments TA_Declaration {T F E}.
Arguments TA_Expression {T F E}.
Arguments TA_Other {T F E}.

(** A member declaration of a class: a typedef or alias with its underlying type, a
    variable with its initializer and that of the member it was instantiated from, or
    anything else. *)
Inductive Member (T E : Type) : Type :=
  | M_Typedef (name : str) (underlying : T)
  | M_Var (static_member : bool) (name : str) (type : T) (init : option E)
      (instantiated_from : option (option E))
  | M_Other.
Arguments M_Typedef {T E}.
Arguments M_Var {T E}.
Arguments M_Other {T E}.

(** A class declaration: its name, its members and, for a template specialization,
    whether it is an explicit one and its arguments. *)
Record ClassDecl (T F E : Type) : Type := MkClassDecl {
  class_name : str;
  class_members : list (Member T E);
  class_spec : option (bool * list (TemplateArgument T F E))
}.
Arguments MkClassDecl {T F E}.
Arguments class_name {T F E}.
Arguments class_members {T F E}.
Arguments class_spec {T F E}.

Class Clang : Type := {
  (** Types that are not null. *)
  QualType : Type;
  getAsString : QualType → str;
  getCanonicalType : QualType → QualType;
  getPointerType : QualType → QualType;
  VoidTy : QualType;
  isVoidType : QualType → bool;
  isArrayType : QualType → bool;
  isFunctionType : QualType → bool;
  isFunctionPointerType : QualType → bool;
  (** [isPointerType] and [getPointeeType]; types are finite. *)
  pointee : QualType → option QualType;
  pointee_rank : QualType → nat;
  pointee_decreases t t' : pointee t = Some t' → pointee_rank t' < pointee_rank t;
  (** A function type's result, parameters and [isVariadic]; no parameters without a
      prototype. *)
  function_type : QualType → option (QualType * list QualType * bool);
  isCharType : QualType → bool;
  (** [AdjustedType]'s original type; a [TypedefType]'s declaration: whether it is the
      built-in [va_list], its name and the type it stands for. *)
  adjusted_original : QualType → option QualType;
  typedef_decl : QualType → option (bool * str * QualType);
  typedef_rank : QualType → nat;
  typedef_decreases t builtin name t' :
    typedef_decl t = Some (builtin, name, t') → typedef_rank t' < typedef_rank t;

  (** Expressions. *)
  Expr : Type;
  IgnoreParenImpCasts : Expr → Expr;
  FunctionDecl : Type;
  (** A reference, to a declaration that may be a function; the operand of [&]. *)
  declRef : Expr → option (option FunctionDecl);
  addrOf : Expr → option Expr;
  EvaluateAsInt : Expr → option Z;

  (** Declarations: the computed linkage, the enclosing linkage specification (whether
      it is C's), and whether the unit is C++. *)
  fn_name : FunctionDecl → str;
  fn_type : FunctionDecl → QualType;
  fn_params : FunctionDecl → list (QualType * str);
  fn_result : FunctionDecl → QualType;
  fn_variadic : FunctionDecl → bool;
  fn_CLanguageLinkage : FunctionDecl → bool;
  fn_linkage_spec : FunctionDecl → option bool;
  (** The [format] attribute: its archetype and indexes; the parameters' types as they
      are written. *)
  fn_format : FunctionDecl → option (str * Z * Z);
  fn_original_types : FunctionDecl → list QualType;
  CPlusPlus : bool;
  getAsCXXRecordDecl : QualType → option (ClassDecl QualType FunctionDecl Expr)
}.

Section types.
Context `{Clang}.

(** ** Types: [TypeUtils.cpp] and [FunctionTypeView.h] *)

Definition getTypeString (t : QualType) : run str :=
  let res := getAsString t in
  res ← replace res ($"struct __va_list_tag[1]") ($"va_list");
  res ← replace res ($"struct __va_list_tag *") ($"va_list");
  res ← replace res ($"struct std::__va_list") ($"va_list");
  replace res ($"struct __va_list") ($"va_list").

(** The loop through the pointers; the fuel is the type's own depth. *)
Fixpoint isCompound_loop (fuel : nat) (t : QualType) : run bool :=
  match pointee t with
  | None => Done (isArrayType t || isFunctionType t)
  | Some t' => match fuel with 0 => NoFuel | S fuel => isCompound_loop fuel t' end
  end.
Definition isCompound (t : QualType) : run bool := isCompound_loop (pointee_rank t) t.

Definition getTypeStringDecompound (t : QualType) : run str :=
  compound ← isCompound t;
  s ← getTypeString t;
  Done (if compound : bool then $"__typeof__(" ++ s ++ $")" else s).

(** [isVaListType]: the chain of typedefs, after undoing a parameter's adjustment. *)
Definition is_va_list_name (name : str) : bool :=
  (name =s? $"va_list") || (name =s? $"__builtin_va_list") || (name =s? $"__gnuc_va_list")
  || (name =s? $"__va_list").

Fixpoint isVaListType_loop (fuel : nat) (t : QualType) : run bool :=
  match typedef_decl t with
  | None => Done false
  | Some (builtin, name, t') =>
      if builtin || is_va_list_name name then Done true
      else match fuel with 0 => NoFuel | S fuel => isVaListType_loop fuel t' end
  end.

Definition isVaListType (t : QualType) : run bool :=
  let t := default t (adjusted_original t) in
  isVaListType_loop (typedef_rank t) t.

Definition getTypeStringWithName (t : QualType) (name : str) : run str :=
  s ← getTypeStringDecompound t;
  Done ((if ends_with s ($"*") then s else s ++ $" ") ++ name).

Record FunctionTypeView : Type := MkView {
  view_returnType : option QualType;
  view_argTypes : list QualType;
  view_variadic : bool
}.

(** The [assert] that the type is a function's is a no-op in a release build. *)
Definition functionTypeView (t : QualType) : FunctionTypeView :=
  let t := getCanonicalType t in
  let t := if isFunctionPointerType t then default t (pointee t) else t in
  match function_type t with
  | Some (ret, args, variadic) => MkView (Some ret) args variadic
  | None => MkView None [] false
  end.

(** ** [FunctionInfo] *)

(** [None] is a null type. *)
Record FunctionInfo : Type := MkInfo {
  returnType : option QualType;
  arguments : list (option QualType * str);
  metaArgTypes : gmap str str;
  metaRetType : str;
  isVariadic : bool
}.

Definition info_empty : FunctionInfo := MkInfo None [] ∅ [] false.

Definition info_of_decl (fd : FunctionDecl) : FunctionInfo :=
  MkInfo (Some (fn_result fd)) (prod_map Some id <$> fn_params fd) ∅ [] (fn_variadic fd).

Definition info_of_view (v : FunctionTypeView) : FunctionInfo :=
  MkInfo (view_returnType v)
    (imap (λ i t, (Some t, $"arg" ++ dec (i + 1))) (view_argTypes v)) ∅ [] (view_variadic v).

(** The changes that passes make to a signature. *)
Definition setReturnType (t : option QualType) (info : FunctionInfo) : FunctionInfo :=
  MkInfo t (arguments info) (metaArgTypes info) (metaRetType info) (isVariadic info).
Definition setArguments (args : list (option QualType * str)) (info : FunctionInfo) : FunctionInfo :=
  MkInfo (returnType info) args (metaArgTypes info) (metaRetType info) (isVariadic info).
Definition setMetaArgumentType (name type : str) (info : FunctionInfo) : FunctionInfo :=
  MkInfo (returnType info) (arguments info) (<[name := type]> (metaArgTypes info)) (metaRetType info) (isVariadic info).
Definition setMetaRetType (type : str) (info : FunctionInfo) : FunctionInfo :=
  MkInfo (returnType info) (arguments info) (metaArgTypes info) type (isVariadic info).
Definition setVariadic (variadic : bool) (info : FunctionInfo) : FunctionInfo :=
  MkInfo (returnType info) (arguments info) (metaArgTypes info) (metaRetType info) variadic.
Definition argumentType (info : FunctionInfo) (i : nat) : run (option QualType) := defined (fst <$> arguments info !! i).
Definition metaArgumentType (info : FunctionInfo) (name : str) : str := default [] (metaArgTypes info !! name).

(** A null type without a meta spelling is dereferenced. *)
Definition getArgDecl (info : FunctionInfo) (arg : option QualType * str) : run str :=
  match arg.1 with
  | None =>
      match metaArgTypes info !! arg.2 with
      | Some spelling => Done (spelling ++ $" " ++ arg.2)
      | None => Undef
      end
  | Some t => getTypeStringWithName t arg.2
  end.

Fixpoint arg_decls (info : FunctionInfo) (decl : str) (args : list (option QualType * str)) : run str :=
  match args with
  | [] => Done decl
  | arg :: args => d ← getArgDecl info arg; arg_decls info (decl ++ $", " ++ d) args
  end.

(** An argument without a type is declared with the spelling that was set for its name. *)
Lemma getArgDecl_meta info name type :
  getArgDecl (setMetaArgumentType name type info) (None, name)
  = Done (metaArgumentType (setMetaArgumentType name type info) name ++ $" " ++ name).
Proof. unfold getArgDecl, metaArgumentType. cbn. by rewrite lookup_insert_eq. Qed.

Definition declText (info : FunctionInfo) (name : str) : run str :=
  ret ← match returnType info with
        | None => Done (metaRetType info)
        | Some t => getTypeStringDecompound t
        end;
  let decl := ret ++ $" " ++ name ++ $"(" in
  decl ← match arguments info with
         | [] => Done decl
         | arg :: args => d ← getArgDecl info arg; arg_decls info (decl ++ d) args
         end;
  let decl :=
    if isVariadic info then
      (match arguments info with [] => decl | _ => decl ++ $", " end) ++ $"..."
    else decl in
  Done (decl ++ $")").

(** ** Types print *)

Lemma getTypeString_total t : ∃ s, getTypeString t = Done s.
Proof.
  unfold getTypeString.
  destruct (replace_total (getAsString t) ($"struct __va_list_tag[1]") ($"va_list")) as [s1 ->]; [done|].
  cbn [mbind run_bind].
  destruct (replace_total s1 ($"struct __va_list_tag *") ($"va_list")) as [s2 ->]; [done|].
  cbn [mbind run_bind].
  destruct (replace_total s2 ($"struct std::__va_list") ($"va_list")) as [s3 ->]; [done|].
  cbn [mbind run_bind]. by apply replace_total.
Qed.

Lemma isCompound_loop_total fuel t : pointee_rank t ≤ fuel → ∃ b, isCompound_loop fuel t = Done b.
Proof.
  revert t. induction fuel as [|fuel IH]; intros t Ht; simpl;
    (destruct (pointee t) as [t'|] eqn:Hp; [|by eexists]); apply pointee_decreases in Hp.
  - lia.
  - apply IH. lia.
Qed.

Lemma isVaListType_loop_total fuel t : typedef_rank t ≤ fuel → ∃ b, isVaListType_loop fuel t = Done b.
Proof.
  revert t. induction fuel as [|fuel IH]; intros t Ht; simpl;
    (destruct (typedef_decl t) as [[[builtin name] t']|] eqn:Hd; [|by eexists]);
    (destruct (builtin || is_va_list_name name); [by eexists|]); apply typedef_decreases in Hd.
  - lia.
  - apply IH. lia.
Qed.

Lemma isVaListType_total t : ∃ b, isVaListType t = Done b.
Proof. by apply isVaListType_loop_total. Qed.

Lemma getTypeStringDecompound_total t : ∃ s, getTypeStringDecompound t = Done s.
Proof.
  unfold getTypeStringDecompound, isCompound.
  destruct (isCompound_loop_total _ t (Nat.le_refl _)) as [b ->].
  destruct (getTypeString_total t) as [s Hs]. cbn [mbind run_bind]. rewrite Hs. by eexists.
Qed.

Lemma getTypeStringWithName_total t name : ∃ s, getTypeStringWithName t name = Done s.
Proof.
  unfold getTypeStringWithName. destruct (getTypeStringDecompound_total t) as [s ->]. by eexists.
Qed.

(** Every argument has a type or a meta spelling. *)
Definition info_wf (info : FunctionInfo) : Prop :=
  Forall (λ arg, arg.1 = None → is_Some (metaArgTypes info !! arg.2)) (arguments info).

Lemma getArgDecl_total info arg :
  (arg.1 = None → is_Some (metaArgTypes info !! arg.2)) → ∃ s, getArgDecl info arg = Done s.
Proof.
  intros Harg. unfold getArgDecl. destruct (arg.1) as [t|].
  - apply getTypeStringWithName_total.
  - destruct Harg as [s ->]; [done|]. by eexists.
Qed.

Lemma arg_decls_total info args decl :
  Forall (λ arg, arg.1 = None → is_Some (metaArgTypes info !! arg.2)) args →
  ∃ s, arg_decls info decl args = Done s.
Proof.
  intros Hargs. revert decl. induction Hargs as [|arg args Harg _ IH]; intros decl; simpl; [by eexists|].
  destruct (getArgDecl_total info arg Harg) as [s ->]. apply IH.
Qed.

Lemma declText_total info name : info_wf info → ∃ s, declText info name = Done s.
Proof.
  intros Hwf. unfold declText.
  assert (∃ ret, match returnType info with
                 | None => Done (metaRetType info)
                 | Some t => getTypeStringDecompound t
                 end = Done ret) as [ret ->].
  { destruct (returnType info); [apply getTypeStringDecompound_total|by eexists]. }
  cbn [mbind run_bind]. unfold info_wf in Hwf. destruct (arguments info) as [|arg args]; [by eexists|].
  apply Forall_cons in Hwf as [Harg Hargs].
  destruct (getArgDecl_total info arg Harg) as [s ->]. cbn [mbind run_bind].
  destruct (arg_decls_total info args ((ret ++ $" " ++ name ++ $"(") ++ s) Hargs) as [s' ->].
  cbn [mbind run_bind]. by eexists.
Qed.

Lemma info_of_decl_wf fd : info_wf (info_of_decl fd).
Proof. apply Forall_fmap, Forall_true. by intros [t n]. Qed.
End types.

(** ** An example: the types of C *)

Inductive CType : Type :=
  | CT_name (s : str)
  | CT_pointer (t : CType)
  | CT_array (t : CType) (n : nat)
  | CT_function (ret : CType) (args : list CType) (variadic : bool)
  | CT_pass (k : Z)
  | CT_passes (ks : list Z)
  | CT_struct (name : str).

(** A type's spelling around a declarator. *)
Fixpoint c_spell (t : CType) (declarator : str) : str :=
  match t with
  | CT_name s => s ++ (match declarator with [] => [] | _ => $" " ++ declarator end)
  | CT_pointer (CT_function _ _ _ as t) => c_spell t ($"(*" ++ declarator ++ $")")
  | CT_pointer t => c_spell t ($"*" ++ declarator)
  | CT_array t n => c_spell t (declarator ++ $"[" ++ dec n ++ $"]")
  | CT_function ret args variadic =>
      c_spell ret (declarator ++ $"(" ++ join ((λ t, c_spell t []) <$> args) ($", ")
                   ++ (if variadic then $", ..." else []) ++ $")")
  | CT_pass _ => $"pass"
  | CT_passes _ => $"PassTagList"
  | CT_struct name => $"struct " ++ name ++ (match declarator with [] => [] | _ => $" " ++ declarator end)
  end.

Record CFunction : Type := MkCFunction {
  c_name : str;
  c_ret : CType;
  c_params : list (CType * str);
  c_c : bool;
  c_variadic : bool;
  c_format : option (str * Z * Z)
}.

Inductive CExpr : Type := CE_function (f : CFunction) | CE_addr (e : CExpr) | CE_int (k : Z).

Fixpoint c_rank (t : CType) : nat :=
  match t with CT_pointer t | CT_array t _ => S (c_rank t) | _ => 0 end.

Definition c_pointee (t : CType) : option CType := match t with CT_pointer t => Some t | _ => None end.

Lemma c_pointee_decreases t t' : c_pointee t = Some t' → c_rank t' < c_rank t.
Proof. destruct t; intros [=->]. simpl. lia. Qed.

(** The one typedef is the built-in [va_list]. *)
Definition c_typedef (t : CType) : option (bool * str * CType) :=
  match t with
  | CT_name s => if s =s? $"va_list" then Some (true, $"va_list", CT_pass 0) else None
  | _ => None
  end.
Definition c_typedef_rank (t : CType) : nat := match t with CT_name _ => 1 | _ => 0 end.

Lemma c_typedef_decreases t builtin name t' :
  c_typedef t = Some (builtin, name, t') → c_typedef_rank t' < c_typedef_rank t.
Proof. destruct t; simpl; try done. case_bool_decide; [|done]. intros [= _ _ <-]. simpl. lia. Qed.

Definition c_clang_of (cxx : bool) : Clang := {|
    QualType := CType;
    getAsString := λ t, c_spell t [];
    getCanonicalType := λ t, t;
    getPointerType := CT_pointer;
    VoidTy := CT_name ($"void");
    isVoidType := λ t, match t with CT_name s => s =s? $"void" | _ => false end;
    isArrayType := λ t, match t with CT_array _ _ => true | _ => false end;
    isFunctionType := λ t, match t with CT_function _ _ _ => true | _ => false end;
    isFunctionPointerType := λ t, match t with CT_pointer (CT_function _ _ _) => true | _ => false end;
    pointee := c_pointee;
    pointee_rank := c_rank;
    pointee_decreases := c_pointee_decreases;
    function_type := λ t, match t with CT_function r a v => Some (r, a, v) | _ => None end;
    isCharType := λ t, match t with CT_name s => s =s? $"char" | _ => false end;
    adjusted_original := λ _, None;
    typedef_decl := c_typedef;
    typedef_rank := c_typedef_rank;
    typedef_decreases := c_typedef_decreases;
    Expr := CExpr;
    IgnoreParenImpCasts := λ e, e;
    FunctionDecl := CFunction;
    declRef := λ e, match e with CE_function f => Some (Some f) | _ => None end;
    addrOf := λ e, match e with CE_addr e => Some e | _ => None end;
    EvaluateAsInt := λ e, match e with CE_int k => Some k | _ => None end;
    fn_name := c_name;
    fn_type := λ f, CT_function (c_ret f) (fst <$> c_params f) (c_variadic f);
    fn_params := c_params;
    fn_result := c_ret;
    fn_variadic := c_variadic;
    fn_CLanguageLinkage := c_c;
    fn_linkage_spec := λ _, None;
    fn_format := c_format;
    fn_original_types := λ f, fst <$> c_params f;
    CPlusPlus := cxx;
    getAsCXXRecordDecl := λ t,
      match t with
      | CT_pass k => Some (MkClassDecl ($"tag") [M_Var true ($"ID") (CT_name ($"int")) (Some (CE_int k)) None] None)
      | CT_passes ks =>
          Some (MkClassDecl ($"PassTagList") [] (Some (false, (λ k, TA_Type (CT_pass k)) <$> ks)))
      | _ => None
      end
|}.
#[export] Instance c_clang : Clang := c_clang_of true.

Definition c_int : CType := CT_name ($"int").
Definition c_double : CType := CT_name ($"double").
Definition c_foo : CFunction := MkCFunction ($"foo") c_int [(c_int, $"a"); (c_double, $"b")] true false None.
Definition c_callback : CType := CT_pointer (CT_function c_int [c_int; c_double] false).
