(* ===== verification/Document.v ===== *)
(** The document of the thunk compiler's [generate] command:
    [src/libs/TLCApi/DocumentContext.cpp] (all but its scheduling, which is
    [PassScheduler]) and [src/libs/TLCApi/ProcSnippet.cpp].

    The matcher's results are a list of [Node]s, one for each bound declaration.
    The theorems say which of the requested procs get generated and that the rest are
    reported, in the document's own output; and what that output needs of its
    inputs. *)

From stdpp Require Import gmap sorting.
From S2P Require Import Prelude CppString StringExtras FsPath ManifestSummary PassScheduler ClangExtras.

Section document.
Context `{Clang}.
Definition Spec : Type := ClassDecl QualType FunctionDecl Expr.

(** ** Procs: [ProcSnippet] *)

Inductive ProcPhase : Type := Entry | Adapt | Caller.

Record PassInfo : Type := MkPassInfo { info_id : Z; info_type : QualType }.

Record Desc : Type := MkDesc {
  overlayType : option QualType;
  builderPass : option PassInfo;
  desc_passes : list PassInfo
}.

Record FunctionBodySource : Type := MkBody {
  prolog : list Line;
  forward : list Line;
  center : list Line;
  backward : list Line;
  epilog : list Line
}.

Record ProcSource : Type := MkSource {
  functionInfo : FunctionInfo;
  source_head : list Line;
  body : FunctionBodySource;
  source_tail : list Line
}.

Definition source_empty : ProcSource := MkSource info_empty [] (MkBody [] [] [] [] []) [].

(** An array indexed by a phase. *)
Record by_phase (A : Type) : Type := MkByPhase { at_entry : A; at_adapt : A; at_caller : A }.
#[global] Arguments MkByPhase {A}.
#[global] Arguments at_entry {A}.
#[global] Arguments at_adapt {A}.
#[global] Arguments at_caller {A}.

Definition at_phase {A} (a : by_phase A) (ph : ProcPhase) : A :=
  match ph with Entry => at_entry a | Adapt => at_adapt a | Caller => at_caller a end.
Definition set_phase {A} (a : by_phase A) (ph : ProcPhase) (x : A) : by_phase A :=
  match ph with
  | Entry => MkByPhase x (at_adapt a) (at_caller a)
  | Adapt => MkByPhase (at_entry a) x (at_caller a)
  | Caller => MkByPhase (at_entry a) (at_adapt a) x
  end.

(** [proc_definition] is the manifest's own definition of each phase. *)
Record ProcSnippet : Type := MkProc {
  proc_kind : ProcKind;
  proc_direction : Direction;
  proc_functionDecl : option FunctionDecl;
  proc_functionPointerType : option QualType;
  proc_desc : option Desc;
  proc_definition : by_phase (option Spec);
  proc_name : str;
  proc_realType : option QualType;
  proc_view : FunctionTypeView;
  proc_source : by_phase ProcSource
}.

Definition realFunctionPointerType (desc : option Desc) (t : QualType) : QualType :=
  match desc with
  | Some d => default t (overlayType d)
  | None => t
  end.

(** The constructors with [initialize]. *)
Definition function_proc (d : Direction) (fd : FunctionDecl) (nameHint : str) (desc : option Desc)
    (defs : by_phase (option Spec)) : ProcSnippet :=
  let t := getPointerType (getCanonicalType (fn_type fd)) in
  let real := realFunctionPointerType desc t in
  MkProc Function_ d (Some fd) (Some t) desc defs
    (match nameHint with [] => fn_name fd | _ => nameHint end)
    (Some real) (functionTypeView real) (MkByPhase source_empty source_empty source_empty).

Definition callback_proc (d : Direction) (t : QualType) (nameHint : str) (desc : option Desc)
    (defs : by_phase (option Spec)) : ProcSnippet :=
  let real := realFunctionPointerType desc t in
  MkProc Callback d None (Some t) desc defs
    (match nameHint with [] => default [] ((λ d, d.1.2) <$> typedef_decl t) | _ => nameHint end)
    (Some real) (functionTypeView real) (MkByPhase source_empty source_empty source_empty).

Definition direction_name (d : Direction) : str :=
  match d with GuestToHost => $"GuestToHost" | HostToGuest => $"HostToGuest" end.
Definition phase_name (ph : ProcPhase) : str :=
  match ph with Entry => $"Entry" | Adapt => $"Adapt" | Caller => $"Caller" end.

(** [ProcSnippet::text]; a source no builder has filled has no text. *)
Definition proc_text (proc : ProcSnippet) (ph : ProcPhase) (hasDecl : bool) : run str :=
  let src := at_phase (proc_source proc) ph in
  match returnType (functionInfo src) with
  | None => Done []
  | Some _ =>
      let procTemplateName := match proc_kind proc with Function_ => $"ProcFn" | Callback => $"ProcCb" end in
      let procName := match proc_kind proc with
                      | Function_ => $"::" ++ proc_name proc
                      | Callback => proc_name proc
                      end in
      let args := procName ++ $", " ++ direction_name (proc_direction proc) ++ $", " ++ phase_name ph in
      if hasDecl then
        decl ← declText (functionInfo src) ($"invoke");
        Done ($"template <>" ++ [c_nl] ++ $"struct " ++ procTemplateName ++ $"<" ++ args ++ $"> {" ++ [c_nl]
              ++ $"    _PROC " ++ decl ++ $";" ++ [c_nl] ++ $"};" ++ [c_nl])
      else
        decl ← declText (functionInfo src)
                 (procTemplateName ++ $"<" ++ args ++ $">::" ++ [c_nl] ++ $"invoke");
        Done (toRawText (source_head src) ++ decl ++ $" {" ++ [c_nl]
              ++ $"    // prolog" ++ [c_nl] ++ toRawText (prolog (body src))
              ++ $"    // forward" ++ [c_nl] ++ toRawText (forward (body src))
              ++ $"    // center" ++ [c_nl] ++ toRawText (center (body src))
              ++ $"    // backward" ++ [c_nl] ++ toRawText (backward (body src))
              ++ $"    // epilog" ++ [c_nl] ++ toRawText (epilog (body src))
              ++ $"}" ++ [c_nl] ++ toRawText (source_tail src))
  end.

(** ** Reading the manifest's declarations *)

(** [names::BridgeNamespacePrefix]; the qualified name is searched for it. *)
Definition BridgeNamespacePrefix : str := $"lore::thunk::__bridge__::".
Definition isBridgeNamespaceDecl (qualifiedName : str) : bool :=
  contains qualifiedName BridgeNamespacePrefix.

(** [isCLinkage] of [DeclUtils.h]. *)
Definition isCLinkage (cLanguageLinkage : bool) (linkage_spec : option bool) : bool :=
  cLanguageLinkage ||
  match linkage_spec with
  | Some is_c => is_c
  | None => negb CPlusPlus
  end.

Abbreviation Arg := (TemplateArgument QualType FunctionDecl Expr).

Definition extractFunctionDeclFromTemplateArg (arg : Arg) : option FunctionDecl :=
  match arg with
  | TA_Declaration fd => fd
  | TA_Expression (Some expr) =>
      let expr := IgnoreParenImpCasts expr in
      match declRef expr with
      | Some fd => fd
      | None =>
          match addrOf expr with
          | Some sub => default None (declRef (IgnoreParenImpCasts sub))
          | None => None
          end
      end
  | _ => None
  end.

(** [static_cast<int>] of the 64-bit value. *)
Definition evalStaticPassID (init : option Expr) (pattern : option (option Expr)) : option Z :=
  let initExpr := match init with Some e => Some e | None => default None pattern end in
  value ← initExpr ≫= EvaluateAsInt;
  Some (wraps 32 value).

Fixpoint find_pass_id (members : list (Member QualType Expr)) : option Z :=
  match members with
  | [] => None
  | M_Var true name _ init pattern :: members =>
      if name =s? $"ID" then
        match evalStaticPassID init pattern with
        | Some k => Some k
        | None => find_pass_id members
        end
      else find_pass_id members
  | _ :: members => find_pass_id members
  end.

Definition extractPassIDFromType (t : QualType) : option Z :=
  decl ← getAsCXXRecordDecl (getCanonicalType t);
  find_pass_id (class_members decl).

Definition append_pass (out : list PassInfo) (arg : Arg) : list PassInfo :=
  match arg with
  | TA_Type t =>
      let passType := getCanonicalType t in
      match extractPassIDFromType passType with
      | Some k => out ++ [MkPassInfo k passType]
      | None => out
      end
  | _ => out
  end.

Definition appendPassTypesFromPassListType (listType : QualType) (out : list PassInfo) : list PassInfo :=
  match getAsCXXRecordDecl (getCanonicalType listType) with
  | None => out
  | Some decl =>
      if negb (class_name decl =s? $"PassTagList") then out
      else match class_spec decl with
           | None => out
           | Some (_, args) => foldl append_pass out args
           end
  end.

Definition function_to_pointer (t : QualType) : QualType :=
  if isFunctionType t then getPointerType t else t.

Fixpoint extractOverlayType (members : list (Member QualType Expr)) : option QualType :=
  match members with
  | [] => None
  | M_Typedef name underlying :: members =>
      if name =s? $"overlay_type" then
        let t := getCanonicalType (function_to_pointer (getCanonicalType underlying)) in
        if isFunctionPointerType t then Some t else None
      else extractOverlayType members
  | _ :: members => extractOverlayType members
  end.

Definition desc_member (desc : Desc) (m : Member QualType Expr) : Desc :=
  match m with
  | M_Var true name type _ _ =>
      if name =s? $"builder_pass" then
        let builderType := getCanonicalType type in
        match extractPassIDFromType builderType with
        | Some k => MkDesc (overlayType desc) (Some (MkPassInfo k builderType)) (desc_passes desc)
        | None => desc
        end
      else if name =s? $"passes" then
        MkDesc (overlayType desc) (builderPass desc)
          (appendPassTypesFromPassListType type (desc_passes desc))
      else desc
  | _ => desc
  end.

Definition extractProcDesc (decl : Spec) : Desc :=
  foldl desc_member (MkDesc (extractOverlayType (class_members decl)) None []) (class_members decl).

Definition extractDirectionArg (arg : Arg) : option Direction :=
  match arg with
  | TA_Integral value =>
      if (value =? 0)%Z then Some GuestToHost else if (value =? 1)%Z then Some HostToGuest else None
  | _ => None
  end.

Definition extractPhaseArg (arg : Arg) : option ProcPhase :=
  match arg with
  | TA_Integral value =>
      if (value =? 0)%Z then Some Entry else if (value =? 1)%Z then Some Adapt
      else if (value =? 2)%Z then Some Caller else None
  | _ => None
  end.

(** ** Collection: [beginProcessDocument] *)

(** A match of the finder: the declaration it binds. *)
Inductive Node : Type :=
  | N_functionDecl (fd : FunctionDecl)
  | N_procFnTemplateDecl
  | N_typedefDecl (qualifiedName name : str) (underlying : QualType)
  | N_typeAliasDecl (qualifiedName name : str) (underlying : QualType)
  | N_procFnDescDecl (decl : Spec)
  | N_procCbDescDecl (decl : Spec)
  | N_procFnDecl (decl : Spec)
  | N_procCbDefl (decl : Spec)
  | N_other.

(** The maps that the match callback fills; [varByName] is not consumed. *)
Abbreviation phase_maps := (by_phase (gmap str Spec)).

Record Collected : Type := MkCollected {
  procFnTemplateDecl : bool;
  namedCallbackBySignature : gmap str (QualType * str);
  functionByName : gmap str FunctionDecl;
  functionDescByName : gmap str Desc;
  callbackDescBySignature : gmap str Desc;
  procFnDeclByName : phase_maps * phase_maps;
  procCbDeclBySignature : phase_maps * phase_maps
}.

Definition no_phase_maps : phase_maps * phase_maps := (MkByPhase ∅ ∅ ∅, MkByPhase ∅ ∅ ∅).
Definition collected_empty : Collected := MkCollected false ∅ ∅ ∅ ∅ no_phase_maps no_phase_maps.

Definition insert_definition (maps : phase_maps * phase_maps) (d : Direction) (ph : ProcPhase)
    (key : str) (decl : Spec) : phase_maps * phase_maps :=
  set_dir maps d (set_phase (at_dir maps d) ph (<[key := decl]> (at_phase (at_dir maps d) ph))).

(** A typedef or alias in the bridge namespace names a callback type. *)
Definition match_alias (c : Collected) (qualifiedName name : str) (underlying : QualType) : run Collected :=
  if negb (isBridgeNamespaceDecl qualifiedName) then Done c else
  let t := getCanonicalType underlying in
  if negb (isFunctionPointerType t) then Done c else
  sig ← getTypeString t;
  Done (MkCollected (procFnTemplateDecl c) (<[sig := (t, name)]> (namedCallbackBySignature c))
         (functionByName c) (functionDescByName c) (callbackDescBySignature c)
         (procFnDeclByName c) (procCbDeclBySignature c)).

(** The arguments of an explicit specialization with the expected number of them. *)
Definition explicit_args (decl : Spec) (n : nat) : option (list Arg) :=
  match class_spec decl with
  | Some (true, args) => if length args =? n then Some args else None
  | _ => None
  end.

(** The function pointer type a callback's specialization is for. *)
Definition callback_arg (arg : Arg) : option QualType :=
  match arg with
  | TA_Type t =>
      let t := function_to_pointer (getCanonicalType t) in
      if isFunctionPointerType t then Some t else None
  | _ => None
  end.

Definition matchCallback (c : Collected) (n : Node) : run Collected :=
  match n with
  | N_functionDecl fd =>
      if negb (isCLinkage (fn_CLanguageLinkage fd) (fn_linkage_spec fd)) then Done c
      else Done (MkCollected (procFnTemplateDecl c) (namedCallbackBySignature c)
                  (<[fn_name fd := fd]> (functionByName c)) (functionDescByName c)
                  (callbackDescBySignature c) (procFnDeclByName c) (procCbDeclBySignature c))
  | N_procFnTemplateDecl =>
      Done (MkCollected true (namedCallbackBySignature c) (functionByName c) (functionDescByName c)
             (callbackDescBySignature c) (procFnDeclByName c) (procCbDeclBySignature c))
  | N_typedefDecl qualifiedName name underlying => match_alias c qualifiedName name underlying
  | N_typeAliasDecl qualifiedName name underlying => match_alias c qualifiedName name underlying
  | N_procFnDescDecl decl =>
      match explicit_args decl 1 with
      | Some [arg] =>
          match extractFunctionDeclFromTemplateArg arg with
          | None => Done c
          | Some fd =>
              Done (MkCollected (procFnTemplateDecl c) (namedCallbackBySignature c) (functionByName c)
                     (<[fn_name fd := extractProcDesc decl]> (functionDescByName c))
                     (callbackDescBySignature c) (procFnDeclByName c) (procCbDeclBySignature c))
          end
      | _ => Done c
      end
  | N_procCbDescDecl decl =>
      match explicit_args decl 1 with
      | Some [arg] =>
          match callback_arg arg with
          | None => Done c
          | Some t =>
              sig ← getTypeString t;
              Done (MkCollected (procFnTemplateDecl c) (namedCallbackBySignature c) (functionByName c)
                     (functionDescByName c) (<[sig := extractProcDesc decl]> (callbackDescBySignature c))
                     (procFnDeclByName c) (procCbDeclBySignature c))
          end
      | _ => Done c
      end
  | N_procFnDecl decl =>
      match explicit_args decl 3 with
      | Some [arg0; arg1; arg2] =>
          match extractFunctionDeclFromTemplateArg arg0, extractDirectionArg arg1, extractPhaseArg arg2 with
          | Some fd, Some d, Some ph =>
              Done (MkCollected (procFnTemplateDecl c) (namedCallbackBySignature c) (functionByName c)
                     (functionDescByName c) (callbackDescBySignature c)
                     (insert_definition (procFnDeclByName c) d ph (fn_name fd) decl)
                     (procCbDeclBySignature c))
          | _, _, _ => Done c
          end
      | _ => Done c
      end
  | N_procCbDefl decl =>
      match explicit_args decl 3 with
      | Some [arg0; arg1; arg2] =>
          match callback_arg arg0, extractDirectionArg arg1, extractPhaseArg arg2 with
          | Some t, Some d, Some ph =>
              sig ← getTypeString t;
              Done (MkCollected (procFnTemplateDecl c) (namedCallbackBySignature c) (functionByName c)
                     (functionDescByName c) (callbackDescBySignature c) (procFnDeclByName c)
                     (insert_definition (procCbDeclBySignature c) d ph sig decl))
          | _, _, _ => Done c
          end
      | _ => Done c
      end
  | N_other => Done c
  end.

Fixpoint matchAST (c : Collected) (nodes : list Node) : run Collected :=
  match nodes with
  | [] => Done c
  | n :: nodes => c ← matchCallback c n; matchAST c nodes
  end.

(** *** The document *)

Inductive Mode : Type := Guest | Host.

Record DocumentContext : Type := MkDocument {
  m_mode : Mode;
  m_preIncludeFileName : str;
  m_mainFileName : str;
  requested_functions : gset str * gset str;
  requested_callbacks : gmap str str;
  m_functionDecls : gmap str FunctionDecl * gmap str FunctionDecl;
  m_callbackTypes : gmap str (QualType * str);
  m_source_head : list Line;
  m_source_tail : list Line;
  function_procs : gmap str ProcSnippet * gmap str ProcSnippet;
  callback_procs : gmap str ProcSnippet * gmap str ProcSnippet
}.

Definition initialize (mode : Mode) (preInclude mainFile : str) (functions : gset str * gset str)
    (cbs : gmap str str) : DocumentContext :=
  MkDocument mode preInclude mainFile functions cbs (∅, ∅) ∅ [] [] (∅, ∅) (∅, ∅).

(** The filter: functions that are requested, and callbacks by signature or by the
    name the manifest gives them. *)
Definition filter_functions (requested : gset str) (m : gmap str FunctionDecl) : gmap str FunctionDecl :=
  filter (λ p, p.1 ∈ requested) m.

Definition callback_requested (requested : gmap str str) (sig name : str) : bool :=
  bool_decide (is_Some (requested !! sig)) ||
  (negb (name =s? []) && existsb (λ entry, entry.2 =s? name) (map_to_list requested)).

Definition filter_callbacks (requested : gmap str str) (m : gmap str (QualType * str)) :
    gmap str (QualType * str) :=
  filter (λ p, callback_requested requested p.1 p.2.2 = true) m.

Definition definitions (maps : phase_maps) (key : str) : by_phase (option Spec) :=
  MkByPhase (at_entry maps !! key) (at_adapt maps !! key) (at_caller maps !! key).

Definition make_function_procs (c : Collected) (d : Direction) (decls : gmap str FunctionDecl) :
    gmap str ProcSnippet :=
  map_imap (λ name fd, Some (function_proc d fd name (functionDescByName c !! name)
                               (definitions (at_dir (procFnDeclByName c) d) name))) decls.

(** [emplace] keeps the first proc of a key. *)
Definition emplace {A} (key : str) (x : A) (m : gmap str A) : gmap str A :=
  match m !! key with Some _ => m | None => <[key := x]> m end.

Definition callback_key (sig name : str) : str := match name with [] => sig | _ => name end.

Definition add_callback_proc (c : Collected) (d : Direction) (m : gmap str ProcSnippet)
    (entry : str * (QualType * str)) : gmap str ProcSnippet :=
  let '(sig, (t, name)) := entry in
  emplace (callback_key sig name)
    (callback_proc d t name (callbackDescBySignature c !! sig)
       (definitions (at_dir (procCbDeclBySignature c) d) sig)) m.

Definition make_callback_procs (c : Collected) (d : Direction) (types : gmap str (QualType * str)) :
    gmap str ProcSnippet :=
  foldl (add_callback_proc c d) ∅ (entries types).

(** What makes [initialize] of the alias maker fail; it works on Clang's templates. *)
Variable alias_maker_error : option str.

(** [beginProcessDocument] up to the hooks, with the error it reports. *)
Definition beginProcessDocument (nodes : list Node) (doc : DocumentContext) :
    run (DocumentContext * option str) :=
  c ← matchAST collected_empty nodes;
  if negb (procFnTemplateDecl c) then Done (doc, Some ($"ProcFn template declaration not found")) else
  match alias_maker_error with
  | Some err => Done (doc, Some err)
  | None =>
      let decls := (filter_functions (requested_functions doc).1 (functionByName c),
                    filter_functions (requested_functions doc).2 (functionByName c)) in
      let types := filter_callbacks (requested_callbacks doc) (namedCallbackBySignature c) in
      Done (MkDocument (m_mode doc) (m_preIncludeFileName doc) (m_mainFileName doc)
              (requested_functions doc) (requested_callbacks doc) decls types
              (m_source_head doc) (m_source_tail doc)
              (make_function_procs c GuestToHost decls.1, make_function_procs c HostToGuest decls.2)
              (make_callback_procs c GuestToHost types, make_callback_procs c HostToGuest types), None)
  end.

(** ** Output: [generateOutput] *)

Definition procs_of (doc : DocumentContext) (k : ProcKind) (d : Direction) : gmap str ProcSnippet :=
  at_dir (match k with Function_ => function_procs doc | Callback => callback_procs doc end) d.

(** The order in which a map's procs are visited. *)
Definition procs_in (doc : DocumentContext) (k : ProcKind) (d : Direction) : list ProcSnippet :=
  snd <$> entries (procs_of doc k d).

(** [eqCount] is computed in [size_t] and converted to [int], and the count of
    [std::string] is that [int] converted back; a count above [max_size] throws, which
    nothing catches. *)
Definition eqCount (n : nat) : Z := wraps 32 (wrapu 64 (75 - Z.of_nat n) / 2).
Definition string_max_size : Z := 2 ^ 63 - 1.
Definition repeated (count : Z) (c : ascii) : run str :=
  let n := wrapu 64 count in
  if (n <=? string_max_size)%Z then Done (replicate (Z.to_nat n) c) else Undef.

Definition legendLine (name : str) : run str :=
  bar ← repeated (eqCount (length name)) "="%char;
  Done ($"// " ++ bar ++ $" " ++ name ++ $" " ++ bar).

Definition endl : str := [c_nl].

(** Run a printer on each element, in order. *)
Fixpoint print_all {A} (print : A → run str) (l : list A) : run str :=
  match l with
  | [] => Done []
  | x :: l => s ← print x; rest ← print_all print l; Done (s ++ rest)
  end.

Definition quoted (s : str) : str := c_dquote :: s ++ [c_dquote].

Definition emitManifestPrologue (doc : DocumentContext) : str :=
  $"#define LORE_THUNK_BUILD" ++ endl ++ endl
  ++ $"#include <lorelei/ThunkInterface/Detail/Callback.h>" ++ endl
  ++ $"#include <lorelei/ThunkInterface/Detail/Variadic.h>" ++ endl ++ endl
  ++ $"#include " ++ quoted (filename (m_preIncludeFileName doc)) ++ endl ++ endl.

(** The alias maker's answer for a direction and a phase: a mangled name or an error. *)
Variable getInvokeAlias : str → str → FunctionDecl → option QualType → str + str.

Definition export_symbol (mode : Mode) (name : str) : str :=
  match mode with Host => $"GTL_" ++ name | Guest => name end.

Definition export_direction (mode : Mode) : Direction :=
  match mode with Host => HostToGuest | Guest => GuestToHost end.

(** The text so far and the error that stopped the loop; a function proc always has
    its declaration. *)
Fixpoint export_procs (mode : Mode) (out : str) (procs : list ProcSnippet) : run (str * option str) :=
  match procs with
  | [] => Done (out, None)
  | proc :: procs =>
      fd ← defined (proc_functionDecl proc);
      match getInvokeAlias (direction_name (export_direction mode)) ($"Entry") fd
              (d ← proc_desc proc; overlayType d) with
      | inr err => Done (out, Some err)
      | inl alias =>
          decl ← declText (info_of_decl fd) (export_symbol mode (proc_name proc));
          export_procs mode
            (out ++ $"LORE_DECL_EXPORT " ++ decl ++ endl
             ++ $"    __attribute__((alias(" ++ quoted alias ++ $")));" ++ endl) procs
      end
  end.

Definition emitExportedAliases (doc : DocumentContext) : run (str * option str) :=
  let out :=
    $"extern " ++ quoted ($"C") ++ $" {" ++ endl
    ++ $"#pragma GCC diagnostic push" ++ endl
    ++ $"#pragma GCC diagnostic ignored " ++ quoted ($"-Wattribute-alias") ++ endl in
  r ← export_procs (m_mode doc) out (procs_in doc Function_ (export_direction (m_mode doc)));
  match r with
  | (out, Some err) => Done (out, Some err)
  | (out, None) => Done (out ++ $"#pragma GCC diagnostic pop" ++ endl ++ $"}" ++ endl ++ endl, None)
  end.

(** A line of a macro that goes on. *)
Definition macro_line (s : str) : str := [" "%char; c_backslash] ++ endl ++ $"    " ++ s.

Definition foreach_macro (name : str) (lines : list str) : str :=
  $"#define " ++ name ++ concat (macro_line <$> lines) ++ endl ++ endl.

Definition callback_type_string (proc : ProcSnippet) : run str :=
  t ← defined (proc_functionPointerType proc); getTypeString t.

Definition emitForeachMacros (doc : DocumentContext) : run str :=
  let call (proc : ProcSnippet) := $"F(" ++ proc_name proc ++ $")" in
  let callbacks := procs_in doc Callback GuestToHost in
  usings ← print_all (λ proc, t ← callback_type_string proc;
                        Done ($"using " ++ proc_name proc ++ $" = " ++ t ++ $";" ++ endl)) callbacks;
  lines ← print_all (λ proc, t ← callback_type_string proc;
                       Done (macro_line ($"F(" ++ proc_name proc ++ $", " ++ quoted t ++ $")"))) callbacks;
  Done (foreach_macro ($"LORE_THUNK_FUNCTION_G2H_FOREACH(F)") (call <$> procs_in doc Function_ GuestToHost)
        ++ foreach_macro ($"LORE_THUNK_FUNCTION_H2G_FOREACH(F)") (call <$> procs_in doc Function_ HostToGuest)
        ++ $"namespace lore::thunk {" ++ endl ++ endl ++ usings ++ endl ++ $"}" ++ endl ++ endl
        ++ $"#define LORE_THUNK_CALLBACK_FOREACH(F)" ++ lines ++ endl ++ endl).

(** The phases the manifest does not define itself. *)
Definition emit_phase (asDeclaration : bool) (proc : ProcSnippet) (ph : ProcPhase) : run str :=
  match at_phase (proc_definition proc) ph with
  | Some _ => Done []
  | None => t ← proc_text proc ph asDeclaration; Done (t ++ endl)
  end.

Definition emit_proc (asDeclaration : bool) (proc : ProcSnippet) : run str :=
  legend ← legendLine (proc_name proc);
  texts ← print_all (emit_phase asDeclaration proc) [Caller; Adapt; Entry];
  Done (legend ++ endl ++ texts).

Definition all_proc_snippets (doc : DocumentContext) : list ProcSnippet :=
  kind ← [Function_; Callback]; direction ← [GuestToHost; HostToGuest]; procs_in doc kind direction.

Definition emitProcTexts (doc : DocumentContext) (asDeclaration : bool) : run str :=
  print_all (emit_proc asDeclaration) (all_proc_snippets doc).

(** The requested functions that were not found. *)
Definition missing (doc : DocumentContext) (d : Direction) : list str :=
  filter (λ name, at_dir (m_functionDecls doc) d !! name = None)
    (set_entries (at_dir (requested_functions doc) d)).

Definition missing_section (title : str) (names : list str) : str :=
  $"//" ++ endl ++ $"// " ++ title ++ endl ++ $"//" ++ endl
  ++ concat ((λ name, $"// " ++ name ++ endl) <$> names) ++ endl.

Definition emitMissingComments (doc : DocumentContext) : str :=
  missing_section ($"Missing Function Declarations") (missing doc GuestToHost)
  ++ missing_section ($"Missing Guest Function Declarations") (missing doc HostToGuest)
  ++ missing_section ($"Missing Variable Declarations") [].

Definition generateOutput (doc : DocumentContext) : run (str * option str) :=
  let out := emitManifestPrologue doc in
  r ← emitExportedAliases doc;
  match r with
  | (aliases, Some err) => Done (out ++ aliases, Some err)
  | (aliases, None) =>
      macros ← emitForeachMacros doc;
      decls ← emitProcTexts doc true;
      defs ← emitProcTexts doc false;
      Done (out ++ aliases ++ toRawText (m_source_head doc) ++ endl ++ macros
            ++ $"namespace lore::thunk {" ++ endl ++ endl ++ decls ++ $"}" ++ endl ++ endl
            ++ $"#include " ++ quoted (filename (m_mainFileName doc)) ++ endl ++ endl
            ++ $"namespace lore::thunk {" ++ endl ++ endl ++ defs ++ $"}" ++ endl ++ endl
            ++ toRawText (m_source_tail doc) ++ endl ++ emitMissingComments doc
            ++ $"#include <lorelei/ThunkInterface/Detail/ProcImpl.cpp.inc>" ++ endl ++ endl, None)
  end.

(** ** Collection is total and keeps what it finds *)

Definition function_node (n : Node) (name : str) (fd : FunctionDecl) : Prop :=
  n = N_functionDecl fd ∧ fn_name fd = name ∧
  isCLinkage (fn_CLanguageLinkage fd) (fn_linkage_spec fd) = true.

(** Go through the cases of a match that returns a collection. *)
Ltac collect :=
  repeat match goal with
    | |- context [getTypeString ?t] =>
        let s := fresh "s" in let E := fresh "E" in
        destruct (getTypeString_total t) as [s E]; rewrite E; cbn [mbind run_bind]
    | _ => break_goal
    end; eexists; split; reflexivity.

Lemma matchCallback_other c n :
  (∀ fd, n ≠ N_functionDecl fd) →
  ∃ c', matchCallback c n = Done c' ∧ functionByName c' = functionByName c.
Proof.
  intros Hn. unfold matchCallback, match_alias.
  destruct n as [fd| |q nm t|q nm t|decl|decl|decl|decl|]; [by destruct (Hn fd)|..]; collect.
Qed.

(** What a match does to the functions found so far. *)
Lemma matchCallback_functions c n :
  ∃ c', matchCallback c n = Done c' ∧
    (functionByName c' = functionByName c ∧ (∀ name fd, ¬ function_node n name fd) ∨
     ∃ name fd, function_node n name fd ∧ functionByName c' = <[name := fd]> (functionByName c)).
Proof.
  assert ((∃ fd, n = N_functionDecl fd) ∨ ∀ fd, n ≠ N_functionDecl fd) as [[fd ->]|Hn].
  { destruct n; eauto. }
  - unfold matchCallback. destruct (isCLinkage _ _) eqn:Hl; simpl; eexists; (split; [done|]).
    + right. exists (fn_name fd), fd. by split_and!.
    + left. split; [done|]. intros name fd' (Heq & _ & Hl'). injection Heq as <-. congruence.
  - destruct (matchCallback_other c n Hn) as (c' & Hc & Hf). exists c'. split; [done|]. left.
    split; [done|]. intros name fd (-> & _). by destruct (Hn fd).
Qed.

(** The functions a list of matches leaves: the last declaration of each name. *)
Definition found (nodes : list Node) (name : str) (fd : FunctionDecl) : Prop :=
  ∃ l r n, nodes = l ++ n :: r ∧ function_node n name fd ∧
    ∀ n' fd', n' ∈ r → ¬ function_node n' name fd'.

Lemma matchAST_functions c nodes :
  ∃ c', matchAST c nodes = Done c' ∧
    ∀ name, (∃ fd, functionByName c' !! name = Some fd ∧ found nodes name fd) ∨
            (functionByName c' !! name = functionByName c !! name ∧
             ∀ n fd, n ∈ nodes → ¬ function_node n name fd).
Proof.
  revert c. induction nodes as [|n nodes IH]; intros c; simpl.
  { exists c. split; [done|]. intros name. right. split; [done|]. intros n fd Hn.
    by apply not_elem_of_nil in Hn. }
  destruct (matchCallback_functions c n) as (c1 & -> & Hn). cbn [mbind run_bind].
  destruct (IH c1) as (c2 & -> & Hc2). exists c2. split; [done|]. intros name.
  destruct (Hc2 name) as [(fd & Hfd & l & r & n' & -> & Hn' & Hr)|[Heq Hno]].
  { left. exists fd. split; [done|]. by exists (n :: l), r, n'. }
  rewrite Heq. destruct Hn as [[-> Hn]|(name' & fd & Hn & ->)].
  - right. split; [done|]. intros n' fd [->|Hin]%elem_of_cons; [apply Hn|by apply Hno].
  - destruct (decide (name' = name)) as [->|Hne].
    + left. exists fd. rewrite lookup_insert_eq. split; [done|]. by exists [], nodes, n.
    + right. rewrite lookup_insert_ne by done. split; [done|].
      intros n' fd' [->|Hin]%elem_of_cons; [|by apply Hno].
      intros (-> & Hf' & _). destruct Hn as (Heq' & Hf & _). congruence.
Qed.

(** ** The tables *)

Lemma entries_elem {A} (m : gmap str A) k x : (k, x) ∈ entries m ↔ m !! k = Some x.
Proof. unfold entries. by rewrite merge_sort_Permutation, elem_of_map_to_list. Qed.

Lemma set_entries_elem (m : gset str) k : k ∈ set_entries m ↔ k ∈ m.
Proof.
  unfold set_entries. rewrite merge_sort_Permutation, <- list_fmap_compose.
  rewrite (list_fmap_ext _ id) by done. by rewrite list_fmap_id, elem_of_elements.
Qed.

Lemma make_function_procs_lookup c d decls name :
  make_function_procs c d decls !! name =
    ((λ fd, function_proc d fd name (functionDescByName c !! name)
              (definitions (at_dir (procFnDeclByName c) d) name)) <$> decls !! name).
Proof. unfold make_function_procs. rewrite map_lookup_imap. by destruct (decls !! name). Qed.

Lemma filter_functions_lookup requested m name fd :
  filter_functions requested m !! name = Some fd ↔ m !! name = Some fd ∧ name ∈ requested.
Proof. unfold filter_functions. apply map_lookup_filter_Some. Qed.

Lemma missing_elem doc d name :
  name ∈ missing doc d ↔
    name ∈ at_dir (requested_functions doc) d ∧ at_dir (m_functionDecls doc) d !! name = None.
Proof. unfold missing. rewrite list_elem_of_filter, set_entries_elem. split; intros [??]; by split. Qed.

(** Collecting a translation unit always ends, with an error or with a document in
    which every requested function is either generated, from the last declaration of
    that name with C linkage, or in the list of missing declarations that the output
    ends with, and never both; nothing else is generated. *)
Theorem collect_functions nodes doc :
  ∃ doc' e, beginProcessDocument nodes doc = Done (doc', e) ∧
    (e = None → ∀ d name,
       (∀ proc, procs_of doc' Function_ d !! name = Some proc →
          name ∈ at_dir (requested_functions doc) d ∧ proc_name proc = name ∧
          ∃ fd, proc_functionDecl proc = Some fd ∧ found nodes name fd) ∧
       (name ∈ at_dir (requested_functions doc) d →
          is_Some (procs_of doc' Function_ d !! name) ∧ name ∉ missing doc' d ∨
          procs_of doc' Function_ d !! name = None ∧ name ∈ missing doc' d ∧
          ∀ n fd, n ∈ nodes → ¬ function_node n name fd)).
Proof.
  unfold beginProcessDocument.
  destruct (matchAST_functions collected_empty nodes) as (c & -> & Hc). cbn [mbind run_bind].
  unfold collected_empty in Hc. cbn [functionByName] in Hc.
  destruct (procFnTemplateDecl c); simpl; [|by eexists _, _].
  destruct alias_maker_error as [err|]; [by eexists _, _|].
  eexists _, _. split; [done|]. intros _ d name.
  set (doc' := MkDocument _ _ _ _ _ _ _ _ _ _ _).
  assert (at_dir (m_functionDecls doc') d =
    filter_functions (at_dir (requested_functions doc) d) (functionByName c)) as Hdecls by by destruct d.
  assert (procs_of doc' Function_ d = make_function_procs c d
    (filter_functions (at_dir (requested_functions doc) d) (functionByName c))) as Hprocs by by destruct d.
  assert (at_dir (requested_functions doc') d = at_dir (requested_functions doc) d) as Hreq by done.
  rewrite missing_elem, Hdecls, Hprocs, Hreq, make_function_procs_lookup. clearbody doc'. split.
  - intros proc Hp. apply fmap_Some in Hp as (fd & [Hfd Hin]%filter_functions_lookup & ->).
    split; [done|]. destruct (Hc name) as [(fd' & Hfd' & Hfound)|[Heq _]]; [|by rewrite Heq, lookup_empty in Hfd].
    simplify_eq. simpl. split; [|by exists fd].
    destruct name as [|ch name]; [|done].
    destruct Hfound as (l & r & n & _ & (_ & Hname & _) & _). done.
  - intros Hin. destruct (Hc name) as [(fd & Hfd & _)|[Heq Hno]].
    + left. assert (filter_functions (at_dir (requested_functions doc) d) (functionByName c) !! name = Some fd)
        as -> by by apply filter_functions_lookup.
      split; [by eexists|]. by intros [_ ?].
    + right. rewrite lookup_empty in Heq.
      assert (filter_functions (at_dir (requested_functions doc) d) (functionByName c) !! name = None) as ->.
      { apply map_lookup_filter_None. by left. }
      done.
Qed.

(** ** The output's bounds *)

Lemma eqCount_small n : n ≤ 75 → eqCount n = ((75 - Z.of_nat n) / 2)%Z.
Proof.
  intros Hn. unfold eqCount. rewrite wrapu_id by lia. apply wraps_id; [lia|].
  assert (0 ≤ (75 - Z.of_nat n) / 2 ≤ 75)%Z; [|lia].
  split; [apply Z.div_pos; lia|]. apply Z.div_le_upper_bound; lia.
Qed.

Lemma eqCount_large n :
  75 < n → (Z.of_nat n < 2 ^ 31)%Z → (eqCount n = (75 - Z.of_nat n) / 2 ∧ - 2 ^ 30 ≤ eqCount n < 0)%Z.
Proof.
  intros Hn Hmax. set (k := ((75 - Z.of_nat n) / 2)%Z).
  assert (- 2 ^ 30 ≤ k < 0)%Z as Hk.
  { unfold k. split; [apply Z.div_le_lower_bound; lia|apply Z.div_lt_upper_bound; lia]. }
  enough (eqCount n = k) as -> by done. unfold eqCount, wrapu.
  replace ((75 - Z.of_nat n) mod 2 ^ 64)%Z with (2 ^ 63 * 2 + (75 - Z.of_nat n))%Z.
  2: { apply (Z.mod_unique _ _ (-1)); lia. }
  rewrite Z.div_add_l by lia. fold k. unfold wraps.
  replace ((2 ^ 63 + k + 2 ^ (32 - 1)) mod 2 ^ 32)%Z with (k + 2 ^ 31)%Z; [lia|].
  apply (Z.mod_unique _ _ (2 ^ 31)); lia.
Qed.

Lemma legend_short name : length name ≤ 75 → ∃ s, legendLine name = Done s.
Proof.
  intros Hn. unfold legendLine, repeated. rewrite eqCount_small by done.
  assert (0 ≤ (75 - Z.of_nat (length name)) / 2 ≤ 75)%Z.
  { split; [apply Z.div_pos; lia|]. apply Z.div_le_upper_bound; lia. }
  rewrite wrapu_id, (proj2 (Z.leb_le _ _)) by (unfold string_max_size; lia). by eexists.
Qed.

Lemma legend_long name :
  75 < length name → (Z.of_nat (length name) < 2 ^ 31)%Z → legendLine name = Undef.
Proof.
  intros Hn Hmax. destruct (eqCount_large _ Hn Hmax) as [_ Hk].
  unfold legendLine, repeated, wrapu, string_max_size.
  replace (eqCount (length name) mod 2 ^ 64)%Z with (2 ^ 64 + eqCount (length name))%Z.
  2: { apply (Z.mod_unique _ _ (-1)); lia. }
  by rewrite (proj2 (Z.leb_gt _ _)) by lia.
Qed.

Lemma print_all_total {A} (print : A → run str) l :
  Forall (λ x, ∃ s, print x = Done s) l → ∃ s, print_all print l = Done s.
Proof.
  induction 1 as [|x l [s Hs] _ [rest IH]]; simpl; [by eexists|]. rewrite Hs, IH. by eexists.
Qed.

Lemma print_all_Undef {A} (print : A → run str) l x :
  x ∈ l → print x = Undef → ∀ s, print_all print l ≠ Done s.
Proof.
  intros Hx Hu. induction Hx as [x l|x y l Hx IH]; intros s; simpl.
  - by rewrite Hu.
  - destruct (print y); [|done..]. simpl. destruct (print_all print l) as [rest| |] eqn:E; [|done..].
    by destruct (IH Hu rest).
Qed.

(** What the output needs of a proc, its name apart: what its kind says it was built
    from, and spelled arguments. *)
Definition proc_ok (proc : ProcSnippet) : Prop :=
  is_Some (proc_functionPointerType proc) ∧
  (proc_kind proc = Function_ → is_Some (proc_functionDecl proc)) ∧
  ∀ ph, info_wf (functionInfo (at_phase (proc_source proc) ph)).

Definition document_ok (doc : DocumentContext) : Prop :=
  ∀ k d key proc, procs_of doc k d !! key = Some proc → proc_kind proc = k ∧ proc_ok proc.

Lemma procs_in_elem doc k d proc :
  proc ∈ procs_in doc k d ↔ ∃ key, procs_of doc k d !! key = Some proc.
Proof.
  unfold procs_in. rewrite list_elem_of_fmap. split.
  - intros ([key ?] & -> & Hin). exists key. by apply entries_elem.
  - intros [key Hk]. exists (key, proc). by rewrite entries_elem.
Qed.

Lemma all_proc_snippets_elem doc proc :
  proc ∈ all_proc_snippets doc ↔ ∃ k d, proc ∈ procs_in doc k d.
Proof.
  unfold all_proc_snippets. rewrite list_elem_of_bind. setoid_rewrite list_elem_of_bind. split.
  - intros (k & (d & Hp & _) & _). by exists k, d.
  - intros (k & d & Hp). exists k. split; [|destruct k; set_solver].
    exists d. split; [done|]. destruct d; set_solver.
Qed.

Lemma proc_text_total proc ph b : proc_ok proc → ∃ s, proc_text proc ph b = Done s.
Proof.
  intros (_ & _ & Hwf). unfold proc_text. destruct (returnType _); [|by eexists].
  destruct b.
  - destruct (declText_total _ ($"invoke") (Hwf ph)) as [s ->]. by eexists.
  - destruct (declText_total _ ((match proc_kind proc with Function_ => $"ProcFn" | Callback => $"ProcCb" end)
      ++ $"<" ++ (match proc_kind proc with Function_ => $"::" ++ proc_name proc | Callback => proc_name proc end
      ++ $", " ++ direction_name (proc_direction proc) ++ $", " ++ phase_name ph) ++ $">::" ++ [c_nl]
      ++ $"invoke") (Hwf ph)) as [s ->]. by eexists.
Qed.

Lemma emit_proc_total proc b :
  proc_ok proc → length (proc_name proc) ≤ 75 → ∃ s, emit_proc b proc = Done s.
Proof.
  intros Hok Hn. unfold emit_proc. destruct (legend_short _ Hn) as [s ->]. cbn [mbind run_bind].
  destruct (print_all_total (emit_phase b proc) [Caller; Adapt; Entry]) as [t ->]; [|by eexists].
  apply Forall_forall. intros ph _. unfold emit_phase. destruct (at_phase _ ph); [by eexists|].
  destruct (proc_text_total proc ph b Hok) as [t ->]. by eexists.
Qed.

Lemma emitProcTexts_total doc b :
  document_ok doc → (∀ proc, proc ∈ all_proc_snippets doc → length (proc_name proc) ≤ 75) →
  ∃ s, emitProcTexts doc b = Done s.
Proof.
  intros Hdoc Hn. apply print_all_total, Forall_forall. intros proc Hin.
  apply emit_proc_total; [|by apply Hn].
  apply all_proc_snippets_elem in Hin as (k & d & [key Hk]%procs_in_elem). by eapply Hdoc.
Qed.

Lemma emitForeachMacros_total doc : document_ok doc → ∃ s, emitForeachMacros doc = Done s.
Proof.
  intros Hdoc. unfold emitForeachMacros.
  assert (∀ proc, proc ∈ procs_in doc Callback GuestToHost → ∃ s, callback_type_string proc = Done s) as Ht.
  { intros proc [key Hk]%procs_in_elem. destruct (Hdoc _ _ _ _ Hk) as (_ & ([t Ht] & _)).
    unfold callback_type_string. rewrite Ht. apply getTypeString_total. }
  destruct (print_all_total (λ proc, t ← callback_type_string proc;
    Done ($"using " ++ proc_name proc ++ $" = " ++ t ++ $";" ++ endl)) (procs_in doc Callback GuestToHost))
    as [u ->].
  { apply Forall_forall. intros proc Hp. destruct (Ht proc Hp) as [s ->]. by eexists. }
  destruct (print_all_total (λ proc, t ← callback_type_string proc;
    Done (macro_line ($"F(" ++ proc_name proc ++ $", " ++ quoted t ++ $")"))) (procs_in doc Callback GuestToHost))
    as [m ->].
  { apply Forall_forall. intros proc Hp. destruct (Ht proc Hp) as [s ->]. by eexists. }
  by eexists.
Qed.

Lemma export_procs_total mode out procs :
  Forall (λ proc, is_Some (proc_functionDecl proc)) procs →
  ∃ out' e, export_procs mode out procs = Done (out', e).
Proof.
  intros Hp. revert out. induction Hp as [|proc procs [fd Hfd] _ IH]; intros out; simpl; [by eexists _, _|].
  rewrite Hfd. cbn [defined mbind run_bind]. destruct (getInvokeAlias _ _ _ _); [|by eexists _, _].
  destruct (declText_total (info_of_decl fd) (export_symbol mode (proc_name proc)) (info_of_decl_wf fd))
    as [s' ->].
  apply IH.
Qed.

Lemma emitExportedAliases_total doc : document_ok doc → ∃ out e, emitExportedAliases doc = Done (out, e).
Proof.
  intros Hdoc. unfold emitExportedAliases.
  edestruct export_procs_total as (out & e & ->).
  { apply Forall_forall. intros proc [key Hk]%procs_in_elem.
    destruct (Hdoc _ _ _ _ Hk) as (Hkind & _ & Hfd & _). by apply Hfd. }
  destruct e; by eexists _, _.
Qed.

(** C32: With names shorter than [2^31] bytes, printing a document either reports the
    alias maker's error, or prints it all exactly when no proc's name is longer than
    75 bytes; with a longer one the width of the legend's bar wraps to a huge count and
    the process ends. *)
Theorem output_bounds doc :
  document_ok doc →
  (∀ proc, proc ∈ all_proc_snippets doc → (Z.of_nat (length (proc_name proc)) < 2 ^ 31)%Z) →
  (∃ out err, generateOutput doc = Done (out, Some err)) ∨
  ((∃ out, generateOutput doc = Done (out, None)) ↔
     ∀ proc, proc ∈ all_proc_snippets doc → length (proc_name proc) ≤ 75).
Proof.
  intros Hdoc Hmax. unfold generateOutput.
  destruct (emitExportedAliases_total doc Hdoc) as (aliases & [err|] & ->); cbn [mbind run_bind].
  { left. by eexists _, _. }
  right. destruct (emitForeachMacros_total doc Hdoc) as [macros ->]. cbn [mbind run_bind]. split.
  - intros [out Hout] proc Hin. destruct (decide (length (proc_name proc) ≤ 75)) as [|Hlong]; [done|].
    destruct (emitProcTexts doc true) as [s| |] eqn:Hs; [|done..]. exfalso.
    apply (print_all_Undef (emit_proc true) _ proc Hin) in Hs; [done|].
    unfold emit_proc. rewrite legend_long; [done|lia|by apply Hmax].
  - intros Hn. destruct (emitProcTexts_total doc true Hdoc Hn) as [decls ->]. cbn [mbind run_bind].
    destruct (emitProcTexts_total doc false Hdoc Hn) as [defs ->]. by eexists.
Qed.

(** A fresh document is one the output accepts. *)
Lemma function_proc_ok d fd name desc defs : proc_ok (function_proc d fd name desc defs).
Proof. split; [by eexists|]. split; [by eexists|]. intros []; apply Forall_nil_2. Qed.

Lemma callback_proc_ok d t name desc defs : proc_ok (callback_proc d t name desc defs).
Proof. split; [by eexists|]. split; [done|]. intros []; apply Forall_nil_2. Qed.

Lemma make_callback_procs_ok c d types key proc :
  make_callback_procs c d types !! key = Some proc → proc_kind proc = Callback ∧ proc_ok proc.
Proof.
  unfold make_callback_procs. generalize (entries types) as l. intros l.
  assert (∀ m, (∀ key proc, m !! key = Some proc → proc_kind proc = Callback ∧ proc_ok proc) →
    foldl (add_callback_proc c d) m l !! key = Some proc → proc_kind proc = Callback ∧ proc_ok proc) as Hind.
  { induction l as [|[sig [t name]] l IH]; intros m Hm; [apply Hm|]. apply IH.
    intros key' proc' Hp. unfold add_callback_proc, emplace in Hp.
    destruct (m !! callback_key sig name); [by eapply Hm|].
    apply lookup_insert_Some in Hp as [[<- <-]|[_ Hp]]; [|by eapply Hm].
    split; [done|]. apply callback_proc_ok. }
  apply Hind. intros key' proc' Hp. by rewrite lookup_empty in Hp.
Qed.

Lemma beginProcessDocument_ok nodes doc doc' :
  beginProcessDocument nodes doc = Done (doc', None) → document_ok doc'.
Proof.
  unfold beginProcessDocument. destruct (matchAST collected_empty nodes) as [c| |]; [|done..].
  cbn [mbind run_bind]. destruct (negb _); [done|]. destruct alias_maker_error; [done|].
  intros [=<-] k d key proc. unfold procs_of. simpl. destruct k.
  - intros Hp. assert (∃ decls, make_function_procs c d decls !! key = Some proc) as [decls Hl].
    { destruct d; by eexists. }
    rewrite make_function_procs_lookup in Hl. apply fmap_Some in Hl as (fd & _ & ->).
    split; [done|]. apply function_proc_ok.
  - intros Hp. destruct d; simpl in Hp; by apply make_callback_procs_ok in Hp.
Qed.
End document.

(** ** An example manifest *)

Definition example_nodes : list Node :=
  [N_procFnTemplateDecl; N_functionDecl c_foo; N_functionDecl (MkCFunction ($"other") c_int [] true false None);
   N_functionDecl (MkCFunction ($"cpp") c_int [] false false None);
   N_typeAliasDecl ($"lore::thunk::__bridge__::PFN_foo") ($"PFN_foo") c_callback].

Definition example_document (mode : Mode) : DocumentContext :=
  initialize mode ($"pre/foo_pre.h") ($"foo/Manifest.cpp") ({[$"foo"; $"bar"; $"cpp"]}, ∅)
    {[$"int (*)(int, double)" := $"PFN_foo"]}.

(** The document after collection. *)
Definition example_begun (mode : Mode) : DocumentContext :=
  match beginProcessDocument None example_nodes (example_document mode) with
  | Done (doc, _) => doc
  | _ => example_document mode
  end.

Definition example_alias (d ph : str) (f : FunctionDecl) (t : option QualType) : str + str :=
  inl ($"_Z" ++ fn_name f).

Example collect_example :
  ((λ p, proc_name p) <$> all_proc_snippets (example_begun Guest), missing (example_begun Guest) GuestToHost) =
    ([$"foo"; $"PFN_foo"; $"PFN_foo"], [$"bar"; $"cpp"]).
Proof. vm_compute. reflexivity. Qed.

Lemma example_begun_ok : document_ok (example_begun Guest).
Proof.
  unfold example_begun.
  destruct (beginProcessDocument None example_nodes (example_document Guest)) as [[doc [e|]]| |] eqn:E.
  - exfalso. assert (match beginProcessDocument None example_nodes (example_document Guest) with
                     | Done (_, None) => true | _ => false end = true) as Hok by (vm_compute; reflexivity).
    by rewrite E in Hok.
  - by eapply beginProcessDocument_ok.
  - intros [] [] key proc Hp; unfold procs_of in Hp; simpl in Hp; by rewrite lookup_empty in Hp.
  - intros [] [] key proc Hp; unfold procs_of in Hp; simpl in Hp; by rewrite lookup_empty in Hp.
Qed.

Lemma example_begun_names :
  forallb (λ proc, length (proc_name proc) <=? 75) (all_proc_snippets (example_begun Guest)) = true.
Proof. vm_compute. reflexivity. Qed.

Lemma output_bounds_witness :
  (∃ out err, generateOutput example_alias (example_begun Guest) = Done (out, Some err)) ∨
  ((∃ out, generateOutput example_alias (example_begun Guest) = Done (out, None)) ↔
     ∀ proc, proc ∈ all_proc_snippets (example_begun Guest) → length (proc_name proc) ≤ 75).
Proof.
  apply (output_bounds example_alias (example_begun Guest) example_begun_ok).
  intros proc Hin. pose proof (proj1 (forallb_forall _ _) example_begun_names proc) as Hn.
  apply list_elem_of_In, Hn, Nat.leb_le in Hin. lia.
Defined.

(** A name of 76 bytes. *)
Definition long_name : str := replicate 76 "x"%char.
Example legend_line : legendLine ($"foo") = Done ($"// ==================================== foo ====================================").
Proof. vm_compute. reflexivity. Qed.
Example legend_overflow : legendLine long_name = Undef.
Proof. vm_compute. reflexivity. Qed.
