(* ===== verification/PassTemplates.v ===== *)
(** What the passes of the thunk compiler share:
    [src/tools/TLC/Utils/PassCodeTemplates.h] and [PassUtils.h], and the routing of a
    pass's writes to the side that is being generated.

    Each template is a piece of generated text.  A null type is dereferenced by the
    templates that ask whether it is [void], and a template that indexes the arguments
    past their end has undefined behaviour. *)

From stdpp Require Import gmap.
From S2P Require Import Prelude CppString StringExtras ManifestSummary PassScheduler ClangExtras Document.

Section templates.
Context `{Clang}.

(** ** Signatures *)

Definition pVoidType : QualType := getPointerType VoidTy.
Definition ppVoidType : QualType := getPointerType pVoidType.

Definition FI_packedFunctionInfo : FunctionInfo :=
  MkInfo (Some VoidTy)
    [(Some ppVoidType, $"args"); (Some pVoidType, $"ret"); (Some pVoidType, $"metadata")] ∅ [] false.

Definition FI_packedCallbackInfo : FunctionInfo :=
  MkInfo (Some VoidTy)
    [(Some pVoidType, $"callback"); (Some ppVoidType, $"args"); (Some pVoidType, $"ret");
     (Some pVoidType, $"metadata")] ∅ [] false.

(** [argumentsRef()] with a leading [void *callback]. *)
Definition with_callback (info : FunctionInfo) : FunctionInfo :=
  MkInfo (returnType info) ((Some pVoidType, $"callback") :: arguments info)
    (metaArgTypes info) (metaRetType info) (isVariadic info).

(** [argumentName(i)], whose index is unsigned. *)
Definition argumentName (info : FunctionInfo) (i : Z) : run str :=
  if (i <? 0)%Z then Undef else defined (snd <$> arguments info !! Z.to_nat i).

Definition arg_names (info : FunctionInfo) : list str := (arguments info).*2.

(** A file-local function of each of [LibCFormat.cpp] and [GetProcAddress.cpp]. *)
Definition isCharPointerType (t : QualType) : bool :=
  match pointee t with Some t' => isCharType t' | None => false end.

(** ** Templates *)

Definition spaces (n : nat) : str := replicate n " "%char.

Definition SRC_asIs (s : str) : str :=
  match s with [] => [] | _ => spaces 4 ++ s ++ [c_nl] end.

(** [info.returnType()->isVoidType()]. *)
Definition is_void (info : FunctionInfo) : run bool :=
  t ← defined (returnType info); Done (isVoidType t).

Definition SRC_emptyReturnDecl (info : FunctionInfo) : run str :=
  t ← defined (returnType info);
  if isVoidType t then Done []
  else s ← getTypeStringWithName t ($"ret"); Done (spaces 4 ++ s ++ $";" ++ [c_nl]).

Definition SRC_getCallback (guest : bool) : str :=
  spaces 0 ++ $"#ifdef LORE_THUNK_CALLBACK_REPLACE" ++ [c_nl]
  ++ spaces 4 ++ $"LORE_THUNK_GET_LAST_GCB(callback);" ++ [c_nl]
  ++ spaces 0 ++ $"#else" ++ [c_nl]
  ++ spaces 4 ++ $"void *callback = LORE_THUNK_LAST_" ++ (if guest then $"GCB" else $"HCB") ++ $";" ++ [c_nl]
  ++ spaces 0 ++ $"#endif" ++ [c_nl].

Definition call_list (names : list str) : str := join names ($", ").
Definition SRC_callList (info : FunctionInfo) : str := call_list (arg_names info).

Definition SRC_callListAssign (info : FunctionInfo) (func lval : str) : run str :=
  void ← is_void info;
  Done (spaces 4 ++ (if void : bool then [] else lval ++ $" = ") ++ func ++ $"(" ++ SRC_callList info
        ++ $");" ++ [c_nl]).

Definition SRC_argPtrListDecl (info : FunctionInfo) : str :=
  spaces 4 ++ $"void *args[] = {" ++ [c_nl]
  ++ concat ((λ x, spaces 8 ++ $"(void *) &" ++ x ++ $"," ++ [c_nl]) <$> arg_names info)
  ++ spaces 4 ++ $"};" ++ [c_nl].

Definition SRC_returnRet (info : FunctionInfo) : run str :=
  void ← is_void info;
  Done (if void : bool then [] else spaces 4 ++ $"return ret;" ++ [c_nl]).

(** One extracted argument; a null type is spelled by its meta type. *)
Definition extract_line (info : FunctionInfo) (i : nat) (arg : option QualType * str) : run str :=
  t ← match arg.1 with
      | None => Done (default [] (metaArgTypes info !! arg.2) ++ $" *")
      | Some t => getTypeString (getPointerType t)
      end;
  Done (spaces 4 ++ $"auto &" ++ arg.2 ++ $" = *(" ++ t ++ $") args[" ++ dec i ++ $"];" ++ [c_nl]).

Fixpoint extract_lines (info : FunctionInfo) (i : nat) (args : list (option QualType * str)) : run str :=
  match args with
  | [] => Done []
  | arg :: args =>
      s ← extract_line info i arg; rest ← extract_lines info (S i) args; Done (s ++ rest)
  end.

(** With its default [N], all the arguments. *)
Definition SRC_argPtrListExtractDecl (info : FunctionInfo) : run str :=
  extract_lines info 0 (arguments info).

Definition SRC_retExtractDecl (info : FunctionInfo) : run str :=
  t ← defined (returnType info);
  if isVoidType t then Done []
  else s ← getTypeString (getPointerType t);
       Done (spaces 4 ++ $"auto &ret_ref = *(" ++ s ++ $") ret;" ++ [c_nl]).

(** ** Pass arguments: [PassUtils.h] *)

Definition integral_arg (arg : TemplateArgument QualType FunctionDecl Expr) : option Z :=
  match arg with TA_Integral value => Some (wraps 32 value) | _ => None end.

(** The integral arguments of the pass [k] in the proc's descriptor, [n] of them. *)
Definition PASS_getIntegralArgumentsInPass (n : nat) (proc : ProcSnippet) (isBuilder : bool) (k : Z) :
    option (list Z) :=
  desc ← proc_desc proc;
  passType ←
    (if isBuilder then
       info ← builderPass desc;
       if (info_id info =? k)%Z then Some (info_type info) else None
     else
       '(_, info) ← list_find (λ info, info_id info = k) (desc_passes desc);
       Some (info_type info));
  decl ← getAsCXXRecordDecl passType;
  '(_, args) ← class_spec decl;
  if length args =? n then mapM integral_arg args else None.

(** ** Filling a proc's sources *)

Definition push_all (key : str) (lines : list Line) (texts : list str) : list Line :=
  foldl (λ lines t, push_back lines (MkLine key t)) lines texts.

(** A builder's writes to one source. *)
Definition fill (key : str) (info : FunctionInfo) (prologs centers epilogs : list str) (src : ProcSource) :
    ProcSource :=
  let b := body src in
  MkSource info (source_head src)
    (MkBody (push_all key (prolog b) prologs) (forward b) (push_all key (center b) centers)
       (backward b) (push_all key (epilog b) epilogs))
    (source_tail src).

(** The three sources of a side, and a pass's writes to each. *)
Definition sources : Type := by_phase ProcSource.

Definition fill_side (key : str) (infos : by_phase FunctionInfo)
    (texts : by_phase (list str * list str * list str)) (src : sources) : sources :=
  let go ph :=
    let '(prologs, centers, epilogs) := at_phase texts ph in
    fill key (at_phase infos ph) prologs centers epilogs (at_phase src ph) in
  MkByPhase (go Entry) (go Adapt) (go Caller).

(** Whether the proc is called by the generated side: [X] is the sender, which is
    the guest for a guest-to-host proc. *)
Definition is_sender (mode : Mode) (proc : ProcSnippet) : bool :=
  let isHost := match mode with Host => true | Guest => false end in
  let isG2H := match proc_direction proc with GuestToHost => true | HostToGuest => false end in
  if isG2H then negb isHost else isHost.

Definition with_sources (proc : ProcSnippet) (src : sources) : ProcSnippet :=
  MkProc (proc_kind proc) (proc_direction proc) (proc_functionDecl proc) (proc_functionPointerType proc)
    (proc_desc proc) (proc_definition proc) (proc_name proc) (proc_realType proc) (proc_view proc) src.

Definition empty_sources : sources := MkByPhase source_empty source_empty source_empty.

(** ** A proc's signatures and layers *)

Definition proc_template (k : ProcKind) : str :=
  match k with Function_ => $"ProcFn" | Callback => $"ProcCb" end.

Definition is_callback (proc : ProcSnippet) : bool :=
  match proc_kind proc with Function_ => false | Callback => true end.

(** The signature of the real type, and the one of the receiver's [Entry]. *)
Definition real_info (proc : ProcSnippet) : FunctionInfo := info_of_view (proc_view proc).
Definition packed_info (proc : ProcSnippet) : FunctionInfo :=
  match proc_kind proc with
  | Function_ => FI_packedFunctionInfo
  | Callback => FI_packedCallbackInfo
  end.

(** [formatN("ProcFn<%1, %2, Adapt>::invoke", ...)] and the like. *)
Definition proc_invoke (proc : ProcSnippet) (ph : str) : run str :=
  match proc_kind proc with
  | Function_ =>
      format ($"ProcFn<%1, %2, " ++ ph ++ $">::invoke")
        [proc_name proc; direction_name (proc_direction proc)]
  | Callback =>
      format ($"ProcCb<%1, %2, " ++ ph ++ $">::invoke")
        [proc_name proc; direction_name (proc_direction proc)]
  end.

(** [getProcFnExecInvokeWithCallList] and [getProcCbExecInvokeWithCallList]. *)
Definition exec_invoke (proc : ProcSnippet) (isVoid : bool) : run str :=
  let ret := if isVoid then $"nullptr" else $"&ret" in
  match proc_kind proc with
  | Function_ =>
      format ($"ProcFn<%1, %2, Exec>::invoke(args, %3, nullptr);")
        [proc_name proc; direction_name (proc_direction proc); ret]
  | Callback =>
      format ($"ProcCb<%1, %2, Exec>::invoke(callback, args, %3, nullptr);")
        [proc_name proc; direction_name (proc_direction proc); ret]
  end.

(** The result type unless it is [void]. *)
Definition result_type (proc : ProcSnippet) : option QualType :=
  t ← returnType (real_info proc); if isVoidType t then None else Some t.

(** The names that [FunctionInfo] gives the arguments of a type. *)
Definition arg_name (i : nat) : str := $"arg" ++ dec (i + 1).

Definition arity (proc : ProcSnippet) : nat := length (view_argTypes (proc_view proc)).

(** A name of the generated code that is not an argument's. *)
Definition not_arg (x : str) : Prop := ∀ i, x ≠ arg_name i.

(** The document of the side that calls the proc, and that of the other side. *)
Definition sender_mode (proc : ProcSnippet) : Mode :=
  match proc_direction proc with GuestToHost => Guest | HostToGuest => Host end.
Definition receiver_mode (proc : ProcSnippet) : Mode :=
  match proc_direction proc with GuestToHost => Host | HostToGuest => Guest end.

(** ** Argument names *)

Lemma dec_inj m n : dec m = dec n → m = n.
Proof.
  intros Heq. pose proof (digits_value_dec m) as Hm. rewrite Heq, digits_value_dec in Hm.
  injection Hm as Hm. lia.
Qed.

Lemma arg_name_inj i j : arg_name i = arg_name j → i = j.
Proof. intros [=Heq]. apply dec_inj in Heq. lia. Qed.

Lemma not_arg_callback : not_arg ($"callback").
Proof. intros i. discriminate. Qed.
Lemma not_arg_ret : not_arg ($"ret").
Proof. intros i. discriminate. Qed.
Lemma not_arg_ret_ref : not_arg ($"ret_ref").
Proof. intros i. discriminate. Qed.
Lemma not_arg_vargs : not_arg ($"vargs").
Proof. intros i. discriminate. Qed.

Lemma not_arg_names x (l : list nat) : not_arg x → x ∉ arg_name <$> l.
Proof. intros Hx (i & Heq & _)%list_elem_of_fmap. by apply (Hx i). Qed.

Lemma names_NoDup (l : list nat) : NoDup l → NoDup (arg_name <$> l).
Proof. apply NoDup_fmap_2_strong. intros ???? Heq. by apply arg_name_inj. Qed.

Lemma real_names proc : arg_names (real_info proc) = arg_name <$> seq 0 (arity proc).
Proof.
  unfold arg_names, real_info, info_of_view, arity. simpl. generalize (view_argTypes (proc_view proc)).
  intros l. rewrite fmap_imap. apply list_eq. intros i.
  rewrite list_lookup_imap, list_lookup_fmap. destruct (l !! i) as [t|] eqn:E; simpl.
  - rewrite lookup_seq_lt by by eapply lookup_lt_Some. done.
  - rewrite lookup_seq_ge by by apply lookup_ge_None. done.
Qed.

Lemma sender_mode_sends proc : is_sender (sender_mode proc) proc = true.
Proof. unfold is_sender, sender_mode. by destruct (proc_direction proc). Qed.
Lemma receiver_mode_receives proc : is_sender (receiver_mode proc) proc = false.
Proof. unfold is_sender, receiver_mode. by destruct (proc_direction proc). Qed.

(** ** Texts that end their last line *)

Definition terminated (s : str) : Prop := s = [] ∨ ∃ u, s = u ++ [c_nl].

Lemma terminated_line s : terminated (s ++ [c_nl]).
Proof. right. by eexists. Qed.

Lemma asIs_terminated s : terminated (SRC_asIs s).
Proof. unfold SRC_asIs. case_match; [by left|]. rewrite app_assoc. apply terminated_line. Qed.

Lemma append_terminated lines key s :
  terminated s → toRawText (push_back lines (MkLine key s)) = toRawText lines ++ s.
Proof.
  intros [->|[u ->]]; [by rewrite app_nil_r|]. unfold push_back, toRawText. simpl.
  destruct (u ++ [c_nl]) as [|c l] eqn:E; [by destruct u|]. rewrite foldl_snoc. rewrite <- E.
  unfold append_line. simpl. destruct (u ++ [c_nl]) eqn:E'; [by destruct u|].
  assert (ends_with_char (u ++ [c_nl]) c_nl = true) as Hend.
  { unfold ends_with_char. rewrite rev_app_distr. by vm_compute. }
  by rewrite <- E', Hend.
Qed.

Lemma push_all_text key texts lines :
  Forall terminated texts → toRawText (push_all key lines texts) = toRawText lines ++ concat texts.
Proof.
  intros Ht. revert lines. induction Ht as [|s texts Hs _ IH]; intros lines; simpl; [by rewrite app_nil_r|].
  unfold push_all in *. simpl. rewrite IH, append_terminated by done. by rewrite <- app_assoc.
Qed.
End templates.

#[global] Arguments arg_name : simpl never.
