(* ===== verification/AliasMaker.v ===== *)
(** The alias maker of the thunk compiler: [src/libs/TLCApi/Utils/ProcAliasMaker.cpp], and
    the loop of [emitExportedAliases] that asks it for the symbols of a document.

    The maker works on Clang's tree: it looks a specialization of [ProcFn] up, makes one that
    it does not keep if there is none, and adds a method to it if it declares none.  The tree
    is a state here; [Document] takes the maker's answers as a function.  The theorem is that
    the two agree: what the maker adds never changes what it answers later. *)

From stdpp Require Import gmap list.
From S2P Require Import Prelude CppString StringExtras ManifestSummary PassScheduler ClangExtras Document PassTemplates.

(** ** The templates *)

Record EnumDecl : Type := MkEnum {
  enum_name : str;
  enumerators : list (str * Z)
}.

(** A parameter of a template: its name and, where its type is an enumeration, that. *)
Inductive TemplateParam : Type :=
  | NonTypeParam (name : str) (enum : option EnumDecl)
  | OtherParam.

Record ProcAliasMaker : Type := MkMaker {
  m_procDirectionEnumDecl : EnumDecl;
  m_procPhaseEnumDecl : EnumDecl
}.

Definition enum_param (wanted : str) (p : TemplateParam) : EnumDecl + str :=
  match p with
  | NonTypeParam name None => inr ($"invalid template parameter type of " ++ name)
  | NonTypeParam name (Some e) =>
      if negb (enum_name e =s? wanted) then inr ($"invalid template parameter type of " ++ name) else inl e
  | OtherParam => inr ($"failed to find template parameter " ++ wanted)
  end.

(** [initialize]. *)
Definition maker_initialize (procName : str) (templateParams : list TemplateParam) : ProcAliasMaker + str :=
  match templateParams with
  | [_; p1; p2] =>
      match enum_param ($"ProcDirection") p1 with
      | inr err => inr err
      | inl procDirectionEnumDecl =>
          match enum_param ($"ProcPhase") p2 with
          | inr err => inr err
          | inl procPhaseEnumDecl => inl (MkMaker procDirectionEnumDecl procPhaseEnumDecl)
          end
      end
  | _ => inr ($"invalid template parameter count of " ++ procName)
  end.

(** The first enumerator of a name. *)
Definition find_enumerator (name : str) (e : EnumDecl) : option Z :=
  snd ∘ snd <$> list_find (λ ecd, ecd.1 = name) (enumerators e).

(** [initialize] succeeds on the templates with three parameters of which the second and the
    third are of the two enumerations, whatever these are declared to hold. *)
Theorem maker_initialize_spec procName params m :
  maker_initialize procName params = inl m ↔
  ∃ p0 n1 n2 e1 e2, params = [p0; NonTypeParam n1 (Some e1); NonTypeParam n2 (Some e2)] ∧
    enum_name e1 = $"ProcDirection" ∧ enum_name e2 = $"ProcPhase" ∧ m = MkMaker e1 e2.
Proof.
  assert (∀ wanted p e, enum_param wanted p = inl e ↔ ∃ n, p = NonTypeParam n (Some e) ∧ enum_name e = wanted) as Hp.
  { intros wanted p e. destruct p as [n [e'|]|]; cbn; [|split; [done|naive_solver]..].
    destruct (bool_decide_reflect (enum_name e' = wanted)); cbn; [|naive_solver].
    split; [intros [= <-]; eauto|naive_solver]. }
  split.
  - unfold maker_initialize. destruct params as [|p0 [|p1 [|p2 [|]]]]; try done.
    destruct (enum_param _ p1) as [e1|] eqn:H1; [|done]. destruct (enum_param _ p2) as [e2|] eqn:H2; [|done].
    intros [= <-]. apply Hp in H1 as (n1 & -> & H1), H2 as (n2 & -> & H2). by exists p0, n1, n2, e1, e2.
  - intros (p0 & n1 & n2 & e1 & e2 & -> & H1 & H2 & ->). unfold maker_initialize.
    rewrite (proj2 (Hp _ _ _)) by eauto. by rewrite (proj2 (Hp _ _ _)) by eauto.
Qed.

Section maker.
Context `{Clang} `{EqDecision FunctionDecl}.

(** ** The specializations *)

Record Method : Type := MkMethod {
  method_name : str;
  method_type : QualType;
  method_params : list (QualType * str);
  method_implicit : bool
}.
Inductive Member : Type :=
  | M_Method (m : Method)
  | M_Declaration.

(** The members of the specializations that the template knows, by their arguments. *)
Definition Tree : Type := FunctionDecl → Z → Z → option (list Member).
Definition with_members (tree : Tree) (fd : FunctionDecl) (d p : Z) (members : list Member) : Tree :=
  λ fd' d' p', if bool_decide (fd' = fd ∧ d' = d ∧ p' = p) then Some members else tree fd' d' p'.

(** Clang's mangling, of a method in the specialization of these arguments. *)
Variable isUserProvided : Method → bool.
Variable shouldMangleDeclName : Method → bool.
Variable mangleName : FunctionDecl → Z → Z → Method → str.

Fixpoint find_invoke (members : list Member) : option Method :=
  match members with
  | [] => None
  | M_Method m :: members => if method_name m =s? $"invoke" then Some m else find_invoke members
  | M_Declaration :: members => find_invoke members
  end.

(** The method that is made; the type that an overlay does not point to is null. *)
Definition make_invoke (fd : FunctionDecl) (overlayType : option QualType) : run Method :=
  invokeType ← defined (match overlayType with Some t => pointee t | None => Some (fn_type fd) end);
  Done (MkMethod ($"invoke") invokeType
    (match overlayType with
     | None => fn_params fd
     | Some t => imap (λ i argType, (argType, $"arg" ++ dec (i + 1))) (view_argTypes (functionTypeView t))
     end) true).

Definition symbol_of (fd : FunctionDecl) (d p : Z) (invokeMethod : Method) : str + str :=
  if negb (isUserProvided invokeMethod) then inr ($"failed to create user-provided `invoke` method")
  else inl (if shouldMangleDeclName invokeMethod then mangleName fd d p invokeMethod else []).

(** A specialization that is made is not added to the template. *)
Definition maker_getInvokeAlias (mk : ProcAliasMaker) (tree : Tree) (direction phase : str) (fd : FunctionDecl)
    (overlayType : option QualType) : run (Tree * (str + str)) :=
  match find_enumerator direction (m_procDirectionEnumDecl mk), find_enumerator phase (m_procPhaseEnumDecl mk) with
  | Some d, Some p =>
      match find_invoke (default [] (tree fd d p)) with
      | Some invokeMethod => Done (tree, symbol_of fd d p invokeMethod)
      | None =>
          invokeMethod ← make_invoke fd overlayType;
          Done (match tree fd d p with
                | Some members => with_members tree fd d p (members ++ [M_Method invokeMethod])
                | None => tree
                end, symbol_of fd d p invokeMethod)
      end
  | _, _ => Done (tree, inr ($"failed to find enum constant " ++ direction ++ $" or " ++ phase))
  end.

(** The loop of [emitExportedAliases], with the tree it leaves. *)
Fixpoint export_loop (mk : ProcAliasMaker) (mode : Mode) (tree : Tree) (out : str) (procs : list ProcSnippet) :
    run (Tree * (str * option str)) :=
  match procs with
  | [] => Done (tree, (out, None))
  | proc :: procs =>
      fd ← defined (proc_functionDecl proc);
      '(tree, answer) ← maker_getInvokeAlias mk tree (direction_name (export_direction mode)) ($"Entry") fd
                          (d ← proc_desc proc; overlayType d);
      match answer with
      | inr err => Done (tree, (out, Some err))
      | inl alias =>
          decl ← declText (info_of_decl fd) (export_symbol mode (proc_name proc));
          export_loop mk mode tree
            (out ++ $"LORE_DECL_EXPORT " ++ decl ++ endl
             ++ $"    __attribute__((alias(" ++ quoted alias ++ $")));" ++ endl) procs
      end
  end.

(** ** The answers *)

(** The answer from the tree as the compiler built it. *)
Definition alias_answer (mk : ProcAliasMaker) (tree : Tree) (direction phase : str) (fd : FunctionDecl)
    (overlayType : option QualType) : str + str :=
  match maker_getInvokeAlias mk tree direction phase fd overlayType with
  | Done (_, answer) => answer
  | _ => inr []
  end.

(** A tree that the maker may leave: a specialization is as it was, or it was without the
    method and has been given the one of its function. *)
Definition grown (overlay : FunctionDecl → option QualType) (tree tree' : Tree) : Prop := ∀ fd d p,
  tree' fd d p = tree fd d p ∨
  ∃ members m, tree fd d p = Some members ∧ find_invoke members = None ∧
    make_invoke fd (overlay fd) = Done m ∧ tree' fd d p = Some (members ++ [M_Method m]).

Lemma find_invoke_added members m :
  find_invoke members = None → method_name m = $"invoke" → find_invoke (members ++ [M_Method m]) = Some m.
Proof using.
  intros Hn Hm. induction members as [|[m'|] members IH]; cbn in *.
  - by rewrite bool_decide_true.
  - destruct (bool_decide_reflect (method_name m' = $"invoke")) as [Hi|Hi]; [by rewrite bool_decide_true in Hn|]. rewrite bool_decide_false in Hn |- * by done. by apply IH.
  - by apply IH.
Qed.

Lemma make_invoke_name fd overlay m : make_invoke fd overlay = Done m → method_name m = $"invoke".
Proof using. unfold make_invoke. destruct (defined _); cbn; by intros [= <-]. Qed.

(** One answer from a grown tree. *)
Lemma alias_grown mk overlay tree tree' direction phase fd :
  grown overlay tree tree' → is_Some (match overlay fd with Some t => pointee t | None => Some (fn_type fd) end) →
  ∃ tree'', maker_getInvokeAlias mk tree' direction phase fd (overlay fd)
              = Done (tree'', alias_answer mk tree direction phase fd (overlay fd)) ∧ grown overlay tree tree''.
Proof using Type.
  intros Hg [t Ht]. unfold alias_answer, maker_getInvokeAlias.
  destruct (find_enumerator direction _) as [d|]; [|by eexists]. destruct (find_enumerator phase _) as [p|]; [|by eexists].
  assert (∃ m, make_invoke fd (overlay fd) = Done m) as [m Hm] by (unfold make_invoke; rewrite Ht; by eexists).
  pose proof (make_invoke_name _ _ _ Hm) as Hname.
  destruct (Hg fd d p) as [Hsame|(members & m' & Htree & Hnone & Hm' & Hadded)].
  - rewrite Hsame. destruct (find_invoke (default [] (tree fd d p))) as [m'|] eqn:Hf; [by eexists|].
    rewrite Hm. cbn [mbind run_bind]. eexists. split; [done|]. destruct (tree fd d p) as [members|] eqn:Htree; [|done].
    intros fd' d' p'. unfold with_members. case_bool_decide as Hk; [|apply Hg].
    destruct Hk as (-> & -> & ->). right. exists members, m. by rewrite Htree.
  - rewrite Hadded, Htree. rewrite Hm in Hm'. injection Hm' as <-. cbn [from_option id].
    rewrite (find_invoke_added _ _ Hnone Hname), Hnone, Hm. by eexists.
Qed.

Lemma export_loop_grown mk mode overlay tree procs : ∀ tree' out,
  grown overlay tree tree' →
  Forall (λ proc, ∃ fd, proc_functionDecl proc = Some fd ∧ (d ← proc_desc proc; overlayType d) = overlay fd ∧
    is_Some (match overlay fd with Some t => pointee t | None => Some (fn_type fd) end)) procs →
  snd <$> export_loop mk mode tree' out procs = export_procs (alias_answer mk tree) mode out procs.
Proof using Type.
  induction procs as [|proc procs IH]; intros tree' out Hg Hprocs; [done|].
  apply Forall_cons in Hprocs as [(fd & Hfd & Ho & Ht) Hprocs]. cbn [export_loop export_procs].
  rewrite Hfd. cbn [defined mbind run_bind]. rewrite Ho.
  destruct (alias_grown mk overlay tree tree' (direction_name (export_direction mode)) ($"Entry") fd Hg Ht)
    as (tree'' & -> & Hg''). cbn [mbind run_bind].
  destruct (alias_answer _ _ _ _ _ _) as [alias|err]; [|done].
  destruct (declText _ _) as [decl| |]; cbn [mbind run_bind]; [|done..]. by apply IH.
Qed.

(** C35: the exported aliases of a document do not depend on what the alias maker adds to the
    tree while it is asked: the loop that threads the tree prints what the loop with the
    answers from the compiler's own tree prints ([Document]), for procs whose overlays are
    those of their functions and are pointer types.  Where the manifest declares no layer of
    a function with an overlay, the symbol is that of a method with the names and the types
    of the parameters that the generated [Entry] has. *)
Theorem aliases_stable mk mode overlay tree procs out :
  Forall (λ proc, ∃ fd, proc_functionDecl proc = Some fd ∧ (d ← proc_desc proc; overlayType d) = overlay fd ∧
    is_Some (match overlay fd with Some t => pointee t | None => Some (fn_type fd) end)) procs →
  snd <$> export_loop mk mode tree out procs = export_procs (alias_answer mk tree) mode out procs ∧
  (∀ dir fd name desc defs t m, overlayType desc = Some t → make_invoke fd (Some t) = Done m →
     prod_map Some id <$> method_params m = arguments (real_info (function_proc dir fd name (Some desc) defs))).
Proof using Type.
  intros Hprocs. split.
  - apply (export_loop_grown mk mode overlay); [by left|done].
  - intros dir fd name desc defs t m Hd Hm. unfold make_invoke in Hm. destruct (defined _); [|done..].
    injection Hm as <-. unfold real_info, info_of_view, function_proc, realFunctionPointerType. cbn. rewrite Hd.
    cbn. by rewrite fmap_imap.
Qed.
End maker.

(** ** Examples *)

Definition c_type_eq : ∀ x y : CType, {x = y} + {x ≠ y}.
Proof.
  fix go 1. intros [s|t|t n|r args v|k|ks|s] [s'|t'|t' n'|r' args' v'|k'|ks'|s']; try (right; discriminate).
  - destruct (decide (s = s')); [left; congruence|right; congruence].
  - destruct (go t t'); [left; congruence|right; congruence].
  - destruct (go t t'), (decide (n = n')); first [left; congruence|right; congruence].
  - destruct (go r r'), (decide (v = v')), (list_eq_dec (dec := go) args args');
      first [left; congruence|right; congruence].
  - destruct (decide (k = k')); [left; congruence|right; congruence].
  - destruct (decide (ks = ks')); [left; congruence|right; congruence].
  - destruct (decide (s = s')); [left; congruence|right; congruence].
Defined.
#[export] Instance c_type_eq_dec : EqDecision CType := c_type_eq.
#[export] Instance c_function_eq_dec : EqDecision (@FunctionDecl c_clang).
Proof. unfold FunctionDecl. cbn. solve_decision. Defined.

(** The enumerations of [ProcDefs.h]. *)
Definition u_directions : EnumDecl := MkEnum ($"ProcDirection") [($"GuestToHost", 0%Z); ($"HostToGuest", 1%Z)].
Definition u_phases : EnumDecl := MkEnum ($"ProcPhase") [($"Entry", 0%Z); ($"Adapt", 1%Z); ($"Caller", 2%Z); ($"Exec", 3%Z)].
Definition u_maker : ProcAliasMaker := MkMaker u_directions u_phases.

Lemma maker_initialize_spec_witness :
  maker_initialize ($"ProcFn") [OtherParam; NonTypeParam ($"D") (Some u_directions); NonTypeParam ($"P") (Some u_phases)]
    = inl u_maker.
Proof. apply maker_initialize_spec. exists OtherParam, ($"D"), ($"P"), u_directions, u_phases. repeat split. Defined.

(** The manifest declares a specialization for [foo] without the method. *)
Definition u_tree : @Tree c_clang := λ fd d p, if bool_decide (fd = c_foo ∧ d = 0%Z ∧ p = 0%Z) then Some [M_Declaration] else None.
Definition u_mangle (fd : @FunctionDecl c_clang) (d p : Z) (m : @Method c_clang) : str :=
  $"_ZN" ++ fn_name fd ++ method_name m ++ join ((λ a, getAsString a.1) <$> method_params m) ($"_").
Definition u_procs : list (@ProcSnippet c_clang) :=
  [function_proc GuestToHost c_foo ($"foo") None (MkByPhase None None None);
   function_proc GuestToHost c_foo ($"foo2") None (MkByPhase None None None)].

Lemma aliases_stable_witness :
  snd <$> export_loop (λ _, true) (λ _, true) u_mangle u_maker Guest u_tree [] u_procs
  = Done ($"LORE_DECL_EXPORT int foo(int a, double b)" ++ endl
          ++ $"    __attribute__((alias(" ++ quoted ($"_ZNfooinvokeint_double") ++ $")));" ++ endl
          ++ $"LORE_DECL_EXPORT int foo2(int a, double b)" ++ endl
          ++ $"    __attribute__((alias(" ++ quoted ($"_ZNfooinvokeint_double") ++ $")));" ++ endl, None).
Proof.
  destruct (aliases_stable (λ _, true) (λ _, true) u_mangle u_maker Guest (λ _, None) u_tree u_procs []) as [H _].
  - repeat (apply Forall_cons; split);  [..|done]; exists c_foo; (split; [reflexivity|]); (split; [reflexivity|]); by eexists.
  - refine (eq_trans H _). vm_compute. reflexivity.
Defined.
