(* ===== verification/ThunkCode.v ===== *)
(** The code of a generated thunk, as programs.

    The builders of the thunk compiler ([DefaultBuilder], [LibCFormat]) write text.  To
    say what the text does, each piece is shown to be the text of a statement of a small
    language ([Stmt], [stmt_text]); its interpreter ([exec_stmt], [run_layer]) runs the
    layers of a call on both sides: the sender's [Entry], [Adapt] and [Caller], the
    crossing by an array of pointers, and the receiver's [Entry], [Adapt] and [Caller].

    A [Shape] is what the layers of a proc share: the typed names that cross, whether a
    callback pointer comes along, and the result type.  The lemmas are about layers of
    any shape. *)

From stdpp Require Import gmap.
From S2P Require Import Prelude CppString StringExtras ManifestSummary PassScheduler ClangExtras Document.
From S2P Require Import PassTemplates.

Section code.
Context `{Clang}.

(** ** The language *)

(** The next layer of a call. *)
Inductive Layer : Type := L_Adapt | L_Caller | L_Exec.
Definition layer_name (l : Layer) : str :=
  match l with L_Adapt => $"Adapt" | L_Caller => $"Caller" | L_Exec => $"Exec" end.

Inductive Stmt : Type :=
  | S_declare (t : QualType)                       (* T ret; *)
  | S_get_callback (guest : bool)                  (* void *callback = ...; *)
  | S_pack (xs : list str)                         (* void *args[] = {&x, ...}; *)
  | S_unpack (x : str) (t : QualType) (i : nat)    (* auto &x = *(T * ) args[i]; *)
  | S_ret_ref (t : QualType)                       (* auto &ret_ref = *(T * ) ret; *)
  | S_call (lval : option str) (l : Layer) (xs : list str)
  | S_cross (with_cb with_ret : bool)              (* Exec::invoke(args, &ret, nullptr); *)
  | S_return                                       (* return ret; *)
  | S_vargs                                        (* CVargEntry vargs[...]; *)
  | S_extract (scanf : bool) (fmt ap : str)        (* extract(PrintF, fmt, ap, vargs); *)
  | S_va_extract (scanf : bool) (fixed fmt : str)  (* the same between va_start and va_end *)
  | S_entries (xs : list str)                      (* CVargEntry argv1[] = {CVargGet(x), ...}; *)
  | S_vret                                         (* CVargEntry vret; *)
  | S_vret_type (with_ret : bool)                  (* vret.type = CVargTypeID(ret); *)
  | S_helper (vcall with_cb : bool)                (* VariadicAdaptor::call(...); *)
  | S_value (t : QualType).                        (* ret = CVargValue(T, vret); *)

Definition code_line (t : str) : str := spaces 4 ++ t ++ [c_nl].
Definition inner_line (t : str) : str := spaces 8 ++ t ++ [c_nl].

(** The name of a proc's layer. *)
Definition layer_template (proc : ProcSnippet) (l : Layer) : str :=
  proc_template (proc_kind proc) ++ $"<" ++ proc_name proc ++ $", "
  ++ direction_name (proc_direction proc) ++ $", " ++ layer_name l ++ $">".
Definition layer_invoke (proc : ProcSnippet) (l : Layer) : str := layer_template proc l ++ $"::invoke".

Definition style_name (scanf : bool) : str := if scanf then $"ScanF" else $"PrintF".
Definition extract_text (scanf : bool) (fmt ap : str) : str :=
  $"lore::VariadicAdaptor::extract(lore::VariadicAdaptor::" ++ style_name scanf ++ $", " ++ fmt ++ $", "
  ++ ap ++ $", vargs);".

Definition helper_text (proc : ProcSnippet) (vcall with_cb : bool) : str :=
  $"lore::VariadicAdaptor::" ++ (if vcall then $"vcall" else $"call") ++ $"("
  ++ (if with_cb then $"callback" else layer_template proc L_Exec ++ $"::get()")
  ++ $", sizeof(argv1) / sizeof(argv1[0]), argv1, -1, vargs, &vret);".

(** The text of a statement in a proc's layer. *)
Definition stmt_text (proc : ProcSnippet) (s : Stmt) : run str :=
  match s with
  | S_declare t => d ← getTypeStringWithName t ($"ret"); Done (code_line (d ++ $";"))
  | S_get_callback guest => Done (SRC_getCallback guest)
  | S_pack xs =>
      Done (code_line ($"void *args[] = {") ++ concat ((λ x, inner_line ($"(void *) &" ++ x ++ $",")) <$> xs)
            ++ code_line ($"};"))
  | S_unpack x t i =>
      p ← getTypeString (getPointerType t);
      Done (code_line ($"auto &" ++ x ++ $" = *(" ++ p ++ $") args[" ++ dec i ++ $"];"))
  | S_ret_ref t =>
      p ← getTypeString (getPointerType t); Done (code_line ($"auto &ret_ref = *(" ++ p ++ $") ret;"))
  | S_call lval l xs =>
      Done (code_line (match lval with Some x => x ++ $" = " | None => [] end
                       ++ layer_invoke proc l ++ $"(" ++ call_list xs ++ $");"))
  | S_cross with_cb with_ret =>
      Done (code_line (layer_invoke proc L_Exec ++ $"(" ++ (if with_cb then $"callback, " else []) ++ $"args, "
                       ++ (if with_ret then $"&ret" else $"nullptr") ++ $", nullptr);"))
  | S_return => Done (code_line ($"return ret;"))
  | S_vargs => Done (code_line ($"CVargEntry vargs[LORE_THUNK_VARG_MAX];"))
  | S_extract scanf fmt ap => Done (code_line (extract_text scanf fmt ap))
  | S_va_extract scanf fixed fmt =>
      Done (code_line ($"{") ++ inner_line ($"va_list ap;") ++ inner_line ($"va_start(ap, " ++ fixed ++ $");")
            ++ inner_line (extract_text scanf fmt ($"ap")) ++ inner_line ($"va_end(ap);") ++ code_line ($"}"))
  | S_entries xs =>
      Done (code_line ($"CVargEntry argv1[] = {") ++ concat ((λ x, inner_line ($"CVargGet(" ++ x ++ $"),")) <$> xs)
            ++ code_line ($"};"))
  | S_vret => Done (code_line ($"CVargEntry vret;"))
  | S_vret_type with_ret =>
      Done (code_line ($"vret.type = " ++ (if with_ret then $"CVargTypeID(ret);" else $"0;")))
  | S_helper vcall with_cb =>
      Done (code_line (helper_text proc vcall with_cb))
  | S_value t => s ← getTypeString t; Done (code_line ($"ret = CVargValue(" ++ s ++ $", vret);"))
  end.

Definition stmts_text (proc : ProcSnippet) (ss : list Stmt) : run str := print_all (stmt_text proc) ss.

(** A layer: its parameters and its statements, section by section. *)
Record LayerCode : Type := MkLayer {
  layer_params : list str;
  layer_prolog : list Stmt;
  layer_center : list Stmt;
  layer_epilog : list Stmt
}.

(** ** Running it

    Values are a parameter.  A frame holds the values of its variables, the names whose
    addresses are in [args], the entries of [argv1], the state of [vret] (whether its
    type was set, to that of a result or to 0, and its value), and the value returned.
    In the receiver's [Entry] [args] is a parameter, and reading through it gives the
    values the sender's variables have. *)

Section run_code.
Context {V : Type}.

Record Frame : Type := MkFrame {
  fr_vars : gmap str V;
  fr_args : list str;
  fr_entries : list V;
  fr_vret_type : option bool;
  fr_vret : option V;
  fr_result : option V
}.

Definition new_frame (vars : gmap str V) : Frame := MkFrame vars [] [] None None None.
Definition set_var (x : str) (v : V) (f : Frame) : Frame :=
  MkFrame (<[x := v]> (fr_vars f)) (fr_args f) (fr_entries f) (fr_vret_type f) (fr_vret f) (fr_result f).
Definition set_args (xs : list str) (f : Frame) : Frame :=
  MkFrame (fr_vars f) xs (fr_entries f) (fr_vret_type f) (fr_vret f) (fr_result f).
Definition set_entries (vs : list V) (f : Frame) : Frame :=
  MkFrame (fr_vars f) (fr_args f) vs (fr_vret_type f) (fr_vret f) (fr_result f).
Definition set_vret (t : option bool) (r : option V) (f : Frame) : Frame :=
  MkFrame (fr_vars f) (fr_args f) (fr_entries f) t r (fr_result f).
Definition set_result (v : V) (f : Frame) : Frame :=
  MkFrame (fr_vars f) (fr_args f) (fr_entries f) (fr_vret_type f) (fr_vret f) (Some v).

Definition read_all (f : Frame) (xs : list str) : option (list V) := mapM (λ x, fr_vars f !! x) xs.

(** [T x = call]; a call without a result cannot be assigned. *)
Definition assign (lval : option str) (r : option V) (f : Frame) : option Frame :=
  match lval with
  | None => Some f
  | Some x => v ← r; Some (set_var x v f)
  end.

(** [VariadicAdaptor]: the boxes of a variable argument list by a format, and a call of
    the proc's native function, or of a callback, with entries and boxes, with or
    without a result. *)
Record Adaptor : Type := MkAdaptor {
  va_extract : bool → V → V → option V;
  va_call : bool → option V → bool → list V → V → option (option V)
}.

(** What a layer runs in: the layer it calls, the crossing, the callback in the
    thread's slot, the values behind an incoming [args], and the last named parameter
    and the list of its variable arguments. *)
Record Env : Type := MkEnv {
  env_callee : Layer → list V → option (option V);
  env_cross : option V → list V → option (option V);
  env_callback : option V;
  env_incoming : list V;
  env_variadic : option (str * V)
}.

Variable va : Adaptor.

Definition exec_stmt (env : Env) (s : Stmt) (f : Frame) : option Frame :=
  match s with
  | S_declare _ => Some f
  | S_get_callback _ => cb ← env_callback env; Some (set_var ($"callback") cb f)
  | S_pack xs => _ ← read_all f xs; Some (set_args xs f)
  | S_unpack x _ i => v ← env_incoming env !! i; Some (set_var x v f)
  | S_ret_ref _ => Some f
  | S_call lval l xs => vs ← read_all f xs; r ← env_callee env l vs; assign lval r f
  | S_cross with_cb with_ret =>
      vs ← read_all f (fr_args f);
      cb ← (if with_cb then Some <$> fr_vars f !! ($"callback") else Some None);
      r ← env_cross env cb vs;
      assign (if with_ret then Some ($"ret") else None) r f
  | S_return => v ← fr_vars f !! ($"ret"); Some (set_result v f)
  | S_vargs => Some f
  | S_extract scanf fmt ap =>
      vfmt ← fr_vars f !! fmt;
      vap ← fr_vars f !! ap;
      boxes ← va_extract va scanf vfmt vap;
      Some (set_var ($"vargs") boxes f)
  | S_va_extract scanf fixed fmt =>
      vfmt ← fr_vars f !! fmt;
      '(last, vap) ← env_variadic env;
      (if last =s? fixed then
         boxes ← va_extract va scanf vfmt vap;
         Some (set_var ($"vargs") boxes f)
       else None)
  | S_entries xs => vs ← read_all f xs; Some (set_entries vs f)
  | S_vret => Some (set_vret None None f)
  | S_vret_type with_ret => Some (set_vret (Some with_ret) (fr_vret f) f)
  | S_helper vcall with_cb =>
      cb ← (if with_cb then Some <$> fr_vars f !! ($"callback") else Some None);
      with_ret ← fr_vret_type f;
      boxes ← fr_vars f !! ($"vargs");
      r ← va_call va vcall cb with_ret (fr_entries f) boxes;
      Some (set_vret (Some with_ret) r f)
  | S_value _ => v ← fr_vret f; Some (set_var ($"ret") v f)
  end.

Fixpoint exec_stmts (env : Env) (ss : list Stmt) (f : Frame) : option Frame :=
  match ss with [] => Some f | s :: ss => f ← exec_stmt env s f; exec_stmts env ss f end.

(** A call binds the parameters; the numbers must agree. *)
Definition run_layer (env : Env) (code : LayerCode) (vs : list V) : option Frame :=
  if length vs =? length (layer_params code) then
    exec_stmts env (layer_prolog code ++ layer_center code ++ layer_epilog code)
      (new_frame (list_to_map (zip (layer_params code) vs)))
  else None.

Definition typed (r : option Frame) : option (option V) := fr_result <$> r.

(** A layer that calls [next] as its layer [l] and nothing else. *)
Definition calls (l : Layer) (next : list V → option (option V)) : Env :=
  MkEnv (λ l' vs, match l, l' with
                  | L_Adapt, L_Adapt | L_Caller, L_Caller | L_Exec, L_Exec => next vs
                  | _, _ => None
                  end) (λ _ _, None) None [] None.
Definition crosses (cross : option V → list V → option (option V)) : Env :=
  MkEnv (λ _ _, None) cross None [] None.
Definition with_incoming (vs : list V) (env : Env) : Env :=
  MkEnv (env_callee env) (env_cross env) (env_callback env) vs (env_variadic env).
Definition entered (cb : option V) (variadic : option (str * V)) (env : Env) : Env :=
  MkEnv (env_callee env) (env_cross env) cb (env_incoming env) variadic.

(** The receiver's [Entry] is called with [callback], [args], [ret] and [metadata];
    its result is what it stores through [ret].  [packed] stands for the pointers. *)
Definition packed_values (packed : V) (cb : option V) : list V :=
  match cb with Some c => [c; packed; packed; packed] | None => [packed; packed; packed] end.

Definition run_packed (code : LayerCode) (next : list V → option (option V)) (packed : V) (cb : option V)
    (vs : list V) : option (option V) :=
  f ← run_layer (with_incoming vs (calls L_Adapt next)) code (packed_values packed cb);
  Some (fr_vars f !! ($"ret_ref")).

(** The layers of a side; [Exec] is the native function at the receiver, the crossing at
    the sender. *)
Definition run_receiver (code : by_phase LayerCode) (native : list V → option (option V)) (packed : V)
    (cb : option V) (vs : list V) : option (option V) :=
  let caller vs := typed (run_layer (calls L_Exec native) (at_caller code) vs) in
  let adapt vs := typed (run_layer (calls L_Caller caller) (at_adapt code) vs) in
  run_packed (at_entry code) adapt packed cb vs.

Definition run_sender (code : by_phase LayerCode) (cross : option V → list V → option (option V))
    (cb : option V) (variadic : option (str * V)) (vs : list V) : option (option V) :=
  let caller vs := typed (run_layer (crosses cross) (at_caller code) vs) in
  let adapt vs := typed (run_layer (calls L_Caller caller) (at_adapt code) vs) in
  typed (run_layer (entered cb variadic (calls L_Adapt adapt)) (at_entry code) vs).
End run_code.
#[global] Arguments Frame V : clear implicits.
#[global] Arguments Env V : clear implicits.
#[global] Arguments Adaptor V : clear implicits.

(** ** Layers of a shape *)

Record Shape : Type := MkShape {
  sh_args : list (QualType * str);
  sh_callback : bool;
  sh_ret : option QualType
}.

Definition outer_names (sh : Shape) : list str := (sh_args sh).*2.
Definition inner_names (sh : Shape) : list str :=
  (if sh_callback sh then [$"callback"] else []) ++ outer_names sh.

(** The names do not clash with each other or with the code's own. *)
Definition shape_ok (sh : Shape) : Prop :=
  NoDup (inner_names sh) ∧ (($"ret") ∉ inner_names sh) ∧ (($"ret_ref") ∉ inner_names sh).

Definition packed_names (sh : Shape) : list str :=
  (if sh_callback sh then [$"callback"] else []) ++ [$"args"; $"ret"; $"metadata"].

Definition declare (sh : Shape) : list Stmt :=
  match sh_ret sh with Some t => [S_declare t] | None => [] end.
Definition return_ (sh : Shape) : list Stmt :=
  match sh_ret sh with Some _ => [S_return] | None => [] end.
Definition assigned (sh : Shape) (x : str) : option str :=
  match sh_ret sh with Some _ => Some x | None => None end.
Definition has_result (sh : Shape) : bool := match sh_ret sh with Some _ => true | None => false end.

Definition unpack_stmts (sh : Shape) : list Stmt :=
  imap (λ i a, S_unpack a.2 a.1 i) (sh_args sh).
Definition ret_ref (sh : Shape) : list Stmt :=
  match sh_ret sh with Some t => [S_ret_ref t] | None => [] end.

(** A pass-through layer; the sender's [Entry] and [Caller]; the receiver's [Entry]. *)
Definition forward_layer (sh : Shape) (l : Layer) : LayerCode :=
  MkLayer (inner_names sh) (declare sh) [S_call (assigned sh ($"ret")) l (inner_names sh)] (return_ sh).

Definition get_callback (sh : Shape) (guest : bool) : list Stmt :=
  if sh_callback sh then [S_get_callback guest] else [].

Definition entry_layer (sh : Shape) (guest : bool) : LayerCode :=
  MkLayer (outer_names sh) (declare sh ++ get_callback sh guest)
    [S_call (assigned sh ($"ret")) L_Adapt (inner_names sh)] (return_ sh).

Definition pack_layer (sh : Shape) : LayerCode :=
  MkLayer (inner_names sh) (declare sh ++ [S_pack (outer_names sh)])
    [S_cross (sh_callback sh) (has_result sh)] (return_ sh).

Definition unpack_layer (sh : Shape) : LayerCode :=
  MkLayer (packed_names sh) (unpack_stmts sh ++ ret_ref sh)
    [S_call (assigned sh ($"ret_ref")) L_Adapt (inner_names sh)] [].

(** ** Execution *)

Section exec_lemmas.
Context {V : Type}.
Variable va : Adaptor V.
Implicit Types (f : Frame V) (vs : list V) (env : Env V) (r cb : option V).

Lemma exec_stmts_app env ss ss' f :
  exec_stmts va env (ss ++ ss') f = exec_stmts va env ss f ≫= exec_stmts va env ss'.
Proof.
  revert f. induction ss as [|s ss IH]; intros f; simpl; [done|].
  destruct (exec_stmt va env s f); simpl; [apply IH|done].
Qed.

Lemma exec_declare env sh f : exec_stmts va env (declare sh) f = Some f.
Proof. unfold declare. by destruct (sh_ret sh). Qed.

Lemma exec_ret_ref env sh f : exec_stmts va env (ret_ref sh) f = Some f.
Proof. unfold ret_ref. by destruct (sh_ret sh). Qed.

Lemma read_all_ext f f' xs :
  (∀ x, x ∈ xs → fr_vars f !! x = fr_vars f' !! x) → read_all f xs = read_all f' xs.
Proof.
  intros Hxs. unfold read_all. induction xs as [|x xs IH]; simpl; [done|].
  rewrite Hxs by left. rewrite IH; [done|]. intros y Hy. apply Hxs. by right.
Qed.

Lemma read_all_lookups f xs vs :
  length xs = length vs →
  (∀ i x v, xs !! i = Some x → vs !! i = Some v → fr_vars f !! x = Some v) → read_all f xs = Some vs.
Proof.
  intros Hlen Hv. unfold read_all. apply mapM_Some, Forall2_same_length_lookup. split; [done|].
  intros i x v Hx Hvs. by eapply Hv.
Qed.

Lemma read_all_inv f xs vs i x v :
  read_all f xs = Some vs → xs !! i = Some x → vs !! i = Some v → fr_vars f !! x = Some v.
Proof.
  unfold read_all. intros Hm%mapM_Some Hx Hv. by apply (Forall2_lookup_lr _ _ _ _ _ _ Hm Hx Hv).
Qed.

Lemma bound_lookup xs vs i x v :
  NoDup xs → length vs = length xs → xs !! i = Some x → vs !! i = Some v →
  (list_to_map (zip xs vs) : gmap str V) !! x = Some v.
Proof.
  intros Hnd Hlen Hx Hv. apply elem_of_list_to_map_1; [by rewrite fst_zip by lia|].
  apply list_elem_of_lookup. exists i. apply lookup_zip_with_Some. by exists x, v.
Qed.

Lemma read_bound xs vs :
  NoDup xs → length vs = length xs → read_all (new_frame (list_to_map (zip xs vs))) xs = Some vs.
Proof.
  intros Hnd Hlen. apply read_all_lookups; [done|]. intros i x v Hx Hv. by eapply bound_lookup.
Qed.

(** A result fits when it is there unless the proc returns [void]. *)
Definition fits (sh : Shape) (r : option V) : Prop := is_Some (sh_ret sh) ↔ is_Some r.

Lemma fits_cases sh r :
  fits sh r → (∃ t v, sh_ret sh = Some t ∧ r = Some v) ∨ (sh_ret sh = None ∧ r = None).
Proof.
  unfold fits. destruct (sh_ret sh) as [t|], r as [v|]; intros [H1 H2].
  - left. by eexists _, _.
  - by destruct (H1 ltac:(by eexists)).
  - by destruct (H2 ltac:(by eexists)).
  - by right.
Qed.

(** A frame after a result has been assigned. *)
Definition with_result (x : str) (r : option V) (f : Frame V) : Frame V :=
  match r with Some v => set_var x v f | None => f end.

Lemma exec_call env sh l xs vs r f x :
  read_all f xs = Some vs → env_callee env l vs = Some r → fits sh r →
  exec_stmt va env (S_call (assigned sh x) l xs) f = Some (with_result x r f).
Proof.
  intros Hr Hc Hf. simpl. rewrite Hr. simpl. rewrite Hc. simpl. unfold assigned.
  by destruct (fits_cases _ _ Hf) as [(t & v & -> & ->)|[-> ->]].
Qed.

Lemma exec_pack env f xs vs :
  read_all f xs = Some vs → exec_stmt va env (S_pack xs) f = Some (set_args xs f).
Proof. intros Hr. simpl. by rewrite Hr. Qed.

Lemma exec_cross env sh f vs cb r :
  read_all f (fr_args f) = Some vs →
  (if sh_callback sh then Some <$> fr_vars f !! ($"callback") else Some None) = Some cb →
  env_cross env cb vs = Some r → fits sh r →
  exec_stmt va env (S_cross (sh_callback sh) (has_result sh)) f = Some (with_result ($"ret") r f).
Proof.
  intros Hr Hcb Hc Hf. cbn [exec_stmt]. rewrite Hr. cbn [mbind option_bind]. rewrite Hcb. cbn [mbind option_bind].
  rewrite Hc. cbn [mbind option_bind]. unfold has_result.
  by destruct (fits_cases _ _ Hf) as [(t & v & -> & ->)|[-> ->]].
Qed.

(** The end of a layer that has its result in [ret]. *)
Lemma exec_return env sh r f :
  fits sh r → fr_result f = None →
  typed (exec_stmts va env (return_ sh) (with_result ($"ret") r f)) = Some r.
Proof.
  intros Hf Hnone. unfold return_.
  destruct (fits_cases _ _ Hf) as [(t & v & -> & ->)|[-> ->]]; simpl.
  - by rewrite lookup_insert_eq.
  - unfold typed. simpl. by rewrite Hnone.
Qed.

(** A callback has its pointer, a function has none. *)
Definition callback_fits (sh : Shape) (cb : option V) : Prop := sh_callback sh = true ↔ is_Some cb.

Lemma callback_fits_cases sh cb :
  callback_fits sh cb →
  (sh_callback sh = true ∧ ∃ c, cb = Some c) ∨ (sh_callback sh = false ∧ cb = None).
Proof.
  unfold callback_fits. destruct (sh_callback sh), cb as [c|]; intros [H1 H2].
  - left. split; [done|]. by eexists.
  - by destruct (H1 eq_refl).
  - by specialize (H2 ltac:(by eexists)).
  - by right.
Qed.

(** What the inner layers are called with. *)
Definition inner_values (cb : option V) (vs : list V) : list V :=
  match cb with Some c => c :: vs | None => vs end.

Section shape.
Variables (sh : Shape) (cb : option V) (vs : list V) (r : option V).
Hypothesis Hok : shape_ok sh.
Hypothesis Hcb : callback_fits sh cb.
Hypothesis Hlen : length vs = length (outer_names sh).
Hypothesis Hfits : fits sh r.

Lemma inner_values_length : length (inner_values cb vs) = length (inner_names sh).
Proof using Hcb Hlen.
  clear Hfits. unfold inner_names. rewrite length_app, <- Hlen.
  by destruct (callback_fits_cases _ _ Hcb) as [[-> [c ->]]|[-> ->]].
Qed.

(** A frame holds the inner values when it holds the outer ones and the callback. *)
Lemma inner_reads f :
  read_all f (inner_names sh) = Some (inner_values cb vs) ↔
  read_all f (outer_names sh) = Some vs ∧
  (if sh_callback sh then Some <$> fr_vars f !! ($"callback") else Some None) = Some cb.
Proof using Hcb.
  clear Hlen Hfits. unfold inner_names.
  destruct (callback_fits_cases _ _ Hcb) as [[-> [c ->]]|[-> ->]]; cbn [app inner_values]; [|by split; [|intros []]].
  unfold read_all. rewrite !mapM_Some, Forall2_cons. split.
  - intros [Hv Hvs]. by rewrite Hv.
  - intros [Hvs Hv]. split; [|done]. by destruct (fr_vars f !! _); [injection Hv as <-|].
Qed.

Lemma outer_NoDup : NoDup (outer_names sh).
Proof using Hok. destruct Hok as (Hnd & _). by apply NoDup_app in Hnd as (_ & _ & ?). Qed.

Lemma callback_outer : sh_callback sh = true → ($"callback") ∉ outer_names sh.
Proof using Hok.
  destruct Hok as (Hnd & _). unfold inner_names in Hnd. intros Hc. rewrite Hc in Hnd.
  by apply NoDup_cons in Hnd as [? _].
Qed.

(** A pass-through layer returns what the next layer returns. *)
Lemma forward_layer_spec l next :
  next (inner_values cb vs) = Some r →
  typed (run_layer va (calls l next) (forward_layer sh l) (inner_values cb vs)) = Some r.
Proof using All.
  intros Hnext. unfold run_layer, forward_layer. cbn [layer_params layer_prolog layer_center layer_epilog].
  rewrite inner_values_length, Nat.eqb_refl, exec_stmts_app, exec_declare. cbn [mbind option_bind app exec_stmts].
  erewrite exec_call;
    [|apply read_bound, inner_values_length; apply Hok|by destruct l|done].
  cbn [mbind option_bind]. by apply exec_return.
Qed.

(** The sender's [Caller] crosses with the outer values and the callback. *)
Lemma pack_layer_spec cross :
  cross cb vs = Some r →
  typed (run_layer va (crosses cross) (pack_layer sh) (inner_values cb vs)) = Some r.
Proof using All.
  intros Hcross. unfold run_layer, pack_layer. cbn [layer_params layer_prolog layer_center layer_epilog].
  rewrite inner_values_length, Nat.eqb_refl, <- !app_assoc, exec_stmts_app, exec_declare.
  cbn [mbind option_bind app exec_stmts].
  set (f := new_frame (list_to_map (zip (inner_names sh) (inner_values cb vs)))).
  assert (read_all f (inner_names sh) = Some (inner_values cb vs)) as Hread.
  { apply read_bound, inner_values_length. apply Hok. }
  apply inner_reads in Hread as [Hreal Hslot]. erewrite exec_pack by exact Hreal.
  cbn [mbind option_bind]. erewrite exec_cross; [|by rewrite (read_all_ext _ f); [apply Hreal|]|exact Hslot|exact Hcross|done].
  cbn [mbind option_bind]. by apply exec_return.
Qed.

(** The sender's [Entry] adds the callback of the thread's slot. *)
Lemma entry_layer_spec guest variadic next :
  next (inner_values cb vs) = Some r →
  typed (run_layer va (entered cb variadic (calls L_Adapt next)) (entry_layer sh guest) vs) = Some r.
Proof using All.
  intros Hnext. unfold run_layer, entry_layer. cbn [layer_params layer_prolog layer_center layer_epilog].
  rewrite Hlen, Nat.eqb_refl, <- !app_assoc, exec_stmts_app, exec_declare. cbn [mbind option_bind].
  rewrite exec_stmts_app. set (f := new_frame (list_to_map (zip (outer_names sh) vs))).
  set (f1 := with_result ($"callback") cb f).
  assert (exec_stmts va (entered cb variadic (calls L_Adapt next)) (get_callback sh guest) f = Some f1) as ->.
  { unfold get_callback, f1. by destruct (callback_fits_cases _ _ Hcb) as [[-> [c ->]]|[-> ->]]. }
  assert (read_all f1 (inner_names sh) = Some (inner_values cb vs)) as Hread.
  { assert (read_all f (outer_names sh) = Some vs) as Hf by (apply read_bound; [apply outer_NoDup|done]).
    apply inner_reads. unfold f1.
    destruct (callback_fits_cases _ _ Hcb) as [[Hc [c ->]]|[Hc ->]]; rewrite Hc; [|done].
    simpl. rewrite lookup_insert_eq. split; [|done]. rewrite (read_all_ext _ f); [done|].
    intros x Hx. simpl. rewrite lookup_insert_ne; [done|]. intros <-. by apply callback_outer. }
  cbn [mbind option_bind app exec_stmts]. erewrite exec_call; [|exact Hread|done|done].
  cbn [mbind option_bind]. apply exec_return; [done|]. unfold f1. by destruct cb.
Qed.

(** Binding the references of the receiver's [Entry]. *)
Lemma exec_unpack env (args : list (QualType * str)) pre ws f :
  length ws = length args → NoDup args.*2 → env_incoming env = pre ++ ws →
  ∃ f', exec_stmts va env (imap (λ i a, S_unpack a.2 a.1 (length pre + i)) args) f = Some f' ∧
    read_all f' args.*2 = Some ws ∧
    (∀ x, x ∉ args.*2 → fr_vars f' !! x = fr_vars f !! x).
Proof using.
  clear. intros Hlen Hnd Hin. revert pre ws f Hlen Hin.
  induction args as [|[t x] args IH]; intros pre [|w ws] f Hlen Hin; try done; simpl in *.
  { by exists f. }
  apply NoDup_cons in Hnd as [Hx Hnd]. rewrite Hin, lookup_app_r, Nat.add_0_r, Nat.sub_diag by lia. simpl.
  destruct (IH Hnd (pre ++ [w]) ws (set_var x w f)) as (f' & Hex & Hread & Hkeep); [lia|by rewrite <- app_assoc|].
  exists f'. split_and!.
  - rewrite <- Hex. f_equal. apply imap_ext. intros i a _. simpl. rewrite length_app. simpl.
    by replace (length pre + S i) with (length pre + 1 + i) by lia.
  - apply mapM_Some in Hread. change (read_all f' (x :: args.*2) = Some (w :: ws)).
    apply mapM_Some. constructor; [|exact Hread]. rewrite Hkeep by done. apply lookup_insert_eq.
  - intros y [Hyx Hy]%not_elem_of_cons. rewrite Hkeep by done. simpl. by rewrite lookup_insert_ne.
Qed.

Lemma unpack_layer_spec next packed :
  next (inner_values cb vs) = Some r →
  run_packed va (unpack_layer sh) next packed cb vs = Some r.
Proof using All.
  intros Hnext. unfold run_packed, run_layer, unpack_layer.
  cbn [layer_params layer_prolog layer_center layer_epilog].
  assert (length (packed_values packed cb) = length (packed_names sh)) as ->.
  { unfold packed_names. by destruct (callback_fits_cases _ _ Hcb) as [[-> [c ->]]|[-> ->]]. }
  rewrite Nat.eqb_refl, <- !app_assoc, exec_stmts_app.
  set (f := new_frame (list_to_map (zip (packed_names sh) (packed_values packed cb)))).
  destruct (exec_unpack (with_incoming vs (calls L_Adapt next)) (sh_args sh) [] vs f) as (f' & Hex & Hread & Hkeep).
  { rewrite Hlen. unfold outer_names. by rewrite length_fmap. }
  { apply outer_NoDup. }
  { done. }
  cbn [length Nat.add] in Hex. unfold unpack_stmts. rewrite Hex. cbn [mbind option_bind].
  rewrite exec_stmts_app, exec_ret_ref. cbn [mbind option_bind app exec_stmts].
  assert (read_all f' (inner_names sh) = Some (inner_values cb vs)) as Hinner.
  { apply inner_reads. split; [done|].
    destruct (callback_fits_cases _ _ Hcb) as [[Hc [c ->]]|[Hc ->]]; rewrite Hc; [|done].
    rewrite Hkeep by by apply callback_outer. unfold f, packed_names. rewrite Hc. simpl. by rewrite lookup_insert_eq. }
  erewrite exec_call; [|exact Hinner|done|done]. cbn [mbind option_bind]. f_equal.
  destruct r as [v|]; simpl; [by rewrite lookup_insert_eq|].
  rewrite Hkeep.
  - unfold f, packed_names. destruct (sh_callback sh), cb; simpl;
      repeat (rewrite lookup_insert_ne by done); apply lookup_empty.
  - destruct Hok as (_ & _ & Href). unfold inner_names in Href. by apply not_elem_of_app in Href as [_ ?].
Qed.
End shape.
End exec_lemmas.

(** ** The text is that of the program *)

(** A piece of text is the text of statements. *)
Definition renders (proc : ProcSnippet) (m : run str) (ss : list Stmt) (s : str) : Prop :=
  m = Done s ∧ stmts_text proc ss = Done s ∧ terminated s.

Lemma stmts_text_app proc ss ss' s s' :
  stmts_text proc ss = Done s → stmts_text proc ss' = Done s' → stmts_text proc (ss ++ ss') = Done (s ++ s').
Proof.
  unfold stmts_text. revert s. induction ss as [|x ss IH]; intros s; simpl; [by intros [= <-]|].
  destruct (stmt_text proc x) as [t| |]; [|done..]. simpl.
  destruct (print_all (stmt_text proc) ss) as [u| |]; [|done..]. simpl. intros [= <-] Hs'.
  rewrite (IH u eq_refl Hs'). simpl. by rewrite app_assoc.
Qed.

Lemma single_text proc s x : stmt_text proc s = Done x → stmts_text proc [s] = Done x.
Proof. intros Hs. unfold stmts_text. simpl. rewrite Hs. simpl. by rewrite app_nil_r. Qed.

Lemma renders_one proc m s x : m = Done x → stmt_text proc s = Done x → terminated x → renders proc m [s] x.
Proof. intros Hm Hs Ht. split; [done|]. split; [by apply single_text|done]. Qed.

Lemma renders_nothing proc m : m = Done [] → renders proc m [] [].
Proof. intros Hm. split; [done|]. split; [done|by left]. Qed.

Lemma code_line_terminated s : terminated (code_line s).
Proof. unfold code_line. rewrite app_assoc. apply terminated_line. Qed.

Lemma code_line_last x s : terminated (x ++ code_line s).
Proof. unfold code_line. rewrite !app_assoc. apply terminated_line. Qed.

(** A line written by [SRC_asIs]. *)
Lemma asIs_renders proc s x :
  x ≠ [] → stmt_text proc s = Done (code_line x) → renders proc (Done (SRC_asIs x)) [s] (code_line x).
Proof.
  intros Hx Hs. apply renders_one; [|done|apply code_line_terminated]. unfold SRC_asIs. by destruct x.
Qed.

Lemma invoke_text proc l : proc_invoke proc (layer_name l) = Done (layer_invoke proc l).
Proof.
  unfold proc_invoke, layer_invoke, layer_template. destruct (proc_kind proc), l; cbn [proc_template];
    rewrite <- !app_assoc; reflexivity.
Qed.

Definition cross_text (proc : ProcSnippet) (isVoid : bool) : str :=
  layer_invoke proc L_Exec ++ $"(" ++ (if is_callback proc then $"callback, " else []) ++ $"args, "
  ++ (if isVoid then $"nullptr" else $"&ret") ++ $", nullptr);".

Lemma exec_text proc isVoid : exec_invoke proc isVoid = Done (cross_text proc isVoid).
Proof.
  unfold exec_invoke, cross_text, layer_invoke, layer_template, is_callback.
  destruct (proc_kind proc), isVoid; cbn [proc_template]; rewrite <- !app_assoc; reflexivity.
Qed.

Section text.
Variables (proc : ProcSnippet) (sh : Shape) (t : QualType).
Hypothesis Hret : sh_ret sh = if isVoidType t then None else Some t.
Hypothesis Hkind : sh_callback sh = is_callback proc.

Lemma void_info info : returnType info = Some t → is_void info = Done (isVoidType t).
Proof using. clear. intros Hi. unfold is_void. by rewrite Hi. Qed.

Lemma empty_return_renders info :
  returnType info = Some t → ∃ s, renders proc (SRC_emptyReturnDecl info) (declare sh) s.
Proof using Hret.
  clear Hkind. intros Hi. unfold SRC_emptyReturnDecl, declare. rewrite Hi, Hret. cbn [defined mbind run_bind].
  destruct (isVoidType t); [exists []; by apply renders_nothing|].
  destruct (getTypeStringWithName_total t ($"ret")) as [d Hd].
  exists (code_line (d ++ $";")). rewrite Hd. cbn [mbind run_bind].
  apply renders_one; [|unfold stmt_text; by rewrite Hd|apply code_line_terminated].
  unfold code_line. by rewrite <- app_assoc.
Qed.

Lemma return_renders info :
  returnType info = Some t → ∃ s, renders proc (SRC_returnRet info) (return_ sh) s.
Proof using Hret.
  clear Hkind. intros Hi. unfold SRC_returnRet, return_. rewrite (void_info _ Hi), Hret. cbn [mbind run_bind].
  destruct (isVoidType t); [exists []; by apply renders_nothing|].
  eexists. apply renders_one; [done|done|apply (code_line_terminated ($"return ret;"))].
Qed.

Lemma call_renders info l x :
  returnType info = Some t → arg_names info = inner_names sh →
  ∃ s, renders proc (SRC_callListAssign info (layer_invoke proc l) x)
         [S_call (assigned sh x) l (inner_names sh)] s.
Proof using Hret.
  clear Hkind. intros Hi Hn. unfold SRC_callListAssign, assigned. rewrite (void_info _ Hi), Hret. cbn [mbind run_bind].
  eexists. apply renders_one; [done| |].
  - unfold stmt_text, code_line, SRC_callList. rewrite Hn.
    destruct (isVoidType t); cbn [app]; rewrite <- ?app_assoc; reflexivity.
  - right. eexists. rewrite !app_assoc. reflexivity.
Qed.

Lemma pack_renders info :
  arg_names info = outer_names sh →
  ∃ s, renders proc (Done (SRC_argPtrListDecl info)) [S_pack (outer_names sh)] s.
Proof using.
  clear. intros Hn. eexists. apply renders_one; [done| |].
  - unfold stmt_text, SRC_argPtrListDecl. rewrite Hn. unfold code_line. rewrite <- !app_assoc.
    rewrite (list_fmap_ext (λ x, inner_line _) (λ x, spaces 8 ++ $"(void *) &" ++ x ++ $"," ++ [c_nl])); [done|].
    intros ? y _. unfold inner_line. by rewrite <- !app_assoc.
  - unfold SRC_argPtrListDecl. right. eexists. rewrite !app_assoc. reflexivity.
Qed.

Lemma cross_renders :
  ∃ s, renders proc (Done (SRC_asIs (cross_text proc (isVoidType t)))) [S_cross (sh_callback sh) (has_result sh)] s.
Proof using Hret Hkind.
  eexists. apply asIs_renders.
  - unfold cross_text, layer_invoke, layer_template. by destruct (proc_kind proc).
  - unfold stmt_text, has_result. rewrite Hret, Hkind. unfold cross_text. by destruct (isVoidType t).
Qed.

Lemma get_callback_renders guest :
  renders proc (Done (SRC_getCallback guest)) [S_get_callback guest] (SRC_getCallback guest).
Proof using.
  apply renders_one; [done|done|]. unfold SRC_getCallback. right. eexists. rewrite !app_assoc. reflexivity.
Qed.

Lemma extract_lines_render info k (args : list (QualType * str)) :
  ∃ s, renders proc (extract_lines info k (prod_map Some id <$> args))
         (imap (λ i a, S_unpack a.2 a.1 (k + i)) args) s.
Proof using.
  clear. revert k. induction args as [|[u x] args IH]; intros k.
  { exists []. by apply renders_nothing. }
  destruct (getTypeString_total (getPointerType u)) as [p Hp].
  destruct (IH (S k)) as (s & Hm & Hs & Hterm). rewrite fmap_cons, imap_cons. cbn [extract_lines fst snd].
  set (y := code_line ($"auto &" ++ x ++ $" = *(" ++ p ++ $") args[" ++ dec k ++ $"];")).
  exists (y ++ s). split_and!.
  - unfold extract_line at 1. cbn [fst snd prod_map]. rewrite Hp. cbn [mbind run_bind]. rewrite Hm.
    cbn [mbind run_bind]. unfold y, code_line. by rewrite <- !app_assoc.
  - rewrite Nat.add_0_r. apply (stmts_text_app _ [_]).
    + apply single_text. unfold stmt_text. by rewrite Hp.
    + rewrite <- Hs. f_equal. apply imap_ext. intros i v _. simpl. by rewrite Nat.add_succ_r.
  - destruct Hterm as [->|[u' ->]]; rewrite ?app_nil_r.
    + apply code_line_terminated.
    + rewrite app_assoc. apply terminated_line.
Qed.

Lemma extract_renders info :
  arguments info = prod_map Some id <$> sh_args sh →
  ∃ s, renders proc (SRC_argPtrListExtractDecl info) (unpack_stmts sh) s.
Proof using.
  intros Ha. unfold SRC_argPtrListExtractDecl. rewrite Ha. apply (extract_lines_render info 0).
Qed.

Lemma ret_extract_renders info :
  returnType info = Some t → ∃ s, renders proc (SRC_retExtractDecl info) (ret_ref sh) s.
Proof using Hret.
  clear Hkind. intros Hi. unfold SRC_retExtractDecl, ret_ref. rewrite Hi, Hret. cbn [defined mbind run_bind].
  destruct (isVoidType t); [exists []; by apply renders_nothing|].
  destruct (getTypeString_total (getPointerType t)) as [p Hp]. rewrite Hp. cbn [mbind run_bind].
  exists (code_line ($"auto &ret_ref = *(" ++ p ++ $") ret;")).
  apply renders_one; [|unfold stmt_text; by rewrite Hp|apply code_line_terminated].
  unfold code_line. by rewrite <- !app_assoc.
Qed.

(** ** Sections *)

Definition section_renders (texts : list str) (ss : list Stmt) : Prop :=
  Forall terminated texts ∧ stmts_text proc ss = Done (concat texts).

Lemma section_nil : section_renders [] [].
Proof using. clear. by split. Qed.

Lemma section_cons m ss s texts ss' :
  renders proc m ss s → section_renders texts ss' → section_renders (s :: texts) (ss ++ ss').
Proof using.
  clear. intros (_ & Hs & Ht) [Hts Hss]. split; [by apply Forall_cons|]. by apply stmts_text_app.
Qed.

Lemma section_one m ss s : renders proc m ss s → section_renders [s] ss.
Proof using.
  clear. intros Hr. rewrite <- (app_nil_r ss). by eapply section_cons, section_nil.
Qed.

(** The source of a layer holds its code and nothing else. *)
Definition source_is (code : LayerCode) (src : ProcSource) : Prop :=
  stmts_text proc (layer_prolog code) = Done (toRawText (prolog (body src))) ∧
  stmts_text proc (layer_center code) = Done (toRawText (center (body src))) ∧
  stmts_text proc (layer_epilog code) = Done (toRawText (epilog (body src))) ∧
  arg_names (functionInfo src) = layer_params code ∧
  toRawText (source_head src) = [] ∧ toRawText (forward (body src)) = [] ∧
  toRawText (backward (body src)) = [] ∧ toRawText (source_tail src) = [].

Lemma fill_is key info ps cs es pss css ess params :
  arg_names info = params →
  section_renders ps pss → section_renders cs css → section_renders es ess →
  source_is (MkLayer params pss css ess) (fill key info ps cs es source_empty).
Proof using.
  clear. intros Hi [Hp Hps] [Hc Hcs] [He Hes]. unfold source_is. simpl.
  rewrite !push_all_text by done. by split_and!.
Qed.
End text.

Definition side_is (proc : ProcSnippet) (code : by_phase LayerCode) (src : sources) : Prop :=
  ∀ ph, source_is proc (at_phase code ph) (at_phase src ph).

(** ** The shape of a proc *)

Definition proc_shape (proc : ProcSnippet) : Shape :=
  MkShape (imap (λ i t, (t, arg_name i)) (view_argTypes (proc_view proc))) (is_callback proc)
    (result_type proc).

Definition is_g2h (proc : ProcSnippet) : bool :=
  match proc_direction proc with GuestToHost => true | HostToGuest => false end.

Lemma real_arguments proc : arguments (real_info proc) = prod_map Some id <$> sh_args (proc_shape proc).
Proof. unfold real_info, info_of_view, proc_shape. simpl. by rewrite fmap_imap. Qed.

Lemma outer_info proc : arg_names (real_info proc) = outer_names (proc_shape proc).
Proof.
  unfold arg_names, outer_names. rewrite real_arguments, <- list_fmap_compose. done.
Qed.

Lemma outer_args proc : outer_names (proc_shape proc) = arg_name <$> seq 0 (arity proc).
Proof. by rewrite <- outer_info, real_names. Qed.

(** A callback's signatures have the leading [callback]. *)
Lemma packed_info_names proc sh :
  sh_callback sh = is_callback proc → arg_names (packed_info proc) = packed_names sh.
Proof. unfold packed_info, packed_names, is_callback. intros ->. by destruct (proc_kind proc). Qed.

Lemma inner_names_info proc info sh :
  arg_names info = outer_names sh → sh_callback sh = is_callback proc →
  arg_names (match proc_kind proc with Function_ => info | Callback => with_callback info end) = inner_names sh.
Proof. unfold inner_names, is_callback. intros <- ->. by destruct (proc_kind proc). Qed.

Lemma shape_ok_intro sh :
  NoDup (outer_names sh) → (($"callback") ∉ outer_names sh) → (($"ret") ∉ outer_names sh) →
  (($"ret_ref") ∉ outer_names sh) → shape_ok sh.
Proof.
  intros Hnd Hcb Hret Href. unfold shape_ok, inner_names. destruct (sh_callback sh); cbn [app].
  - split; [by apply NoDup_cons|]. by split; apply not_elem_of_cons.
  - done.
Qed.

Lemma shape_length proc : length (outer_names (proc_shape proc)) = arity proc.
Proof. by rewrite outer_args, length_fmap, length_seq. Qed.

Lemma proc_ret proc t :
  view_returnType (proc_view proc) = Some t →
  sh_ret (proc_shape proc) = if isVoidType t then None else Some t.
Proof. intros Hret. unfold proc_shape, result_type. simpl. by rewrite Hret. Qed.

End code.
