(* ===== verification/DefaultBuilder.v ===== *)
(** The default builder: [src/tools/TLC/Passes/Builder/DefaultBuilder.cpp].

    The theorem says that the builder's text in the two documents is that of programs of
    [ThunkCode], for every proc, and that running them is calling the native function with
    the same arguments and, for a callback, the same callback pointer. *)

From stdpp Require Import gmap.
From S2P Require Import Prelude CppString StringExtras ManifestSummary PassScheduler ClangExtras Document.
From S2P Require Import PassTemplates ThunkCode.

Section builder.
Context `{Clang}.

Definition builder_key : str := $"DefaultBuilder".

(** The signature the inner layers have. *)
Definition inner_info (proc : ProcSnippet) : FunctionInfo :=
  match proc_kind proc with
  | Function_ => real_info proc
  | Callback => with_callback (real_info proc)
  end.

(** The writes to the sender's sources; for a callback [Entry] fetches the callback. *)
Definition sender_side (proc : ProcSnippet) (src : sources) : run sources :=
  let FI := real_info proc in
  let CFI := inner_info proc in
  let isG2H := match proc_direction proc with GuestToHost => true | HostToGuest => false end in
  isVoid ← is_void FI;
  ret_decl ← SRC_emptyReturnDecl FI;
  ret_return ← SRC_returnRet FI;
  adapt ← proc_invoke proc ($"Adapt");
  caller ← proc_invoke proc ($"Caller");
  call_adapt ← SRC_callListAssign CFI adapt ($"ret");
  call_caller ← SRC_callListAssign CFI caller ($"ret");
  call_exec ← exec_invoke proc isVoid;
  let entry_prolog :=
    match proc_kind proc with
    | Function_ => [ret_decl]
    | Callback => [ret_decl; SRC_getCallback (negb isG2H)]
    end in
  Done (fill_side builder_key (MkByPhase FI CFI CFI)
    (MkByPhase (entry_prolog, [call_adapt], [ret_return])
       ([ret_decl], [call_caller], [ret_return])
       ([ret_decl; SRC_argPtrListDecl FI], [SRC_asIs call_exec], [ret_return])) src).

Definition receiver_side (proc : ProcSnippet) (src : sources) : run sources :=
  let FI := real_info proc in
  let CFI := inner_info proc in
  ret_decl ← SRC_emptyReturnDecl FI;
  ret_return ← SRC_returnRet FI;
  extract ← SRC_argPtrListExtractDecl FI;
  ret_extract ← SRC_retExtractDecl FI;
  adapt ← proc_invoke proc ($"Adapt");
  caller ← proc_invoke proc ($"Caller");
  ex ← proc_invoke proc ($"Exec");
  call_adapt ← SRC_callListAssign CFI adapt ($"ret_ref");
  call_caller ← SRC_callListAssign CFI caller ($"ret");
  call_exec ← SRC_callListAssign CFI ex ($"ret");
  Done (fill_side builder_key (MkByPhase (packed_info proc) CFI CFI)
    (MkByPhase ([extract; ret_extract], [call_adapt], [])
       ([ret_decl], [call_caller], [ret_return])
       ([ret_decl], [call_exec], [ret_return])) src).

(** [beginHandleProc]: both sides are written, one of them to sources that are thrown
    away. *)
Definition default_builder_begin (mode : Mode) (proc : ProcSnippet) : run ProcSnippet :=
  let sender := is_sender mode proc in
  x ← sender_side proc (if sender then proc_source proc else empty_sources);
  y ← receiver_side proc (if sender then empty_sources else proc_source proc);
  Done (with_sources proc (if sender then x else y)).

(** ** The code of the layers *)

Definition sender_code (proc : ProcSnippet) : by_phase LayerCode :=
  let sh := proc_shape proc in
  MkByPhase (entry_layer sh (negb (is_g2h proc))) (forward_layer sh L_Caller) (pack_layer sh).

Definition receiver_code (proc : ProcSnippet) : by_phase LayerCode :=
  let sh := proc_shape proc in
  MkByPhase (unpack_layer sh) (forward_layer sh L_Caller) (forward_layer sh L_Exec).

(** ** The shape of a proc *)

Lemma inner_info_names proc : arg_names (inner_info proc) = inner_names (proc_shape proc).
Proof. by apply inner_names_info, eq_refl; rewrite outer_info. Qed.

Lemma proc_shape_ok proc : shape_ok (proc_shape proc).
Proof.
  apply shape_ok_intro; rewrite outer_args.
  - apply names_NoDup, NoDup_seq.
  - apply not_arg_names, not_arg_callback.
  - apply not_arg_names, not_arg_ret.
  - apply not_arg_names, not_arg_ret_ref.
Qed.

(** ** A call through both documents *)

Lemma call_native {V} (va : Adaptor V) proc native packed cb variadic vs r :
  callback_fits (proc_shape proc) cb → length vs = arity proc →
  native (inner_values cb vs) = Some r → fits (proc_shape proc) r →
  run_sender va (sender_code proc) (run_receiver va (receiver_code proc) native packed) cb variadic vs = Some r.
Proof.
  intros Hcb Hlen Hnative Hfits. rewrite <- shape_length in Hlen. pose proof (proc_shape_ok proc) as Hok.
  unfold run_sender, run_receiver. apply entry_layer_spec; [done..|]. apply forward_layer_spec; [done..|].
  apply pack_layer_spec; [done..|]. apply unpack_layer_spec; [done..|]. apply forward_layer_spec; [done..|].
  by apply forward_layer_spec.
Qed.

(** ** The text of the two sides *)

Section sides.
Variables (proc : ProcSnippet) (t : QualType).
Hypothesis Hret : view_returnType (proc_view proc) = Some t.

Lemma inner_ret : returnType (inner_info proc) = Some t.
Proof using Hret. unfold inner_info. by destruct (proc_kind proc). Qed.

Lemma sender_side_is :
  ∃ src, sender_side proc empty_sources = Done src ∧ side_is proc (sender_code proc) src.
Proof using Hret.
  pose proof (proc_ret proc t Hret) as Hsh. pose proof (Hret : returnType (real_info proc) = _) as Hr. pose proof inner_ret as Hi.
  pose proof (inner_info_names proc) as Hn.
  destruct (empty_return_renders proc _ t Hsh _ Hr) as [decl Hdecl].
  destruct (return_renders proc _ t Hsh _ Hr) as [ret Hreturn].
  destruct (call_renders proc _ t Hsh _ L_Adapt ($"ret") Hi Hn) as [ca Hca].
  destruct (call_renders proc _ t Hsh _ L_Caller ($"ret") Hi Hn) as [cc Hcc].
  destruct (cross_renders proc _ t Hsh eq_refl) as [cx Hcx].
  destruct (pack_renders proc _ _ (outer_info proc)) as [pk Hpack].
  unfold sender_side. rewrite (void_info t _ Hr), (proj1 Hdecl), (proj1 Hreturn).
  rewrite (invoke_text proc L_Adapt : proc_invoke proc ($"Adapt") = _),
    (invoke_text proc L_Caller : proc_invoke proc ($"Caller") = _).
  cbn [mbind run_bind]. rewrite (proj1 Hca), (proj1 Hcc), exec_text. cbn [mbind run_bind].
  eexists. split; [done|]. injection (proj1 Hpack) as ->. injection (proj1 Hcx) as Hx.
  intros ph. destruct ph; cbn [at_phase at_entry at_adapt at_caller fill_side sender_code empty_sources];
    apply fill_is; try done; try apply outer_info; try (by eapply section_one).
  - unfold get_callback, proc_shape, is_callback, is_g2h. simpl. destruct (proc_kind proc).
    + rewrite app_nil_r. by eapply section_one.
    + eapply section_cons; [done|]. eapply section_one, get_callback_renders.
  - eapply section_cons; [done|]. by eapply section_one.
  - rewrite Hx. by eapply section_one.
Qed.

Lemma receiver_side_is :
  ∃ src, receiver_side proc empty_sources = Done src ∧ side_is proc (receiver_code proc) src.
Proof using Hret.
  pose proof (proc_ret proc t Hret) as Hsh. pose proof (Hret : returnType (real_info proc) = _) as Hr. pose proof inner_ret as Hi.
  pose proof (inner_info_names proc) as Hn.
  destruct (empty_return_renders proc _ t Hsh _ Hr) as [decl Hdecl].
  destruct (return_renders proc _ t Hsh _ Hr) as [ret Hreturn].
  destruct (extract_renders proc _ _ (real_arguments proc)) as [ext Hext].
  destruct (ret_extract_renders proc _ t Hsh _ Hr) as [rext Hrext].
  destruct (call_renders proc _ t Hsh _ L_Caller ($"ret") Hi Hn) as [cc Hcc].
  destruct (call_renders proc _ t Hsh _ L_Exec ($"ret") Hi Hn) as [ce Hce].
  destruct (call_renders proc _ t Hsh _ L_Adapt ($"ret_ref") Hi Hn) as [cr Hcr].
  unfold receiver_side. rewrite (proj1 Hdecl), (proj1 Hreturn), (proj1 Hext), (proj1 Hrext).
  rewrite (invoke_text proc L_Adapt : proc_invoke proc ($"Adapt") = _),
    (invoke_text proc L_Caller : proc_invoke proc ($"Caller") = _),
    (invoke_text proc L_Exec : proc_invoke proc ($"Exec") = _).
  cbn [mbind run_bind]. rewrite (proj1 Hcr), (proj1 Hcc), (proj1 Hce). cbn [mbind run_bind].
  eexists. split; [done|]. intros ph.
  destruct ph; cbn [at_phase at_entry at_adapt at_caller fill_side receiver_code empty_sources];
    apply fill_is; try done; try (by apply packed_info_names); try (by eapply section_one); try apply section_nil.
  eapply section_cons; [done|]. by eapply section_one.
Qed.
End sides.

Lemma builder_text mode proc :
  proc_source proc = empty_sources → is_Some (view_returnType (proc_view proc)) →
  ∃ src, default_builder_begin mode proc = Done (with_sources proc src) ∧
    side_is proc (if is_sender mode proc then sender_code proc else receiver_code proc) src.
Proof.
  intros Hsrc [t Hr]. unfold default_builder_begin. rewrite Hsrc.
  destruct (sender_side_is proc t Hr) as (x & Hx & Hxs), (receiver_side_is proc t Hr) as (y & Hy & Hys).
  destruct (is_sender mode proc); rewrite Hx, Hy; by eexists.
Qed.

(** C2: for every proc with a signature, of either kind and direction, the builder's
    text in the two documents is, section by section, the text of two programs, and
    running them on the arguments of a call runs the native function on exactly these
    arguments, preceded for a callback by the pointer in the thread's slot, and returns
    its result: the layers agree on their parameters, each calls the next one, and the
    receiver unpacks what the sender packed. *)
Theorem generated_thunks_forward proc :
  proc_source proc = empty_sources → is_Some (view_returnType (proc_view proc)) →
  ∃ xsrc ysrc xcode ycode,
    default_builder_begin (sender_mode proc) proc = Done (with_sources proc xsrc) ∧
    default_builder_begin (receiver_mode proc) proc = Done (with_sources proc ysrc) ∧
    side_is proc xcode xsrc ∧ side_is proc ycode ysrc ∧
    ∀ (V : Type) (va : Adaptor V) (native : list V → option (option V)) packed cb variadic vs r,
      callback_fits (proc_shape proc) cb → length vs = arity proc →
      native (inner_values cb vs) = Some r → fits (proc_shape proc) r →
      run_sender va xcode (run_receiver va ycode native packed) cb variadic vs = Some r.
Proof.
  intros Hsrc Hret. destruct (builder_text (sender_mode proc) proc Hsrc Hret) as (x & Hx & Hxs).
  destruct (builder_text (receiver_mode proc) proc Hsrc Hret) as (y & Hy & Hys).
  rewrite sender_mode_sends in Hxs. rewrite receiver_mode_receives in Hys.
  exists x, y, (sender_code proc), (receiver_code proc). split_and!; [done..|]. intros. by apply call_native.
Qed.
End builder.

(** ** Examples *)

Definition foo_proc : ProcSnippet :=
  function_proc GuestToHost c_foo ($"foo") None (MkByPhase None None None).
Definition cb_proc : ProcSnippet :=
  callback_proc HostToGuest c_callback ($"PFN_foo") None (MkByPhase None None None).

(** No call of these procs uses the variadic adaptor. *)
Definition no_adaptor : Adaptor Z := MkAdaptor (λ _ _ _, None) (λ _ _ _ _ _, None).

Lemma generated_thunks_forward_witness :
  ∃ xsrc ysrc xcode ycode,
    default_builder_begin Host cb_proc = Done (with_sources cb_proc xsrc) ∧
    default_builder_begin Guest cb_proc = Done (with_sources cb_proc ysrc) ∧
    side_is cb_proc xcode xsrc ∧ side_is cb_proc ycode ysrc ∧
    run_sender no_adaptor xcode
      (run_receiver no_adaptor ycode
         (λ vs, match vs with [c; a; b] => Some (Some (c + a * b)%Z) | _ => None end) 0%Z)
      (Some 100%Z) None [6%Z; 7%Z] = Some (Some 142%Z).
Proof.
  destruct (generated_thunks_forward cb_proc) as (xs & ys & xc & yc & Hx & Hy & Hxc & Hyc & Hrun).
  - reflexivity.
  - eexists. reflexivity.
  - exists xs, ys, xc, yc. split; [exact Hx|]. split; [exact Hy|]. split; [exact Hxc|]. split; [exact Hyc|].
    apply (Hrun Z no_adaptor _ 0%Z (Some 100%Z) None [6%Z; 7%Z] (Some 142%Z)).
    + split; [intros _; by eexists|done].
    + reflexivity.
    + reflexivity.
    + split; intros _; by eexists.
Defined.

(** The guest's caller of [int foo(int, double)]. *)
Example foo_caller_text :
  match default_builder_begin Guest foo_proc with
  | Done p => proc_text p Caller false
  | _ => Undef
  end = Done (concat ((λ l, l ++ [c_nl]) <$>
   [$"int ProcFn<::foo, GuestToHost, Caller>::";
    $"invoke(int arg1, double arg2) {";
    $"    // prolog";
    $"    int ret;";
    $"    void *args[] = {";
    $"        (void *) &arg1,";
    $"        (void *) &arg2,";
    $"    };";
    $"    // forward";
    $"    // center";
    $"    ProcFn<foo, GuestToHost, Exec>::invoke(args, &ret, nullptr);";
    $"    // backward";
    $"    // epilog";
    $"    return ret;";
    $"}"])).
Proof. vm_compute. reflexivity. Qed.
