(* ===== verification/LibCFormat.v ===== *)
(** The builders of functions and callbacks that take a format:
    [src/tools/TLC/Passes/Builder/LibCFormat.cpp].

    A proc in the style of [printf], [vprintf], [scanf] or [vscanf] cannot forward its
    variable arguments.  The sender's [Entry] packs them into boxes by the format
    ([VariadicAdaptor::extract]), the boxes cross as one more argument, and the
    receiver's [Caller] calls the native function with the fixed arguments and the boxes
    ([VariadicAdaptor::call] or [vcall]).  The theorems say that the generated text is
    that of such programs, when it is defined at all, and which procs the builders
    claim. *)

From stdpp Require Import gmap.
From S2P Require Import Prelude CppString StringExtras ManifestSummary PassScheduler ClangExtras Document.
From S2P Require Import PassTemplates ThunkCode.

(** A pass: its style, whether the arguments come as a [va_list], and its id. *)
Record LibCFormatPass : Type := MkFormatPass { m_scanf : bool; m_hasVAList : bool; format_id : Z }.

Definition PrintFPass : LibCFormatPass := MkFormatPass false false ID_printf.
Definition VPrintFPass : LibCFormatPass := MkFormatPass false true ID_vprintf.
Definition ScanFPass : LibCFormatPass := MkFormatPass true false ID_scanf.
Definition VScanFPass : LibCFormatPass := MkFormatPass true true ID_vscanf.

Record LibCFormatMessage : Type := MkFormatMessage { fmtIdx : Z; vargIdx : Z }.

Section passes.
Context `{Clang}.

Definition format_key : str := $"LibCFormat".

(** [handleTranslationUnit]: the declarations that the name [CVargEntry] finds, with the
    type of those that declare one; the result is [CVargEntry *] and whether an error is
    reported. *)
Definition format_handleTranslationUnit (hasErrorOccurred : bool) (lookup : list (option QualType))
    (cvarg : option QualType) : option QualType * bool :=
  if hasErrorOccurred then (cvarg, false) else
  let cvarg := match omap id lookup with t :: _ => Some (getPointerType t) | [] => cvarg end in
  (cvarg, match cvarg with Some _ => false | None => true end).

(** ** Detection *)

Definition styleName (p : LibCFormatPass) : str := if m_scanf p then $"scanf" else $"printf".

(** The [format] attribute of a function without an overlay type. *)
Definition attribute_message (p : LibCFormatPass) (proc : ProcSnippet) : option LibCFormatMessage :=
  if is_callback proc || bool_decide (is_Some (desc ← proc_desc proc; overlayType desc)) then None else
  fd ← proc_functionDecl proc;
  '(style, fmt, first) ← fn_format fd;
  (if style =s? styleName p then
     if negb (m_hasVAList p) && (0 <? fmt)%Z && (0 <? first)%Z then Some (MkFormatMessage fmt first)
     else if m_hasVAList p && (0 <? fmt)%Z && (first =? 0)%Z then Some (MkFormatMessage fmt (fmt + 1))
     else None
   else None).

(** Whether the last parameter is a [va_list], by its spelling or its declaration's. *)
Definition last_is_va_list (proc : ProcSnippet) (t : QualType) : run bool :=
  s ← getTypeString t;
  if s =s? $"va_list" then Done true else
  match proc_functionDecl proc with
  | None => Done false
  | Some fd =>
      let params := fn_original_types fd in
      if (length params =? arity proc) then
        match last params with Some original => isVaListType original | None => Done false end
      else Done false
  end.

Definition name_message (p : LibCFormatPass) (proc : ProcSnippet) : run (option LibCFormatMessage) :=
  let view := proc_view proc in
  let argTypes := view_argTypes view in
  let n := Z.of_nat (length argTypes) in
  if m_hasVAList p then
    if negb (view_variadic view) && (1 <? length argTypes) then
      maybeVAListType ← defined (last argTypes);
      isVAList ← last_is_va_list proc maybeVAListType;
      maybeFmtParam ← defined (argTypes !! (length argTypes - 2));
      Done (if (isVAList : bool) && isCharPointerType maybeFmtParam
            then Some (MkFormatMessage (n - 1) n) else None)
    else Done None
  else
    Done (if view_variadic view then
            match last argTypes with
            | Some maybeFmtParam =>
                if isCharPointerType maybeFmtParam then Some (MkFormatMessage n (n + 1)) else None
            | None => None
            end
          else None).

(** The descriptor's arguments: given, or left to the default by a negative one. *)
Definition descriptor_message (p : LibCFormatPass) (proc : ProcSnippet) : option (option LibCFormatMessage) :=
  match PASS_getIntegralArgumentsInPass 2 proc true (format_id p) with
  | Some [a; b] => Some (if (a <? 0)%Z || (b <? 0)%Z then None else Some (MkFormatMessage a b))
  | _ => None
  end.

Definition format_testProc (p : LibCFormatPass) (proc : ProcSnippet) : run (option LibCFormatMessage) :=
  match descriptor_message p proc with
  | Some (Some msg) => Done (Some msg)
  | d =>
      match attribute_message p proc with
      | Some msg => Done (Some msg)
      | None =>
          if (match d with Some None => true | _ => false end) || ends_with (proc_name proc) (styleName p)
          then name_message p proc
          else Done None
      end
  end.
(** ** [beginHandleProc] *)

(** The signature that crosses: the variable arguments become [CVargEntry *vargs]. *)
Definition normalized_info (p : LibCFormatPass) (cvarg : option QualType) (info : FunctionInfo) : FunctionInfo :=
  let args := if m_hasVAList p then removelast (arguments info) else arguments info in
  MkInfo (returnType info) (args ++ [(cvarg, $"vargs")]) (metaArgTypes info) (metaRetType info)
    (if m_hasVAList p then isVariadic info else false).

(** [NFI], or [CNFI] for a callback. *)
Definition format_inner_info (p : LibCFormatPass) (cvarg : option QualType) (proc : ProcSnippet) :
    FunctionInfo :=
  let NFI := normalized_info p cvarg (real_info proc) in
  match proc_kind proc with Function_ => NFI | Callback => with_callback NFI end.

Fixpoint entry_lines (info : FunctionInfo) (i fixedCount : nat) : run str :=
  match fixedCount with
  | 0 => Done []
  | S fixedCount =>
      name ← defined (snd <$> arguments info !! i);
      rest ← entry_lines info (S i) fixedCount;
      Done (spaces 8 ++ $"CVargGet(" ++ name ++ $")," ++ [c_nl] ++ rest)
  end.

Definition SRC_fixedArgEntriesDecl (info : FunctionInfo) (fixedCount : Z) : run str :=
  lines ← entry_lines info 0 (Z.to_nat fixedCount);
  Done (spaces 4 ++ $"CVargEntry argv1[] = {" ++ [c_nl] ++ lines ++ spaces 4 ++ $"};" ++ [c_nl]).

Definition addVAStartEnd (fixedArgToken content : str) : str :=
  spaces 4 ++ $"{" ++ [c_nl] ++ spaces 8 ++ $"va_list ap;" ++ [c_nl]
  ++ spaces 8 ++ $"va_start(ap, " ++ fixedArgToken ++ $");" ++ [c_nl]
  ++ spaces 8 ++ content ++ [c_nl] ++ spaces 8 ++ $"va_end(ap);" ++ [c_nl]
  ++ spaces 4 ++ $"}" ++ [c_nl].

Definition getExtractStatment (p : LibCFormatPass) (formatName vaListName : str) : run str :=
  format ($"lore::VariadicAdaptor::extract(lore::VariadicAdaptor::%1, %2, %3, vargs);")
    [(if m_scanf p then $"ScanF" else $"PrintF"); formatName; vaListName].

(** [getProcCallHelperAssign] and [getProcCBCallHelperAssign]. *)
Definition call_helper (p : LibCFormatPass) (proc : ProcSnippet) : run str :=
  let callHelperName := if m_hasVAList p then $"vcall" else $"call" in
  match proc_kind proc with
  | Function_ =>
      format ($"lore::VariadicAdaptor::%1(ProcFn<%2, %3, Exec>::get(), sizeof(argv1) / sizeof(argv1[0]), argv1, -1, vargs, &vret);")
        [callHelperName; proc_name proc; direction_name (proc_direction proc)]
  | Callback =>
      format ($"lore::VariadicAdaptor::%1(callback, sizeof(argv1) / sizeof(argv1[0]), argv1, -1, vargs, &vret);")
        [callHelperName]
  end.

Definition getVRetInit (isVoid : bool) : str :=
  if isVoid then $"vret.type = 0;" else $"vret.type = CVargTypeID(ret);".

Definition getVRetValueAssign (info : FunctionInfo) : run str :=
  t ← defined (returnType info);
  if isVoidType t then Done []
  else s ← getTypeString t; format ($"ret = CVargValue(%1, vret);") [s].

(** The statement of [Entry] that fills [vargs]. *)
Definition extract_source (p : LibCFormatPass) (proc : ProcSnippet) (msg : LibCFormatMessage) : run str :=
  formatName ← argumentName (real_info proc) (fmtIdx msg - 1);
  if m_hasVAList p then
    vaListName ← argumentName (real_info proc) (vargIdx msg - 1);
    s ← getExtractStatment p formatName vaListName;
    Done (SRC_asIs s)
  else
    lastArgToken ← argumentName (real_info proc) (vargIdx msg - 2);
    s ← getExtractStatment p formatName ($"ap");
    Done (addVAStartEnd lastArgToken s).

Definition format_sender_side (p : LibCFormatPass) (cvarg : option QualType) (msg : LibCFormatMessage)
    (proc : ProcSnippet) (src : sources) : run sources :=
  let FI := real_info proc in
  let NFI := normalized_info p cvarg FI in
  let CFI := format_inner_info p cvarg proc in
  let isG2H := match proc_direction proc with GuestToHost => true | HostToGuest => false end in
  isVoid ← is_void FI;
  ret_decl ← SRC_emptyReturnDecl FI;
  ret_return ← SRC_returnRet FI;
  extract ← extract_source p proc msg;
  adapt ← proc_invoke proc ($"Adapt");
  caller ← proc_invoke proc ($"Caller");
  call_adapt ← SRC_callListAssign CFI adapt ($"ret");
  call_caller ← SRC_callListAssign CFI caller ($"ret");
  call_exec ← exec_invoke proc isVoid;
  let vargs := SRC_asIs ($"CVargEntry vargs[LORE_THUNK_VARG_MAX];") in
  let entry_prolog :=
    match proc_kind proc with
    | Function_ => [ret_decl; vargs]
    | Callback => [ret_decl; SRC_getCallback (negb isG2H); vargs]
    end in
  Done (fill_side format_key (MkByPhase FI CFI CFI)
    (MkByPhase (entry_prolog, [extract; call_adapt], [ret_return])
       ([ret_decl], [call_caller], [ret_return])
       ([ret_decl; SRC_argPtrListDecl NFI], [SRC_asIs call_exec], [ret_return])) src).

Definition format_receiver_side (p : LibCFormatPass) (cvarg : option QualType) (msg : LibCFormatMessage)
    (proc : ProcSnippet) (src : sources) : run sources :=
  let FI := real_info proc in
  let NFI := normalized_info p cvarg FI in
  let CFI := format_inner_info p cvarg proc in
  isVoid ← is_void FI;
  ret_decl ← SRC_emptyReturnDecl FI;
  ret_return ← SRC_returnRet FI;
  extract ← SRC_argPtrListExtractDecl NFI;
  ret_extract ← SRC_retExtractDecl FI;
  adapt ← proc_invoke proc ($"Adapt");
  caller ← proc_invoke proc ($"Caller");
  call_adapt ← SRC_callListAssign CFI adapt ($"ret_ref");
  call_caller ← SRC_callListAssign CFI caller ($"ret");
  entries ← SRC_fixedArgEntriesDecl FI (vargIdx msg - 1);
  helper ← call_helper p proc;
  value ← getVRetValueAssign FI;
  Done (fill_side format_key (MkByPhase (packed_info proc) CFI CFI)
    (MkByPhase ([extract; ret_extract], [call_adapt], [])
       ([ret_decl], [call_caller], [ret_return])
       ([ret_decl; entries; SRC_asIs ($"CVargEntry vret;"); SRC_asIs (getVRetInit isVoid)],
        [SRC_asIs helper; SRC_asIs value], [ret_return])) src).

(** The names the statements use are looked up first; [pop_back] needs an argument. *)
Definition format_begin (mode : Mode) (p : LibCFormatPass) (cvarg : option QualType) (msg : LibCFormatMessage)
    (proc : ProcSnippet) : run ProcSnippet :=
  let FI := real_info proc in
  let sender := is_sender mode proc in
  _ ← (if m_hasVAList p && (length (arguments FI) =? 0) then Undef else Done ());
  _ ← argumentName FI (fmtIdx msg - 1);
  _ ← argumentName FI (vargIdx msg - 2);
  x ← format_sender_side p cvarg msg proc (if sender then proc_source proc else empty_sources);
  y ← format_receiver_side p cvarg msg proc (if sender then empty_sources else proc_source proc);
  Done (with_sources proc (if sender then x else y)).

(** ** The code of the layers *)

(** The named parameters that cross, and the names at a message's indexes. *)
Definition fixed_arity (p : LibCFormatPass) (proc : ProcSnippet) : nat :=
  if m_hasVAList p then arity proc - 1 else arity proc.
Definition index_name (i : Z) : str := arg_name (Z.to_nat (i - 1)).
Definition fixed_count (msg : LibCFormatMessage) : nat := Z.to_nat (vargIdx msg - 1).

Definition format_shape (p : LibCFormatPass) (cvarg : QualType) (proc : ProcSnippet) : Shape :=
  MkShape (take (fixed_arity p proc) (sh_args (proc_shape proc)) ++ [(cvarg, $"vargs")])
    (is_callback proc) (result_type proc).

Definition extract_stmt (p : LibCFormatPass) (msg : LibCFormatMessage) : Stmt :=
  if m_hasVAList p then S_extract (m_scanf p) (index_name (fmtIdx msg)) (index_name (vargIdx msg))
  else S_va_extract (m_scanf p) (index_name (vargIdx msg - 1)) (index_name (fmtIdx msg)).

Definition format_entry_layer (p : LibCFormatPass) (msg : LibCFormatMessage) (proc : ProcSnippet) (sh : Shape) :
    LayerCode :=
  MkLayer (outer_names (proc_shape proc)) (declare sh ++ get_callback sh (negb (is_g2h proc)) ++ [S_vargs])
    [extract_stmt p msg; S_call (assigned sh ($"ret")) L_Adapt (inner_names sh)] (return_ sh).

Definition helper_layer (p : LibCFormatPass) (msg : LibCFormatMessage) (sh : Shape) : LayerCode :=
  MkLayer (inner_names sh)
    (declare sh ++ [S_entries (arg_name <$> seq 0 (fixed_count msg)); S_vret; S_vret_type (has_result sh)])
    (S_helper (m_hasVAList p) (sh_callback sh) :: match sh_ret sh with Some t => [S_value t] | None => [] end)
    (return_ sh).

Definition format_sender_code (p : LibCFormatPass) (cvarg : QualType) (msg : LibCFormatMessage)
    (proc : ProcSnippet) : by_phase LayerCode :=
  let sh := format_shape p cvarg proc in
  MkByPhase (format_entry_layer p msg proc sh) (forward_layer sh L_Caller) (pack_layer sh).

Definition format_receiver_code (p : LibCFormatPass) (cvarg : QualType) (msg : LibCFormatMessage)
    (proc : ProcSnippet) : by_phase LayerCode :=
  let sh := format_shape p cvarg proc in
  MkByPhase (unpack_layer sh) (forward_layer sh L_Caller) (helper_layer p msg sh).

(** The indexes name parameters; a [va_list] is one, variable arguments follow them. *)
Definition in_range (p : LibCFormatPass) (proc : ProcSnippet) (msg : LibCFormatMessage) : Prop :=
  (1 ≤ fmtIdx msg ≤ Z.of_nat (arity proc))%Z ∧
  (2 ≤ vargIdx msg ≤ Z.of_nat (arity proc) + (if m_hasVAList p then 0 else 1))%Z.

(** ** The shape *)

Section shape.
Variables (p : LibCFormatPass) (cvarg : QualType) (proc : ProcSnippet).

Lemma format_outer : outer_names (format_shape p cvarg proc) =
  (arg_name <$> seq 0 (fixed_arity p proc)) ++ [$"vargs"].
Proof.
  unfold format_shape, outer_names. cbn [sh_args]. rewrite fmap_app, fmap_take.
  fold (outer_names (proc_shape proc)). rewrite outer_args, <- fmap_take, take_seq. do 3 f_equal.
  unfold fixed_arity. destruct (m_hasVAList p); lia.
Qed.

Lemma format_arguments info :
  arguments info = prod_map Some id <$> sh_args (proc_shape proc) →
  arguments (normalized_info p (Some cvarg) info) =
    prod_map Some id <$> sh_args (format_shape p cvarg proc).
Proof.
  intros Hi. unfold normalized_info, format_shape. cbn [arguments sh_args]. rewrite fmap_app, Hi, fmap_take.
  f_equal. assert (length (prod_map Some (@id str) <$> sh_args (proc_shape proc)) = arity proc) as Hlen.
  { rewrite length_fmap. unfold proc_shape. simpl. by rewrite length_imap. }
  unfold fixed_arity. rewrite <- Hlen. destruct (m_hasVAList p); [|by rewrite firstn_all].
  by rewrite Nat.sub_1_r, removelast_firstn_len.
Qed.

Lemma format_outer_names :
  arg_names (normalized_info p (Some cvarg) (real_info proc)) = outer_names (format_shape p cvarg proc).
Proof.
  unfold arg_names, outer_names. rewrite (format_arguments _ (real_arguments proc)), <- list_fmap_compose. done.
Qed.

Lemma format_inner_names :
  arg_names (format_inner_info p (Some cvarg) proc) = inner_names (format_shape p cvarg proc).
Proof. apply inner_names_info; [apply format_outer_names|done]. Qed.

Lemma format_shape_ok : shape_ok (format_shape p cvarg proc).
Proof.
  apply shape_ok_intro; rewrite format_outer.
  - apply NoDup_snoc; [apply names_NoDup, NoDup_seq|]. apply not_arg_names, not_arg_vargs.
  - rewrite not_elem_of_app. split; [apply not_arg_names, not_arg_callback|]. intros Heq%list_elem_of_singleton; discriminate Heq.
  - rewrite not_elem_of_app. split; [apply not_arg_names, not_arg_ret|]. intros Heq%list_elem_of_singleton; discriminate Heq.
  - rewrite not_elem_of_app. split; [apply not_arg_names, not_arg_ret_ref|]. intros Heq%list_elem_of_singleton; discriminate Heq.
Qed.
End shape.

(** ** A call through both documents *)

Section call.
Context {V : Type}.
Variables (va : Adaptor V) (p : LibCFormatPass) (cvarg : QualType) (proc : ProcSnippet).
Variables (msg : LibCFormatMessage) (cb r : option V) (vs : list V) (vfmt boxes : V).
Let sh := format_shape p cvarg proc.
Hypothesis Hrange : in_range p proc msg.
Hypothesis Hcb : callback_fits sh cb.
Hypothesis Hfits : fits sh r.
Hypothesis Hlen : length vs = arity proc.

(** What crosses. *)
Definition crossing_values : list V := take (fixed_arity p proc) vs ++ [boxes].

Lemma fixed_arity_le : fixed_arity p proc ≤ arity proc.
Proof using. clear. unfold fixed_arity. destruct (m_hasVAList p); lia. Qed.

Lemma fixed_count_le : fixed_count msg ≤ fixed_arity p proc.
Proof using Hrange.
  clear -Hrange. destruct Hrange as [_ Hv]. unfold fixed_count, fixed_arity.
  destruct (m_hasVAList p); lia.
Qed.

Lemma crossing_length : length crossing_values = length (outer_names sh).
Proof using Hlen.
  clear -Hlen. unfold crossing_values, sh. rewrite format_outer, !length_app, length_fmap, length_seq.
  rewrite length_take, Hlen. pose proof fixed_arity_le. simpl. lia.
Qed.

(** A frame that holds the named arguments and the boxes holds what crosses. *)
Lemma read_crossing f n :
  read_all f (arg_name <$> seq 0 n) = Some (take n vs) → n ≤ arity proc → fixed_arity p proc ≤ n →
  fr_vars f !! ($"vargs") = Some boxes → read_all f (outer_names sh) = Some crossing_values.
Proof using Hlen.
  clear -Hlen. intros Hread Hn Hfix Hv. unfold sh. rewrite format_outer. unfold crossing_values, read_all in *.
  apply mapM_Some. apply mapM_Some in Hread. apply Forall2_app; [|by constructor].
  apply (Forall2_take _ _ _ (fixed_arity p proc)) in Hread.
  rewrite <- fmap_take, take_seq, take_take in Hread. by rewrite !Nat.min_l in Hread by lia.
Qed.

Lemma read_prefix f n m :
  read_all f (arg_name <$> seq 0 n) = Some (take n vs) → m ≤ n →
  read_all f (arg_name <$> seq 0 m) = Some (take m vs).
Proof using.
  clear. unfold read_all. intros Hread%mapM_Some Hm. apply mapM_Some.
  apply (Forall2_take _ _ _ m) in Hread. rewrite <- fmap_take, take_seq, take_take in Hread.
  by rewrite !Nat.min_l in Hread by lia.
Qed.

Lemma read_index f n i v :
  read_all f (arg_name <$> seq 0 n) = Some (take n vs) → (1 ≤ i ≤ Z.of_nat n)%Z →
  vs !! Z.to_nat (i - 1) = Some v → fr_vars f !! index_name i = Some v.
Proof using.
  clear. intros Hread Hi Hv. apply (read_all_inv _ _ _ (Z.to_nat (i - 1)) (index_name i) v Hread).
  - rewrite list_lookup_fmap, lookup_seq_lt by lia. done.
  - rewrite lookup_take_lt by lia. done.
Qed.

(** The receiver's [Caller] calls with the first arguments and the boxes. *)
Lemma helper_layer_spec env :
  va_call va (m_hasVAList p) cb (has_result sh) (take (fixed_count msg) vs) boxes = Some r →
  typed (run_layer va env (helper_layer p msg sh) (inner_values cb crossing_values)) = Some r.
Proof using Hrange Hcb Hfits Hlen.
  intros Hcall. pose proof fixed_count_le as Hle. pose proof fixed_arity_le as Hle'. unfold run_layer, helper_layer.
  cbn [layer_params layer_prolog layer_center layer_epilog].
  rewrite (inner_values_length sh cb crossing_values Hcb crossing_length), Nat.eqb_refl, <- !app_assoc,
    exec_stmts_app, exec_declare.
  set (f := new_frame (list_to_map (zip (inner_names sh) (inner_values cb crossing_values)))).
  assert (read_all f (inner_names sh) = Some (inner_values cb crossing_values)) as Hread.
  { apply read_bound; [apply format_shape_ok|]. by apply inner_values_length, crossing_length. }
  apply (inner_reads sh cb crossing_values Hcb) in Hread as [Hread Hslot].
  assert (read_all f (arg_name <$> seq 0 (fixed_count msg)) = Some (take (fixed_count msg) vs)) as Hent.
  { unfold sh in Hread. rewrite format_outer in Hread. unfold crossing_values, read_all in Hread.
    apply mapM_Some, Forall2_app_inv in Hread as [Hargs _].
    - apply (read_prefix _ (fixed_arity p proc)); [by apply mapM_Some|done].
    - rewrite length_fmap, length_seq, length_take, Hlen. lia. }
  assert (fr_vars f !! ($"vargs") = Some boxes) as Hv.
  { apply (read_all_inv f _ _ (fixed_arity p proc) ($"vargs") boxes Hread).
    - unfold sh. rewrite format_outer, lookup_app_r; rewrite length_fmap, length_seq; [|done].
      by rewrite Nat.sub_diag.
    - unfold crossing_values. rewrite lookup_app_r by (rewrite length_take; lia).
      rewrite length_take, Hlen, Nat.min_l, Nat.sub_diag by lia. done. }
  cbn [mbind option_bind app exec_stmts exec_stmt]. rewrite Hent. cbn [mbind option_bind set_entries set_vret fr_vars fr_vret_type fr_entries fr_vret].
  rewrite Hslot, Hv. cbn [mbind option_bind]. rewrite Hcall. cbn [mbind option_bind].
  destruct (fits_cases _ _ Hfits) as [(t & v & Hr & ->)|[Hr ->]]; unfold return_; rewrite Hr; [|done].
  cbn [mbind option_bind app exec_stmts exec_stmt set_vret fr_vret set_var fr_vars].
  rewrite lookup_insert_eq. done.
Qed.

(** The sender's [Entry] packs the variable arguments. *)
Lemma format_entry_spec variadic vap next :
  vs !! Z.to_nat (fmtIdx msg - 1) = Some vfmt →
  (if m_hasVAList p then vs !! fixed_count msg = Some vap
   else variadic = Some (index_name (vargIdx msg - 1), vap)) →
  va_extract va (m_scanf p) vfmt vap = Some boxes →
  next (inner_values cb crossing_values) = Some r →
  typed (run_layer va (entered cb variadic (calls L_Adapt next)) (format_entry_layer p msg proc sh) vs) = Some r.
Proof using Hrange Hcb Hfits Hlen.
  intros Hfmt Hap Hext Hnext. pose proof fixed_arity_le as Hle. destruct Hrange as [Hf Hv]. unfold run_layer, format_entry_layer.
  cbn [layer_params layer_prolog layer_center layer_epilog].
  rewrite shape_length, Hlen, Nat.eqb_refl, <- !app_assoc, exec_stmts_app, exec_declare, outer_args. cbn [mbind option_bind].
  rewrite exec_stmts_app. set (f := new_frame (list_to_map (zip _ vs))). set (f1 := with_result ($"callback") cb f).
  assert (exec_stmts va (entered cb variadic (calls L_Adapt next)) (get_callback sh (negb (is_g2h proc))) f = Some f1) as ->.
  { unfold get_callback, f1. by destruct (callback_fits_cases _ _ Hcb) as [[-> [c ->]]|[-> ->]]. }
  assert (read_all f1 (arg_name <$> seq 0 (arity proc)) = Some (take (arity proc) vs)) as Hread.
  { rewrite firstn_all2 by lia. rewrite (read_all_ext _ f).
    - apply read_bound; [apply names_NoDup, NoDup_seq|]. by rewrite length_fmap, length_seq.
    - intros x Hx. unfold f1. destruct cb; [|done]. simpl. rewrite lookup_insert_ne; [done|].
      intros <-. by apply (not_arg_names _ _ not_arg_callback) in Hx. }
  assert (fr_vars f1 !! index_name (fmtIdx msg) = Some vfmt) as Hf1 by (eapply read_index; [exact Hread|lia|done]).
  set (f2 := set_var ($"vargs") boxes f1).
  assert (exec_stmt va (entered cb variadic (calls L_Adapt next)) (extract_stmt p msg) f1 = Some f2) as Hstep.
  { unfold extract_stmt, fixed_count in *. destruct (m_hasVAList p); cbn [exec_stmt]; rewrite Hf1; cbn [mbind option_bind].
    - rewrite (read_index _ _ (vargIdx msg) vap Hread) by (lia || done). cbn [mbind option_bind]. by rewrite Hext.
    - cbn [entered env_variadic]. rewrite Hap. cbn [mbind option_bind]. by rewrite bool_decide_true, Hext. }
  assert (read_all f2 (inner_names sh) = Some (inner_values cb crossing_values)) as Hinner.
  { apply inner_reads; [done|]. split.
    - apply (read_crossing _ (arity proc)); [|done..|apply lookup_insert_eq]. rewrite (read_all_ext _ f1); [done|].
      intros x Hx. simpl. rewrite lookup_insert_ne; [done|]. intros <-. by apply (not_arg_names _ _ not_arg_vargs) in Hx.
    - unfold f2, f1. destruct (callback_fits_cases _ _ Hcb) as [[-> [c ->]]|[-> ->]]; [|done].
      simpl. rewrite lookup_insert_ne by done. by rewrite lookup_insert_eq. }
  cbn [mbind option_bind app exec_stmts]. assert (exec_stmt va (entered cb variadic (calls L_Adapt next)) S_vargs f1 = Some f1) as -> by done.
  cbn [mbind option_bind]. rewrite Hstep. cbn [mbind option_bind].
  erewrite exec_call; [|exact Hinner|done|done]. cbn [mbind option_bind]. apply exec_return; [done|].
  unfold f2, f1. by destruct cb.
Qed.

Lemma format_call variadic vap native packed :
  vs !! Z.to_nat (fmtIdx msg - 1) = Some vfmt →
  (if m_hasVAList p then vs !! fixed_count msg = Some vap
   else variadic = Some (index_name (vargIdx msg - 1), vap)) →
  va_extract va (m_scanf p) vfmt vap = Some boxes →
  va_call va (m_hasVAList p) cb (has_result sh) (take (fixed_count msg) vs) boxes = Some r →
  run_sender va (format_sender_code p cvarg msg proc)
    (run_receiver va (format_receiver_code p cvarg msg proc) native packed) cb variadic vs = Some r.
Proof using Hrange Hcb Hfits Hlen.
  intros Hfmt Hap Hext Hcall. pose proof (format_shape_ok p cvarg proc) as Hok. pose proof crossing_length as Hl.
  unfold run_sender, run_receiver. eapply format_entry_spec; [done..|].
  apply forward_layer_spec; [done..|]. apply pack_layer_spec; [done..|]. apply unpack_layer_spec; [done..|].
  apply forward_layer_spec; [done..|]. by apply helper_layer_spec.
Qed.
End call.

(** ** The text of the two sides *)

Lemma argument_index proc i :
  (1 ≤ i ≤ Z.of_nat (arity proc))%Z → argumentName (real_info proc) (i - 1) = Done (index_name i).
Proof.
  intros Hi. unfold argumentName. rewrite (proj2 (Z.ltb_ge _ _)) by lia.
  rewrite <- list_lookup_fmap. fold (arg_names (real_info proc)).
  rewrite real_names, list_lookup_fmap, lookup_seq_lt by lia. done.
Qed.

Lemma argument_out_of_range proc i :
  ¬ (1 ≤ i ≤ Z.of_nat (arity proc))%Z → argumentName (real_info proc) (i - 1) = Undef.
Proof.
  intros Hi. unfold argumentName. destruct (Z.ltb_spec (i - 1) 0); [done|].
  rewrite <- list_lookup_fmap. fold (arg_names (real_info proc)).
  rewrite real_names, list_lookup_fmap, lookup_seq_ge by lia. done.
Qed.

Lemma extract_statement p fmt ap : getExtractStatment p fmt ap = Done (extract_text (m_scanf p) fmt ap).
Proof. unfold getExtractStatment, extract_text. destruct (m_scanf p); reflexivity. Qed.

Section sides.
Variables (p : LibCFormatPass) (cvarg : QualType) (proc : ProcSnippet) (msg : LibCFormatMessage) (t : QualType).
Let sh := format_shape p cvarg proc.
Hypothesis Hret : view_returnType (proc_view proc) = Some t.
Hypothesis Hrange : in_range p proc msg.

Lemma extract_source_renders :
  ∃ s, renders proc (extract_source p proc msg) [extract_stmt p msg] s.
Proof using Hrange.
  clear Hret. destruct Hrange as [Hf Hv]. unfold extract_source, extract_stmt.
  rewrite (argument_index proc _ Hf). cbn [mbind run_bind]. destruct (m_hasVAList p).
  - rewrite argument_index by lia. cbn [mbind run_bind]. rewrite extract_statement.
    eexists. apply asIs_renders; [done|]. reflexivity.
  - replace (vargIdx msg - 2)%Z with (vargIdx msg - 1 - 1)%Z by lia.
    rewrite argument_index by lia. cbn [mbind run_bind]. rewrite extract_statement.
    eexists. apply renders_one; [done| |].
    + unfold stmt_text, addVAStartEnd, code_line, inner_line. rewrite <- !app_assoc. reflexivity.
    + unfold addVAStartEnd. right. eexists. rewrite !app_assoc. reflexivity.
Qed.

Lemma inner_line_app s rest : inner_line s ++ rest = spaces 8 ++ s ++ [c_nl] ++ rest.
Proof using. clear. unfold inner_line. by rewrite <- !app_assoc. Qed.

Lemma entry_lines_names info i n :
  arg_names info = arg_name <$> seq 0 (arity proc) → i + n ≤ arity proc →
  entry_lines info i n = Done (concat ((λ x, inner_line ($"CVargGet(" ++ x ++ $"),")) <$> (arg_name <$> seq i n))).
Proof using.
  clear. intros Hn. revert i. induction n as [|n IH]; intros i Hi; [done|]. cbn [entry_lines seq].
  rewrite <- list_lookup_fmap. fold (arg_names info). rewrite Hn, list_lookup_fmap, lookup_seq_lt by lia.
  cbn [fmap option_fmap option_map defined mbind run_bind Nat.add]. rewrite IH by lia. cbn [mbind run_bind].
  rewrite !fmap_cons. cbn [concat]. rewrite inner_line_app. by rewrite <- !app_assoc.
Qed.

Lemma fixed_entries_renders :
  ∃ s, renders proc (SRC_fixedArgEntriesDecl (real_info proc) (vargIdx msg - 1))
         [S_entries (arg_name <$> seq 0 (fixed_count msg))] s.
Proof using Hrange.
  clear Hret. unfold SRC_fixedArgEntriesDecl. fold (fixed_count msg).
  rewrite entry_lines_names; [|apply real_names|].
  - cbn [mbind run_bind]. eexists. apply renders_one; [done| |].
    + unfold stmt_text, code_line. by rewrite <- !app_assoc.
    + right. eexists. rewrite !app_assoc. reflexivity.
  - destruct Hrange as [_ Hv]. unfold fixed_count. destruct (m_hasVAList p); lia.
Qed.

Lemma helper_renders :
  ∃ h s, call_helper p proc = Done h ∧
    renders proc (Done (SRC_asIs h)) [S_helper (m_hasVAList p) (sh_callback sh)] s.
Proof using.
  clear. exists (helper_text proc (m_hasVAList p) (is_callback proc)). eexists. split; [|by apply asIs_renders].
  unfold call_helper, helper_text, layer_template, is_callback.
  destruct (proc_kind proc), (m_hasVAList p); cbn [proc_template]; rewrite <- ?app_assoc; reflexivity.
Qed.

Lemma vret_value_renders :
  ∃ v s, getVRetValueAssign (real_info proc) = Done v ∧
    renders proc (Done (SRC_asIs v)) (match sh_ret sh with Some t => [S_value t] | None => [] end) s.
Proof using Hret.
  clear Hrange. unfold getVRetValueAssign, sh. cbn [sh_ret format_shape].
  pose proof (proc_ret proc t Hret) as Hsh. cbn [sh_ret proc_shape] in Hsh. rewrite Hsh.
  rewrite (Hret : returnType (real_info proc) = _). cbn [defined mbind run_bind].
  destruct (isVoidType t); [exists [], []; split; [done|by apply renders_nothing]|].
  destruct (getTypeString_total t) as [s Hs]. rewrite Hs. cbn [mbind run_bind].
  exists ($"ret = CVargValue(" ++ s ++ $", vret);"). eexists. split; [reflexivity|].
  apply asIs_renders; [done|]. unfold stmt_text. by rewrite Hs.
Qed.

Lemma format_ret : sh_ret sh = if isVoidType t then None else Some t.
Proof using Hret. clear Hrange. apply (proc_ret proc t Hret). Qed.

Lemma format_inner_ret : returnType (format_inner_info p (Some cvarg) proc) = Some t.
Proof using Hret. clear Hrange. unfold format_inner_info. by destruct (proc_kind proc). Qed.

Lemma format_sender_side_is :
  ∃ src, format_sender_side p (Some cvarg) msg proc empty_sources = Done src ∧
    side_is proc (format_sender_code p cvarg msg proc) src.
Proof using Hret Hrange.
  pose proof format_ret as Hsh. pose proof (Hret : returnType (real_info proc) = _) as Hr.
  pose proof format_inner_ret as Hi. pose proof (format_inner_names p cvarg proc) as Hn.
  destruct (empty_return_renders proc _ t Hsh _ Hr) as [decl Hdecl].
  destruct (return_renders proc _ t Hsh _ Hr) as [ret Hreturn].
  destruct extract_source_renders as [ex Hex].
  destruct (call_renders proc _ t Hsh _ L_Adapt ($"ret") Hi Hn) as [ca Hca].
  destruct (call_renders proc _ t Hsh _ L_Caller ($"ret") Hi Hn) as [cc Hcc].
  destruct (cross_renders proc _ t Hsh eq_refl) as [cx Hcx].
  destruct (pack_renders proc _ _ (format_outer_names p cvarg proc)) as [pk Hpack].
  pose proof (asIs_renders proc S_vargs ($"CVargEntry vargs[LORE_THUNK_VARG_MAX];") ltac:(done) eq_refl) as Hvargs.
  unfold format_sender_side. rewrite (void_info t _ Hr), (proj1 Hdecl), (proj1 Hreturn), (proj1 Hex).
  rewrite (invoke_text proc L_Adapt : proc_invoke proc ($"Adapt") = _),
    (invoke_text proc L_Caller : proc_invoke proc ($"Caller") = _).
  cbn [mbind run_bind]. rewrite (proj1 Hca), (proj1 Hcc), exec_text. cbn [mbind run_bind].
  eexists. split; [done|]. injection (proj1 Hpack) as ->. injection (proj1 Hcx) as Hx.
  intros ph. destruct ph; cbn [at_phase at_entry at_adapt at_caller fill_side format_sender_code empty_sources];
    apply fill_is; try done; try apply outer_info; try (by eapply section_one).
  - unfold get_callback, format_shape, is_callback, is_g2h. cbn [sh_callback]. destruct (proc_kind proc).
    + eapply section_cons; [done|]. by eapply section_one.
    + eapply section_cons; [done|]. eapply (section_cons _ _ [_]); [apply get_callback_renders|]. by eapply section_one.
  - eapply (section_cons _ _ [_]); [done|]. by eapply section_one.
  - eapply section_cons; [done|]. by eapply section_one.
  - rewrite Hx. by eapply section_one.
Qed.

Lemma format_receiver_side_is :
  ∃ src, format_receiver_side p (Some cvarg) msg proc empty_sources = Done src ∧
    side_is proc (format_receiver_code p cvarg msg proc) src.
Proof using Hret Hrange.
  pose proof format_ret as Hsh. pose proof (Hret : returnType (real_info proc) = _) as Hr.
  pose proof format_inner_ret as Hi. pose proof (format_inner_names p cvarg proc) as Hn.
  destruct (empty_return_renders proc _ t Hsh _ Hr) as [decl Hdecl].
  destruct (return_renders proc _ t Hsh _ Hr) as [ret Hreturn].
  destruct (extract_renders proc _ _ (format_arguments p cvarg proc _ (real_arguments proc))) as [ext Hext].
  destruct (ret_extract_renders proc _ t Hsh _ Hr) as [rext Hrext].
  destruct (call_renders proc _ t Hsh _ L_Caller ($"ret") Hi Hn) as [cc Hcc].
  destruct (call_renders proc _ t Hsh _ L_Adapt ($"ret_ref") Hi Hn) as [cr Hcr].
  destruct fixed_entries_renders as [en Hen]. destruct helper_renders as (h & hs & Hh & Hhs).
  destruct vret_value_renders as (v & vs & Hv & Hvs).
  pose proof (asIs_renders proc S_vret ($"CVargEntry vret;") ltac:(done) eq_refl) as Hvret.
  assert (renders proc (Done (SRC_asIs (getVRetInit (isVoidType t)))) [S_vret_type (has_result sh)]
    (code_line (getVRetInit (isVoidType t)))) as Hinit.
  { unfold has_result. fold sh in Hsh. rewrite Hsh. by destruct (isVoidType t); apply asIs_renders. }
  unfold format_receiver_side.
  rewrite (void_info t _ Hr), (proj1 Hdecl), (proj1 Hreturn), (proj1 Hext), (proj1 Hrext).
  rewrite (invoke_text proc L_Adapt : proc_invoke proc ($"Adapt") = _),
    (invoke_text proc L_Caller : proc_invoke proc ($"Caller") = _).
  cbn [mbind run_bind]. rewrite (proj1 Hcr), (proj1 Hcc), (proj1 Hen), Hh, Hv. cbn [mbind run_bind].
  eexists. split; [done|].
  injection (proj1 Hhs) as ->. injection (proj1 Hvs) as ->. injection (proj1 Hinit) as ->.
  intros ph. destruct ph; cbn [at_phase at_entry at_adapt at_caller fill_side format_receiver_code empty_sources];
    apply fill_is; try done; try (by apply packed_info_names); try (by eapply section_one); try apply section_nil.
  - eapply section_cons; [done|]. by eapply section_one.
  - eapply section_cons; [done|]. eapply (section_cons _ _ [_]); [done|]. eapply (section_cons _ _ [_]); [done|].
    by eapply section_one.
  - eapply (section_cons _ _ [_]); [done|]. by eapply section_one.
Qed.
End sides.

Lemma format_text mode p cvarg msg proc :
  proc_source proc = empty_sources → is_Some (view_returnType (proc_view proc)) → in_range p proc msg →
  ∃ src, format_begin mode p (Some cvarg) msg proc = Done (with_sources proc src) ∧
    side_is proc (if is_sender mode proc then format_sender_code p cvarg msg proc
                  else format_receiver_code p cvarg msg proc) src.
Proof.
  intros Hsrc [t Hr] Hrange. unfold format_begin. rewrite Hsrc.
  destruct (format_sender_side_is p cvarg proc msg t Hr Hrange) as (x & Hx & Hxs),
    (format_receiver_side_is p cvarg proc msg t Hr Hrange) as (y & Hy & Hys).
  destruct Hrange as [Hf Hv].
  assert (length (arguments (real_info proc)) = arity proc) as ->
    by (unfold real_info, info_of_view; simpl; by rewrite length_imap).
  assert (m_hasVAList p && (arity proc =? 0) = false) as ->.
  { apply andb_false_iff. right. apply Nat.eqb_neq. lia. }
  rewrite (argument_index proc _ Hf). replace (vargIdx msg - 2)%Z with (vargIdx msg - 1 - 1)%Z by lia.
  rewrite argument_index by (destruct (m_hasVAList p); lia). cbn [mbind run_bind].
  destruct (is_sender mode proc); rewrite Hx, Hy; by eexists.
Qed.

Lemma format_extract_undefined p proc msg :
  m_hasVAList p = true → ¬ (vargIdx msg ≤ Z.of_nat (arity proc))%Z → extract_source p proc msg = Undef ∨
  ¬ (1 ≤ fmtIdx msg ≤ Z.of_nat (arity proc))%Z.
Proof.
  intros Hva Hv. destruct (decide (1 ≤ fmtIdx msg ≤ Z.of_nat (arity proc))%Z) as [Hf|]; [|by right].
  left. unfold extract_source. rewrite (argument_index proc _ Hf), Hva. cbn [mbind run_bind].
  by rewrite argument_out_of_range by lia.
Qed.

Lemma format_out_of_range mode p cvarg msg proc :
  is_Some (view_returnType (proc_view proc)) → ¬ in_range p proc msg →
  format_begin mode p (Some cvarg) msg proc = Undef.
Proof.
  intros [t Hr] Hout. unfold format_begin.
  destruct (m_hasVAList p && _) eqn:Hempty; [done|]. cbn [mbind run_bind].
  destruct (decide (1 ≤ fmtIdx msg ≤ Z.of_nat (arity proc))%Z) as [Hf|Hf];
    [rewrite (argument_index proc _ Hf)|by rewrite (argument_out_of_range proc _ Hf)]. cbn [mbind run_bind].
  replace (vargIdx msg - 2)%Z with (vargIdx msg - 1 - 1)%Z by lia.
  destruct (decide (1 ≤ vargIdx msg - 1 ≤ Z.of_nat (arity proc))%Z) as [Hv|Hv];
    [rewrite (argument_index proc _ Hv)|by rewrite (argument_out_of_range proc _ Hv)]. cbn [mbind run_bind].
  assert (m_hasVAList p = true ∧ ¬ (vargIdx msg ≤ Z.of_nat (arity proc))%Z) as [Hva Hlast].
  { unfold in_range in Hout. destruct (m_hasVAList p); [|exfalso; apply Hout; lia]. split; [done|].
    intros Hle. apply Hout. lia. }
  destruct (format_extract_undefined p proc msg Hva Hlast) as [Hex|]; [|done].
  pose proof (Hr : returnType (real_info proc) = _) as Hri. unfold format_sender_side.
  destruct (empty_return_renders proc _ t (proc_ret proc t Hr) _ Hri) as [decl Hdecl].
  destruct (return_renders proc _ t (proc_ret proc t Hr) _ Hri) as [ret Hreturn].
  by rewrite (void_info t _ Hri), (proj1 Hdecl), (proj1 Hreturn), Hex.
Qed.

(** The builder has defined behaviour exactly when the format's index names a
    parameter and the variable arguments' index is at least 2 and at most one past the
    parameters, or the last one for a [va_list]; no check of the descriptor or of the
    attribute ensures it. *)
Theorem format_begin_bounds mode p cvarg msg proc :
  proc_source proc = empty_sources → is_Some (view_returnType (proc_view proc)) →
  (in_range p proc msg → ∃ src, format_begin mode p (Some cvarg) msg proc = Done (with_sources proc src)) ∧
  (¬ in_range p proc msg → format_begin mode p (Some cvarg) msg proc = Undef).
Proof.
  intros Hsrc Hret. split; [|by apply format_out_of_range]. intros Hrange.
  destruct (format_text mode p cvarg msg proc Hsrc Hret Hrange) as (src & Hb & _). by exists src.
Qed.

(** C4: when the indexes are in range, and those of variable arguments follow the last
    parameter, the builder's text in the two documents is, section by section, that of
    two programs, and running them on the arguments of a call boxes the variable
    arguments by the format the index names and calls the native function, or the
    callback of the thread's slot, with the parameters before the variable arguments and
    these boxes, and returns its result.  Parameters after a [va_list] never arrive. *)
Theorem format_thunks_forward p cvarg msg proc :
  proc_source proc = empty_sources → is_Some (view_returnType (proc_view proc)) → in_range p proc msg →
  (m_hasVAList p = false → vargIdx msg = Z.of_nat (arity proc) + 1)%Z →
  ∃ xsrc ysrc xcode ycode,
    format_begin (sender_mode proc) p (Some cvarg) msg proc = Done (with_sources proc xsrc) ∧
    format_begin (receiver_mode proc) p (Some cvarg) msg proc = Done (with_sources proc ysrc) ∧
    side_is proc xcode xsrc ∧ side_is proc ycode ysrc ∧
    ∀ (V : Type) (va : Adaptor V) native packed cb ap vs vfmt boxes r,
      let k := Z.to_nat (vargIdx msg - 1) in
      callback_fits (proc_shape proc) cb → length vs = arity proc →
      vs !! Z.to_nat (fmtIdx msg - 1) = Some vfmt →
      va_extract va (m_scanf p) vfmt (if m_hasVAList p then default ap (vs !! k) else ap) = Some boxes →
      va_call va (m_hasVAList p) cb (has_result (proc_shape proc)) (take k vs) boxes = Some r →
      fits (proc_shape proc) r →
      run_sender va xcode (run_receiver va ycode native packed) cb (Some (arg_name (arity proc - 1), ap)) vs
        = Some r.
Proof.
  intros Hsrc Hret Hrange Hlast.
  destruct (format_text (sender_mode proc) p cvarg msg proc Hsrc Hret Hrange) as (x & Hx & Hxs).
  destruct (format_text (receiver_mode proc) p cvarg msg proc Hsrc Hret Hrange) as (y & Hy & Hys).
  rewrite sender_mode_sends in Hxs. rewrite receiver_mode_receives in Hys.
  exists x, y, (format_sender_code p cvarg msg proc), (format_receiver_code p cvarg msg proc).
  split_and!; [done..|]. intros V va native packed cb ap vs vfmt boxes r k Hcb Hlen Hfmt Hext Hcall Hfits.
  apply (format_call va p cvarg proc msg cb r vs vfmt boxes Hrange Hcb Hfits Hlen _
    (if m_hasVAList p then default ap (vs !! k) else ap)); [done| |exact Hext|exact Hcall].
  destruct Hrange as [_ Hv]. unfold fixed_count. fold k. destruct (m_hasVAList p).
  - destruct (lookup_lt_is_Some_2 vs k) as [v Hk]; [unfold k; lia|]. by rewrite Hk.
  - rewrite Hlast by done. unfold index_name. repeat f_equal. lia.
Qed.

(** ** Detection *)

Lemma last_is_va_list_total proc t : ∃ b, last_is_va_list proc t = Done b.
Proof.
  unfold last_is_va_list. destruct (getTypeString_total t) as [s ->]. cbn [mbind run_bind].
  case_bool_decide; [by eexists|]. destruct (proc_functionDecl proc); [|by eexists].
  destruct (_ =? _); [|by eexists]. destruct (last _); [apply isVaListType_total|by eexists].
Qed.

Lemma last_lookup_length {A} (l : list A) x : last l = Some x → 1 ≤ length l.
Proof. destruct l; [done|simpl; lia]. Qed.

Lemma name_message_in_range p proc :
  ∃ m, name_message p proc = Done m ∧
    ∀ msg, m = Some msg → in_range p proc msg ∧ vargIdx msg = (Z.of_nat (fixed_arity p proc) + 1)%Z.
Proof.
  unfold name_message, in_range, fixed_arity, arity. set (l := view_argTypes (proc_view proc)).
  destruct (m_hasVAList p).
  - destruct (negb _ && _) eqn:Hn; [|by eexists]. apply andb_prop in Hn as [_ Hn]. apply Nat.ltb_lt in Hn.
    destruct (last l) as [t|] eqn:Hl; [|apply last_None in Hl; rewrite Hl in Hn; simpl in Hn; lia].
    destruct (last_is_va_list_total proc t) as [b Hb]. cbn [defined mbind run_bind]. rewrite Hb.
    destruct (lookup_lt_is_Some_2 l (length l - 2)) as [t' Ht]; [lia|]. rewrite Ht. cbn [defined mbind run_bind].
    eexists. split; [done|]. destruct (_ && _); [|done]. intros msg [= <-]. cbn [fmtIdx vargIdx]. lia.
  - eexists. split; [done|]. destruct (view_variadic _); [|done]. destruct (last l) as [t|] eqn:Hl; [|done].
    apply last_lookup_length in Hl. destruct (isCharPointerType t); [|done]. intros msg [= <-].
    cbn [fmtIdx vargIdx]. lia.
Qed.

(** The builders' tests end, and a message that comes neither from the indexes of a
    descriptor nor from a [format] attribute, but from the proc's name and type, is in
    range, with the variable arguments after the last parameter that crosses. *)
Theorem format_test_in_range p proc :
  ∃ m, format_testProc p proc = Done m ∧
    ∀ msg, m = Some msg →
      descriptor_message p proc = Some (Some msg) ∨ attribute_message p proc = Some msg ∨
      in_range p proc msg ∧ vargIdx msg = (Z.of_nat (fixed_arity p proc) + 1)%Z.
Proof.
  unfold format_testProc. destruct (name_message_in_range p proc) as (m & Hm & Hrange).
  destruct (descriptor_message p proc) as [[dm|]|]; [eexists; split; [done|]; intros msg [= ->]; by left|..].
  all: destruct (attribute_message p proc) as [am|];
    [eexists; split; [done|]; intros msg [= ->]; right; by left|].
  all: destruct (_ || _); [exists m; split; [done|]; intros msg Hmsg; right; right; by apply Hrange|].
  all: exists None; by split.
Qed.

(** A function whose [format] attribute marks its last parameter as a format without
    variable arguments, as one that takes no [va_list] at all may, is claimed by the
    builder of [va_list] functions, which then asks for the parameter after it. *)
Theorem format_attribute_unchecked mode p cvarg proc fd :
  m_hasVAList p = true → is_callback proc = false → proc_desc proc = None →
  proc_functionDecl proc = Some fd → 1 ≤ arity proc →
  fn_format fd = Some (styleName p, Z.of_nat (arity proc), 0%Z) →
  is_Some (view_returnType (proc_view proc)) →
  ∃ msg, format_testProc p proc = Done (Some msg) ∧ format_begin mode p (Some cvarg) msg proc = Undef.
Proof.
  intros Hva Hk Hdesc Hfd Har Hattr Hret.
  set (msg := MkFormatMessage (Z.of_nat (arity proc)) (Z.of_nat (arity proc) + 1)). exists msg. split.
  - unfold format_testProc, descriptor_message, PASS_getIntegralArgumentsInPass. rewrite Hdesc.
    assert (attribute_message p proc = Some msg) as ->; [|done].
    unfold attribute_message. rewrite Hk, Hdesc, Hfd. cbn [mbind option_bind orb].
    rewrite bool_decide_false by (by intros [? ?]). rewrite Hattr. cbn [mbind option_bind].
    rewrite bool_decide_true, Hva by done. cbn [negb andb]. by rewrite (proj2 (Z.ltb_lt _ _)) by lia.
  - apply format_out_of_range; [done|]. intros [_ Hv]. rewrite Hva in Hv. unfold msg in Hv.
    cbn [vargIdx] in Hv. lia.
Qed.
End passes.

(** ** Examples *)

Definition c_char_pointer : CType := CT_pointer (CT_name ($"char")).
Definition c_cvarg : @QualType c_clang := CT_pointer (CT_name ($"CVargEntry")).

(** [int printf(char *, ...)], [int vlogf(int, char *, va_list)] and a function that only
    takes a format. *)
Definition c_printf : CFunction := MkCFunction ($"printf") c_int [(c_char_pointer, $"fmt")] true true None.
Definition c_vlogf : CFunction :=
  MkCFunction ($"vlogf") c_int [(c_int, $"level"); (c_char_pointer, $"fmt"); (CT_name ($"va_list"), $"ap")]
    true false (Some ($"printf", 2%Z, 0%Z)).
Definition c_hint : CFunction :=
  MkCFunction ($"hint") c_int [(c_char_pointer, $"text")] true false (Some ($"printf", 1%Z, 0%Z)).

Definition proc_of (f : CFunction) : ProcSnippet :=
  function_proc GuestToHost f (c_name f) None (MkByPhase None None None).

Example detect_printf : format_testProc PrintFPass (proc_of c_printf) = Done (Some (MkFormatMessage 1 2)).
Proof. reflexivity. Qed.
Example detect_vlogf : format_testProc VPrintFPass (proc_of c_vlogf) = Done (Some (MkFormatMessage 2 3)).
Proof. reflexivity. Qed.
Example vlogf_not_printf : format_testProc PrintFPass (proc_of c_vlogf) = Done None.
Proof. reflexivity. Qed.

(** The guest's entry of [printf]. *)
Example printf_entry_text :
  match format_begin Guest PrintFPass (Some c_cvarg) (MkFormatMessage 1 2) (proc_of c_printf) with
  | Done p => proc_text p Entry false
  | _ => Undef
  end = Done (concat ((λ l, l ++ [c_nl]) <$>
   [$"int ProcFn<::printf, GuestToHost, Entry>::";
    $"invoke(char *arg1, ...) {";
    $"    // prolog";
    $"    int ret;";
    $"    CVargEntry vargs[LORE_THUNK_VARG_MAX];";
    $"    // forward";
    $"    // center";
    $"    {";
    $"        va_list ap;";
    $"        va_start(ap, arg1);";
    $"        lore::VariadicAdaptor::extract(lore::VariadicAdaptor::PrintF, arg1, ap, vargs);";
    $"        va_end(ap);";
    $"    }";
    $"    ret = ProcFn<printf, GuestToHost, Adapt>::invoke(arg1, vargs);";
    $"    // backward";
    $"    // epilog";
    $"    return ret;";
    $"}"])).
Proof. vm_compute. reflexivity. Qed.

Lemma format_begin_bounds_witness :
  (∃ src, format_begin Guest PrintFPass (Some c_cvarg) (MkFormatMessage 1 2) (proc_of c_printf) =
            Done (with_sources (proc_of c_printf) src)) ∧
  format_begin Guest PrintFPass (Some c_cvarg) (MkFormatMessage 0 2) (proc_of c_printf) = Undef.
Proof.
  split.
  - apply (format_begin_bounds Guest PrintFPass c_cvarg (MkFormatMessage 1 2) (proc_of c_printf));
      [reflexivity|by eexists|]. unfold in_range, arity. simpl. lia.
  - apply (format_begin_bounds Guest PrintFPass c_cvarg (MkFormatMessage 0 2) (proc_of c_printf));
      [reflexivity|by eexists|]. unfold in_range, arity. simpl. lia.
Defined.

(** Values are lists of numbers: the boxes are the format and the list's values, and the
    native function returns everything it is given. *)
Definition list_adaptor : Adaptor (list Z) :=
  MkAdaptor (λ _ fmt ap, Some (fmt ++ ap)) (λ _ _ _ fixed boxes, Some (Some (concat fixed ++ boxes))).

Lemma format_thunks_forward_witness :
  ∃ xsrc ysrc xcode ycode,
    format_begin Guest VPrintFPass (Some c_cvarg) (MkFormatMessage 2 3) (proc_of c_vlogf) =
      Done (with_sources (proc_of c_vlogf) xsrc) ∧
    format_begin Host VPrintFPass (Some c_cvarg) (MkFormatMessage 2 3) (proc_of c_vlogf) =
      Done (with_sources (proc_of c_vlogf) ysrc) ∧
    side_is (proc_of c_vlogf) xcode xsrc ∧ side_is (proc_of c_vlogf) ycode ysrc ∧
    run_sender list_adaptor xcode (run_receiver list_adaptor ycode (λ _, None) []) None
      (Some ($"arg3", [])) [[7%Z]; [1%Z; 2%Z]; [3%Z]] = Some (Some [7; 1; 2; 1; 2; 3]%Z).
Proof.
  destruct (format_thunks_forward VPrintFPass c_cvarg (MkFormatMessage 2 3) (proc_of c_vlogf))
    as (xs & ys & xc & yc & Hx & Hy & Hxc & Hyc & Hrun).
  - reflexivity.
  - by eexists.
  - unfold in_range, arity. simpl. lia.
  - discriminate.
  - exists xs, ys, xc, yc. split; [exact Hx|]. split; [exact Hy|]. split; [exact Hxc|]. split; [exact Hyc|].
    apply (Hrun (list Z) list_adaptor _ [] None [] [[7%Z]; [1%Z; 2%Z]; [3%Z]] [1%Z; 2%Z] [1%Z; 2%Z; 3%Z]).
    + split; [discriminate|by intros [? ?]].
    + reflexivity.
    + reflexivity.
    + reflexivity.
    + reflexivity.
    + split; intros _; by eexists.
Defined.

Lemma format_attribute_unchecked_witness :
  ∃ msg, format_testProc VPrintFPass (proc_of c_hint) = Done (Some msg) ∧
    format_begin Host VPrintFPass (Some c_cvarg) msg (proc_of c_hint) = Undef.
Proof.
  apply (format_attribute_unchecked Host VPrintFPass c_cvarg (proc_of c_hint) c_hint);
    [reflexivity..|vm_compute; lia|reflexivity|by eexists].
Defined.
