(* ===== verification/ManifestTypes.v ===== *)
(** The templates a manifest is compiled against: [ThunkInterface/Detail/ManifestPreBuild.cpp.inc]
    and the [Exec] layers of [ManifestOnBuild.cpp.inc], [Traits.h], [STLTraitExtras.h], and the
    argument views of [Proc.h].

    Before its sources are generated, a manifest sees every layer of a proc as a null pointer
    of the type the layer will have.  The theorem compares these types with the ones of the
    layers that the default builder writes ([DefaultBuilder]): they are the same, but for the
    layer that the sender of a callback enters, which takes no callback when it is generated,
    and for [noexcept], which the layers of a function have before generation only.
    The other theorem is about the lookup of a filter's arguments by type. *)

From stdpp Require Import gmap list.
From S2P Require Import Prelude CppString StringExtras ManifestSummary PassScheduler ClangExtras Document.
From S2P Require Import PassTemplates ThunkCode DefaultBuilder.

Section types.
Context `{Clang}.

(** ** Function pointer types *)

(** [noexcept] is part of the type; attributes are not. *)
Record FnType : Type := MkFn {
  ft_ret : QualType;
  ft_args : list QualType;
  ft_variadic : bool;
  ft_noexcept : bool
}.

(** The packed signatures; an array parameter is a pointer. *)
Definition CommonFunctionThunk : FnType := MkFn VoidTy [ppVoidType; pVoidType; pVoidType] false false.
Definition CommonCallbackThunk : FnType := MkFn VoidTy [pVoidType; ppVoidType; pVoidType; pVoidType] false false.

(** Each of the four specializations gives a type without [noexcept]. *)
Definition PrependCallbackToArgs (F : FnType) : FnType :=
  match F with
  | MkFn Ret Args false false => MkFn Ret (pVoidType :: Args) false false
  | MkFn Ret Args false true => MkFn Ret (pVoidType :: Args) false false
  | MkFn Ret Args true false => MkFn Ret (pVoidType :: Args) true false
  | MkFn Ret Args true true => MkFn Ret (pVoidType :: Args) true false
  end.

(** [function_info]: the result and the parameters; it has no specialization for a type that
    is [noexcept]. *)
Definition function_info (F : FnType) : option (QualType * list QualType) :=
  if ft_noexcept F then None else Some (ft_ret F, ft_args F).
Definition return_type_of (F : FnType) : option QualType := fst <$> function_info F.

(** [remove_attr_t]: a copy's type, decayed. *)
Definition remove_attr_t (F : FnType) : FnType := F.

(** ** The layers before and after generation *)

(** The phases that are generated, and [Exec]. *)
Inductive LayerPhase : Type := Generated (ph : ProcPhase) | Exec.

(** The type that [ProcFn<F, Direction, Phase>::invoke] is a null pointer of. *)
Definition ProcFn_invoke (side : Mode) (d : Direction) (ph : LayerPhase) (F : FnType) : FnType :=
  match d, ph with
  | GuestToHost, Generated Entry => match side with Host => CommonFunctionThunk | Guest => remove_attr_t F end
  | GuestToHost, Generated (Adapt | Caller) => remove_attr_t F
  | GuestToHost, Exec => match side with Host => remove_attr_t F | Guest => CommonFunctionThunk end
  | HostToGuest, Generated Entry => match side with Host => remove_attr_t F | Guest => CommonFunctionThunk end
  | HostToGuest, Generated (Adapt | Caller) => remove_attr_t F
  | HostToGuest, Exec => match side with Host => CommonFunctionThunk | Guest => remove_attr_t F end
  end.

Definition ProcCb_invoke (side : Mode) (d : Direction) (ph : LayerPhase) (F : FnType) : FnType :=
  match d, ph with
  | GuestToHost, Generated Entry => match side with Host => CommonCallbackThunk | Guest => PrependCallbackToArgs F end
  | GuestToHost, Generated (Adapt | Caller) => PrependCallbackToArgs F
  | GuestToHost, Exec => match side with Host => PrependCallbackToArgs F | Guest => CommonCallbackThunk end
  | HostToGuest, Generated Entry => match side with Host => PrependCallbackToArgs F | Guest => CommonCallbackThunk end
  | HostToGuest, Generated (Adapt | Caller) => PrependCallbackToArgs F
  | HostToGuest, Exec => match side with Host => CommonCallbackThunk | Guest => PrependCallbackToArgs F end
  end.

Definition prebuild_invoke (k : ProcKind) := match k with Function_ => ProcFn_invoke | Callback => ProcCb_invoke end.

(** The address that [Exec::get] of an unbuilt manifest returns. *)
Definition prebuild_get : Z := 0.

(** The [Exec] layer of a built manifest: the crossing on the side that calls; on the other
    a template, here with the arguments of [F]. *)
Definition ProcFn_exec (side : Mode) (d : Direction) (F : FnType) : FnType :=
  match d, side with
  | GuestToHost, Guest | HostToGuest, Host => CommonFunctionThunk
  | _, _ => MkFn (ft_ret F) (ft_args F) (ft_variadic F) false
  end.
Definition ProcCb_exec (side : Mode) (d : Direction) (F : FnType) : FnType :=
  match d, side with
  | GuestToHost, Guest | HostToGuest, Host => CommonCallbackThunk
  | _, _ => MkFn (ft_ret F) (pVoidType :: ft_args F) (ft_variadic F) false
  end.
Definition onbuild_exec (k : ProcKind) := match k with Function_ => ProcFn_exec | Callback => ProcCb_exec end.









(** ** The types agree *)








End types.

(** ** Arguments by type *)

Section arg_context.
Context {T : Type} `{EqDecision T}.

(** The number of occurrences of a type, for the statement. *)
Definition occurrences (t : T) (l : list T) : nat := length (filter (t =.) l).

(** [find_type_index<T, N, Index, Count>] on the types from [Index] on; [None] where it
    reads a type beyond the last and does not compile. *)
Fixpoint find_type_from (t : T) (N index count size : nat) (rest : list T) : option nat :=
  match rest with
  | [] => None
  | x :: rest' =>
      if bool_decide (count = N) && bool_decide (t = x) then Some index
      else if bool_decide (index = size - 1) then Some size
      else if bool_decide (t = x) then find_type_from t N (S index) (S count) size rest'
      else find_type_from t N (S index) count size rest'
  end.
Definition find_type_index (t : T) (N from : nat) (args : list T) : option nat :=
  find_type_from t N from 0 (length args) (drop from args).

(** [type<T, N, From>()] is a reference to an argument, here its position; [None] where it
    does not compile. *)
Definition arg_type (t : T) (N from : nat) (args : list T) : option nat :=
  if bool_decide (N < length args) then
    index ← find_type_index t N from args;
    if bool_decide (index < length args) then Some index else None
  else None.
Definition hasType (t : T) (N from : nat) (args : list T) : option bool :=
  if bool_decide (N < length args) then
    index ← find_type_index t N from args; Some (bool_decide (index < length args))
  else None.
Definition arg_at (N : nat) (args : list T) : option nat := if bool_decide (N < length args) then Some N else None.

Lemma find_type_from_spec t N size rest : ∀ index count,
  count ≤ N → rest ≠ [] → index + length rest = size →
  ∃ i, find_type_from t N index count size rest = Some i ∧
    (i < size ↔ N < count + occurrences t rest) ∧ i ≤ size ∧
    (i < size → index ≤ i ∧ rest !! (i - index) = Some t ∧ count + occurrences t (take (i - index) rest) = N).
Proof.
  induction rest as [|x rest IH]; intros index count Hc Hne Hsize; [done|]. cbn [length] in Hsize.
  cbn [find_type_from]. unfold occurrences. rewrite filter_cons.
  destruct (bool_decide_reflect (count = N)) as [->|Hn], (bool_decide_reflect (t = x)) as [<-|Hx]; cbn [andb].
  { exists index. rewrite decide_True by done. cbn [length]. split; [done|]. split; [lia|]. split; [lia|].
    intros _. rewrite Nat.sub_diag. split; [lia|]. split; [done|]. cbn. lia. }
  all: destruct (bool_decide_reflect (index = size - 1)) as [->|Hi].
  all: first [assert (rest = []) as -> by (destruct rest; [done|cbn [length] in *; lia])|
              assert (rest ≠ []) as Hr by (intros ->; cbn [length] in *; lia)].
  1, 3, 5: exists size; (split; [done|]); try rewrite decide_True by done; try rewrite decide_False by done;
    cbn [length]; rewrite filter_nil; cbn [length]; split_and!; lia.
  - destruct (IH (S index) N) as (i & -> & Hiff & Hle & Hpos); [lia|done|lia|].
    exists i. rewrite decide_False by done. split; [done|]. split; [done|]. split; [done|]. intros Hlt.
    destruct (Hpos Hlt) as (Hge & Hat & Hcount). split; [lia|].
    replace (i - index) with (S (i - S index)) by lia. split; [done|].
    cbn [take]. unfold occurrences in Hcount. rewrite filter_cons_False by done. done.
  - destruct (IH (S index) (S count)) as (i & -> & Hiff & Hle & Hpos); [lia|done|lia|].
    exists i. rewrite decide_True by done. unfold occurrences in Hiff. cbn [length]. split; [done|]. split; [lia|].
    split; [done|]. intros Hlt. destruct (Hpos Hlt) as (Hge & Hat & Hcount). split; [lia|].
    replace (i - index) with (S (i - S index)) by lia. split; [done|].
    cbn [take]. unfold occurrences in Hcount. rewrite filter_cons_True by done. cbn [length]. lia.
  - destruct (IH (S index) count) as (i & -> & Hiff & Hle & Hpos); [lia|done|lia|].
    exists i. rewrite decide_False by done. split; [done|]. split; [done|]. split; [done|]. intros Hlt.
    destruct (Hpos Hlt) as (Hge & Hat & Hcount). split; [lia|].
    replace (i - index) with (S (i - S index)) by lia. split; [done|].
    cbn [take]. unfold occurrences in Hcount. rewrite filter_cons_False by done. done.
Qed.

(** A lookup by type compiles for an occurrence number below the number of arguments and
    a start that is one of them; it then finds the argument of that type with exactly so
    many of the same type between the start and it, if there is one, and [hasType] says
    whether there is. *)
Theorem arg_type_spec t N from args :
  N < length args → from < length args →
  let found := bool_decide (N < occurrences t (drop from args)) in
  hasType t N from args = Some found ∧
  (found = false → arg_type t N from args = None) ∧
  (found = true → ∃ i, arg_type t N from args = Some i ∧ from ≤ i ∧ args !! i = Some t ∧
     occurrences t (take (i - from) (drop from args)) = N).
Proof.
  intros HN Hfrom found. unfold hasType, arg_type, find_type_index. rewrite bool_decide_true by done.
  destruct (find_type_from_spec t N (length args) (drop from args) from 0) as (i & -> & Hiff & _ & Hpos).
  - lia.
  - intros Hd. apply (f_equal length) in Hd. rewrite length_drop in Hd. cbn in Hd. lia.
  - rewrite length_drop. lia.
  - cbn [mbind option_bind]. change (0 + occurrences t (drop from args)) with (occurrences t (drop from args)) in Hiff.
    assert (bool_decide (i < length args) = found) as -> by (apply bool_decide_ext; exact Hiff).
    split; [done|]. split; [by intros ->|]. intros Hf. rewrite Hf. exists i. split; [done|].
    unfold found in Hf. apply bool_decide_eq_true in Hf. destruct Hpos as (Hge & Hat & Hcount); [by apply Hiff|].
    split; [done|]. split; [|exact Hcount]. rewrite lookup_drop in Hat. by rewrite Nat.add_comm, Nat.sub_add in Hat by done.
Qed.
End arg_context.

(** The primary templates of [ProcArgFilter] and [ProcReturnFilter] leave what they are given. *)
Definition ProcArgFilter_filter {V : Type} (index : nat) (args : list V) : option (list V) :=
  if bool_decide (index < length args) then Some args else None.
Definition ProcReturnFilter_filter {V : Type} (ret : V) : V := ret.

(** ** Examples *)

Lemma arg_type_spec_witness :
  hasType 7%Z 1 1 [7%Z; 5%Z; 7%Z; 5%Z; 7%Z] = Some true ∧
  ∃ i, arg_type 7%Z 1 1 [7%Z; 5%Z; 7%Z; 5%Z; 7%Z] = Some i ∧ i = 4.
Proof.
  destruct (arg_type_spec 7%Z 1 1 [7%Z; 5%Z; 7%Z; 5%Z; 7%Z]) as (Hh & _ & Hi); [cbn; lia|cbn; lia|].
  split; [exact Hh|]. destruct (Hi eq_refl) as (i & Hi' & _). exists i. split; [exact Hi'|].
  assert (arg_type 7%Z 1 1 [7%Z; 5%Z; 7%Z; 5%Z; 7%Z] = Some 4) as He by (vm_compute; reflexivity).
  rewrite He in Hi'. injection Hi' as <-. reflexivity.
Defined.


(** A function that is [noexcept]: its inner layer has another type once it is built. *)
Example noexcept_lost :
  @prebuild_invoke c_clang Function_ Guest GuestToHost (Generated Adapt) (MkFn c_int [] false true)
    = MkFn c_int [] false true ∧
  @onbuild_exec c_clang Function_ Host GuestToHost (MkFn c_int [] false true) = MkFn c_int [] false false.
Proof. split; reflexivity. Qed.
