(* ===== verification/ThunkTyping.v ===== *)
(** Types of the generated code.

    [ThunkCode] gives the text of the builders a meaning on values without types.  Here
    its language gets the typing rules that the C++ compiler applies to the text: a name
    is declared once, a variable is read only once it has a value, a call passes what the
    callee's parameters are declared with, the receiver casts each pointer to the type of
    the variable the sender took the address of, and a layer returns its result type.
    A typed layer never gets stuck ([wt_sound]); the builders' layers are typed, so a call
    of values of the parameters' types goes through both documents and returns a value of
    the result type. *)

From stdpp Require Import gmap.
From S2P Require Import Prelude CppString StringExtras ManifestSummary PassScheduler ClangExtras Document.
From S2P Require Import PassTemplates ThunkCode DefaultBuilder LibCFormat.

Section typing.
Context `{Clang}.

(** ** Types *)

(** What a name of a layer is: a variable with or without a value, a [void *], the
    array of the addresses of variables, the incoming array with the types of the
    sender's variables, the pointer to the sender's result, the [CVargEntry] arrays, and
    [vret] with what its type was set to and whether the call has filled it. *)
Inductive ty : Type :=
  | T_var (t : QualType)
  | T_uninit (t : QualType)
  | T_pointer
  | T_array (xs : list str)
  | T_incoming (ts : list QualType)
  | T_result (t : option QualType)
  | T_boxes
  | T_entries
  | T_vret (type : option bool) (filled : bool).

Abbreviation ctx := (gmap str ty).

(** What a layer is compiled against: the parameters and the result of the layers it may
    call, those of the crossing with whether a callback goes along, whether the thread's
    slot holds a callback, its own result, the last named parameter of a variadic
    function, and the type of the boxes where the proc has them. *)
Record Scope : Type := MkScope {
  sc_next : Layer → option (list ty * option QualType);
  sc_cross : option (list QualType * bool * option QualType);
  sc_slot : bool;
  sc_ret : option QualType;
  sc_last : option str;
  sc_cvarg : option QualType
}.

Definition is_ret (r : option QualType) : bool := match r with Some _ => true | None => false end.

(** The types of the values that calls pass. *)
Definition passed (T : ty) : bool :=
  match T with T_var _ | T_pointer => true | _ => false end.

(** Assigning a call's result to a variable of its type. *)
Inductive assigns (Γ : ctx) : option str → option QualType → ctx → Prop :=
  | assigns_none r : assigns Γ None r Γ
  | assigns_some x t : Γ !! x = Some (T_uninit t) → assigns Γ (Some x) (Some t) (<[x := T_var t]> Γ).

Inductive wt_stmt (S : Scope) (Γ : ctx) : Stmt → ctx → Prop :=
  | wt_declare t :
      sc_ret S = Some t → Γ !! ($"ret") = None →
      wt_stmt S Γ (S_declare t) (<[$"ret" := T_uninit t]> Γ)
  | wt_get_callback guest :
      sc_slot S = true → Γ !! ($"callback") = None →
      wt_stmt S Γ (S_get_callback guest) (<[$"callback" := T_pointer]> Γ)
  | wt_pack xs :
      Γ !! ($"args") = None → Forall (λ x, ∃ t, Γ !! x = Some (T_var t)) xs →
      wt_stmt S Γ (S_pack xs) (<[$"args" := T_array xs]> Γ)
  | wt_unpack x t i ts :
      Γ !! x = None → Γ !! ($"args") = Some (T_incoming ts) → ts !! i = Some t →
      wt_stmt S Γ (S_unpack x t i) (<[x := T_var t]> Γ)
  | wt_ret_ref t :
      Γ !! ($"ret_ref") = None → Γ !! ($"ret") = Some (T_result (Some t)) →
      wt_stmt S Γ (S_ret_ref t) (<[$"ret_ref" := T_uninit t]> Γ)
  | wt_call lval l xs Ts r Γ' :
      sc_next S l = Some (Ts, r) → Forall (λ T, passed T = true) Ts →
      Forall2 (λ x T, Γ !! x = Some T) xs Ts → assigns Γ lval r Γ' →
      wt_stmt S Γ (S_call lval l xs) Γ'
  | wt_cross xs ts with_cb r Γ' :
      sc_cross S = Some (ts, with_cb, r) → Γ !! ($"args") = Some (T_array xs) →
      Forall2 (λ x t, Γ !! x = Some (T_var t)) xs ts →
      (with_cb = true → Γ !! ($"callback") = Some T_pointer) →
      assigns Γ (if is_ret r then Some ($"ret") else None) r Γ' →
      wt_stmt S Γ (S_cross with_cb (is_ret r)) Γ'
  | wt_vargs :
      Γ !! ($"vargs") = None → wt_stmt S Γ S_vargs (<[$"vargs" := T_boxes]> Γ)
  | wt_extract scanf fmt ap tf ta tc :
      sc_cvarg S = Some tc → Γ !! ($"vargs") = Some T_boxes →
      Γ !! fmt = Some (T_var tf) → Γ !! ap = Some (T_var ta) →
      wt_stmt S Γ (S_extract scanf fmt ap) (<[$"vargs" := T_var tc]> Γ)
  | wt_va_extract scanf fixed fmt tf tc :
      sc_cvarg S = Some tc → Γ !! ($"vargs") = Some T_boxes →
      Γ !! fmt = Some (T_var tf) → sc_last S = Some fixed → is_Some (Γ !! fixed) →
      wt_stmt S Γ (S_va_extract scanf fixed fmt) (<[$"vargs" := T_var tc]> Γ)
  | wt_entries xs :
      Γ !! ($"argv1") = None → Forall (λ x, ∃ t, Γ !! x = Some (T_var t)) xs →
      wt_stmt S Γ (S_entries xs) (<[$"argv1" := T_entries]> Γ)
  | wt_vret :
      Γ !! ($"vret") = None → wt_stmt S Γ S_vret (<[$"vret" := T_vret None false]> Γ)
  | wt_vret_type :
      Γ !! ($"vret") = Some (T_vret None false) →
      (∀ t, sc_ret S = Some t → Γ !! ($"ret") = Some (T_uninit t)) →
      wt_stmt S Γ (S_vret_type (is_ret (sc_ret S)))
        (<[$"vret" := T_vret (Some (is_ret (sc_ret S))) false]> Γ)
  | wt_helper vcall with_cb b tc :
      sc_cvarg S = Some tc → Γ !! ($"vargs") = Some (T_var tc) →
      Γ !! ($"argv1") = Some T_entries → Γ !! ($"vret") = Some (T_vret (Some b) false) →
      (with_cb = true → Γ !! ($"callback") = Some T_pointer) →
      wt_stmt S Γ (S_helper vcall with_cb) (<[$"vret" := T_vret (Some b) true]> Γ)
  | wt_value t :
      sc_ret S = Some t → Γ !! ($"ret") = Some (T_uninit t) →
      Γ !! ($"vret") = Some (T_vret (Some true) true) →
      wt_stmt S Γ (S_value t) (<[$"ret" := T_var t]> Γ).

Inductive wt_stmts (S : Scope) : ctx → list Stmt → ctx → Prop :=
  | wt_nil Γ : wt_stmts S Γ [] Γ
  | wt_cons Γ Γ' Γ'' s ss : wt_stmt S Γ s Γ' → wt_stmts S Γ' ss Γ'' → wt_stmts S Γ (s :: ss) Γ''.

(** The parameters, and the context a body starts in. *)
Abbreviation params := (list (str * ty)).
Definition start_ctx (ps : params) : ctx := list_to_map ps.

(** A function's layer ends by returning [ret] when it has a result. *)
Definition wt_layer (S : Scope) (ps : params) (code : LayerCode) : Prop :=
  layer_params code = ps.*1 ∧ NoDup ps.*1 ∧
  ∃ Γ, wt_stmts S (start_ctx ps) (layer_prolog code ++ layer_center code) Γ ∧
    match sc_ret S with
    | Some t => layer_epilog code = [S_return] ∧ Γ !! ($"ret") = Some (T_var t)
    | None => layer_epilog code = []
    end.

(** The receiver's [Entry] returns nothing, and stores the result by [ret_ref]. *)
Definition wt_entry (S : Scope) (ret : option QualType) (ps : params) (code : LayerCode) : Prop :=
  layer_params code = ps.*1 ∧ NoDup ps.*1 ∧ layer_epilog code = [] ∧
  ∃ Γ, wt_stmts S (start_ctx ps) (layer_prolog code ++ layer_center code) Γ ∧
    Γ !! ($"ret_ref") = (T_var <$> ret).

(** ** The sides of a proc *)

Definition outer_params (sh : Shape) : params := (λ a, (a.2, T_var a.1)) <$> sh_args sh.
Definition slot_param (cb : bool) : params := if cb then [($"callback", T_pointer)] else [].
Definition inner_params (sh : Shape) : params := slot_param (sh_callback sh) ++ outer_params sh.
Definition packed_params (sh : Shape) : params :=
  slot_param (sh_callback sh)
  ++ [($"args", T_incoming (sh_args sh).*1); ($"ret", T_result (sh_ret sh)); ($"metadata", T_pointer)].

(** A layer that calls the layer [l]. *)
Definition calling (l : Layer) (sh : Shape) : Scope :=
  MkScope (λ l', match l, l' with
                 | L_Adapt, L_Adapt | L_Caller, L_Caller | L_Exec, L_Exec =>
                     Some ((inner_params sh).*2, sh_ret sh)
                 | _, _ => None
                 end) None false (sh_ret sh) None None.
Definition entering (last : option str) (cvarg : option QualType) (sh : Shape) : Scope :=
  MkScope (sc_next (calling L_Adapt sh)) None (sh_callback sh) (sh_ret sh) last cvarg.
Definition crossing (sh : Shape) : Scope :=
  MkScope (λ _, None) (Some ((sh_args sh).*1, sh_callback sh, sh_ret sh)) false (sh_ret sh) None None.
Definition executing (cvarg : option QualType) (sh : Shape) : Scope :=
  MkScope (sc_next (calling L_Exec sh)) None false (sh_ret sh) None cvarg.

(** [ps] are the parameters of the function itself, [sh] is what crosses. *)
Definition sender_typed (last : option str) (cvarg : option QualType) (ps : params) (sh : Shape)
    (code : by_phase LayerCode) : Prop :=
  wt_layer (entering last cvarg sh) ps (at_entry code) ∧
  wt_layer (calling L_Caller sh) (inner_params sh) (at_adapt code) ∧
  wt_layer (crossing sh) (inner_params sh) (at_caller code).

Definition receiver_typed (cvarg : option QualType) (sh : Shape) (code : by_phase LayerCode) : Prop :=
  wt_entry (calling L_Adapt sh) (sh_ret sh) (packed_params sh) (at_entry code) ∧
  wt_layer (calling L_Caller sh) (inner_params sh) (at_adapt code) ∧
  wt_layer (executing cvarg sh) (inner_params sh) (at_caller code).

(** ** Soundness *)

Section soundness.
Context {V : Type}.
Variables (va : Adaptor V) (has_type : V → QualType → Prop).
Implicit Types (f : Frame V) (vs : list V) (env : Env V) (r cb : option V).

Definition value_ok (v : V) (T : ty) : Prop :=
  match T with T_var t => has_type v t | T_pointer => True | _ => False end.

Definition result_typed (r : option V) (ret : option QualType) : Prop :=
  match r, ret with Some v, Some t => has_type v t | None, None => True | _, _ => False end.

(** A function that is total on arguments of its parameters' types. *)
Definition fun_ok (Ts : list ty) (ret : option QualType) (g : list V → option (option V)) : Prop :=
  ∀ vs, Forall2 value_ok vs Ts → ∃ r, g vs = Some r ∧ result_typed r ret.

(** The values that come along where there is a callback. *)
Definition cb_ok (with_cb : bool) (cb : option V) : Prop := with_cb = true ↔ is_Some cb.

Definition cross_ok (ts : list QualType) (with_cb : bool) (ret : option QualType)
    (cross : option V → list V → option (option V)) : Prop :=
  ∀ cb vs, cb_ok with_cb cb → Forall2 has_type vs ts → ∃ r, cross cb vs = Some r ∧ result_typed r ret.

(** The adaptor boxes any list, and its calls return a result of the type asked for. *)
Definition adaptor_ok (cvarg : QualType) (ret : option QualType) : Prop :=
  (∀ scanf fmt ap, ∃ b, va_extract va scanf fmt ap = Some b ∧ has_type b cvarg) ∧
  (∀ vcall cb es boxes, has_type boxes cvarg →
     ∃ r, va_call va vcall cb (is_ret ret) es boxes = Some r ∧ result_typed r ret).

Record env_ok (S : Scope) (env : Env V) : Prop := {
  ok_next l Ts ret : sc_next S l = Some (Ts, ret) → fun_ok Ts ret (env_callee env l);
  ok_cross ts with_cb ret : sc_cross S = Some (ts, with_cb, ret) → cross_ok ts with_cb ret (env_cross env);
  ok_slot : sc_slot S = true → is_Some (env_callback env);
  ok_last x : sc_last S = Some x → ∃ ap, env_variadic env = Some (x, ap);
  ok_adaptor tc : sc_cvarg S = Some tc → adaptor_ok tc (sc_ret S)
}.

(** What a name's type says of the frame. *)
Definition holds (S : Scope) (env : Env V) (f : Frame V) (x : str) (T : ty) : Prop :=
  match T with
  | T_var t => ∃ v, fr_vars f !! x = Some v ∧ has_type v t
  | T_pointer => is_Some (fr_vars f !! x)
  | T_array xs => x = $"args" ∧ fr_args f = xs
  | T_incoming ts => Forall2 has_type (env_incoming env) ts
  | T_vret b filled =>
      x = $"vret" ∧ fr_vret_type f = b ∧ (∀ b', b = Some b' → b' = is_ret (sc_ret S)) ∧
      (filled = true → result_typed (fr_vret f) (sc_ret S))
  | T_uninit _ | T_result _ | T_boxes | T_entries => True
  end.

Record frame_ok (S : Scope) (env : Env V) (Γ : ctx) (f : Frame V) : Prop := {
  ok_holds x T : Γ !! x = Some T → holds S env f x T;
  ok_fresh x : Γ !! x = None → fr_vars f !! x = None
}.

(** A name that does not say anything of the frame. *)
Definition silent (T : ty) : bool :=
  match T with T_uninit _ | T_result _ | T_boxes | T_entries => true | _ => false end.

Lemma frame_silent S env Γ f x T : frame_ok S env Γ f → silent T = true → frame_ok S env (<[x := T]> Γ) f.
Proof.
  intros [Hh Hf] HT. split; intros y; rewrite lookup_insert; case_decide; subst; [|apply Hh|done|apply Hf].
  intros T' [= <-]. by destruct T.
Qed.

Lemma frame_bind S env Γ f x v T :
  frame_ok S env Γ f → holds S env (set_var x v f) x T → frame_ok S env (<[x := T]> Γ) (set_var x v f).
Proof.
  intros [Hh Hf] HT. split; intros y; rewrite lookup_insert; case_decide; subst.
  - by intros T' [= <-].
  - intros U HΓ%Hh. destruct U; simpl in *; try done; by rewrite lookup_insert_ne.
  - done.
  - intros HΓ%Hf. simpl. by rewrite lookup_insert_ne.
Qed.

Lemma frame_set S env Γ f x v T :
  frame_ok S env Γ f → value_ok v T → frame_ok S env (<[x := T]> Γ) (set_var x v f).
Proof.
  intros Hok HT. apply frame_bind; [done|]. destruct T; try done; simpl; rewrite lookup_insert_eq; by eexists.
Qed.

(** A change of a frame that its variables do not see, and the one name that does. *)
Lemma frame_field S env Γ f f' x T :
  frame_ok S env Γ f → fr_vars f' = fr_vars f → holds S env f' x T →
  (∀ y U, y ≠ x → holds S env f y U → holds S env f' y U) → frame_ok S env (<[x := T]> Γ) f'.
Proof.
  intros [Hh Hf] Hv HT Hkeep. split; intros y; rewrite lookup_insert; case_decide; subst.
  - by intros T' [= <-].
  - intros U HΓ%Hh. by apply Hkeep.
  - done.
  - intros HΓ%Hf. by rewrite Hv.
Qed.

Lemma frame_read_types S env Γ f xs ts :
  frame_ok S env Γ f → Forall2 (λ x t, Γ !! x = Some (T_var t)) xs ts →
  ∃ vs, read_all f xs = Some vs ∧ Forall2 has_type vs ts.
Proof.
  intros Hok Hxs. unfold read_all. induction Hxs as [|x t xs ts Hx _ (vs & Hvs & Hts)]; simpl.
  { by exists []. }
  destruct (ok_holds _ _ _ _ Hok _ _ Hx) as (v & -> & Hv). simpl. rewrite Hvs. simpl.
  exists (v :: vs). split; [done|]. by constructor.
Qed.

Lemma frame_read S env Γ f xs :
  frame_ok S env Γ f → Forall (λ x, ∃ t, Γ !! x = Some (T_var t)) xs → is_Some (read_all f xs).
Proof.
  intros Hok Hxs. assert (∃ ts, Forall2 (λ x t, Γ !! x = Some (T_var t)) xs ts) as [ts Hts].
  { induction Hxs as [|x xs [t Ht] _ [ts Hts]]; [by exists []|]. exists (t :: ts). by constructor. }
  destruct (frame_read_types _ _ _ _ _ _ Hok Hts) as (vs & -> & _). by eexists.
Qed.

(** Arguments of a call; the parameters' types are types of values. *)
Lemma frame_args S env Γ f xs Ts :
  frame_ok S env Γ f → Forall (λ T, passed T = true) Ts →
  Forall2 (λ x T, Γ !! x = Some T) xs Ts →
  ∃ vs, read_all f xs = Some vs ∧ Forall2 value_ok vs Ts.
Proof.
  intros Hok HT Hxs. unfold read_all. induction Hxs as [|x T xs Ts Hx _ IH]; simpl.
  { by exists []. }
  apply Forall_cons in HT as [HT HTs]. destruct (IH HTs) as (vs & Hvs & Hts).
  pose proof (ok_holds _ _ _ _ Hok _ _ Hx) as Hh.
  assert (∃ v, fr_vars f !! x = Some v ∧ value_ok v T) as (v & -> & Hv).
  { destruct T; try done. destruct Hh as [v ->]. by exists v. }
  simpl. rewrite Hvs. simpl. exists (v :: vs). split; [done|]. by constructor.
Qed.

Lemma frame_assign S env Γ Γ' f lval r ret :
  frame_ok S env Γ f → assigns Γ lval ret Γ' → result_typed r ret →
  ∃ f', assign lval r f = Some f' ∧ frame_ok S env Γ' f' ∧ fr_result f' = fr_result f.
Proof.
  intros Hok [r'|x t Hx] Hr; simpl; [by exists f|].
  destruct r as [v|]; [|done]. simpl. exists (set_var x v f). split_and!; [done|by apply frame_set|done].
Qed.

Lemma frame_empty S env : frame_ok S env ∅ (new_frame ∅).
Proof. split; intros x; rewrite lookup_empty; [by intros ? [=]|done]. Qed.

(** A typed statement runs, and leaves a frame of the new context. *)
Lemma wt_stmt_sound S env Γ Γ' s f :
  env_ok S env → frame_ok S env Γ f → wt_stmt S Γ s Γ' →
  ∃ f', exec_stmt va env s f = Some f' ∧ frame_ok S env Γ' f' ∧ fr_result f' = fr_result f.
Proof.
  intros He Hok Hs. destruct Hs; cbn [exec_stmt].
  - exists f. split_and!; [done|by apply frame_silent|done].
  - destruct (ok_slot _ _ He) as [cb ->]; [done|]. simpl. eexists. split_and!; [done|by apply frame_set|done].
  - destruct (frame_read _ _ _ _ xs Hok) as [vs ->]; [done|]. simpl. eexists. split_and!; [done| |done].
    eapply frame_field; [done|done|by split|].
    intros y U Hy. destruct U; simpl; naive_solver.
  - pose proof (ok_holds _ _ _ _ Hok _ _ H1) as Hin. simpl in Hin.
    destruct (Forall2_lookup_r _ _ _ _ _ Hin H2) as (v & -> & Hv). simpl. eexists.
    split_and!; [done|by apply frame_set|done].
  - exists f. split_and!; [done|by apply frame_silent|done].
  - destruct (frame_args _ _ _ _ _ _ Hok H1 H2) as (vs & -> & Hvs). simpl.
    destruct (ok_next _ _ He _ _ _ H0 vs Hvs) as (res & -> & Hres). simpl. by eapply frame_assign.
  - pose proof (ok_holds _ _ _ _ Hok _ _ H1) as [_ Hargs]. rewrite Hargs.
    destruct (frame_read_types _ _ _ _ _ _ Hok H2) as (vs & -> & Hvs). cbn [mbind option_bind].
    assert (∃ cb, (if with_cb then Some <$> fr_vars f !! ($"callback") else Some None) = Some cb ∧ cb_ok with_cb cb)
      as (cb & -> & Hcb).
    { destruct with_cb; [|exists None; split; [done|by split; [|intros []]]].
      destruct (ok_holds _ _ _ _ Hok _ _ (H3 eq_refl)) as [c ->]. exists (Some c). by split. }
    cbn [mbind option_bind]. destruct (ok_cross _ _ He _ _ _ H0 cb vs Hcb Hvs) as (res & -> & Hres). simpl.
    by eapply frame_assign.
  - exists f. split_and!; [done|by apply frame_silent|done].
  - destruct (ok_holds _ _ _ _ Hok _ _ H2) as (vf & -> & _), (ok_holds _ _ _ _ Hok _ _ H3) as (va' & -> & _). simpl.
    destruct (ok_adaptor _ _ He _ H0) as [Hext _]. destruct (Hext scanf vf va') as (b & -> & Hb). simpl.
    eexists. split_and!; [done|by apply frame_set|done].
  - destruct (ok_holds _ _ _ _ Hok _ _ H2) as (vf & -> & _), (ok_last _ _ He _ H3) as [ap ->]. simpl.
    rewrite bool_decide_true by done. destruct (ok_adaptor _ _ He _ H0) as [Hext _].
    destruct (Hext scanf vf ap) as (b & -> & Hb). simpl. eexists. split_and!; [done|by apply frame_set|done].
  - destruct (frame_read _ _ _ _ xs Hok) as [vs ->]; [done|]. simpl. eexists. split_and!; [done| |done].
    eapply frame_field; [done|done|done|]. intros y U _. by destruct U.
  - eexists. split_and!; [done| |done]. eapply frame_field; [done|done|by split_and!|].
    intros y U Hy. destruct U; simpl; naive_solver.
  - eexists. split_and!; [done| |done]. pose proof (ok_holds _ _ _ _ Hok _ _ H0) as Hv.
    eapply frame_field; [done|done|by split_and!; simpl; intros; simplify_eq|].
    intros y U Hy. destruct U; simpl; naive_solver.
  - destruct (ok_holds _ _ _ _ Hok _ _ H3) as (_ & -> & Hb & _). rewrite (Hb b eq_refl) in *.
    destruct (ok_holds _ _ _ _ Hok _ _ H1) as (boxes & Hboxes & Htc).
    assert (∃ cb, (if with_cb then Some <$> fr_vars f !! ($"callback") else Some None) = Some cb) as (cb & ->).
    { destruct with_cb; [|by exists None]. destruct (ok_holds _ _ _ _ Hok _ _ (H4 eq_refl)) as [c ->]. by exists (Some c). }
    cbn [mbind option_bind]. rewrite Hboxes. cbn [mbind option_bind].
    destruct (ok_adaptor _ _ He _ H0) as [_ Hcall].
    destruct (Hcall vcall cb (fr_entries f) boxes Htc) as (res & -> & Hres). simpl.
    eexists. split_and!; [done| |done].
    eapply frame_field; [done|done|by split_and!; simpl; intros; simplify_eq|].
    intros y U Hy. destruct U; simpl; naive_solver.
  - destruct (ok_holds _ _ _ _ Hok _ _ H2) as (_ & _ & _ & Hres). specialize (Hres eq_refl). rewrite H0 in Hres.
    destruct (fr_vret f) as [v|]; [|done]. simpl. eexists. split_and!; [done|by apply frame_set|done].
Qed.

Lemma wt_stmts_sound S env Γ Γ' ss f :
  env_ok S env → frame_ok S env Γ f → wt_stmts S Γ ss Γ' →
  ∃ f', exec_stmts va env ss f = Some f' ∧ frame_ok S env Γ' f' ∧ fr_result f' = fr_result f.
Proof.
  intros He Hok Hs. revert f Hok. induction Hs as [|Γ Γ' Γ'' s ss Hs _ IH]; intros f Hok; [by exists f|].
  destruct (wt_stmt_sound _ _ _ _ _ _ He Hok Hs) as (f1 & Hf1 & Hok1 & Hr1).
  destruct (IH f1 Hok1) as (f2 & Hf2 & Hok2 & Hr2). exists f2. simpl. rewrite Hf1. simpl.
  split_and!; [done..|]. by rewrite Hr2.
Qed.

Lemma frame_start S env (ps : params) vs :
  NoDup ps.*1 → Forall2 value_ok vs ps.*2 →
  frame_ok S env (start_ctx ps) (new_frame (list_to_map (zip ps.*1 vs))).
Proof.
  unfold start_ctx. intros Hnd Hvs. revert vs Hvs.
  induction ps as [|[x T] ps IH]; intros vs Hvs; inversion Hvs as [|v ? vs' ? Hv Hvs']; subst; simpl.
  { apply frame_empty. }
  apply NoDup_cons in Hnd as [_ Hnd].
  change (new_frame ?m) with (set_var x v (new_frame (list_to_map (zip ps.*1 vs')))).
  by apply frame_set; [apply IH|].
Qed.

(** A typed layer returns a result of its type. *)
Lemma wt_layer_sound S env ps code vs :
  env_ok S env → wt_layer S ps code → Forall2 value_ok vs ps.*2 →
  ∃ r, typed (run_layer va env code vs) = Some r ∧ result_typed r (sc_ret S).
Proof.
  intros He (Hps & Hnd & Γ & Hs & Hend) Hvs. unfold run_layer. rewrite Hps.
  pose proof (Forall2_length _ _ _ Hvs) as Hlen. rewrite length_fmap in Hlen.
  rewrite length_fmap, Hlen, Nat.eqb_refl, app_assoc, exec_stmts_app.
  destruct (wt_stmts_sound _ _ _ _ _ _ He (frame_start S env ps vs Hnd Hvs) Hs) as (f & -> & Hok & Hr).
  cbn [mbind option_bind]. destruct (sc_ret S) as [t|].
  - destruct Hend as [-> HΓ]. destruct (ok_holds _ _ _ _ Hok _ _ HΓ) as (v & Hv & Ht).
    exists (Some v). cbn [exec_stmts exec_stmt]. rewrite Hv. done.
  - rewrite Hend. exists None. split; [|done]. simpl. unfold typed. simpl. by rewrite Hr.
Qed.

(** ** A call through both sides *)

Lemma env_calls l sh next :
  fun_ok (inner_params sh).*2 (sh_ret sh) next → env_ok (calling l sh) (calls l next).
Proof.
  intros Hn. split; try done. intros l' Ts ret. destruct l, l'; simpl; try done; by intros [= <- <-].
Qed.

Lemma env_crosses sh cross :
  cross_ok (sh_args sh).*1 (sh_callback sh) (sh_ret sh) cross → env_ok (crossing sh) (crosses cross).
Proof. intros Hc. split; try done. by intros ts with_cb ret [= <- <- <-]. Qed.

Lemma env_entered last cvarg sh cb variadic next :
  fun_ok (inner_params sh).*2 (sh_ret sh) next → cb_ok (sh_callback sh) cb →
  (∀ x, last = Some x → ∃ ap, variadic = Some (x, ap)) →
  (∀ tc, cvarg = Some tc → adaptor_ok tc (sh_ret sh)) →
  env_ok (entering last cvarg sh) (entered cb variadic (calls L_Adapt next)).
Proof.
  intros Hn Hcb Hlast Had. split; simpl; try done.
  - intros l Ts ret. destruct l; simpl; try done. by intros [= <- <-].
  - intros Hs. by apply Hcb.
Qed.

Lemma env_executing cvarg sh native :
  fun_ok (inner_params sh).*2 (sh_ret sh) native →
  (∀ tc, cvarg = Some tc → adaptor_ok tc (sh_ret sh)) → env_ok (executing cvarg sh) (calls L_Exec native).
Proof.
  intros Hn Had. split; simpl; try done. intros l Ts ret. destruct l; simpl; try done. by intros [= <- <-].
Qed.

Lemma wt_layer_fun S env ps code :
  env_ok S env → wt_layer S ps code → fun_ok ps.*2 (sc_ret S) (λ vs, typed (run_layer va env code vs)).
Proof. intros He Hc vs Hvs. by eapply wt_layer_sound. Qed.

Lemma cb_ok_cases with_cb cb :
  cb_ok with_cb cb → (with_cb = true ∧ ∃ c, cb = Some c) ∨ (with_cb = false ∧ cb = None).
Proof using H V. exact (callback_fits_cases (MkShape [] with_cb None) cb). Qed.

(** The receiver's [Entry] reads through [args] and stores the result. *)
Lemma packed_sound sh code next packed :
  wt_entry (calling L_Adapt sh) (sh_ret sh) (packed_params sh) code →
  fun_ok (inner_params sh).*2 (sh_ret sh) next →
  cross_ok (sh_args sh).*1 (sh_callback sh) (sh_ret sh) (run_packed va code next packed).
Proof.
  intros (Hps & Hnd & Hep & Γ & Hs & Href) Hn cb vs Hcb Hvs. unfold run_packed, run_layer. rewrite Hps.
  set (env := with_incoming vs (calls L_Adapt next)).
  assert (length (packed_values packed cb) = length (packed_params sh).*1) as Hlen.
  { unfold packed_params, slot_param. by destruct (cb_ok_cases _ _ Hcb) as [[-> [c ->]]|[-> ->]]. }
  assert (env_ok (calling L_Adapt sh) env) as He by by destruct (env_calls L_Adapt sh next Hn).
  assert (frame_ok (calling L_Adapt sh) env (start_ctx (packed_params sh))
    (new_frame (list_to_map (zip (packed_params sh).*1 (packed_values packed cb))))) as Hok.
  { assert (frame_ok (calling L_Adapt sh) env
      (<[$"args" := T_incoming (sh_args sh).*1]> (<[$"ret" := T_result (sh_ret sh)]>
         (<[$"metadata" := T_pointer]> ∅)))
      (set_var ($"args") packed (set_var ($"ret") packed (set_var ($"metadata") packed (new_frame ∅))))) as Hok.
    { apply frame_bind; [|done]. apply frame_bind; [|done]. apply frame_set, I. apply frame_empty. }
    unfold packed_params, slot_param. destruct (cb_ok_cases _ _ Hcb) as [[-> [c ->]]|[-> ->]]; [|exact Hok].
    exact (frame_set _ _ _ _ ($"callback") c T_pointer Hok I). }
  rewrite Hlen, Nat.eqb_refl, app_assoc, exec_stmts_app, Hep.
  destruct (wt_stmts_sound _ _ _ _ _ _ He Hok Hs) as (f & -> & Hokf & _). cbn [mbind option_bind exec_stmts].
  eexists. split; [done|]. destruct (sh_ret sh) as [t|]; cbn [fmap option_fmap option_map] in Href.
  - by destruct (ok_holds _ _ _ _ Hokf _ _ Href) as (v & -> & Hv).
  - by rewrite (ok_fresh _ _ _ _ Hokf _ Href).
Qed.

Lemma typed_call last cvarg cvarg' ps sh xcode ycode native packed cb variadic vs :
  sender_typed last cvarg ps sh xcode → receiver_typed cvarg' sh ycode →
  fun_ok (inner_params sh).*2 (sh_ret sh) native → cb_ok (sh_callback sh) cb →
  (∀ x, last = Some x → ∃ ap, variadic = Some (x, ap)) →
  (∀ tc, cvarg = Some tc ∨ cvarg' = Some tc → adaptor_ok tc (sh_ret sh)) →
  Forall2 value_ok vs ps.*2 →
  ∃ r, run_sender va xcode (run_receiver va ycode native packed) cb variadic vs = Some r ∧
    result_typed r (sh_ret sh).
Proof.
  intros (Hxe & Hxa & Hxc) (Hye & Hya & Hyc) Hn Hcb Hlast Had Hvs. unfold run_sender, run_receiver.
  eapply (wt_layer_sound (entering last cvarg sh)); [|exact Hxe|exact Hvs].
  apply env_entered; [|done|done|by eauto].
  eapply (wt_layer_fun (calling L_Caller sh)); [|exact Hxa]. apply env_calls.
  eapply (wt_layer_fun (crossing sh)); [|exact Hxc]. apply env_crosses. apply packed_sound; [done|].
  eapply (wt_layer_fun (calling L_Caller sh)); [|exact Hya]. apply env_calls.
  eapply (wt_layer_fun (executing cvarg' sh)); [|exact Hyc]. apply env_executing; by eauto.
Qed.
End soundness.

(** ** The layers are typed *)

(** The context holds these names with their types. *)
Definition has (Γ : ctx) (ps : params) : Prop := Forall (λ p, Γ !! p.1 = Some p.2) ps.

Lemma has_start ps : NoDup ps.*1 → has (start_ctx ps) ps.
Proof.
  intros Hnd. apply Forall_forall. intros [x T] Hx. by apply elem_of_list_to_map_1.
Qed.

Lemma start_fresh ps x : x ∉ ps.*1 → start_ctx ps !! x = None.
Proof. apply not_elem_of_list_to_map_1. Qed.

Lemma has_insert Γ ps x T : x ∉ ps.*1 → has Γ ps → has (<[x := T]> Γ) ps.
Proof.
  unfold has. rewrite !Forall_forall. intros Hx HΓ [y U] Hy. simpl.
  rewrite lookup_insert_ne; [by apply (HΓ (y, U))|]. intros <-. apply Hx, list_elem_of_fmap. by exists (x, U).
Qed.

Lemma has_args Γ (ps : params) : has Γ ps → Forall2 (λ x T, Γ !! x = Some T) ps.*1 ps.*2.
Proof. intros HΓ. induction HΓ; simpl; by constructor. Qed.

Lemma has_outer Γ sh :
  has Γ (outer_params sh) → Forall2 (λ x t, Γ !! x = Some (T_var t)) (outer_names sh) (sh_args sh).*1.
Proof.
  unfold outer_params, outer_names, has. intros HΓ. apply Forall_fmap in HΓ.
  induction HΓ; simpl; by constructor.
Qed.

Lemma has_values Γ sh n :
  has Γ (outer_params sh) → Forall (λ x, ∃ t, Γ !! x = Some (T_var t)) (take n (outer_names sh)).
Proof.
  intros HΓ%has_outer. apply Forall_take. induction HΓ; constructor; [by eexists|done].
Qed.

Lemma has_inner Γ sh :
  has Γ (inner_params sh) ↔ (sh_callback sh = true → Γ !! ($"callback") = Some T_pointer) ∧ has Γ (outer_params sh).
Proof.
  unfold inner_params, slot_param, has. destruct (sh_callback sh); simpl.
  - rewrite Forall_cons. simpl. naive_solver.
  - naive_solver.
Qed.

Lemma outer_params_names sh : (outer_params sh).*1 = outer_names sh.
Proof. unfold outer_params, outer_names. by rewrite <- list_fmap_compose. Qed.
Lemma inner_params_names sh : (inner_params sh).*1 = inner_names sh.
Proof.
  unfold inner_params, inner_names, slot_param. rewrite fmap_app, outer_params_names. by destruct (sh_callback sh).
Qed.
Lemma packed_params_names sh : (packed_params sh).*1 = packed_names sh.
Proof. unfold packed_params, packed_names, slot_param. by destruct (sh_callback sh). Qed.

Lemma inner_passed sh : Forall (λ T, passed T = true) (inner_params sh).*2.
Proof.
  unfold inner_params, slot_param, outer_params. rewrite fmap_app. apply Forall_app. split.
  - destruct (sh_callback sh); repeat constructor.
  - apply Forall_fmap, Forall_fmap, Forall_true. done.
Qed.

Lemma wt_app S Γ Γ' Γ'' ss ss' : wt_stmts S Γ ss Γ' → wt_stmts S Γ' ss' Γ'' → wt_stmts S Γ (ss ++ ss') Γ''.
Proof. intros Hs. induction Hs; [done|]. intros ?. econstructor; eauto. Qed.

Lemma wt_one S Γ Γ' s : wt_stmt S Γ s Γ' → wt_stmts S Γ [s] Γ'.
Proof. intros. econstructor; [done|constructor]. Qed.

(** The contexts after the result was declared, and after it got a value. *)
Definition declared (sh : Shape) (x : str) (Γ : ctx) : ctx :=
  match sh_ret sh with Some t => <[x := T_uninit t]> Γ | None => Γ end.
Definition valued (sh : Shape) (x : str) (Γ : ctx) : ctx :=
  match sh_ret sh with Some t => <[x := T_var t]> Γ | None => Γ end.

Lemma declared_ne sh x y Γ : y ≠ x → declared sh x Γ !! y = Γ !! y.
Proof. unfold declared. intros Hne. destruct (sh_ret sh); [|done]. by rewrite lookup_insert_ne. Qed.

Lemma has_declared Γ ps sh x : x ∉ ps.*1 → has Γ ps → has (declared sh x Γ) ps.
Proof. unfold declared. destruct (sh_ret sh); [apply has_insert|done]. Qed.

Lemma wt_declares S Γ sh :
  sc_ret S = sh_ret sh → Γ !! ($"ret") = None → wt_stmts S Γ (declare sh) (declared sh ($"ret") Γ).
Proof.
  unfold declare, declared. intros HS HΓ. destruct (sh_ret sh) as [t|]; [|constructor].
  apply wt_one. by constructor.
Qed.

Lemma declared_uninit sh x Γ t : sh_ret sh = Some t → declared sh x Γ !! x = Some (T_uninit t).
Proof. unfold declared. intros ->. apply lookup_insert_eq. Qed.

Lemma assigns_valued sh x Γ :
  (∀ t, sh_ret sh = Some t → Γ !! x = Some (T_uninit t)) →
  assigns Γ (assigned sh x) (sh_ret sh) (valued sh x Γ).
Proof. unfold assigned, valued. intros Hx. destruct (sh_ret sh); constructor; eauto. Qed.

(** The call of the next layer with the inner names, after [ret] was declared. *)
Lemma wt_calls S Γ sh l x :
  sc_next S l = Some ((inner_params sh).*2, sh_ret sh) → has Γ (inner_params sh) →
  (∀ t, sh_ret sh = Some t → Γ !! x = Some (T_uninit t)) →
  wt_stmts S Γ [S_call (assigned sh x) l (inner_names sh)] (valued sh x Γ).
Proof.
  intros HS HΓ Hx. apply wt_one. eapply wt_call; [done|apply inner_passed| |by apply assigns_valued].
  rewrite <- inner_params_names. by apply has_args.
Qed.

(** The end of a function's layer. *)
Lemma returns_valued S sh Γ :
  sc_ret S = sh_ret sh →
  match sc_ret S with
  | Some t => return_ sh = [S_return] ∧ valued sh ($"ret") Γ !! ($"ret") = Some (T_var t)
  | None => return_ sh = []
  end.
Proof.
  intros ->. unfold return_, valued. destruct (sh_ret sh); [|done]. split; [done|apply lookup_insert_eq].
Qed.

(** The slot's callback. *)
Definition slotted (sh : Shape) (Γ : ctx) : ctx :=
  if sh_callback sh then <[$"callback" := T_pointer]> Γ else Γ.

(** The start of a sender's [Entry], whose parameters [ps] need not be what crosses. *)
Lemma wt_entry_prolog S sh ps guest :
  sc_ret S = sh_ret sh → sc_slot S = sh_callback sh → NoDup ps.*1 →
  (($"ret") ∉ ps.*1) → (($"callback") ∉ ps.*1) →
  ∃ Γ, wt_stmts S (start_ctx ps) (declare sh ++ get_callback sh guest) Γ ∧
    ((sh_callback sh = true → Γ !! ($"callback") = Some T_pointer) ∧ has Γ ps) ∧
    (∀ t, sh_ret sh = Some t → Γ !! ($"ret") = Some (T_uninit t)) ∧
    (∀ x, x ∉ ps.*1 → x ≠ $"ret" → x ≠ $"callback" → Γ !! x = None).
Proof.
  intros HS Hslot Hnd Hret Hcb. exists (slotted sh (declared sh ($"ret") (start_ctx ps))).
  assert (has (declared sh ($"ret") (start_ctx ps)) ps) as Hhas by by apply has_declared, has_start.
  split_and!.
  - eapply wt_app; [apply wt_declares, start_fresh; done|]. unfold get_callback, slotted. rewrite <- Hslot.
    destruct (sc_slot S) eqn:E; [|constructor]. apply wt_one. constructor; [done|].
    rewrite declared_ne by done. by apply start_fresh.
  - intros Ht. unfold slotted. rewrite Ht. apply lookup_insert_eq.
  - unfold slotted. destruct (sh_callback sh); [by apply has_insert|done].
  - intros t Ht. unfold slotted. destruct (sh_callback sh); rewrite ?lookup_insert_ne by done; by apply declared_uninit.
  - intros x Hx Hr Hc. unfold slotted.
    destruct (sh_callback sh); rewrite ?lookup_insert_ne by done; rewrite declared_ne by done; by apply start_fresh.
Qed.

(** Binding the references of the receiver's [Entry]. *)
Lemma wt_unpacks S (args : list (QualType * str)) pre Γ :
  Γ !! ($"args") = Some (T_incoming (pre ++ args.*1)) → NoDup args.*2 →
  (∀ x, x ∈ args.*2 → Γ !! x = None) →
  ∃ Γ', wt_stmts S Γ (imap (λ i a, S_unpack a.2 a.1 (length pre + i)) args) Γ' ∧
    has Γ' ((λ a, (a.2, T_var a.1)) <$> args) ∧ ∀ x, x ∉ args.*2 → Γ' !! x = Γ !! x.
Proof.
  revert pre Γ. induction args as [|[t x] args IH]; intros pre Γ Hargs Hnd Hfresh; simpl in *.
  { exists Γ. split_and!; [constructor|constructor|done]. }
  apply NoDup_cons in Hnd as [Hx Hnd].
  assert (x ≠ $"args") as Hne by by (intros ->; rewrite Hfresh in Hargs; [|left]).
  destruct (IH (pre ++ [t]) (<[x := T_var t]> Γ)) as (Γ' & Hs & Hhas & Hkeep).
  - rewrite lookup_insert_ne by done. by rewrite <- app_assoc.
  - done.
  - intros y Hy. rewrite lookup_insert_ne by (by intros <-). apply Hfresh. by right.
  - exists Γ'. split_and!.
    + econstructor.
      * eapply wt_unpack; [apply Hfresh; by left|done|]. rewrite Nat.add_0_r, lookup_app_r, Nat.sub_diag by lia. done.
      * erewrite imap_ext; [exact Hs|]. intros i a _. simpl. rewrite length_app. simpl. f_equal. lia.
    + constructor; [|done]. simpl. rewrite Hkeep by done. apply lookup_insert_eq.
    + intros y [Hyx Hy]%not_elem_of_cons. rewrite Hkeep by done. by rewrite lookup_insert_ne.
Qed.

(** The names the templates use besides the arguments'. *)
Definition reserved : list str :=
  [$"callback"; $"ret"; $"ret_ref"; $"args"; $"metadata"; $"argv1"; $"vret"].

Definition names_ok (sh : Shape) : Prop :=
  NoDup (outer_names sh) ∧ Forall (λ x, x ∉ outer_names sh) reserved.

Ltac is_reserved := apply (bool_decide_unpack _); vm_compute; exact I.

Section layers.
Variable sh : Shape.
Hypothesis Hok : names_ok sh.

Lemma reserved_outer x : x ∈ reserved → x ∉ (outer_params sh).*1.
Proof using Hok.
  intros Hx. rewrite outer_params_names. destruct Hok as [_ Hr]. rewrite Forall_forall in Hr. by apply Hr.
Qed.

Lemma reserved_inner x : x ∈ reserved → x ≠ $"callback" → x ∉ (inner_params sh).*1.
Proof using Hok.
  intros Hx Hne. unfold inner_params. rewrite fmap_app, not_elem_of_app. split; [|by apply reserved_outer].
  unfold slot_param. destruct (sh_callback sh); [by apply not_elem_of_cons; split; [|apply not_elem_of_nil]|apply not_elem_of_nil].
Qed.

Lemma outer_nodup : NoDup (outer_params sh).*1.
Proof using Hok. rewrite outer_params_names. apply Hok. Qed.

Lemma inner_nodup : NoDup (inner_params sh).*1.
Proof using Hok.
  unfold inner_params, slot_param. destruct (sh_callback sh); [|apply outer_nodup].
  apply NoDup_cons. split; [|apply outer_nodup]. apply reserved_outer. by left.
Qed.


Lemma ret_inner : ($"ret") ∉ (inner_params sh).*1.
Proof using Hok. apply reserved_inner; [is_reserved|done]. Qed.

(** The context of a layer with the inner parameters, once [ret] is declared. *)
Definition inner_ctx : ctx := declared sh ($"ret") (start_ctx (inner_params sh)).

Lemma inner_has : has inner_ctx (inner_params sh).
Proof using Hok. apply has_declared; [apply ret_inner|]. apply has_start, inner_nodup. Qed.

Lemma inner_fresh x : x ∈ reserved → x ≠ $"callback" → x ≠ $"ret" → inner_ctx !! x = None.
Proof using Hok.
  intros Hx Hcb Hret. unfold inner_ctx. rewrite declared_ne by done. by apply start_fresh, reserved_inner.
Qed.

Lemma wt_inner_declare S : sc_ret S = sh_ret sh → wt_stmts S (start_ctx (inner_params sh)) (declare sh) inner_ctx.
Proof using Hok. intros HS. apply wt_declares; [done|]. apply start_fresh, ret_inner. Qed.

Lemma wt_forward l : wt_layer (calling l sh) (inner_params sh) (forward_layer sh l).
Proof using Hok.
  split; [by rewrite inner_params_names|]. split; [apply inner_nodup|].
  exists (valued sh ($"ret") inner_ctx). split; [|by apply returns_valued].
  eapply wt_app; [by apply wt_inner_declare|].
  apply wt_calls; [by destruct l|apply inner_has|]. intros t Ht. by apply declared_uninit.
Qed.

Lemma wt_pack_layer : wt_layer (crossing sh) (inner_params sh) (pack_layer sh).
Proof using Hok.
  split; [by rewrite inner_params_names|]. split; [apply inner_nodup|].
  set (Γ := <[$"args" := T_array (outer_names sh)]> inner_ctx).
  assert (has Γ (inner_params sh)) as HΓ.
  { apply has_insert; [apply reserved_inner; [is_reserved|done]|apply inner_has]. }
  pose proof (proj1 (has_inner _ _) HΓ) as [Hcb Hout].
  exists (valued sh ($"ret") Γ). split; [|by apply returns_valued]. unfold pack_layer. cbn [layer_prolog layer_center].
  rewrite <- app_assoc. eapply wt_app; [by apply wt_inner_declare|].
  econstructor; [|apply wt_one].
  - apply wt_pack; [apply inner_fresh; [is_reserved|done..]|].
    pose proof inner_has as [_ Hin]%has_inner. rewrite <- (firstn_all (outer_names sh)). by apply has_values.
  - change (has_result sh) with (is_ret (sh_ret sh)). eapply wt_cross; [done| |by apply has_outer|done|].
    + apply lookup_insert_eq.
    + replace (if is_ret (sh_ret sh) then Some ($"ret") else None) with (assigned sh ($"ret"))
        by (unfold assigned; by destruct (sh_ret sh)).
      apply assigns_valued. intros t Ht. unfold Γ. rewrite lookup_insert_ne by done. by apply declared_uninit.
Qed.

Lemma wt_entry_layer last cvarg guest :
  wt_layer (entering last cvarg sh) (outer_params sh) (entry_layer sh guest).
Proof using Hok.
  split; [by rewrite outer_params_names|]. split; [apply outer_nodup|].
  destruct (wt_entry_prolog (entering last cvarg sh) sh (outer_params sh) guest) as (Γ & Hs & Hin & Hu & _);
    [done|done|apply outer_nodup|apply reserved_outer; is_reserved..|].
  exists (valued sh ($"ret") Γ). split; [|by apply returns_valued]. eapply wt_app; [exact Hs|].
  apply wt_calls; [done|by apply has_inner|done].
Qed.

Lemma packed_reserved x : x ∈ packed_names sh → x ∈ reserved.
Proof using.
  unfold packed_names. destruct (sh_callback sh); cbn [app]; rewrite !elem_of_cons, elem_of_nil;
    intros Hx; repeat destruct Hx as [->|Hx]; done || is_reserved.
Qed.

Lemma wt_unpack_layer : wt_entry (calling L_Adapt sh) (sh_ret sh) (packed_params sh) (unpack_layer sh).
Proof using Hok.
  assert (NoDup (packed_params sh).*1) as Hnd.
  { rewrite packed_params_names. unfold packed_names. destruct (sh_callback sh); is_reserved. }
  pose proof (has_start _ Hnd) as Hst. unfold packed_params in Hst at 2. apply Forall_app in Hst as [Hcb Hst].
  apply Forall_cons in Hst as [Hargs Hst]. apply Forall_cons in Hst as [Hret _]. simpl in Hargs, Hret.
  split; [by rewrite packed_params_names|]. split; [done|]. split; [done|].
  destruct (wt_unpacks (calling L_Adapt sh) (sh_args sh) [] (start_ctx (packed_params sh)))
    as (Γ & Hs & Hhas & Hkeep); [done|apply Hok| |].
  { intros x Hx. apply start_fresh. rewrite packed_params_names. intros Hp%packed_reserved%reserved_outer.
    by rewrite outer_params_names in Hp. }
  assert (start_ctx (packed_params sh) !! ($"ret_ref") = None) as Href.
  { apply start_fresh. rewrite packed_params_names. unfold packed_names. destruct (sh_callback sh); is_reserved. }
  assert (∀ x, x ∈ reserved → Γ !! x = start_ctx (packed_params sh) !! x) as Hres.
  { intros x Hx. apply Hkeep. pose proof (reserved_outer x Hx) as Hn. by rewrite outer_params_names in Hn. }
  exists (valued sh ($"ret_ref") (declared sh ($"ret_ref") Γ)). split.
  - unfold unpack_layer. cbn [layer_prolog layer_center]. rewrite <- app_assoc. eapply wt_app; [exact Hs|].
    apply (wt_app _ _ (declared sh ($"ret_ref") Γ)).
    + unfold ret_ref, declared. destruct (sh_ret sh) as [t|]; [|constructor]. apply wt_one. constructor.
      * rewrite (Hres ($"ret_ref")); [exact Href|is_reserved].
      * rewrite (Hres ($"ret")); [done|is_reserved].
    + apply wt_calls; [done| |intros t Ht; by apply declared_uninit].
      apply has_declared; [apply reserved_inner; [is_reserved|done]|]. apply has_inner. split; [|done].
      intros Ht. rewrite (Hres ($"callback")); [|is_reserved]. rewrite Ht in Hcb. by apply Forall_cons in Hcb as [? _].
  - unfold valued, declared. destruct (sh_ret sh) as [t|]; cbn [fmap option_fmap option_map]; [apply lookup_insert_eq|].
    rewrite (Hres ($"ret_ref")); [exact Href|is_reserved].
Qed.
End layers.

(** ** The builders' programs *)

Lemma not_arg_suffix s : (digits_value 0 s).2 ≠ length s → not_arg ($"arg" ++ s).
Proof. intros Hs i Heq. apply app_inv_head in Heq as ->. by rewrite digits_value_dec in Hs. Qed.

Lemma reserved_not_arg : Forall not_arg reserved.
Proof.
  unfold reserved. rewrite !Forall_cons, Forall_nil.
  split_and!; try done; try (by apply (not_arg_suffix ($"s"))); try (by apply (not_arg_suffix ($"v1")));
    intros i Hi; discriminate Hi.
Qed.

Lemma reserved_not_args (l : list nat) : Forall (λ x, x ∉ arg_name <$> l) reserved.
Proof. eapply Forall_impl; [apply reserved_not_arg|]. intros x. apply not_arg_names. Qed.

Lemma proc_names_ok proc : names_ok (proc_shape proc).
Proof.
  unfold names_ok. rewrite outer_args. split; [apply names_NoDup, NoDup_seq|apply reserved_not_args].
Qed.

Lemma sender_code_typed last proc :
  sender_typed last None (outer_params (proc_shape proc)) (proc_shape proc) (sender_code proc).
Proof.
  pose proof (proc_names_ok proc) as Hok. split_and!; [by apply wt_entry_layer|by apply wt_forward|by apply wt_pack_layer].
Qed.

Lemma receiver_code_typed proc : receiver_typed None (proc_shape proc) (receiver_code proc).
Proof.
  pose proof (proc_names_ok proc) as Hok.
  split_and!; [by apply wt_unpack_layer|by apply wt_forward|exact (wt_forward _ Hok L_Exec)].
Qed.

Section format_typed.
Variables (p : LibCFormatPass) (cvarg : QualType) (proc : ProcSnippet) (msg : LibCFormatMessage).
Hypothesis Hrange : in_range p proc msg.
Hypothesis Hlast : m_hasVAList p = false → (vargIdx msg = Z.of_nat (arity proc) + 1)%Z.
Let sh := format_shape p cvarg proc.

Lemma format_names_ok : names_ok sh.
Proof using.
  clear. unfold names_ok, sh. rewrite format_outer. split.
  - apply NoDup_snoc; [apply names_NoDup, NoDup_seq|]. apply not_arg_names, not_arg_vargs.
  - pose proof (reserved_not_args (seq 0 (fixed_arity p proc))) as Hr.
    rewrite Forall_forall in *. intros x Hx. rewrite not_elem_of_app. split; [by apply Hr|].
    intros ->%list_elem_of_singleton. revert Hx. is_reserved.
Qed.

Lemma format_outer_params :
  outer_params sh = take (fixed_arity p proc) (outer_params (proc_shape proc)) ++ [($"vargs", T_var cvarg)].
Proof using. clear. unfold outer_params, sh, format_shape. cbn [sh_args]. by rewrite fmap_app, fmap_take. Qed.

(** A name at an index is a parameter, of some type. *)
Lemma index_typed Γ k :
  has Γ (outer_params (proc_shape proc)) → (1 ≤ k ≤ Z.of_nat (arity proc))%Z →
  ∃ t, Γ !! index_name k = Some (T_var t).
Proof using.
  clear. intros HΓ%has_outer Hk. destruct (Forall2_lookup_l _ _ _ (Z.to_nat (k - 1)) (index_name k) HΓ) as (t & _ & Ht).
  - rewrite outer_args, list_lookup_fmap, lookup_seq_lt by lia. done.
  - by exists t.
Qed.

(** The last named parameter of a function with variable arguments. *)
Definition last_param : option str :=
  if m_hasVAList p then None else Some (arg_name (arity proc - 1)).

Lemma format_entry_typed :
  wt_layer (entering last_param (Some cvarg) sh) (outer_params (proc_shape proc))
    (format_entry_layer p msg proc sh).
Proof using Hrange Hlast.
  pose proof (proc_names_ok proc) as Hok.
  split; [by rewrite outer_params_names|]. split; [by apply outer_nodup|].
  destruct (wt_entry_prolog (entering last_param (Some cvarg) sh) sh (outer_params (proc_shape proc))
    (negb (is_g2h proc))) as (Γ & Hs & [Hcb Hhas] & Hu & Hfresh); [done|done|by apply outer_nodup|apply reserved_outer; [done|is_reserved]..|].
  assert (($"vargs") ∉ (outer_params (proc_shape proc)).*1) as Hva.
  { rewrite outer_params_names, outer_args. apply not_arg_names, not_arg_vargs. }
  set (Γ1 := <[$"vargs" := T_boxes]> Γ). set (Γ2 := <[$"vargs" := T_var cvarg]> Γ1).
  assert (has Γ1 (outer_params (proc_shape proc))) as Hhas1 by by apply has_insert.
  pose proof (λ k, index_typed Γ1 k Hhas1) as Hidx.
  exists (valued sh ($"ret") Γ2). split; [|by apply returns_valued].
  unfold format_entry_layer. cbn [layer_prolog layer_center]. rewrite app_assoc, <- app_assoc.
  eapply wt_app; [exact Hs|]. cbn [app].
  econstructor; [apply wt_vargs, Hfresh; done|]. fold Γ1. econstructor.
  - unfold extract_stmt. destruct Hrange as [Hf Hv]. destruct (Hidx (fmtIdx msg)) as [tf Htf]; [lia|].
    destruct (m_hasVAList p) eqn:E.
    + destruct (Hidx (vargIdx msg)) as [ta Hta]; [lia|]. 
      eapply wt_extract; [done|apply lookup_insert_eq|exact Htf|exact Hta].
    + destruct (Hidx (vargIdx msg - 1)%Z) as [ta Hta]; [specialize (Hlast eq_refl); lia|].
      eapply wt_va_extract; [done|apply lookup_insert_eq|exact Htf| |by eexists].
      simpl. unfold last_param. rewrite E, Hlast by done. unfold index_name. do 2 f_equal. lia.
  - apply wt_calls; [done| |].
    + apply has_inner. split; [intros Ht; unfold Γ2, Γ1; rewrite !lookup_insert_ne by done; by apply Hcb|].
      rewrite format_outer_params. apply Forall_app. split; [|by repeat constructor; apply lookup_insert_eq].
      apply Forall_take. by apply has_insert.
    + intros t Ht. unfold Γ2, Γ1. rewrite !lookup_insert_ne by done. by apply Hu.
Qed.

Lemma helper_typed : wt_layer (executing (Some cvarg) sh) (inner_params sh) (helper_layer p msg sh).
Proof using Hrange. 
  pose proof format_names_ok as Hok.
  split; [by rewrite inner_params_names|]. split; [by apply inner_nodup|].
  set (Γ0 := inner_ctx sh). set (Γ1 := <[$"argv1" := T_entries]> Γ0).
  set (b := is_ret (sh_ret sh)). set (Γ2 := <[$"vret" := T_vret None false]> Γ1).
  set (Γ3 := <[$"vret" := T_vret (Some b) false]> Γ2). set (Γ4 := <[$"vret" := T_vret (Some b) true]> Γ3).
  assert (Γ0 !! ($"vargs") = Some (T_var cvarg)) as Hva.
  { pose proof (inner_has _ Hok) as [_ Hout]%has_inner. rewrite format_outer_params in Hout.
    apply Forall_app in Hout as [_ Hout]. by apply Forall_cons in Hout as [? _]. }
  assert (∀ x, x ≠ $"argv1" → x ≠ $"vret" → Γ4 !! x = Γ0 !! x) as Hkeep.
  { intros x Hx Hx'. unfold Γ4, Γ3, Γ2, Γ1. by rewrite !lookup_insert_ne by congruence. }
  assert (∀ x, x ≠ $"argv1" → x ≠ $"vret" → Γ3 !! x = Γ0 !! x) as Hkeep3.
  { intros x Hx Hx'. unfold Γ3, Γ2, Γ1. by rewrite !lookup_insert_ne by congruence. }
  pose proof (inner_has _ Hok) as [Hcb Hout]%has_inner.
  exists (valued sh ($"ret") Γ4). split; [|by apply returns_valued].
  unfold helper_layer. cbn [layer_prolog layer_center]. rewrite <- app_assoc.
  eapply wt_app; [by apply wt_inner_declare|]. cbn [app].
  econstructor; [apply wt_entries|]; fold Γ1.
  { apply inner_fresh; [done|is_reserved|done..]. }
  { replace (arg_name <$> seq 0 (fixed_count msg)) with (take (fixed_count msg) (outer_names sh)); [by apply has_values|].
    unfold sh. rewrite format_outer. pose proof (fixed_count_le p proc msg Hrange) as Hle.
    rewrite take_app_le by (rewrite length_fmap, length_seq; lia). rewrite <- fmap_take, take_seq. do 2 f_equal. lia. }
  econstructor; [apply wt_vret|].
  { unfold Γ1. rewrite lookup_insert_ne by done. apply inner_fresh; [done|is_reserved|done..]. }
  econstructor.
  { change (has_result sh) with (is_ret (sc_ret (executing (Some cvarg) sh))). apply wt_vret_type; [apply lookup_insert_eq|].
    intros t Ht. unfold Γ1. rewrite !lookup_insert_ne by done. by apply declared_uninit. }
  change (is_ret (sc_ret (executing (Some cvarg) sh))) with b. fold Γ2 Γ3. econstructor.
  { eapply wt_helper; [done| | |apply lookup_insert_eq|].
    - by rewrite Hkeep3.
    - unfold Γ3, Γ2, Γ1. rewrite !lookup_insert_ne by done. apply lookup_insert_eq.
    - intros Ht. rewrite Hkeep3 by done. by apply Hcb. }
  fold Γ4. unfold valued. destruct (sh_ret sh) as [t|] eqn:Et; [|constructor]. apply wt_one. constructor; [done| |].
  - rewrite Hkeep by done. by apply declared_uninit.
  - apply lookup_insert_eq.
Qed.
End format_typed.

(** ** The signatures in the text *)

(** The C++ type of a parameter. *)
Definition cxx_type (T : ty) : option QualType :=
  match T with
  | T_var t => Some t
  | T_incoming _ => Some ppVoidType
  | _ => Some pVoidType
  end.

(** A layer's printed signature has these parameters, and this result. *)
Definition signature_is (ps : params) (ret : QualType) (src : ProcSource) : Prop :=
  arguments (functionInfo src) = (λ p, (cxx_type p.2, p.1)) <$> ps ∧ returnType (functionInfo src) = Some ret.

Definition sender_signatures (ps : params) (sh : Shape) (ret : QualType) (src : sources) : Prop :=
  signature_is ps ret (at_entry src) ∧ signature_is (inner_params sh) ret (at_adapt src) ∧
  signature_is (inner_params sh) ret (at_caller src).
Definition receiver_signatures (sh : Shape) (ret : QualType) (src : sources) : Prop :=
  signature_is (packed_params sh) VoidTy (at_entry src) ∧ signature_is (inner_params sh) ret (at_adapt src) ∧
  signature_is (inner_params sh) ret (at_caller src).

Lemma outer_signature sh info :
  arguments info = prod_map Some id <$> sh_args sh →
  arguments info = (λ p, (cxx_type p.2, p.1)) <$> outer_params sh.
Proof. intros ->. unfold outer_params. rewrite <- list_fmap_compose. apply list_fmap_ext. by intros i [t x]. Qed.

Lemma inner_signature proc sh info :
  sh_callback sh = is_callback proc → arguments info = prod_map Some id <$> sh_args sh →
  arguments (match proc_kind proc with Function_ => info | Callback => with_callback info end)
    = (λ p, (cxx_type p.2, p.1)) <$> inner_params sh.
Proof.
  intros Hcb Hi%outer_signature. unfold inner_params, slot_param. rewrite Hcb. unfold is_callback.
  destruct (proc_kind proc); [done|]. simpl. by rewrite Hi.
Qed.

Lemma packed_signature proc sh :
  sh_callback sh = is_callback proc →
  arguments (packed_info proc) = (λ p, (cxx_type p.2, p.1)) <$> packed_params sh.
Proof.
  intros Hcb. unfold packed_info, packed_params, slot_param. rewrite Hcb. unfold is_callback. by destruct (proc_kind proc).
Qed.

Lemma packed_returns proc : returnType (packed_info proc) = Some VoidTy.
Proof. unfold packed_info. by destruct (proc_kind proc). Qed.

Section default_signatures.
Variables (proc : ProcSnippet) (t : QualType).
Hypothesis Hret : view_returnType (proc_view proc) = Some t.

Lemma default_signatures src :
  (sender_side proc empty_sources = Done src →
     sender_signatures (outer_params (proc_shape proc)) (proc_shape proc) t src) ∧
  (receiver_side proc empty_sources = Done src → receiver_signatures (proc_shape proc) t src).
Proof using Hret.
  pose proof (real_arguments proc) as Hargs.
  pose proof (outer_signature _ _ Hargs) as Hout.
  pose proof (inner_signature proc (proc_shape proc) _ eq_refl Hargs) as Hin.
  pose proof (packed_signature proc (proc_shape proc) eq_refl) as Hp. pose proof (packed_returns proc) as Hpr.
  assert (returnType (real_info proc) = Some t) as Hr by done. pose proof (inner_ret proc t Hret) as Hi.
  split; intros Hs; unfold sender_side, receiver_side in Hs; run_binds Hs; injection Hs as <-; by split_and!.
Qed.
Lemma builder_signatures mode src :
  proc_source proc = empty_sources → default_builder_begin mode proc = Done (with_sources proc src) →
  if is_sender mode proc then sender_signatures (outer_params (proc_shape proc)) (proc_shape proc) t src
  else receiver_signatures (proc_shape proc) t src.
Proof using Hret.
  intros He Hb. unfold default_builder_begin in Hb. rewrite He in Hb.
  destruct (sender_side_is proc t Hret) as (x & Hx & _), (receiver_side_is proc t Hret) as (y & Hy & _).
  assert (sender_signatures (outer_params (proc_shape proc)) (proc_shape proc) t x) as Hxs
    by by apply default_signatures.
  assert (receiver_signatures (proc_shape proc) t y) as Hys by by apply default_signatures.
  destruct (is_sender mode proc); rewrite Hx, Hy in Hb; cbn [mbind run_bind] in Hb;
    apply (f_equal (λ m, proc_source <$> m)) in Hb; by injection Hb as <-.
Qed.
End default_signatures.

Section format_signatures.
Variables (p : LibCFormatPass) (cvarg : QualType) (proc : ProcSnippet) (msg : LibCFormatMessage) (t : QualType).
Hypothesis Hret : view_returnType (proc_view proc) = Some t.
Hypothesis Hrange : in_range p proc msg.
Let sh := format_shape p cvarg proc.

Lemma format_signatures src :
  (format_sender_side p (Some cvarg) msg proc empty_sources = Done src →
     sender_signatures (outer_params (proc_shape proc)) sh t src) ∧
  (format_receiver_side p (Some cvarg) msg proc empty_sources = Done src → receiver_signatures sh t src).
Proof using Hret.
  clear Hrange.
  pose proof (outer_signature _ _ (real_arguments proc)) as Hout.
  pose proof (inner_signature proc sh _ eq_refl (format_arguments p cvarg proc _ (real_arguments proc))) as Hin.
  pose proof (packed_signature proc sh eq_refl) as Hp. pose proof (packed_returns proc) as Hpr.
  assert (returnType (real_info proc) = Some t) as Hr by done.
  pose proof (format_inner_ret p cvarg proc t Hret) as Hi.
  split; intros Hs; unfold format_sender_side, format_receiver_side in Hs; run_binds Hs; injection Hs as <-;
    by split_and!.
Qed.

Lemma format_begin_signatures mode src :
  proc_source proc = empty_sources → format_begin mode p (Some cvarg) msg proc = Done (with_sources proc src) →
  if is_sender mode proc then sender_signatures (outer_params (proc_shape proc)) sh t src
  else receiver_signatures sh t src.
Proof using Hret Hrange.
  intros He Hb. unfold format_begin in Hb. rewrite He in Hb.
  destruct (format_sender_side_is p cvarg proc msg t Hret Hrange) as (x & Hx & _),
    (format_receiver_side_is p cvarg proc msg t Hret Hrange) as (y & Hy & _).
  assert (sender_signatures (outer_params (proc_shape proc)) sh t x) as Hxs by by apply format_signatures.
  assert (receiver_signatures sh t y) as Hys by by apply format_signatures.
  apply bind_Done in Hb as [_ Hb]. apply bind_Done in Hb as [? Hb]. apply bind_Done in Hb as [? Hb].
  destruct (is_sender mode proc); rewrite Hx, Hy in Hb; cbn [mbind run_bind] in Hb;
    apply (f_equal (λ m, proc_source <$> m)) in Hb; by injection Hb as <-.
Qed.
End format_signatures.

(** ** The builders' text is typed *)

(** What a typed call is, for every meaning of types on values: the native function is
    total on arguments of the parameters' types, and so is the call. *)
Definition call_typed (last : option str) (cvarg : option QualType) (ps : params) (sh : Shape)
    (xcode ycode : by_phase LayerCode) : Prop :=
  ∀ (V : Type) (va : Adaptor V) (has_type : V → QualType → Prop) native packed cb variadic vs,
    fun_ok has_type (inner_params sh).*2 (sh_ret sh) native → cb_ok (sh_callback sh) cb →
    (∀ x, last = Some x → ∃ ap, variadic = Some (x, ap)) →
    (∀ tc, cvarg = Some tc → adaptor_ok va has_type tc (sh_ret sh)) →
    Forall2 (value_ok has_type) vs ps.*2 →
    ∃ r, run_sender va xcode (run_receiver va ycode native packed) cb variadic vs = Some r ∧
      result_typed has_type r (sh_ret sh).

(** C3: the text the builder writes for a proc is that of typed programs: the printed
    signatures are the parameters and results the layers are typed with, in every layer
    each name is declared once, a variable is read once it has a value, a call passes
    values of the types of the next layer's parameters, and the receiver casts each
    pointer of the incoming array to the type of the variable whose address the sender
    stored there.  So a call with values of the parameters' types never gets stuck on
    either side and returns a value of the result type. *)
Theorem generated_thunks_typed proc t :
  proc_source proc = empty_sources → view_returnType (proc_view proc) = Some t →
  let sh := proc_shape proc in
  ∃ xsrc ysrc xcode ycode,
    default_builder_begin (sender_mode proc) proc = Done (with_sources proc xsrc) ∧
    default_builder_begin (receiver_mode proc) proc = Done (with_sources proc ysrc) ∧
    side_is proc xcode xsrc ∧ side_is proc ycode ysrc ∧
    sender_signatures (outer_params sh) sh t xsrc ∧ receiver_signatures sh t ysrc ∧
    sender_typed None None (outer_params sh) sh xcode ∧ receiver_typed None sh ycode ∧
    call_typed None None (outer_params sh) sh xcode ycode.
Proof.
  intros Hsrc Hret sh.
  destruct (builder_text (sender_mode proc) proc Hsrc ltac:(by eexists)) as (x & Hx & Hxs).
  destruct (builder_text (receiver_mode proc) proc Hsrc ltac:(by eexists)) as (y & Hy & Hys).
  pose proof (builder_signatures proc t Hret _ _ Hsrc Hx) as Hxg.
  pose proof (builder_signatures proc t Hret _ _ Hsrc Hy) as Hyg.
  rewrite sender_mode_sends in Hxs, Hxg. rewrite receiver_mode_receives in Hys, Hyg.
  exists x, y, (sender_code proc), (receiver_code proc).
  split_and!; [done..|apply sender_code_typed|apply receiver_code_typed|].
  intros V va has_type native packed cb variadic vs Hn Hcb Hlast Had Hvs.
  eapply typed_call; [apply sender_code_typed|apply receiver_code_typed|done..| |done].
  by intros tc [|].
Qed.

(** The same holds for the builders of functions that take a format: the text they
    write for a proc whose message is in range is that of typed programs, in which the
    parameters before the variable arguments and a [CVargEntry] pointer cross, the last
    named parameter is the one [va_start] is given, the boxes are filled before they are
    passed, the result's type is set in [vret] before the call and read after it. *)
Theorem format_thunks_typed p cvarg msg proc t :
  proc_source proc = empty_sources → view_returnType (proc_view proc) = Some t → in_range p proc msg →
  (m_hasVAList p = false → vargIdx msg = Z.of_nat (arity proc) + 1)%Z →
  let sh := format_shape p cvarg proc in
  let last := last_param p proc in
  let ps := outer_params (proc_shape proc) in
  ∃ xsrc ysrc xcode ycode,
    format_begin (sender_mode proc) p (Some cvarg) msg proc = Done (with_sources proc xsrc) ∧
    format_begin (receiver_mode proc) p (Some cvarg) msg proc = Done (with_sources proc ysrc) ∧
    side_is proc xcode xsrc ∧ side_is proc ycode ysrc ∧
    sender_signatures ps sh t xsrc ∧ receiver_signatures sh t ysrc ∧
    sender_typed last (Some cvarg) ps sh xcode ∧ receiver_typed (Some cvarg) sh ycode ∧
    call_typed last (Some cvarg) ps sh xcode ycode.
Proof.
  intros Hsrc Hret Hrange Hlast sh last ps.
  destruct (format_text (sender_mode proc) p cvarg msg proc Hsrc ltac:(by eexists) Hrange) as (x & Hx & Hxs).
  destruct (format_text (receiver_mode proc) p cvarg msg proc Hsrc ltac:(by eexists) Hrange) as (y & Hy & Hys).
  pose proof (format_begin_signatures p cvarg proc msg t Hret Hrange _ _ Hsrc Hx) as Hxg.
  pose proof (format_begin_signatures p cvarg proc msg t Hret Hrange _ _ Hsrc Hy) as Hyg.
  rewrite sender_mode_sends in Hxs, Hxg. rewrite receiver_mode_receives in Hys, Hyg.
  assert (sender_typed last (Some cvarg) ps sh (format_sender_code p cvarg msg proc)) as Hxt.
  { pose proof (format_names_ok p cvarg proc) as Hok.
    split_and!; [by apply format_entry_typed|by apply wt_forward|by apply wt_pack_layer]. }
  assert (receiver_typed (Some cvarg) sh (format_receiver_code p cvarg msg proc)) as Hyt.
  { pose proof (format_names_ok p cvarg proc) as Hok.
    split_and!; [by apply wt_unpack_layer|by apply wt_forward|by apply helper_typed]. }
  exists x, y, (format_sender_code p cvarg msg proc), (format_receiver_code p cvarg msg proc).
  split_and!; [done..|]. intros V va has_type native packed cb variadic vs Hn Hcb Hla Had Hvs.
  eapply typed_call; [exact Hxt|exact Hyt|done..| |done]. intros tc [|]; by apply Had.
Qed.
End typing.

(** ** Examples *)

(** Values that carry their type; a native function that counts its arguments, and an
    adaptor that does the same with a call's entries. *)
Abbreviation tagged := (Z * CType)%type.
Definition tag_type (v : tagged) (t : @QualType c_clang) : Prop := v.2 = t.
Definition count_native (vs : list tagged) : option (option tagged) := Some (Some (Z.of_nat (length vs), c_int)).
Definition count_adaptor : Adaptor tagged :=
  MkAdaptor (λ _ _ _, Some (0%Z, c_cvarg)) (λ _ _ with_ret es _,
    Some (if with_ret then Some (Z.of_nat (length es), c_int) else None)).

Lemma generated_thunks_typed_witness :
  ∃ xsrc ysrc xcode ycode r,
    default_builder_begin Host cb_proc = Done (with_sources cb_proc xsrc) ∧
    default_builder_begin Guest cb_proc = Done (with_sources cb_proc ysrc) ∧
    side_is cb_proc xcode xsrc ∧ side_is cb_proc ycode ysrc ∧
    run_sender count_adaptor xcode (run_receiver count_adaptor ycode count_native (0%Z, c_int))
      (Some (100%Z, c_int)) None [(6%Z, c_int); (7%Z, c_double)] = Some r ∧
    result_typed tag_type r (Some c_int).
Proof.
  destruct (generated_thunks_typed cb_proc c_int)
    as (xs & ys & xc & yc & Hx & Hy & Hxc & Hyc & _ & _ & _ & _ & Hcall).
  - reflexivity.
  - reflexivity.
  - destruct (Hcall tagged count_adaptor tag_type count_native (0%Z, c_int) (Some (100%Z, c_int)) None
      [(6%Z, c_int); (7%Z, c_double)]) as (r & Hr & Ht).
    + intros vs _. exists (Some (Z.of_nat (length vs), c_int)). split; reflexivity.
    + split; [intros _; by eexists|done].
    + intros x Hl. discriminate Hl.
    + intros tc Hc. discriminate Hc.
    + repeat constructor.
    + exists xs, ys, xc, yc, r. split; [exact Hx|]. split; [exact Hy|]. split; [exact Hxc|]. split; [exact Hyc|].
      split; [exact Hr|exact Ht].
Defined.

Lemma format_thunks_typed_witness :
  ∃ xsrc ysrc xcode ycode r,
    format_begin Guest PrintFPass (Some c_cvarg) (MkFormatMessage 1 2) (proc_of c_printf) =
      Done (with_sources (proc_of c_printf) xsrc) ∧
    format_begin Host PrintFPass (Some c_cvarg) (MkFormatMessage 1 2) (proc_of c_printf) =
      Done (with_sources (proc_of c_printf) ysrc) ∧
    side_is (proc_of c_printf) xcode xsrc ∧ side_is (proc_of c_printf) ycode ysrc ∧
    run_sender count_adaptor xcode (run_receiver count_adaptor ycode count_native (0%Z, c_int))
      None (Some ($"arg1", (0%Z, c_int))) [(6%Z, c_char_pointer)] = Some r ∧
    result_typed tag_type r (Some c_int).
Proof.
  destruct (format_thunks_typed PrintFPass c_cvarg (MkFormatMessage 1 2) (proc_of c_printf) c_int)
    as (xs & ys & xc & yc & Hx & Hy & Hxc & Hyc & _ & _ & _ & _ & Hcall).
  - reflexivity.
  - reflexivity.
  - unfold in_range, arity. simpl. lia.
  - intros _. reflexivity.
  - destruct (Hcall tagged count_adaptor tag_type count_native (0%Z, c_int) None (Some ($"arg1", (0%Z, c_int)))
      [(6%Z, c_char_pointer)]) as (r & Hr & Ht).
    + intros vs _. exists (Some (Z.of_nat (length vs), c_int)). split; reflexivity.
    + split; [discriminate|by intros [? ?]].
    + intros x [= <-]. by exists (0%Z, c_int).
    + intros tc [= <-]. split; intros; by eexists.
    + repeat constructor.
    + exists xs, ys, xc, yc, r. split; [exact Hx|]. split; [exact Hy|]. split; [exact Hxc|]. split; [exact Hyc|].
      split; [exact Hr|exact Ht].
Defined.
