(* ===== verification/CallbackTree.v ===== *)
(** The callbacks reachable from an argument: the first half of
    [src/tools/TLC/Passes/Guard/CallbackSubstituter.cpp].

    [containsFunctionPointer] and [CallbackTree::build] walk the records of a translation
    unit, which may refer to themselves; both stop at spellings they have seen.  The
    theorems say that the walks end, that the first finds a function exactly when one is
    reachable, and that a tree holds exactly the callbacks that are members of the
    argument, by value or through one pointer at each step; anything else that leads to a
    function is reported as unsupported. *)

From stdpp Require Import gmap.
From S2P Require Import Prelude CppString StringExtras ManifestSummary ClangExtras Document.

(** ** Arrays and records *)

(** What the walk asks of Clang's types, and the laws of them it relies on: a canonical
    type is its own and its components are canonical, a type is of one kind, and a unit
    has finitely many records. *)
Class ClangRecords `{Clang} : Type := {
  array_element : QualType → option QualType;
  isUnionType : QualType → bool;
  (** The fields of a structure or union, in order. *)
  record_fields : QualType → option (list (str * QualType));

  element_decreases t t' : array_element t = Some t' → pointee_rank t' < pointee_rank t;
  function_pointer t :
    isFunctionPointerType t = match pointee t with Some t' => isFunctionType t' | None => false end;
  canonical_idemp t : getCanonicalType (getCanonicalType t) = getCanonicalType t;
  canonical_pointee t t' : getCanonicalType t = t → pointee t = Some t' → getCanonicalType t' = t';
  canonical_element t t' : getCanonicalType t = t → array_element t = Some t' → getCanonicalType t' = t';
  pointer_kind t : is_Some (pointee t) →
    array_element t = None ∧ record_fields t = None ∧ isFunctionType t = false;
  array_kind t : is_Some (array_element t) → record_fields t = None ∧ isFunctionType t = false;
  function_kind t : isFunctionType t = true → record_fields t = None;
  union_kind t : isUnionType t = true → is_Some (record_fields t);
  (** What [va_list] is made of: its tag, the types of the tag's members, the arrays of and
      pointers to these, and what they consist of.  None of it is a function. *)
  va_list_part : QualType → bool;
  va_list_function t : va_list_part t = true → isFunctionType t = false;
  va_list_pointee t t' : va_list_part t = true → pointee t = Some t' → va_list_part t' = true;
  va_list_element t t' : va_list_part t = true → array_element t = Some t' → va_list_part t' = true;
  va_list_field t fields t' :
    va_list_part t = true → record_fields t = Some fields → t' ∈ fields.*2 → va_list_part (getCanonicalType t') = true;
  (** Two canonical types with the same spelling are the same, but for the forms of
      [va_list]: [getTypeString] spells the array of its tag and the pointer to it alike. *)
  spelling_inj t u :
    getCanonicalType t = t → getCanonicalType u = u → getTypeString t = getTypeString u →
    t = u ∨ va_list_part t = true ∧ va_list_part u = true;
  (** A member is no function. *)
  field_kind t fields t' :
    record_fields t = Some fields → t' ∈ fields.*2 → isFunctionType (getCanonicalType t') = false;
  (** The spellings of the canonical records and of the canonical types of their fields,
      and a bound of the number of fields. *)
  known_spellings : list str;
  fields_bound : nat;
  fields_known t fields :
    record_fields t = Some fields →
    length fields ≤ fields_bound ∧
    Forall (λ t', ∃ s, getTypeString (getCanonicalType t') = Done s ∧ s ∈ known_spellings) (t :: fields.*2)
}.

Section tree.
Context `{ClangRecords}.

(** ** [containsFunctionPointer] *)

(** The loop through pointers and arrays; the fuel is the type's own depth. *)
Definition peel_step (t : QualType) : option QualType :=
  match pointee t with Some t' => Some t' | None => array_element t end.

Fixpoint peel (fuel : nat) (t : QualType) : run QualType :=
  match peel_step t with
  | None => Done t
  | Some t' => match fuel with 0 => NoFuel | S fuel => peel fuel t' end
  end.

(** The canonical type at the end of the pointers and arrays. *)
Definition base_type (t : QualType) : run QualType :=
  let type := getCanonicalType t in
  type ← peel (pointee_rank type) type;
  Done (getCanonicalType type).

(** The stack's top is the head of the list. *)
Fixpoint contains_loop (fuel : nat) (visited : gset str) (stack : list QualType) : run bool :=
  match stack with
  | [] => Done false
  | t :: stack =>
      match fuel with
      | 0 => NoFuel
      | S fuel =>
          type ← base_type t;
          s ← getTypeString type;
          if bool_decide (s ∈ visited) then contains_loop fuel visited stack
          else if isFunctionType type then Done true
          else contains_loop fuel ({[s]} ∪ visited)
                 (match record_fields type with
                  | Some fields => reverse fields.*2 ++ stack
                  | None => stack
                  end)
      end
  end.
(** Enough for every record to be walked once. *)
Definition contains_fuel (n : nat) (visited : gset str) : nat :=
  n + S fields_bound * size (list_to_set known_spellings ∖ visited).

Definition containsFunctionPointer (T : QualType) : run bool :=
  contains_loop (contains_fuel 1 ∅) ∅ [T].

(** ** [CallbackTree] *)

Inductive Reach : Type := ByValue | ByPointer.
Inductive Status : Type := HasCallbacks | NoCallbacks | Unsupported.

(** The maps are lists in the order of their keys. *)
Inductive CallbackTree : Type :=
  | MkTree (status : Status) (reach : Reach) (callbacks : list (str * QualType))
      (children : list (str * CallbackTree)) (outCallbacks : list (str * QualType)).

Definition status (t : CallbackTree) : Status := let '(MkTree s _ _ _ _) := t in s.
Definition reach (t : CallbackTree) : Reach := let '(MkTree _ r _ _ _) := t in r.
Definition callbacks (t : CallbackTree) : list (str * QualType) := let '(MkTree _ _ c _ _) := t in c.
Definition children (t : CallbackTree) : list (str * CallbackTree) := let '(MkTree _ _ _ c _) := t in c.
Definition outCallbacks (t : CallbackTree) : list (str * QualType) := let '(MkTree _ _ _ _ o) := t in o.

Definition unsupported : CallbackTree := MkTree Unsupported ByValue [] [] [].
Definition noCallbacks : CallbackTree := MkTree NoCallbacks ByValue [] [] [].

(** A pointer is followed once; [None] is a pointer to a pointer that leads to a
    function. *)
Definition through_pointer (T : QualType) : run (option (bool * QualType)) :=
  match pointee T with
  | None => Done (Some (false, T))
  | Some p =>
      match pointee p with
      | None => Done (Some (true, p))
      | Some p' => b ← containsFunctionPointer p'; Done (if b : bool then None else Some (true, p))
      end
  end.

(** Arrays and unions that lead to a function. *)
Definition unsupported_shape (T : QualType) : run bool :=
  a ← match array_element T with Some e => containsFunctionPointer e | None => Done false end;
  if a : bool then Done true else if isUnionType T then containsFunctionPointer T else Done false.

(** The loop over the fields; [None] is an unsupported one. *)
Fixpoint build_fields (build : gset str → QualType → run CallbackTree) (visited : gset str)
    (fields : list (str * QualType)) (cbs : gmap str QualType) (chs : gmap str CallbackTree) :
    run (option (gmap str QualType * gmap str CallbackTree)) :=
  match fields with
  | [] => Done (Some (cbs, chs))
  | (fieldName, t) :: fields =>
      let type := getCanonicalType t in
      if isFunctionPointerType type then
        callee ← defined (pointee type);
        build_fields build visited fields (emplace fieldName (getCanonicalType callee) cbs) chs
      else
        typeStr ← getTypeString type;
        if bool_decide (typeStr ∈ visited) then
          b ← containsFunctionPointer type;
          if b : bool then Done None else build_fields build visited fields cbs chs
        else
          child ← build ({[typeStr]} ∪ visited) type;
          match status child with
          | Unsupported => Done None
          | HasCallbacks => build_fields build visited fields cbs (emplace fieldName child chs)
          | NoCallbacks => build_fields build visited fields cbs chs
          end
  end.

Fixpoint build (fuel : nat) (visited : gset str) (T : QualType) : run CallbackTree :=
  match fuel with
  | 0 => NoFuel
  | S fuel =>
      r ← through_pointer T;
      match r with
      | None => Done unsupported
      | Some (throughPointer, T) =>
          bad ← unsupported_shape T;
          if bad : bool then Done unsupported else
          match record_fields T with
          | None => Done noCallbacks
          | Some fields =>
              r ← build_fields (build fuel) visited fields ∅ ∅;
              Done (match r with
                    | None => unsupported
                    | Some (cbs, chs) =>
                        if bool_decide (cbs = ∅) && bool_decide (chs = ∅) then noCallbacks
                        else MkTree HasCallbacks (if throughPointer : bool then ByPointer else ByValue)
                               (entries cbs) (entries chs) []
                    end)
          end
      end
  end.

(** Enough for a path without a repeated spelling. *)
Definition build_tree (T : QualType) : run CallbackTree :=
  build (S (size (list_to_set (C := gset str) known_spellings))) ∅ T.

(** ** [buildArgumentTree] *)

(** An out parameter that the callee fills with a callback, and the callback's function. *)
Definition out_callee (canon : QualType) : option QualType :=
  match pointee canon with
  | Some p => if isFunctionPointerType p then getCanonicalType <$> pointee p else None
  | None => None
  end.

(** A lookup in [m_treeCache], filled when it misses. *)
Definition cached_tree (cache : gmap str CallbackTree) (canon : QualType) :
    run (gmap str CallbackTree * CallbackTree) :=
  typeStr ← getTypeString canon;
  match cache !! typeStr with
  | Some tree => Done (cache, tree)
  | None => tree ← build_tree canon; Done (<[typeStr := tree]> cache, tree)
  end.

Fixpoint argument_loop (cache : gmap str CallbackTree) (args : list (option QualType * str))
    (cbs : gmap str QualType) (chs : gmap str CallbackTree) (outs : gmap str QualType) :
    run (gmap str CallbackTree * option (gmap str QualType * gmap str CallbackTree * gmap str QualType)) :=
  match args with
  | [] => Done (cache, Some (cbs, chs, outs))
  | (type, name) :: args =>
      t ← defined type;
      let canon := getCanonicalType t in
      if isFunctionPointerType canon then
        callee ← defined (pointee canon);
        argument_loop cache args (emplace name (getCanonicalType callee) cbs) chs outs
      else match out_callee canon with
      | Some callee => argument_loop cache args cbs chs (emplace name callee outs)
      | None =>
          '(cache, argTree) ← cached_tree cache canon;
          match status argTree with
          | Unsupported => Done (cache, None)
          | HasCallbacks => argument_loop cache args cbs (emplace name argTree chs) outs
          | NoCallbacks => argument_loop cache args cbs chs outs
          end
      end
  end.

Definition buildArgumentTree (cache : gmap str CallbackTree) (info : FunctionInfo) :
    run (gmap str CallbackTree * CallbackTree) :=
  '(cache, r) ← argument_loop cache (arguments info) ∅ ∅ ∅;
  Done (cache,
    match r with
    | None => unsupported
    | Some (cbs, chs, outs) =>
        if bool_decide (cbs = ∅) && bool_decide (chs = ∅) && bool_decide (outs = ∅) then noCallbacks
        else MkTree HasCallbacks ByValue (entries cbs) (entries chs) (entries outs)
    end).

(** Induction on trees. *)
Lemma tree_induction (Q : CallbackTree → Prop) :
  (∀ st r cbs chs outs, Forall (λ p, Q p.2) chs → Q (MkTree st r cbs chs outs)) → ∀ t, Q t.
Proof.
  intros Hnode. fix IH 1. intros [st r cbs chs outs]. apply Hnode.
  induction chs as [|[name child] chs IHc]; [constructor|]. constructor; [apply IH|exact IHc].
Qed.

(** ** What the walk looks for *)

(** A function is reachable through pointers, arrays and members. *)
Inductive reaches : QualType → Prop :=
  | reaches_function t u : base_type t = Done u → isFunctionType u = true → reaches t
  | reaches_field t u fields t' :
      base_type t = Done u → record_fields u = Some fields → t' ∈ fields.*2 → reaches t' → reaches t.

Lemma peel_step_decreases t t' : peel_step t = Some t' → pointee_rank t' < pointee_rank t.
Proof.
  unfold peel_step. destruct (pointee t) eqn:Hp.
  - intros [= ->]. by apply pointee_decreases.
  - apply element_decreases.
Qed.

Lemma peel_step_canonical t t' :
  getCanonicalType t = t → peel_step t = Some t' → getCanonicalType t' = t'.
Proof.
  unfold peel_step. intros Hc. destruct (pointee t) eqn:Hp.
  - intros [= ->]. by eapply canonical_pointee.
  - by apply canonical_element.
Qed.

Lemma peel_total fuel t :
  pointee_rank t ≤ fuel → getCanonicalType t = t →
  ∃ u, (∀ fuel', pointee_rank t ≤ fuel' → peel fuel' t = Done u) ∧ peel_step u = None ∧ getCanonicalType u = u.
Proof.
  revert t. induction fuel as [|fuel IH]; intros t Ht Hc; destruct (peel_step t) as [t'|] eqn:Hp.
  - apply peel_step_decreases in Hp. lia.
  - exists t. split; [|done]. intros fuel' _. destruct fuel'; simpl; by rewrite Hp.
  - pose proof (peel_step_decreases _ _ Hp) as Hlt.
    destruct (IH t') as (u & Hu & Hn & Hcu); [lia|by eapply peel_step_canonical|]. exists u. split; [|done].
    intros [|fuel'] Hf; [lia|]. simpl. rewrite Hp. apply Hu. lia.
  - exists t. split; [|done]. intros fuel' _. destruct fuel'; simpl; by rewrite Hp.
Qed.

Lemma base_type_total t :
  ∃ u, base_type t = Done u ∧ getCanonicalType u = u ∧ peel_step u = None.
Proof.
  unfold base_type. destruct (peel_total _ (getCanonicalType t) (Nat.le_refl _) (canonical_idemp t)) as (u & Hu & Hn & Hc).
  exists u. rewrite Hu by lia. cbn [mbind run_bind]. by rewrite Hc.
Qed.

Lemma base_type_step t t' :
  getCanonicalType t = t → peel_step t = Some t' → base_type t = base_type t'.
Proof.
  intros Hc Hp. unfold base_type. pose proof (peel_step_canonical _ _ Hc Hp) as Hc'. rewrite Hc, Hc'.
  pose proof (peel_step_decreases _ _ Hp) as Hlt.
  destruct (peel_total _ t' (Nat.le_refl _) Hc') as (u & Hu & _ & _). rewrite Hu by lia.
  destruct (pointee_rank t) as [|n] eqn:Hr; [lia|]. simpl. rewrite Hp. by rewrite Hu by lia.
Qed.

Lemma base_type_end t : getCanonicalType t = t → peel_step t = None → base_type t = Done t.
Proof.
  intros Hc Hp. unfold base_type. rewrite Hc. destruct (pointee_rank t); simpl; rewrite Hp; simpl; by rewrite Hc.
Qed.

Lemma base_type_canonical t : base_type (getCanonicalType t) = base_type t.
Proof. unfold base_type. by rewrite canonical_idemp. Qed.

Lemma reaches_base t t' : base_type t = base_type t' → reaches t → reaches t'.
Proof.
  intros Hb Hr. destruct Hr as [t u Hu Hf|t u fs t'' Hu Hfs Hin Hr].
  - eapply reaches_function; [by rewrite <- Hb|done].
  - eapply reaches_field; [by rewrite <- Hb|done..].
Qed.

Lemma reaches_step t t' : getCanonicalType t = t → peel_step t = Some t' → reaches t ↔ reaches t'.
Proof. intros Hc Hp. pose proof (base_type_step _ _ Hc Hp). split; by apply reaches_base. Qed.

Lemma reaches_canonical t : reaches (getCanonicalType t) ↔ reaches t.
Proof. pose proof (base_type_canonical t). split; by apply reaches_base. Qed.

(** ** The walk is exact *)

(** A spelling as a value. *)
Definition spelling (t : QualType) : str := match getTypeString t with Done s => s | _ => [] end.

Lemma spelling_eq t : getTypeString t = Done (spelling t).
Proof. unfold spelling. destruct (getTypeString_total t) as [s Hs]. by rewrite Hs. Qed.

Definition base (t : QualType) : QualType := match base_type t with Done u => u | _ => t end.

Lemma base_eq t : base_type t = Done (base t) ∧ getCanonicalType (base t) = base t.
Proof. unfold base. destruct (base_type_total t) as (u & Hu & Hc & _). by rewrite Hu. Qed.

(** The parts of [va_list] lead to no function. *)
Lemma va_list_step t t' : va_list_part t = true → peel_step t = Some t' → va_list_part t' = true.
Proof.
  unfold peel_step. intros Ht. destruct (pointee t) eqn:Hp.
  - intros [= ->]. by apply (va_list_pointee t).
  - by apply va_list_element.
Qed.

Lemma va_list_base t : va_list_part (getCanonicalType t) = true → va_list_part (base t) = true.
Proof.
  assert (∀ n u, pointee_rank u < n → getCanonicalType u = u → va_list_part u = true → va_list_part (base u) = true) as Hn.
  { induction n as [|n IH]; intros u Hlt Hc Hu; [lia|]. destruct (peel_step u) as [u'|] eqn:Hp.
    - assert (base u = base u') as -> by (unfold base; destruct (base_type_total u') as (w & Hw & _); by rewrite (base_type_step u u'), Hw).
      apply (IH u').
      + apply peel_step_decreases in Hp. lia.
      + by eapply peel_step_canonical.
      + by eapply va_list_step.
    - unfold base. by rewrite base_type_end. }
  intros Ht.
  assert (base t = base (getCanonicalType t)) as ->.
  { unfold base. destruct (base_type_total t) as (w & Hw & _). by rewrite base_type_canonical, Hw. }
  apply (Hn (S (pointee_rank (getCanonicalType t)))); [lia| |done].
  apply canonical_idemp.
Qed.

Lemma va_list_not_reaches t : va_list_part (base t) = true → ¬ reaches t.
Proof.
  intros Ht Hr. induction Hr as [t u Hu Hf|t u fs t' Hu Hfs Hin Hr IH];
    destruct (base_eq t) as [Hb _]; rewrite Hb in Hu; injection Hu as Hu; subst u.
  - apply va_list_function in Ht. congruence.
  - apply IH, va_list_base. by eapply va_list_field.
Qed.

Lemma same_spelling t u :
  getCanonicalType t = t → getCanonicalType u = u → spelling t = spelling u → va_list_part u = false → t = u.
Proof.
  intros Ht Hu Hs Hp. destruct (spelling_inj t u) as [|[_ ?]]; [done|done|by rewrite !spelling_eq, Hs|done|congruence].
Qed.

(** What has been visited, but for [va_list], is no function, and its fields have been
    visited or are on the stack. *)
Definition closed (visited : gset str) (stack : list QualType) : Prop :=
  ∀ u, getCanonicalType u = u → va_list_part u = false → spelling u ∈ visited →
    isFunctionType u = false ∧
    ∀ fields t', record_fields u = Some fields → t' ∈ fields.*2 → t' ∈ stack ∨ spelling (base t') ∈ visited.

Lemma closed_reaches visited stack t :
  closed visited stack → spelling (base t) ∈ visited → reaches t → ∃ t', t' ∈ stack ∧ reaches t'.
Proof.
  intros Hcl Hv Hr. induction Hr as [t u Hu Hf|t u fs t' Hu Hfs Hin Hr IH];
    destruct (va_list_part (base t)) eqn:Hp; try (by destruct (va_list_not_reaches t Hp); econstructor);
    destruct (base_eq t) as [Hb Hc]; rewrite Hb in Hu; injection Hu as Hu; subst u;
    destruct (Hcl _ Hc Hp Hv) as [Hnf Hfields].
  - congruence.
  - destruct (Hfields _ _ Hfs Hin) as [Hs|Hs]; [by exists t'|by apply IH].
Qed.

Lemma closed_weaken visited t stack :
  closed visited (t :: stack) → spelling (base t) ∈ visited → closed visited stack.
Proof.
  intros Hcl Ht u Hc Hp Hu. destruct (Hcl u Hc Hp Hu) as [Hnf Hfields]. split; [done|].
  intros fs t' Hfs Hin. destruct (Hfields fs t' Hfs Hin) as [Hs|]; [|by right].
  apply elem_of_cons in Hs as [->|]; [by right|by left].
Qed.

Lemma closed_visit visited t stack stack' :
  closed visited (t :: stack) → isFunctionType (base t) = false →
  (∀ x, x ∈ stack → x ∈ stack') →
  (∀ fields x, record_fields (base t) = Some fields → x ∈ fields.*2 → x ∈ stack') →
  closed ({[spelling (base t)]} ∪ visited) stack'.
Proof.
  intros Hcl Hf Hsub Hpush u Hc Hp Hu. destruct (base_eq t) as [_ Hcb].
  destruct (decide (spelling u = spelling (base t))) as [Heq|Hne].
  - assert (u = base t) as -> by (symmetry; by apply same_spelling).
    split; [done|]. intros fs x Hfs Hx. left. by eapply Hpush.
  - assert (spelling u ∈ visited) as Hv by set_solver. destruct (Hcl u Hc Hp Hv) as [Hnf Hfields].
    split; [done|]. intros fs x Hfs Hx. destruct (Hfields fs x Hfs Hx) as [Hs|Hs]; [|right; set_solver].
    apply elem_of_cons in Hs as [->|Hs]; [right; set_solver|left; by apply Hsub].
Qed.

(** The fuel that is left suffices for what has not been visited. *)
Lemma contains_fuel_visit n visited t fields :
  record_fields (base t) = Some fields → spelling (base t) ∉ visited →
  contains_fuel (length fields + n) ({[spelling (base t)]} ∪ visited) < contains_fuel (S n) visited.
Proof.
  intros Hfs Hs. destruct (fields_known _ _ Hfs) as [Hlen Hknown]. apply Forall_cons in Hknown as [(s & Heq & Hin) _].
  destruct (base_eq t) as [_ Hc]. rewrite Hc, spelling_eq in Heq. injection Heq as <-.
  unfold contains_fuel. set (K := list_to_set known_spellings).
  assert (size (K ∖ ({[spelling (base t)]} ∪ visited)) < size (K ∖ visited)) as Hlt.
  { apply subset_size. split; [set_solver|]. intros Hsub.
    assert (spelling (base t) ∈ K ∖ ({[spelling (base t)]} ∪ visited)) as Hx; [|set_solver].
    apply Hsub. unfold K. set_solver. }
  nia.
Qed.

Lemma contains_fuel_mono n visited s : contains_fuel n ({[s]} ∪ visited) ≤ contains_fuel n visited.
Proof.
  unfold contains_fuel. apply Nat.add_le_mono_l, Nat.mul_le_mono_l, subseteq_size. set_solver.
Qed.

Lemma contains_loop_spec fuel visited stack :
  contains_fuel (length stack) visited ≤ fuel → closed visited stack →
  ∃ b, contains_loop fuel visited stack = Done b ∧ (b = true ↔ ∃ t, t ∈ stack ∧ reaches t).
Proof.
  revert visited stack. induction fuel as [|fuel IH]; intros visited [|t stack] Hfuel Hcl.
  1, 3: exists false; split; [done|]; split; [done|]; intros (t & Ht & _); by apply not_elem_of_nil in Ht.
  { unfold contains_fuel in Hfuel. simpl in Hfuel. lia. }
  cbn [contains_loop]. destruct (base_eq t) as [Hb Hc]. rewrite Hb. cbn [mbind run_bind].
  rewrite spelling_eq. cbn [mbind run_bind]. case_bool_decide as Hs.
  - pose proof (closed_weaken _ _ _ Hcl Hs) as Hcl'.
    destruct (IH visited stack) as (b & Hloop & Hiff); [unfold contains_fuel in *; simpl in *; lia|done|].
    exists b. split; [done|]. rewrite Hiff. split.
    + intros (x & Hx & Hr). exists x. split; [by right|done].
    + intros (x & Hx & Hr). apply elem_of_cons in Hx as [->|Hx]; [|by exists x].
      by apply (closed_reaches visited stack t).
  - destruct (isFunctionType (base t)) eqn:Hf.
    { exists true. split; [done|]. split; [|done]. intros _. exists t. split; [by left|]. by eapply reaches_function. }
    set (pushed := match record_fields (base t) with Some fields => reverse fields.*2 ++ stack | None => stack end).
    destruct (IH ({[spelling (base t)]} ∪ visited) pushed) as (b & Hloop & Hiff).
    { unfold pushed. destruct (record_fields (base t)) as [fs|] eqn:Hfs.
      - pose proof (contains_fuel_visit (length stack) visited t fs Hfs Hs) as Hlt.
        rewrite length_app, length_reverse, length_fmap. simpl in Hfuel. lia.
      - pose proof (contains_fuel_mono (length stack) visited (spelling (base t))).
        unfold contains_fuel in *. simpl in *. lia. }
    { eapply closed_visit; [done..| |].
      - intros x Hx. unfold pushed. destruct (record_fields _); [|done]. apply elem_of_app. by right.
      - intros fs x Hfs Hx. unfold pushed. rewrite Hfs. apply elem_of_app. left. by apply elem_of_reverse. }
    exists b. split; [done|]. rewrite Hiff. unfold pushed. split.
    + intros (x & Hx & Hr). destruct (record_fields (base t)) as [fs|] eqn:Hfs; [|exists x; split; [by right|done]].
      apply elem_of_app in Hx as [Hx|Hx]; [|exists x; split; [by right|done]].
      exists t. split; [by left|]. apply (reaches_field t (base t) fs x); [done..| |done]. rewrite <- (reverse_involutive fs.*2). by apply elem_of_reverse.
    + intros (x & Hx & Hr). apply elem_of_cons in Hx as [->|Hx].
      * destruct Hr as [t u Hu Hfu|t u fs t' Hu Hfs Hin Hr]; rewrite Hb in Hu; injection Hu as Hu; subst u; [congruence|].
        rewrite Hfs. exists t'. split; [|done]. apply elem_of_app. left. by apply elem_of_reverse.
      * exists x. split; [|done]. destruct (record_fields _); [|done]. apply elem_of_app. by right.
Qed.

Lemma contains_spec T : ∃ b, containsFunctionPointer T = Done b ∧ (b = true ↔ reaches T).
Proof.
  destruct (contains_loop_spec (contains_fuel 1 ∅) ∅ [T]) as (b & Hb & Hiff).
  { done. }
  { intros u _ _ Hu. by apply not_elem_of_empty in Hu. }
  exists b. split; [done|]. rewrite Hiff. split.
  - intros (t & Ht & Hr). by apply list_elem_of_singleton in Ht as ->.
  - intros Hr. exists T. split; [by apply list_elem_of_singleton|done].
Qed.

(** ** The tree is exact *)

(** The record whose members an argument's are: the argument's own, or that behind one
    pointer. *)
Definition aggregate (T : QualType) : option (list (str * QualType)) :=
  record_fields (default T (pointee T)).

(** A member that is a callback, by the names on the way to it, and its function. *)
Inductive callback_path : QualType → list str → QualType → Prop :=
  | path_here T fields name t callee :
      aggregate T = Some fields → (name, t) ∈ fields → pointee (getCanonicalType t) = Some callee →
      isFunctionType callee = true → callback_path T [name] (getCanonicalType callee)
  | path_child T fields name t p callee :
      aggregate T = Some fields → (name, t) ∈ fields → isFunctionPointerType (getCanonicalType t) = false →
      callback_path (getCanonicalType t) p callee → callback_path T (name :: p) callee.

Fixpoint tree_paths (t : CallbackTree) : list (list str * QualType) :=
  let '(MkTree _ _ cbs chs _) := t in
  concat (List.map (λ '(name, child), (λ p, (name :: p.1, p.2)) <$> tree_paths child) chs) ++
  ((λ p, ([p.1], p.2)) <$> cbs).

Lemma tree_paths_elem t p c :
  (p, c) ∈ tree_paths t ↔
    (∃ name, p = [name] ∧ (name, c) ∈ callbacks t) ∨
    (∃ name child q, p = name :: q ∧ (name, child) ∈ children t ∧ (q, c) ∈ tree_paths child).
Proof.
  destruct t as [st r cbs chs outs]. cbn [tree_paths callbacks children].
  rewrite elem_of_app, (or_comm (_ ∈ concat _)). f_equiv.
  - rewrite list_elem_of_fmap. split.
    + intros ([name d] & [= -> ->] & Hin). by exists name.
    + intros (name & -> & Hin). by exists (name, c).
  - rewrite list_elem_of_In, in_concat. split.
    + intros (l & Hl & Hin). apply in_map_iff in Hl as ([name child] & <- & Hl).
      apply list_elem_of_In, list_elem_of_fmap in Hin as ([q d] & [= -> ->] & Hq).
      apply list_elem_of_In in Hl. by exists name, child, q.
    + intros (name & child & q & -> & Hin & Hq). exists ((λ p, (name :: p.1, p.2)) <$> tree_paths child).
      split.
      * apply in_map_iff. exists (name, child). split; [done|]. by apply list_elem_of_In.
      * apply list_elem_of_In, list_elem_of_fmap. by exists (q, c).
Qed.

Lemma aggregate_pointer T T' : pointee T = Some T' → aggregate T = record_fields T'.
Proof. intros Hp. unfold aggregate. by rewrite Hp. Qed.
Lemma aggregate_value T : pointee T = None → aggregate T = record_fields T.
Proof. intros Hp. unfold aggregate. by rewrite Hp. Qed.

(** A member of the record leads to a function only if the argument does. *)
Lemma aggregate_base T fields :
  getCanonicalType T = T → aggregate T = Some fields →
  base_type T = Done (default T (pointee T)).
Proof.
  intros Hc Hag. destruct (pointee T) as [p|] eqn:Hp; simpl.
  - rewrite (aggregate_pointer _ _ Hp) in Hag.
    assert (peel_step T = Some p) as Hstep by (unfold peel_step; by rewrite Hp).
    rewrite (base_type_step _ _ Hc Hstep). apply base_type_end; [by eapply peel_step_canonical|].
    unfold peel_step. destruct (pointee p) eqn:Hp'.
    { destruct (pointer_kind p) as (_ & Hr & _); [by eexists|]. congruence. }
    destruct (array_element p) eqn:Ha; [|done]. destruct (array_kind p) as [Hr _]; [by eexists|]. congruence.
  - rewrite (aggregate_value _ Hp) in Hag. apply base_type_end; [done|]. unfold peel_step. rewrite Hp.
    destruct (array_element T) eqn:Ha; [|done]. destruct (array_kind T) as [Hr _]; [by eexists|]. congruence.
Qed.

Lemma aggregate_reaches T fields t' :
  getCanonicalType T = T → aggregate T = Some fields → t' ∈ fields.*2 → reaches t' → reaches T.
Proof.
  intros Hc Hag Hin Hr. eapply reaches_field; [by eapply aggregate_base|exact Hag|done..].
Qed.

Lemma function_pointer_reaches t :
  getCanonicalType t = t → isFunctionPointerType t = true → reaches t.
Proof.
  intros Hc Hf. rewrite function_pointer in Hf. destruct (pointee t) as [p|] eqn:Hp; [|done].
  assert (peel_step t = Some p) as Hstep by (unfold peel_step; by rewrite Hp).
  apply (reaches_step _ _ Hc Hstep). eapply reaches_function; [|exact Hf]. apply base_type_end; [by eapply peel_step_canonical|].
  unfold peel_step. destruct (pointee p) eqn:Hp'.
  { destruct (pointer_kind p) as (_ & _ & Hn); [by eexists|]. congruence. }
  destruct (array_element p) eqn:Ha; [|done]. destruct (array_kind p) as [_ Hn]; [by eexists|]. congruence.
Qed.

Lemma callback_path_reaches T p c : getCanonicalType T = T → callback_path T p c → reaches T.
Proof.
  intros Hc Hp. revert Hc. induction Hp as [T fs name t callee Hag Hin Hpt Hf|T fs name t p callee Hag Hin _ _ IH]; intros Hc.
  - apply (aggregate_reaches T fs t); [done|exact Hag|by apply list_elem_of_fmap; exists (name, t)|].
    apply reaches_canonical, function_pointer_reaches; [apply canonical_idemp|].
    rewrite function_pointer, Hpt. done.
  - apply (aggregate_reaches T fs t); [done|exact Hag|by apply list_elem_of_fmap; exists (name, t)|].
    apply reaches_canonical, IH, canonical_idemp.
Qed.

(** What a tree says of its type. *)
Definition tree_exact (T : QualType) (tree : CallbackTree) : Prop :=
  match status tree with
  | Unsupported => reaches T
  | NoCallbacks => ¬ reaches T
  | HasCallbacks => tree_paths tree ≠ [] ∧ ∀ p c, (p, c) ∈ tree_paths tree ↔ callback_path T p c
  end.

(** The shapes that are not followed lead to a function. *)
Lemma through_pointer_spec T :
  getCanonicalType T = T →
  ∃ r, through_pointer T = Done r ∧
    match r with
    | None => reaches T
    | Some (b, T') => T' = default T (pointee T) ∧ b = (match pointee T with Some _ => true | None => false end) ∧ getCanonicalType T' = T' ∧
        (is_Some (pointee T') → ¬ reaches T) ∧ (reaches T ↔ reaches T')
    end.
Proof.
  intros Hc. unfold through_pointer. destruct (pointee T) as [p|] eqn:Hp; simpl.
  - assert (peel_step T = Some p) as Hstep by (unfold peel_step; by rewrite Hp).
    pose proof (peel_step_canonical _ _ Hc Hstep) as Hcp. pose proof (reaches_step _ _ Hc Hstep) as Hiff.
    destruct (pointee p) as [p'|] eqn:Hp'.
    + destruct (contains_spec p') as (b & Hb & Hreach). rewrite Hb. cbn [mbind run_bind].
      assert (peel_step p = Some p') as Hstep' by (unfold peel_step; by rewrite Hp').
      pose proof (reaches_step _ _ Hcp Hstep') as Hiff'. eexists. split; [done|]. destruct b.
      * apply Hiff, Hiff', Hreach. done.
      * split_and!; [done|done|done| |done].
        intros _ Hr. apply Hiff, Hiff', Hreach in Hr. done.
    + eexists. split; [done|]. split_and!; [done|done|done| |done].
      intros Hs. rewrite Hp' in Hs. by destruct Hs.
  - eexists. split; [done|]. split_and!; [done|done|done| |done].
    intros Hs. rewrite Hp in Hs. by destruct Hs.
Qed.

Lemma unsupported_shape_spec T :
  getCanonicalType T = T →
  ∃ b, unsupported_shape T = Done b ∧ (b = true → reaches T) ∧
    (b = false → isUnionType T = true ∨ is_Some (array_element T) → ¬ reaches T).
Proof.
  intros Hc. unfold unsupported_shape. destruct (array_element T) as [e|] eqn:He.
  - assert (peel_step T = Some e) as Hstep.
    { unfold peel_step. destruct (pointee T) eqn:Hp; [|done]. destruct (pointer_kind T) as [Ha _]; [by eexists|]. congruence. }
    destruct (contains_spec e) as (b & Hb & Hreach). rewrite Hb. cbn [mbind run_bind].
    pose proof (reaches_step _ _ Hc Hstep) as Hiff. destruct b.
    + eexists. split; [done|]. split; [|done]. intros _. apply Hiff, Hreach. done.
    + assert (¬ reaches T) as Hn by (intros Hr; apply Hiff, Hreach in Hr; done).
      destruct (isUnionType T) eqn:Hu.
      * apply union_kind in Hu as [fs Hfs]. destruct (array_kind T) as [Hr _]; [by eexists|]. congruence.
      * eexists. split; [done|]. by split.
  - cbn [mbind run_bind]. destruct (isUnionType T) eqn:Hu.
    + destruct (contains_spec T) as (b & Hb & Hreach). exists b. split; [done|]. rewrite Hreach. split; [done|].
      intros Hf _ Hr. apply Hreach in Hr. congruence.
    + eexists. split; [done|]. split; [done|]. intros _ [?|Hs]; [done|]. by destruct Hs.
Qed.

Lemma not_record_not_reaches T :
  getCanonicalType T = T → pointee T = None → array_element T = None → isFunctionType T = false →
  record_fields T = None → ¬ reaches T.
Proof.
  intros Hc Hp Ha Hf Hr Hreach.
  assert (base_type T = Done T) as Hb by (apply base_type_end; [done|]; unfold peel_step; by rewrite Hp).
  destruct Hreach as [t u Hu Hfu|t u fs t' Hu Hfs _ _]; rewrite Hb in Hu; injection Hu as <-; congruence.
Qed.

(** What is left of the fields: the paths of the maps and of the fields still to come. *)
Definition fields_path (fields : list (str * QualType)) (p : list str) (c : QualType) : Prop :=
  (∃ name t callee, p = [name] ∧ (name, t) ∈ fields ∧ pointee (getCanonicalType t) = Some callee ∧
     isFunctionType callee = true ∧ c = getCanonicalType callee) ∨
  (∃ name t q, p = name :: q ∧ (name, t) ∈ fields ∧ isFunctionPointerType (getCanonicalType t) = false ∧
     callback_path (getCanonicalType t) q c).

Lemma fields_path_aggregate T fields p c :
  aggregate T = Some fields → callback_path T p c ↔ fields_path fields p c.
Proof.
  intros Hag. split.
  - intros Hp. destruct Hp as [T fs name t callee Hag' Hin Hpt Hf|T fs name t p callee Hag' Hin Hf Hp];
      assert (fs = fields) as -> by congruence.
    + left. by exists name, t, callee.
    + right. by exists name, t, p.
  - intros [(name & t & callee & -> & Hin & Hpt & Hf & ->)|(name & t & q & -> & Hin & Hf & Hp)].
    + by eapply path_here.
    + by eapply path_child.
Qed.

Lemma fields_path_app l1 l2 p c :
  fields_path (l1 ++ l2) p c ↔ fields_path l1 p c ∨ fields_path l2 p c.
Proof.
  assert (∀ x, x ∈ l1 ++ l2 ↔ x ∈ l1 ∨ x ∈ l2) as Hin by (intros x; apply elem_of_app).
  unfold fields_path. split.
  - intros [(n & u & ce & -> & [Hx|Hx]%Hin & Hrest)|(n & u & q & -> & [Hx|Hx]%Hin & Hrest)].
    + left. left. by exists n, u, ce.
    + right. left. by exists n, u, ce.
    + left. right. by exists n, u, q.
    + right. right. by exists n, u, q.
  - intros [[(n & u & ce & -> & Hx & Hrest)|(n & u & q & -> & Hx & Hrest)]|[(n & u & ce & -> & Hx & Hrest)|(n & u & q & -> & Hx & Hrest)]].
    + left. exists n, u, ce. split; [done|]. split; [apply Hin; by left|done].
    + right. exists n, u, q. split; [done|]. split; [apply Hin; by left|done].
    + left. exists n, u, ce. split; [done|]. split; [apply Hin; by right|done].
    + right. exists n, u, q. split; [done|]. split; [apply Hin; by right|done].
Qed.

(** The loop over the fields: what the maps hold of those it has passed. *)
Definition map_path (cbs : gmap str QualType) (chs : gmap str CallbackTree) (p : list str) (c : QualType) : Prop :=
  (∃ name, p = [name] ∧ cbs !! name = Some c) ∨
  (∃ name child q, p = name :: q ∧ chs !! name = Some child ∧ (q, c) ∈ tree_paths child).

Record fields_inv (passed : list (str * QualType)) (cbs : gmap str QualType) (chs : gmap str CallbackTree) : Prop := {
  inv_paths p c : map_path cbs chs p c ↔ fields_path passed p c;
  inv_names name : is_Some (cbs !! name) ∨ is_Some (chs !! name) → name ∈ passed.*1;
  inv_children name child : chs !! name = Some child → tree_paths child ≠ [];
  inv_nothing : cbs = ∅ → chs = ∅ → ∀ t, t ∈ passed.*2 → ¬ reaches t
}.

Lemma emplace_fresh {A} name (x : A) m : m !! name = None → emplace name x m = <[name := x]> m.
Proof. intros Hm. unfold emplace. by rewrite Hm. Qed.

Lemma inv_start : fields_inv [] ∅ ∅.
Proof.
  split.
  - intros p c. split.
    + intros [(name & _ & Hn)|(name & child & q & _ & Hn & _)]; by rewrite lookup_empty in Hn.
    + intros [(n & t & ce & _ & Hin & _)|(n & t & q & _ & Hin & _)]; by apply not_elem_of_nil in Hin.
  - intros name [[? Hn]|[? Hn]]; by rewrite lookup_empty in Hn.
  - intros name child Hn. by rewrite lookup_empty in Hn.
  - intros _ _ t Ht. by apply not_elem_of_nil in Ht.
Qed.

Lemma inv_fresh passed cbs chs name :
  fields_inv passed cbs chs → name ∉ passed.*1 → cbs !! name = None ∧ chs !! name = None.
Proof.
  intros Hinv Hn. split; apply eq_None_not_Some; intros Hs; apply Hn; eapply inv_names; eauto.
Qed.

Lemma passed_snoc (passed : list (str * QualType)) name t :
  (passed ++ [(name, t)]).*1 = passed.*1 ++ [name] ∧ (passed ++ [(name, t)]).*2 = passed.*2 ++ [t].
Proof. by rewrite !fmap_app. Qed.

Lemma inv_skip passed cbs chs name t :
  fields_inv passed cbs chs → isFunctionPointerType (getCanonicalType t) = false →
  ¬ reaches (getCanonicalType t) → fields_inv (passed ++ [(name, t)]) cbs chs.
Proof.
  intros [Hp Hn Hch Hno] Hf Hr. destruct (passed_snoc passed name t) as [E1 E2]. split.
  - intros p c. rewrite fields_path_app, <- Hp. split; [by left|]. intros [|Hone]; [done|exfalso].
    destruct Hone as [(n & u & ce & _ & Hin & Hpt & Hfu & _)|(n & u & q & _ & Hin & _ & Hq)];
      apply list_elem_of_singleton in Hin as [= -> ->].
    + rewrite function_pointer, Hpt in Hf. congruence.
    + apply Hr. eapply callback_path_reaches; [apply canonical_idemp|done].
  - intros n Hs. rewrite E1. apply elem_of_app. left. by apply Hn.
  - done.
  - intros H1 H2 u. rewrite E2. intros [Hu|Hu]%elem_of_app; [by apply Hno|].
    apply list_elem_of_singleton in Hu as ->. by rewrite <- reaches_canonical.
Qed.

Lemma inv_callback passed cbs chs name t callee :
  fields_inv passed cbs chs → name ∉ passed.*1 → pointee (getCanonicalType t) = Some callee →
  isFunctionType callee = true →
  fields_inv (passed ++ [(name, t)]) (emplace name (getCanonicalType callee) cbs) chs.
Proof.
  intros Hinv Hfresh Hpt Hf. destruct (inv_fresh _ _ _ _ Hinv Hfresh) as [Hcb _]. rewrite emplace_fresh by done.
  destruct Hinv as [Hp Hn Hch Hno]. destruct (passed_snoc passed name t) as [E1 E2]. split.
  - intros p c. rewrite fields_path_app, <- Hp. split.
    + intros [(n & -> & Hl)|Hr]; [|left; by right]. destruct (decide (n = name)) as [->|Hne].
      * rewrite lookup_insert_eq in Hl. injection Hl as <-. right. left.
        exists name, t, callee. by rewrite list_elem_of_singleton.
      * rewrite lookup_insert_ne in Hl by done. left. left. by exists n.
    + intros [[(n & -> & Hl)|Hr]|Hone].
      * left. exists n. split; [done|]. rewrite lookup_insert_ne; [done|]. intros <-. congruence.
      * by right.
      * left. destruct Hone as [(n & u & ce & -> & Hin & Hpt' & _ & ->)|(n & u & q & _ & Hin & Hff & _)];
          apply list_elem_of_singleton in Hin as [= -> ->].
        -- exists name. split; [done|]. rewrite lookup_insert_eq. congruence.
        -- rewrite function_pointer, Hpt in Hff. congruence.
  - intros n Hs. rewrite E1, elem_of_app. destruct (decide (n = name)) as [->|Hne]; [right; by left|].
    rewrite lookup_insert_ne in Hs by done. left. by apply Hn.
  - done.
  - intros He. by apply insert_non_empty in He.
Qed.

Lemma inv_child passed cbs chs name t child :
  fields_inv passed cbs chs → name ∉ passed.*1 → isFunctionPointerType (getCanonicalType t) = false →
  tree_paths child ≠ [] → (∀ p c, (p, c) ∈ tree_paths child ↔ callback_path (getCanonicalType t) p c) →
  fields_inv (passed ++ [(name, t)]) cbs (emplace name child chs).
Proof.
  intros Hinv Hfresh Hf Hne Hex. destruct (inv_fresh _ _ _ _ Hinv Hfresh) as [_ Hcm]. rewrite emplace_fresh by done.
  destruct Hinv as [Hp Hn Hch Hno]. destruct (passed_snoc passed name t) as [E1 E2]. split.
  - intros p c. rewrite fields_path_app, <- Hp. split.
    + intros [Hl|(n & ch & q & -> & Hl & Hq)]; [left; by left|]. destruct (decide (n = name)) as [->|Hnn].
      * rewrite lookup_insert_eq in Hl. injection Hl as <-. right. right.
        exists name, t, q. rewrite list_elem_of_singleton. by rewrite <- Hex.
      * rewrite lookup_insert_ne in Hl by done. left. right. by exists n, ch, q.
    + intros [[Hl|(n & ch & q & -> & Hl & Hq)]|Hone].
      * by left.
      * right. exists n, ch, q. rewrite lookup_insert_ne; [done|]. intros <-. congruence.
      * right. destruct Hone as [(n & u & ce & _ & Hin & Hpt' & Hfu & _)|(n & u & q & -> & Hin & _ & Hq)];
          apply list_elem_of_singleton in Hin as [= -> ->].
        -- rewrite function_pointer, Hpt' in Hf. congruence.
        -- exists name, child, q. rewrite lookup_insert_eq. by rewrite Hex.
  - intros n Hs. rewrite E1, elem_of_app. destruct (decide (n = name)) as [->|Hnn]; [right; by left|].
    rewrite lookup_insert_ne in Hs by done. left. by apply Hn.
  - intros n ch Hl. destruct (decide (n = name)) as [->|Hnn].
    + rewrite lookup_insert_eq in Hl. by injection Hl as <-.
    + rewrite lookup_insert_ne in Hl by done. by eapply Hch.
  - intros _ He. by apply insert_non_empty in He.
Qed.

(** Types of arguments and of members that are walked. *)
Definition plain (T : QualType) : Prop :=
  getCanonicalType T = T ∧ isFunctionPointerType T = false ∧ isFunctionType T = false.

Definition known : gset str := list_to_set known_spellings.

Lemma map_path_tree st r cbs chs outs p c :
  (p, c) ∈ tree_paths (MkTree st r (entries cbs) (entries chs) outs) ↔ map_path cbs chs p c.
Proof.
  rewrite tree_paths_elem. cbn [callbacks children]. unfold map_path. f_equiv.
  - split; intros (name & -> & Hin); exists name; (split; [done|]); by apply entries_elem.
  - split; intros (name & ch & q & -> & Hin & Hq); exists name, ch, q; (split; [done|]); (split; [|done]); by apply entries_elem.
Qed.

(** The forms of [va_list] share their trees, which are empty. *)
Lemma va_list_exact T T' tree :
  getCanonicalType T = T → getCanonicalType T' = T' → va_list_part T = true → va_list_part T' = true →
  tree_exact T tree → tree_exact T' tree.
Proof.
  intros Hc Hc' Hp Hp'. unfold tree_exact.
  assert (¬ reaches T) as Hn by (apply va_list_not_reaches, va_list_base; by rewrite Hc).
  assert (¬ reaches T') as Hn' by (apply va_list_not_reaches, va_list_base; by rewrite Hc').
  destruct (status tree); [|done|done]. intros [Hne Hex]. destruct (tree_paths tree) as [|[p c] l]; [done|].
  destruct Hn. eapply callback_path_reaches; [done|]. apply Hex. by left.
Qed.

(** ** Whatever the names of the members

    Two members may have the same name, the empty one, when they are anonymous; the map then
    keeps the first.  A tree is still built, and its callbacks are still the type's. *)
Definition tree_sound (T : QualType) (tree : CallbackTree) : Prop :=
  ∀ p c, (p, c) ∈ tree_paths tree → callback_path T p c.

Lemma emplace_entry {A} name (x : A) m k y : emplace name x m !! k = Some y → m !! k = Some y ∨ k = name ∧ y = x.
Proof.
  clear. unfold emplace. destruct (m !! name); [by left|]. intros [[-> ->]|[_ ?]]%lookup_insert_Some; [by right|by left].
Qed.

(** The maps hold callbacks of the fields [all]. *)
Definition maps_sound (all : list (str * QualType)) (cbs : gmap str QualType) (chs : gmap str CallbackTree) : Prop :=
  ∀ p c, map_path cbs chs p c → fields_path all p c.

Lemma sound_callback all cbs chs name t callee :
  maps_sound all cbs chs → (name, t) ∈ all → pointee (getCanonicalType t) = Some callee → isFunctionType callee = true →
  maps_sound all (emplace name (getCanonicalType callee) cbs) chs.
Proof.
  intros Hs Hin Hp Hf p c [(n & -> & [Hn|(-> & ->)]%emplace_entry)|Hr]; [apply Hs; left; by exists n| |apply Hs; by right].
  left. by exists name, t, callee.
Qed.

Lemma sound_child all cbs chs name t child :
  maps_sound all cbs chs → (name, t) ∈ all → isFunctionPointerType (getCanonicalType t) = false →
  tree_sound (getCanonicalType t) child → maps_sound all cbs (emplace name child chs).
Proof.
  intros Hs Hin Hf Hch p c [Hl|(n & ch & q & -> & [Hn|(-> & ->)]%emplace_entry & Hq)]; [apply Hs; by left| |].
  - apply Hs. right. by exists n, ch, q.
  - right. exists name, t, q. split; [done|]. split; [done|]. split; [done|]. by apply Hch.
Qed.

Lemma build_fields_sound rec visited all fields cbs chs :
  (∀ s T, s ∈ known → s ∉ visited → plain T → ∃ tree, rec ({[s]} ∪ visited) T = Done tree ∧ tree_sound T tree) →
  maps_sound all cbs chs → (∀ x, x ∈ fields → x ∈ all) →
  Forall (λ t, isFunctionType (getCanonicalType t) = false ∧
               ∃ s, getTypeString (getCanonicalType t) = Done s ∧ s ∈ known_spellings) fields.*2 →
  ∃ r, build_fields rec visited fields cbs chs = Done r ∧
    match r with None => True | Some (cbs', chs') => maps_sound all cbs' chs' end.
Proof.
  intros Hrec. revert cbs chs. induction fields as [|[name t] fields IH]; intros cbs chs Hs Hsub Hall.
  { by exists (Some (cbs, chs)). }
  apply Forall_cons in Hall as [(Hnf & s & Hspell & Hknown) Hall]. cbn [snd] in Hnf, Hspell.
  assert ((name, t) ∈ all) as Hin by (apply Hsub; by left).
  assert (∀ x, x ∈ fields → x ∈ all) as Hsub' by (intros x Hx; apply Hsub; by right).
  cbn [build_fields]. destruct (isFunctionPointerType (getCanonicalType t)) eqn:Hf.
  - pose proof Hf as Hp. rewrite function_pointer in Hp.
    destruct (pointee (getCanonicalType t)) as [callee|] eqn:Hpt; [|done]. cbn [defined mbind run_bind].
    apply IH; [by eapply sound_callback|done|done].
  - rewrite Hspell. cbn [mbind run_bind]. case_bool_decide as Hv.
    + destruct (contains_spec (getCanonicalType t)) as (b & Hb & _). rewrite Hb. cbn [mbind run_bind].
      destruct b; [by exists None|by apply IH].
    + destruct (Hrec s (getCanonicalType t)) as (tree & Htree & Hex);
        [unfold known; set_solver|done|split; [apply canonical_idemp|done]|].
      rewrite Htree. cbn [mbind run_bind]. destruct (status tree); [|by apply IH|by exists None].
      apply IH; [by eapply sound_child|done|done].
Qed.

Lemma no_paths_sound T tree : tree_paths tree = [] → tree_sound T tree.
Proof. intros Hn p c. rewrite Hn. by intros ?%not_elem_of_nil. Qed.

Lemma build_sound fuel visited T :
  size (known ∖ visited) < fuel → plain T → ∃ tree, build fuel visited T = Done tree ∧ tree_sound T tree.
Proof.
  revert visited T. induction fuel as [|fuel IH]; intros visited T Hfuel (Hc & _ & _); [lia|]. cbn [build].
  destruct (through_pointer_spec T Hc) as (r & Hr & Hspec). rewrite Hr. cbn [mbind run_bind].
  destruct r as [[b T']|]; [|eexists; split; [done|by apply no_paths_sound]]. destruct Hspec as (HT' & _ & Hc' & _).
  destruct (unsupported_shape_spec T' Hc') as (bad & Hbad & _). rewrite Hbad. cbn [mbind run_bind].
  destruct bad; [eexists; split; [done|by apply no_paths_sound]|].
  destruct (record_fields T') as [fields|] eqn:Hfs; [|eexists; split; [done|by apply no_paths_sound]].
  destruct (fields_known _ _ Hfs) as [_ Hknown]. apply Forall_cons in Hknown as [_ Hknown].
  destruct (build_fields_sound (build fuel) visited fields fields ∅ ∅) as (res & Hres & Hsound).
  - intros s T1 Hs Hv Hp. apply IH; [|done].
    assert (size (known ∖ ({[s]} ∪ visited)) < size (known ∖ visited)) as Hlt; [|lia].
    apply subset_size. split; [set_solver|]. intros Hsub.
    assert (s ∈ known ∖ ({[s]} ∪ visited)) as Hx; [|set_solver]. apply Hsub. set_solver.
  - intros p c Hm. apply (inv_paths _ _ _ inv_start) in Hm as [(n & t & ce & _ & Hin & _)|(n & t & q & _ & Hin & _)];
      by apply not_elem_of_nil in Hin.
  - done.
  - apply Forall_forall. intros t Ht. split; [by eapply field_kind|]. by eapply Forall_forall in Hknown.
  - rewrite Hres. cbn [mbind run_bind]. eexists. split; [done|].
    destruct res as [[cbs chs]|]; [|by apply no_paths_sound].
    destruct (bool_decide (cbs = ∅) && bool_decide (chs = ∅)); [by apply no_paths_sound|].
    intros p c Hp. apply map_path_tree in Hp. eapply fields_path_aggregate; [|by apply Hsound]. unfold aggregate. by rewrite <- HT'.
Qed.

(** The trees of the cache are of the types it names. *)
Definition cache_sound (cache : gmap str CallbackTree) : Prop :=
  ∀ T tree, plain T → cache !! spelling T = Some tree → tree_sound T tree.

Lemma cached_tree_sound cache T :
  cache_sound cache → plain T →
  ∃ cache' tree, cached_tree cache T = Done (cache', tree) ∧ cache_sound cache' ∧ tree_sound T tree.
Proof.
  intros Hwf HT. unfold cached_tree. rewrite spelling_eq. cbn [mbind run_bind].
  destruct (cache !! spelling T) as [tree'|] eqn:Hc.
  { exists cache, tree'. split; [done|]. split; [done|]. by apply Hwf. }
  destruct (build_sound (S (size known)) ∅ T) as (tree & Htree & Hex); [|done|].
  { assert (size (known ∖ ∅) ≤ size known); [|lia]. apply subseteq_size. set_solver. }
  change (build (S (size known)) ∅ T) with (build_tree T) in Htree. rewrite Htree. cbn [mbind run_bind].
  eexists _, tree. split; [done|]. split; [|done]. intros T' tree' HT' Hl.
  destruct (decide (spelling T' = spelling T)) as [He|Hne]; [|rewrite lookup_insert_ne in Hl by done; by apply Hwf].
  rewrite He, lookup_insert_eq in Hl. injection Hl as <-. destruct (va_list_part T) eqn:Hp.
  - intros p c Hpc. apply Hex, callback_path_reaches in Hpc; [|apply HT].
    destruct (va_list_not_reaches T); [|done]. apply va_list_base. by rewrite (proj1 HT).
  - by rewrite (same_spelling T' T (proj1 HT') (proj1 HT) He Hp).
Qed.

Lemma argument_loop_sound cache args all cbs chs outs :
  cache_sound cache → maps_sound all cbs chs → (∀ x, x ∈ args → x ∈ all) →
  (∀ n c, outs !! n = Some c → ∃ t, (n, t) ∈ all ∧ out_callee (getCanonicalType t) = Some c) →
  Forall (λ t, isFunctionType (getCanonicalType t) = false) args.*2 →
  ∃ cache' r, argument_loop cache ((λ a, (Some a.2, a.1)) <$> args) cbs chs outs = Done (cache', r) ∧
    match r with
    | None => True
    | Some (cbs', chs', outs') => maps_sound all cbs' chs' ∧
        ∀ n c, outs' !! n = Some c → ∃ t, (n, t) ∈ all ∧ out_callee (getCanonicalType t) = Some c
    end.
Proof.
  revert cache cbs chs outs. induction args as [|[name t] args IH]; intros cache cbs chs outs Hwf Hs Hsub Houts Hall.
  { by exists cache, (Some (cbs, chs, outs)). }
  apply Forall_cons in Hall as [Hnf Hall]. cbn [snd] in Hnf.
  assert ((name, t) ∈ all) as Hin by (apply Hsub; by left).
  assert (∀ x, x ∈ args → x ∈ all) as Hsub' by (intros x Hx; apply Hsub; by right).
  rewrite fmap_cons. cbn [argument_loop fst snd defined mbind run_bind].
  destruct (isFunctionPointerType (getCanonicalType t)) eqn:Hf.
  - pose proof Hf as Hp. rewrite function_pointer in Hp.
    destruct (pointee (getCanonicalType t)) as [callee|] eqn:Hpt; [|done]. cbn [defined mbind run_bind].
    apply IH; [done|by eapply sound_callback|done..].
  - destruct (out_callee (getCanonicalType t)) as [callee|] eqn:Ho.
    { apply IH; [done|done|done| |done]. intros n c [Hn|(-> & ->)]%emplace_entry; [by apply Houts|by exists t]. }
    destruct (cached_tree_sound cache (getCanonicalType t) Hwf) as (cache' & tree & Hct & Hwf' & Hex).
    { split; [apply canonical_idemp|done]. }
    rewrite Hct. cbn [mbind run_bind]. destruct (status tree); [|by apply IH|by exists cache', None].
    apply IH; [done|by eapply sound_child|done..].
Qed.

(** The callbacks of the arguments' tree are the arguments', whatever the names. *)
Lemma argument_tree_sound cache info args :
  cache_sound cache → arguments info = (λ a, (Some a.2, a.1)) <$> args →
  Forall (λ t, isFunctionType (getCanonicalType t) = false) args.*2 →
  ∃ cache' tree, buildArgumentTree cache info = Done (cache', tree) ∧
    (∀ p c, (p, c) ∈ tree_paths tree → fields_path args p c) ∧
    ∀ name c, (name, c) ∈ outCallbacks tree → ∃ t, (name, t) ∈ args ∧ out_callee (getCanonicalType t) = Some c.
Proof.
  intros Hwf Hargs Hall. unfold buildArgumentTree. rewrite Hargs.
  destruct (argument_loop_sound cache args args ∅ ∅ ∅ Hwf) as (cache' & r & Hr & Hspec); [|done|..|done|].
  { intros p c Hm. apply (inv_paths _ _ _ inv_start) in Hm as [(n & t & ce & _ & Hin & _)|(n & t & q & _ & Hin & _)];
      by apply not_elem_of_nil in Hin. }
  { intros n c. by rewrite lookup_empty. }
  rewrite Hr. cbn [mbind run_bind]. eexists _, _. split; [done|].
  destruct r as [[[cbs chs] outs]|]; [|split; intros ??; by intros ?%not_elem_of_nil]. destruct Hspec as [Hs Houts].
  destruct (bool_decide (cbs = ∅) && bool_decide (chs = ∅) && bool_decide (outs = ∅));
    [split; intros ??; by intros ?%not_elem_of_nil|].
  split; [intros p c Hp; apply map_path_tree in Hp; by apply Hs|]. intros name c. cbn [outCallbacks]. rewrite entries_elem. apply Houts.
Qed.

Section named.
(** Members have names of their own (there are no unnamed ones). *)
Hypothesis Hnames : ∀ t fields, record_fields t = Some fields → NoDup fields.*1.

Lemma build_fields_spec rec visited fields passed cbs chs :
  (∀ s T, s ∈ known → s ∉ visited → plain T → ∃ tree, rec ({[s]} ∪ visited) T = Done tree ∧ tree_exact T tree) →
  fields_inv passed cbs chs → NoDup (passed ++ fields).*1 →
  Forall (λ t, isFunctionType (getCanonicalType t) = false ∧
               ∃ s, getTypeString (getCanonicalType t) = Done s ∧ s ∈ known_spellings) fields.*2 →
  ∃ r, build_fields rec visited fields cbs chs = Done r ∧
    match r with
    | None => ∃ t, t ∈ fields.*2 ∧ reaches t
    | Some (cbs', chs') => fields_inv (passed ++ fields) cbs' chs'
    end.
Proof using.
  clear Hnames. intros Hrec. revert passed cbs chs. induction fields as [|[name t] fields IH]; intros passed cbs chs Hinv Hnd Hall.
  { exists (Some (cbs, chs)). split; [done|]. by rewrite app_nil_r. }
  apply Forall_cons in Hall as [(Hnf & s & Hs & Hknown) Hall]. cbn [snd] in Hnf, Hs.
  rewrite (app_assoc passed [(name, t)] fields : passed ++ (name, t) :: fields = _) in *.
  assert (name ∉ passed.*1) as Hfresh.
  { rewrite !fmap_app in Hnd. apply NoDup_app in Hnd as (Hnd & _ & _). apply NoDup_app in Hnd as (_ & Hd & _).
    intros Hin. apply (Hd _ Hin). by left. }
  assert (∀ P : QualType → Prop, (∃ u, u ∈ fields.*2 ∧ P u) → ∃ u, u ∈ ((name, t) :: fields).*2 ∧ P u) as Hlater.
  { intros P (u & Hu & HP). exists u. split; [by right|done]. }
  assert (∀ r, match r with
    | None => ∃ t, t ∈ fields.*2 ∧ reaches t
    | Some (cbs', chs') => fields_inv ((passed ++ [(name, t)]) ++ fields) cbs' chs'
    end → match r with
    | None => ∃ u, u ∈ ((name, t) :: fields).*2 ∧ reaches u
    | Some (cbs', chs') => fields_inv ((passed ++ [(name, t)]) ++ fields) cbs' chs'
    end) as Hmore by (intros [[? ?]|]; [done|apply Hlater]).
  cbn [build_fields]. destruct (isFunctionPointerType (getCanonicalType t)) eqn:Hf.
  - pose proof Hf as Hp. rewrite function_pointer in Hp.
    destruct (pointee (getCanonicalType t)) as [callee|] eqn:Hpt; [|done]. cbn [defined mbind run_bind].
    destruct (IH _ _ _ (inv_callback _ _ _ _ _ _ Hinv Hfresh Hpt Hp) Hnd Hall) as (r & Hr & Hspec).
    exists r. split; [done|]. by apply Hmore.
  - rewrite Hs. cbn [mbind run_bind].
    assert (plain (getCanonicalType t)) as Hplain by (split; [apply canonical_idemp|done]).
    assert (reaches (getCanonicalType t) → ∃ u, u ∈ ((name, t) :: fields).*2 ∧ reaches u) as Hhere.
    { intros Hr. exists t. split; [by left|]. by apply reaches_canonical. }
    case_bool_decide as Hv.
    + destruct (contains_spec (getCanonicalType t)) as (b & Hb & Hiff). rewrite Hb. cbn [mbind run_bind].
      destruct b; [exists None; split; [done|]; by apply Hhere, Hiff|].
      assert (¬ reaches (getCanonicalType t)) as Hno by (intros Hr; apply Hiff in Hr; done).
      destruct (IH _ _ _ (inv_skip _ _ _ _ _ Hinv Hf Hno) Hnd Hall) as (r & Hr & Hspec).
      exists r. split; [done|]. by apply Hmore.
    + destruct (Hrec s (getCanonicalType t)) as (tree & Htree & Hex); [unfold known; set_solver|done|done|].
      rewrite Htree. cbn [mbind run_bind]. unfold tree_exact in Hex. destruct (status tree).
      * destruct Hex as [Hne Hex].
        destruct (IH _ _ _ (inv_child _ _ _ _ _ _ Hinv Hfresh Hf Hne Hex) Hnd Hall) as (r & Hr & Hspec).
        exists r. split; [done|]. by apply Hmore.
      * destruct (IH _ _ _ (inv_skip _ _ _ _ _ Hinv Hf Hex) Hnd Hall) as (r & Hr & Hspec).
        exists r. split; [done|]. by apply Hmore.
      * exists None. split; [done|]. by apply Hhere.
Qed.

Lemma build_spec fuel visited T :
  size (known ∖ visited) < fuel → plain T → ∃ tree, build fuel visited T = Done tree ∧ tree_exact T tree.
Proof using Hnames.
  revert visited T. induction fuel as [|fuel IH]; intros visited T Hfuel (Hc & Hnfp & Hnf); [lia|]. cbn [build].
  destruct (through_pointer_spec T Hc) as (r & Hr & Hspec). rewrite Hr. cbn [mbind run_bind].
  destruct r as [[b T']|]; [|by exists unsupported]. destruct Hspec as (HT' & _ & Hc' & Hpp & Hiff).
  destruct (unsupported_shape_spec T' Hc') as (bad & Hbad & Htrue & Hfalse). rewrite Hbad. cbn [mbind run_bind].
  destruct bad; [exists unsupported; split; [done|]; by apply Hiff, Htrue|]. clear Htrue. specialize (Hfalse eq_refl).
  assert (aggregate T = record_fields T') as Hag by (unfold aggregate; by rewrite <- HT').
  destruct (record_fields T') as [fields|] eqn:Hfs.
  - destruct (fields_known _ _ Hfs) as [_ Hknown]. apply Forall_cons in Hknown as [_ Hknown].
    destruct (build_fields_spec (build fuel) visited fields [] ∅ ∅) as (res & Hres & Hspec).
    + intros s T1 Hs Hv Hp. apply IH; [|done].
      assert (size (known ∖ ({[s]} ∪ visited)) < size (known ∖ visited)) as Hlt; [|lia].
      apply subset_size. split; [set_solver|]. intros Hsub.
      assert (s ∈ known ∖ ({[s]} ∪ visited)) as Hx; [|set_solver]. apply Hsub. set_solver.
    + apply inv_start.
    + by eapply Hnames.
    + apply Forall_forall. intros t Ht. split; [by eapply field_kind|]. by eapply Forall_forall in Hknown.
    + rewrite Hres. cbn [mbind run_bind]. destruct res as [[cbs chs]|].
      * cbn [app] in Hspec. destruct (bool_decide (cbs = ∅) && bool_decide (chs = ∅)) eqn:Hempty.
        -- exists noCallbacks. split; [done|]. apply andb_prop in Hempty as [H1%bool_decide_eq_true H2%bool_decide_eq_true].
           intros Hre. apply Hiff in Hre.
           assert (base_type T' = Done T') as Hb.
           { apply base_type_end; [done|]. unfold peel_step. destruct (pointee T') eqn:Hp.
             { destruct (pointer_kind T') as (_ & Hn & _); [by eexists|]. congruence. }
             destruct (array_element T') eqn:Ha; [|done]. destruct (array_kind T') as [Hn _]; [by eexists|]. congruence. }
           destruct Hre as [t u Hu Hf|t u fs t' Hu Hfs' Hin Hre]; rewrite Hb in Hu; injection Hu as <-.
           { apply function_kind in Hf. congruence. }
           assert (fs = fields) as -> by congruence. by apply (inv_nothing _ _ _ Hspec H1 H2 t').
        -- eexists. split; [done|]. unfold tree_exact. cbn [status]. split.
           ++ intros Hnil.
              assert (∀ p c, ¬ map_path cbs chs p c) as Hnone.
              { intros p c Hp. rewrite <- (map_path_tree HasCallbacks (if b then ByPointer else ByValue) cbs chs []) in Hp.
                rewrite Hnil in Hp. by apply not_elem_of_nil in Hp. }
              apply andb_false_iff in Hempty as [Hx|Hx]; apply bool_decide_eq_false in Hx;
                apply map_choose in Hx as (name & y & Hy).
              ** apply (Hnone [name] y). left. by exists name.
              ** pose proof (inv_children _ _ _ Hspec _ _ Hy) as Hch. destruct (tree_paths y) as [|[q c] l] eqn:Htp; [done|].
                 apply (Hnone (name :: q) c). right. exists name, y, q. split; [done|]. split; [done|]. rewrite Htp. by left.
           ++ intros p c. rewrite map_path_tree, (inv_paths _ _ _ Hspec). symmetry. by apply fields_path_aggregate.
      * exists unsupported. split; [done|]. destruct Hspec as (t & Ht & Hre). by eapply aggregate_reaches.
  - exists noCallbacks. split; [done|]. intros Hre. destruct (pointee T') eqn:Hp'; [by apply Hpp|].
    destruct (array_element T') eqn:Ha'; [apply Hfalse; [right; by eexists|by apply Hiff]|].
    apply Hiff in Hre. revert Hre. apply not_record_not_reaches; [done..| |done].
    rewrite function_pointer in Hnfp. destruct (pointee T); simpl in HT'; by subst T'.
Qed.


(** The cache holds exact trees of the types it names. *)
Definition cache_wf (cache : gmap str CallbackTree) : Prop :=
  ∀ T tree, plain T → cache !! spelling T = Some tree → tree_exact T tree.

Lemma build_tree_spec T : plain T → ∃ tree, build_tree T = Done tree ∧ tree_exact T tree.
Proof using Hnames.
  intros HT. apply build_spec; [|done]. unfold known. set (K := list_to_set known_spellings).
  assert (size (K ∖ ∅) ≤ size K); [|lia]. apply subseteq_size. set_solver.
Qed.

Lemma cached_tree_spec cache T :
  cache_wf cache → plain T →
  ∃ cache' tree, cached_tree cache T = Done (cache', tree) ∧ cache_wf cache' ∧ tree_exact T tree.
Proof using Hnames.
  intros Hwf HT. destruct (build_tree_spec T HT) as (tree & Htree & Hex). unfold cached_tree.
  rewrite spelling_eq. cbn [mbind run_bind]. destruct (cache !! spelling T) as [tree'|] eqn:Hc.
  - exists cache, tree'. split; [done|]. split; [done|]. by apply Hwf.
  - rewrite Htree. cbn [mbind run_bind]. eexists _, tree. split; [done|]. split; [|done].
    intros T' tree' Hc' Hl. destruct (decide (spelling T' = spelling T)) as [He|Hne].
    + rewrite He, lookup_insert_eq in Hl. injection Hl as <-. destruct (va_list_part T) eqn:Hp.
      * destruct (spelling_inj T' T) as [->|[Hp' _]]; [apply Hc'|apply HT|by rewrite !spelling_eq, He|done|].
        by apply (va_list_exact T); [apply HT|apply Hc'|..].
      * by rewrite (same_spelling T' T (proj1 Hc') (proj1 HT) He Hp).
    + rewrite lookup_insert_ne in Hl by done. by apply Hwf.
Qed.

(** Out parameters hold no callback of their own. *)
Lemma out_callee_spec T callee :
  getCanonicalType T = T → out_callee T = Some callee → reaches T ∧ ∀ p c, ¬ callback_path T p c.
Proof using.
  clear Hnames. unfold out_callee. intros Hc Ho. destruct (pointee T) as [q|] eqn:Hp; [|done].
  destruct (isFunctionPointerType q) eqn:Hf; [|done].
  assert (peel_step T = Some q) as Hstep by (unfold peel_step; by rewrite Hp). split.
  - apply (reaches_step _ _ Hc Hstep). apply function_pointer_reaches; [by eapply peel_step_canonical|done].
  - intros p c Hpath. rewrite function_pointer in Hf. destruct (pointee q) eqn:Hq; [|done].
    destruct (pointer_kind q) as (_ & Hr & _); [by eexists|].
    assert (aggregate T = None) as Hag by by rewrite (aggregate_pointer _ _ Hp).
    inversion Hpath; congruence.
Qed.

Definition no_out (a : str * QualType) : Prop := out_callee (getCanonicalType a.2) = None.
#[local] Instance no_out_dec a : Decision (no_out a).
Proof using.
  unfold no_out. destruct (out_callee _); [right; discriminate|by left].
Defined.

(** The parameters passed so far: the maps hold what those that are no out parameter
    carry. *)
Definition arguments_inv (passed : list (str * QualType)) (cbs : gmap str QualType) (chs : gmap str CallbackTree)
    (outs : gmap str QualType) : Prop :=
  fields_inv (filter no_out passed) cbs chs ∧
  ∀ name c, outs !! name = Some c ↔ ∃ t, (name, t) ∈ passed ∧ out_callee (getCanonicalType t) = Some c.

Lemma arguments_skip passed cbs chs outs name t :
  out_callee (getCanonicalType t) = None →
  (fields_inv (filter no_out passed ++ [(name, t)]) cbs chs) →
  (∀ n c, outs !! n = Some c ↔ ∃ u, (n, u) ∈ passed ∧ out_callee (getCanonicalType u) = Some c) →
  arguments_inv (passed ++ [(name, t)]) cbs chs outs.
Proof using.
  clear Hnames. intros Hno Hinv Houts. split.
  - rewrite filter_app, filter_cons_True by done. done.
  - intros n c. rewrite Houts. split; intros (u & Hin & Hu); exists u; (split; [|done]).
    + apply elem_of_app. by left.
    + apply elem_of_app in Hin as [?|Hin]; [done|]. apply list_elem_of_singleton in Hin as [= -> ->]. congruence.
Qed.

Lemma arguments_out passed cbs chs outs name t callee :
  arguments_inv passed cbs chs outs → name ∉ passed.*1 → out_callee (getCanonicalType t) = Some callee →
  arguments_inv (passed ++ [(name, t)]) cbs chs (emplace name callee outs).
Proof using.
  clear Hnames. intros [Hinv Houts] Hfresh Ho.
  assert (outs !! name = None) as Hn.
  { apply eq_None_not_Some. intros [c Hc]. apply Houts in Hc as (u & Hin & _). apply Hfresh.
    apply list_elem_of_fmap. by exists (name, u). }
  rewrite emplace_fresh by done. split.
  - rewrite filter_app, filter_cons_False by (unfold no_out; simpl; congruence). by rewrite app_nil_r.
  - intros n c. destruct (decide (n = name)) as [->|Hne].
    + rewrite lookup_insert_eq. split.
      * intros [= <-]. exists t. split; [|done]. apply elem_of_app. right. by apply list_elem_of_singleton.
      * intros (u & Hin & Hu). apply elem_of_app in Hin as [Hin|Hin].
        -- exfalso. apply Hfresh, list_elem_of_fmap. by exists (name, u).
        -- apply list_elem_of_singleton in Hin as [= ->]. congruence.
    + rewrite lookup_insert_ne, Houts by done. split; intros (u & Hin & Hu); exists u; (split; [|done]).
      * apply elem_of_app. by left.
      * apply elem_of_app in Hin as [?|Hin]; [done|]. by apply list_elem_of_singleton in Hin as [= -> ->].
Qed.

Lemma argument_loop_spec cache args passed cbs chs outs :
  cache_wf cache → arguments_inv passed cbs chs outs → NoDup (passed ++ args).*1 →
  Forall (λ t, isFunctionType (getCanonicalType t) = false) args.*2 →
  ∃ cache' r, argument_loop cache ((λ a, (Some a.2, a.1)) <$> args) cbs chs outs = Done (cache', r) ∧
    cache_wf cache' ∧
    match r with
    | None => ∃ t, t ∈ args.*2 ∧ reaches t
    | Some (cbs', chs', outs') => arguments_inv (passed ++ args) cbs' chs' outs'
    end.
Proof using Hnames.
  revert cache passed cbs chs outs. induction args as [|[name t] args IH]; intros cache passed cbs chs outs Hwf Hinv Hnd Hall.
  { exists cache, (Some (cbs, chs, outs)). split; [done|]. split; [done|]. by rewrite app_nil_r. }
  apply Forall_cons in Hall as [Hnf Hall]. cbn [snd] in Hnf.
  rewrite (app_assoc passed [(name, t)] args : passed ++ (name, t) :: args = _) in *.
  assert (name ∉ passed.*1) as Hfresh.
  { rewrite !fmap_app in Hnd. apply NoDup_app in Hnd as (Hnd & _ & _). apply NoDup_app in Hnd as (_ & Hd & _).
    intros Hin. apply (Hd _ Hin). by left. }
  assert (name ∉ (filter no_out passed).*1) as Hfresh'.
  { intros (a & -> & [_ Ha]%list_elem_of_filter)%list_elem_of_fmap. apply Hfresh, list_elem_of_fmap. by exists a. }
  assert (∀ cache cbs chs outs, cache_wf cache → arguments_inv (passed ++ [(name, t)]) cbs chs outs →
    ∃ cache' r, argument_loop cache ((λ a, (Some a.2, a.1)) <$> args) cbs chs outs = Done (cache', r) ∧
      cache_wf cache' ∧
      match r with
      | None => ∃ u, u ∈ ((name, t) :: args).*2 ∧ reaches u
      | Some (cbs', chs', outs') => arguments_inv ((passed ++ [(name, t)]) ++ args) cbs' chs' outs'
      end) as Hmore.
  { intros ca c h o Hwf' Hinv'. destruct (IH ca _ c h o Hwf' Hinv' Hnd Hall) as (ca' & r & Hr & Hw & Hspec).
    exists ca', r. split; [done|]. split; [done|]. destruct r as [[[??]?]|]; [done|].
    destruct Hspec as (u & Hu & Hre). exists u. split; [by right|done]. }
  rewrite fmap_cons. cbn [argument_loop fst snd defined mbind run_bind]. destruct Hinv as [Hinv Houts].
  destruct (isFunctionPointerType (getCanonicalType t)) eqn:Hf.
  - pose proof Hf as Hp. rewrite function_pointer in Hp.
    destruct (pointee (getCanonicalType t)) as [callee|] eqn:Hpt; [|done]. cbn [defined mbind run_bind].
    assert (out_callee (getCanonicalType t) = None) as Hno.
    { unfold out_callee. rewrite Hpt, function_pointer. destruct (pointee callee) eqn:Hc; [|done].
      destruct (pointer_kind callee) as (_ & _ & Hn); [by eexists|]. congruence. }
    apply Hmore; [done|]. apply arguments_skip; [done| |done]. by eapply inv_callback.
  - destruct (out_callee (getCanonicalType t)) as [callee|] eqn:Ho.
    { apply Hmore; [done|]. by apply arguments_out. }
    assert (plain (getCanonicalType t)) as Hplain by (split; [apply canonical_idemp|done]).
    destruct (cached_tree_spec cache _ Hwf Hplain) as (cache' & tree & Hct & Hwf' & Hex).
    rewrite Hct. cbn [mbind run_bind]. unfold tree_exact in Hex. destruct (status tree).
    + destruct Hex as [Hne Hex]. apply Hmore; [done|]. apply arguments_skip; [done| |done]. by apply inv_child.
    + apply Hmore; [done|]. apply arguments_skip; [done| |done]. by apply inv_skip.
    + eexists cache', None. split; [done|]. split; [done|]. exists t. split; [by left|].
      by apply reaches_canonical.
Qed.

Lemma argument_tree_spec cache info args :
  cache_wf cache → arguments info = (λ a, (Some a.2, a.1)) <$> args → NoDup args.*1 →
  Forall (λ t, isFunctionType (getCanonicalType t) = false) args.*2 →
  ∃ cache' tree, buildArgumentTree cache info = Done (cache', tree) ∧ cache_wf cache' ∧
    match status tree with
    | Unsupported => ∃ t, t ∈ args.*2 ∧ reaches t
    | NoCallbacks => ∀ t, t ∈ args.*2 → ¬ reaches t
    | HasCallbacks =>
        (∀ p c, (p, c) ∈ tree_paths tree ↔ fields_path args p c) ∧
        ∀ name c, (name, c) ∈ outCallbacks tree ↔
          ∃ t, (name, t) ∈ args ∧ out_callee (getCanonicalType t) = Some c
    end.
Proof using Hnames.
  intros Hwf Hargs Hnd Hall. unfold buildArgumentTree. rewrite Hargs.
  destruct (argument_loop_spec cache args [] ∅ ∅ ∅ Hwf) as (cache' & r & Hr & Hwf' & Hspec); [|done..|].
  { split; [apply inv_start|]. intros name c. rewrite lookup_empty. split; [done|].
    intros (t & Hin & _). by apply not_elem_of_nil in Hin. }
  rewrite Hr. cbn [mbind run_bind]. eexists _, _. split; [done|]. split; [done|].
  destruct r as [[[cbs chs] outs]|]; [|done]. cbn [app] in Hspec. destruct Hspec as [Hinv Houts].
  destruct (bool_decide (cbs = ∅) && bool_decide (chs = ∅) && bool_decide (outs = ∅)) eqn:Hempty.
  - apply andb_prop in Hempty as [[H1%bool_decide_eq_true H2%bool_decide_eq_true]%andb_prop H3%bool_decide_eq_true].
    cbn [status noCallbacks]. intros t (a & -> & Hin)%list_elem_of_fmap. destruct a as [name t]. cbn [snd].
    apply (inv_nothing _ _ _ Hinv H1 H2). apply list_elem_of_fmap. exists (name, t). split; [done|].
    apply list_elem_of_filter. split; [|done]. unfold no_out. cbn [snd].
    destruct (out_callee (getCanonicalType t)) as [c|] eqn:Ho; [|done].
    assert (outs !! name = Some c) as Hx by (apply Houts; by exists t). rewrite H3 in Hx. by rewrite lookup_empty in Hx.
  - cbn [status outCallbacks]. split.
    + intros p c. rewrite map_path_tree, (inv_paths _ _ _ Hinv). unfold fields_path.
      assert (∀ name t q c, (name, t) ∈ args → callback_path (getCanonicalType t) q c → (name, t) ∈ filter no_out args) as Hin.
      { intros name t q c' Hin Hp. apply list_elem_of_filter. split; [|done]. unfold no_out. cbn [snd].
        destruct (out_callee (getCanonicalType t)) eqn:Ho; [|done].
        destruct (out_callee_spec _ _ (canonical_idemp t) Ho) as [_ Hno]. by apply Hno in Hp. }
      split.
      * intros [(n & t & ce & -> & [_ Hx]%list_elem_of_filter & Hrest)|(n & t & q & -> & [_ Hx]%list_elem_of_filter & Hrest)].
        -- left. by exists n, t, ce.
        -- right. by exists n, t, q.
      * intros [(n & t & ce & -> & Hx & Hpt & Hf & ->)|(n & t & q & -> & Hx & Hrest & Hp)].
        -- left. exists n, t, ce. split; [done|]. split; [|done]. apply list_elem_of_filter. split; [|done].
           unfold no_out, out_callee. cbn [snd]. rewrite Hpt, function_pointer. destruct (pointee ce) eqn:Hc; [|done].
           destruct (pointer_kind ce) as (_ & _ & Hn); [by eexists|]. congruence.
        -- right. exists n, t, q. split; [done|]. split; [by eapply Hin|done].
    + intros name c. rewrite entries_elem. apply Houts.
Qed.

(** For every signature the tree of the arguments is built, and it says what the
    arguments carry: no function is reachable from them, or it holds exactly the callbacks
    that are arguments or members of arguments by value or through single pointers, with
    the out parameters apart, or a function is reachable in a way that is not supported. *)
Theorem argument_tree_exact cache info args :
  cache_wf cache → arguments info = (λ a, (Some a.2, a.1)) <$> args → NoDup args.*1 →
  Forall (λ t, isFunctionType (getCanonicalType t) = false) args.*2 →
  ∃ cache' tree, buildArgumentTree cache info = Done (cache', tree) ∧ cache_wf cache' ∧
    match status tree with
    | Unsupported => ∃ t, t ∈ args.*2 ∧ reaches t
    | NoCallbacks => ∀ t, t ∈ args.*2 → ¬ reaches t
    | HasCallbacks =>
        (∀ p c, (p, c) ∈ tree_paths tree ↔ fields_path args p c) ∧
        ∀ name c, (name, c) ∈ outCallbacks tree ↔
          ∃ t, (name, t) ∈ args ∧ out_callee (getCanonicalType t) = Some c
    end.
Proof using Hnames. apply argument_tree_spec. Qed.
End named.

(** The search for a function pointer ends on every type, however its records refer to
    each other, and finds one exactly when a function is reachable through pointers,
    arrays and members. *)
Theorem contains_exact T :
  ∃ b, containsFunctionPointer T = Done b ∧ (b = true ↔ reaches T).
Proof. apply contains_spec. Qed.
End tree.

(** ** An example: the types of a small translation unit

    [struct ops] has a callback, [struct node] holds one by value and refers to [struct
    cell], which refers to itself; [struct loop] refers to itself and has a callback;
    [struct vt] has a callback that cannot be assigned to.  [va_list] is that of x86-64. *)

Inductive UType : Type :=
  | U_void | U_int | U_fn | U_fn_ptr | U_fn_ptr_ptr | U_ops | U_ops_ptr | U_node | U_node_ptr
  | U_cell | U_cell_ptr | U_loop | U_loop_ptr | U_api | U_api_ptr
  | U_fn_const_ptr | U_vt | U_vt_ptr | U_use | U_use_ptr
  | U_void_ptr | U_va_tag | U_va_array | U_va_ptr.

Definition u_text (t : UType) : str :=
  match t with
  | U_void => $"void" | U_int => $"int" | U_fn => $"void (void)" | U_fn_ptr => $"void (*)(void)"
  | U_fn_ptr_ptr => $"void (**)(void)" | U_ops => $"struct ops" | U_ops_ptr => $"struct ops *"
  | U_node => $"struct node" | U_node_ptr => $"struct node *" | U_cell => $"struct cell"
  | U_cell_ptr => $"struct cell *" | U_loop => $"struct loop" | U_loop_ptr => $"struct loop *"
  | U_api => $"void (struct node *, void (*)(void), void (**)(void))"
  | U_api_ptr => $"void (*)(struct node *, void (*)(void), void (**)(void))"
  | U_fn_const_ptr => $"void (*const)(void)" | U_vt => $"struct vt" | U_vt_ptr => $"struct vt *"
  | U_use => $"void (struct vt *)" | U_use_ptr => $"void (*)(struct vt *)" | U_void_ptr => $"void *"
  | U_va_tag => $"struct __va_list_tag" | U_va_array => $"struct __va_list_tag[1]" | U_va_ptr => $"struct __va_list_tag *"
  end.
Definition u_spelling (t : UType) : str :=
  match t with U_va_array | U_va_ptr => $"va_list" | U_va_tag => $"va_list_tag" | t => u_text t end.
Definition u_va_list (t : UType) : bool :=
  match t with U_void | U_int | U_void_ptr | U_va_tag | U_va_array | U_va_ptr => true | _ => false end.

Definition u_pointee (t : UType) : option UType :=
  match t with
  | U_fn_ptr => Some U_fn | U_fn_ptr_ptr => Some U_fn_ptr | U_ops_ptr => Some U_ops | U_node_ptr => Some U_node
  | U_cell_ptr => Some U_cell | U_loop_ptr => Some U_loop | U_api_ptr => Some U_api
  | U_fn_const_ptr => Some U_fn | U_vt_ptr => Some U_vt | U_use_ptr => Some U_use
  | U_void_ptr => Some U_void | U_va_ptr => Some U_va_tag | _ => None
  end.
Definition u_pointer (t : UType) : UType :=
  match t with
  | U_fn => U_fn_ptr | U_fn_ptr => U_fn_ptr_ptr | U_ops => U_ops_ptr | U_node => U_node_ptr
  | U_cell => U_cell_ptr | U_loop => U_loop_ptr | U_api => U_api_ptr | U_vt => U_vt_ptr
  | U_use => U_use_ptr | U_void => U_void_ptr | U_va_tag => U_va_ptr | t => t
  end.
Definition u_rank (t : UType) : nat :=
  match t with U_fn_ptr_ptr => 2 | U_va_array => 1 | t => match u_pointee t with Some _ => 1 | None => 0 end end.
Definition u_is_function (t : UType) : bool := match t with U_fn | U_api | U_use => true | _ => false end.

Lemma u_pointee_decreases t t' : u_pointee t = Some t' → u_rank t' < u_rank t.
Proof. destruct t; intros [=<-]; simpl; lia. Qed.

Definition u_clang : Clang := {|
    QualType := UType;
    getAsString := u_text;
    getCanonicalType := λ t, t;
    getPointerType := u_pointer;
    VoidTy := U_void;
    isVoidType := λ t, match t with U_void => true | _ => false end;
    isArrayType := λ t, match t with U_va_array => true | _ => false end;
    isFunctionType := u_is_function;
    isFunctionPointerType := λ t, match u_pointee t with Some t => u_is_function t | None => false end;
    pointee := u_pointee;
    pointee_rank := u_rank;
    pointee_decreases := u_pointee_decreases;
    function_type := λ t,
      match t with
      | U_fn => Some (U_void, [], false)
      | U_api => Some (U_void, [U_node_ptr; U_fn_ptr; U_fn_ptr_ptr], false)
      | U_use => Some (U_void, [U_vt_ptr], false)
      | _ => None
      end;
    isCharType := λ _, false;
    adjusted_original := λ _, None;
    typedef_decl := λ _, None;
    typedef_rank := λ _, 0;
    typedef_decreases := λ _ _ _ _ (H : None = Some _), match H with eq_refl => I end;
    Expr := unit;
    IgnoreParenImpCasts := λ e, e;
    FunctionDecl := unit;
    declRef := λ _, None;
    addrOf := λ _, None;
    EvaluateAsInt := λ _, None;
    fn_name := λ _, $"api";
    fn_type := λ _, U_api;
    fn_params := λ _, [(U_node_ptr, $"n"); (U_fn_ptr, $"f"); (U_fn_ptr_ptr, $"out")];
    fn_result := λ _, U_void;
    fn_variadic := λ _, false;
    fn_CLanguageLinkage := λ _, true;
    fn_linkage_spec := λ _, None;
    fn_format := λ _, None;
    fn_original_types := λ _, [U_node_ptr; U_fn_ptr; U_fn_ptr_ptr];
    CPlusPlus := true;
    getAsCXXRecordDecl := λ _, None
|}.

Definition u_fields (t : UType) : option (list (str * UType)) :=
  match t with
  | U_ops => Some [($"open", U_fn_ptr); ($"flags", U_int)]
  | U_node => Some [($"ops", U_ops); ($"peer", U_cell_ptr)]
  | U_cell => Some [($"next", U_cell_ptr); ($"value", U_int)]
  | U_loop => Some [($"next", U_loop_ptr); ($"notify", U_fn_ptr)]
  | U_vt => Some [($"run", U_fn_const_ptr)]
  | U_va_tag => Some [($"gp_offset", U_int); ($"fp_offset", U_int); ($"overflow_arg_area", U_void_ptr); ($"reg_save_area", U_void_ptr)]
  | _ => None
  end.

Definition u_known : list str :=
  u_spelling <$> [U_int; U_fn_ptr; U_ops; U_node; U_cell; U_cell_ptr; U_loop; U_loop_ptr;
                  U_vt; U_fn_const_ptr; U_va_tag; U_void_ptr].

Lemma u_fields_known t fields :
  u_fields t = Some fields →
  length fields ≤ 4 ∧
  Forall (λ t', ∃ s, @getTypeString u_clang t' = Done s ∧ s ∈ u_known) (t :: fields.*2).
Proof.
  assert (∀ u, bool_decide (u_spelling u ∈ u_known) = true → @getTypeString u_clang u = Done (u_spelling u) →
    ∃ s, @getTypeString u_clang u = Done s ∧ s ∈ u_known) as Hin.
  { intros u Hb Hs. exists (u_spelling u). split; [done|]. by apply bool_decide_eq_true in Hb. }
  destruct t; intros [= <-]; (split; [simpl; lia|]); repeat constructor; apply Hin; vm_compute; reflexivity.
Qed.

Lemma u_spelling_inj (t u : UType) :
  @getTypeString u_clang t = @getTypeString u_clang u → t = u ∨ u_va_list t = true ∧ u_va_list u = true.
Proof.
  assert (∀ v, @getTypeString u_clang v = Done (u_spelling v)) as Hs by (intros v; destruct v; vm_compute; reflexivity).
  rewrite !Hs. intros [= Heq]. destruct t, u; (left; reflexivity) || (right; done) || discriminate Heq.
Qed.

#[export] Instance u_records : @ClangRecords u_clang.
Proof.
  refine {| array_element := λ t : @QualType u_clang, match t : UType with U_va_array => Some U_va_tag | _ => None end;
            isUnionType := λ _ : @QualType u_clang, false;
            record_fields := u_fields : @QualType u_clang → _;
            va_list_part := u_va_list : @QualType u_clang → _;
            known_spellings := u_known; fields_bound := 4 |}; simpl; try done.
  - intros t t'. destruct t; intros [= <-]. simpl. lia.
  - intros t [t' Ht]. destruct t; try discriminate; done.
  - intros t [t' Ht]. destruct t; try discriminate; done.
  - intros t Ht. by destruct t.
  - intros t Ht. by destruct t.
  - intros t t' Ht. by destruct t; intros [= <-].
  - intros t t' Ht. by destruct t; intros [= <-].
  - intros t fields t' Ht Hf Hin. destruct t; try discriminate; injection Hf as <-; simpl in Hin;
      repeat (apply elem_of_cons in Hin as [->|Hin]; [done|]); by apply not_elem_of_nil in Hin.
  - intros t u _ _. apply u_spelling_inj.
  - intros t fields t' Hf Hin. destruct t; try discriminate; injection Hf as <-; simpl in Hin;
      repeat (apply elem_of_cons in Hin as [->|Hin]; [done|]); by apply not_elem_of_nil in Hin.
  - apply u_fields_known.
Defined.

Lemma u_names t fields : @record_fields u_clang u_records t = Some fields → NoDup fields.*1.
Proof. destruct t; intros [= <-]; apply (bool_decide_unpack _); vm_compute; exact I. Qed.

(** A function of a [struct node] pointer, a callback and an out parameter for one. *)
Definition u_api_args : list (str * UType) := [($"n", U_node_ptr); ($"f", U_fn_ptr); ($"out", U_fn_ptr_ptr)].
Definition u_info (args : list (str * UType)) : @FunctionInfo u_clang :=
  @MkInfo u_clang (Some U_void) ((λ a, (Some a.2, a.1)) <$> args) ∅ [] false.

Example api_tree :
  (r ← @buildArgumentTree u_clang u_records ∅ (u_info u_api_args);
   Done (tree_paths r.2 , outCallbacks r.2)) =
  Done ([([$"n"; $"ops"; $"open"], U_fn); ([$"f"], U_fn)], [($"out", U_fn)]).
Proof. vm_compute. reflexivity. Qed.

Example loop_unsupported :
  (r ← @buildArgumentTree u_clang u_records ∅ (u_info [($"l", U_loop_ptr)]); Done (status r.2)) = Done Unsupported.
Proof. vm_compute. reflexivity. Qed.

Example cell_without :
  (r ← @buildArgumentTree u_clang u_records ∅ (u_info [($"c", U_cell_ptr)]); Done (status r.2)) = Done NoCallbacks.
Proof. vm_compute. reflexivity. Qed.

Lemma argument_tree_exact_witness :
  ∃ cache' tree, @buildArgumentTree u_clang u_records ∅ (u_info u_api_args) = Done (cache', tree) ∧
    status tree = HasCallbacks ∧ ∀ p c, (p, c) ∈ tree_paths tree ↔ @fields_path u_clang u_records u_api_args p c.
Proof.
  destruct (argument_tree_exact u_names ∅ (u_info u_api_args) u_api_args)
    as (cache' & tree & Hb & _ & Hspec).
  - intros T tree _ Hl. rewrite lookup_empty in Hl. discriminate Hl.
  - reflexivity.
  - apply (bool_decide_unpack _). vm_compute. exact I.
  - repeat constructor.
  - exists cache', tree. split; [exact Hb|].
    assert (status tree = HasCallbacks) as Hs.
    { assert ((r ← @buildArgumentTree u_clang u_records ∅ (u_info u_api_args); Done (status r.2)) = Done HasCallbacks) as Hr
        by (vm_compute; reflexivity).
      rewrite Hb in Hr. cbn [mbind run_bind snd] in Hr. by injection Hr. }
    split; [exact Hs|]. rewrite Hs in Hspec. by destruct Hspec.
Defined.
