(* ===== verification/CallbackSubstituter.v ===== *)
(** The substitution of callbacks: the second half of
    [src/tools/TLC/Passes/Guard/CallbackSubstituter.cpp].

    The pass writes, around the call in the receiver's [Adapt] layer, a piece of code that
    replaces every callback of the arguments' tree by a trampoline and one that puts the
    originals back.  Each text is shown to be that of a program ([CbStmt], [cb_text]) over
    a store of callback slots and pointers, in which two paths may lead to the same slot and
    which the call may write.  The theorems say that the programs replace exactly the slots
    of the tree and restore those whose paths the second one still finds, when no two paths
    meet, that they do not when two do, and that each path has a trampoline of its
    callback's own type when names are plain. *)

From stdpp Require Import gmap.
From S2P Require Import Prelude CppString StringExtras ManifestSummary PassScheduler ClangExtras Document.
From S2P Require Import PassTemplates ThunkCode DefaultBuilder Callback CallbackTree.

Section substituter.
Context `{ClangRecords}.

Definition indent (level : nat) : str := spaces (level * 4).
Definition line_end : str := $";" ++ [c_nl].

(** ** The emitters *)

Definition child_id (idPath name : str) : str := idPath ++ $"____" ++ name.
Definition allocator_name (idPath name : str) : str := child_id idPath name ++ $"_xx_ThunkAlloc".

(** What [emitInit] and [emitFini] write around a child. *)
Definition enter_child (byValue : bool) (valExpr ctxExpr var name : str) (level : nat) : str :=
  indent level ++ $"auto " ++ var ++ $" = " ++ (if byValue then $"&" else []) ++ valExpr ++ name ++ line_end
  ++ indent level ++ $"auto " ++ var ++ $"_ctx = &" ++ ctxExpr ++ name ++ line_end
  ++ indent level ++ $"if (" ++ (if byValue then $"1" else var) ++ $") {" ++ [c_nl].

Definition by_value (t : CallbackTree) : bool := match reach t with ByValue => true | ByPointer => false end.

Definition init_line (guestCallback : bool) (valExpr ctxExpr name allocator : str) (level : nat) : str :=
  indent level ++ ctxExpr ++ name ++ $".init<" ++ (if guestCallback then $"true" else $"false")
  ++ $">((void *&) " ++ valExpr ++ name ++ $", allocCallbackTrampoline<" ++ allocator ++ $"::invoke>);" ++ [c_nl].

Fixpoint emitInit (node : CallbackTree) (valExpr ctxExpr idPath : str) (guestCallback : bool) (level : nat) : str :=
  let '(MkTree _ _ cbs chs _) := node in
  concat (List.map (λ '(name, child),
    let childId := child_id idPath name in
    let var := $"p_" ++ childId in
    enter_child (by_value child) valExpr ctxExpr var name level
    ++ emitInit child (var ++ $"->") (var ++ $"_ctx->") childId guestCallback (S level)
    ++ indent level ++ $"}" ++ [c_nl]) chs)
  ++ concat (List.map (λ '(name, _),
       init_line guestCallback valExpr ctxExpr name (allocator_name idPath name) level) cbs).

(** The map that [emitInit] fills on the way. *)
Fixpoint init_allocators (node : CallbackTree) (idPath : str) (allocators : gmap str QualType) : gmap str QualType :=
  let '(MkTree _ _ cbs chs _) := node in
  fold_left (λ m '(name, callee), emplace (allocator_name idPath name) callee m) cbs
    (fold_left (λ m '(name, child), init_allocators child (child_id idPath name) m) chs allocators).

Fixpoint emitFini (node : CallbackTree) (valExpr ctxExpr idPath : str) (level : nat) : str :=
  let '(MkTree _ _ cbs chs _) := node in
  concat (List.map (λ '(name, child),
    let childId := child_id idPath name in
    let var := $"p_" ++ childId in
    enter_child (by_value child) valExpr ctxExpr var name level
    ++ emitFini child (var ++ $"->") (var ++ $"_ctx->") childId (S level)
    ++ indent level ++ $"}" ++ [c_nl]) chs)
  ++ concat (List.map (λ '(name, _), indent level ++ ctxExpr ++ name ++ $".fini();" ++ [c_nl]) cbs).

Fixpoint emitContextStruct (node : CallbackTree) (member typeName : str) (level : nat) : str :=
  let '(MkTree _ _ cbs chs _) := node in
  indent level ++ $"struct " ++ typeName ++ $" {" ++ [c_nl]
  ++ concat (List.map (λ '(name, child), emitContextStruct child name [] (S level) ++ [c_nl]) chs)
  ++ concat (List.map (λ '(name, _), indent (S level) ++ $"struct CallbackContext " ++ name ++ $";" ++ [c_nl]) cbs)
  ++ indent level ++ $"} " ++ member ++ $";".

(** ** The pass *)

Definition substituter_key : str := $"CallbackSubstituter".

Definition substituter_testProc (cache : gmap str CallbackTree) (proc : ProcSnippet) :
    run (gmap str CallbackTree * option CallbackTree) :=
  '(cache, tree) ← buildArgumentTree cache (real_info proc);
  Done (cache, match status tree with NoCallbacks => None | _ => Some tree end).

(** [resolveAlias]: the name of a callback type, or the diagnostic. *)
Definition resolveAlias (callbackTypes : gmap str (QualType * str)) (calleeType : QualType) : run (str + str) :=
  let ptrType := getPointerType (getCanonicalType calleeType) in
  s ← getTypeString (getCanonicalType ptrType);
  match callbackTypes !! s with
  | Some (_, name) => Done (inl name)
  | None => s ← getTypeString ptrType; Done (inr ($"callback not found for type: " ++ s))
  end.

Definition ifdef (body : str) : str :=
  $"#ifdef LORE_THUNK_CALLBACK_REPLACE" ++ [c_nl] ++ body ++ $"#endif" ++ [c_nl].

(** The declarations of the allocators, until one has no alias. *)
Fixpoint using_decls (callbackTypes : gmap str (QualType * str)) (direction : str)
    (allocators : list (str * QualType)) : run (str + str) :=
  match allocators with
  | [] => Done (inl [])
  | (allocator, calleeType) :: allocators =>
      alias ← resolveAlias callbackTypes calleeType;
      match alias with
      | inr err => Done (inr err)
      | inl alias =>
          rest ← using_decls callbackTypes direction allocators;
          Done (match rest with
                | inr err => inr err
                | inl rest =>
                    inl ($"    using " ++ allocator ++ $" = ProcCb<" ++ alias ++ $", " ++ direction
                         ++ $", Entry>;" ++ [c_nl] ++ rest)
                end)
      end
  end.

Fixpoint out_decls (callbackTypes : gmap str (QualType * str)) (direction procName : str) (guestCallback : bool)
    (outs : list (str * QualType)) : run (str + str) :=
  match outs with
  | [] => Done (inl [])
  | (name, calleeType) :: outs =>
      alias ← resolveAlias callbackTypes calleeType;
      match alias with
      | inr err => Done (inr err)
      | inl alias =>
          let allocator := procName ++ $"____" ++ name ++ $"_xx_OutThunkAlloc" in
          rest ← out_decls callbackTypes direction procName guestCallback outs;
          Done (match rest with
                | inr err => inr err
                | inl rest =>
                    inl ($"        using " ++ allocator ++ $" = ProcCb<" ++ alias ++ $", " ++ direction
                         ++ $", Entry>;" ++ [c_nl]
                         ++ $"        struct CallbackContext _xx_out_" ++ name ++ $";" ++ [c_nl]
                         ++ $"        _xx_out_" ++ name ++ $".init<" ++ (if guestCallback then $"true" else $"false")
                         ++ $">((void *&) *" ++ name ++ $", allocCallbackTrampoline<" ++ allocator
                         ++ $"::invoke>);" ++ [c_nl] ++ rest)
                end)
      end
  end.

(** The writes to the [Adapt] source. *)
Definition adapt_source (f : ProcSource → ProcSource) (proc : ProcSnippet) : ProcSnippet :=
  with_sources proc (set_phase (proc_source proc) Adapt (f (at_adapt (proc_source proc)))).

Definition with_body (f : FunctionBodySource → FunctionBodySource) (s : ProcSource) : ProcSource :=
  MkSource (functionInfo s) (source_head s) (f (body s)) (source_tail s).
Definition push_forward (text : str) : ProcSource → ProcSource :=
  with_body (λ b, MkBody (prolog b) (push_back (forward b) (MkLine substituter_key text)) (center b) (backward b) (epilog b)).
Definition push_forward_front (text : str) : ProcSource → ProcSource :=
  with_body (λ b, MkBody (prolog b) (push_front (forward b) (MkLine substituter_key text)) (center b) (backward b) (epilog b)).
Definition push_backward (text : str) : ProcSource → ProcSource :=
  with_body (λ b, MkBody (prolog b) (forward b) (center b) (push_back (backward b) (MkLine substituter_key text)) (epilog b)).
Definition push_head (text : str) (s : ProcSource) : ProcSource :=
  MkSource (functionInfo s) (push_back (source_head s) (MkLine substituter_key text)) (body s) (source_tail s).

Definition is_host (mode : Mode) : bool := match mode with Host => true | Guest => false end.

(** The in callbacks: the three texts, or the diagnostic. *)
Definition in_texts (callbackTypes : gmap str (QualType * str)) (proc : ProcSnippet) (tree : CallbackTree) :
    run (str * str * str + str) :=
  let isG2H := is_g2h proc in
  let ctxStructName := proc_name proc ++ $"_xx_LocalContext" in
  usings ← using_decls callbackTypes (if isG2H then $"HostToGuest" else $"GuestToHost")
             (entries (init_allocators tree (proc_name proc) ∅));
  Done (match usings with
        | inr err => inr err
        | inl usings =>
            inl (ifdef (usings ++ [c_nl] ++ $"    struct " ++ ctxStructName ++ $" ctx;" ++ [c_nl]
                        ++ $"    {" ++ [c_nl] ++ emitInit tree [] ($"ctx.") (proc_name proc) isG2H 2
                        ++ $"    }" ++ [c_nl]),
                 ifdef ($"    {" ++ [c_nl] ++ emitFini tree [] ($"ctx.") (proc_name proc) 2 ++ $"    }" ++ [c_nl]),
                 join [$"#ifdef LORE_THUNK_CALLBACK_REPLACE"; emitContextStruct tree [] ctxStructName 0; $"#endif"; []]
                   [c_nl])
        end).

(** [beginHandleProc], with the diagnostic it reports, if any. *)
Definition substituter_begin (mode : Mode) (callbackTypes : gmap str (QualType * str)) (tree : CallbackTree)
    (proc : ProcSnippet) : run (ProcSnippet * option str) :=
  let isG2H := is_g2h proc in
  let receiver := eqb isG2H (is_host mode) in
  let write_receiver f proc := if receiver then adapt_source f proc else proc in
  let write_caller f proc := if receiver then proc else adapt_source f proc in
  match status tree with
  | Unsupported =>
      Done (write_receiver (push_forward (ifdef ($"#error " ++ quoted ($"unsupported callback type") ++ [c_nl]))) proc,
            None)
  | _ =>
      r ← (match callbacks tree, children tree with
           | [], [] => Done (inl proc)
           | _, _ =>
               texts ← in_texts callbackTypes proc tree;
               Done (match texts with
                     | inr err => inr err
                     | inl (forward_text, backward_text, head_text) =>
                         inl (write_receiver (push_head head_text)
                                (write_receiver (push_backward backward_text)
                                   (write_receiver (push_forward_front forward_text) proc)))
                     end)
           end);
      match r with
      | inr err => Done (proc, Some err)
      | inl proc =>
          match outCallbacks tree with
          | [] => Done (proc, None)
          | outs =>
              decls ← out_decls callbackTypes (if isG2H then $"GuestToHost" else $"HostToGuest") (proc_name proc)
                        (negb isG2H) outs;
              match decls with
              | inr err => Done (proc, Some err)
              | inl decls =>
                  Done (write_caller (push_backward (ifdef ($"    {" ++ [c_nl] ++ decls ++ $"    }" ++ [c_nl]))) proc,
                        None)
              end
          end
      end
  end.

(** ** The emitted programs *)

Inductive CbStmt : Type :=
  | CB_child (reach : Reach) (name : str) (code : list CbStmt)   (* auto p = ...; if (p) { ... } *)
  | CB_init (name allocator : str)                               (* ctx.x.init(x, allocator); *)
  | CB_fini (name : str).                                        (* ctx.x.fini(); *)

Fixpoint cb_text (guestCallback : bool) (valExpr ctxExpr idPath : str) (level : nat) (s : CbStmt) : str :=
  match s with
  | CB_child r name code =>
      let var := $"p_" ++ child_id idPath name in
      enter_child (match r with ByValue => true | ByPointer => false end) valExpr ctxExpr var name level
      ++ concat (List.map (cb_text guestCallback (var ++ $"->") (var ++ $"_ctx->") (child_id idPath name) (S level)) code)
      ++ indent level ++ $"}" ++ [c_nl]
  | CB_init name allocator => init_line guestCallback valExpr ctxExpr name allocator level
  | CB_fini name => indent level ++ ctxExpr ++ name ++ $".fini();" ++ [c_nl]
  end.

(** The code of a tree: the children's, then a statement for each callback. *)
Fixpoint cb_code (leaf : str → str → CbStmt) (idPath : str) (node : CallbackTree) : list CbStmt :=
  let '(MkTree _ _ cbs chs _) := node in
  List.map (λ '(name, child), CB_child (reach child) name (cb_code leaf (child_id idPath name) child)) chs
  ++ List.map (λ '(name, _), leaf idPath name) cbs.

Definition init_code : str → CallbackTree → list CbStmt :=
  cb_code (λ idPath name, CB_init name (allocator_name idPath name)).
Definition fini_code : str → CallbackTree → list CbStmt := cb_code (λ _ name, CB_fini name).

(** ** Running them

    An aggregate is an object and the members by value that lead into it; a callback is a
    slot of an aggregate, a pointer member leads to another aggregate or is null.  Slots
    and pointers are a store, so that two pointers may lead to the same slot and a call
    may change either: each of the two pieces of code reads the pointers when it runs.
    The context structure holds, by the path of its member, the slot and the original that
    [CallbackContext::init] recorded, 0 when it did not. *)

Definition Loc : Type := nat * list str.
Definition Slot : Type := Loc * str.

(** What a pointer member leads to, if it is not null. *)
Abbreviation Pointers := (gmap Slot (option Loc)).

Record CbState : Type := MkCbState {
  slots : gmap Slot Z;
  pointers : Pointers;
  contexts : gmap (list str) (Slot * Z);
  tables : gmap nat FunctionTrampolineTable
}.

(** The trampolines' memory and, by allocator, the key of the table of its callback type. *)
Record CbEnv : Type := MkCbEnv {
  cb_mmap : nat → Z;
  cb_handler : nat → Z;
  cb_probe : Z → Z;
  cb_isHost : Z → bool;
  cb_guest : bool;
  key_of : str → nat
}.

Definition cb_init (E : CbEnv) (allocator : str) : gmap nat FunctionTrampolineTable → Z →
    run (gmap nat FunctionTrampolineTable * CallbackContext) :=
  callback_init (cb_mmap E) (cb_handler E) (cb_probe E) kMaxCallbackTrampolineCount (cb_isHost E) (cb_guest E)
    (key_of E allocator).

(** Where a child is, if its pointer is not null; [None] when there is no such member in
    the store. *)
Definition child_loc (P : Pointers) (loc : Loc) (r : Reach) (name : str) : option (option Loc) :=
  match r with ByValue => Some (Some (loc.1, loc.2 ++ [name])) | ByPointer => P !! (loc, name) end.

Definition run_init (E : CbEnv) (k : Slot) (path : list str) (allocator : str) (st : CbState) : run CbState :=
  v ← defined (slots st !! k);
  '(ts, c) ← cb_init E allocator (tables st) v;
  Done (MkCbState (<[k := slot c]> (slots st)) (pointers st) (<[path := (k, org_fp c)]> (contexts st)) ts).

Definition run_fini (path : list str) (st : CbState) : run CbState :=
  Done (match contexts st !! path with
        | Some (k, org) =>
            if (org =? 0)%Z then st else MkCbState (<[k := org]> (slots st)) (pointers st) (contexts st) (tables st)
        | None => st
        end).

Fixpoint run_cb (E : CbEnv) (loc : Loc) (path : list str) (st : run CbState) (s : CbStmt) : run CbState :=
  match s with
  | CB_child r name code =>
      st ← st;
      child ← defined (child_loc (pointers st) loc r name);
      match child with
      | Some l => fold_left (run_cb E l (path ++ [name])) code (Done st)
      | None => Done st
      end
  | CB_init name allocator => st ← st; run_init E (loc, name) (path ++ [name]) allocator st
  | CB_fini name => st ← st; run_fini (path ++ [name]) st
  end.

Definition run_code (E : CbEnv) (loc : Loc) (code : list CbStmt) (st : CbState) : run CbState :=
  fold_left (run_cb E loc []) code (Done st).

(** The callbacks that the pointers lead to, in the order of the code: the path, the slot
    and the allocator; [None] when a pointer on the way leads out of the store. *)
Definition Visit : Type := list str * Slot * str.
Definition visit_path (v : Visit) : list str := v.1.1.
Definition visit_slot (v : Visit) : Slot := v.1.2.

Definition join_all {A} : list (option (list A)) → option (list A) :=
  foldr (λ o rest, l ← o; ls ← rest; Some (l ++ ls)) (Some []).

Fixpoint visits (P : Pointers) (loc : Loc) (path : list str) (idPath : str) (node : CallbackTree) :
    option (list Visit) :=
  let '(MkTree _ _ cbs chs _) := node in
  vs ← join_all (List.map (λ '(name, child),
    l ← child_loc P loc (reach child) name;
    match l with
    | Some l => visits P l (path ++ [name]) (child_id idPath name) child
    | None => Some []
    end) chs);
  Some (vs ++ List.map (λ '(name, _), (path ++ [name], (loc, name), allocator_name idPath name)) cbs).

(** The specification: each callback's [init] on its original, then all the slots
    replaced at once; and the originals that were recorded put back at once. *)
Fixpoint init_all (E : CbEnv) (originals : gmap Slot Z) (ts : gmap nat FunctionTrampolineTable) (vs : list Visit) :
    run (gmap nat FunctionTrampolineTable * list (Visit * CallbackContext)) :=
  match vs with
  | [] => Done (ts, [])
  | v :: vs =>
      x ← defined (originals !! visit_slot v);
      '(ts, c) ← cb_init E v.2 ts x;
      '(ts, cs) ← init_all E originals ts vs;
      Done (ts, (v, c) :: cs)
  end.

Definition initialised (cs : list (Visit * CallbackContext)) (ts : gmap nat FunctionTrampolineTable) (st : CbState) :
    CbState :=
  MkCbState (list_to_map ((λ vc, (visit_slot vc.1, slot vc.2)) <$> cs) ∪ slots st) (pointers st)
    (list_to_map ((λ vc, (visit_path vc.1, (visit_slot vc.1, org_fp vc.2))) <$> cs) ∪ contexts st) ts.

Definition restored (cs : list (Visit * CallbackContext)) : gmap Slot Z :=
  list_to_map ((λ vc, (visit_slot vc.1, org_fp vc.2)) <$> filter (λ vc, org_fp vc.2 ≠ 0%Z) cs).

(** Those whose paths are among the ones visited. *)
Definition met (vs : list Visit) (cs : list (Visit * CallbackContext)) : list (Visit * CallbackContext) :=
  filter (λ vc, visit_path vc.1 ∈ visit_path <$> vs) cs.

(** ** The text is that of the programs *)

Lemma concat_map_ext {A} (f g : A → str) (l : list A) :
  Forall (λ x, f x = g x) l → concat (List.map f l) = concat (List.map g l).
Proof. induction 1 as [|x l Hx _ IH]; simpl; [done|]. by rewrite Hx, IH. Qed.

Lemma emit_init_text node valExpr ctxExpr idPath guest level :
  emitInit node valExpr ctxExpr idPath guest level =
    concat (List.map (cb_text guest valExpr ctxExpr idPath level) (init_code idPath node)).
Proof.
  unfold init_code. revert valExpr ctxExpr idPath level. induction node as [st r cbs chs outs IH] using tree_induction.
  intros valExpr ctxExpr idPath level. cbn [emitInit cb_code]. rewrite map_app, concat_app, !map_map. f_equal.
  - apply concat_map_ext, Forall_forall. intros [name child] Hin. rewrite Forall_forall in IH.
    specialize (IH _ Hin). cbn [snd] in IH. cbn [cb_text]. rewrite IH. unfold by_value. done.
  - apply concat_map_ext, Forall_forall. by intros [name callee] _.
Qed.

Lemma emit_fini_text node valExpr ctxExpr idPath guest level :
  emitFini node valExpr ctxExpr idPath level =
    concat (List.map (cb_text guest valExpr ctxExpr idPath level) (fini_code idPath node)).
Proof.
  unfold fini_code. revert valExpr ctxExpr idPath level. induction node as [st r cbs chs outs IH] using tree_induction.
  intros valExpr ctxExpr idPath level. cbn [emitFini cb_code]. rewrite map_app, concat_app, !map_map. f_equal.
  - apply concat_map_ext, Forall_forall. intros [name child] Hin. rewrite Forall_forall in IH.
    specialize (IH _ Hin). cbn [snd] in IH. cbn [cb_text]. rewrite IH. unfold by_value. done.
  - apply concat_map_ext, Forall_forall. by intros [name callee] _.
Qed.

(** ** The programs visit the callbacks *)

Lemma fold_left_concat {A B} (f : A → B → A) (l : list (list B)) (a : A) :
  fold_left f (concat l) a = fold_left (λ a x, fold_left f x a) l a.
Proof using. clear. revert a. induction l as [|x l IH]; intros a; simpl; [done|]. by rewrite fold_left_app, IH. Qed.

Lemma fold_left_map_ext {A B C} (f : A → C → A) (g : A → B → A) (h : B → C) (l : list B) (a : A) :
  Forall (λ x, ∀ a, f a (h x) = g a x) l → fold_left f (List.map h l) a = fold_left g l a.
Proof using. clear. intros Hl. revert a. induction Hl as [|x l Hx _ IH]; intros a; simpl; [done|]. by rewrite Hx, IH. Qed.

Definition visit_init (E : CbEnv) (st : run CbState) (v : Visit) : run CbState :=
  st ← st; run_init E v.1.2 v.1.1 v.2 st.
Definition visit_fini (st : run CbState) (v : Visit) : run CbState := st ← st; run_fini v.1.1 st.

(** The pointers are as they were. *)
Definition keeps (P : Pointers) (r : run CbState) : Prop :=
  match r with Done st => pointers st = P | _ => True end.

(** A step of the programs: it goes on from a state, with the same pointers. *)
Record cb_step (step : run CbState → Visit → run CbState) : Prop := MkCbStep {
  step_keeps P r v : keeps P r → keeps P (step r v);
  step_stuck r v : (∀ st, r ≠ Done st) → step r v = r
}.

Lemma fold_keeps step P vs r : cb_step step → keeps P r → keeps P (fold_left step vs r).
Proof using.
  clear. intros Hs. revert r. induction vs as [|v vs IH]; intros r Hr; [done|]. apply IH. by apply (step_keeps _ Hs).
Qed.

Lemma fold_stuck {B} (step : run CbState → B → run CbState) vs r :
  (∀ v, step r v = r) → fold_left step vs r = r.
Proof using. clear. intros Hs. induction vs as [|v vs IH]; [done|]. cbn [fold_left]. by rewrite Hs. Qed.

Lemma run_cb_stuck E loc path s r : (∀ st, r ≠ Done st) → run_cb E loc path r s = r.
Proof using. clear. intros Hr. destruct s; destruct r as [st| |]; by try destruct (Hr st). Qed.

Lemma visit_init_step E : cb_step (visit_init E).
Proof using.
  clear. split.
  - intros P [st| |] v; [|done..]. cbn [keeps visit_init mbind run_bind]. intros Hp. unfold run_init.
    destruct (slots st !! v.1.2); [|done]. cbn [defined mbind run_bind].
    by destruct (cb_init _ _ _ _) as [[ts c]| |].
  - intros [st| |] v Hr; [by destruct (Hr st)|done..].
Qed.

Lemma visit_fini_step : cb_step visit_fini.
Proof using.
  clear. split.
  - intros P [st| |] v; [|done..]. cbn [keeps visit_fini mbind run_bind run_fini].
    destruct (contexts st !! v.1.1) as [[k org]|]; [|done]. by case_match.
  - intros [st| |] v Hr; [by destruct (Hr st)|done..].
Qed.

(** Running a tree's code is a step for each callback that is visited. *)
Lemma run_cb_code E leaf step P loc path idPath node vs r :
  (∀ loc path idPath name st,
     run_cb E loc path st (leaf idPath name) = step st (path ++ [name], (loc, name), allocator_name idPath name)) →
  cb_step step → keeps P r → visits P loc path idPath node = Some vs →
  fold_left (run_cb E loc path) (cb_code leaf idPath node) r = fold_left step vs r.
Proof using.
  intros Hleaf Hstep. revert loc path idPath vs r. induction node as [s ra cbs chs outs IH] using tree_induction.
  intros loc path idPath vs r Hr. cbn [cb_code visits]. rewrite fold_left_app.
  destruct (join_all _) as [ws|] eqn:Hws; cbn [mbind option_bind]; [|done]. intros [= <-]. rewrite fold_left_app.
  assert (fold_left (run_cb E loc path) (List.map (λ '(name, child),
    CB_child (reach child) name (cb_code leaf (child_id idPath name) child)) chs) r = fold_left step ws r) as ->.
  { revert ws r Hr Hws. induction IH as [|[name child] chs Hc _ IHc]; intros ws r Hr; cbn [List.map join_all foldr].
    { by intros [= <-]. }
    destruct (child_loc P loc (reach child) name) as [l|] eqn:Hl; cbn [mbind option_bind]; [|done].
    destruct (match l with Some l => visits P l _ _ child | None => Some [] end) as [us|] eqn:Hu; cbn [mbind option_bind]; [|done].
    change (foldr _ (Some []) ?x) with (join_all x).
    destruct (join_all _) as [ws'|] eqn:Hws'; cbn [mbind option_bind]; [|done]. intros [= <-].
    rewrite fold_left_app. cbn [fold_left]. cbn [snd] in Hc.
    assert (run_cb E loc path r (CB_child (reach child) name (cb_code leaf (child_id idPath name) child)) = fold_left step us r) as ->.
    { destruct r as [st| |].
      - cbn [keeps] in Hr. cbn [run_cb mbind run_bind]. rewrite Hr, Hl. cbn [defined mbind run_bind].
        destruct l as [l|]; [by apply Hc|]. by injection Hu as <-.
      - rewrite fold_stuck; [done|]. intros v. by apply (step_stuck _ Hstep).
      - rewrite fold_stuck; [done|]. intros v. by apply (step_stuck _ Hstep). }
    apply IHc; [by apply fold_keeps|done]. }
  generalize (fold_left step ws r) as r'. clear -Hleaf. induction cbs as [|[name callee] cbs IH]; intros r'; [done|].
  cbn [List.map fold_left]. rewrite Hleaf. apply IH.
Qed.

Lemma run_init_code E loc idPath node st vs :
  visits (pointers st) loc [] idPath node = Some vs →
  run_code E loc (init_code idPath node) st = fold_left (visit_init E) vs (Done st).
Proof using. intros Hv. eapply run_cb_code; [done|apply visit_init_step|by cbn|done]. Qed.

Lemma run_fini_code E loc idPath node st vs :
  visits (pointers st) loc [] idPath node = Some vs →
  run_code E loc (fini_code idPath node) st = fold_left visit_fini vs (Done st).
Proof using. intros Hv. eapply run_cb_code; [done|apply visit_fini_step|by cbn|done]. Qed.

(** ** What the visits do *)

Lemma fold_init_stop E vs (r : run CbState) : (∀ st, r ≠ Done st) → fold_left (visit_init E) vs r = r.
Proof using. clear. intros Hr. apply fold_stuck. intros v. by apply (step_stuck _ (visit_init_step E)). Qed.

Lemma init_all_ext E m1 m2 ts vs :
  (∀ v, v ∈ vs → m1 !! visit_slot v = m2 !! visit_slot v) → init_all E m1 ts vs = init_all E m2 ts vs.
Proof using.
  clear. revert ts. induction vs as [|v vs IH]; intros ts Hm; [done|]. cbn [init_all].
  rewrite (Hm v) by by left. destruct (m2 !! visit_slot v); [|done]. cbn [defined mbind run_bind].
  destruct (cb_init _ _ _ _) as [[ts' c]| |]; [|done|done]. cbn [mbind run_bind].
  rewrite IH; [done|]. intros v' Hv'. apply Hm. by right.
Qed.

Lemma init_all_visits E m ts vs ts' cs : init_all E m ts vs = Done (ts', cs) → cs.*1 = vs.
Proof using.
  clear. revert ts cs. induction vs as [|v vs IH]; intros ts cs; cbn [init_all]; [by intros [= _ <-]|].
  destruct (m !! visit_slot v); [|done]. cbn [defined mbind run_bind].
  destruct (cb_init _ _ _ _) as [[ts1 c]| |]; [|done|done]. cbn [mbind run_bind].
  destruct (init_all E m ts1 vs) as [[ts2 cs']| |] eqn:Hi; [|done|done]. cbn [mbind run_bind].
  intros [= <- <-]. rewrite fmap_cons. f_equal. by eapply IH.
Qed.

Lemma init_all_fini E m ts vs ts' cs :
  init_all E m ts vs = Done (ts', cs) →
  Forall (λ vc, m !! visit_slot vc.1 = Some (callback_fini vc.2)) cs.
Proof using.
  clear. revert ts cs. induction vs as [|v vs IH]; intros ts cs; cbn [init_all]; [intros [= _ <-]; constructor|].
  destruct (m !! visit_slot v) as [x|] eqn:Hx; [|done]. cbn [defined mbind run_bind].
  destruct (cb_init _ _ _ _) as [[ts1 c]| |] eqn:Hc; [|done|done]. cbn [mbind run_bind].
  destruct (init_all E m ts1 vs) as [[ts2 cs']| |] eqn:Hi; [|done|done]. cbn [mbind run_bind].
  intros [= <- <-]. constructor; [|by eapply IH]. cbn [fst snd]. rewrite Hx. f_equal.
  symmetry. eapply callback_restore, Hc.
Qed.

Lemma keyed_fst {A B} (f : Visit → A) (g : Visit * CallbackContext → B) cs :
  ((λ vc, (f vc.1, g vc)) <$> cs).*1 = f <$> cs.*1.
Proof using. clear. by rewrite <- !list_fmap_compose. Qed.

(** The slots are replaced one after the other as if at once, when no two meet. *)
Lemma fold_init E vs st :
  NoDup (visit_path <$> vs) → NoDup (visit_slot <$> vs) →
  fold_left (visit_init E) vs (Done st) =
    ('(ts, cs) ← init_all E (slots st) (tables st) vs; Done (initialised cs ts st)).
Proof using.
  clear. revert st. induction vs as [|v vs IH]; intros st Hp Hk.
  { cbn. unfold initialised. rewrite !fmap_nil, !list_to_map_nil, !(left_id_L ∅ (∪)). by destruct st. }
  rewrite fmap_cons in Hp. rewrite fmap_cons in Hk. apply NoDup_cons in Hp as [Hp1 Hp2]. apply NoDup_cons in Hk as [Hk1 Hk2].
  cbn [fold_left visit_init mbind run_bind init_all]. unfold run_init.
  change (v.1.2) with (visit_slot v). change (v.1.1) with (visit_path v).
  destruct (slots st !! visit_slot v) as [x|]; [|by apply fold_init_stop]. cbn [defined mbind run_bind].
  destruct (cb_init E v.2 (tables st) x) as [[ts c]| |]; [|by apply fold_init_stop..]. cbn [mbind run_bind].
  rewrite IH by done. cbn [slots tables].
  rewrite (init_all_ext E _ (slots st)).
  2: { intros v' Hv'. apply lookup_insert_ne. intros Heq. apply Hk1. rewrite Heq. by apply list_elem_of_fmap_2. }
  destruct (init_all E (slots st) ts vs) as [[ts' cs]| |] eqn:Hi; [|done|done]. cbn [mbind run_bind].
  apply init_all_visits in Hi. f_equal. unfold initialised. cbn [slots contexts]. rewrite !fmap_cons, !list_to_map_cons. f_equal.
  - rewrite <- insert_union_l. symmetry. apply insert_union_r, not_elem_of_list_to_map.
    by rewrite keyed_fst, Hi.
  - rewrite <- insert_union_l. symmetry. apply insert_union_r, not_elem_of_list_to_map.
    by rewrite keyed_fst, Hi.
Qed.

(** What is put back, by slot. *)
Lemma restored_lookup cs k x :
  NoDup (visit_slot <$> cs.*1) →
  restored cs !! k = Some x ↔ ∃ vc, vc ∈ cs ∧ visit_slot vc.1 = k ∧ org_fp vc.2 = x ∧ x ≠ 0%Z.
Proof using.
  clear. intros Hnd. unfold restored. rewrite <- elem_of_list_to_map.
  - rewrite list_elem_of_fmap. split.
    + intros (vc & [= -> ->] & [Hz Hin]%list_elem_of_filter). by exists vc.
    + intros (vc & Hin & <- & <- & Hz). exists vc. split; [done|]. by apply list_elem_of_filter.
  - rewrite keyed_fst. eapply sublist_NoDup; [exact Hnd|]. apply fmap_sublist, fmap_sublist, sublist_filter.
Qed.

Lemma met_NoDup vs cs : NoDup (visit_slot <$> cs.*1) → NoDup (visit_slot <$> (met vs cs).*1).
Proof using. clear. intros Hnd. eapply sublist_NoDup; [exact Hnd|]. apply fmap_sublist, fmap_sublist, sublist_filter. Qed.

Lemma met_elem vs cs vc : vc ∈ met vs cs ↔ visit_path vc.1 ∈ visit_path <$> vs ∧ vc ∈ cs.
Proof using. clear. unfold met. by rewrite list_elem_of_filter. Qed.

Lemma met_nil cs : met [] cs = [].
Proof using.
  clear. unfold met. induction cs as [|vc cs IH]; [done|]. rewrite filter_cons_False; [done|]. apply not_elem_of_nil.
Qed.

(** A path that is visited before the others: nothing new, or its original at its slot. *)
Lemma met_skip (v : Visit) (vs : list Visit) (cs : list (Visit * CallbackContext)) (m : gmap Slot Z) :
  NoDup (visit_slot <$> cs.*1) →
  (∀ vc, vc ∈ cs → visit_path vc.1 = visit_path v → org_fp vc.2 = 0%Z) →
  restored (met (v :: vs) cs) ∪ m = restored (met vs cs) ∪ m.
Proof using.
  clear. intros Hnd Hz. f_equal. apply map_eq. intros k. apply option_eq. intros x.
  rewrite !restored_lookup by by apply met_NoDup. setoid_rewrite met_elem. rewrite fmap_cons. setoid_rewrite elem_of_cons. split.
  - intros (vc & [[Hp|Hp] Hin] & Hk & Ho & Hx); [destruct Hx; rewrite <- Ho; by apply Hz|by exists vc].
  - intros (vc & [Hp Hin] & Hk). exists vc. split; [|done]. split; [by right|done].
Qed.

Lemma met_visit (v : Visit) (vc : Visit * CallbackContext) (vs : list Visit) (cs : list (Visit * CallbackContext)) (m : gmap Slot Z) :
  NoDup (visit_slot <$> cs.*1) → NoDup (visit_path <$> cs.*1) →
  vc ∈ cs → visit_path vc.1 = visit_path v → org_fp vc.2 ≠ 0%Z →
  restored (met (v :: vs) cs) ∪ m = restored (met vs cs) ∪ <[visit_slot vc.1 := org_fp vc.2]> m.
Proof using.
  clear. intros Hnd Hnp Hin Hp Hz. apply map_eq. intros k. apply option_eq. intros x.
  assert (∀ vc', vc' ∈ cs → visit_path vc'.1 = visit_path v → vc' = vc) as Huniq.
  { intros vc' Hin' Hp'. apply list_elem_of_lookup in Hin as [i Hi]. apply list_elem_of_lookup in Hin' as [j Hj].
    assert (i = j) as <-; [|congruence]. eapply (NoDup_lookup (visit_path <$> cs.*1)); [done|..].
    - by rewrite !list_lookup_fmap, Hi.
    - rewrite !list_lookup_fmap, Hj. cbn. by rewrite Hp, Hp'. }
  assert (restored (met (v :: vs) cs) !! visit_slot vc.1 = Some (org_fp vc.2)) as Hvc.
  { apply restored_lookup; [by apply met_NoDup|]. exists vc. rewrite met_elem, fmap_cons, Hp. split; [|done].
    split; [by left|done]. }
  assert (∀ k y, restored (met vs cs) !! k = Some y → restored (met (v :: vs) cs) !! k = Some y) as Hmono.
  { intros j y. rewrite !restored_lookup by by apply met_NoDup. intros (u & [Hu Hu']%met_elem & Hrest). exists u.
    rewrite met_elem, fmap_cons. split; [|done]. split; [by right|done]. }
  rewrite !lookup_union_Some_raw. destruct (decide (k = visit_slot vc.1)) as [->|Hk].
  - rewrite lookup_insert_eq, Hvc. split.
    + intros [?|[? _]]; [|done]. destruct (restored (met vs cs) !! _) as [y|] eqn:Hy; [|by right].
      left. apply Hmono in Hy. congruence.
    + intros [Hy|[_ Hy]]; [left; apply Hmono in Hy; congruence|by left].
  - rewrite lookup_insert_ne by done.
    assert (restored (met (v :: vs) cs) !! k = restored (met vs cs) !! k) as ->; [|done].
    apply option_eq. intros y. split; [|apply Hmono]. rewrite !restored_lookup by by apply met_NoDup.
    intros (u & [Hu Hu']%met_elem & Hslot & Hrest). exists u. split; [|done]. apply met_elem. split; [|done].
    rewrite fmap_cons in Hu. apply elem_of_cons in Hu as [Hu|Hu]; [|done]. destruct Hk. by rewrite <- Hslot, (Huniq u).
Qed.

(** The originals of the paths that are visited are put back as if at once. *)
Lemma fold_fini cs vs (st : CbState) :
  NoDup (visit_slot <$> cs.*1) → NoDup (visit_path <$> cs.*1) →
  contexts st = list_to_map ((λ vc, (visit_path vc.1, (visit_slot vc.1, org_fp vc.2))) <$> cs) →
  fold_left visit_fini vs (Done st) =
    Done (MkCbState (restored (met vs cs) ∪ slots st) (pointers st) (contexts st) (tables st)).
Proof using.
  clear. intros Hk Hp. revert st. induction vs as [|v vs IH]; intros st Hctx.
  { cbn [fold_left]. rewrite met_nil. change (restored []) with (∅ : gmap Slot Z). rewrite (left_id_L ∅ (∪)). by destruct st. }
  cbn [fold_left visit_fini mbind run_bind]. unfold run_fini. change (v.1.1) with (visit_path v).
  assert (NoDup ((λ vc, (visit_path vc.1, (visit_slot vc.1, org_fp vc.2))) <$> cs).*1) as Hnd by by rewrite keyed_fst.
  destruct (contexts st !! visit_path v) as [[k org]|] eqn:Hv; rewrite Hctx in Hv.
  - apply elem_of_list_to_map in Hv; [|done]. apply list_elem_of_fmap in Hv as (vc & [= Hpv -> ->] & Hin).
    destruct (Z.eqb_spec (org_fp vc.2) 0) as [Hz|Hz].
    + rewrite IH by done. f_equal. f_equal. symmetry. apply met_skip; [done|]. intros vc' Hin' Hp'.
      assert (vc' = vc) as ->; [|done]. apply list_elem_of_lookup in Hin as [i Hi]. apply list_elem_of_lookup in Hin' as [j Hj].
      assert (i = j) as <-; [|congruence]. eapply (NoDup_lookup (visit_path <$> cs.*1)); [done|..].
      * by rewrite !list_lookup_fmap, Hi.
      * rewrite !list_lookup_fmap, Hj. cbn. by rewrite Hp', Hpv.
    + rewrite IH by done. cbn [slots pointers contexts tables]. f_equal. f_equal. symmetry. by apply met_visit.
  - rewrite IH by done. f_equal. f_equal. symmetry. apply met_skip; [done|]. intros vc Hin Hpv.
    apply not_elem_of_list_to_map in Hv. destruct Hv. rewrite keyed_fst, <- Hpv. by apply list_elem_of_fmap_2, list_elem_of_fmap_2.
Qed.

(** What was recorded undoes what was replaced. *)
Lemma restored_initialised cs ts st :
  NoDup (visit_slot <$> cs.*1) →
  Forall (λ vc, slots st !! visit_slot vc.1 = Some (callback_fini vc.2)) cs →
  restored cs ∪ slots (initialised cs ts st) = slots st.
Proof using.
  clear. intros Hk. unfold initialised. cbn [slots]. induction cs as [|[v c] cs IH]; intros Hall.
  { change (restored []) with (∅ : gmap Slot Z). cbn. by rewrite !(left_id_L ∅ (∪)). }
  rewrite !fmap_cons in Hk. apply NoDup_cons in Hk as [Hk1 Hk2]. apply Forall_cons in Hall as [Hv Hall].
  cbn [fst snd] in *. specialize (IH Hk2 Hall).
  assert (visit_slot v ∉ ((λ vc, (visit_slot vc.1, org_fp vc.2)) <$> filter (λ vc, org_fp vc.2 ≠ 0%Z) cs).*1) as Hnew.
  { rewrite keyed_fst. intros (v' & Hx & (vc & -> & [_ Hin]%list_elem_of_filter)%list_elem_of_fmap)%list_elem_of_fmap.
    apply Hk1. rewrite Hx. by apply list_elem_of_fmap_2, list_elem_of_fmap_2. }
  rewrite fmap_cons, list_to_map_cons. cbn [fst snd]. rewrite <- insert_union_l.
  apply not_elem_of_list_to_map in Hnew. fold (restored cs) in Hnew. unfold restored, callback_fini in Hv |- *. destruct (Z.eqb_spec (org_fp c) 0) as [Hz|Hz].
  - rewrite filter_cons_False by (cbn [snd]; tauto).
    fold (restored cs). rewrite <- insert_union_r, IH by done. by apply insert_id.
  - rewrite filter_cons_True by done. rewrite fmap_cons, list_to_map_cons. cbn [fst snd].
    fold (restored cs). rewrite <- insert_union_l, <- insert_union_r, IH, insert_insert_eq by done. by apply insert_id.
Qed.

(** ** The paths visited are those of the tree *)

Lemma sublist_concat {A B} (f g : A → list B) (l : list A) :
  Forall (λ x, f x `sublist_of` g x) l → concat (List.map f l) `sublist_of` concat (List.map g l).
Proof using. clear. induction 1; simpl; [constructor|]. by apply sublist_app. Qed.

Lemma concat_fmap {A B C} (h : B → C) (f : A → list B) (l : list A) :
  h <$> concat (List.map f l) = concat (List.map (λ x, h <$> f x) l).
Proof using. clear. induction l as [|x l IH]; simpl; [done|]. by rewrite fmap_app, IH. Qed.

Lemma visits_paths P loc path idPath node vs :
  visits P loc path idPath node = Some vs →
  visit_path <$> vs `sublist_of` (λ p, path ++ p.1) <$> tree_paths node.
Proof using.
  revert loc path idPath vs. induction node as [st r cbs chs outs IH] using tree_induction.
  intros loc path idPath vs. cbn [visits tree_paths]. destruct (join_all _) as [ws|] eqn:Hws; cbn [mbind option_bind]; [|done].
  intros [= <-]. rewrite !fmap_app, concat_fmap. apply sublist_app.
  - revert ws Hws. induction IH as [|[name child] chs Hc _ IHc]; intros ws; cbn [List.map join_all foldr concat].
    { intros [= <-]. constructor. }
    destruct (child_loc P loc (reach child) name) as [l|]; cbn [mbind option_bind]; [|done].
    destruct (match l with Some l => visits P l _ _ child | None => Some [] end) as [us|] eqn:Hu; cbn [mbind option_bind]; [|done].
    change (foldr _ (Some []) ?x) with (join_all x).
    destruct (join_all _) as [ws'|] eqn:Hws'; cbn [mbind option_bind]; [|done]. intros [= <-].
    rewrite fmap_app. apply sublist_app; [|by apply IHc]. cbn [snd] in Hc. rewrite <- list_fmap_compose.
    replace (((λ p : list str * QualType, path ++ p.1) ∘ λ p, (name :: p.1, p.2)) <$> tree_paths child)
      with ((λ p : list str * QualType, (path ++ [name]) ++ p.1) <$> tree_paths child).
    2: { apply list_fmap_ext. intros _ p _. cbn. by rewrite <- app_assoc. }
    destruct l as [l|]; [by eapply Hc|]. injection Hu as <-. apply sublist_nil_l.
  - rewrite <- list_fmap_compose.
    clear IH. induction cbs as [|[name callee] cbs IH]; simpl; [constructor|]. by constructor.
Qed.

Lemma visits_NoDup P loc idPath node vs :
  visits P loc [] idPath node = Some vs → NoDup (tree_paths node).*1 → NoDup (visit_path <$> vs).
Proof using. intros Hv Hnd. eapply sublist_NoDup; [exact Hnd|]. exact (visits_paths P loc [] idPath node vs Hv). Qed.

(** C5: the code around the call substitutes and restores the callbacks.  What the emitters
    write is the text of two programs.  The first runs [CallbackContext::init] on the
    callbacks that the arguments lead to, each on the value its slot had before, and does
    nothing else.  The second reads the pointers again: whatever the call wrote to slots and
    pointers meanwhile, it puts back, where they were taken, exactly the originals that were
    recorded for the paths that still lead somewhere, and leaves everything else.  So the
    original of a path on which the call cleared a pointer is lost, and when every path is
    still there and the call wrote no slot, every slot is back to what it was.  The
    condition is that no two paths lead to the same slot. *)
Theorem callbacks_restored (E : CbEnv) (node : CallbackTree) (name : str) (loc : Loc)
    (before : gmap Slot Z) (P : Pointers) (ts0 : gmap nat FunctionTrampolineTable) (vs : list Visit) :
  let st := MkCbState before P ∅ ts0 in
  visits P loc [] name node = Some vs → NoDup (tree_paths node).*1 → NoDup (visit_slot <$> vs) →
  emitInit node [] ($"ctx.") name (cb_guest E) 2 =
    concat (List.map (cb_text (cb_guest E) [] ($"ctx.") name 2) (init_code name node)) ∧
  emitFini node [] ($"ctx.") name 2 =
    concat (List.map (cb_text (cb_guest E) [] ($"ctx.") name 2) (fini_code name node)) ∧
  run_code E loc (init_code name node) st =
    ('(ts, cs) ← init_all E before ts0 vs; Done (initialised cs ts st)) ∧
  ∀ ts cs, init_all E before ts0 vs = Done (ts, cs) →
    cs.*1 = vs ∧
    (∀ slots' P' ts' vs', visits P' loc [] name node = Some vs' →
       run_code E loc (fini_code name node) (MkCbState slots' P' (contexts (initialised cs ts st)) ts') =
         Done (MkCbState (restored (met vs' cs) ∪ slots') P' (contexts (initialised cs ts st)) ts') ∧
       (∀ v, v ∈ vs → visit_path v ∉ visit_path <$> vs' →
          (restored (met vs' cs) ∪ slots') !! visit_slot v = slots' !! visit_slot v) ∧
       ((∀ v, v ∈ vs → visit_path v ∈ visit_path <$> vs') → met vs' cs = cs)) ∧
    restored cs ∪ slots (initialised cs ts st) = before.
Proof using.
  intros st Hv Hp Hk. split; [apply emit_init_text|]. split; [apply emit_fini_text|].
  pose proof (visits_NoDup P loc name node vs Hv Hp) as Hvp.
  split; [rewrite (run_init_code E loc name node st vs Hv); by apply fold_init|].
  intros ts cs Hi. pose proof (init_all_visits _ _ _ _ _ _ Hi) as Hcs. split; [done|].
  assert (NoDup (visit_path <$> cs.*1) ∧ NoDup (visit_slot <$> cs.*1)) as [Hcp Hck] by by rewrite Hcs. split.
  - intros slots' P' ts' vs' Hv'. split; [|split].
    + rewrite (run_fini_code E loc name node (MkCbState slots' P' _ ts') vs' Hv'), (fold_fini cs); [done|done|done|].
      cbn [contexts initialised st]. by rewrite (right_id_L ∅ (∪)).
    + intros v Hin Hlost. rewrite lookup_union_r; [done|].
      apply eq_None_not_Some. intros [x (vc & [Hm Hvc]%met_elem & Hs & _)%restored_lookup]; [|by apply met_NoDup].
      assert (vc.1 = v) as Heq; [|by rewrite <- Heq in Hlost]. rewrite <- Hcs in Hin.
      apply list_elem_of_lookup in Hin as [i Hi']. apply (list_elem_of_fmap_2 fst), list_elem_of_lookup in Hvc as [j Hj].
      assert (i = j) as <-; [|congruence]. eapply (NoDup_lookup (visit_slot <$> cs.*1)); [done|..].
      * by rewrite list_lookup_fmap, Hi'.
      * rewrite list_lookup_fmap, Hj. cbn. by rewrite Hs.
    + intros Hall. rewrite <- Hcs in Hall. unfold met. clear -Hall. induction cs as [|vc cs IH]; [done|].
      rewrite filter_cons_True by (apply Hall; by left). f_equal. apply IH. intros v Hin. apply Hall. by right.
  - apply restored_initialised; [done|]. by eapply init_all_fini.
Qed.

(** ** Two paths to the same callback *)

Definition shared_tree (a b m : str) (callee : QualType) : CallbackTree :=
  let leaf := MkTree HasCallbacks ByPointer [(m, callee)] [] [] in
  MkTree HasCallbacks ByValue [] [(a, leaf); (b, leaf)] [].

(** Two pointer arguments that lead to the same structure: its callback is wrapped
    twice, and as the originals are put back in the order in which they were taken, the
    caller's slot ends as the trampoline of its function, not as the function. *)
Theorem aliased_not_restored (E : CbEnv) (a b m name : str) (callee : QualType) (loc l : Loc) (st : CbState) (g : Z) :
  let allocator x := allocator_name (child_id name x) m in
  let k : Slot := (l, m) in
  disjoint_stubs (cb_mmap E) kMaxCallbackTrampolineCount → null_not_stub (cb_mmap E) →
  tables_wf (cb_mmap E) (cb_handler E) kMaxCallbackTrampolineCount (tables st) →
  cb_guest E = true → cb_isHost E g = false → g ≠ 0%Z → unwrapTrampoline (cb_probe E) (tables st) g = g →
  a ≠ b → pointers st !! (loc, a) = Some (Some l) → pointers st !! (loc, b) = Some (Some l) → slots st !! k = Some g →
  key_of E (allocator b) = key_of E (allocator a) →
  (g ∈ saved (table_of (cb_mmap E) (cb_handler E) kMaxCallbackTrampolineCount (tables st) (key_of E (allocator a))) ∨
   0%Z ∈ saved (table_of (cb_mmap E) (cb_handler E) kMaxCallbackTrampolineCount (tables st) (key_of E (allocator a)))) →
  ∃ ts stub st' st'',
    run_code E loc (init_code name (shared_tree a b m callee)) st = Done st' ∧
    run_code E loc (fini_code name (shared_tree a b m callee)) st' = Done st'' ∧
    allocCallbackTrampoline (cb_mmap E) (cb_handler E) kMaxCallbackTrampolineCount (tables st) (key_of E (allocator a)) g
      = Done (ts, stub) ∧
    call_stub ts stub = Some (g, cb_handler E (key_of E (allocator a))) ∧
    slots st'' = <[k := stub]> (slots st).
Proof using.
  intros allocator k Hdis Hnull Hwf Hguest Hhost Hg Hun Hab Ha Hb Hslot Hkey Hroom.
  destruct (alloc_spec _ _ (cb_probe E) _ (tables st) (key_of E (allocator a)) g Hdis Hnull Hwf Hg Hroom)
    as (ts & stub & Halloc & _ & Hcall & Hun' & Hne & Hagain & _).
  assert (cb_init E (allocator a) (tables st) g = Done (ts, MkCallbackContext stub g)) as Hi1.
  { unfold cb_init, callback_init. rewrite Hun, Hhost, Hguest. cbn [eqb negb]. by rewrite Halloc. }
  assert (cb_init E (allocator b) ts stub = Done (ts, MkCallbackContext stub stub)) as Hi2.
  { unfold cb_init, callback_init. rewrite Hun', Hhost, Hguest, Hkey. cbn [eqb negb]. by rewrite Hagain. }
  pose (st1 := MkCbState (<[k := stub]> (slots st)) (pointers st) (<[[a; m] := (k, g)]> (contexts st)) ts).
  pose (st2 := MkCbState (slots st1) (pointers st) (<[[b; m] := (k, stub)]> (contexts st1)) ts).
  assert (run_init E k [a; m] (allocator a) st = Done st1) as Hr1.
  { unfold run_init. rewrite Hslot. cbn [defined mbind run_bind]. by rewrite Hi1. }
  assert (run_init E k [b; m] (allocator b) st1 = Done st2) as Hr2.
  { unfold run_init, st1. cbn [slots tables]. rewrite lookup_insert_eq. cbn [defined mbind run_bind].
    rewrite Hi2. cbn. by rewrite insert_insert_eq. }
  pose (st3 := MkCbState (<[k := g]> (slots st2)) (pointers st) (contexts st2) ts).
  pose (st4 := MkCbState (<[k := stub]> (slots st3)) (pointers st) (contexts st2) ts).
  assert (run_fini [a; m] st2 = Done st3) as Hr3.
  { unfold run_fini, st2, st1. cbn [contexts]. rewrite lookup_insert_ne, lookup_insert_eq by (intros [=]; done).
    by rewrite (proj2 (Z.eqb_neq g 0)). }
  assert (run_fini [b; m] st3 = Done st4) as Hr4.
  { unfold run_fini, st3, st2. cbn [contexts]. rewrite lookup_insert_eq. by rewrite (proj2 (Z.eqb_neq stub 0)). }
  exists ts, stub, st2, st4.
  assert (visits (pointers st) loc [] name (shared_tree a b m callee) =
    Some [([a; m], k, allocator a); ([b; m], k, allocator b)]) as Hv.
  { cbn. by rewrite Ha, Hb. }
  rewrite (run_init_code _ _ _ _ st _ Hv), (run_fini_code _ _ _ _ st2 _ Hv).
  cbn [fold_left visit_init visit_fini mbind run_bind fst snd]. rewrite Hr1. cbn [mbind run_bind].
  rewrite Hr2, Hr3. cbn [mbind run_bind]. rewrite Hr4. do 4 (split; [done|]).
  unfold st4, st3, st2, st1. cbn [slots]. by rewrite !insert_insert_eq.
Qed.

(** ** The names of the allocators *)

Definition separator : str := $"____".

(** A member's name that has no separator in it and does not end in an underscore. *)
Definition plain_name (name : str) : Prop :=
  (∀ x y, name ≠ x ++ separator ++ y) ∧ last name ≠ Some "_"%char.

(** A path's name. *)
Definition path_id (idPath : str) (path : list str) : str := fold_left child_id path idPath.
Definition path_allocator (idPath : str) (path : list str) : str := path_id idPath path ++ $"_xx_ThunkAlloc".

Lemma init_allocators_paths node idPath m :
  init_allocators node idPath m =
    fold_left (λ m p, emplace (path_allocator idPath p.1) p.2 m) (tree_paths node) m.
Proof using.
  revert idPath m. induction node as [st r cbs chs outs IH] using tree_induction.
  intros idPath m. cbn [init_allocators tree_paths]. rewrite fold_left_app, fold_left_concat.
  rewrite (fold_left_map_ext _ (λ m '(name, child), init_allocators child (child_id idPath name) m)).
  - generalize (fold_left (λ m '(name, child), init_allocators child (child_id idPath name) m) chs m) as m'. clear IH.
    induction cbs as [|[name callee] cbs IHc]; intros m'; [done|]. cbn [fold_left fmap list_fmap fst snd].
    unfold path_allocator at 2, allocator_name. cbn [path_id fold_left]. apply IHc.
  - rewrite Forall_forall in IH. apply Forall_forall. intros [name child] Hin m'. specialize (IH _ Hin). cbn [snd] in IH.
    rewrite IH. generalize (tree_paths child) m'. clear. intros l.
    induction l as [|[p c] l IHl]; intros m'; [done|]. cbn [fold_left fmap list_fmap fst snd]. rewrite IHl. done.
Qed.

Lemma fold_emplace {A B} (f : A → str) (g : A → B) (l : list A) m :
  NoDup (f <$> l) → (∀ x, x ∈ l → m !! f x = None) →
  ∀ k b, fold_left (λ m x, emplace (f x) (g x) m) l m !! k = Some b ↔
    m !! k = Some b ∨ ∃ x, x ∈ l ∧ k = f x ∧ b = g x.
Proof using.
  clear. revert m. induction l as [|x l IH]; intros m Hnd Hm k b.
  { split; [by left|]. intros [?|(x & Hx & _)]; [done|]. by apply not_elem_of_nil in Hx. }
  rewrite fmap_cons in Hnd. apply NoDup_cons in Hnd as [Hx Hnd]. cbn [fold_left].
  assert (emplace (f x) (g x) m = <[f x := g x]> m) as -> by (unfold emplace; by rewrite Hm by left).
  rewrite IH; [|done|].
  - destruct (decide (k = f x)) as [->|Hne].
    + rewrite lookup_insert_eq, (Hm x) by by left. split.
      * intros [[= <-]|(y & Hy & Heq & ->)]; right; [exists x|exists y]; (split; [by constructor|done]).
      * intros [?|(y & [->|Hy]%elem_of_cons & Heq & ->)]; [done|by left|].
        destruct Hx. rewrite Heq. by apply list_elem_of_fmap_2.
    + rewrite lookup_insert_ne by done. split.
      * intros [?|(y & Hy & Heq & ->)]; [by left|]. right. exists y. split; [by right|done].
      * intros [?|(y & [->|Hy]%elem_of_cons & Heq & ->)]; [by left|done|]. right. by exists y.
  - intros y Hy. rewrite lookup_insert_ne; [apply Hm; by right|].
    intros Heq. apply Hx. rewrite Heq. by apply list_elem_of_fmap_2.
Qed.

(** A plain name ends where the first separator begins. *)
Lemma separator_split a b x y :
  plain_name a → plain_name b → a ++ separator ++ x = b ++ separator ++ y → a = b ∧ x = y.
Proof using.
  clear. assert (∀ a b x y, plain_name a → plain_name b → a ++ separator ++ x = b ++ separator ++ y →
    length a ≤ length b → a = b ∧ x = y) as Hle.
  { clear. intros a b x y Ha [Hb1 Hb2] Heq Hle.
    apply app_eq_inv in Heq as [(d & Hab & Hd)|(d & Hab & Hd)].
    { assert (d = []) as ->.
      { apply (f_equal length) in Hab. rewrite length_app in Hab. destruct d; [done|simpl in Hab; lia]. }
      rewrite app_nil_r in Hab. split; [done|]. cbn in Hd. by injection Hd. }
    destruct d as [|c1 [|c2 [|c3 [|c4 d]]]]; cbn in Hd.
    - rewrite app_nil_r in Hab. split; [done|]. by injection Hd.
    - injection Hd as <- _. destruct Hb2. by rewrite Hab, last_app.
    - injection Hd as <- <- _. destruct Hb2. by rewrite Hab, last_app.
    - injection Hd as <- <- <- _. destruct Hb2. by rewrite Hab, last_app.
    - injection Hd as <- <- <- <- _. by destruct (Hb1 a d). }
  intros Ha Hb Heq. destruct (Nat.le_ge_cases (length a) (length b)); [by apply Hle|].
  destruct (Hle b a y x) as [-> ->]; [done..|]. done.
Qed.

Lemma path_id_cons idPath a p : path_id idPath (a :: p) = idPath ++ separator ++ a ++ path_id [] p.
Proof using.
  clear. assert (∀ q i, path_id i q = i ++ path_id [] q) as Hi.
  { induction q as [|b q IH] using rev_ind; intros i; cbn.
    - by rewrite app_nil_r.
    - unfold path_id in *. rewrite !fold_left_app. cbn. rewrite IH. unfold child_id. by rewrite !app_assoc. }
  unfold path_id at 1. cbn [fold_left]. fold (path_id (child_id idPath a) p). rewrite Hi. unfold child_id, separator.
  by rewrite <- !app_assoc.
Qed.

Lemma path_id_inj p q : Forall plain_name p → Forall plain_name q → path_id [] p = path_id [] q → p = q.
Proof using.
  clear. revert q. induction p as [|a p IH]; intros [|b q] Hp Hq; [done| | |].
  1,2: by rewrite path_id_cons.
  rewrite !path_id_cons. cbn [app separator]. intros Heq.
  apply Forall_cons in Hp as [Ha Hp]. apply Forall_cons in Hq as [Hb Hq].
  assert (a ++ path_id [] p = b ++ path_id [] q) as Heq' by (cbn in Heq; by injection Heq). clear Heq.
  assert (∀ r, path_id [] r = [] ∨ ∃ x, path_id [] r = separator ++ x) as Hform.
  { intros [|c r]; [by left|]. right. rewrite path_id_cons. by eexists. }
  destruct (Hform p) as [Hep|[x Hx]], (Hform q) as [Heq|[y Hy]].
  - rewrite Hep, Heq, !app_nil_r in Heq'. subst b. f_equal. apply IH; [done..|congruence].
  - rewrite Hep, Hy, app_nil_r in Heq'. by destruct Ha as [Ha _], (Ha b y).
  - rewrite Heq, Hx, app_nil_r in Heq'. destruct Hb as [Hb _]. by destruct (Hb a x).
  - rewrite Hx, Hy in Heq'. apply separator_split in Heq' as [-> Hxy]; [|done..].
    f_equal. apply IH; [done..|congruence].
Qed.

(** Each callback of a tree gets an allocator of its own, of its own type, and there
    is no other, when no member's name has four underscores in it or ends in one. *)
Theorem allocators_exact (node : CallbackTree) (name : str) :
  NoDup (tree_paths node).*1 → Forall (λ p, Forall plain_name p.1) (tree_paths node) →
  (∀ p c, (p, c) ∈ tree_paths node → init_allocators node name ∅ !! path_allocator name p = Some c) ∧
  (∀ allocator c, init_allocators node name ∅ !! allocator = Some c →
     ∃ p, (p, c) ∈ tree_paths node ∧ allocator = path_allocator name p) ∧
  ∀ p q c d, (p, c) ∈ tree_paths node → (q, d) ∈ tree_paths node →
    path_allocator name p = path_allocator name q → p = q.
Proof using.
  intros Hnd Hplain. rewrite Forall_forall in Hplain.
  assert (∀ p q c d, (p, c) ∈ tree_paths node → (q, d) ∈ tree_paths node →
    path_allocator name p = path_allocator name q → p = q) as Hinj.
  { intros p q c d Hp Hq Heq. apply (path_id_inj p q); [by apply (Hplain _ Hp)|by apply (Hplain _ Hq)|].
    unfold path_allocator in Heq. apply app_inv_tail in Heq. destruct p as [|a p], q as [|b q]; [done|..].
    - rewrite path_id_cons in Heq. cbn in Heq. apply (f_equal length) in Heq. rewrite length_app in Heq. cbn in Heq. lia.
    - rewrite path_id_cons in Heq. cbn in Heq. apply (f_equal length) in Heq. rewrite length_app in Heq. cbn in Heq. lia.
    - rewrite !path_id_cons in *. by apply app_inv_head in Heq. }
  assert (NoDup ((λ p, path_allocator name p.1) <$> tree_paths node)) as Hnd'.
  { change (NoDup ((path_allocator name ∘ fst) <$> tree_paths node)). rewrite list_fmap_compose. apply NoDup_fmap_2_strong; [|done].
    intros p q ([p' c] & -> & Hp)%list_elem_of_fmap ([q' d] & -> & Hq)%list_elem_of_fmap. by apply (Hinj _ _ c d). }
  assert (∀ k b, init_allocators node name ∅ !! k = Some b ↔
    (∅ : gmap str QualType) !! k = Some b ∨ ∃ x, x ∈ tree_paths node ∧ k = path_allocator name x.1 ∧ b = x.2) as Hspec.
  { intros k b. rewrite init_allocators_paths. apply fold_emplace; [done|]. intros x _. apply lookup_empty. }
  split; [|split; [|exact Hinj]].
  - intros p c Hin. apply Hspec. right. by exists (p, c).
  - intros allocator c [Hx|([p d] & Hin & -> & ->)]%Hspec; [by rewrite lookup_empty in Hx|]. by exists p.
Qed.
End substituter.

(** ** An example: the substitution for [api] of CallbackTree *)

Definition u_leaf (r : Reach) (cbs : list (str * UType)) (chs : list (str * @CallbackTree u_clang)) : @CallbackTree u_clang :=
  @MkTree u_clang HasCallbacks r cbs chs [].

(** The argument [n] leads to a structure with [ops] by value, and [f] is a callback. *)
Definition u_tree : @CallbackTree u_clang :=
  u_leaf ByValue [($"f", U_fn)] [($"n", u_leaf ByPointer [] [($"ops", u_leaf ByValue [($"open", U_fn)] [])])].

Example u_tree_built :
  (r ← @buildArgumentTree u_clang u_records ∅ (u_info [($"n", U_node_ptr); ($"f", U_fn_ptr)]); Done r.2) = Done u_tree.
Proof. vm_compute. reflexivity. Qed.

(** Guest functions are below 1000, the trampolines above. *)
Definition u_env : CbEnv :=
  MkCbEnv page page_handler (λ _, 0%Z) (λ a, 1000 <? a)%Z true (λ _, 0).
Definition u_loc : Loc := (0, []).
Definition u_to_node : gmap Slot (option Loc) := {[(u_loc, $"n") := Some (1, [])]}.
Definition u_slot_f : Slot := (u_loc, $"f").
Definition u_slot_open : Slot := ((1, [$"ops"]), $"open").
Definition u_slots : gmap Slot Z := <[u_slot_f := 77%Z]> (<[u_slot_open := 78%Z]> ∅).
Definition u_state : CbState := MkCbState u_slots u_to_node ∅ ∅.
Definition u_visits : list Visit :=
  [([$"n"; $"ops"; $"open"], u_slot_open, $"api____n____ops____open_xx_ThunkAlloc");
   ([$"f"], u_slot_f, $"api____f_xx_ThunkAlloc")].

(** The call sets the pointer [n] to null and the callback [f] to 5: the callback is
    restored, that of the node is lost. *)
Definition u_cleared : gmap Slot (option Loc) := {[(u_loc, $"n") := None]}.

Lemma callbacks_restored_witness :
  ∃ st' st'' lost, run_code u_env u_loc (init_code $"api" u_tree) u_state = Done st' ∧
    slots st' !! u_slot_f = Some (page 0 + 72)%Z ∧ slots st' !! u_slot_open = Some (page 0 + 16)%Z ∧
    run_code u_env u_loc (fini_code $"api" u_tree) st' = Done st'' ∧ slots st'' = u_slots ∧
    run_code u_env u_loc (fini_code $"api" u_tree)
      (MkCbState (<[u_slot_f := 5%Z]> (slots st')) u_cleared (contexts st') (tables st')) = Done lost ∧
    slots lost !! u_slot_f = Some 77%Z ∧ slots lost !! u_slot_open = Some (page 0 + 16)%Z.
Proof.
  destruct (callbacks_restored u_env u_tree $"api" u_loc u_slots u_to_node ∅ u_visits) as (_ & _ & Hrun & Hall).
  - vm_compute. reflexivity.
  - apply (bool_decide_unpack _). vm_compute. exact I.
  - apply (bool_decide_unpack _). vm_compute. exact I.
  - destruct (init_all u_env u_slots ∅ u_visits) as [[ts cs]| |] eqn:Hi; [|vm_compute in Hi; discriminate Hi..].
    destruct (Hall ts cs eq_refl) as (_ & Hfini & Hback). cbn [mbind run_bind] in Hrun.
    destruct (Hfini (slots (initialised cs ts u_state)) u_to_node ts u_visits) as (Hsame & _ & Hmet); [vm_compute; reflexivity|].
    destruct (Hfini (<[u_slot_f := 5%Z]> (slots (initialised cs ts u_state))) u_cleared ts (drop 1 u_visits))
      as (Hlost & Hgone & _); [vm_compute; reflexivity|].
    eexists (initialised cs ts u_state), _, _. split; [exact Hrun|].
    assert (∀ Q : CbState → Prop,
      (match run_code u_env u_loc (init_code $"api" u_tree) u_state with Done s => Q s | _ => False end) →
      Q (initialised cs ts u_state)) as Hst by (intros Q HQ; unfold u_state in HQ; by rewrite Hrun in HQ).
    split; [apply Hst; vm_compute; reflexivity|]. split; [apply Hst; vm_compute; reflexivity|].
    split; [exact Hsame|]. split; [cbn [slots]; rewrite Hmet; [exact Hback|by intros v Hv; apply list_elem_of_fmap_2]|].
    split; [exact Hlost|]. split; [clear -Hi; vm_compute in Hi; injection Hi as <- <-; vm_compute; reflexivity|].
    refine (eq_trans (Hgone ([$"n"; $"ops"; $"open"], u_slot_open, $"api____n____ops____open_xx_ThunkAlloc") _ _) _).
    + by left.
    + apply (bool_decide_unpack _). vm_compute. exact I.
    + apply Hst. vm_compute. reflexivity.
Defined.

(** Two pointers to one structure. *)
Definition u_both : gmap Slot (option Loc) := <[(u_loc, $"a") := Some (1, [])]> {[(u_loc, $"b") := Some (1, [])]}.

Lemma aliased_not_restored_witness :
  ∃ st' st'', run_code u_env u_loc (init_code $"api" (@shared_tree u_clang $"a" $"b" $"open" U_fn))
      (MkCbState {[((1, []), $"open") : Slot := 77%Z]} u_both ∅ ∅) = Done st' ∧
    run_code u_env u_loc (fini_code $"api" (@shared_tree u_clang $"a" $"b" $"open" U_fn)) st' = Done st'' ∧
    slots st'' !! (((1, []), $"open") : Slot) = Some (page 0 + 16)%Z.
Proof.
  destruct (aliased_not_restored (H := u_clang) u_env $"a" $"b" $"open" $"api" U_fn u_loc (1, [])
    (MkCbState {[((1, []), $"open") : Slot := 77%Z]} u_both ∅ ∅) 77%Z)
    as (ts & stub & st' & st'' & Hinit & Hfini & Halloc & _ & Hslots).
  all: try done.
  - exact page_disjoint.
  - exact page_null.
  - right. apply (bool_decide_unpack _). vm_compute. exact I.
  - exists st', st''. split; [exact Hinit|]. split; [exact Hfini|]. rewrite Hslots, lookup_insert_eq.
    vm_compute in Halloc. injection Halloc as _ <-. reflexivity.
Defined.

Lemma plain_by_search (name : str) :
  Forall (λ i, take 4 (drop i name) ≠ separator) (seq 0 (S (length name))) → last name ≠ Some "_"%char → plain_name name.
Proof.
  intros Hall Hl. split; [|done]. intros x y ->. rewrite Forall_forall in Hall.
  apply (Hall (length x)).
  - apply elem_of_seq. rewrite length_app. lia.
  - rewrite drop_app_length. done.
Qed.

Lemma allocators_exact_witness :
  init_allocators u_tree $"api" ∅ !! $"api____n____ops____open_xx_ThunkAlloc" = Some U_fn.
Proof.
  destruct (allocators_exact u_tree $"api") as (Hin & _ & _).
  - apply (bool_decide_unpack _). vm_compute. exact I.
  - repeat constructor; apply plain_by_search; apply (bool_decide_unpack _); vm_compute; exact I.
  - apply (Hin [$"n"; $"ops"; $"open"] U_fn). cbn. by left.
Defined.

(** With an underscore at the end of a name, two callbacks share an allocator: the second
    has the first's type. *)
Example allocator_collision :
  let tree := u_leaf ByValue [] [($"a", u_leaf ByPointer [($"_f", U_fn)] []);
                                 ($"a_", u_leaf ByPointer [($"f", U_api)] [])] in
  path_allocator $"api" [$"a"; $"_f"] = path_allocator $"api" [$"a_"; $"f"] ∧
  init_allocators tree $"api" ∅ !! path_allocator $"api" [$"a_"; $"f"] = Some U_fn.
Proof. split; vm_compute; reflexivity. Qed.

(** A member without a name, an anonymous structure, is written as if it had one. *)
Example anonymous_member :
  emitInit (u_leaf ByValue [] [($"n", u_leaf ByPointer [] [([], u_leaf ByValue [($"f", U_fn)] [])])]) [] $"ctx." $"api" true 0 =
  join [$"auto p_api____n = n;"; $"auto p_api____n_ctx = &ctx.n;"; $"if (p_api____n) {";
        $"    auto p_api____n____ = &p_api____n->;"; $"    auto p_api____n_____ctx = &p_api____n_ctx->;"; $"    if (1) {";
        $"        p_api____n_____ctx->f.init<true>((void *&) p_api____n____->f, allocCallbackTrampoline<api____n________f_xx_ThunkAlloc::invoke>);";
        $"    }"; $"}"; []] [c_nl].
Proof. vm_compute. reflexivity. Qed.
