(* ===== verification/StatCommand.v ===== *)
(** The statistics of a manifest: [src/tools/TLC/Commands/Stat.cpp].

    [collectCallbackSignatures] walks the types that a function or callback refers to and
    records every function pointer among them; the sections of the configuration say from
    where.  The theorems say that the walk ends and records exactly the function pointers
    that are reachable, that every configured function is either counted or missing, and
    that the callback substituter finds the type of every callback it wraps. *)

From stdpp Require Import gmap.
From S2P Require Import Prelude CppString Assoc StringExtras ConfigFile ManifestSummary ClangExtras Document.
From S2P Require Import PassTemplates ThunkCode CallbackTree CallbackSubstituter.

Section walk.
Context `{ClangRecords}.

(** ** The types a type refers to *)

(** What the walk pushes for a function's signature, with the origins. *)
Definition signature_children (fnType : QualType) (origin : str) : list (QualType * str) :=
  match function_type fnType with
  | Some (ret, params, _) =>
      (if isVoidType ret then [] else [(ret, origin ++ $"@ret")])
      ++ imap (λ i t, (t, origin ++ $"@arg" ++ dec (i + 1))) params
  | None => []
  end.

(** What it pushes for a canonical type. *)
Definition walk_children (type : QualType) (origin : str) : list (QualType * str) :=
  if isFunctionPointerType type then
    match pointee type with Some p => signature_children (getCanonicalType p) origin | None => [] end
  else
    match pointee type with
    | Some p => [(p, origin ++ $"@ptr")]
    | None =>
        match array_element type with
        | Some e => [(e, origin ++ $"@array")]
        | None =>
            match record_fields type with
            | Some fields => (λ f, (f.2, origin ++ $"@" ++ f.1)) <$> fields
            | None => []
            end
        end
    end.

(** The types alone. *)
Definition walk_types (type : QualType) : list QualType := (walk_children type []).*1.
End walk.

(** What the command asks of Clang besides: a function's location, the wrapper of a constant
    and the value of a literal; the finitely many canonical types of a unit. *)
Class ClangUnit `{ClangRecords} : Type := {
  fn_location : FunctionDecl → str;
  constantExpr : Expr → option Expr;
  stringLiteral : Expr → option str;
  unit_types : list QualType;
  unit_closed t t' : t ∈ unit_types → t' ∈ walk_types t → getCanonicalType t' ∈ unit_types
}.

Section stat.
Context `{ClangUnit}.

(** ** [collectCallbackSignatures] *)

(** The stack's top is the head of the list. *)
Fixpoint collect_loop (fuel : nat) (aliases : gmap str str) (seedOrigin preferredAlias : str) (visited : gset str)
    (stack : list (QualType * str)) (stat : ManifestSummary) : run ManifestSummary :=
  match stack with
  | [] => Done stat
  | (type, origin) :: stack =>
      match fuel with
      | 0 => NoFuel
      | S fuel =>
          let type := getCanonicalType type in
          typeStr ← getTypeString type;
          if bool_decide (typeStr ∈ visited) then
            collect_loop fuel aliases seedOrigin preferredAlias visited stack stat
          else
            let stat :=
              if isFunctionPointerType type then
                let alias :=
                  if negb (preferredAlias =s? []) && (origin =s? seedOrigin) then preferredAlias
                  else default [] (aliases !! typeStr) in
                addCallbackSignature typeStr origin alias stat
              else stat in
            collect_loop fuel aliases seedOrigin preferredAlias ({[typeStr]} ∪ visited)
              (reverse (walk_children type origin) ++ stack) stat
      end
  end.

(** Enough for each type of the unit to be walked once. *)
Definition unwalked (visited : gset str) (t : QualType) : nat :=
  if bool_decide (spelling t ∈ visited) then 0 else length (walk_types t).
Definition walk_fuel (n : nat) (visited : gset str) : nat := n + sum_list (unwalked visited <$> unit_types).

(** The stack the walk starts with; the head is its top. *)
Definition seed_stack (seedType : QualType) (seedOrigin : str) (includeSeed : bool) : list (QualType * str) :=
  if includeSeed then [(seedType, seedOrigin)]
  else
    let type := getCanonicalType seedType in
    if isFunctionPointerType type then
      match pointee type with
      | Some p => reverse (signature_children (getCanonicalType p) seedOrigin)
      | None => []
      end
    else [(type, seedOrigin)].

Definition collectCallbackSignatures (aliases : gmap str str) (seedType : QualType) (seedOrigin preferredAlias : str)
    (includeSeed : bool) (stat : ManifestSummary) : run ManifestSummary :=
  let stack := seed_stack seedType seedOrigin includeSeed in
  collect_loop (walk_fuel (length stack) ∅) aliases seedOrigin preferredAlias ∅ stack stat.

(** ** The matcher *)

(** A match: a specialization of one of the descriptor templates, a typedef or alias with
    its linkage specification, a function. *)
Inductive StatNode : Type :=
  | SN_procFnDescDecl (decl : Spec)
  | SN_procCbDescDecl (decl : Spec)
  | SN_aliasDecl (name : str) (linkage_spec : option bool) (underlying : QualType)
  | SN_functionDecl (fd : FunctionDecl)
  | SN_other.

(** Of a [ProcFnDescData] only the overlay's type is used. *)
Record StatState : Type := MkStatState {
  m_procFnDescDataMap : gmap str (option QualType);
  m_functionMap : gmap str FunctionDecl;
  m_functionPointerTypedefTypeMap : gmap str QualType;
  m_namedCallbackAliasMap : gmap str str;
  stat : ManifestSummary
}.

Definition with_stat (st : StatState) (s : ManifestSummary) : StatState :=
  MkStatState (m_procFnDescDataMap st) (m_functionMap st) (m_functionPointerTypedefTypeMap st)
    (m_namedCallbackAliasMap st) s.

(** [isCDecl] of [DeclUtils.h]. *)
Definition isCDecl (linkage_spec : option bool) : bool :=
  match linkage_spec with Some is_c => is_c | None => negb CPlusPlus end.

Fixpoint extractNameHint (members : list (Member QualType Expr)) : option str :=
  match members with
  | [] => None
  | M_Var true name _ (Some init) _ :: members =>
      if name =s? $"name" then
        let init := IgnoreParenImpCasts init in
        let init := match constantExpr init with Some sub => IgnoreParenImpCasts sub | None => init end in
        match stringLiteral init with
        | Some s => Some s
        | None => extractNameHint members
        end
      else extractNameHint members
  | _ :: members => extractNameHint members
  end.

Definition handleProcFnDesc (st : StatState) (decl : Spec) : StatState :=
  match explicit_args decl 1 with
  | Some [arg] =>
      match extractFunctionDeclFromTemplateArg arg with
      | Some fd =>
          MkStatState (<[fn_name fd := extractOverlayType (class_members decl)]> (m_procFnDescDataMap st))
            (m_functionMap st) (m_functionPointerTypedefTypeMap st) (m_namedCallbackAliasMap st) (stat st)
      | None => st
      end
  | _ => st
  end.

(** The warnings on the standard error are not modelled. *)
Definition handleProcCbDesc (st : StatState) (decl : Spec) : run StatState :=
  match explicit_args decl 1 with
  | Some [TA_Type t] =>
      let alias :=
        match extractNameHint (class_members decl) with
        | Some name => name
        | None => default [] ((λ d, d.1.2) <$> typedef_decl t)
        end in
      let type := getCanonicalType (function_to_pointer t) in
      if negb (isFunctionPointerType type) then Done st
      else
        signature ← getTypeString type;
        s ← collectCallbackSignatures (m_namedCallbackAliasMap st) type ($"ProcCbDesc<" ++ signature ++ $">") alias true
              (stat st);
        match extractOverlayType (class_members decl) with
        | Some overlay =>
            s ← collectCallbackSignatures (m_namedCallbackAliasMap st) overlay
                  ($"ProcCbDesc<" ++ signature ++ $">@overlay") [] true s;
            Done (with_stat st s)
        | None => Done (with_stat st s)
        end
  | _ => Done st
  end.

Definition stat_alias (st : StatState) (name : str) (linkage_spec : option bool) (underlying : QualType) : run StatState :=
  if negb (isCDecl linkage_spec) then Done st else
  let type := getCanonicalType underlying in
  if negb (isFunctionPointerType type) then Done st else
  typeStr ← getTypeString type;
  Done (MkStatState (m_procFnDescDataMap st) (m_functionMap st)
         (<[name := type]> (m_functionPointerTypedefTypeMap st)) (<[typeStr := name]> (m_namedCallbackAliasMap st)) (stat st)).

Definition stat_match (st : StatState) (n : StatNode) : run StatState :=
  match n with
  | SN_procFnDescDecl decl => Done (handleProcFnDesc st decl)
  | SN_procCbDescDecl decl => handleProcCbDesc st decl
  | SN_aliasDecl name linkage_spec underlying => stat_alias st name linkage_spec underlying
  | SN_functionDecl fd =>
      if negb (isCLinkage (fn_CLanguageLinkage fd) (fn_linkage_spec fd)) then Done st
      else Done (MkStatState (m_procFnDescDataMap st) (<[fn_name fd := fd]> (m_functionMap st))
                  (m_functionPointerTypedefTypeMap st) (m_namedCallbackAliasMap st) (stat st))
  | SN_other => Done st
  end.

(** ** The sections of the configuration *)

Definition add_missing (d : Direction) (name : str) (s : ManifestSummary) : ManifestSummary :=
  MkSummary (fileName s) (functions s)
    (set_dir (missingFunctions s) d ({[name]} ∪ at_dir (missingFunctions s) d)) (ManifestSummary.callbacks s).

(** One name of a section of functions. *)
Definition collect_function (st : StatState) (sectionName : str) (d : Direction) (name : str) (s : ManifestSummary) :
    run ManifestSummary :=
  match m_functionMap st !! name with
  | None => Done (add_missing d name s)
  | Some fd =>
      let funcPtrType := getPointerType (getCanonicalType (fn_type fd)) in
      let origin := $"Config[" ++ sectionName ++ $"]:" ++ name in
      s ← collectCallbackSignatures (m_namedCallbackAliasMap st) funcPtrType origin [] false
            (addFunction d (fn_name fd) (fn_location fd) s);
      match m_procFnDescDataMap st !! name with
      | Some (Some overlay) =>
          collectCallbackSignatures (m_namedCallbackAliasMap st) overlay (origin ++ $"@overlay") [] false s
      | _ => Done s
      end
  end.

Fixpoint foldM {A B} (f : B → A → run A) (l : list B) (a : A) : run A :=
  match l with [] => Done a | x :: l => a ← f x a; foldM f l a end.

Definition collectConfigFunctionSection (config : ConfigFile) (sectionName : str) (d : Direction) (st : StatState) :
    run StatState :=
  section ← config_get config sectionName;
  match section with
  | None => Done st
  | Some section => s ← foldM (collect_function st sectionName d) (section_keys section) (stat st); Done (with_stat st s)
  end.

(** One token of the section of callbacks. *)
Definition collect_callback (st : StatState) (token : str) (s : ManifestSummary) : run ManifestSummary :=
  let origin := $"Config[Callback]:" ++ token in
  match token with
  | [] => Done s
  | c :: name =>
      if c =c? "&"%char then
        match m_functionMap st !! name with
        | None => Done s
        | Some fd =>
            let fpType := getPointerType (getCanonicalType (fn_type fd)) in
            typeStr ← getTypeString fpType;
            let alias := match m_namedCallbackAliasMap st !! typeStr with
                         | Some alias => alias
                         | None => $"PFN_AUTO_" ++ name
                         end in
            collectCallbackSignatures (m_namedCallbackAliasMap st) fpType origin alias true s
        end
      else
        match m_functionPointerTypedefTypeMap st !! token with
        | None => Done s
        | Some type => collectCallbackSignatures (m_namedCallbackAliasMap st) type origin token true s
        end
  end.

Definition collectConfigCallbackSection (config : ConfigFile) (st : StatState) : run StatState :=
  section ← config_get config ($"Callback");
  match section with
  | None => Done st
  | Some section => s ← foldM (collect_callback st) (section_keys section) (stat st); Done (with_stat st s)
  end.

Definition collectConfigSeeds (config : ConfigFile) (st : StatState) : run StatState :=
  st ← collectConfigFunctionSection config ($"Function") GuestToHost st;
  st ← collectConfigFunctionSection config ($"Guest Function") HostToGuest st;
  collectConfigCallbackSection config st.

(** [HandleTranslationUnit] *)
Definition stat_HandleTranslationUnit (config : ConfigFile) (nodes : list StatNode) (s : ManifestSummary) :
    run ManifestSummary :=
  st ← foldM (λ n st, stat_match st n) nodes (MkStatState ∅ ∅ ∅ ∅ s);
  st ← collectConfigSeeds config st;
  Done (stat st).

#[local] Set Default Proof Using "All".

(** ** What the walk reaches *)

(** The types that seeds refer to, through function pointers' signatures, pointers, arrays
    and members. *)
Inductive refers (seeds : list QualType) : QualType → Prop :=
  | refers_seed t : t ∈ seeds → refers seeds (getCanonicalType t)
  | refers_next t t' : refers seeds t → t' ∈ walk_types t → refers seeds (getCanonicalType t').

(** The parts of [va_list] are left out: the walk never leaves them, and none is a pointer
    to a function. *)
Lemma va_list_pointer t : va_list_part t = true → isFunctionPointerType t = false.
Proof.
  intros Ht. rewrite function_pointer. destruct (pointee t) eqn:Hp; [|done].
  by eapply va_list_function, va_list_pointee.
Qed.

Lemma va_list_walk t t' :
  getCanonicalType t = t → va_list_part t = true → t' ∈ walk_types t → va_list_part (getCanonicalType t') = true.
Proof.
  intros Hc Ht. unfold walk_types, walk_children. rewrite (va_list_pointer t Ht).
  destruct (pointee t) as [p|] eqn:Hp.
  { cbn. intros ->%list_elem_of_singleton. rewrite (canonical_pointee t p) by done. by eapply va_list_pointee. }
  destruct (array_element t) as [e|] eqn:He.
  { cbn. intros ->%list_elem_of_singleton. rewrite (canonical_element t e) by done. by eapply va_list_element. }
  destruct (record_fields t) as [fields|] eqn:Hf; [|by intros ?%not_elem_of_nil].
  rewrite <- list_fmap_compose. intros Hin. by eapply (va_list_field t fields).
Qed.

Lemma refers_canonical seeds t : refers seeds t → getCanonicalType t = t.
Proof. destruct 1; apply canonical_idemp. Qed.

(** The same, away from some spellings. *)
Definition walked (V : gset str) (t : QualType) : Prop := (spelling t ∉ V) ∧ va_list_part t = false.

Inductive searched (V : gset str) (seeds : list QualType) : QualType → Prop :=
  | searched_seed t :
      t ∈ seeds → walked V (getCanonicalType t) → searched V seeds (getCanonicalType t)
  | searched_next t t' :
      searched V seeds t → t' ∈ walk_types t → walked V (getCanonicalType t') →
      searched V seeds (getCanonicalType t').

Lemma searched_empty seeds t : searched ∅ seeds t ↔ refers seeds t ∧ va_list_part t = false.
Proof.
  split.
  - induction 1 as [t Hin [_ Hp]|t t' _ [IH _] Hin [_ Hp]]; (split; [|done]); [by apply refers_seed|by eapply refers_next].
  - intros [Hr Hp]. induction Hr as [t Hin|t t' Hr IH Hin].
    + apply searched_seed; [done|]. split; [apply not_elem_of_empty|done].
    + eapply searched_next; [|done|split; [apply not_elem_of_empty|done]]. apply IH.
      destruct (va_list_part t) eqn:Ht; [|done].
      assert (va_list_part (getCanonicalType t') = true); [|congruence].
      by apply (va_list_walk t); [eapply refers_canonical|..].
Qed.

Lemma searched_mono V seeds seeds' t : (∀ x, x ∈ seeds → x ∈ seeds') → searched V seeds t → searched V seeds' t.
Proof.
  intros Hsub. induction 1 as [t Hin Hs|t t' _ IH Hin Hs]; [apply searched_seed; [by apply Hsub|done]|by eapply searched_next].
Qed.

Lemma refers_mono seeds seeds' t : (∀ x, x ∈ seeds → x ∈ seeds') → refers seeds t → refers seeds' t.
Proof.
  intros Hsub. induction 1 as [t Hin|t t' _ IH Hin]; [apply refers_seed; by apply Hsub|by eapply refers_next].
Qed.

Lemma searched_skip V t stack x :
  spelling (getCanonicalType t) ∈ V → searched V (t :: stack) x ↔ searched V stack x.
Proof.
  intros Hs. split; [|apply searched_mono; intros y Hy; by right].
  induction 1 as [u [->|Hin]%elem_of_cons Hu|u u' _ IH Hin Hu]; [by destruct Hu|by apply searched_seed|by eapply searched_next].
Qed.

(** A step of the search. *)
Lemma searched_step V t stack pushed x :
  (∀ u, u ∈ pushed ↔ u ∈ walk_types (getCanonicalType t)) → spelling (getCanonicalType t) ∉ V →
  searched V (t :: stack) x ↔
    (va_list_part (getCanonicalType t) = false ∧ x = getCanonicalType t) ∨
    searched ({[spelling (getCanonicalType t)]} ∪ V) (pushed ++ stack) x.
Proof.
  intros Hpushed Hs. split.
  - assert (∀ u, walked V (getCanonicalType u) → getCanonicalType u = getCanonicalType t ∨
      walked ({[spelling (getCanonicalType t)]} ∪ V) (getCanonicalType u)) as Hcase.
    { intros u [Hu Hp]. destruct (decide (spelling (getCanonicalType u) = spelling (getCanonicalType t))) as [Heq|Hne].
      - left. symmetry. apply same_spelling; [apply canonical_idemp..|by rewrite Heq|done].
      - right. split; [set_solver|done]. }
    induction 1 as [u [->|Hin]%elem_of_cons Hu|u u' _ IH Hin Hu]; [left; split; [apply Hu|done]| |].
    + destruct (Hcase u Hu) as [He|Hn].
      * left. rewrite <- He. split; [apply Hu|done].
      * right. apply searched_seed; [apply elem_of_app; by right|done].
    + destruct (Hcase u' Hu) as [He|Hn]; [left; rewrite <- He; split; [apply Hu|done]|]. right. destruct IH as [[_ ->]|IH].
      * apply searched_seed; [|done]. apply elem_of_app. left. by apply Hpushed.
      * by eapply searched_next.
  - assert (∀ u, walked ({[spelling (getCanonicalType t)]} ∪ V) (getCanonicalType u) → walked V (getCanonicalType u)) as Hless.
    { intros u [Hu Hp]. split; [set_solver|done]. }
    intros [[Hp ->]|Hx]; [apply searched_seed; [by left|done]|].
    induction Hx as [u [Hin|Hin]%elem_of_app Hu|u u' _ IH Hin Hu].
    + apply Hpushed in Hin. eapply searched_next; [apply (searched_seed _ _ t); [by left|]|done|by apply Hless].
      split; [done|]. destruct (va_list_part (getCanonicalType t)) eqn:Ht; [|done].
      destruct Hu as [_ Hu]. rewrite (va_list_walk (getCanonicalType t) u) in Hu; [done|apply canonical_idemp|done..].
    + apply searched_seed; [by right|by apply Hless].
    + eapply searched_next; [exact IH|done|by apply Hless].
Qed.

(** ** The walk is exact *)

Lemma signature_types fn o o' : (signature_children fn o).*1 = (signature_children fn o').*1.
Proof.
  unfold signature_children. destruct (function_type fn) as [[[ret params] ?]|]; [|done].
  rewrite !fmap_app. f_equal; [by destruct (isVoidType ret)|]. apply list_eq. intros i.
  by rewrite !list_lookup_fmap, !list_lookup_imap, <- !option_fmap_compose.
Qed.

Lemma walk_children_types t o : (walk_children t o).*1 = walk_types t.
Proof.
  unfold walk_types, walk_children. destruct (isFunctionPointerType t).
  - destruct (pointee t); [apply signature_types|done].
  - destruct (pointee t); [done|]. destruct (array_element t); [done|]. destruct (record_fields t); [|done].
    by rewrite <- !list_fmap_compose.
Qed.

Lemma unwalked_le V s t : unwalked ({[s]} ∪ V) t ≤ unwalked V t.
Proof. unfold unwalked. repeat case_bool_decide; [lia|lia| |lia]. set_solver. Qed.

Lemma unwalked_sum_le (l : list QualType) V s : sum_list (unwalked ({[s]} ∪ V) <$> l) ≤ sum_list (unwalked V <$> l).
Proof.
  induction l as [|t l IH]; [done|]. rewrite !fmap_cons. simpl. pose proof (unwalked_le V s t). simpl in IH. lia.
Qed.

Lemma walk_fuel_step t V n :
  t ∈ unit_types → spelling t ∉ V →
  walk_fuel (length (walk_types t) + n) ({[spelling t]} ∪ V) < walk_fuel (S n) V.
Proof.
  unfold walk_fuel. intros Hin Hs.
  assert (length (walk_types t) + sum_list (unwalked ({[spelling t]} ∪ V) <$> unit_types) ≤
    sum_list (unwalked V <$> unit_types)); [|lia].
  revert Hin. induction unit_types as [|u l IH]; [by intros ?%not_elem_of_nil|].
  rewrite !fmap_cons. simpl. pose proof (unwalked_sum_le l V (spelling t)) as Hle. simpl in Hle.
  intros [<-|Hin]%elem_of_cons.
  - assert (unwalked ({[spelling t]} ∪ V) t = 0) as -> by (unfold unwalked; rewrite bool_decide_true; [done|set_solver]).
    assert (unwalked V t = length (walk_types t)) as -> by (unfold unwalked; by rewrite bool_decide_false). lia.
  - specialize (IH Hin). pose proof (unwalked_le V (spelling t) u). simpl in IH. lia.
Qed.

(** What the walk leaves as it was. *)
Definition same_functions (s s' : ManifestSummary) : Prop :=
  functions s' = functions s ∧ missingFunctions s' = missingFunctions s ∧ fileName s' = fileName s ∧
  (summary_wf s → summary_wf s').

Definition registered (s : ManifestSummary) (sig : str) : Prop := is_Some (ManifestSummary.callbacks s !! sig).

Lemma registered_add sig org al s sig' :
  registered (addCallbackSignature sig org al s) sig' ↔ registered s sig' ∨ sig' = sig.
Proof.
  clear. unfold registered, addCallbackSignature. cbn [ManifestSummary.callbacks].
  destruct (decide (sig' = sig)) as [->|Hne]; [rewrite lookup_insert_eq|rewrite lookup_insert_ne by done]; naive_solver.
Qed.

Lemma collect_loop_spec aliases seedOrigin preferredAlias fuel V stack s :
  walk_fuel (length stack) V ≤ fuel → Forall (λ t, getCanonicalType t ∈ unit_types) stack.*1 →
  ∃ s', collect_loop fuel aliases seedOrigin preferredAlias V stack s = Done s' ∧ same_functions s s' ∧
    ∀ sig, registered s' sig ↔
      registered s sig ∨ ∃ t, searched V stack.*1 t ∧ isFunctionPointerType t = true ∧ spelling t = sig.
Proof.
  revert V stack s. induction fuel as [|fuel IH]; intros V [|[t origin] stack] s Hfuel Hunit.
  1, 3: exists s; split; [done|]; split; [done|]; intros sig; split; [by left|];
    intros [?|(t & Ht & _)]; [done|]; exfalso; clear -Ht; induction Ht as [t Hin|t t' _ IH]; [by apply not_elem_of_nil in Hin|done].
  { unfold walk_fuel in Hfuel. cbn in Hfuel. lia. }
  rewrite fmap_cons in *. apply Forall_cons in Hunit as [Ht Hunit]. cbn [fst] in *.
  cbn [collect_loop]. rewrite spelling_eq. cbn [mbind run_bind]. case_bool_decide as Hs.
  - destruct (IH V stack s) as (s' & Hloop & Hsame & Hreg); [unfold walk_fuel in *; cbn [length] in Hfuel; lia|done|].
    exists s'. split; [done|]. split; [done|]. intros sig. rewrite Hreg.
    f_equiv. f_equiv. intros x. by rewrite searched_skip.
  - set (type := getCanonicalType t) in *.
    set (s1 := if isFunctionPointerType type then _ else s).
    destruct (IH ({[spelling type]} ∪ V) (reverse (walk_children type origin) ++ stack) s1) as (s' & Hloop & Hsame & Hreg).
    { pose proof (walk_fuel_step type V (length stack) Ht Hs) as Hlt.
      rewrite length_app, length_reverse, <- (length_fmap fst), walk_children_types. cbn [length] in Hfuel. lia. }
    { rewrite fmap_app, fmap_reverse, walk_children_types. apply Forall_app. split; [|done].
      apply Forall_forall. intros u Hu. rewrite elem_of_reverse in Hu. by apply (unit_closed type). }
    exists s'. split; [done|]. split.
    { destruct Hsame as (H1' & H2' & H3' & H4'). unfold s1, same_functions in *.
      destruct (isFunctionPointerType type); [|done]. do 3 (split; [done|]). intros Hwf.
      apply H4', (run_build_wf s (AddCallback _ _ _) Hwf). }
    intros sig. rewrite Hreg, fmap_app, fmap_reverse, walk_children_types.
    assert (registered s1 sig ↔ registered s sig ∨ (isFunctionPointerType type = true ∧ spelling type = sig)) as ->.
    { unfold s1. destruct (isFunctionPointerType type); [rewrite registered_add; naive_solver|naive_solver]. }
    assert (∀ x, searched V (t :: stack.*1) x ↔
      va_list_part type = false ∧ x = type ∨
      searched ({[spelling type]} ∪ V) (reverse (walk_types type) ++ stack.*1) x) as Hstep.
    { intros x. apply searched_step; [|done]. intros u. by rewrite elem_of_reverse. }
    split.
    + intros [[?|[Hf Hsig]]|(x & Hx & Hf & Hsig)]; [by left|right; exists type|right; exists x]; (split; [|done]); apply Hstep; [|by right].
      left. split; [|done]. destruct (va_list_part type) eqn:Hp; [|done]. apply va_list_pointer in Hp. congruence.
    + intros [?|(x & [[_ ->]|Hx]%Hstep & Hf & Hsig)]; [left; by left|left; by right|right; by exists x].
Qed.

(** ** From one seed *)

Definition Seed : Type := QualType * bool.

Definition seed_types (seed : Seed) : list QualType := (seed_stack seed.1 [] seed.2).*1.

Definition in_unit (t : QualType) : Prop := getCanonicalType t ∈ unit_types.

Lemma seed_stack_types t o include : (seed_stack t o include).*1 = seed_types (t, include).
Proof.
  unfold seed_types, seed_stack. cbn [fst snd]. destruct include; [done|].
  destruct (isFunctionPointerType _); [|done]. destruct (pointee _); [|done].
  rewrite !fmap_reverse. f_equal. apply signature_types.
Qed.

Lemma seed_types_unit t include :
  in_unit t → Forall (λ u, getCanonicalType u ∈ unit_types) (seed_types (t, include)).
Proof.
  intros Ht. unfold seed_types, seed_stack. cbn [fst snd]. destruct include; [by repeat constructor|].
  destruct (isFunctionPointerType (getCanonicalType t)) eqn:Hf.
  - apply Forall_forall. intros u Hu. apply (unit_closed (getCanonicalType t)); [done|].
    unfold walk_types, walk_children. rewrite Hf. destruct (pointee (getCanonicalType t)); [|by apply not_elem_of_nil in Hu].
    by rewrite fmap_reverse, elem_of_reverse in Hu.
  - repeat constructor. cbn [fst]. by rewrite canonical_idemp.
Qed.

(** A signature that a seed leads to. *)
Definition carries (seed : Seed) (sig : str) : Prop :=
  ∃ t, refers (seed_types seed) t ∧ isFunctionPointerType t = true ∧ spelling t = sig.

Lemma collect_spec aliases t o al include s :
  in_unit t →
  ∃ s', collectCallbackSignatures aliases t o al include s = Done s' ∧ same_functions s s' ∧
    ∀ sig, registered s' sig ↔ registered s sig ∨ carries (t, include) sig.
Proof.
  intros Ht. unfold collectCallbackSignatures.
  destruct (collect_loop_spec aliases o al (walk_fuel (length (seed_stack t o include)) ∅) ∅ (seed_stack t o include) s)
    as (s' & Hloop & Hsame & Hreg); [done| |].
  { rewrite seed_stack_types. by apply seed_types_unit. }
  exists s'. split; [done|]. split; [done|]. intros sig. rewrite Hreg. f_equiv. unfold carries. f_equiv. intros x.
  rewrite searched_empty, seed_stack_types. split; [intros ([? _] & ? & ?); done|].
  intros (Hr & Hf & Hs). split; [|done]. split; [done|]. destruct (va_list_part x) eqn:Hp; [|done].
  apply va_list_pointer in Hp. congruence.
Qed.

(** ** What each step adds *)

(** Seeds that are walked, configured functions that are counted, and those that are
    missing. *)
Record Delta : Type := MkDelta {
  d_seeds : list Seed;
  d_counted : list (Direction * str);
  d_lost : list (Direction * str)
}.

Definition delta_app (a b : Delta) : Delta :=
  MkDelta (d_seeds a ++ d_seeds b) (d_counted a ++ d_counted b) (d_lost a ++ d_lost b).
Definition delta_empty : Delta := MkDelta [] [] [].
Definition delta_concat (l : list Delta) : Delta := foldr delta_app delta_empty l.

Definition counted (s : ManifestSummary) (d : Direction) (name : str) : Prop := is_Some (at_dir (functions s) d !! name).
Definition lost (s : ManifestSummary) (d : Direction) (name : str) : Prop := name ∈ at_dir (missingFunctions s) d.

Definition extends (δ : Delta) (s s' : ManifestSummary) : Prop :=
  (∀ sig, registered s' sig ↔ registered s sig ∨ ∃ seed, seed ∈ d_seeds δ ∧ carries seed sig) ∧
  (∀ d name, counted s' d name ↔ counted s d name ∨ (d, name) ∈ d_counted δ) ∧
  (∀ d name, lost s' d name ↔ lost s d name ∨ (d, name) ∈ d_lost δ) ∧
  (summary_wf s → summary_wf s').

Lemma extends_refl s : extends delta_empty s s.
Proof.
  unfold extends, delta_empty; cbn [d_seeds d_counted d_lost].
  split; [|split; [|split]]; [..|done]; intros; setoid_rewrite elem_of_nil; naive_solver.
Qed.

Lemma extends_app a b s1 s2 s3 : extends a s1 s2 → extends b s2 s3 → extends (delta_app a b) s1 s3.
Proof.
  intros (Ha1 & Ha2 & Ha3 & Ha4) (Hb1 & Hb2 & Hb3 & Hb4). unfold extends, delta_app. cbn [d_seeds d_counted d_lost].
  split; [|split; [|split; [|by eauto]]].
  - intros sig. rewrite Hb1, Ha1. setoid_rewrite elem_of_app. naive_solver.
  - intros d name. rewrite Hb2, Ha2, elem_of_app. tauto.
  - intros d name. rewrite Hb3, Ha3, elem_of_app. tauto.
Qed.

Lemma extends_seed seed s s' :
  same_functions s s' → (∀ sig, registered s' sig ↔ registered s sig ∨ carries seed sig) →
  extends (MkDelta [seed] [] []) s s'.
Proof.
  intros (Hf & Hm & _ & Hw) Hreg. unfold extends. cbn [d_seeds d_counted d_lost]. split; [|split; [|split; [|exact Hw]]].
  - intros sig. rewrite Hreg. setoid_rewrite list_elem_of_singleton. naive_solver.
  - intros d name. unfold counted. rewrite Hf, elem_of_nil. tauto.
  - intros d name. unfold lost. rewrite Hm, elem_of_nil. tauto.
Qed.

Lemma extends_collect aliases t o al include s :
  in_unit t →
  ∃ s', collectCallbackSignatures aliases t o al include s = Done s' ∧ extends (MkDelta [(t, include)] [] []) s s'.
Proof.
  intros Ht. destruct (collect_spec aliases t o al include s Ht) as (s' & Hc & Hsame & Hreg).
  exists s'. split; [done|]. by apply extends_seed.
Qed.

Lemma foldM_extends {B} (f : B → ManifestSummary → run ManifestSummary) (δ : B → Delta) (l : list B) s :
  (∀ x s, x ∈ l → ∃ s', f x s = Done s' ∧ extends (δ x) s s') →
  ∃ s', foldM f l s = Done s' ∧ extends (delta_concat (δ <$> l)) s s'.
Proof.
  revert s. induction l as [|x l IH]; intros s Hf; [exists s; split; [done|apply extends_refl]|].
  destruct (Hf x s) as (s1 & Hx & Hext); [by left|]. destruct (IH s1) as (s' & Hfold & Hrest); [intros; apply Hf; by right|].
  exists s'. cbn [foldM]. rewrite Hx. split; [done|]. by eapply extends_app.
Qed.

(** ** The nodes *)

(** The callback type of a descriptor, and its overlay. *)
Definition callback_desc (decl : Spec) : list Seed :=
  match explicit_args decl 1 with
  | Some [TA_Type t] =>
      let type := getCanonicalType (function_to_pointer t) in
      if isFunctionPointerType type then
        (type, true) :: match extractOverlayType (class_members decl) with Some o => [(o, true)] | None => [] end
      else []
  | _ => []
  end.

Definition node_seeds (n : StatNode) : list Seed :=
  match n with SN_procCbDescDecl decl => callback_desc decl | _ => [] end.

(** The maps that the nodes fill. *)
Definition node_functions (m : gmap str FunctionDecl) (n : StatNode) : gmap str FunctionDecl :=
  match n with
  | SN_functionDecl fd => if isCLinkage (fn_CLanguageLinkage fd) (fn_linkage_spec fd) then <[fn_name fd := fd]> m else m
  | _ => m
  end.
Definition node_overlays (m : gmap str (option QualType)) (n : StatNode) : gmap str (option QualType) :=
  match n with
  | SN_procFnDescDecl decl =>
      match explicit_args decl 1 with
      | Some [arg] =>
          match extractFunctionDeclFromTemplateArg arg with
          | Some fd => <[fn_name fd := extractOverlayType (class_members decl)]> m
          | None => m
          end
      | _ => m
      end
  | _ => m
  end.
Definition node_typedefs (m : gmap str QualType) (n : StatNode) : gmap str QualType :=
  match n with
  | SN_aliasDecl name linkage_spec underlying =>
      if isCDecl linkage_spec && isFunctionPointerType (getCanonicalType underlying)
      then <[name := getCanonicalType underlying]> m else m
  | _ => m
  end.

(** The types of a node are among the unit's. *)
Definition node_in_unit (n : StatNode) : Prop :=
  match n with
  | SN_functionDecl fd => in_unit (getPointerType (getCanonicalType (fn_type fd)))
  | SN_procFnDescDecl decl => ∀ o, extractOverlayType (class_members decl) = Some o → in_unit o
  | SN_procCbDescDecl decl => ∀ seed, seed ∈ callback_desc decl → in_unit seed.1
  | SN_aliasDecl _ _ underlying => in_unit underlying
  | SN_other => True
  end.

(** The maps hold types of the unit. *)
Record maps_ok (fns : gmap str FunctionDecl) (overlays : gmap str (option QualType)) (typedefs : gmap str QualType) : Prop := {
  ok_functions : map_Forall (λ name fd, fn_name fd = name ∧ in_unit (getPointerType (getCanonicalType (fn_type fd)))) fns;
  ok_overlays : map_Forall (λ _ o, ∀ t, o = Some t → in_unit t) overlays;
  ok_typedefs : map_Forall (λ _ t, in_unit t) typedefs
}.

Definition state_maps (st : StatState) (fns : gmap str FunctionDecl) (overlays : gmap str (option QualType))
    (typedefs : gmap str QualType) : Prop :=
  m_functionMap st = fns ∧ m_procFnDescDataMap st = overlays ∧ m_functionPointerTypedefTypeMap st = typedefs.

Lemma maps_ok_node fns overlays typedefs n :
  maps_ok fns overlays typedefs → node_in_unit n →
  maps_ok (node_functions fns n) (node_overlays overlays n) (node_typedefs typedefs n).
Proof.
  intros [Hf Ho Ht] Hn. destruct n as [decl|decl|name ls underlying|fd|]; cbn [node_functions node_overlays node_typedefs node_in_unit] in *; try done.
  - split; [done| |done]. destruct (explicit_args decl 1) as [[|arg [|]]|]; [done| |done..].
    destruct (extractFunctionDeclFromTemplateArg arg); [|done]. apply map_Forall_insert_2; [exact Hn|done].
  - split; [done|done|]. destruct (isCDecl ls && _); [|done]. apply map_Forall_insert_2; [|done].
    unfold in_unit in *. by rewrite canonical_idemp.
  - split; [|done|done]. destruct (isCLinkage _ _); [|done]. by apply map_Forall_insert_2.
Qed.

Lemma stat_match_spec st n fns overlays typedefs :
  state_maps st fns overlays typedefs → node_in_unit n →
  ∃ st', stat_match st n = Done st' ∧
    state_maps st' (node_functions fns n) (node_overlays overlays n) (node_typedefs typedefs n) ∧
    extends (MkDelta (node_seeds n) [] []) (stat st) (stat st').
Proof.
  intros (Hf & Ho & Ht) Hn.
  destruct n as [decl|decl|name ls underlying|fd|];
    cbn [stat_match node_functions node_overlays node_typedefs node_in_unit node_seeds] in *.
  - eexists. split; [done|]. unfold handleProcFnDesc. destruct (explicit_args decl 1) as [[|arg [|]]|];
      try (split; [done|apply extends_refl]).
    destruct (extractFunctionDeclFromTemplateArg arg); [|split; [done|apply extends_refl]].
    split; [|apply extends_refl]. split; [done|]. split; [|done]. cbn. by rewrite Ho.
  - unfold handleProcCbDesc, callback_desc in *. destruct (explicit_args decl 1) as [[|[t| | | |] [|]]|];
      try (exists st; split; [done|split; [done|apply extends_refl]]).
    set (type := getCanonicalType (function_to_pointer t)) in *.
    destruct (isFunctionPointerType type); cbn [negb]; [|exists st; split; [done|split; [done|apply extends_refl]]].
    rewrite spelling_eq. cbn [mbind run_bind].
    set (al := match extractNameHint _ with Some _ => _ | None => _ end).
    destruct (extends_collect (m_namedCallbackAliasMap st) type ($"ProcCbDesc<" ++ spelling type ++ $">") al true (stat st))
      as (s1 & Hc1 & Hext1); [apply (Hn (type, true)); by left|]. rewrite Hc1. cbn [mbind run_bind].
    destruct (extractOverlayType (class_members decl)) as [o|].
    + destruct (extends_collect (m_namedCallbackAliasMap st) o ($"ProcCbDesc<" ++ spelling type ++ $">@overlay") [] true s1)
        as (s2 & Hc2 & Hext2); [apply (Hn (o, true)); right; by left|]. rewrite Hc2. cbn [mbind run_bind].
      eexists. split; [done|]. split; [done|]. exact (extends_app _ _ _ _ _ Hext1 Hext2).
    + eexists. split; [done|]. split; [done|]. exact Hext1.
  - unfold stat_alias. destruct (isCDecl ls); cbn [negb andb]; [|exists st; split; [done|split; [done|apply extends_refl]]].
    destruct (isFunctionPointerType (getCanonicalType underlying)); cbn [negb]; [|exists st; split; [done|split; [done|apply extends_refl]]].
    rewrite spelling_eq. cbn [mbind run_bind]. eexists. split; [done|]. split; [|apply extends_refl].
    split; [done|]. split; [done|]. cbn. by rewrite Ht.
  - destruct (isCLinkage _ _); cbn [negb]; (eexists; split; [done|]; split; [|apply extends_refl]); [|done].
    split; [|done]. cbn. by rewrite Hf.
  - exists st. split; [done|split; [done|apply extends_refl]].
Qed.

Lemma stat_nodes_spec nodes st fns overlays typedefs :
  state_maps st fns overlays typedefs → maps_ok fns overlays typedefs → Forall node_in_unit nodes →
  let fns' := foldl node_functions fns nodes in
  let overlays' := foldl node_overlays overlays nodes in
  let typedefs' := foldl node_typedefs typedefs nodes in
  ∃ st', foldM (λ n st, stat_match st n) nodes st = Done st' ∧ state_maps st' fns' overlays' typedefs' ∧
    maps_ok fns' overlays' typedefs' ∧ extends (MkDelta (nodes ≫= node_seeds) [] []) (stat st) (stat st').
Proof.
  revert st fns overlays typedefs. induction nodes as [|n nodes IH]; intros st fns overlays typedefs Hst Hok Hall; cbn [foldl foldM].
  { exists st. split; [done|]. split; [done|]. split; [done|]. apply extends_refl. }
  apply Forall_cons in Hall as [Hn Hall].
  destruct (stat_match_spec st n fns overlays typedefs Hst Hn) as (st1 & Hm & Hst1 & Hext). rewrite Hm. cbn [mbind run_bind].
  destruct (IH st1 _ _ _ Hst1 (maps_ok_node _ _ _ _ Hok Hn) Hall) as (st' & Hfold & Hst' & Hok' & Hrest).
  exists st'. split; [done|]. split; [done|]. split; [done|]. exact (extends_app _ _ _ _ _ Hext Hrest).
Qed.

(** ** The configured seeds *)

Section sections.
Context (fns : gmap str FunctionDecl) (overlays : gmap str (option QualType)) (typedefs : gmap str QualType).
Hypothesis Hok : maps_ok fns overlays typedefs.

Definition function_delta (d : Direction) (name : str) : Delta :=
  match fns !! name with
  | None => MkDelta [] [] [(d, name)]
  | Some fd =>
      MkDelta ((getPointerType (getCanonicalType (fn_type fd)), false)
               :: (match overlays !! name with Some (Some o) => [(o, false)] | _ => [] end)) [(d, name)] []
  end.

Definition callback_seeds (token : str) : list Seed :=
  match token with
  | [] => []
  | c :: name =>
      if c =c? "&"%char then
        match fns !! name with Some fd => [(getPointerType (getCanonicalType (fn_type fd)), true)] | None => [] end
      else match typedefs !! token with Some t => [(t, true)] | None => [] end
  end.

Lemma counted_add d name loc s d' name' :
  counted (addFunction d name loc s) d' name' ↔ counted s d' name' ∨ (d', name') = (d, name).
Proof.
  clear. unfold counted, addFunction. cbn [functions]. destruct d, d'; cbn [at_dir set_dir fst snd];
    (destruct (decide (name' = name)) as [->|Hne]; [rewrite ?lookup_insert_eq|rewrite ?lookup_insert_ne by done]); naive_solver.
Qed.

Lemma extends_add_function d name loc s : extends (MkDelta [] [(d, name)] []) s (addFunction d name loc s).
Proof.
  unfold extends. cbn [d_seeds d_counted d_lost]. split; [|split; [|split; [|by intros W]]].
  - intros sig. setoid_rewrite elem_of_nil. unfold registered, addFunction. cbn. naive_solver.
  - intros d' name'. by rewrite counted_add, list_elem_of_singleton.
  - intros d' name'. rewrite elem_of_nil. unfold lost, addFunction. cbn. tauto.
Qed.

Lemma extends_add_missing d name s : extends (MkDelta [] [] [(d, name)]) s (add_missing d name s).
Proof.
  unfold extends. cbn [d_seeds d_counted d_lost]. split; [|split; [|split; [|by intros W]]].
  - intros sig. setoid_rewrite elem_of_nil. unfold registered, add_missing. cbn. naive_solver.
  - intros d' name'. rewrite elem_of_nil. unfold counted, add_missing. cbn. tauto.
  - intros d' name'. rewrite list_elem_of_singleton. unfold lost, add_missing. cbn [missingFunctions].
    destruct d, d'; cbn [at_dir set_dir fst snd]; rewrite ?elem_of_union, ?elem_of_singleton; naive_solver.
Qed.

Lemma collect_function_spec st sec d name s :
  state_maps st fns overlays typedefs →
  ∃ s', collect_function st sec d name s = Done s' ∧ extends (function_delta d name) s s'.
Proof.
  intros (Hf & Ho & _). unfold collect_function, function_delta. rewrite Hf, Ho.
  destruct (fns !! name) as [fd|] eqn:Hfd; [|eexists; split; [done|apply extends_add_missing]].
  destruct Hok as [Hokf Hoko _]. destruct (Hokf _ _ Hfd) as [Hname Hunit]. rewrite Hname.
  set (origin := $"Config[" ++ sec ++ $"]:" ++ name).
  destruct (extends_collect (m_namedCallbackAliasMap st) _ origin [] false (addFunction d name (fn_location fd) s) Hunit)
    as (s1 & Hc1 & Hext1). rewrite Hc1. cbn [mbind run_bind].
  pose proof (extends_app _ _ _ _ _ (extends_add_function d name (fn_location fd) s) Hext1) as Hext. cbn in Hext.
  destruct (overlays !! name) as [[o|]|] eqn:Hov; [|by exists s1..].
  destruct (extends_collect (m_namedCallbackAliasMap st) o (origin ++ $"@overlay") [] false s1) as (s2 & Hc2 & Hext2);
    [by apply (Hoko _ _ Hov)|].
  exists s2. split; [done|]. exact (extends_app _ _ _ _ _ Hext Hext2).
Qed.

Lemma collect_callback_spec st token s :
  state_maps st fns overlays typedefs →
  ∃ s', collect_callback st token s = Done s' ∧ extends (MkDelta (callback_seeds token) [] []) s s'.
Proof.
  intros (Hf & _ & Ht). unfold collect_callback, callback_seeds. destruct token as [|c name]; [exists s; split; [done|apply extends_refl]|].
  destruct Hok as [Hokf _ Hokt]. rewrite Hf, Ht. destruct (c =c? "&"%char).
  - destruct (fns !! name) as [fd|] eqn:Hfd; [|exists s; split; [done|apply extends_refl]].
    destruct (Hokf _ _ Hfd) as [_ Hunit]. rewrite spelling_eq. cbn [mbind run_bind].
    by apply extends_collect.
  - destruct (typedefs !! (c :: name)) as [t|] eqn:Htd; [|exists s; split; [done|apply extends_refl]].
    apply extends_collect. by apply (Hokt _ _ Htd).
Qed.
End sections.

(** The names of a section. *)
Definition section_names (config : ConfigFile) (sectionName : str) : list str :=
  match config_get config sectionName with Done (Some section) => section_keys section | _ => [] end.

Lemma config_get_wf config name : config_wf config → ∃ r, config_get config name = Done r.
Proof.
  intros [Hidx _ _ _]. unfold config_get. destruct (m_sectionIndex config !! name) as [i|] eqn:Hi; [|by eexists].
  apply Hidx in Hi. rewrite list_lookup_fmap in Hi.
  destruct (m_sections config !! i); [|done]. by eexists.
Qed.

(** Everything that a unit and a configuration add. *)
Definition stat_seeds (config : ConfigFile) (nodes : list StatNode) : list Seed :=
  let fns := foldl node_functions ∅ nodes in
  let overlays := foldl node_overlays ∅ nodes in
  let typedefs := foldl node_typedefs ∅ nodes in
  (nodes ≫= node_seeds)
  ++ (section_names config ($"Function") ≫= λ name, d_seeds (function_delta fns overlays GuestToHost name))
  ++ (section_names config ($"Guest Function") ≫= λ name, d_seeds (function_delta fns overlays HostToGuest name))
  ++ (section_names config ($"Callback") ≫= callback_seeds fns typedefs).

Definition direction_section (d : Direction) : str :=
  match d with GuestToHost => $"Function" | HostToGuest => $"Guest Function" end.

Lemma delta_concat_map {B} (f : B → Delta) (l : list B) :
  delta_concat (f <$> l) = MkDelta (l ≫= λ x, d_seeds (f x)) (l ≫= λ x, d_counted (f x)) (l ≫= λ x, d_lost (f x)).
Proof. clear. induction l as [|x l IH]; [done|]. cbn [fmap list_fmap delta_concat foldr]. change (foldr delta_app delta_empty (f <$> l)) with (delta_concat (f <$> l)). by rewrite IH. Qed.

Lemma section_extends config sectionName st fns overlays typedefs (d : Direction) :
  config_wf config → state_maps st fns overlays typedefs → maps_ok fns overlays typedefs →
  ∃ st', collectConfigFunctionSection config sectionName d st = Done st' ∧ state_maps st' fns overlays typedefs ∧
    extends (delta_concat (function_delta fns overlays d <$> section_names config sectionName)) (stat st) (stat st').
Proof.
  intros Hwf Hst Hok. unfold collectConfigFunctionSection, section_names.
  destruct (config_get_wf config sectionName Hwf) as [[section|] Hget]; rewrite Hget; cbn [mbind run_bind].
  - destruct (foldM_extends (collect_function st sectionName d) (function_delta fns overlays d) (section_keys section) (stat st))
      as (s' & Hfold & Hext); [intros name s _; by apply (collect_function_spec _ _ _ Hok)|].
    rewrite Hfold. cbn [mbind run_bind]. eexists. split; [done|]. by split.
  - exists st. split; [done|]. split; [done|]. apply extends_refl.
Qed.

Lemma callback_section_extends config st fns overlays typedefs :
  config_wf config → state_maps st fns overlays typedefs → maps_ok fns overlays typedefs →
  ∃ st', collectConfigCallbackSection config st = Done st' ∧
    extends (delta_concat ((λ token, MkDelta (callback_seeds fns typedefs token) [] []) <$> section_names config ($"Callback")))
      (stat st) (stat st').
Proof.
  intros Hwf Hst Hok. unfold collectConfigCallbackSection, section_names.
  destruct (config_get_wf config ($"Callback") Hwf) as [[section|] Hget]; rewrite Hget; cbn [mbind run_bind].
  - destruct (foldM_extends (collect_callback st) (λ token, MkDelta (callback_seeds fns typedefs token) [] [])
      (section_keys section) (stat st)) as (s' & Hfold & Hext); [intros token s _; by apply (collect_callback_spec _ _ _ Hok)|].
    rewrite Hfold. cbn [mbind run_bind]. eexists. by split.
  - exists st. split; [done|]. apply extends_refl.
Qed.

Definition empty_stat (s : ManifestSummary) : Prop :=
  functions s = (∅, ∅) ∧ missingFunctions s = (∅, ∅) ∧ ManifestSummary.callbacks s = ∅.

Lemma stat_spec config nodes s :
  config_wf config → Forall node_in_unit nodes → empty_stat s →
  ∃ s', stat_HandleTranslationUnit config nodes s = Done s' ∧
    (∀ d name, counted s' d name ↔
       name ∈ section_names config (direction_section d) ∧ is_Some (foldl node_functions ∅ nodes !! name)) ∧
    (∀ d name, lost s' d name ↔
       name ∈ section_names config (direction_section d) ∧ foldl node_functions ∅ nodes !! name = None) ∧
    (∀ sig, registered s' sig ↔ ∃ seed, seed ∈ stat_seeds config nodes ∧ carries seed sig) ∧ summary_wf s'.
Proof.
  intros Hwf Hnodes (Hs1 & Hs2 & Hs3). unfold stat_HandleTranslationUnit, collectConfigSeeds.
  destruct (stat_nodes_spec nodes (MkStatState ∅ ∅ ∅ ∅ s) ∅ ∅ ∅) as (st1 & Hfold & Hst1 & Hok & Hext1); [done|by split|done|].
  set (fns := foldl node_functions ∅ nodes) in *. set (overlays := foldl node_overlays ∅ nodes) in *.
  set (typedefs := foldl node_typedefs ∅ nodes) in *.
  rewrite Hfold. cbn [mbind run_bind].
  destruct (section_extends config ($"Function") st1 _ _ _ GuestToHost Hwf Hst1 Hok) as (st2 & H2 & Hst2 & Hext2).
  rewrite H2. cbn [mbind run_bind].
  destruct (section_extends config ($"Guest Function") st2 _ _ _ HostToGuest Hwf Hst2 Hok) as (st3 & H3 & Hst3 & Hext3).
  rewrite H3. cbn [mbind run_bind].
  destruct (callback_section_extends config st3 _ _ _ Hwf Hst3 Hok) as (st4 & H4 & Hext4).
  rewrite H4. cbn [mbind run_bind]. exists (stat st4). split; [done|].
  pose proof (extends_app _ _ _ _ _ Hext1 (extends_app _ _ _ _ _ Hext2 (extends_app _ _ _ _ _ Hext3 Hext4))) as (Hr & Hc & Hl & Hw).
  rewrite !delta_concat_map in Hr, Hc, Hl. cbn [stat] in Hr, Hc, Hl.
  unfold delta_app in Hr, Hc, Hl. cbn [d_seeds d_counted d_lost] in Hr, Hc, Hl.
  assert (∀ d name l, (d, name) ∈ l ≫= (λ x, d_counted (function_delta fns overlays d x)) ↔ name ∈ l ∧ is_Some (fns !! name)) as Hcount.
  { intros d name l. rewrite list_elem_of_bind. split.
    - intros (x & Hx & Hin). unfold function_delta in Hx. destruct (fns !! x) eqn:Hfx; cbn in Hx;
        [apply list_elem_of_singleton in Hx as [= <-]; by rewrite Hfx|by apply not_elem_of_nil in Hx].
    - intros [Hin [fd Hfd]]. exists name. split; [|done]. unfold function_delta. rewrite Hfd. by left. }
  assert (∀ d name l, (d, name) ∈ l ≫= (λ x, d_lost (function_delta fns overlays d x)) ↔ name ∈ l ∧ fns !! name = None) as Hlost.
  { intros d name l. rewrite list_elem_of_bind. split.
    - intros (x & Hx & Hin). unfold function_delta in Hx. destruct (fns !! x) eqn:Hfx; cbn in Hx;
        [by apply not_elem_of_nil in Hx|apply list_elem_of_singleton in Hx as [= <-]; by rewrite Hfx].
    - intros [Hin Hfd]. exists name. split; [|done]. unfold function_delta. rewrite Hfd. by left. }
  assert (∀ d d' name l, d ≠ d' → ((d, name) ∉ (l ≫= (λ x, d_counted (function_delta fns overlays d' x)))) ∧
    ((d, name) ∉ (l ≫= (λ x, d_lost (function_delta fns overlays d' x))))) as Hother.
  { intros d d' name l Hne. rewrite !list_elem_of_bind. unfold function_delta.
    split; intros (x & Hx & _); destruct (fns !! x); cbn in Hx;
      (by apply not_elem_of_nil in Hx) || (apply list_elem_of_singleton in Hx as [= -> _]; done). }
  assert (∀ (l : list str), (l ≫= (λ _, [])) = ([] : list (Direction * str))) as Hnil by (clear; induction l; done).
  cbn [d_counted d_lost] in Hc, Hl. rewrite !Hnil in Hc, Hl.
  split; [|split; [|split]].
  - intros d name. rewrite Hc. unfold counted. rewrite Hs1, app_nil_r. cbn [app]. rewrite elem_of_app.
    destruct d; cbn [at_dir fst snd direction_section]; rewrite lookup_empty;
      [destruct (Hother GuestToHost HostToGuest name (section_names config ($"Guest Function")) ltac:(done)) as [Hn _]
      |destruct (Hother HostToGuest GuestToHost name (section_names config ($"Function")) ltac:(done)) as [Hn _]];
      rewrite Hcount; split; [intros [[? [=]]|[?|?]]| |intros [[? [=]]|[?|?]]|]; tauto.
  - intros d name. rewrite Hl. unfold lost. rewrite Hs2, app_nil_r. cbn [app]. rewrite elem_of_app.
    destruct d; cbn [at_dir fst snd direction_section];
      [destruct (Hother GuestToHost HostToGuest name (section_names config ($"Guest Function")) ltac:(done)) as [_ Hn]
      |destruct (Hother HostToGuest GuestToHost name (section_names config ($"Function")) ltac:(done)) as [_ Hn]];
      rewrite Hlost; set_solver.
  - intros sig. rewrite Hr. unfold registered. rewrite Hs3, lookup_empty. unfold stat_seeds.
    split; [intros [[? [=]]|?]; done|]. intros Hx. by right.
  - apply Hw. unfold summary_wf. cbn [stat]. rewrite Hs3. apply map_Forall_empty.
Qed.

(** C13: the statistics of a manifest.  The walk of every seed ends; a configured function is
    counted when the unit declares it and missing otherwise, in the direction of its
    section; and the callback signatures are exactly those of the function pointers that the
    seeds refer to, however the types refer to each other: the descriptors of callbacks and
    their overlays, the signatures of the configured functions and of their overlays, the
    configured callbacks. *)
Theorem stat_exact config nodes s :
  config_wf config → Forall node_in_unit nodes → empty_stat s →
  ∃ s', stat_HandleTranslationUnit config nodes s = Done s' ∧
    (∀ d name, counted s' d name ↔
       name ∈ section_names config (direction_section d) ∧ is_Some (foldl node_functions ∅ nodes !! name)) ∧
    (∀ d name, lost s' d name ↔
       name ∈ section_names config (direction_section d) ∧ foldl node_functions ∅ nodes !! name = None) ∧
    ∀ sig, registered s' sig ↔ ∃ seed, seed ∈ stat_seeds config nodes ∧ carries seed sig.
Proof. intros H1' H2' H3'. destruct (stat_spec config nodes s H1' H2' H3') as (s' & ? & ? & ? & ? & _). by exists s'. Qed.

(** ** The substituter's callbacks are among them *)

Lemma refers_unit seeds t : Forall (λ u, getCanonicalType u ∈ unit_types) seeds → refers seeds t → t ∈ unit_types.
Proof.
  intros Hall. rewrite Forall_forall in Hall.
  induction 1 as [t Hin|t t' _ IH Hin]; [by apply Hall|by eapply unit_closed].
Qed.

Lemma pointer_types T p : pointee T = Some p → isFunctionType p = false → walk_types T = [p].
Proof. intros Hp Hf. unfold walk_types, walk_children. by rewrite function_pointer, Hp, Hf. Qed.

Lemma record_types T fields : record_fields T = Some fields → walk_types T = fields.*2.
Proof.
  intros Hr. unfold walk_types, walk_children. rewrite function_pointer.
  destruct (pointee T) eqn:Hp; [destruct (pointer_kind T) as (_ & Hn & _); [by eexists|congruence]|].
  destruct (array_element T) eqn:He; [destruct (array_kind T) as [Hn _]; [by eexists|congruence]|].
  rewrite Hr. by rewrite <- list_fmap_compose.
Qed.

Lemma refers_member seeds T fields name t :
  refers seeds T → getCanonicalType T = T → aggregate T = Some fields → (name, t) ∈ fields → refers seeds (getCanonicalType t).
Proof.
  intros HT Hc Hag Hin. assert (t ∈ fields.*2) as Ht by (apply list_elem_of_fmap; by exists (name, t)).
  destruct (pointee T) as [R|] eqn:Hp.
  - rewrite (aggregate_pointer _ _ Hp) in Hag.
    assert (isFunctionType R = false) as Hf.
    { destruct (isFunctionType R) eqn:Hf; [|done]. apply function_kind in Hf. congruence. }
    eapply refers_next; [|by rewrite (record_types R fields)].
    rewrite <- (canonical_pointee T R) by done. eapply refers_next; [exact HT|]. rewrite (pointer_types T R) by done. by left.
  - rewrite (aggregate_value _ Hp) in Hag. eapply refers_next; [exact HT|]. by rewrite (record_types T fields).
Qed.

(** A callback of the argument's tree is a function pointer that is referred to. *)
Definition pointed (seeds : list QualType) (c : QualType) : Prop :=
  ∃ t callee, refers seeds t ∧ getCanonicalType t = t ∧ pointee t = Some callee ∧ isFunctionType callee = true ∧
    c = getCanonicalType callee.

Lemma callback_path_pointed seeds T p c :
  refers seeds T → getCanonicalType T = T → callback_path T p c → pointed seeds c.
Proof.
  intros HT Hc Hp. revert HT Hc.
  induction Hp as [T fs name t callee Hag Hin Hpt Hf|T fs name t p callee Hag Hin _ _ IH]; intros HT Hc.
  - exists (getCanonicalType t), callee. split; [by eapply refers_member|]. split; [apply canonical_idemp|]. done.
  - apply IH; [by eapply refers_member|apply canonical_idemp].
Qed.

Lemma fields_path_pointed seeds args p c :
  (∀ t, t ∈ args.*2 → refers seeds (getCanonicalType t)) → fields_path args p c → pointed seeds c.
Proof.
  intros Hargs [(name & t & callee & -> & Hin & Hpt & Hf & ->)|(name & t & q & -> & Hin & _ & Hp)].
  - exists (getCanonicalType t), callee. split; [|split; [apply canonical_idemp|done]].
    apply Hargs, list_elem_of_fmap. by exists (name, t).
  - apply (callback_path_pointed seeds (getCanonicalType t) q); [|apply canonical_idemp|done].
    apply Hargs, list_elem_of_fmap. by exists (name, t).
Qed.

Lemma out_callee_pointed seeds t c : refers seeds (getCanonicalType t) → out_callee (getCanonicalType t) = Some c → pointed seeds c.
Proof.
  intros Ht. unfold out_callee. destruct (pointee (getCanonicalType t)) as [q|] eqn:Hq; [|done].
  rewrite function_pointer. destruct (pointee q) as [callee|] eqn:Hcallee; [|done].
  destruct (isFunctionType callee) eqn:Hf; [|done]. intros [= <-].
  assert (getCanonicalType q = q) as Hcq by (eapply canonical_pointee; [apply canonical_idemp|done]).
  exists q, callee. split; [|done]. rewrite <- Hcq. eapply refers_next; [exact Ht|].
  destruct (pointer_kind q) as (_ & _ & Hnf); [by eexists|]. rewrite (pointer_types _ q) by done. by left.
Qed.

(** The parameters of a function that is a seed, or whose pointer is. *)
Lemma view_args_refer seed t :
  isFunctionPointerType (getCanonicalType seed.1) = true → t ∈ view_argTypes (functionTypeView seed.1) →
  refers (seed_types seed) (getCanonicalType t).
Proof.
  destruct seed as [R include]. cbn [fst]. intros Hf Hin. unfold functionTypeView in Hin. rewrite Hf in Hin.
  pose proof Hf as Hp. rewrite function_pointer in Hp.
  destruct (pointee (getCanonicalType R)) as [p|] eqn:Hpt; [|done]. cbn [default from_option id] in Hin.
  assert (getCanonicalType p = p) as Hcp by (eapply canonical_pointee; [apply canonical_idemp|done]).
  assert (t ∈ (signature_children (getCanonicalType p) []).*1) as Hsig.
  { unfold signature_children. rewrite Hcp.
    destruct (function_type p) as [[[ret params] ?]|]; [|by apply not_elem_of_nil in Hin]. cbn [view_argTypes] in Hin.
    rewrite fmap_app. apply elem_of_app. right. rewrite fmap_imap.
    apply list_elem_of_lookup in Hin as [i Hi]. apply list_elem_of_lookup. exists i.
    by rewrite list_lookup_imap, Hi. }
  unfold seed_types, seed_stack. cbn [fst snd]. destruct include.
  - apply (refers_next _ (getCanonicalType R)); [apply refers_seed; by left|]. unfold walk_types, walk_children. by rewrite Hf, Hpt.
  - rewrite Hf, Hpt. apply refers_seed. by rewrite fmap_reverse, elem_of_reverse.
Qed.

(** The pointer that the substituter makes to a callback's function, and what it reports
    when that has no name. *)
Definition callback_pointer (c : QualType) : QualType := getCanonicalType (getPointerType (getCanonicalType c)).
Definition not_found (c : QualType) : str :=
  $"callback not found for type: " ++ spelling (getPointerType (getCanonicalType c)).
Definition pointer_named (callbackTypes : gmap str (QualType * str)) (c : QualType) : Prop :=
  is_Some (callbackTypes !! spelling (callback_pointer c)).

(** The callbacks of a tree whose names it asks for. *)
Definition asked (tree : CallbackTree) (proc : ProcSnippet) (c : QualType) : Prop :=
  (∃ allocator, (allocator, c) ∈ entries (init_allocators tree (proc_name proc) ∅)) ∨
  ∃ name, (name, c) ∈ outCallbacks tree.

(** A function pointer that is not the one made from its function, as it is [const]. *)
Definition qualified_pointer (t c : QualType) : Prop :=
  isFunctionPointerType t = true ∧ (∃ callee, pointee t = Some callee ∧ c = getCanonicalType callee) ∧ callback_pointer c ≠ t.

(** What the substituter ends with: no diagnostic, and it has found each name it asked for;
    or the diagnostic of one it has not found, a callback behind a qualified pointer of the
    seed's. *)
Definition answered (callbackTypes : gmap str (QualType * str)) (seed : Seed) (tree : CallbackTree)
    (proc : ProcSnippet) (e : option str) : Prop :=
  match e with
  | None => status tree = Unsupported ∨ ∀ c, asked tree proc c → pointer_named callbackTypes c
  | Some err => status tree = HasCallbacks ∧ ∃ c, asked tree proc c ∧ ¬ pointer_named callbackTypes c ∧ err = not_found c ∧
      ∃ t, refers (seed_types seed) t ∧ qualified_pointer t c
  end.

Lemma resolveAlias_spec callbackTypes c :
  resolveAlias callbackTypes c =
    Done (match callbackTypes !! spelling (callback_pointer c) with Some (_, name) => inl name | None => inr (not_found c) end).
Proof.
  unfold resolveAlias. cbv zeta. change (getCanonicalType (getPointerType (getCanonicalType c))) with (callback_pointer c).
  rewrite (spelling_eq (callback_pointer c)), (spelling_eq (getPointerType _)). cbn [mbind run_bind].
  by destruct (callbackTypes !! spelling (callback_pointer c)) as [[q name]|].
Qed.

(** A loop of declarations: all names, or the first that is missing. *)
Definition declared (callbackTypes : gmap str (QualType * str)) (l : list (str * QualType)) (r : str + str) : Prop :=
  match r with
  | inl _ => ∀ n c, (n, c) ∈ l → pointer_named callbackTypes c
  | inr err => ∃ n c, (n, c) ∈ l ∧ ¬ pointer_named callbackTypes c ∧ err = not_found c
  end.

Lemma declared_nil callbackTypes text : declared callbackTypes [] (inl text).
Proof. intros n c Hin. by apply not_elem_of_nil in Hin. Qed.

Lemma declared_missing callbackTypes n c l :
  callbackTypes !! spelling (callback_pointer c) = None → declared callbackTypes ((n, c) :: l) (inr (not_found c)).
Proof.
  intros Hc. exists n, c. split; [by left|]. split; [|done]. unfold pointer_named. rewrite Hc. by intros [? ?].
Qed.

Lemma declared_cons callbackTypes n c l r r' :
  pointer_named callbackTypes c → declared callbackTypes l r →
  match r, r' with inl _, inl _ => True | inr e, inr e' => e' = e | _, _ => False end →
  declared callbackTypes ((n, c) :: l) r'.
Proof.
  intros Hc Hl. destruct r as [t|e], r' as [t'|e']; try done.
  - intros _ m d [[= -> ->]|Hin]%elem_of_cons; [done|by eapply Hl].
  - intros ->. destruct Hl as (m & d & Hin & Hd). exists m, d. split; [by right|done].
Qed.

Lemma using_decls_spec callbackTypes direction l :
  ∃ r, using_decls callbackTypes direction l = Done r ∧ declared callbackTypes l r.
Proof.
  induction l as [|[name c] l IH]; [eexists; split; [done|apply declared_nil]|]. cbn [using_decls].
  rewrite resolveAlias_spec. cbn [mbind run_bind].
  destruct (callbackTypes !! spelling (callback_pointer c)) as [[q al]|] eqn:Hc;
    [|eexists; split; [done|by apply declared_missing]].
  destruct IH as (r & Hr & Hl). rewrite Hr. cbn [mbind run_bind]. eexists. split; [done|].
  apply (declared_cons _ _ _ _ r); [unfold pointer_named; rewrite Hc; by eexists|done|by destruct r].
Qed.

Lemma out_decls_spec callbackTypes direction name guest l :
  ∃ r, out_decls callbackTypes direction name guest l = Done r ∧ declared callbackTypes l r.
Proof.
  induction l as [|[n c] l IH]; [eexists; split; [done|apply declared_nil]|]. cbn [out_decls].
  rewrite resolveAlias_spec. cbn [mbind run_bind].
  destruct (callbackTypes !! spelling (callback_pointer c)) as [[q al]|] eqn:Hc;
    [|eexists; split; [done|by apply declared_missing]].
  destruct IH as (r & Hr & Hl). rewrite Hr. cbn [mbind run_bind]. eexists. split; [done|].
  apply (declared_cons _ _ _ _ r); [unfold pointer_named; rewrite Hc; by eexists|done|by destruct r].
Qed.

(** The pass on a tree with callbacks. *)
Lemma substituter_begin_spec mode callbackTypes tree proc :
  status tree = HasCallbacks →
  ∃ proc' e, substituter_begin mode callbackTypes tree proc = Done (proc', e) ∧
    match e with
    | None => ∀ c, asked tree proc c → pointer_named callbackTypes c
    | Some err => ∃ c, asked tree proc c ∧ ¬ pointer_named callbackTypes c ∧ err = not_found c
    end.
Proof.
  intros Hst. unfold substituter_begin. rewrite Hst. set (r := match callbacks tree with [] => _ | _ => _ end).
  assert (∃ r', r = Done r' ∧ match r' with
    | inl _ => ∀ a c, (a, c) ∈ entries (init_allocators tree (proc_name proc) ∅) → pointer_named callbackTypes c
    | inr err => ∃ c, asked tree proc c ∧ ¬ pointer_named callbackTypes c ∧ err = not_found c
    end) as (r' & -> & Hin).
  { assert (callbacks tree = [] → children tree = [] → entries (init_allocators tree (proc_name proc) ∅) = []) as Hnone.
    { destruct tree as [st ra cbs chs outs]. cbn [callbacks children]. by intros -> ->. }
    unfold r, in_texts.
    destruct (using_decls_spec callbackTypes (if is_g2h proc then $"HostToGuest" else $"GuestToHost")
      (entries (init_allocators tree (proc_name proc) ∅))) as (u & Hu & Hdecl). rewrite Hu. clear r.
    destruct (callbacks tree), (children tree);
      [eexists; split; [done|]; rewrite Hnone by done; intros a c ?%not_elem_of_nil; done|..];
      cbn [mbind run_bind]; (destruct u as [text|err]; eexists; (split; [done|]); [exact Hdecl|]);
      destruct Hdecl as (n & c & Hc & Hrest); exists c; (split; [left; by exists n|done]). }
  cbn [mbind run_bind]. destruct r' as [proc1|err]; [|by exists proc, (Some err)].
  destruct (outCallbacks tree) as [|o os] eqn:Ho.
  { exists proc1, None. split; [done|]. intros c [[a Ha]|[n Hn]]; [by eapply Hin|]. rewrite Ho in Hn. by apply not_elem_of_nil in Hn. }
  destruct (out_decls_spec callbackTypes (if is_g2h proc then $"GuestToHost" else $"HostToGuest") (proc_name proc1)
    (negb (is_g2h proc)) (o :: os)) as (u & Hu & Hdecl). rewrite Hu. cbn [mbind run_bind].
  destruct u as [text|err]; eexists _, _; (split; [done|]).
  - intros c [[a Ha]|[n Hn]]; [by eapply Hin|]. rewrite Ho in Hn. by eapply Hdecl.
  - destruct Hdecl as (n & c & Hc & Hrest). exists c. split; [|done]. right. exists n. by rewrite Ho.
Qed.

Lemma fold_emplace_values {A B} (f : A → str) (g : A → B) (l : list A) m k b :
  fold_left (λ m x, emplace (f x) (g x) m) l m !! k = Some b → m !! k = Some b ∨ ∃ x, x ∈ l ∧ b = g x.
Proof.
  clear. revert m. induction l as [|x l IH]; intros m; [by left|]. cbn [fold_left].
  intros [Hm|(y & Hy & ->)]%IH; [|right; exists y; split; [by right|done]].
  unfold emplace in Hm. destruct (m !! f x); [by left|]. apply lookup_insert_Some in Hm as [[_ <-]|[_ Hm]]; [|by left].
  right. exists x. split; [by left|done].
Qed.

Lemma asked_in_tree tree proc c :
  asked tree proc c → (∃ p, (p, c) ∈ tree_paths tree) ∨ ∃ name, (name, c) ∈ outCallbacks tree.
Proof.
  intros [[a Ha]|Ho]; [left|by right]. rewrite entries_elem, init_allocators_paths in Ha.
  apply fold_emplace_values in Ha as [Ha|([p c'] & Hp & ->)]; [by rewrite lookup_empty in Ha|]. by exists p.
Qed.

Section composition.
(** A parameter is no function. *)
Hypothesis Hparams : ∀ fn ret params v,
  function_type fn = Some (ret, params, v) → Forall (λ t, isFunctionType (getCanonicalType t) = false) params.

Lemma callbacks_resolved config nodes s seed mode callbackTypes cache proc :
  config_wf config → Forall node_in_unit nodes → empty_stat s →
  seed ∈ stat_seeds config nodes → in_unit seed.1 → isFunctionPointerType (getCanonicalType seed.1) = true →
  proc_view proc = functionTypeView seed.1 → cache_sound cache →
  ∃ s', stat_HandleTranslationUnit config nodes s = Done s' ∧
    ((∀ sig, registered s' sig → is_Some (callbackTypes !! sig)) →
     ∃ cache' r, substituter_testProc cache proc = Done (cache', r) ∧
       ∀ tree, r = Some tree →
         ∃ proc' e, substituter_begin mode callbackTypes tree proc = Done (proc', e) ∧ answered callbackTypes seed tree proc e).
Proof.
  intros Hwf Hnodes Hs Hseed Hunit Hfp Hview Hcache.
  destruct (stat_spec config nodes s Hwf Hnodes Hs) as (s' & Hstat & _ & _ & Hreg & _). exists s'. split; [done|].
  intros Htypes.
  pose (args := imap (λ i t, ($"arg" ++ dec (i + 1), t)) (view_argTypes (proc_view proc))).
  assert (args.*2 = view_argTypes (proc_view proc)) as Hargs2.
  { unfold args. rewrite fmap_imap. apply list_eq. intros i. rewrite list_lookup_imap. by destruct (_ !! i). }
  assert (∀ t, t ∈ args.*2 → refers (seed_types seed) (getCanonicalType t)) as Hrefer.
  { intros t Ht. rewrite Hargs2, Hview in Ht. by apply view_args_refer. }
  destruct (argument_tree_sound cache (real_info proc) args Hcache) as (cache' & tree & Hbuild & Hpaths & Houts).
  - unfold real_info, info_of_view, args. cbn [arguments]. by rewrite fmap_imap.
  - rewrite Hargs2, Hview. unfold functionTypeView. destruct (function_type _) as [[[ret params] v]|] eqn:Hfn; [|constructor].
    cbn [view_argTypes]. by eapply Hparams.
  - unfold substituter_testProc. rewrite Hbuild. cbn [mbind run_bind]. eexists _, _. split; [done|].
    assert (∀ c, asked tree proc c → pointed (seed_types seed) c) as Hpointed.
    { intros c [[p Hp]|[n Hn]]%asked_in_tree; [by eapply fields_path_pointed, Hpaths|].
      apply Houts in Hn as (t & Ht & Hcallee). eapply out_callee_pointed; [|exact Hcallee].
      apply Hrefer, list_elem_of_fmap. by exists (n, t). }
    intros tree'. destruct (status tree) eqn:Hst; intros [= <-].
    2: { unfold substituter_begin. rewrite Hst. eexists _, None. split; [done|by left]. }
    destruct (substituter_begin_spec mode callbackTypes tree proc Hst) as (proc' & e & Hb & Hspec). exists proc', e.
    split; [done|]. destruct e as [err|]; [|by right]. destruct Hspec as (c & Hc & Hn & ->). split; [done|].
    exists c. split; [done|]. split; [done|]. split; [done|].
    destruct (Hpointed c Hc) as (t & callee & Ht & Hct & Hpt & Hf & Heq). exists t. split; [done|].
    assert (isFunctionPointerType t = true) as Hft by by rewrite function_pointer, Hpt.
    split; [done|]. split; [by exists callee|]. intros Heq'. apply Hn. unfold pointer_named. rewrite Heq'.
    apply Htypes, Hreg. exists seed. split; [done|]. by exists t.
Qed.

(** C14: the statistics and the substituter agree but on qualified pointers.  For a function
    or callback that the statistics walk, the substituter builds the tree of its arguments and
    asks for the name of each callback's type.  It finds the registered name of every callback
    whose pointer is the plain one to its function, and it ends without a diagnostic exactly
    when it has found all.  Otherwise it reports one that it has not found, and this is a
    callback behind a qualified pointer of the seed's, such as a [const] member: the
    statistics register that pointer's own spelling, the substituter asks for the plain
    one. *)
Theorem callbacks_registered config nodes s seed mode callbackTypes cache proc :
  config_wf config → Forall node_in_unit nodes → empty_stat s →
  seed ∈ stat_seeds config nodes → in_unit seed.1 → isFunctionPointerType (getCanonicalType seed.1) = true →
  proc_view proc = functionTypeView seed.1 → cache_sound cache →
  ∃ s', stat_HandleTranslationUnit config nodes s = Done s' ∧
    ((∀ sig, registered s' sig → is_Some (callbackTypes !! sig)) →
     ∃ cache' r, substituter_testProc cache proc = Done (cache', r) ∧
       ∀ tree, r = Some tree →
         ∃ proc' e, substituter_begin mode callbackTypes tree proc = Done (proc', e) ∧ answered callbackTypes seed tree proc e).
Proof. apply callbacks_resolved. Qed.
End composition.
End stat.

(** ** An example: the unit of CallbackTree, and a section of functions *)

Definition u_types : list UType :=
  [U_api_ptr; U_api; U_node_ptr; U_node; U_ops; U_ops_ptr; U_fn_ptr; U_fn_ptr_ptr; U_int; U_cell_ptr; U_cell; U_fn;
   U_void; U_loop; U_loop_ptr; U_fn_const_ptr; U_vt; U_vt_ptr; U_use; U_use_ptr; U_void_ptr; U_va_tag; U_va_array;
   U_va_ptr].

#[export] Instance u_unit : @ClangUnit u_clang u_records.
Proof.
  refine {| fn_location := λ _ : @FunctionDecl u_clang, $"api.h:1:6"; constantExpr := λ _ : @Expr u_clang, None;
            stringLiteral := λ _ : @Expr u_clang, None; unit_types := u_types : list (@QualType u_clang) |}.
  intros t t' _ _. destruct t'; repeat first [by left | right].
Defined.

Definition u_config : ConfigFile :=
  MkConfig
    [new_section GlobalSectionName;
     MkSection ($"Function") [($"api", []); ($"gone", [])] (<[$"gone" := 1]> (<[$"api" := 0]> ∅))]
    (<[$"Function" := 1]> (<[GlobalSectionName := 0]> ∅)) 0 [].

Lemma u_config_wf : config_wf u_config.
Proof.
  assert (∀ a b : str, a ≠ b → index_wf (<[b := 1]> (<[a := 0]> ∅)) [a; b]) as Htwo.
  { intros a b Hab. apply (index_wf_snoc _ [a] b); [apply (index_wf_snoc ∅ [] a)|].
    - apply index_wf_nil.
    - apply not_elem_of_nil.
    - intros Hin. apply list_elem_of_singleton in Hin. congruence. }
  split; simpl; [by apply Htwo| |lia|done].
  apply Forall_cons. split; [apply new_section_wf|]. apply Forall_singleton. by apply Htwo.
Qed.

Definition u_stat_nodes : list (@StatNode u_clang) := [@SN_functionDecl u_clang tt].
Definition u_empty : ManifestSummary := MkSummary ($"api.cpp") (∅, ∅) (∅, ∅) ∅.

Lemma u_empty_stat : empty_stat u_empty.
Proof. done. Qed.

Lemma u_in_unit (t : UType) : @in_unit u_clang u_records u_unit t.
Proof. unfold in_unit. destruct t; repeat first [by left | right]. Qed.

Lemma u_nodes_in_unit : Forall (@node_in_unit u_clang u_records u_unit) u_stat_nodes.
Proof. apply Forall_singleton, u_in_unit. Qed.

Definition u_seed : @Seed u_clang := (U_api_ptr, false).

Lemma u_seed_in : u_seed ∈ @stat_seeds u_clang u_config u_stat_nodes.
Proof.
  assert (@stat_seeds u_clang u_config u_stat_nodes = [u_seed]) as -> by (vm_compute; reflexivity). by left.
Qed.

(** [api] is counted and [gone] is missing; a parameter of [api] is a callback, and the
    function itself is none. *)
Lemma stat_exact_witness :
  ∃ s', @stat_HandleTranslationUnit u_clang u_records u_unit u_config u_stat_nodes u_empty = Done s' ∧
    counted s' GuestToHost ($"api") ∧ lost s' GuestToHost ($"gone") ∧ registered s' ($"void (*)(void)").
Proof.
  destruct (@stat_exact u_clang u_records u_unit u_config u_stat_nodes u_empty u_config_wf u_nodes_in_unit u_empty_stat)
    as (s' & Hs' & Hc & Hl & Hr).
  exists s'. split; [exact Hs'|]. split; [|split].
  - apply Hc. split; [apply (bool_decide_unpack _); vm_compute; exact I|]. by exists tt.
  - apply Hl. split; [apply (bool_decide_unpack _); vm_compute; exact I|]. reflexivity.
  - apply Hr. exists u_seed. split; [exact u_seed_in|]. exists U_fn_ptr. split; [|split; [reflexivity|vm_compute; reflexivity]].
    apply (@refers_seed u_clang u_records _ U_fn_ptr). cbn. right. by left.
Defined.


Definition u_proc : @ProcSnippet u_clang := @function_proc u_clang GuestToHost tt ($"api") None (MkByPhase None None None).

(** The names of the bridge: one for each callback of the statistics. *)
Definition u_names_of (nodes : list (@StatNode u_clang)) : gmap str (UType * str) :=
  match @stat_HandleTranslationUnit u_clang u_records u_unit u_config nodes u_empty with
  | Done s => (λ _, (U_fn_ptr, $"PFN_api")) <$> ManifestSummary.callbacks s
  | _ => ∅
  end.
Definition u_callbackTypes : gmap str (UType * str) := u_names_of u_stat_nodes.

Lemma u_names_registered nodes s :
  @stat_HandleTranslationUnit u_clang u_records u_unit u_config nodes u_empty = Done s →
  ∀ sig, registered s sig → is_Some (u_names_of nodes !! sig).
Proof. intros Hs sig [info Hi]. unfold u_names_of. rewrite Hs, lookup_fmap, Hi. by eexists. Qed.

Lemma u_params (fn ret : UType) (params : list UType) (v : bool) :
  @function_type u_clang fn = Some (ret, params, v) → Forall (λ t, u_is_function t = false) params.
Proof. destruct fn; intros [= <- <- <-]; repeat constructor. Qed.

(** A callback type whose argument is a structure with a [const] callback, and the
    statistics and names of a manifest that describes it. *)
Definition u_use_nodes : list (@StatNode u_clang) :=
  [@SN_procCbDescDecl u_clang (MkClassDecl ($"ProcCbDesc") [] (Some (true, [TA_Type U_use_ptr])))].
Definition u_use_seed : @Seed u_clang := (U_use_ptr, true).
Definition u_use_proc : @ProcSnippet u_clang :=
  @callback_proc u_clang GuestToHost U_use_ptr ($"use") None (MkByPhase None None None).
Lemma u_use_seed_in : u_use_seed ∈ @stat_seeds u_clang u_config u_use_nodes.
Proof.
  assert (@stat_seeds u_clang u_config u_use_nodes = [u_use_seed]) as -> by (vm_compute; reflexivity). by left.
Qed.

Lemma u_cache_sound : @cache_sound u_clang u_records ∅.
Proof. intros T tree _ Hl. rewrite lookup_empty in Hl. discriminate Hl. Qed.

(** What the pass ends with on a procedure. *)
Definition u_begun (callbackTypes : gmap str (UType * str)) (proc : @ProcSnippet u_clang) : run (option str) :=
  '(_, r) ← @substituter_testProc u_clang u_records ∅ proc;
  tree ← defined r;
  '(_, e) ← @substituter_begin u_clang Host callbackTypes tree proc;
  Done e.

Lemma u_begun_answered callbackTypes proc seed e0 :
  (∃ cache' r, @substituter_testProc u_clang u_records ∅ proc = Done (cache', r) ∧
     ∀ tree, r = Some tree → ∃ proc' e, @substituter_begin u_clang Host callbackTypes tree proc = Done (proc', e) ∧
       @answered u_clang u_records callbackTypes seed tree proc e) →
  u_begun callbackTypes proc = Done e0 →
  ∃ cache' tree proc', @substituter_testProc u_clang u_records ∅ proc = Done (cache', Some tree) ∧
    @substituter_begin u_clang Host callbackTypes tree proc = Done (proc', e0) ∧
    @answered u_clang u_records callbackTypes seed tree proc e0.
Proof.
  unfold u_begun. intros (cache' & r & Htest & Hbegin) He. rewrite Htest in He. cbn [mbind run_bind] in He.
  destruct r as [tree|]; [|done]. cbn [defined mbind run_bind] in He.
  destruct (Hbegin tree eq_refl) as (proc' & e & Hb & Ha). rewrite Hb in He. cbn [mbind run_bind] in He.
  injection He as <-. by exists cache', tree, proc'.
Qed.

(** [api] has all its names; [use] is not given that of its [const] callback. *)
Lemma callbacks_registered_witness :
  (∃ cache' tree proc', @substituter_testProc u_clang u_records ∅ u_proc = Done (cache', Some tree) ∧
     @substituter_begin u_clang Host u_callbackTypes tree u_proc = Done (proc', None) ∧
     @answered u_clang u_records u_callbackTypes u_seed tree u_proc None) ∧
  let err := Some ($"callback not found for type: void (*)(void)") in
  ∃ cache' tree proc', @substituter_testProc u_clang u_records ∅ u_use_proc = Done (cache', Some tree) ∧
    @substituter_begin u_clang Host (u_names_of u_use_nodes) tree u_use_proc = Done (proc', err) ∧
    @answered u_clang u_records (u_names_of u_use_nodes) u_use_seed tree u_use_proc err.
Proof.
  split.
  - destruct (@callbacks_registered u_clang u_records u_unit u_params u_config u_stat_nodes u_empty
      u_seed Host u_callbackTypes ∅ u_proc u_config_wf u_nodes_in_unit u_empty_stat u_seed_in) as (s' & Hs' & Hall);
      [apply u_in_unit|reflexivity|reflexivity|exact u_cache_sound|].
    apply (u_begun_answered _ _ _ _ (Hall (u_names_registered _ _ Hs'))). vm_compute. reflexivity.
  - destruct (@callbacks_registered u_clang u_records u_unit u_params u_config u_use_nodes u_empty
      u_use_seed Host (u_names_of u_use_nodes) ∅ u_use_proc u_config_wf) as (s' & Hs' & Hall);
      [apply Forall_singleton; intros seed _; apply u_in_unit|exact u_empty_stat|exact u_use_seed_in|apply u_in_unit
      |reflexivity|reflexivity|exact u_cache_sound|].
    apply (u_begun_answered _ _ _ _ (Hall (u_names_registered _ _ Hs'))). vm_compute. reflexivity.
Defined.
