(* ===== verification/GenerateCommand.v ===== *)
(** The generation of a thunk library's sources: [src/tools/TLC/Commands/Generate.cpp].

    The command reads the statistics, asks the document for the procs they name and parses a
    unit of its own, the bridge, that includes the manifest and names the callback types.
    The theorem composes the commands: what [stat] collects, a file carries and [generate]
    requests, the callback substituter resolves. *)

From stdpp Require Import gmap.
From S2P Require Import Prelude CppString StringExtras FsPath ConfigFile Json ManifestSummary ClangExtras Document.
From S2P Require Import PassTemplates ThunkCode CallbackTree CallbackSubstituter StatCommand.

(** ** The bridge *)

Fixpoint escapeForCIncludePath (path : str) : str :=
  match path with
  | [] => []
  | ch :: path =>
      (if (ch =c? c_backslash) || (ch =c? c_dquote) then [c_backslash; ch] else [ch]) ++ escapeForCIncludePath path
  end.

(** The name of the [i]th callback, from 1. *)
Definition bridge_alias (i : nat) (info : CallbackInfo) : str :=
  match alias info with [] => $"PFN_UnknownCallback_" ++ dec i | al => al end.

Fixpoint bridge_usings (i : nat) (callbacks : list (str * CallbackInfo)) : str :=
  match callbacks with
  | [] => []
  | (_, info) :: callbacks =>
      $"using " ++ bridge_alias (S i) info ++ $" = " ++ signature info ++ $";" ++ [c_nl] ++ bridge_usings (S i) callbacks
  end.

Definition buildBridgeTranslationUnitText (manifestPath : str) (stat : ManifestSummary) : str :=
  $"// Auto-generated virtual translation unit for TLC generate" ++ [c_nl]
  ++ $"#include " ++ [c_dquote] ++ escapeForCIncludePath manifestPath ++ [c_dquote; c_nl; c_nl]
  ++ $"namespace lore::thunk::__bridge__ {" ++ [c_nl]
  ++ bridge_usings 0 (entries (ManifestSummary.callbacks stat))
  ++ $"}" ++ [c_nl].

(** ** Paths and arguments *)

(** [stem]: the file name up to its last dot; a leading dot is part of it, and [.] and [..]
    have no extension. *)
Definition stem (p : str) : str :=
  let name := filename p in
  if (name =s? $".") || (name =s? $"..") then name
  else match rfind_char "."%char name with
       | None | Some 0 => name
       | Some i => take i name
       end.

(** An absolute path, normalized. *)
Definition normalize_from (cwd path : str) : str :=
  lexically_normal (if is_absolute path then path else path_append cwd path).

Definition bridge_path (manifestPath : str) : str :=
  lexically_normal (path_append (parent_path manifestPath) (stem manifestPath ++ $"_TLCBridge.cpp")).

(** The adjuster of the compiler's arguments. *)
Definition adjust_argument (cwd manifestPath arg : str) : str :=
  if (arg =s? manifestPath) || (normalize_from cwd arg =s? normalize_from cwd manifestPath)
  then bridge_path manifestPath else arg.

Definition adjust_arguments (cwd manifestPath : str) (args : list str) : list str :=
  adjust_argument cwd manifestPath <$> args.

(** ** The document *)

Section generate.
Context `{Clang}.

Definition requested_data (stat : ManifestSummary) : (gset str * gset str) * gmap str str :=
  ((dom (functions stat).1, dom (functions stat).2), alias <$> ManifestSummary.callbacks stat).

Definition generate_document (mode : Mode) (manifestPath : str) (stat : ManifestSummary) : DocumentContext :=
  let '(fns, cbs) := requested_data stat in initialize mode (fileName stat) manifestPath fns cbs.

(** The bridge's own declarations as Clang binds them: each [using] is a type alias in the
    bridge's namespace whose type has the signature's spelling. *)
Definition bridge_parsed (stat : ManifestSummary) (nodes : list Node) : Prop :=
  ∀ i sig info, entries (ManifestSummary.callbacks stat) !! i = Some (sig, info) →
    ∃ t, N_typeAliasDecl (BridgeNamespacePrefix ++ bridge_alias (S i) info) (bridge_alias (S i) info) t ∈ nodes ∧
      isFunctionPointerType (getCanonicalType t) = true ∧ getTypeString (getCanonicalType t) = Done sig.

(** ** What the matcher names stays named *)

Definition named (c : Collected) (sig : str) : Prop := is_Some (namedCallbackBySignature c !! sig).

Lemma match_alias_named c q n t c' sig : match_alias c q n t = Done c' → named c sig → named c' sig.
Proof.
  unfold match_alias. destruct (isBridgeNamespaceDecl q); cbn [negb]; [|by intros [= <-]].
  destruct (isFunctionPointerType (getCanonicalType t)); cbn [negb]; [|by intros [= <-]].
  destruct (getTypeString (getCanonicalType t)) as [s| |]; [|done|done]. cbn [mbind run_bind]. intros [= <-] Hn.
  unfold named in *. cbn [namedCallbackBySignature]. destruct (decide (s = sig)) as [->|Hne];
    [rewrite lookup_insert_eq; by eexists|by rewrite lookup_insert_ne].
Qed.

Lemma matchCallback_named c n c' sig : matchCallback c n = Done c' → named c sig → named c' sig.
Proof.
  destruct n; cbn [matchCallback]; try (by apply match_alias_named); try (by intros [= <-]).
  - destruct (negb _); by intros [= <-].
  - destruct (explicit_args decl 1) as [[|a [|]]|]; try (by intros [= <-]).
    destruct (extractFunctionDeclFromTemplateArg a); by intros [= <-].
  - destruct (explicit_args decl 1) as [[|a [|]]|]; try (by intros [= <-]).
    destruct (callback_arg a); [|by intros [= <-]]. destruct (getTypeString _); [|done|done]. by intros [= <-].
  - destruct (explicit_args decl 3) as [[|a [|b [|d [|]]]]|]; try (by intros [= <-]).
    destruct (extractFunctionDeclFromTemplateArg a), (extractDirectionArg b), (extractPhaseArg d); by intros [= <-].
  - destruct (explicit_args decl 3) as [[|a [|b [|d [|]]]]|]; try (by intros [= <-]).
    destruct (callback_arg a), (extractDirectionArg b), (extractPhaseArg d); try (by intros [= <-]).
    destruct (getTypeString _); [|done|done]. by intros [= <-].
Qed.

Lemma matchAST_named nodes c c' sig : matchAST c nodes = Done c' → named c sig → named c' sig.
Proof.
  revert c. induction nodes as [|n nodes IH]; intros c; [by intros [= <-]|]. cbn [matchAST].
  destruct (matchCallback c n) as [c1| |] eqn:Hm; [|done|done]. cbn [mbind run_bind]. intros Hr Hn.
  apply (IH c1); [done|]. by eapply matchCallback_named.
Qed.

Lemma contains_prefix p s : contains (p ++ s) p = true.
Proof.
  clear. unfold contains. pose proof (prefixb_app p s) as Hp. destruct (p ++ s); cbn [find]; by rewrite Hp.
Qed.

Lemma matchAST_alias nodes c c' name t sig :
  matchAST c nodes = Done c' → N_typeAliasDecl (BridgeNamespacePrefix ++ name) name t ∈ nodes →
  isFunctionPointerType (getCanonicalType t) = true → getTypeString (getCanonicalType t) = Done sig → named c' sig.
Proof.
  revert c. induction nodes as [|n nodes IH]; intros c Hr Hin Hf Hs; [by apply not_elem_of_nil in Hin|].
  cbn [matchAST] in Hr. destruct (matchCallback c n) as [c1| |] eqn:Hm; [|done|done]. cbn [mbind run_bind] in Hr.
  apply elem_of_cons in Hin as [<-|Hin]; [|by apply (IH c1)].
  apply (matchAST_named nodes c1); [done|]. cbn [matchCallback] in Hm. unfold match_alias, isBridgeNamespaceDecl in Hm.
  rewrite contains_prefix, Hf, Hs in Hm. cbn in Hm. injection Hm as <-.
  unfold named. cbn [namedCallbackBySignature]. rewrite lookup_insert_eq. by eexists.
Qed.
End generate.

(** ** From [stat] to the substituter *)

Section pipeline.
Context `{ClangUnit}.
Variable read_file : str → str + str.
Variable parse : str → str + Json.
Variable print : Json → str.
Variable open_error : str → option str.
Variable write_failed : str → bool.
Variable alias_maker_error : option str.
(** A parameter is no function. *)
Hypothesis Hparams : ∀ fn ret params v,
  function_type fn = Some (ret, params, v) → Forall (λ t, isFunctionType (getCanonicalType t) = false) params.

Lemma generate_callbackTypes mode manifestPath stat nodes doc' sig :
  bridge_parsed stat nodes →
  beginProcessDocument alias_maker_error nodes (generate_document mode manifestPath stat) = Done (doc', None) →
  registered stat sig → is_Some (m_callbackTypes doc' !! sig).
Proof.
  intros Hbridge Hbegin [info Hinfo]. unfold beginProcessDocument in Hbegin.
  destruct (matchAST collected_empty nodes) as [c| |] eqn:Hc; [|done|done]. cbn [mbind run_bind] in Hbegin.
  destruct (procFnTemplateDecl c); cbn [negb] in Hbegin; [|done]. destruct alias_maker_error; [done|].
  injection Hbegin as <-. cbn [m_callbackTypes].
  assert (named c sig) as [x Hx].
  { apply entries_elem, list_elem_of_lookup in Hinfo as [i Hi].
    destruct (Hbridge i sig info Hi) as (t & Hin & Hf & Hs). by eapply matchAST_alias. }
  exists x. apply map_lookup_filter_Some. split; [done|]. unfold callback_requested.
  cbn [fst snd generate_document requested_data initialize requested_callbacks].
  rewrite bool_decide_true; [done|]. rewrite lookup_fmap, Hinfo. by eexists.
Qed.

(** C11: the commands fit together but on qualified pointers.  For a function or callback
    that the configuration or the manifest names, [stat] collects and saves statistics which
    [generate] loads as they were.  The document it makes has a name for the type of every
    callback in the arguments whose pointer is the plain one to its function: the substituter
    ends without a diagnostic exactly when it has found all the names it asks for, and what
    it reports as not found is a callback behind a qualified pointer, such as a [const]
    member, whose own spelling was collected instead. *)
Theorem pipeline_resolves config nodes s seed path text self mode manifestPath gnodes doc' cache proc :
  config_wf config → Forall node_in_unit nodes → empty_stat s →
  seed ∈ stat_seeds config nodes → in_unit seed.1 → isFunctionPointerType (getCanonicalType seed.1) = true →
  proc_view proc = functionTypeView seed.1 → cache_sound cache →
  ∃ s', stat_HandleTranslationUnit config nodes s = Done s' ∧
    (parse (print (summary_json s')) = inr (summary_json s') →
     saveAsJson print open_error write_failed path s' = (true, None, Some text) → read_file path = inr text →
     ∃ s'', loadFromJson read_file parse path self = (s'', true, None) ∧
       (bridge_parsed s'' gnodes →
        beginProcessDocument alias_maker_error gnodes (generate_document mode manifestPath s'') = Done (doc', None) →
        ∃ cache' r, substituter_testProc cache proc = Done (cache', r) ∧
          ∀ tree, r = Some tree →
            ∃ proc' e, substituter_begin mode (m_callbackTypes doc') tree proc = Done (proc', e) ∧
              answered (m_callbackTypes doc') seed tree proc e)).
Proof using Hparams.
  intros Hwf Hnodes Hs Hseed Hunit Hfp Hview Hcache.
  destruct (callbacks_resolved Hparams config nodes s seed mode (m_callbackTypes doc') cache proc)
    as (s' & Hstat & Hresolve); [done..|].
  destruct (stat_spec config nodes s Hwf Hnodes Hs) as (s1 & Hstat' & _ & _ & _ & Hswf).
  rewrite Hstat in Hstat'. injection Hstat' as <-.
  exists s'. split; [done|]. intros Hparse Hsave Hread. exists s'.
  split; [by eapply load_saved|]. intros Hbridge Hbegin. apply Hresolve. intros sig. by eapply generate_callbackTypes.
Qed.
End pipeline.

(** ** An example: the unit of StatCommand *)

Definition u_result : ManifestSummary :=
  match @stat_HandleTranslationUnit u_clang u_records u_unit u_config u_stat_nodes u_empty with Done s => s | _ => u_empty end.

Definition u_bridge_nodes : list (@Node u_clang) :=
  [@N_procFnTemplateDecl u_clang; @N_functionDecl u_clang tt;
   @N_typeAliasDecl u_clang (BridgeNamespacePrefix ++ $"PFN_UnknownCallback_1") ($"PFN_UnknownCallback_1") U_fn_ptr].

Example u_bridge_text :
  buildBridgeTranslationUnitText ($"/src/api.cpp") u_result =
  join [$"// Auto-generated virtual translation unit for TLC generate";
        $"#include " ++ [c_dquote] ++ $"/src/api.cpp" ++ [c_dquote]; []; $"namespace lore::thunk::__bridge__ {";
        $"using PFN_UnknownCallback_1 = void (*)(void);"; $"}"; []] [c_nl].
Proof. vm_compute. reflexivity. Qed.

Example bridge_path_ex : bridge_path ($"libs/./api.cpp") = $"libs/api_TLCBridge.cpp".
Proof. vm_compute. reflexivity. Qed.

Example adjust_ex :
  adjust_arguments ($"/src") ($"api.cpp") [$"-c"; $"./api.cpp"; $"/src/api.cpp"; $"other.cpp"] =
  [$"-c"; $"api_TLCBridge.cpp"; $"api_TLCBridge.cpp"; $"other.cpp"].
Proof. vm_compute. reflexivity. Qed.

Lemma u_bridge_parsed : @bridge_parsed u_clang u_result u_bridge_nodes.
Proof.
  assert (entries (ManifestSummary.callbacks u_result) =
    [($"void (*)(void)", MkCallbackInfo ($"void (*)(void)") [] ($"Config[Function]:api@arg3@ptr"))]) as Hentries
    by (vm_compute; reflexivity).
  intros [|i] sig info; rewrite Hentries; [|done]. intros [= <- <-]. exists U_fn_ptr. split; [|split; [reflexivity|vm_compute; reflexivity]].
  right. right. by left.
Qed.

Lemma begun_ok {A B} (m : run (A * option B)) :
  (match m with Done (_, None) => true | _ => false end) = true → ∃ d, m = Done (d, None).
Proof. destruct m as [[d [e|]]| |]; try done. by eexists. Qed.

Lemma loaded_value {A B C} (a a' : A) (b b' : B) (c c' : C) : (a, b, c) = (a', b', c') → a' = a.
Proof. by intros [= -> _ _]. Qed.

Lemma u_begin :
  ∃ doc', @beginProcessDocument u_clang None u_bridge_nodes (@generate_document u_clang Host ($"/src/api.cpp") u_result) = Done (doc', None).
Proof. apply begun_ok. vm_compute. reflexivity. Qed.

Lemma u_begin_names doc' :
  @beginProcessDocument u_clang None u_bridge_nodes (@generate_document u_clang Host ($"/src/api.cpp") u_result) = Done (doc', None) →
  u_begun (m_callbackTypes doc') u_proc = Done None.
Proof.
  intros Hd.
  assert (match @beginProcessDocument u_clang None u_bridge_nodes (@generate_document u_clang Host ($"/src/api.cpp") u_result) with
    | Done (d, _) => u_begun (m_callbackTypes d) u_proc = Done None
    | _ => True
    end) as Hr by (vm_compute; reflexivity).
  by rewrite Hd in Hr.
Qed.

Lemma u_loaded :
  loadFromJson (λ _, inr ($"text")) (λ _, inr (summary_json u_result)) ($"api.json") u_empty = (u_result, true, None).
Proof. vm_compute. reflexivity. Qed.

Lemma pipeline_resolves_witness :
  ∃ doc' cache' tree proc',
    @beginProcessDocument u_clang None u_bridge_nodes (@generate_document u_clang Host ($"/src/api.cpp") u_result) = Done (doc', None) ∧
    @substituter_testProc u_clang u_records ∅ u_proc = Done (cache', Some tree) ∧
    @substituter_begin u_clang Host (m_callbackTypes doc') tree u_proc = Done (proc', None) ∧
    @answered u_clang u_records (m_callbackTypes doc') u_seed tree u_proc None.
Proof.
  destruct u_begin as [doc' Hbegin].
  destruct (@pipeline_resolves u_clang u_records u_unit (λ _, inr ($"text")) (λ _, inr (summary_json u_result)) (λ _, $"text")
    (λ _, None) (λ _, false) None u_params u_config u_stat_nodes u_empty u_seed ($"api.json") ($"text")
    u_empty Host ($"/src/api.cpp") u_bridge_nodes doc' ∅ u_proc u_config_wf u_nodes_in_unit u_empty_stat u_seed_in)
    as (s' & Hstat & Hload).
  - apply u_in_unit.
  - reflexivity.
  - reflexivity.
  - exact u_cache_sound.
  - assert (s' = u_result) as -> by (unfold u_result; rewrite Hstat; reflexivity).
    destruct (Hload eq_refl eq_refl eq_refl) as (s'' & Hs'' & Hrest). rewrite u_loaded in Hs''. apply loaded_value in Hs'' as ->.
    destruct (u_begun_answered _ _ _ None (Hrest u_bridge_parsed Hbegin)) as (cache' & tree & proc' & Htest & Hb & Ha).
    + apply (u_begin_names _ Hbegin).
    + exists doc', cache', tree, proc'. exact (conj Hbegin (conj Htest (conj Hb Ha))).
Defined.
