(* ===== verification/ProcTables.v ===== *)
(** The procedure tables of a thunk library: [ThunkInterface/Detail/ProcTable.cpp.inc],
    [ProcInit.cpp.inc], [ProcImpl.cpp.inc] and the [Exec] layers of [ManifestOnBuild.cpp.inc].

    The sources that [generate] writes ([Document]) define lists of procs as macros; both
    sides of a thunk library number their procs by these lists, fill tables with the
    addresses of their entries, resolve their own library's symbols ([Runtime]) and exchange
    the tables by position when the guest starts.  The theorems say what a call then
    reaches: with lists that agree, the other side's entry of the same proc; and that the
    lists agree if both sides declare the same of what was requested. *)

From stdpp Require Import gmap sorting.
From S2P Require Import Prelude CppString StringExtras FsPath NextLibrary Runtime ManifestSummary PassScheduler ClangExtras.
From S2P Require Import Document CallbackTree StatCommand GenerateCommand.

(** ** The lists and the numbers of the procs *)

(** [LORE_THUNK_FUNCTION_G2H_FOREACH] and the other two; a callback has its signature. *)
Record Foreach : Type := MkForeach {
  G2H_FOREACH : list str;
  H2G_FOREACH : list str;
  CALLBACK_FOREACH : list (str * str)
}.

(** The name and the key of each proc of a kind and direction. *)
Definition rows (f : Foreach) (k : ProcKind) (d : Direction) : list (str * str) :=
  match k, d with
  | Function_, GuestToHost => (λ n, (n, n)) <$> G2H_FOREACH f
  | Function_, HostToGuest => (λ n, (n, n)) <$> H2G_FOREACH f
  | Callback, _ => CALLBACK_FOREACH f
  end.

(** [getHostFunctionIndex], [getGuestFunctionIndex] and [getCallbackIndex]: the value of the
    enumerator; a name that is not in the list has none. *)
Definition get_index (f : Foreach) (k : ProcKind) (d : Direction) (name : str) : option nat :=
  fst <$> list_find (λ row, row.1 = name) (rows f k d).

(** An enumeration does not declare a name twice. *)
Definition compiles (f : Foreach) : Prop := ∀ k d, NoDup (rows f k d).*1.

(** ** The tables *)

Record ProcInfoPair : Type := MkPair { key : option str; addr : Z }.
Definition no_proc : ProcInfoPair := MkPair None 0.

(** The arrays, which have a slot more than there are procs, and [emuAddr]. *)
Record ProcTables : Type := MkTables {
  guestEntries : ProcKind → Direction → list ProcInfoPair;
  hostEntries : ProcKind → Direction → list ProcInfoPair;
  libraryFunctions : list ProcInfoPair;
  emuAddr : Z
}.

Definition library_direction (side : Mode) : Direction := match side with Host => GuestToHost | Guest => HostToGuest end.
Definition zero_array (n : nat) : list ProcInfoPair := replicate (S n) no_proc.

Definition static_tables (side : Mode) (f : Foreach) : ProcTables :=
  let zero k d := zero_array (length (rows f k d)) in
  MkTables zero zero (zero Function_ (library_direction side)) 0.

(** The size of a [ProcArrayRef] of such an array. *)
Definition proc_size (arr : list ProcInfoPair) : nat := length arr - 1.

(** ** [preInitialize] *)

(** A macro's expansion for the rows, in order, from the number [i]. *)
Fixpoint for_rows (F : nat → str * str → list ProcInfoPair → list ProcInfoPair) (i : nat) (l : list (str * str))
    (arr : list ProcInfoPair) : list ProcInfoPair :=
  match l with
  | [] => arr
  | row :: l => for_rows F (S i) l (F i row arr)
  end.

Definition set_proc (address : str → Z) (i : nat) (row : str * str) (arr : list ProcInfoPair) : list ProcInfoPair :=
  <[i := MkPair (Some row.2) (address row.1)]> arr.
Definition set_key (i : nat) (row : str * str) (arr : list ProcInfoPair) : list ProcInfoPair :=
  alter (λ p, MkPair (Some row.2) (addr p)) i arr.

Section sides.
(** The addresses of [ProcFn<NAME, Direction, Entry>::invoke] and of [ProcCb], on each side,
    and the symbols that a host thunk is linked with. *)
Variable invoke : Mode → ProcKind → Direction → str → Z.
Variable symbol : str → Z.

Definition preInitialize (side : Mode) (autoLink : bool) (f : Foreach) (t : ProcTables) : ProcTables :=
  let own entries k d := for_rows (set_proc (invoke side k d)) 0 (rows f k d) (entries k d) in
  let peer entries k d := for_rows set_key 0 (rows f k d) (entries k d) in
  let library := rows f Function_ (library_direction side) in
  let functions := match side, autoLink with
                   | Host, true => for_rows (set_proc symbol) 0 library (libraryFunctions t)
                   | _, _ => for_rows set_key 0 library (libraryFunctions t)
                   end in
  match side with
  | Host => MkTables (peer (guestEntries t)) (own (hostEntries t)) functions (emuAddr t)
  | Guest => MkTables (own (guestEntries t)) (peer (hostEntries t)) functions (emuAddr t)
  end.

(** ** Starting the host's side: [HostThunkContext::initialize] on the tables *)

Definition to_proc (p : ProcInfoPair) : str * option Z :=
  (default [] (key p), if (addr p =? 0)%Z then None else Some (addr p)).
Definition of_proc (p : str * option Z) : ProcInfoPair := MkPair (Some p.1) (default 0%Z p.2).

(** The thunk's own library functions, as [thisProcs] refers to them. *)
Definition this_procs (t : ProcTables) : list (str * option Z) :=
  to_proc <$> take (proc_size (libraryFunctions t)) (libraryFunctions t).
Definition with_this_procs (procs : list (str * option Z)) (emu : Z) (t : ProcTables) : ProcTables :=
  MkTables (guestEntries t) (hostEntries t)
    ((of_proc <$> procs) ++ drop (proc_size (libraryFunctions t)) (libraryFunctions t)) emu.

Context {L : Type} (dlopen : L → str → bool → L * option Z) (dlsym : L → Z → str → option Z).
(** The module's path, the database's libraries, the variables, [HostServer::emuAddr]. *)
Variable selfPath : option str.
Variable hostLibrary : str → option str.
Variable vars : gmap str str.
Variable server_emuAddr : Z.

(** The constructor of the host's [LocalThunkContext]. *)
Definition start_host (l : L) (autoLink : bool) (nextLibraryPath : option str) (f : Foreach) :
    run (L * init_result ProcTables) :=
  let t := preInitialize Host autoLink f (static_tables Host f) in
  '(l, r) ← host_initialize dlopen dlsym l (MkStaticThunkContext autoLink nextLibraryPath (this_procs t)) selfPath hostLibrary vars;
  Done (l, match r with
           | InitAbort => InitAbort
           | InitOk (ctx, _) => InitOk (with_this_procs (thisProcs ctx) server_emuAddr t)
           end).

(** ** [LoreExchangeContext] *)

Fixpoint copy_loop (src : list ProcInfoPair) (i n : nat) (dest : list ProcInfoPair) : list ProcInfoPair :=
  match n with
  | 0 => dest
  | S n => copy_loop src (S i) n (match src !! i with Some p => <[i := p]> dest | None => dest end)
  end.
Definition copyProcs (src dest : list ProcInfoPair) : list ProcInfoPair :=
  copy_loop src 0 (proc_size src `min` proc_size dest) dest.

(** The host's tables and the guest's. *)
Definition LoreExchangeContext (host guest : ProcTables) : ProcTables * ProcTables :=
  (MkTables (λ k d, copyProcs (guestEntries guest k d) (guestEntries host k d)) (hostEntries host)
     (libraryFunctions host) (emuAddr host),
   MkTables (guestEntries guest) (λ k d, copyProcs (hostEntries host k d) (hostEntries guest k d))
     (libraryFunctions guest) (emuAddr host)).

(** The guest's [LocalThunkContext]: its own tables, then the host thunk is loaded, which
    starts the host's side, and the tables are exchanged. *)
Definition start_thunk (l : L) (autoLink : bool) (nextLibraryPath : option str) (guest host : Foreach) :
    run (L * init_result (ProcTables * ProcTables)) :=
  let g := preInitialize Guest false guest (static_tables Guest guest) in
  '(l, r) ← start_host l autoLink nextLibraryPath host;
  Done (l, match r with InitAbort => InitAbort | InitOk h => InitOk (LoreExchangeContext h g) end).

(** ** The [Exec] layers *)

(** [get()]: the address that the layer calls.  [direct] is the address that the name is
    linked to where [LORE_THUNK_CONFIG_DIRECT_INVOKE] is defined; it is what the side that has
    the function itself calls.  A callback's own side calls the callback and has no such
    address; a proc that is not in the list does not compile. *)
Definition exec_get (direct : option (str → Z)) (side : Mode) (k : ProcKind) (d : Direction) (f : Foreach) (t : ProcTables)
    (name : str) : option Z :=
  match direct, side, k, d with
  | Some F, Host, Function_, GuestToHost | Some F, Guest, Function_, HostToGuest => Some (F name)
  | _, _, _, _ =>
  i ← get_index f k d name;
  let table := match side, k, d with
               | Host, Function_, GuestToHost | Guest, Function_, HostToGuest => Some (libraryFunctions t)
               | Guest, _, GuestToHost => Some (hostEntries t k d)
               | Host, _, HostToGuest => Some (guestEntries t k d)
               | Host, Callback, GuestToHost | Guest, Callback, HostToGuest => None
               end in
  arr ← table; addr <$> arr !! i
  end.

(** [isHostAddress] where guest and host have separate ranges. *)
Definition isHostAddress_separated (t : ProcTables) (a : Z) : bool := (emuAddr t <? a)%Z.
End sides.

(** ** Tables by position *)

Section arrays.

Lemma for_rows_lookup F (g : str * str → ProcInfoPair → ProcInfoPair) i l arr j :
  (∀ i row arr j, F i row arr !! j = if decide (i = j) then g row <$> arr !! j else arr !! j) →
  for_rows F i l arr !! j =
    if decide (i ≤ j) then match l !! (j - i) with Some row => g row <$> arr !! j | None => arr !! j end else arr !! j.
Proof.
  intros HF. revert i arr. induction l as [|row l IH]; intros i arr; cbn [for_rows].
  { destruct (decide (i ≤ j)); [|done]. by rewrite lookup_nil. }
  rewrite IH, HF. destruct (decide (S i ≤ j)) as [Hj|Hj].
  - rewrite !decide_False by lia. rewrite decide_True by lia. by replace (j - i) with (S (j - S i)) by lia.
  - destruct (decide (i = j)) as [->|Hne]; [|by rewrite decide_False by lia].
    rewrite decide_True by done. by rewrite Nat.sub_diag.
Qed.

Lemma set_proc_lookup address i row arr j :
  set_proc address i row arr !! j =
    if decide (i = j) then (λ _, MkPair (Some row.2) (address row.1)) <$> arr !! j else arr !! j.
Proof.
  unfold set_proc. rewrite list_lookup_insert. repeat case_decide; try naive_solver.
  - subst. by destruct (lookup_lt_is_Some_2 arr j ltac:(tauto)) as [? ->].
  - subst. rewrite lookup_ge_None_2; [done|]. by apply Nat.nlt_ge; tauto.
Qed.

Lemma set_key_lookup i row arr j :
  set_key i row arr !! j = if decide (i = j) then (λ p, MkPair (Some row.2) (addr p)) <$> arr !! j else arr !! j.
Proof.
  unfold set_key. destruct (decide (i = j)) as [->|Hne]; [by rewrite list_lookup_alter_eq|by rewrite list_lookup_alter_ne].
Qed.

Lemma for_rows_length F i l arr : (∀ i row arr, length (F i row arr) = length arr) → length (for_rows F i l arr) = length arr.
Proof. intros HF. revert i arr. induction l as [|row l IH]; intros i arr; cbn [for_rows]; [done|]. by rewrite IH, HF. Qed.

Lemma set_proc_length address i row arr : length (set_proc address i row arr) = length arr.
Proof. apply length_insert. Qed.
Lemma set_key_length i row arr : length (set_key i row arr) = length arr.
Proof. apply length_alter. Qed.

Lemma copy_loop_lookup src i n dest j :
  n + i ≤ length src → n + i ≤ length dest →
  copy_loop src i n dest !! j = if decide (i ≤ j < n + i) then src !! j else dest !! j.
Proof.
  revert i dest. induction n as [|n IH]; intros i dest Hs Hd; cbn [copy_loop]; [by rewrite decide_False by lia|].
  destruct (lookup_lt_is_Some_2 src i) as [p Hp]; [lia|]. rewrite Hp, IH by (rewrite ?length_insert; lia).
  rewrite list_lookup_insert. destruct (decide (S i ≤ j < n + S i)) as [Hj|Hj].
  - by rewrite decide_True by lia.
  - destruct (decide (i = j)) as [->|Hne]; [rewrite !decide_True by lia; by rewrite Hp|].
    rewrite decide_False by tauto. by rewrite decide_False by lia.
Qed.

(** The arrays of [n] procs, as [preInitialize] leaves them. *)
Definition own_array (address : str → Z) (l : list (str * str)) : list ProcInfoPair :=
  for_rows (set_proc address) 0 l (zero_array (length l)).
Definition key_array (l : list (str * str)) : list ProcInfoPair := for_rows set_key 0 l (zero_array (length l)).

Lemma zero_array_lookup n j : j ≤ n → zero_array n !! j = Some no_proc.
Proof. intros Hj. apply lookup_replicate_2. lia. Qed.

Lemma own_array_lookup address l j row : l !! j = Some row → own_array address l !! j = Some (MkPair (Some row.2) (address row.1)).
Proof.
  intros Hl. pose proof (lookup_lt_Some _ _ _ Hl). unfold own_array.
  rewrite (for_rows_lookup _ (λ row _, MkPair (Some row.2) (address row.1))) by (intros; apply set_proc_lookup).
  rewrite decide_True by lia. by rewrite Nat.sub_0_r, Hl, zero_array_lookup by lia.
Qed.

Lemma key_array_lookup l j row : l !! j = Some row → key_array l !! j = Some (MkPair (Some row.2) 0).
Proof.
  intros Hl. pose proof (lookup_lt_Some _ _ _ Hl). unfold key_array.
  rewrite (for_rows_lookup _ (λ row p, MkPair (Some row.2) (addr p))) by (intros; apply set_key_lookup).
  rewrite decide_True by lia. by rewrite Nat.sub_0_r, Hl, zero_array_lookup by lia.
Qed.

Lemma own_array_size address l : proc_size (own_array address l) = length l.
Proof.
  unfold proc_size, own_array, zero_array. rewrite for_rows_length by apply set_proc_length. rewrite length_replicate. lia.
Qed.
Lemma key_array_size l : proc_size (key_array l) = length l.
Proof.
  unfold proc_size, key_array, zero_array. rewrite for_rows_length by apply set_key_length. rewrite length_replicate. lia.
Qed.

(** The side that gets the entries has, at each number of its own list, the other side's
    entry of that number, or none. *)
Lemma exchanged_lookup address own peer i row :
  peer !! i = Some row →
  addr <$> copyProcs (own_array address own) (key_array peer) !! i =
    Some (match own !! i with Some row' => address row'.1 | None => 0%Z end).
Proof.
  intros Hi. pose proof (lookup_lt_Some _ _ _ Hi). unfold copyProcs. rewrite own_array_size, key_array_size.
  pose proof (own_array_size address own). pose proof (key_array_size peer). unfold proc_size in *.
  rewrite copy_loop_lookup by lia. destruct (own !! i) as [row'|] eqn:Ho.
  - pose proof (lookup_lt_Some _ _ _ Ho). rewrite decide_True by lia. by rewrite (own_array_lookup _ _ _ _ Ho).
  - apply lookup_ge_None in Ho. rewrite decide_False by lia. by rewrite (key_array_lookup _ _ _ Hi).
Qed.
End arrays.

Lemma get_index_row f k d i row : compiles f → rows f k d !! i = Some row → get_index f k d row.1 = Some i.
Proof.
  intros Hf Hi. unfold get_index. destruct (list_find _ _) as [[j row']|] eqn:Hfind; cbn [fmap option_fmap option_map fst].
  - apply list_find_Some in Hfind as (Hj & Hn & _). f_equal. apply (NoDup_lookup (rows f k d).*1 _ _ row.1 (Hf k d)).
    + by rewrite list_lookup_fmap, Hj, <- Hn.
    + by rewrite list_lookup_fmap, Hi.
  - apply list_find_None in Hfind. rewrite Forall_lookup in Hfind. by destruct (Hfind _ _ Hi).
Qed.

(** ** What a started thunk calls *)

Section started.
Variable invoke : Mode → ProcKind → Direction → str → Z.
Variable symbol : str → Z.
Context {L : Type} (dlopen : L → str → bool → L * option Z) (dlsym : L → Z → str → option Z).
Variable selfPath : option str.
Variable hostLibrary : str → option str.
Variable vars : gmap str str.
Variable server_emuAddr : Z.
Abbreviation start := (start_thunk invoke symbol dlopen dlsym selfPath hostLibrary vars server_emuAddr).
Abbreviation host_start := (start_host invoke symbol dlopen dlsym selfPath hostLibrary vars server_emuAddr).

(** A resolved symbol: linked, or found under its name in the library that was opened. *)
Definition resolved_symbol (l' : L) (autoLink : bool) (name : str) (a : Z) : Prop :=
  if autoLink then a = symbol name else ∃ handle, dlsym l' handle name = Some a.

Lemma this_procs_lookup l t i row :
  libraryFunctions t = own_array symbol l ∨ libraryFunctions t = key_array l →
  l !! i = Some row → ∃ a, this_procs t !! i = Some (row.2, a).
Proof.
  intros Hlib Hi. unfold this_procs. rewrite list_lookup_fmap, lookup_take.
  pose proof (lookup_lt_Some _ _ _ Hi). destruct Hlib as [->| ->].
  - rewrite decide_True by (rewrite own_array_size; lia). rewrite (own_array_lookup _ _ _ _ Hi). by eexists.
  - rewrite decide_True by (rewrite key_array_size; lia). rewrite (key_array_lookup _ _ _ Hi). by eexists.
Qed.

Lemma start_host_spec l autoLink nextLibraryPath f l' h :
  host_start l autoLink nextLibraryPath f = Done (l', InitOk h) →
  hostEntries h = (λ k d, own_array (invoke Host k d) (rows f k d)) ∧
  guestEntries h = (λ k d, key_array (rows f k d)) ∧
  emuAddr h = server_emuAddr ∧
  ∀ i row, rows f Function_ GuestToHost !! i = Some row →
    ∃ a, addr <$> libraryFunctions h !! i = Some a ∧ resolved_symbol l' autoLink row.1 a.
Proof.
  unfold start_host. set (t := preInitialize _ _ Host autoLink f _).
  destruct (host_initialize_spec dlopen dlsym l (MkStaticThunkContext autoLink nextLibraryPath (this_procs t)) selfPath
    hostLibrary vars) as (l1 & r & -> & Hr). cbn [mbind run_bind].
  destruct r as [[ctx handle]|]; [|done]. intros [= <- <-].
  assert (∀ i row, rows f Function_ GuestToHost !! i = Some row → row.1 = row.2) as Hrow.
  { intros i row Hi. apply list_lookup_fmap_Some in Hi as (n & -> & _). done. }
  split; [done|]. split; [done|]. split; [done|]. intros i row Hi. cbn [libraryFunctions with_this_procs].
  assert (libraryFunctions t = if autoLink then own_array symbol (rows f Function_ GuestToHost)
                               else key_array (rows f Function_ GuestToHost)) as Hlib by by destruct autoLink.
  assert (libraryFunctions t = own_array symbol (rows f Function_ GuestToHost) ∨
          libraryFunctions t = key_array (rows f Function_ GuestToHost)) as Hlib' by (rewrite Hlib; destruct autoLink; tauto).
  destruct (this_procs_lookup _ _ _ _ Hlib' Hi) as [a0 Hthis].
  unfold resolved_symbol. destruct handle as [hd|].
  - cbn [Runtime.autoLink] in Hr. destruct Hr as (-> & _ & Hprocs & Hall). rewrite Hprocs in Hall |- *.
    cbn [thisProcs] in Hall |- *.
    rewrite lookup_app_l by (rewrite !length_fmap; apply lookup_lt_Some in Hthis; done).
    rewrite !list_lookup_fmap, Hthis. cbn.
    rewrite Forall_lookup in Hall. specialize (Hall i). rewrite list_lookup_fmap, Hthis in Hall.
    destruct (Hall _ eq_refl) as [a Ha]. cbn [fst snd] in Ha. exists a. split; [by rewrite Ha|]. exists hd.
    by rewrite (Hrow _ _ Hi).
  - cbn [Runtime.autoLink] in Hr. destruct Hr as (-> & -> & ->). cbn [thisProcs].
    rewrite lookup_app_l by (rewrite length_fmap; by apply lookup_lt_Some in Hthis).
    rewrite list_lookup_fmap. unfold this_procs. rewrite list_lookup_fmap, lookup_take, Hlib.
    pose proof (lookup_lt_Some _ _ _ Hi). rewrite decide_True by (rewrite own_array_size; lia).
    rewrite (own_array_lookup _ _ _ _ Hi). cbn. exists (symbol row.1). split; [|done].
    by destruct (symbol row.1 =? 0)%Z eqn:E; [apply Z.eqb_eq in E as ->|].
Qed.

(** Who calls what: by the number that the caller's list gives to the name. *)
Lemma start_thunk_spec l autoLink nextLibraryPath g h l' th tg :
  start l autoLink nextLibraryPath g h = Done (l', InitOk (th, tg)) → compiles g → compiles h →
  (∀ direct k i row, rows g k GuestToHost !! i = Some row →
     exec_get direct Guest k GuestToHost g tg row.1 =
       Some (match rows h k GuestToHost !! i with Some row' => invoke Host k GuestToHost row'.1 | None => 0%Z end)) ∧
  (∀ direct k i row, rows h k HostToGuest !! i = Some row →
     exec_get direct Host k HostToGuest h th row.1 =
       Some (match rows g k HostToGuest !! i with Some row' => invoke Guest k HostToGuest row'.1 | None => 0%Z end)) ∧
  (∀ name, name ∈ G2H_FOREACH h → ∃ a, exec_get None Host Function_ GuestToHost h th name = Some a ∧ resolved_symbol l' autoLink name a) ∧
  (∀ name, name ∈ H2G_FOREACH g → exec_get None Guest Function_ HostToGuest g tg name = Some 0%Z) ∧
  emuAddr th = server_emuAddr ∧ emuAddr tg = server_emuAddr.
Proof.
  unfold start_thunk. destruct (host_start l autoLink nextLibraryPath h) as [[l1 [t|]]| |] eqn:Hstart; [|done..].
  cbn [mbind run_bind]. intros [= <- <- <-] Hg Hh. destruct (start_host_spec _ _ _ _ _ _ Hstart) as (Hhe & Hge & Hemu & Hlib).
  split_and!; [| | | |done|done].
  - intros direct k i row Hi. unfold exec_get. rewrite (get_index_row _ _ _ _ _ Hg Hi).
    destruct direct, k; cbn [mbind option_bind LoreExchangeContext snd hostEntries]; rewrite Hhe; by eapply exchanged_lookup.
  - intros direct k i row Hi. unfold exec_get. rewrite (get_index_row _ _ _ _ _ Hh Hi).
    destruct direct, k; cbn [mbind option_bind LoreExchangeContext fst guestEntries]; rewrite Hge; by eapply exchanged_lookup.
  - intros name [i Hi]%list_elem_of_lookup.
    assert (rows h Function_ GuestToHost !! i = Some (name, name)) as Hrow by (cbn; by rewrite list_lookup_fmap, Hi).
    destruct (Hlib _ _ Hrow) as (a & Ha & Hres). exists a. split; [|exact Hres]. unfold exec_get.
    by rewrite (get_index_row h Function_ GuestToHost i (name, name) Hh Hrow : get_index h Function_ GuestToHost name = Some i).
  - intros name [i Hi]%list_elem_of_lookup.
    assert (rows g Function_ HostToGuest !! i = Some (name, name)) as Hrow by (cbn; by rewrite list_lookup_fmap, Hi).
    unfold exec_get.
    rewrite (get_index_row g Function_ HostToGuest i (name, name) Hg Hrow : get_index g Function_ HostToGuest name = Some i).
    cbn [mbind option_bind LoreExchangeContext snd libraryFunctions preInitialize static_tables library_direction].
    change (addr <$> key_array (rows g Function_ HostToGuest) !! i = Some 0%Z). by rewrite (key_array_lookup _ _ _ Hrow).
Qed.
End started.

(** ** The lists that [generate] writes *)

(** *** The order of a map's keys *)

Lemma code_inj a b : code a = code b → a = b.
Proof. intros H. rewrite <- (ascii_nat_embedding a), <- (ascii_nat_embedding b). by f_equal. Qed.

Lemma str_leb_total a b : str_leb a b = true ∨ str_leb b a = true.
Proof.
  revert b. induction a as [|x a IH]; intros [|y b]; cbn [str_leb]; try (by left); try (by right).
  rewrite !orb_true_iff, !andb_true_iff, !Nat.ltb_lt, !Nat.eqb_eq.
  destruct (Nat.lt_trichotomy (code x) (code y)) as [H|[H|H]]; [left; by left| |right; by left].
  destruct (IH b); [left|right]; right; by split.
Qed.

Lemma str_leb_trans a b c : str_leb a b = true → str_leb b c = true → str_leb a c = true.
Proof.
  revert b c. induction a as [|x a IH]; intros [|y b] [|z c]; cbn [str_leb]; try done.
  rewrite !orb_true_iff, !andb_true_iff, !Nat.ltb_lt, !Nat.eqb_eq. intros [?|[? ?]] [?|[? ?]]; [left; lia..|].
  right. split; [lia|]. by apply (IH b).
Qed.

Lemma str_leb_antisym a b : str_leb a b = true → str_leb b a = true → a = b.
Proof.
  revert b. induction a as [|x a IH]; intros [|y b]; cbn [str_leb]; try done.
  rewrite !orb_true_iff, !andb_true_iff, !Nat.ltb_lt, !Nat.eqb_eq. intros [?|[Hxy ?]] [?|[? ?]]; [lia..|].
  apply code_inj in Hxy as ->. f_equal. by apply IH.
Qed.

#[local] Instance key_le_total {A} : Total (@key_le A).
Proof. intros x y. apply str_leb_total. Qed.
#[local] Instance key_le_trans {A} : Transitive (@key_le A).
Proof. intros x y z. apply str_leb_trans. Qed.

(** A map of values keeps the order. *)
Lemma entries_fmap {A B : Type} (f : A → B) (m : gmap str A) : entries (f <$> m) = prod_map id f <$> entries m.
Proof.
  apply (StronglySorted_unique_strong key_le).
  - intros [k x] [k' y] Hx Hy Hle Hge. assert (k = k') as <- by by apply str_leb_antisym.
    apply entries_elem in Hx. apply list_elem_of_fmap in Hy as ([k2 z] & [= -> ->] & Hz). apply entries_elem in Hz.
    rewrite lookup_fmap, Hz in Hx. by injection Hx as <-.
  - apply StronglySorted_merge_sort; apply _.
  - assert (StronglySorted key_le (entries m)) as Hs by (apply StronglySorted_merge_sort; apply _).
    induction Hs as [|x l Hs IH Hall]; [constructor|]. constructor; [exact IH|]. by apply Forall_fmap.
  - unfold entries at 1. rewrite merge_sort_Permutation, map_to_list_fmap.
    apply fmap_Permutation. symmetry. apply merge_sort_Permutation.
Qed.

Lemma entries_keys {A B : Type} (m : gmap str A) (m' : gmap str B) :
  (∀ k, is_Some (m !! k) ↔ is_Some (m' !! k)) → (entries m).*1 = (entries m').*1.
Proof.
  intros Hk. assert ((λ _, ()) <$> m = (λ _, ()) <$> m') as Heq.
  { apply map_eq. intros k. rewrite !lookup_fmap. specialize (Hk k).
    destruct (m !! k), (m' !! k); cbn; naive_solver. }
  apply (f_equal (λ m, (entries m).*1)) in Heq. rewrite !entries_fmap, <- !list_fmap_compose in Heq. exact Heq.
Qed.

Lemma entries_values {A B : Type} (f : A → B) (m : gmap str A) : f <$> (entries m).*2 = (entries (f <$> m)).*2.
Proof. by rewrite entries_fmap, <- !list_fmap_compose. Qed.

(** *** The lists of a document *)

Section generated.
Context `{Clang}.

Fixpoint callback_rows (procs : list ProcSnippet) : run (list (str * str)) :=
  match procs with
  | [] => Done []
  | proc :: procs => t ← callback_type_string proc; l ← callback_rows procs; Done ((proc_name proc, t) :: l)
  end.

Definition document_foreach (doc : DocumentContext) : run Foreach :=
  callbacks ← callback_rows (procs_in doc Callback GuestToHost);
  Done (MkForeach (proc_name <$> procs_in doc Function_ GuestToHost) (proc_name <$> procs_in doc Function_ HostToGuest) callbacks).

(** They are what [emitForeachMacros] prints. *)
Definition foreach_text (f : Foreach) : str :=
  foreach_macro ($"LORE_THUNK_FUNCTION_G2H_FOREACH(F)") ((λ n, $"F(" ++ n ++ $")") <$> G2H_FOREACH f)
  ++ foreach_macro ($"LORE_THUNK_FUNCTION_H2G_FOREACH(F)") ((λ n, $"F(" ++ n ++ $")") <$> H2G_FOREACH f)
  ++ $"namespace lore::thunk {" ++ endl ++ endl
  ++ concat ((λ r, $"using " ++ r.1 ++ $" = " ++ r.2 ++ $";" ++ endl) <$> CALLBACK_FOREACH f)
  ++ endl ++ $"}" ++ endl ++ endl
  ++ foreach_macro ($"LORE_THUNK_CALLBACK_FOREACH(F)")
       ((λ r, $"F(" ++ r.1 ++ $", " ++ quoted r.2 ++ $")") <$> CALLBACK_FOREACH f).

Lemma print_callbacks (print : str → str → str) procs l :
  callback_rows procs = Done l →
  print_all (λ proc, t ← callback_type_string proc; Done (print (proc_name proc) t)) procs =
    Done (concat ((λ r, print r.1 r.2) <$> l)).
Proof.
  revert l. induction procs as [|proc procs IH]; intros l; cbn [callback_rows print_all]; [by intros [= <-]|].
  destruct (callback_type_string proc) as [t| |]; [|done..]. cbn [mbind run_bind].
  destruct (callback_rows procs) as [l'| |]; [|done..]. cbn [mbind run_bind]. intros [= <-]. by rewrite (IH l').
Qed.

Lemma document_foreach_printed doc f : document_foreach doc = Done f → emitForeachMacros doc = Done (foreach_text f).
Proof.
  unfold document_foreach, emitForeachMacros. destruct (callback_rows _) as [l| |] eqn:Hl; [|done..].
  cbn [mbind run_bind]. intros [= <-].
  rewrite (print_callbacks (λ n t, $"using " ++ n ++ $" = " ++ t ++ $";" ++ endl) _ _ Hl). cbn [mbind run_bind].
  rewrite (print_callbacks (λ n t, macro_line ($"F(" ++ n ++ $", " ++ quoted t ++ $")")) _ _ Hl). cbn [mbind run_bind].
  unfold foreach_text. cbn [G2H_FOREACH H2G_FOREACH CALLBACK_FOREACH]. f_equal. unfold foreach_macro at 5.
  rewrite <- !list_fmap_compose. reflexivity.
Qed.

(** *** What was collected *)

Record collected_ok (c : Collected) : Prop := {
  collected_function name fd : functionByName c !! name = Some fd → fn_name fd = name;
  collected_callback sig t name : namedCallbackBySignature c !! sig = Some (t, name) → getTypeString t = Done sig ∧ name ≠ []
}.

Definition node_named (n : Node) : Prop :=
  match n with N_typedefDecl _ name _ | N_typeAliasDecl _ name _ => name ≠ [] | _ => True end.

Lemma match_alias_ok c q name t c' : match_alias c q name t = Done c' → name ≠ [] → collected_ok c → collected_ok c'.
Proof.
  unfold match_alias. intros Hm Hname [Hf Hc]. destruct (negb (isBridgeNamespaceDecl q)); [by injection Hm as <-|].
  destruct (negb (isFunctionPointerType _)); [by injection Hm as <-|].
  destruct (getTypeString _) as [sig| |] eqn:Hs; [|done..]. injection Hm as <-. split; [exact Hf|].
  cbn [namedCallbackBySignature]. intros sig' t' name'. rewrite lookup_insert_Some. intros [[<- [= <- <-]]|[_ ?]]; [done|by eapply Hc].
Qed.

Lemma matchCallback_ok c n c' : matchCallback c n = Done c' → node_named n → collected_ok c → collected_ok c'.
Proof.
  intros Hm Hn Hc.
  assert (functionByName c' = functionByName c ∧ namedCallbackBySignature c' = namedCallbackBySignature c ∨ collected_ok c') as [[H1 H2]|Hok];
    [|destruct Hc as [Hf Hc]; split; [by rewrite H1|by rewrite H2]|done].
  destruct n; cbn [matchCallback] in Hm; try (by injection Hm as <-; left);
    try (right; by eapply match_alias_ok).
  - destruct (negb _); [injection Hm as <-; by left|]. injection Hm as <-. right. destruct Hc as [Hf Hc]. split; [|exact Hc].
    cbn [functionByName]. intros name fd'. rewrite lookup_insert_Some. intros [[<- <-]|[_ ?]]; [done|by apply Hf].
  - destruct (explicit_args decl 1) as [[|a [|]]|]; try (by injection Hm as <-; left).
    destruct (extractFunctionDeclFromTemplateArg a); by injection Hm as <-; left.
  - destruct (explicit_args decl 1) as [[|a [|]]|]; try (by injection Hm as <-; left).
    destruct (callback_arg a); [|by injection Hm as <-; left]. destruct (getTypeString _); [|done..]. by injection Hm as <-; left.
  - destruct (explicit_args decl 3) as [[|a [|b [|d [|]]]]|]; try (by injection Hm as <-; left).
    destruct (extractFunctionDeclFromTemplateArg a), (extractDirectionArg b), (extractPhaseArg d); by injection Hm as <-; left.
  - destruct (explicit_args decl 3) as [[|a [|b [|d [|]]]]|]; try (by injection Hm as <-; left).
    destruct (callback_arg a), (extractDirectionArg b), (extractPhaseArg d); try (by injection Hm as <-; left).
    destruct (getTypeString _); [|done..]. by injection Hm as <-; left.
Qed.

Lemma matchAST_ok nodes c c' : matchAST c nodes = Done c' → Forall node_named nodes → collected_ok c → collected_ok c'.
Proof.
  revert c. induction nodes as [|n nodes IH]; intros c Hm Hn Hc; [by injection Hm as <-|]. cbn [matchAST] in Hm.
  destruct (matchCallback c n) as [c1| |] eqn:H1; [|done..]. apply Forall_cons in Hn as [Hn Hns].
  by eapply IH, matchCallback_ok.
Qed.

Lemma collected_empty_ok : collected_ok collected_empty.
Proof. split; cbn [functionByName namedCallbackBySignature collected_empty]; intros *; by rewrite lookup_empty. Qed.

(** *** Documents that found the same *)

(** What the rows of callbacks depend on. *)
Definition callback_view (proc : ProcSnippet) : str * run str := (proc_name proc, callback_type_string proc).

Fixpoint view_rows (l : list (str * run str)) : run (list (str * str)) :=
  match l with
  | [] => Done []
  | (name, t) :: l => t ← t; l ← view_rows l; Done ((name, t) :: l)
  end.

Lemma callback_rows_view procs : callback_rows procs = view_rows (callback_view <$> procs).
Proof.
  induction procs as [|proc procs IH]; [done|]. cbn [callback_rows fmap list_fmap view_rows callback_view].
  destruct (callback_type_string proc); [|done..]. cbn [mbind run_bind]. by rewrite IH.
Qed.

Definition add_view (m : gmap str (str * run str)) (entry : str * str) : gmap str (str * run str) :=
  emplace (callback_key entry.1 entry.2) (entry.2, Done entry.1) m.

Lemma emplace_fmap {A B : Type} (f : A → B) k x m : f <$> emplace k x m = emplace k (f x) (f <$> m).
Proof. unfold emplace. rewrite lookup_fmap. destruct (m !! k); [done|]. apply fmap_insert. Qed.

(** A named callback: the key of its type is its spelling. *)
Definition named_entry (entry : str * (QualType * str)) : Prop :=
  getTypeString entry.2.1 = Done entry.1 ∧ entry.2.2 ≠ [].

Lemma callback_proc_view d t name desc defs sig :
  getTypeString t = Done sig → name ≠ [] → callback_view (callback_proc d t name desc defs) = (name, Done sig).
Proof.
  intros Ht Hn. unfold callback_view, callback_type_string. cbn [callback_proc proc_name proc_functionPointerType defined mbind run_bind].
  rewrite Ht. by destruct name.
Qed.

Lemma callback_procs_view c d m l :
  Forall named_entry l →
  callback_view <$> foldl (add_callback_proc c d) m l = foldl add_view (callback_view <$> m) (prod_map id snd <$> l).
Proof.
  intros Hl. revert m. induction Hl as [|[sig [t name]] l [Ht Hn] Hl IH]; intros m; [done|]. cbn [foldl fmap list_fmap].
  rewrite IH. f_equal. unfold add_callback_proc, add_view. rewrite emplace_fmap.
  by rewrite (callback_proc_view _ _ _ _ _ sig Ht Hn).
Qed.

(** Every view is under its name. *)
Lemma add_view_keys l m :
  Forall (λ e, e.2 ≠ []) l →
  (∀ k v, m !! k = Some v → v.1 = k ∧ ∃ t, v.2 = Done t) →
  ∀ k v, foldl add_view m l !! k = Some v → v.1 = k ∧ ∃ t, v.2 = Done t.
Proof.
  intros Hl. revert m. induction Hl as [|[sig name] l Hn Hl IH]; intros m Hm; [done|]. cbn [foldl]. apply IH.
  intros k v. unfold add_view, emplace. cbn [fst snd] in Hn |- *.
  assert (callback_key sig name = name) as -> by by destruct name.
  destruct (m !! name) eqn:E; [apply Hm|]. rewrite lookup_insert_Some. intros [[<- <-]|[_ ?]]; [|by apply Hm].
  split; [done|by eexists].
Qed.

Lemma view_rows_total l :
  Forall (λ v, ∃ t, v.2 = Done t) l → ∃ r, view_rows l = Done r ∧ r.*1 = l.*1.
Proof.
  induction 1 as [|[name v] l [t Ht] Hl (r & IH & Hr)]; [by exists []|]. cbn [view_rows snd] in *. rewrite Ht, IH.
  cbn [mbind run_bind]. eexists. split; [done|]. by rewrite !fmap_cons, Hr.
Qed.

(** The lists of a document that was begun are those of what it found. *)
Definition found_functions (c : Collected) (requested : gset str) : gmap str FunctionDecl :=
  filter_functions requested (functionByName c).
Definition found_callbacks (c : Collected) (requested : gmap str str) : gmap str str :=
  snd <$> filter_callbacks requested (namedCallbackBySignature c).

Definition found_foreach (c : Collected) (doc : DocumentContext) : run Foreach :=
  callbacks ← view_rows (entries (foldl add_view ∅ (entries (found_callbacks c (requested_callbacks doc))))).*2;
  Done (MkForeach (entries (found_functions c (requested_functions doc).1)).*1
                  (entries (found_functions c (requested_functions doc).2)).*1 callbacks).

Lemma values_keys {A : Type} (name : A → str) (m : gmap str A) :
  (∀ k x, m !! k = Some x → name x = k) → name <$> (entries m).*2 = (entries m).*1.
Proof.
  intros Hm. rewrite <- list_fmap_compose. apply list_fmap_ext. intros i [k x] Hi%list_elem_of_lookup_2.
  apply entries_elem in Hi. by apply Hm.
Qed.

Lemma function_procs_names c d req :
  collected_ok c → proc_name <$> (entries (make_function_procs c d (found_functions c req))).*2 = (entries (found_functions c req)).*1.
Proof.
  intros [Hf _]. unfold make_function_procs. rewrite (values_keys proc_name).
  - apply entries_keys. intros k. rewrite map_lookup_imap. destruct (found_functions c req !! k); cbn; naive_solver.
  - intros k p. rewrite map_lookup_imap. destruct (found_functions c req !! k) as [fd|] eqn:Hk; [|done].
    apply map_lookup_filter_Some in Hk as [Hk _]. apply Hf in Hk. intros [= <-]. cbn. by destruct k.
Qed.

Lemma document_foreach_found ame nodes doc0 doc :
  beginProcessDocument ame nodes doc0 = Done (doc, None) → Forall node_named nodes →
  ∃ c, matchAST collected_empty nodes = Done c ∧ collected_ok c ∧ document_foreach doc = found_foreach c doc0.
Proof.
  intros Hbegin Hnodes. unfold beginProcessDocument in Hbegin.
  destruct (matchAST collected_empty nodes) as [c| |] eqn:Hc; [|done..]. cbn [mbind run_bind] in Hbegin.
  destruct (procFnTemplateDecl c); cbn [negb] in Hbegin; [|done]. destruct ame; [done|]. injection Hbegin as <-.
  assert (collected_ok c) as Hok by exact (matchAST_ok nodes _ c Hc Hnodes collected_empty_ok).
  exists c. split; [done|]. split; [done|]. unfold document_foreach, found_foreach, procs_in, procs_of.
  cbn [function_procs callback_procs at_dir fst snd]. 
  fold (found_functions c (requested_functions doc0).1) (found_functions c (requested_functions doc0).2).
  rewrite !function_procs_names by done.
  rewrite callback_rows_view, entries_values. unfold make_callback_procs. rewrite callback_procs_view, fmap_empty.
  - unfold found_callbacks. by rewrite entries_fmap.
  - apply Forall_forall. intros [sig [t name]] [Hx _]%entries_elem%map_lookup_filter_Some.
    by eapply (collected_callback _ Hok).
Qed.

(** Two units where the same is found, as far as it is requested. *)
Definition found_alike (functions : gset str * gset str) (callbacks : gmap str str) (c c' : Collected) : Prop :=
  (∀ name, name ∈ functions.1 ∪ functions.2 → is_Some (functionByName c !! name) ↔ is_Some (functionByName c' !! name)) ∧
  found_callbacks c callbacks = found_callbacks c' callbacks.

Lemma found_functions_keys c c' req :
  (∀ name, name ∈ req → is_Some (functionByName c !! name) ↔ is_Some (functionByName c' !! name)) →
  (entries (found_functions c req)).*1 = (entries (found_functions c' req)).*1.
Proof.
  intros Hreq. apply entries_keys. intros k. unfold found_functions, filter_functions.
  split; intros [fd [Hfd Hk]%map_lookup_filter_Some]; cbn [fst] in Hk.
  - destruct (proj1 (Hreq k Hk)) as [fd' ?]; [by eexists|]. exists fd'. by apply map_lookup_filter_Some.
  - destruct (proj2 (Hreq k Hk)) as [fd' ?]; [by eexists|]. exists fd'. by apply map_lookup_filter_Some.
Qed.

Lemma found_foreach_alike c c' doc doc' :
  requested_functions doc = requested_functions doc' → requested_callbacks doc = requested_callbacks doc' →
  found_alike (requested_functions doc) (requested_callbacks doc) c c' → found_foreach c doc = found_foreach c' doc'.
Proof.
  intros Hf Hc [Hfns Hcbs]. unfold found_foreach. rewrite <- Hf, <- Hc, Hcbs.
  by rewrite !(found_functions_keys c c') by (intros name Hn; apply Hfns; set_solver).
Qed.

Lemma entries_NoDup {A : Type} (m : gmap str A) : NoDup (entries m).*1.
Proof. rewrite entries_perm. apply NoDup_fst_map_to_list. Qed.

Lemma found_foreach_compiles c doc : collected_ok c → ∃ f, found_foreach c doc = Done f ∧ compiles f.
Proof.
  intros Hok. unfold found_foreach. set (views := foldl add_view ∅ _).
  assert (∀ k v, views !! k = Some v → v.1 = k ∧ ∃ t, v.2 = Done t) as Hviews.
  { apply add_view_keys; [|intros k v; by rewrite lookup_empty]. unfold found_callbacks. rewrite entries_fmap.
    apply Forall_fmap, Forall_forall. intros [sig [t name]] [Hx _]%entries_elem%map_lookup_filter_Some.
    by eapply (collected_callback _ Hok). }
  destruct (view_rows_total (entries views).*2) as (l & -> & Hl).
  { apply Forall_fmap, Forall_forall. intros [k v] Hv%entries_elem. by apply (Hviews k v). }
  eexists. split; [done|]. intros [|] d; cbn [rows]; [destruct d; cbn [rows]|].
  1,2: rewrite <- list_fmap_compose; cbn; rewrite list_fmap_id; apply entries_NoDup.
  - cbn [CALLBACK_FOREACH]. rewrite Hl. rewrite (values_keys fst) by (intros k v; by apply Hviews). apply entries_NoDup.
Qed.
End generated.

(** ** A thunk library's two sides *)

(** C6: the two sides of a thunk library that are generated from the same statistics fit
    together, if their units declare the same of the requested functions and callbacks: both
    sources define the same lists, in which every name is unique; and once the guest side
    has started, each function and callback of a list leads to the other side's entry of
    that very function or callback, and each function that the host calls to its symbol in
    the library, or to the one it is linked to where it invokes directly. *)
Theorem thunk_linked `{Clang} ame ame' stat mg mh gnodes hnodes guest host cg ch
    invoke symbol {L} dlopen dlsym selfPath hostLibrary vars server_emuAddr (l l' : L) autoLink nextLibraryPath :
  beginProcessDocument ame gnodes (generate_document Guest mg stat) = Done (guest, None) →
  beginProcessDocument ame' hnodes (generate_document Host mh stat) = Done (host, None) →
  Forall node_named gnodes → Forall node_named hnodes →
  matchAST collected_empty gnodes = Done cg → matchAST collected_empty hnodes = Done ch →
  found_alike (requested_data stat).1 (requested_data stat).2 cg ch →
  ∃ f, document_foreach guest = Done f ∧ document_foreach host = Done f ∧ compiles f ∧
    ∀ th tg,
      start_thunk invoke symbol dlopen dlsym selfPath hostLibrary vars server_emuAddr l autoLink nextLibraryPath f f =
        Done (l', InitOk (th, tg)) →
      (∀ direct k name, name ∈ (rows f k GuestToHost).*1 →
         exec_get direct Guest k GuestToHost f tg name = Some (invoke Host k GuestToHost name)) ∧
      (∀ direct k name, name ∈ (rows f k HostToGuest).*1 →
         exec_get direct Host k HostToGuest f th name = Some (invoke Guest k HostToGuest name)) ∧
      (∀ name, name ∈ G2H_FOREACH f →
         (∃ a, exec_get None Host Function_ GuestToHost f th name = Some a ∧ resolved_symbol symbol dlsym l' autoLink name a) ∧
         ∀ F, exec_get (Some F) Host Function_ GuestToHost f th name = Some (F name)).
Proof.
  intros Hbg Hbh Hng Hnh Hcg Hch Halike.
  destruct (document_foreach_found _ _ _ _ Hbg Hng) as (c1 & H1 & Hok & Hg). rewrite Hcg in H1. injection H1 as <-.
  destruct (document_foreach_found _ _ _ _ Hbh Hnh) as (c2 & H2 & _ & Hh). rewrite Hch in H2. injection H2 as <-.
  assert (found_foreach cg (generate_document Guest mg stat) = found_foreach ch (generate_document Host mh stat)) as Heq
    by by apply found_foreach_alike.
  destruct (found_foreach_compiles cg (generate_document Guest mg stat) Hok) as (f & Hf & Hcomp).
  exists f. rewrite Hg, Hh, <- Heq. split; [done|]. split; [done|]. split; [done|]. intros th tg Hstart.
  destruct (start_thunk_spec _ _ _ _ _ _ _ _ _ _ _ _ _ _ _ _ Hstart Hcomp Hcomp) as (Hgh & Hhg & Hlib & _).
  split; [|split; [|intros name Hname; split; [by apply Hlib|done]]].
  - intros direct k name (row & -> & [i Hi]%list_elem_of_lookup)%list_elem_of_fmap. by rewrite (Hgh direct k i row Hi), Hi.
  - intros direct k name (row & -> & [i Hi]%list_elem_of_lookup)%list_elem_of_fmap. by rewrite (Hhg direct k i row Hi), Hi.
Qed.

(** C33: Tables are exchanged by number only.  Whatever the two lists are, a proc of one side
    leads to the entry of the proc with the same number in the other side's list, whatever
    its name, and to a null pointer behind that list's end; and a function that the guest's
    own library provides leads to a null pointer always, since nothing resolves it, unless
    the guest invokes directly what it is linked to. *)
Theorem exchange_by_number invoke symbol {L} dlopen dlsym selfPath hostLibrary vars server_emuAddr (l l' : L) autoLink
    nextLibraryPath g h th tg :
  start_thunk invoke symbol dlopen dlsym selfPath hostLibrary vars server_emuAddr l autoLink nextLibraryPath g h =
    Done (l', InitOk (th, tg)) → compiles g → compiles h →
  (∀ direct k i row, rows g k GuestToHost !! i = Some row →
     exec_get direct Guest k GuestToHost g tg row.1 =
       Some (match rows h k GuestToHost !! i with Some row' => invoke Host k GuestToHost row'.1 | None => 0%Z end)) ∧
  (∀ direct k i row, rows h k HostToGuest !! i = Some row →
     exec_get direct Host k HostToGuest h th row.1 =
       Some (match rows g k HostToGuest !! i with Some row' => invoke Guest k HostToGuest row'.1 | None => 0%Z end)) ∧
  (∀ direct name, name ∈ H2G_FOREACH g →
     exec_get direct Guest Function_ HostToGuest g tg name = Some (match direct with Some F => F name | None => 0%Z end)).
Proof.
  intros Hs Hg Hh. destruct (start_thunk_spec _ _ _ _ _ _ _ _ _ _ _ _ _ _ _ _ Hs Hg Hh) as (H1 & H2 & _ & H3 & _).
  split; [exact H1|]. split; [exact H2|]. intros [F|] name Hname; [done|by apply H3].
Qed.

(** ** An example: the unit of [CallbackTree], and lists that differ *)

(** The entries' addresses tell the side, the kind, the direction and the name's length. *)
Definition t_invoke (side : Mode) (k : ProcKind) (d : Direction) (name : str) : Z :=
  ((match side with Host => 8000 | Guest => 4000 end) + (match k with Function_ => 0 | Callback => 2000 end)
   + (match d with GuestToHost => 0 | HostToGuest => 1000 end) + Z.of_nat (length name))%Z.
Definition t_dlopen (l : unit) (_ : str) (_ : bool) : unit * option Z := (l, Some 7%Z).
Definition t_dlsym (_ : unit) (_ : Z) (name : str) : option Z := Some (100 + Z.of_nat (length name))%Z.
Definition t_start (g h : Foreach) : run (unit * init_result (ProcTables * ProcTables)) :=
  start_thunk t_invoke (λ _, 0%Z) t_dlopen t_dlsym (Some ($"/lib/libapi_HTL.so")) (λ _, None) ∅ 500 tt false None g h.

Definition t_lists : Foreach := MkForeach [$"api"] [] [($"PFN_UnknownCallback_1", $"void (*)(void)")].

(** What each side's [Exec] layers of some procs call, guest first. *)
Definition t_calls (g h : Foreach) (k : ProcKind) (names : list str) : option (list (option Z * option Z)) :=
  match t_start g h with
  | Done (_, InitOk (th, tg)) =>
      Some ((λ n, (exec_get None Guest k GuestToHost g tg n, exec_get None Host k GuestToHost h th n)) <$> names)
  | _ => None
  end.

Example t_linked :
  t_calls t_lists t_lists Function_ [$"api"; $"other"] = Some [(Some 8003%Z, Some 103%Z); (None, None)] ∧
  t_calls t_lists t_lists Callback [$"PFN_UnknownCallback_1"] = Some [(Some 10021%Z, None)].
Proof. split; vm_compute; reflexivity. Qed.

(** The host also declares [bb]: the guest's call of [ccc] reaches the host's entry of [bb]. *)
Definition t_guest_lists : Foreach := MkForeach [$"a"; $"ccc"] [$"hook"] [].
Definition t_host_lists : Foreach := MkForeach [$"a"; $"bb"; $"ccc"] [$"hook"] [].

Example t_shifted :
  t_calls t_guest_lists t_host_lists Function_ [$"a"; $"ccc"] =
    Some [(Some 8001%Z, Some 101%Z); (Some (t_invoke Host Function_ GuestToHost ($"bb")), Some 103%Z)].
Proof. vm_compute. reflexivity. Qed.

Lemma compiles_dec f :
  forallb (λ k, forallb (λ d, bool_decide (NoDup (rows f k d).*1)) [GuestToHost; HostToGuest]) [Function_; Callback] = true → compiles f.
Proof.
  intros Hf k d. rewrite forallb_forall in Hf. specialize (Hf k). rewrite forallb_forall in Hf.
  apply (bool_decide_eq_true_1 _), Hf; [destruct k|destruct d]; simpl; tauto.
Qed.

Lemma t_started g h : match t_start g h with Done (_, InitOk _) => true | _ => false end = true →
  ∃ th tg, t_start g h = Done (tt, InitOk (th, tg)).
Proof. destruct (t_start g h) as [[[] [[th tg]|]]| |]; try discriminate. intros _. by exists th, tg. Qed.

Lemma exchange_by_number_witness :
  ∃ th tg, t_start t_guest_lists t_host_lists = Done (tt, InitOk (th, tg)) ∧
    exec_get None Guest Function_ GuestToHost t_guest_lists tg ($"ccc") = Some (t_invoke Host Function_ GuestToHost ($"bb")) ∧
    exec_get None Guest Function_ HostToGuest t_guest_lists tg ($"hook") = Some 0%Z.
Proof.
  destruct (t_started t_guest_lists t_host_lists) as (th & tg & Hs); [vm_compute; reflexivity|].
  destruct (exchange_by_number t_invoke (λ _, 0%Z) t_dlopen t_dlsym (Some ($"/lib/libapi_HTL.so")) (λ _, None) ∅ 500 tt tt
    false None t_guest_lists t_host_lists th tg Hs) as (Hg & _ & Hnull); [apply compiles_dec; vm_compute; reflexivity..|].
  exists th, tg. refine (conj Hs (conj _ _)).
  - exact (Hg None Function_ 1 ($"ccc", $"ccc") eq_refl).
  - exact (Hnull None ($"hook") ltac:(by left)).
Defined.

Lemma u_alike (c : @Collected u_clang) : found_alike (requested_data u_result).1 (requested_data u_result).2 c c.
Proof. by split. Qed.

Lemma u_begun mode : ∃ doc c,
  @beginProcessDocument u_clang None u_bridge_nodes (@generate_document u_clang mode ($"/src/api.cpp") u_result) = Done (doc, None) ∧
  @matchAST u_clang collected_empty u_bridge_nodes = Done c.
Proof.
  destruct (begun_ok (@beginProcessDocument u_clang None u_bridge_nodes (@generate_document u_clang mode ($"/src/api.cpp") u_result)))
    as [doc Hdoc]; [destruct mode; vm_compute; reflexivity|].
  destruct (@matchAST u_clang collected_empty u_bridge_nodes) as [c| |] eqn:Hc; [by exists doc, c|exfalso; revert Hc; vm_compute; discriminate..].
Qed.

Lemma u_nodes_named : Forall (@node_named u_clang) u_bridge_nodes.
Proof. by repeat constructor. Qed.

Lemma thunk_linked_witness :
  ∃ guest f, @beginProcessDocument u_clang None u_bridge_nodes (@generate_document u_clang Guest ($"/src/api.cpp") u_result) = Done (guest, None) ∧
    document_foreach guest = Done f ∧
    ∀ th tg, t_start f f = Done (tt, InitOk (th, tg)) →
      ∀ name, name ∈ G2H_FOREACH f → exec_get None Guest Function_ GuestToHost f tg name = Some (t_invoke Host Function_ GuestToHost name).
Proof.
  destruct (u_begun Guest) as (guest & c & Hg & Hc). destruct (u_begun Host) as (host & c' & Hh & Hc').
  rewrite Hc in Hc'. injection Hc' as <-.
  destruct (@thunk_linked u_clang None None u_result ($"/src/api.cpp") ($"/src/api.cpp") u_bridge_nodes u_bridge_nodes guest host c c
    t_invoke (λ _, 0%Z) unit t_dlopen t_dlsym (Some ($"/lib/libapi_HTL.so")) (λ _, None) ∅ 500%Z tt tt false None
    Hg Hh u_nodes_named u_nodes_named Hc Hc (u_alike c)) as (f & Hf & _ & _ & Hstart).
  exists guest, f. refine (conj Hg (conj Hf _)). intros th tg Hs name Hname.
  destruct (Hstart th tg Hs) as (Hcall & _). apply (Hcall None). unfold rows. rewrite <- list_fmap_compose. cbn. by rewrite list_fmap_id.
Defined.
