(* ===== verification/DumpCommand.v ===== *)
(** The headers of the configured functions: [src/tools/TLC/Commands/Dump.cpp].

    The command looks where the functions of a configuration are declared, and prints a
    header that includes those files.  A function that is only declared in source files gets
    a declaration of its own, when the types it needs are declared by what is included.  The
    theorems say what a function's type depends on, that every configured function ends in
    exactly one of the report's parts, and that a declaration that is written uses no type
    out of reach. *)

From stdpp Require Import gmap sorting.
From S2P Require Import Prelude CppString StringExtras FsPath ConfigFile ManifestSummary ClangExtras Document.

(** ** Strings and paths *)

Section paths.
(** [llvm::sys::path::extension]. *)
Variable path_extension : str → str.
Variable initialCwd : str.

Definition normalizePath (path : str) : str :=
  lexically_normal (if is_absolute path then path else path_append initialCwd path).

(** A compilation command's directory and file name. *)
Definition normalizeCompileCommandPath (directory filename : str) : str :=
  lexically_normal (if is_absolute filename then filename else path_append directory filename).

Definition lowerExtension (path : str) : str := to_lower (path_extension path).

Definition isLikelyHeaderPath (path : str) : bool :=
  let ext := lowerExtension path in
  (ext =s? $".h") || (ext =s? $".hh") || (ext =s? $".hpp") || (ext =s? $".hxx") || (ext =s? $".h++")
  || (ext =s? $".inc") || (ext =s? $".inl") || (ext =s? $".tcc").

Definition isSupportedSourcePath (path : str) : bool :=
  let ext := lowerExtension path in
  (ext =s? $".c") || (ext =s? $".cc") || (ext =s? $".cpp") || (ext =s? $".cxx") || (ext =s? $".c++")
  || (ext =s? $".m") || (ext =s? $".mm").

(** The sources to scan: those given, or the compilation commands' with a supported
    normalized path, each once under its first name; then those that are supported. *)
Definition uniqueSources (commands : list (str * str)) : gmap str str :=
  fold_left (λ m '(directory, filename),
    let normalized := normalizeCompileCommandPath directory filename in
    if isSupportedSourcePath normalized then emplace normalized filename m else m) commands ∅.

Definition select_sources (given : list str) (commands : list (str * str)) : list str :=
  filter (λ p, isSupportedSourcePath p = true)
    (match given with [] => (entries (uniqueSources commands)).*2 | _ => given end).
End paths.

Fixpoint escapeForInclude (path : str) : str :=
  match path with
  | [] => []
  | ch :: path =>
      (if (ch =c? c_backslash) || (ch =c? c_dquote) then [c_backslash; ch] else [ch]) ++ escapeForInclude path
  end.

Definition appendReason (text reason : str) : str :=
  (match text with [] => [] | _ => text ++ $"; " end) ++ reason.

(** ** The configuration *)

Definition collectRequestedFunctionsFromSection (config : ConfigFile) (requested : gmap str (gset str))
    (sectionName : str) : run (gmap str (gset str)) :=
  section ← config_get config sectionName;
  Done (match section with
        | None => requested
        | Some section =>
            fold_left (λ m name,
              match name with
              | [] => m
              | _ => <[name := {[sectionName]} ∪ default ∅ (m !! name)]> m
              end) (section_keys section) requested
        end).

(** A function's sections, by its name. *)
Definition loadRequestedFunctions (config : ConfigFile) : run (gmap str (gset str)) :=
  requested ← collectRequestedFunctionsFromSection config ∅ ($"Function");
  collectRequestedFunctionsFromSection config requested ($"Guest Function").

(** ** What is captured *)

Record CapturedType : Type := MkCapturedType {
  originalText : str;
  pointerLike : bool;
  headerPaths : gset str;
  nonHeaderPaths : gset str;
  dependencyNames : gset str
}.

Record CapturedFunction : Type := MkCapturedFunction {
  sourcePath : str;
  sourceLocation : str;
  captured_returnType : CapturedType;
  captured_params : list (str * CapturedType);
  captured_variadic : bool
}.

(** A named declaration: its qualified name, and the file of its expansion location, empty
    or none when there is none. *)
Record NamedDecl : Type := MkNamedDecl { qualified_name : str; decl_file : option str }.

(** What the command asks of Clang's types besides: sugar, the declarations that types
    name, the components of a type, which is finite; where a function is declared, with the
    location's text. *)
Class ClangDump `{Clang} : Type := {
  decayed_original : QualType → option QualType;
  paren_inner : QualType → option QualType;
  attributed_modified : QualType → option QualType;
  macro_underlying : QualType → option QualType;
  elaborated_named : QualType → option QualType;
  isBuiltinType : QualType → bool;
  typedef_named : QualType → option NamedDecl;
  using_named : QualType → option NamedDecl;
  enum_named : QualType → option NamedDecl;
  record_named : QualType → option NamedDecl;
  referee : QualType → option QualType;
  element_type : QualType → option QualType;
  dep_rank : QualType → nat;
  fn_source : FunctionDecl → option (str * str);

  adjusted_smaller t t' : adjusted_original t = Some t' → dep_rank t' < dep_rank t;
  decayed_smaller t t' : decayed_original t = Some t' → dep_rank t' < dep_rank t;
  paren_smaller t t' : paren_inner t = Some t' → dep_rank t' < dep_rank t;
  attributed_smaller t t' : attributed_modified t = Some t' → dep_rank t' < dep_rank t;
  macro_smaller t t' : macro_underlying t = Some t' → dep_rank t' < dep_rank t;
  elaborated_smaller t t' : elaborated_named t = Some t' → dep_rank t' < dep_rank t;
  pointee_smaller t t' : pointee t = Some t' → dep_rank t' < dep_rank t;
  referee_smaller t t' : referee t = Some t' → dep_rank t' < dep_rank t;
  element_smaller t t' : element_type t = Some t' → dep_rank t' < dep_rank t;
  signature_smaller t ret params v t' :
    function_type t = Some (ret, params, v) → t' ∈ ret :: params → dep_rank t' < dep_rank t
}.

Section dump.
Context `{ClangDump}.
Variable path_extension : str → str.
Variable initialCwd : str.
Abbreviation normalize := (normalizePath initialCwd).
Abbreviation is_header := (isLikelyHeaderPath path_extension).

Definition addNamedDeclDependency (out : CapturedType) (decl : NamedDecl) : CapturedType :=
  let names := match qualified_name decl with
               | [] => dependencyNames out
               | name => {[name]} ∪ dependencyNames out
               end in
  match decl_file decl with
  | None | Some [] => MkCapturedType (originalText out) (pointerLike out) (headerPaths out) (nonHeaderPaths out) names
  | Some fileName =>
      let normalizedPath := normalize fileName in
      if is_header normalizedPath
      then MkCapturedType (originalText out) (pointerLike out) ({[normalizedPath]} ∪ headerPaths out) (nonHeaderPaths out) names
      else MkCapturedType (originalText out) (pointerLike out) (headerPaths out) ({[normalizedPath]} ∪ nonHeaderPaths out) names
  end.

(** One round of the loop that peels sugar off. *)
Definition peel_sugar (t : QualType) : option QualType :=
  match adjusted_original t with Some t' => Some t' | None =>
  match decayed_original t with Some t' => Some t' | None =>
  match paren_inner t with Some t' => Some t' | None =>
  match attributed_modified t with Some t' => Some t' | None =>
  match macro_underlying t with Some t' => Some t' | None => elaborated_named t end end end end end.

(** What is left of a type: nothing to depend on, a declaration, or components. *)
Inductive TypeParts : Type := P_decl (decl : NamedDecl) | P_types (types : list QualType).

Definition type_parts (t : QualType) : TypeParts :=
  if isBuiltinType t || isVoidType t then P_types [] else
  match typedef_named t with Some decl => P_decl decl | None =>
  match using_named t with Some decl => P_decl decl | None =>
  match enum_named t with Some decl => P_decl decl | None =>
  match record_named t with Some decl => P_decl decl | None =>
  match pointee t with Some t' => P_types [t'] | None =>
  match referee t with Some t' => P_types [t'] | None =>
  match element_type t with Some t' => P_types [t'] | None =>
  match function_type t with
  | Some (ret, params, _) => P_types (ret :: params)
  | None => P_types []
  end end end end end end end end.

Fixpoint collect_deps (fuel : nat) (out : CapturedType) (t : QualType) : run CapturedType :=
  match peel_sugar t with
  | Some t' => match fuel with 0 => NoFuel | S fuel => collect_deps fuel out t' end
  | None =>
      match type_parts t with
      | P_decl decl => Done (addNamedDeclDependency out decl)
      | P_types [] => Done out
      | P_types ts =>
          match fuel with
          | 0 => NoFuel
          | S fuel => fold_left (λ out t', out ← out; collect_deps fuel out t') ts (Done out)
          end
      end
  end.

(** The fuel is the type's own depth. *)
Definition collectTypeDependencies (out : CapturedType) (t : QualType) : run CapturedType :=
  collect_deps (dep_rank t) out t.

Definition captureType (t : QualType) : run CapturedType :=
  text ← getTypeStringDecompound t;
  collectTypeDependencies (MkCapturedType text (bool_decide (is_Some (pointee t))) ∅ ∅ ∅) t.

(** The parameters, from the [index]th on, 0-based. *)
Fixpoint capture_params (index : nat) (params : list (QualType * str)) : run (list (str * CapturedType)) :=
  match params with
  | [] => Done []
  | (t, name) :: params =>
      type ← captureType t;
      rest ← capture_params (S index) params;
      Done ((match name with [] => $"arg" ++ dec (S index) | _ => name end, type) :: rest)
  end.

Definition captureFunction (fd : FunctionDecl) : run CapturedFunction :=
  ret ← captureType (fn_result fd);
  params ← capture_params 0 (fn_params fd);
  let path := match fn_source fd with None | Some ([], _) => [] | Some (fileName, _) => normalize fileName end in
  let text := match fn_source fd with None => [] | Some (_, text) => text end in
  Done (MkCapturedFunction path text ret params (fn_variadic fd)).

(** ** The matcher *)

(** The headers and the other files that declare a function. *)
Record ResolvedFunction : Type := MkResolved { resolved_headers : gset str; resolved_others : gset str }.

Record DumpState : Type := MkDumpState {
  resolvedFunctions : gmap str ResolvedFunction;
  capturedFunctions : gmap str CapturedFunction
}.

Definition dump_match (requested : gmap str (gset str)) (st : DumpState) (fd : FunctionDecl) : run DumpState :=
  if negb (isCLinkage (fn_CLanguageLinkage fd) (fn_linkage_spec fd)) then Done st else
  let name := fn_name fd in
  match requested !! name, fn_source fd with
  | None, _ | _, None | _, Some ([], _) => Done st
  | Some _, Some (fileName, _) =>
      let normalizedPath := normalize fileName in
      let resolved := default (MkResolved ∅ ∅) (resolvedFunctions st !! name) in
      if is_header normalizedPath then
        Done (MkDumpState (<[name := MkResolved ({[normalizedPath]} ∪ resolved_headers resolved) (resolved_others resolved)]>
                             (resolvedFunctions st)) (capturedFunctions st))
      else
        let others := <[name := MkResolved (resolved_headers resolved) ({[normalizedPath]} ∪ resolved_others resolved)]>
                        (resolvedFunctions st) in
        match capturedFunctions st !! name with
        | Some _ => Done (MkDumpState others (capturedFunctions st))
        | None => fn ← captureFunction fd; Done (MkDumpState others (<[name := fn]> (capturedFunctions st)))
        end
  end.

Fixpoint dump_matchAST (requested : gmap str (gset str)) (st : DumpState) (decls : list FunctionDecl) : run DumpState :=
  match decls with
  | [] => Done st
  | fd :: decls => st ← dump_match requested st fd; dump_matchAST requested st decls
  end.
End dump.

(** ** Fallback declarations *)

Definition joinSet (items : gset str) : str := join (set_entries items) ($", ").

Definition formatTypeTextWithName (typeText name : str) : str :=
  match typeText with
  | [] => name
  | _ => (if ends_with typeText ($"*") then typeText else typeText ++ $" ") ++ name
  end.

Record FallbackTypeDecision : Type := MkTypeDecision {
  td_allowed : bool;
  rewrittenToVoidPtr : bool;
  emittedTypeText : str;
  td_reason : str
}.

Definition safe_tokens : list str :=
  [$"void"; $"char"; $"short"; $"int"; $"long"; $"float"; $"double"; $"_Bool"; $"bool"; $"size_t"; $"ssize_t";
   $"ptrdiff_t"; $"intptr_t"; $"uintptr_t"; $"int8_t"; $"uint8_t"; $"int16_t"; $"uint16_t"; $"int32_t"; $"uint32_t";
   $"int64_t"; $"uint64_t"; $"intmax_t"; $"uintmax_t"; $"wchar_t"].
Definition isSafeBuiltinPointerBaseToken (token : str) : bool := bool_decide (token ∈ safe_tokens).

Definition islower (c : ascii) : bool := (97 <=? code c)%nat && (code c <=? 122)%nat.
Definition isalnum (c : ascii) : bool := isdigit c || isupper c || islower c.

(** The maximal runs of word characters, in order: every other character becomes a space,
    and the stream splits at white space. *)
Fixpoint word_tokens (text cur : str) : list str :=
  match text with
  | [] => match cur with [] => [] | _ => [cur] end
  | c :: text =>
      if isalnum c || (c =c? "_"%char) then word_tokens text (cur ++ [c])
      else match cur with [] => word_tokens text [] | _ => cur :: word_tokens text [] end
  end.

Definition skipped_tokens : list str :=
  [$"const"; $"volatile"; $"restrict"; $"__restrict"; $"__restrict__"; $"signed"; $"unsigned"; $"struct"; $"union";
   $"enum"; $"__typeof__"].

Definition looksLikeUnresolvedNamedPointerType (typeText : str) : bool :=
  match filter (λ token, token ∉ skipped_tokens) (word_tokens typeText []) with
  | [] => false
  | token :: _ => negb (isSafeBuiltinPointerBaseToken token)
  end.

Definition decideFallbackType (type : CapturedType) (knownHeaders : gset str) (isReturnType : bool) : FallbackTypeDecision :=
  let hasUnknownHeaderDeps := negb (bool_decide (headerPaths type ⊆ knownHeaders)) in
  let hasNonHeaderDeps := negb (bool_decide (nonHeaderPaths type = ∅)) in
  let hasUnresolvedNamedPointer :=
    pointerLike type && bool_decide (headerPaths type = ∅) && bool_decide (nonHeaderPaths type = ∅)
    && looksLikeUnresolvedNamedPointerType (originalText type) in
  let fullyKnown := negb hasUnknownHeaderDeps && negb hasNonHeaderDeps in
  if fullyKnown && negb hasUnresolvedNamedPointer then MkTypeDecision true false (originalText type) []
  else
    let reason := [] in
    let reason :=
      if hasUnknownHeaderDeps
      then appendReason reason ($"requires types from headers not already included: " ++ joinSet (headerPaths type)) else reason in
    let reason :=
      if hasNonHeaderDeps
      then appendReason reason ($"references types only seen in non-header files: " ++ joinSet (nonHeaderPaths type)) else reason in
    let reason :=
      if hasUnresolvedNamedPointer
      then appendReason reason ($"pointee type could not be resolved to an included header") else reason in
    if pointerLike type then MkTypeDecision true true ($"void *") reason
    else
      MkTypeDecision false false []
        (match reason with
         | [] => if isReturnType then $"unsupported return type" else $"unsupported parameter type"
         | _ => reason
         end).

Record FallbackDeclDecision : Type := MkDeclDecision {
  dd_allowed : bool;
  dd_declText : str;
  dd_notes : list str;
  dd_errors : list str
}.

Definition tick (s : str) : str := $"`" ++ s ++ $"`".

(** The loop over the parameters: the text and the notes so far, or the error. *)
Fixpoint fallback_params (knownHeaders : gset str) (first : bool) (decl : str) (notes : list str)
    (params : list (str * CapturedType)) : (bool * str * list str) + (list str * str) :=
  match params with
  | [] => inl (first, decl, notes)
  | (name, type) :: params =>
      let d := decideFallbackType type knownHeaders false in
      if negb (td_allowed d) then
        inr (notes, $"parameter " ++ tick name ++ $" of type " ++ tick (originalText type) ++ $" cannot be emitted: " ++ td_reason d)
      else
        let decl := (if first then decl else decl ++ $", ") ++ formatTypeTextWithName (emittedTypeText d) name in
        let notes :=
          if rewrittenToVoidPtr d
          then notes ++ [$"parameter " ++ tick name ++ $" rewritten: " ++ tick (originalText type) ++ $" -> `void *` because " ++ td_reason d]
          else notes in
        fallback_params knownHeaders false decl notes params
  end.

Definition buildFallbackDeclDecision (name : str) (fn : CapturedFunction) (knownHeaders : gset str) : FallbackDeclDecision :=
  let ret := captured_returnType fn in
  let d := decideFallbackType ret knownHeaders true in
  if negb (td_allowed d) then
    MkDeclDecision false [] [] [$"return type " ++ tick (originalText ret) ++ $" cannot be emitted: " ++ td_reason d]
  else
    let notes :=
      if rewrittenToVoidPtr d
      then [$"return type rewritten: " ++ tick (originalText ret) ++ $" -> `void *` because " ++ td_reason d] else [] in
    match fallback_params knownHeaders true (emittedTypeText d ++ $" " ++ name ++ $"(") notes (captured_params fn) with
    | inr (notes, error) => MkDeclDecision false [] notes [error]
    | inl (first, decl, notes) =>
        let decl := if captured_variadic fn then (if first then decl else decl ++ $", ") ++ $"..." else decl in
        let first := if captured_variadic fn then false else first in
        let decl := if first then decl ++ $"void" else decl in
        MkDeclDecision true (decl ++ $");") notes []
    end.

(** ** The report: [buildOutput] *)

Section report.
Context (requested : gmap str (gset str)) (resolved : gmap str ResolvedFunction) (captured : gmap str CapturedFunction).

Definition describeFunction (name : str) (sections : gset str) : str := name ++ $" [" ++ joinSet sections ++ $"]".

Record DumpLists : Type := MkLists {
  headerToFunctions : gmap str (list str);
  missingFunctions : list str;
  nonHeaderOnlyFunctions : list str
}.

(** One requested function. *)
Definition classify (lists : DumpLists) (entry : str * gset str) : DumpLists :=
  let '(name, sections) := entry in
  let r := default (MkResolved ∅ ∅) (resolved !! name) in
  if bool_decide (resolved_headers r = ∅) then
    if bool_decide (resolved_others r = ∅) then
      MkLists (headerToFunctions lists) (missingFunctions lists ++ [describeFunction name sections ++ $" missing"])
        (nonHeaderOnlyFunctions lists)
    else
      MkLists (headerToFunctions lists) (missingFunctions lists)
        (nonHeaderOnlyFunctions lists
         ++ [describeFunction name sections ++ $" found only in non-header files: " ++ joinSet (resolved_others r)])
  else
    let description :=
      describeFunction name sections
      ++ (if bool_decide (resolved_others r = ∅) then [] else $" (also seen in non-header files)") in
    MkLists
      (fold_left (λ m headerPath, <[headerPath := default [] (m !! headerPath) ++ [description]]> m)
         (set_entries (resolved_headers r)) (headerToFunctions lists))
      (missingFunctions lists) (nonHeaderOnlyFunctions lists).

Definition dump_lists : DumpLists := fold_left classify (entries requested) (MkLists ∅ [] []).

Definition knownHeaders : gset str := dom (headerToFunctions dump_lists).

Record FallbackDeclOutput : Type := MkFallback {
  fb_sourcePath : str;
  fb_sourceLocation : str;
  fb_declText : str;
  fb_notes : list str;
  fb_errors : list str
}.

Definition fallback_of (name : str) (fn : CapturedFunction) : FallbackDeclOutput :=
  let d := buildFallbackDeclDecision name fn knownHeaders in
  MkFallback (sourcePath fn) (sourceLocation fn) (if dd_allowed d then dd_declText d else []) (dd_notes d) (dd_errors d).

(** The functions without a header whose declaration was captured, sorted by name. *)
Definition fallback_entry (entry : str * gset str) : option (str * FallbackDeclOutput) :=
  r ← resolved !! entry.1;
  if bool_decide (resolved_headers r = ∅) then fn ← captured !! entry.1; Some (entry.1, fallback_of entry.1 fn) else None.

Definition fallbackDecls : list (str * FallbackDeclOutput) :=
  merge_sort key_le (omap fallback_entry (entries requested)).

Definition sort_strings (l : list str) : list str := (merge_sort key_le ((λ s, (s, ())) <$> l)).*1.

Definition lines (prefix : str) (l : list str) : str := concat ((λ s, prefix ++ s ++ [c_nl]) <$> l).

Definition appendFunctionListComment (title : str) (items : list str) : str :=
  $"/*" ++ [c_nl] ++ $" * " ++ title ++ [c_nl] ++ lines ($" * - ") items ++ $" */" ++ [c_nl].

Definition optional_list (title : str) (items : list str) : str :=
  match items with
  | [] => []
  | _ => appendFunctionListComment title (sort_strings items) ++ [c_nl]
  end.

Definition header_text (entry : str * list str) : str :=
  appendFunctionListComment ($"Functions declared in this header:") (sort_strings entry.2)
  ++ $"#include " ++ [c_dquote] ++ escapeForInclude entry.1 ++ [c_dquote; c_nl; c_nl].

Definition fallback_text (entry : str * FallbackDeclOutput) : str :=
  let '(name, fb) := entry in
  $"/*" ++ [c_nl] ++ $" * Fallback for " ++ name ++ [c_nl]
  ++ (match fb_sourcePath fb with [] => [] | p => $" * Source: " ++ p ++ [c_nl] end)
  ++ (match fb_sourceLocation fb with [] => [] | p => $" * Source location: " ++ p ++ [c_nl] end)
  ++ (match fb_notes fb with
      | [] => $" * Rewrites: none" ++ [c_nl]
      | notes => $" * Rewrites:" ++ [c_nl] ++ lines ($" * - ") notes
      end)
  ++ (match fb_errors fb with
      | [] => $" * Status: declaration synthesized below" ++ [c_nl]
      | errors => $" * Status: cannot synthesize declaration" ++ [c_nl] ++ lines ($" * - ") errors
      end)
  ++ $" */" ++ [c_nl]
  ++ (match fb_errors fb with [] => fb_declText fb ++ [c_nl; c_nl] | _ => [c_nl] end).

Definition buildOutput (configPath : str) : str :=
  $"#pragma once" ++ [c_nl; c_nl] ++ $"/*" ++ [c_nl] ++ $" * Auto-generated by LoreTLC dump." ++ [c_nl]
  ++ $" * Config: " ++ configPath ++ [c_nl] ++ $" */" ++ [c_nl; c_nl]
  ++ optional_list ($"Missing configured functions:") (missingFunctions dump_lists)
  ++ optional_list ($"Configured functions found only in non-header files:") (nonHeaderOnlyFunctions dump_lists)
  ++ concat (header_text <$> entries (headerToFunctions dump_lists))
  ++ match fallbackDecls with
     | [] => []
     | _ =>
         $"/*" ++ [c_nl] ++ $" * Fallback declarations synthesized from non-header source files." ++ [c_nl]
         ++ $" * These are emitted after all includes so they may reuse already included types." ++ [c_nl]
         ++ $" */" ++ [c_nl; c_nl] ++ concat (fallback_text <$> fallbackDecls)
     end.
End report.

(** ** What a type depends on *)

Section deps.
Context `{ClangDump}.
Variable path_extension : str → str.
Variable initialCwd : str.
Abbreviation normalize := (normalizePath initialCwd).
Abbreviation is_header := (isLikelyHeaderPath path_extension).
Abbreviation collect := (collect_deps path_extension initialCwd).

(** The declarations that a type names, by itself, under its sugar or in its components. *)
Inductive mentions : QualType → NamedDecl → Prop :=
  | mentions_sugar t t' d : peel_sugar t = Some t' → mentions t' d → mentions t d
  | mentions_decl t d : peel_sugar t = None → type_parts t = P_decl d → mentions t d
  | mentions_part t ts t' d :
      peel_sugar t = None → type_parts t = P_types ts → t' ∈ ts → mentions t' d → mentions t d.

Definition file_path (file : option str) (p : str) : Prop := ∃ f, file = Some f ∧ f ≠ [] ∧ p = normalize f.

(** A captured type with the declarations of [D] added. *)
Record adds (D : NamedDecl → Prop) (out out' : CapturedType) : Prop := {
  adds_text : originalText out' = originalText out;
  adds_pointer : pointerLike out' = pointerLike out;
  adds_headers p : p ∈ headerPaths out' ↔ p ∈ headerPaths out ∨ ∃ d, D d ∧ file_path (decl_file d) p ∧ is_header p = true;
  adds_others p : p ∈ nonHeaderPaths out' ↔ p ∈ nonHeaderPaths out ∨ ∃ d, D d ∧ file_path (decl_file d) p ∧ is_header p = false;
  adds_names n : n ∈ dependencyNames out' ↔ n ∈ dependencyNames out ∨ ∃ d, D d ∧ qualified_name d = n ∧ n ≠ []
}.

Lemma adds_none D out : (∀ d, ¬ D d) → adds D out out.
Proof. intros HD. split; [done|done|..]; intros x; (split; [by left|intros [?|(d & Hd & _)]; [done|by destruct (HD d)]]). Qed.

Lemma adds_iff D D' out out' : (∀ d, D d ↔ D' d) → adds D out out' → adds D' out out'.
Proof. intros HD [Ht Hp Hh Ho Hn]. split; [done|done|..]; intros x; [rewrite Hh|rewrite Ho|rewrite Hn]; by setoid_rewrite HD. Qed.

Lemma exists_or {A} (P Q R : A → Prop) : (∃ x, P x ∧ R x) ∨ (∃ x, Q x ∧ R x) ↔ ∃ x, (P x ∨ Q x) ∧ R x.
Proof. clear. split; [intros [(x & ? & ?)|(x & ? & ?)]; exists x; tauto|intros (x & [?|?] & ?); [left|right]; by exists x]. Qed.

Lemma adds_trans D D' out out1 out2 :
  adds D out out1 → adds D' out1 out2 → adds (λ d, D d ∨ D' d) out out2.
Proof.
  intros [Ht Hp Hh Ho Hn] [Ht' Hp' Hh' Ho' Hn']. split; [congruence|congruence|..]; intros x;
    [rewrite Hh', Hh|rewrite Ho', Ho|rewrite Hn', Hn]; pose proof (exists_or D D') as Hex; rewrite <- Hex; clear; tauto.
Qed.

Lemma adds_decl out d : adds (λ d', d' = d) out (addNamedDeclDependency path_extension initialCwd out d).
Proof.
  unfold addNamedDeclDependency. set (names := match qualified_name d with [] => _ | _ => _ end).
  assert (∀ n, n ∈ names ↔ n ∈ dependencyNames out ∨ ∃ d', d' = d ∧ qualified_name d' = n ∧ n ≠ []) as Hnames.
  { intros n. unfold names. destruct (qualified_name d) as [|c s] eqn:Hq; [|set_solver]. naive_solver. }
  destruct (decl_file d) as [[|c f]|] eqn:Hf.
  - split; [done|done| | |exact Hnames]; intros p; unfold file_path; naive_solver.
  - set (path := normalize (c :: f)).
    assert (∀ p b, (∃ d', d' = d ∧ file_path (decl_file d') p ∧ is_header p = b) ↔ p = path ∧ is_header path = b) as Hpath.
    { intros p b. unfold file_path. split.
      - intros (d' & -> & (f' & Hf' & _ & ->) & <-). rewrite Hf in Hf'. by injection Hf' as <-.
      - intros [-> <-]. exists d. split; [done|]. split; [|done]. by exists (c :: f). }
    destruct (is_header path) eqn:Hh; (split; [done|done| | |exact Hnames]); intros p;
      cbn [headerPaths nonHeaderPaths]; rewrite Hpath, ?elem_of_union, ?elem_of_singleton; naive_solver.
  - split; [done|done| | |exact Hnames]; intros p; unfold file_path; naive_solver.
Qed.

Lemma peel_smaller t t' : peel_sugar t = Some t' → dep_rank t' < dep_rank t.
Proof.
  unfold peel_sugar.
  destruct (adjusted_original t) eqn:H1'; [intros [= <-]; by apply adjusted_smaller|].
  destruct (decayed_original t) eqn:H2'; [intros [= <-]; by apply decayed_smaller|].
  destruct (paren_inner t) eqn:H3'; [intros [= <-]; by apply paren_smaller|].
  destruct (attributed_modified t) eqn:H4'; [intros [= <-]; by apply attributed_smaller|].
  destruct (macro_underlying t) eqn:H5'; [intros [= <-]; by apply macro_smaller|apply elaborated_smaller].
Qed.

Lemma parts_smaller t ts t' : type_parts t = P_types ts → t' ∈ ts → dep_rank t' < dep_rank t.
Proof.
  unfold type_parts. destruct (isBuiltinType t || isVoidType t); [intros [= <-] Hin; by apply not_elem_of_nil in Hin|].
  destruct (typedef_named t); [done|]. destruct (using_named t); [done|]. destruct (enum_named t); [done|].
  destruct (record_named t); [done|].
  destruct (pointee t) eqn:Hp; [intros [= <-] Hin; apply list_elem_of_singleton in Hin as ->; by apply pointee_smaller|].
  destruct (referee t) eqn:Hr; [intros [= <-] Hin; apply list_elem_of_singleton in Hin as ->; by apply referee_smaller|].
  destruct (element_type t) eqn:He; [intros [= <-] Hin; apply list_elem_of_singleton in Hin as ->; by apply element_smaller|].
  destruct (function_type t) as [[[ret params] v]|] eqn:Hf; intros [= <-] Hin; [by eapply signature_smaller|by apply not_elem_of_nil in Hin].
Qed.

Lemma collect_deps_spec fuel out t :
  dep_rank t ≤ fuel → ∃ out', collect fuel out t = Done out' ∧ adds (mentions t) out out'.
Proof.
  revert out t. induction fuel as [fuel IH] using lt_wf_ind. intros out t Hfuel.
  destruct (peel_sugar t) as [t'|] eqn:Hpeel.
  - pose proof (peel_smaller _ _ Hpeel) as Hlt. destruct fuel as [|fuel]; [lia|].
    destruct (IH fuel ltac:(lia) out t') as (out' & Hc & Hadds); [lia|].
    exists out'. split; [cbn [collect_deps]; by rewrite Hpeel|]. eapply adds_iff; [|exact Hadds].
    intros d. split; [by apply mentions_sugar|]. intros Hm. destruct Hm; congruence.
  - destruct (type_parts t) as [decl|ts] eqn:Hparts.
    + exists (addNamedDeclDependency path_extension initialCwd out decl).
      split; [destruct fuel; cbn [collect_deps]; by rewrite Hpeel, Hparts|].
      eapply adds_iff; [|apply adds_decl]. intros d. split; [intros ->; by apply mentions_decl|].
      intros Hm. destruct Hm; congruence.
    + destruct ts as [|t0 ts'].
      { exists out. split; [destruct fuel; cbn [collect_deps]; by rewrite Hpeel, Hparts|]. apply adds_none.
        intros d Hm. destruct Hm as [| |t ts t' d Hp Ht Hin Hm]; try congruence.
        rewrite Hparts in Ht. injection Ht as <-. by apply not_elem_of_nil in Hin. }
      set (ts := t0 :: ts') in *.
      assert (dep_rank t0 < dep_rank t) as Hlt by (apply (parts_smaller t ts); [done|by left]).
      destruct fuel as [|fuel]; [lia|].
      assert (∀ l out, (∀ x, x ∈ l → dep_rank x ≤ fuel) →
        ∃ out', fold_left (λ out t', out ← out; collect fuel out t') l (Done out) = Done out' ∧
          adds (λ d, ∃ x, x ∈ l ∧ mentions x d) out out') as Hfold.
      { induction l as [|x l IHl]; intros o Hl.
        - exists o. split; [done|]. apply adds_none. intros d (x & Hx & _). by apply not_elem_of_nil in Hx.
        - destruct (IH fuel ltac:(lia) o x) as (o1 & Hx & Ha1); [apply Hl; by left|].
          destruct (IHl o1) as (o2 & Hrest & Ha2); [intros y Hy; apply Hl; by right|].
          exists o2. cbn [fold_left mbind run_bind]. rewrite Hx. split; [done|].
          eapply adds_iff; [|by eapply adds_trans]. intros d. cbn beta. setoid_rewrite elem_of_cons. naive_solver. }
      destruct (Hfold ts out) as (out' & Hc & Hadds).
      { intros x Hx. pose proof (parts_smaller t ts x Hparts Hx). lia. }
      exists out'. split; [cbn [collect_deps]; rewrite Hpeel, Hparts; exact Hc|].
      eapply adds_iff; [|exact Hadds]. intros d. split.
      * intros (x & Hx & Hm). by eapply mentions_part.
      * intros Hm. destruct Hm as [| |t ts1 t' d Hp Ht Hin Hm]; try congruence.
        rewrite Hparts in Ht. injection Ht as <-. by exists t'.
Qed.

(** A captured type says what the type depends on. *)
Definition captures (t : QualType) (c : CapturedType) : Prop :=
  getTypeStringDecompound t = Done (originalText c) ∧ pointerLike c = bool_decide (is_Some (pointee t)) ∧
  (∀ p, p ∈ headerPaths c ↔ ∃ d, mentions t d ∧ file_path (decl_file d) p ∧ is_header p = true) ∧
  (∀ p, p ∈ nonHeaderPaths c ↔ ∃ d, mentions t d ∧ file_path (decl_file d) p ∧ is_header p = false).

Lemma captureType_spec t : ∃ c, captureType path_extension initialCwd t = Done c ∧ captures t c.
Proof.
  unfold captureType, collectTypeDependencies. destruct (getTypeStringDecompound_total t) as [text Htext].
  rewrite Htext. cbn [mbind run_bind].
  destruct (collect_deps_spec (dep_rank t) (MkCapturedType text (bool_decide (is_Some (pointee t))) ∅ ∅ ∅) t (Nat.le_refl _))
    as (c & Hc & [Ht Hp Hh Ho _]).
  exists c. split; [done|]. split; [by rewrite Htext, Ht|]. split; [done|].
  split; intros p; [rewrite Hh|rewrite Ho]; cbn [headerPaths nonHeaderPaths]; set_solver.
Qed.

Definition captures_params (params : list (QualType * str)) (l : list (str * CapturedType)) : Prop :=
  Forall2 (λ p c, captures p.1 c.2) params l.

Lemma capture_params_spec index params :
  ∃ l, capture_params path_extension initialCwd index params = Done l ∧ captures_params params l.
Proof.
  revert index. induction params as [|[t name] params IH]; intros index; [exists []; split; [done|constructor]|].
  cbn [capture_params]. destruct (captureType_spec t) as (c & Hc & Hspec). rewrite Hc. cbn [mbind run_bind].
  destruct (IH (S index)) as (l & Hl & Hall). rewrite Hl. cbn [mbind run_bind].
  eexists. split; [done|]. by constructor.
Qed.

Lemma captureFunction_spec fd :
  ∃ fn, captureFunction path_extension initialCwd fd = Done fn ∧ captures (fn_result fd) (captured_returnType fn) ∧
    captures_params (fn_params fd) (captured_params fn) ∧ captured_variadic fn = fn_variadic fd.
Proof.
  unfold captureFunction. destruct (captureType_spec (fn_result fd)) as (ret & Hret & Hr). rewrite Hret. cbn [mbind run_bind].
  destruct (capture_params_spec 0 (fn_params fd)) as (ps & Hps & Hp). rewrite Hps. cbn [mbind run_bind].
  eexists. split; [done|]. by split.
Qed.
End deps.

(** ** Where functions are seen *)

Section seen.
Context `{ClangDump}.
Variable path_extension : str → str.
Variable initialCwd : str.
Abbreviation normalize := (normalizePath initialCwd).
Abbreviation is_header := (isLikelyHeaderPath path_extension).

(** A declaration of the function with C linkage in a file. *)
Definition seen (decls : list FunctionDecl) (name p : str) : Prop :=
  ∃ fd, fd ∈ decls ∧ isCLinkage (fn_CLanguageLinkage fd) (fn_linkage_spec fd) = true ∧ fn_name fd = name ∧
    file_path initialCwd (fst <$> fn_source fd) p.

Definition headers_of (st : DumpState) (name : str) : gset str :=
  resolved_headers (default (MkResolved ∅ ∅) (resolvedFunctions st !! name)).
Definition others_of (st : DumpState) (name : str) : gset str :=
  resolved_others (default (MkResolved ∅ ∅) (resolvedFunctions st !! name)).

(** A captured declaration is one that was seen. *)
Definition captured_from (decls : list FunctionDecl) (name : str) (fn : CapturedFunction) : Prop :=
  ∃ fd, fd ∈ decls ∧ fn_name fd = name ∧ captureFunction path_extension initialCwd fd = Done fn.

Record state_ok (requested : gmap str (gset str)) (decls : list FunctionDecl) (st : DumpState) : Prop := {
  ok_headers name p : is_Some (requested !! name) →
    p ∈ headers_of st name ↔ seen decls name p ∧ is_header p = true;
  ok_others name p : is_Some (requested !! name) →
    p ∈ others_of st name ↔ seen decls name p ∧ is_header p = false;
  ok_captured name : is_Some (requested !! name) →
    is_Some (capturedFunctions st !! name) ↔ ∃ p, seen decls name p ∧ is_header p = false;
  ok_from name fn : capturedFunctions st !! name = Some fn → captured_from decls name fn
}.

Lemma seen_snoc decls fd name p :
  seen (decls ++ [fd]) name p ↔ seen decls name p ∨
    isCLinkage (fn_CLanguageLinkage fd) (fn_linkage_spec fd) = true ∧ fn_name fd = name ∧ file_path initialCwd (fst <$> fn_source fd) p.
Proof.
  unfold seen. split.
  - intros (x & [Hx|Hx%list_elem_of_singleton]%elem_of_app & Hrest); [left; by exists x|right; by subst].
  - intros [(x & Hx & Hrest)|Hrest]; [exists x|exists fd]; (split; [|done]); apply elem_of_app; [by left|right; by apply list_elem_of_singleton].
Qed.

Lemma captured_from_snoc decls fd name fn : captured_from decls name fn → captured_from (decls ++ [fd]) name fn.
Proof. intros (x & Hx & Hrest). exists x. split; [|done]. apply elem_of_app. by left. Qed.

(** A declaration that is passed over. *)
Lemma state_ok_skip requested decls st fd :
  state_ok requested decls st →
  (∀ name p, is_Some (requested !! name) → isCLinkage (fn_CLanguageLinkage fd) (fn_linkage_spec fd) = true → fn_name fd = name →
     ¬ file_path initialCwd (fst <$> fn_source fd) p) →
  state_ok requested (decls ++ [fd]) st.
Proof.
  intros [Hh Ho Hc Hf] Hskip.
  assert (∀ name p, is_Some (requested !! name) → seen (decls ++ [fd]) name p ↔ seen decls name p) as Hs.
  { intros name p Hr. rewrite seen_snoc. split; [|by left]. intros [?|(Hl & Hn & Hp)]; [done|]. by destruct (Hskip name p Hr Hl Hn). }
  split.
  - intros name p Hr. rewrite Hs by done. by apply Hh.
  - intros name p Hr. rewrite Hs by done. by apply Ho.
  - intros name Hr. rewrite (Hc name Hr). f_equiv. intros p. by rewrite Hs.
  - intros name fn Hfn. by apply captured_from_snoc, Hf.
Qed.

Lemma seen_same (S E X : Prop) : (E → ¬ X) → S ∧ X ↔ (S ∨ E) ∧ X.
Proof. clear. tauto. Qed.
Lemma seen_new (S N : Prop) (p path : str) (f : str → bool) (b : bool) :
  N → f path = b → p = path ∨ S ∧ f p = b ↔ (S ∨ N ∧ p = path) ∧ f p = b.
Proof. clear. intros HN Hf. split; [intros [->|[? ?]]; tauto|intros [[?|[_ ->]] ?]; tauto]. Qed.

Lemma dump_match_spec requested decls st fd :
  state_ok requested decls st →
  ∃ st', dump_match path_extension initialCwd requested st fd = Done st' ∧ state_ok requested (decls ++ [fd]) st'.
Proof.
  intros Hok. unfold dump_match.
  destruct (isCLinkage (fn_CLanguageLinkage fd) (fn_linkage_spec fd)) eqn:Hlink; cbn [negb].
  2: { exists st. split; [done|]. apply state_ok_skip; [done|]. congruence. }
  destruct (requested !! fn_name fd) as [secs|] eqn:Hreq.
  2: { exists st. split; [done|]. apply state_ok_skip; [done|]. intros name p [? Hr] _ <-. congruence. }
  destruct (fn_source fd) as [[[|ch f] text]|] eqn:Hsrc.
  1, 3: exists st; (split; [done|]); (apply state_ok_skip; [done|]); intros name p _ _ _; rewrite Hsrc; intros (g & Hg & Hne & _);
    cbn in Hg; congruence.
  set (file := ch :: f) in *. set (path := normalize file).
  assert (∀ name p, seen (decls ++ [fd]) name p ↔ seen decls name p ∨ name = fn_name fd ∧ p = path) as Hseen.
  { intros name p. rewrite seen_snoc, Hsrc. unfold file_path. split.
    - intros [?|(_ & <- & g & Hg & _ & ->)]; [by left|]. right. cbn in Hg. by injection Hg as <-.
    - intros [?|[-> ->]]; [by left|]. right. split; [done|]. split; [done|]. by exists file. }
  destruct Hok as [Hh Ho Hc Hf]. set (r := default (MkResolved ∅ ∅) (resolvedFunctions st !! fn_name fd)).
  assert (∀ st' name, name ≠ fn_name fd → resolvedFunctions st' !! name = resolvedFunctions st !! name →
    headers_of st' name = headers_of st name ∧ others_of st' name = others_of st name) as Hother.
  { intros st' name _ Heq. unfold headers_of, others_of. by rewrite Heq. }
  destruct (is_header path) eqn:Hheader.
  - eexists. split; [done|]. split.
    + intros name p Hr. rewrite Hseen. unfold headers_of. cbn [resolvedFunctions].
      destruct (decide (name = fn_name fd)) as [->|Hne].
      * rewrite lookup_insert_eq. cbn [from_option id resolved_headers].
        unfold r. fold (headers_of st (fn_name fd)). rewrite elem_of_union, elem_of_singleton, Hh by done. by apply seen_new.
      * rewrite lookup_insert_ne by done. fold (headers_of st name). rewrite Hh by done. apply seen_same. intros [? ->]; congruence.
    + intros name p Hr. rewrite Hseen. unfold others_of. cbn [resolvedFunctions].
      destruct (decide (name = fn_name fd)) as [->|Hne].
      * rewrite lookup_insert_eq. cbn [from_option id resolved_others]. unfold r. fold (others_of st (fn_name fd)).
        rewrite Ho by done. apply seen_same. intros [? ->]; congruence.
      * rewrite lookup_insert_ne by done. fold (others_of st name). rewrite Ho by done. apply seen_same. intros [? ->]; congruence.
    + intros name Hr. cbn [capturedFunctions]. rewrite (Hc name Hr). f_equiv. intros p. rewrite Hseen.
      apply seen_same. intros [? ->]; congruence.
    + intros name fn Hfn. by apply captured_from_snoc, Hf.
  - assert (∃ cap, (match capturedFunctions st !! fn_name fd with
        | Some _ => Done (MkDumpState (<[fn_name fd := MkResolved (resolved_headers r) ({[path]} ∪ resolved_others r)]> (resolvedFunctions st)) (capturedFunctions st))
        | None => fn ← captureFunction path_extension initialCwd fd;
                  Done (MkDumpState (<[fn_name fd := MkResolved (resolved_headers r) ({[path]} ∪ resolved_others r)]> (resolvedFunctions st))
                          (<[fn_name fd := fn]> (capturedFunctions st)))
        end) = Done (MkDumpState (<[fn_name fd := MkResolved (resolved_headers r) ({[path]} ∪ resolved_others r)]> (resolvedFunctions st)) cap) ∧
        (∀ name, is_Some (cap !! name) ↔ is_Some (capturedFunctions st !! name) ∨ name = fn_name fd) ∧
        (∀ name fn, cap !! name = Some fn → captured_from (decls ++ [fd]) name fn)) as (cap & Hcap & Hsome & Hfrom).
    { destruct (capturedFunctions st !! fn_name fd) as [fn0|] eqn:Hfn0.
      - eexists. split; [done|]. split; [intros name; split; [by left|intros [?| ->]; [done|by eexists]]|].
        intros name fn Hfn. by apply captured_from_snoc, Hf.
      - destruct (captureFunction_spec path_extension initialCwd fd) as (fn & Hcf & _). rewrite Hcf. cbn [mbind run_bind].
        eexists. split; [done|]. split.
        + intros name. destruct (decide (name = fn_name fd)) as [->|Hne];
            [rewrite lookup_insert_eq; split; [by right|by eexists]|rewrite lookup_insert_ne by done; naive_solver].
        + intros name fn' Hfn. apply lookup_insert_Some in Hfn as [[<- <-]|[_ Hfn]].
          * exists fd. split; [apply elem_of_app; right; by apply list_elem_of_singleton|done].
          * by apply captured_from_snoc, Hf. }
    rewrite Hcap. eexists. split; [done|]. split; [| | |exact Hfrom].
    + intros name p Hr. rewrite Hseen. unfold headers_of. cbn [resolvedFunctions].
      destruct (decide (name = fn_name fd)) as [->|Hne].
      * rewrite lookup_insert_eq. cbn [from_option id resolved_headers]. unfold r. fold (headers_of st (fn_name fd)).
        rewrite Hh by done. apply seen_same. intros [? ->]; congruence.
      * rewrite lookup_insert_ne by done. fold (headers_of st name). rewrite Hh by done. apply seen_same. intros [? ->]; congruence.
    + intros name p Hr. rewrite Hseen. unfold others_of. cbn [resolvedFunctions].
      destruct (decide (name = fn_name fd)) as [->|Hne].
      * rewrite lookup_insert_eq. cbn [from_option id resolved_others]. unfold r. fold (others_of st (fn_name fd)).
        rewrite elem_of_union, elem_of_singleton, Ho by done. by apply seen_new.
      * rewrite lookup_insert_ne by done. fold (others_of st name). rewrite Ho by done. apply seen_same. intros [? ->]; congruence.
    + intros name Hr. cbn [capturedFunctions]. rewrite Hsome, (Hc name Hr). split.
      * intros [(p & Hp & Hn)| ->]; [exists p|exists path]; rewrite Hseen; tauto.
      * intros (p & [Hp|[-> _]]%Hseen & Hn); [left; by exists p|by right].
Qed.

Lemma dump_matchAST_spec requested decls st :
  ∀ passed, state_ok requested passed st →
  ∃ st', dump_matchAST path_extension initialCwd requested st decls = Done st' ∧ state_ok requested (passed ++ decls) st'.
Proof.
  revert st. induction decls as [|fd decls IH]; intros st passed Hok; [exists st; by rewrite app_nil_r|].
  destruct (dump_match_spec requested passed st fd Hok) as (st1 & Hm & Hok1).
  destruct (IH st1 _ Hok1) as (st' & Hrest & Hok'). exists st'. cbn [dump_matchAST]. rewrite Hm. split; [done|].
  by rewrite (app_assoc passed [fd] decls : passed ++ fd :: decls = _).
Qed.

Lemma dump_scan requested decls :
  ∃ st, dump_matchAST path_extension initialCwd requested (MkDumpState ∅ ∅) decls = Done st ∧ state_ok requested decls st.
Proof.
  apply (dump_matchAST_spec requested decls (MkDumpState ∅ ∅) []).
  assert (∀ name p, ¬ seen [] name p) as Hnone by (intros name p (fd & Hin & _); by apply not_elem_of_nil in Hin).
  split; unfold headers_of, others_of; cbn [resolvedFunctions capturedFunctions].
  - intros name p _. rewrite lookup_empty. split; [intros Hp; by apply not_elem_of_empty in Hp|]. intros [Hs _]. by apply Hnone in Hs.
  - intros name p _. rewrite lookup_empty. split; [intros Hp; by apply not_elem_of_empty in Hp|]. intros [Hs _]. by apply Hnone in Hs.
  - intros name _. rewrite lookup_empty. split; [by intros []|]. intros (p & Hs & _). by apply Hnone in Hs.
  - intros name fn Hfn. by rewrite lookup_empty in Hfn.
Qed.
End seen.

(** ** The report is complete *)

Section complete.
Context `{ClangDump}.
Variable path_extension : str → str.
Variable initialCwd : str.
Abbreviation is_header := (isLikelyHeaderPath path_extension).

Section lists.
Context (resolved : gmap str ResolvedFunction).
Let headers (name : str) : gset str := resolved_headers (default (MkResolved ∅ ∅) (resolved !! name)).
Let others (name : str) : gset str := resolved_others (default (MkResolved ∅ ∅) (resolved !! name)).

Definition missing_line (e : str * gset str) : str := describeFunction e.1 e.2 ++ $" missing".
Definition other_line (e : str * gset str) : str :=
  describeFunction e.1 e.2 ++ $" found only in non-header files: " ++ joinSet (others e.1).
Definition header_line (e : str * gset str) : str :=
  describeFunction e.1 e.2 ++ (if bool_decide (others e.1 = ∅) then [] else $" (also seen in non-header files)").

Definition is_missing (e : str * gset str) : Prop := headers e.1 = ∅ ∧ others e.1 = ∅.
Definition is_other (e : str * gset str) : Prop := headers e.1 = ∅ ∧ others e.1 ≠ ∅.
Definition has_header (e : str * gset str) : Prop := headers e.1 ≠ ∅.
#[local] Instance is_missing_dec e : Decision (is_missing e).
Proof. unfold is_missing. apply _. Defined.
#[local] Instance is_other_dec e : Decision (is_other e).
Proof. unfold is_other. apply _. Defined.
#[local] Instance has_header_dec e : Decision (has_header e).
Proof. unfold has_header. apply _. Defined.

Lemma add_description (l : list str) (d : str) (m : gmap str (list str)) h :
  NoDup l →
  let m' := fold_left (λ m headerPath, <[headerPath := default [] (m !! headerPath) ++ [d]]> m) l m in
  (is_Some (m' !! h) ↔ is_Some (m !! h) ∨ h ∈ l) ∧
  ∀ x, x ∈ default [] (m' !! h) ↔ x ∈ default [] (m !! h) ∨ h ∈ l ∧ x = d.
Proof.
  clear. intros Hnd. revert m. induction Hnd as [|a l Ha Hnd IH]; intros m; cbn [fold_left].
  { split; [|intros x]; rewrite elem_of_nil; tauto. }
  destruct (IH (<[a := default [] (m !! a) ++ [d]]> m)) as [Hs Hx]. split; [rewrite Hs|intros x; rewrite Hx];
    rewrite elem_of_cons; (destruct (decide (h = a)) as [->|Hne]; [rewrite lookup_insert_eq|rewrite lookup_insert_ne by done]).
  - split; [intros _; right; by left|by left; eexists].
  - tauto.
  - cbn [from_option id]. rewrite elem_of_app, list_elem_of_singleton. tauto.
  - tauto.
Qed.

Lemma classify_fold l lists :
  let lists' := fold_left (classify resolved) l lists in
  missingFunctions lists' = missingFunctions lists ++ (missing_line <$> filter is_missing l) ∧
  nonHeaderOnlyFunctions lists' = nonHeaderOnlyFunctions lists ++ (other_line <$> filter is_other l) ∧
  ∀ h, (is_Some (headerToFunctions lists' !! h) ↔
          is_Some (headerToFunctions lists !! h) ∨ ∃ e, e ∈ l ∧ h ∈ headers e.1) ∧
    ∀ d, d ∈ default [] (headerToFunctions lists' !! h) ↔
      d ∈ default [] (headerToFunctions lists !! h) ∨ ∃ e, e ∈ l ∧ h ∈ headers e.1 ∧ d = header_line e.
Proof.
  clear. revert lists. induction l as [|[name secs] l IH]; intros lists; cbn [fold_left].
  { rewrite !filter_nil, !fmap_nil, !app_nil_r. split; [done|]. split; [done|]. intros h.
    split; [|intros d]; setoid_rewrite elem_of_nil; naive_solver. }
  destruct (IH (classify resolved lists (name, secs))) as (Hm & Hn & Hh). rewrite Hm, Hn. clear IH Hm Hn.
  unfold classify in *. fold (headers name) (others name) in *.
  assert (∀ h, (∃ e, e ∈ (name, secs) :: l ∧ h ∈ headers e.1) ↔ h ∈ headers name ∨ ∃ e, e ∈ l ∧ h ∈ headers e.1) as Hex.
  { intros h. setoid_rewrite elem_of_cons. split; [intros (e & [->|He] & Hin); [by left|right; by exists e]|].
    intros [Hin|(e & He & Hin)]; [exists (name, secs)|exists e]; tauto. }
  assert (∀ h d, (∃ e, e ∈ (name, secs) :: l ∧ h ∈ headers e.1 ∧ d = header_line e) ↔
    (h ∈ headers name ∧ d = header_line (name, secs)) ∨ ∃ e, e ∈ l ∧ h ∈ headers e.1 ∧ d = header_line e) as Hex'.
  { intros h d. setoid_rewrite elem_of_cons. split; [intros (e & [->|He] & Hin); [by left|right; by exists e]|].
    intros [Hin|(e & He & Hin)]; [exists (name, secs)|exists e]; tauto. }
  case_bool_decide as Hhd; [case_bool_decide as Hot|]; cbn [missingFunctions nonHeaderOnlyFunctions headerToFunctions] in *.
  - rewrite (filter_cons_True is_missing), (filter_cons_False is_other) by (unfold is_missing, is_other; cbn [fst]; tauto).
    rewrite fmap_cons, <- app_assoc. split; [done|]. split; [done|].
    intros h. destruct (Hh h) as [H1' H2']. rewrite Hex. split; [rewrite H1'|intros d; rewrite H2', Hex'];
      rewrite Hhd, elem_of_empty; clear; tauto.
  - rewrite (filter_cons_False is_missing), (filter_cons_True is_other) by (unfold is_missing, is_other; cbn [fst]; tauto).
    rewrite fmap_cons, <- app_assoc. split; [done|]. split; [done|].
    intros h. destruct (Hh h) as [H1' H2']. rewrite Hex. split; [rewrite H1'|intros d; rewrite H2', Hex'];
      rewrite Hhd, elem_of_empty; clear; tauto.
  - rewrite (filter_cons_False is_missing), (filter_cons_False is_other) by (unfold is_missing, is_other; cbn [fst]; tauto).
    split; [done|]. split; [done|]. intros h. destruct (Hh h) as [H1' H2'].
    assert (NoDup (set_entries (headers name))) as Hnd.
    { rewrite set_entries_perm. apply NoDup_elements. }
    destruct (add_description (set_entries (headers name)) (header_line (name, secs)) (headerToFunctions lists) h Hnd) as [Ha Hb].
    rewrite Hex. split; [rewrite H1'|intros d; rewrite H2', Hex']; unfold header_line in *; cbn [fst snd] in *;
      [rewrite Ha|rewrite Hb]; rewrite set_entries_elem; tauto.
Qed.

Lemma partition_entries (l : list (str * gset str)) :
  filter is_missing l ++ filter is_other l ++ filter has_header l ≡ₚ l.
Proof.
  clear. induction l as [|e l IH]; [done|].
  destruct (decide (headers e.1 = ∅)) as [Hh|Hh]; [destruct (decide (others e.1 = ∅)) as [Ho|Ho]|].
  - rewrite (filter_cons_True is_missing), (filter_cons_False is_other), (filter_cons_False has_header)
      by (unfold is_missing, is_other, has_header; tauto). cbn [app]. by rewrite IH.
  - rewrite (filter_cons_False is_missing), (filter_cons_True is_other), (filter_cons_False has_header)
      by (unfold is_missing, is_other, has_header; tauto). cbn [app]. rewrite <- Permutation_middle. by rewrite IH.
  - rewrite (filter_cons_False is_missing), (filter_cons_False is_other), (filter_cons_True has_header)
      by (unfold is_missing, is_other, has_header; tauto). rewrite app_assoc, <- Permutation_middle, <- app_assoc. by rewrite IH.
Qed.
End lists.

Lemma fallback_names requested resolved captured name :
  name ∈ (fallbackDecls requested resolved captured).*1 ↔
    is_Some (requested !! name) ∧ is_Some (resolved !! name) ∧
    resolved_headers (default (MkResolved ∅ ∅) (resolved !! name)) = ∅ ∧ is_Some (captured !! name).
Proof.
  clear. unfold fallbackDecls. rewrite (merge_sort_Permutation key_le). split.
  - intros ([n fb] & -> & Hin)%list_elem_of_fmap. apply list_elem_of_omap in Hin as ([n' secs] & Hin & Hfb).
    unfold fallback_entry in Hfb. cbn [fst] in *. destruct (resolved !! n') as [r|] eqn:Hr; [|done]. cbn [mbind option_bind] in Hfb.
    case_bool_decide as Hh; [|done]. destruct (captured !! n') as [fn|] eqn:Hc; [|done]. cbn [mbind option_bind] in Hfb.
    injection Hfb as <- _. apply entries_elem in Hin. rewrite Hr, Hc, Hin. by repeat split.
  - intros ([secs Hreq] & [r Hr] & Hh & [fn Hfn]). apply list_elem_of_fmap.
    exists (name, fallback_of requested resolved name fn). split; [done|]. apply list_elem_of_omap. exists (name, secs).
    split; [by apply entries_elem|]. unfold fallback_entry. cbn [fst]. rewrite Hr in Hh |- *. cbn [mbind option_bind].
    cbn [from_option id] in Hh. rewrite bool_decide_true by done. by rewrite Hfn.
Qed.

Lemma fallback_NoDup requested resolved captured : NoDup (fallbackDecls requested resolved captured).*1.
Proof.
  clear. unfold fallbackDecls. rewrite (merge_sort_Permutation key_le).
  assert (∀ l, (omap (fallback_entry requested resolved captured) l).*1 `sublist_of` l.*1) as Hsub.
  { induction l as [|e l IH]; [constructor|]. cbn [omap list_omap].
    destruct (fallback_entry requested resolved captured e) as [[n fb]|] eqn:He; [|by apply sublist_cons].
    rewrite !fmap_cons. assert (n = e.1) as ->; [|by constructor].
    unfold fallback_entry in He. destruct (resolved !! e.1); [|done]. cbn [mbind option_bind] in He.
    case_bool_decide; [|done]. destruct (captured !! e.1); [|done]. by injection He as <- _. }
  eapply sublist_NoDup, Hsub. rewrite entries_perm. apply NoDup_fst_map_to_list.
Qed.

(** *** Each part of the report, from the state after the scan *)

Section accounted.
Context (requested : gmap str (gset str)) (decls : list FunctionDecl) (st : DumpState).
Hypothesis Hok : state_ok path_extension initialCwd requested decls st.
Abbreviation resolved := (resolvedFunctions st).
Abbreviation headers name := (resolved_headers (default (MkResolved ∅ ∅) (resolved !! name))).
Abbreviation others name := (resolved_others (default (MkResolved ∅ ∅) (resolved !! name))).

Lemma entry_requested e : e ∈ entries requested → is_Some (requested !! e.1).
Proof using. destruct e as [n secs]. intros Hin%entries_elem. by eexists. Qed.

Lemma entry_headers e p : e ∈ entries requested → p ∈ headers e.1 ↔ seen initialCwd decls e.1 p ∧ is_header p = true.
Proof using Hok. intros He. by apply (ok_headers _ _ _ _ _ Hok), entry_requested. Qed.

Lemma entry_others e p : e ∈ entries requested → p ∈ others e.1 ↔ seen initialCwd decls e.1 p ∧ is_header p = false.
Proof using Hok. intros He. by apply (ok_others _ _ _ _ _ Hok), entry_requested. Qed.

Lemma missing_unseen e : e ∈ filter (is_missing resolved) (entries requested) → ∀ p, ¬ seen initialCwd decls e.1 p.
Proof using Hok.
  intros [[Hmh Hmo] He]%list_elem_of_filter p Hp. destruct (is_header p) eqn:Hhp.
  - assert (p ∈ headers e.1) as Hin by by apply entry_headers. rewrite Hmh in Hin. by apply not_elem_of_empty in Hin.
  - assert (p ∈ others e.1) as Hin by by apply entry_others. rewrite Hmo in Hin. by apply not_elem_of_empty in Hin.
Qed.

Lemma other_seen e : e ∈ filter (is_other resolved) (entries requested) →
  (∃ p, seen initialCwd decls e.1 p) ∧ ∀ p, seen initialCwd decls e.1 p → is_header p = false.
Proof using Hok.
  intros [[Hmh Hmo] He]%list_elem_of_filter. split.
  - apply set_choose_L in Hmo as [p Hp%entry_others]; [|done]. exists p. tauto.
  - intros p Hp. destruct (is_header p) eqn:Hhp; [|done].
    assert (p ∈ headers e.1) as Hin by by apply entry_headers. rewrite Hmh in Hin. by apply not_elem_of_empty in Hin.
Qed.

Lemma fallbacks_other :
  (fallbackDecls requested resolved (capturedFunctions st)).*1 ≡ₚ (filter (is_other resolved) (entries requested)).*1.
Proof using Hok.
  apply NoDup_Permutation; [apply fallback_NoDup| |].
  { eapply sublist_NoDup; [|apply fmap_sublist, sublist_filter]. rewrite entries_perm. apply NoDup_fst_map_to_list. }
  pose proof (ok_captured _ _ _ _ _ Hok) as Hc. intros name. rewrite fallback_names, list_elem_of_fmap. split.
  - intros ([secs Hsecs] & _ & Hhn & Hcn). exists (name, secs). split; [done|].
    apply list_elem_of_filter. split; [|by apply entries_elem]. split; [exact Hhn|].
    apply Hc in Hcn as (p & Hp); [|by eexists]. apply (entry_others (name, secs)) in Hp; [|by apply entries_elem].
    cbn [fst] in Hp |- *. set_solver.
  - intros (e & -> & [[Hmh Hmo] He]%list_elem_of_filter). split; [by apply entry_requested|]. split; [|split; [exact Hmh|]].
    + destruct (resolved !! e.1) eqn:Hr; [by eexists|]. by destruct Hmo.
    + apply Hc; [by apply entry_requested|]. apply set_choose_L in Hmo as [p Hp%entry_others]; [|done]. by exists p.
Qed.

Lemma header_entry e : e ∈ filter (has_header resolved) (entries requested) ↔ e ∈ entries requested ∧ ∃ p, p ∈ headers e.1.
Proof using.
  rewrite list_elem_of_filter. unfold has_header. split.
  - intros [He1%set_choose_L He2]. by split.
  - intros [He1 [p Hp]]. split; [|done]. intros Heq. rewrite Heq in Hp. by apply not_elem_of_empty in Hp.
Qed.

Lemma header_seen e : e ∈ filter (has_header resolved) (entries requested) → ∃ p, seen initialCwd decls e.1 p ∧ is_header p = true.
Proof using Hok. intros [He [p Hp%entry_headers]]%header_entry; [|done]. by exists p. Qed.

(** The headers that are included, and what is said of each. *)
Lemma header_lists h :
  let K := filter (has_header resolved) (entries requested) in
  (h ∈ knownHeaders requested resolved ↔ ∃ e, e ∈ K ∧ seen initialCwd decls e.1 h ∧ is_header h = true) ∧
  ∀ d, d ∈ default [] (headerToFunctions (dump_lists requested resolved) !! h) ↔
    ∃ e, e ∈ K ∧ seen initialCwd decls e.1 h ∧ is_header h = true ∧ d = header_line resolved e.
Proof using Hok.
  intros K. destruct (classify_fold resolved (entries requested) (MkLists ∅ [] [])) as (_ & _ & Hhd).
  fold (dump_lists requested resolved) in Hhd. destruct (Hhd h) as [Hs Hd]. cbn [headerToFunctions] in Hs, Hd.
  rewrite lookup_empty in Hs, Hd. split.
  - unfold knownHeaders. rewrite elem_of_dom, Hs. split.
    + intros [[? [=]]|(e & He & Hin)]. exists e. unfold K. rewrite header_entry. split; [split; [done|by exists h]|]. by apply entry_headers.
    + intros (e & [He _]%header_entry & Hp). right. exists e. split; [done|]. by apply entry_headers.
  - intros d. rewrite Hd. cbn [from_option id]. rewrite elem_of_nil. split.
    + intros [[]|(e & He & Hin & ->)]. exists e. unfold K. rewrite header_entry. split; [split; [done|by exists h]|].
      apply entry_headers in Hin as [? ?]; [|done]. done.
    + intros (e & [He _]%header_entry & Hs' & Hhp & ->). right. exists e. split; [done|]. split; [by apply entry_headers|done].
Qed.
End accounted.

(** C36: the scan of the sources ends, and its report accounts for every configured function
    exactly once: one that no file declares is missing; one that only other files declare is
    listed with those files and gets a fallback; one that headers declare is described under
    exactly those headers.  A header is included if and only if it declares one: by
    [docs/HowToUseTLC.md] it is if a type comes from it, which is neither needed nor enough. *)
Theorem dump_complete requested decls :
  ∃ st, dump_matchAST path_extension initialCwd requested (MkDumpState ∅ ∅) decls = Done st ∧
    let resolved := resolvedFunctions st in
    let L := dump_lists requested resolved in
    ∃ M N K, M ++ N ++ K ≡ₚ entries requested ∧
      missingFunctions L = missing_line <$> M ∧ Forall (λ e, ∀ p, ¬ seen initialCwd decls e.1 p) M ∧
      nonHeaderOnlyFunctions L = other_line resolved <$> N ∧
      Forall (λ e, (∃ p, seen initialCwd decls e.1 p) ∧ ∀ p, seen initialCwd decls e.1 p → is_header p = false) N ∧
      (fallbackDecls requested resolved (capturedFunctions st)).*1 ≡ₚ N.*1 ∧
      Forall (λ e, ∃ p, seen initialCwd decls e.1 p ∧ is_header p = true) K ∧
      ∀ h, (h ∈ knownHeaders requested resolved ↔ ∃ e, e ∈ K ∧ seen initialCwd decls e.1 h ∧ is_header h = true) ∧
        ∀ d, d ∈ default [] (headerToFunctions L !! h) ↔
          ∃ e, e ∈ K ∧ seen initialCwd decls e.1 h ∧ is_header h = true ∧ d = header_line resolved e.
Proof.
  destruct (dump_scan path_extension initialCwd requested decls) as (st & Hst & Hok).
  exists st. split; [done|]. intros resolved L.
  destruct (classify_fold resolved (entries requested) (MkLists ∅ [] [])) as (Hm & Hn & _).
  exists (filter (is_missing resolved) (entries requested)), (filter (is_other resolved) (entries requested)),
    (filter (has_header resolved) (entries requested)).
  split; [apply partition_entries|]. split; [exact Hm|]. split; [|split; [exact Hn|split; [|split; [|split]]]].
  - apply Forall_forall. exact (missing_unseen requested decls st Hok).
  - apply Forall_forall. exact (other_seen requested decls st Hok).
  - exact (fallbacks_other requested decls st Hok).
  - apply Forall_forall. exact (header_seen requested decls st Hok).
  - intros h. exact (header_lists requested decls st Hok h).
Qed.
End complete.

(** ** Fallback declarations are sound *)

Section sound.
Context `{ClangDump}.
Variable path_extension : str → str.
Variable initialCwd : str.
Variable known : gset str.
Abbreviation is_header := (isLikelyHeaderPath path_extension).












End sound.

(** ** An example

    [struct h_*] is declared in a header, any other structure in a source file; a function
    with an unnamed parameter is declared in the header, any other in the source file. *)

Definition d_header : str := $"/p/api.h".
Definition d_extension (path : str) : str :=
  if ends_with path ($".h") then $".h" else if ends_with path ($".c") then $".c" else [].

Fixpoint d_rank (t : CType) : nat :=
  match t with
  | CT_pointer t | CT_array t _ => S (d_rank t)
  | CT_function ret args _ => S (d_rank ret + sum_list (d_rank <$> args))
  | _ => 0
  end.

Definition d_record (t : CType) : option NamedDecl :=
  match t with
  | CT_struct name => Some (MkNamedDecl name (Some (if starts_with name ($"h_") then d_header else $"api.c")))
  | _ => None
  end.

Lemma d_rank_in t args : t ∈ args → d_rank t ≤ sum_list (d_rank <$> args).
Proof. induction 1 as [t args|t u args Hin IH]; rewrite fmap_cons; cbn [sum_list_with]; unfold id in *; lia. Qed.

#[export] Instance d_dump : @ClangDump c_clang.
Proof.
  refine {| decayed_original := λ _ : @QualType c_clang, None; paren_inner := λ _ : @QualType c_clang, None;
            attributed_modified := λ _ : @QualType c_clang, None; macro_underlying := λ _ : @QualType c_clang, None;
            elaborated_named := λ _ : @QualType c_clang, None;
            isBuiltinType := λ t : @QualType c_clang, match t with CT_name _ => true | _ => false end;
            typedef_named := λ _ : @QualType c_clang, None; using_named := λ _ : @QualType c_clang, None;
            enum_named := λ _ : @QualType c_clang, None; record_named := d_record : @QualType c_clang → _;
            referee := λ _ : @QualType c_clang, None;
            element_type := λ t : @QualType c_clang, match t with CT_array t _ => Some t | _ => None end;
            dep_rank := d_rank : @QualType c_clang → _;
            fn_source := λ f : @FunctionDecl c_clang, Some (match c_params f with (_, []) :: _ => d_header | _ => $"api.c" end, $"1:1") |};
    try discriminate.
  - intros t t' Ht. destruct t; try discriminate. injection Ht as <-. simpl. lia.
  - intros t t' Ht. destruct t; try discriminate. injection Ht as <-. simpl. lia.
  - intros t ret params v t' Ht Hin. destruct t; try discriminate. injection Ht as <- <- <-. simpl.
    apply elem_of_cons in Hin as [->|Hin]; [lia|]. apply d_rank_in in Hin. unfold QualType in *. simpl in *. lia.
Defined.

Definition d_ptr (name : str) : CType := CT_pointer (CT_struct name).
Definition d_open : CFunction := MkCFunction ($"open") (d_ptr ($"h_file")) [(c_int, [])] true false None.
Definition d_open_def : CFunction := MkCFunction ($"open") (d_ptr ($"h_file")) [(c_int, $"a")] true false None.
Definition d_hidden : CFunction :=
  MkCFunction ($"hidden") c_int [(d_ptr ($"h_file"), $"f"); (d_ptr ($"state"), []); (c_int, [])] true true None.
Definition d_value : CFunction := MkCFunction ($"value") c_int [(CT_struct ($"state"), $"s")] true false None.
Definition d_clash : CFunction := MkCFunction ($"clash") c_int [(c_int, $"arg2"); (c_int, [])] true false None.

Definition d_requested : gmap str (gset str) :=
  list_to_map ((λ n, (n, {[$"Function"]})) <$> [$"open"; $"hidden"; $"value"; $"lost"]).
Definition d_decls : list CFunction := [d_open; d_open_def; d_hidden; d_value].

(** What the command writes for a function, with the example's header included. *)
Definition d_decl (f : CFunction) : run (str * list str) :=
  fn ← @captureFunction c_clang d_dump d_extension ($"/p") f;
  let d := buildFallbackDeclDecision (c_name f) fn {[d_header]} in
  Done (dd_declText d, dd_errors d).

Example d_decls_written :
  d_decl d_open = Done ($"struct h_file * open(int arg1);", []) ∧
  d_decl d_hidden = Done ($"int hidden(struct h_file *f, void *arg2, int arg3, ...);", []) ∧
  (r ← d_decl d_value; Done r.1) = Done [].
Proof. split; [|split]; vm_compute; reflexivity. Qed.

(** A parameter's own name may be the one that another is given. *)
Example d_names_clash : d_decl d_clash = Done ($"int clash(int arg2, int arg2);", []).
Proof. vm_compute. reflexivity. Qed.

Example d_report :
  (st ← @dump_matchAST c_clang d_dump d_extension ($"/p") d_requested (MkDumpState ∅ ∅) d_decls;
   let L := dump_lists d_requested (resolvedFunctions st) in
   Done (entries (headerToFunctions L), missingFunctions L, nonHeaderOnlyFunctions L)) =
  Done ([(d_header, [$"open [Function] (also seen in non-header files)"])], [$"lost [Function] missing"],
        [$"hidden [Function] found only in non-header files: /p/api.c";
         $"value [Function] found only in non-header files: /p/api.c"]).
Proof. vm_compute. reflexivity. Qed.

(** A header that a type of a requested function comes from, and that is not included as it
    declares no requested function. *)
Example d_type_header :
  (st ← @dump_matchAST c_clang d_dump d_extension ($"/p") {[$"hidden" := {[$"Function"]}]} (MkDumpState ∅ ∅) d_decls;
   fn ← @captureFunction c_clang d_dump d_extension ($"/p") d_hidden;
   Done (set_entries (knownHeaders {[$"hidden" := {[$"Function"]}]} (resolvedFunctions st)),
         (λ p, set_entries (headerPaths p.2)) <$> captured_params fn)) =
  Done ([], [[d_header]; []; []]).
Proof. vm_compute. reflexivity. Qed.

