(* ===== verification/GuardPasses.v ===== *)
(** Two of the passes that write into the [Adapt] layer:
    [src/tools/TLC/Passes/Guard/TypeFilter.cpp] and
    [src/tools/TLC/Passes/Misc/GetProcAddress.cpp].

    Both name an argument by its index in the proc's real signature but look the name
    up in the [Adapt] layer's, which for a callback has a leading [callback].  The
    theorems say which argument the generated statement names, and for which procs. *)

From stdpp Require Import gmap.
From S2P Require Import Prelude CppString StringExtras ManifestSummary PassScheduler ClangExtras Document.
From S2P Require Import PassTemplates ThunkCode DefaultBuilder.

Section passes.
Context `{Clang}.

(** What the tests leave for the handle hooks. *)
Inductive PassMessage : Type :=
  | TypeFilterMessage (filteredArgIndexes : list nat) (filterRet : bool)
  | GetProcAddressMessage (nameIndex : Z).

(** A write to the live [Adapt] source; the other side's is thrown away. *)
Definition adapt_forward (key text : str) (proc : ProcSnippet) : ProcSnippet :=
  let src := at_adapt (proc_source proc) in
  let b := body src in
  with_sources proc (set_phase (proc_source proc) Adapt
    (MkSource (functionInfo src) (source_head src)
       (MkBody (prolog b) (push_back (forward b) (MkLine key text)) (center b) (backward b) (epilog b))
       (source_tail src))).

Definition adapt_backward (key text : str) (proc : ProcSnippet) : ProcSnippet :=
  let src := at_adapt (proc_source proc) in
  let b := body src in
  with_sources proc (set_phase (proc_source proc) Adapt
    (MkSource (functionInfo src) (source_head src)
       (MkBody (prolog b) (forward b) (center b) (push_back (backward b) (MkLine key text)) (epilog b))
       (source_tail src))).

(** ** [TypeFilter] *)

Definition filter_key : str := $"TypeFilter".

(** [getFilterType]: the single type argument, canonical. *)
Definition getFilterType (decl : Spec) : option QualType :=
  match class_spec decl with
  | Some (_, [TA_Type t]) => Some (getCanonicalType t)
  | _ => None
  end.

(** The filters found: the keys of [m_procArgFilters] and [m_procRetFilters]. *)
Record Filters : Type := MkFilters { arg_filters : gset str; ret_filters : gset str }.

(** A match binds a specialization of [ProcArgFilter] or of [ProcReturnFilter]. *)
Definition add_filter (fs : Filters) (n : bool * Spec) : run Filters :=
  let '(is_arg, decl) := n in
  match getFilterType decl with
  | None => Done fs
  | Some t =>
      s ← getTypeString t;
      Done (if is_arg : bool then MkFilters ({[s]} ∪ arg_filters fs) (ret_filters fs)
            else MkFilters (arg_filters fs) ({[s]} ∪ ret_filters fs))
  end.

Fixpoint filter_handleTranslationUnit (fs : Filters) (nodes : list (bool * Spec)) : run Filters :=
  match nodes with
  | [] => Done fs
  | n :: nodes => fs ← add_filter fs n; filter_handleTranslationUnit fs nodes
  end.

Fixpoint filtered_indexes (fs : Filters) (i : nat) (ts : list QualType) : run (list nat) :=
  match ts with
  | [] => Done []
  | t :: ts =>
      s ← getTypeString (getCanonicalType t);
      rest ← filtered_indexes fs (S i) ts;
      Done (if bool_decide (s ∈ arg_filters fs) then i :: rest else rest)
  end.

Definition filter_testProc (fs : Filters) (proc : ProcSnippet) : run (bool * option PassMessage) :=
  let view := proc_view proc in
  idx ← filtered_indexes fs 0 (view_argTypes view);
  ret ← defined (view_returnType view);
  s ← getTypeString (getCanonicalType ret);
  let filterRet := bool_decide (s ∈ ret_filters fs) in
  match idx, filterRet with
  | [], false => Done (false, None)
  | _, _ => Done (true, Some (TypeFilterMessage idx filterRet))
  end.

(** The signature whose names the statements use: that of [Adapt] once a builder has
    filled it. *)
Definition filter_info (proc : ProcSnippet) : FunctionInfo :=
  let adaptFI := functionInfo (at_adapt (proc_source proc)) in
  match returnType adaptFI with Some _ => adaptFI | None => real_info proc end.

Definition getProcDescType (proc : ProcSnippet) : run str :=
  match proc_kind proc with
  | Callback => format ($"ProcCbDesc<%1>") [proc_name proc]
  | Function_ => format ($"ProcFnDesc<%1>") [proc_name proc]
  end.

Definition getProcKind (proc : ProcSnippet) : str :=
  match proc_kind proc with Callback => $"Callback" | Function_ => $"Function" end.

Definition getArgFilterStatement (proc : ProcSnippet) (idx : nat) : run str :=
  t ← defined (view_argTypes (proc_view proc) !! idx);
  ty ← getTypeString (getCanonicalType t);
  desc ← getProcDescType proc;
  name ← argumentName (filter_info proc) (Z.of_nat idx);
  format ($"ProcArgFilter<%1>::filter<%2, %3, %4, %5>(%6, ProcArgContext(%7));")
    [ty; desc; dec idx; getProcKind proc; direction_name (proc_direction proc); name;
     SRC_callList (filter_info proc)].

Definition getRetFilterStatement (proc : ProcSnippet) : run str :=
  t ← defined (view_returnType (proc_view proc));
  ty ← getTypeString (getCanonicalType t);
  desc ← getProcDescType proc;
  format ($"ProcReturnFilter<%1>::filter<%2, %3, %4>(ret, ProcArgContext(%5));")
    [ty; desc; getProcKind proc; direction_name (proc_direction proc); SRC_callList (filter_info proc)].

(** The statements are written on both sides, of which one is live. *)
Fixpoint filter_args (idx : list nat) (proc : ProcSnippet) : run ProcSnippet :=
  match idx with
  | [] => Done proc
  | i :: idx =>
      s ← getArgFilterStatement proc i;
      filter_args idx (adapt_forward filter_key (SRC_asIs s) proc)
  end.

Definition filter_begin (idx : list nat) (filterRet : bool) (proc : ProcSnippet) : run ProcSnippet :=
  proc ← filter_args idx proc;
  if filterRet then
    s ← getRetFilterStatement proc;
    Done (adapt_backward filter_key (SRC_asIs s) proc)
  else Done proc.

(** ** [GetProcAddress] *)

Definition gpa_key : str := $"GetProcAddress".

Definition gpa_testProc (proc : ProcSnippet) : run (bool * option PassMessage) :=
  let named (passWithDefaultArgs : bool) :=
    if passWithDefaultArgs || contains (proc_name proc) ($"GetProcAddress") then
      match last (view_argTypes (proc_view proc)) with
      | Some maybeNameType =>
          if isCharPointerType maybeNameType then
            (true, Some (GetProcAddressMessage (Z.of_nat (length (view_argTypes (proc_view proc))))))
          else (false, None)
      | None => (false, None)
      end
    else (false, None) in
  match PASS_getIntegralArgumentsInPass 1 proc false ID_GetProcAddress with
  | Some [k] => Done (if (k <? 0)%Z then named true else (true, Some (GetProcAddressMessage k)))
  | _ => Done (named false)
  end.

Definition gpa_begin (mode : Mode) (nameIndex : Z) (proc : ProcSnippet) : run ProcSnippet :=
  let isFunction := match proc_kind proc with Function_ => true | Callback => false end in
  let isG2H := match proc_direction proc with GuestToHost => true | HostToGuest => false end in
  if negb isFunction && negb isG2H then Done proc else
  match mode with
  | Host => Done proc
  | Guest =>
      name ← argumentName (functionInfo (at_adapt (proc_source proc))) (nameIndex - 1);
      Done (adapt_backward gpa_key
              (SRC_asIs ($"ret = (decltype(ret)) mod::GuestClient::convertHostProcAddress((const char *) "
                         ++ name ++ $", (void *) ret);")) proc)
  end.

(** ** Which argument a statement names *)

(** The name at an index of the [Adapt] layer's parameters. *)
Definition named_arg (proc : ProcSnippet) (i : nat) : str :=
  if is_callback proc then match i with 0 => $"callback" | S j => arg_name j end else arg_name i.

Lemma named_arg_lookup proc i : i < arity proc → inner_names (proc_shape proc) !! i = Some (named_arg proc i).
Proof.
  intros Hi. unfold inner_names. rewrite outer_args. cbn [sh_callback proc_shape]. unfold named_arg.
  destruct (is_callback proc); [destruct i as [|i]; [done|]|]; simpl;
    rewrite list_lookup_fmap, lookup_seq_lt by lia; done.
Qed.

Lemma argumentName_inner info proc i :
  arg_names info = inner_names (proc_shape proc) → i < arity proc →
  argumentName info (Z.of_nat i) = Done (named_arg proc i).
Proof.
  intros Hn Hi. unfold argumentName. rewrite (proj2 (Z.ltb_ge _ _)), Nat2Z.id by lia.
  rewrite <- list_lookup_fmap. fold (arg_names info). by rewrite Hn, named_arg_lookup.
Qed.

(** A callback's statement never names the argument of its index. *)
Lemma named_arg_callback proc i : is_callback proc = true → named_arg proc i ≠ arg_name i.
Proof.
  intros Hc. unfold named_arg. rewrite Hc. destruct i as [|i]; [apply not_arg_callback|].
  intros Heq%arg_name_inj. lia.
Qed.

(** ** [TypeFilter] *)

Definition desc_text (proc : ProcSnippet) : str :=
  match proc_kind proc with Callback => $"ProcCbDesc<" | Function_ => $"ProcFnDesc<" end
  ++ proc_name proc ++ $">".

(** The statement that filters the variable [x]. *)
Definition arg_filter_text (proc : ProcSnippet) (ty : str) (i : nat) (x : str) : str :=
  $"ProcArgFilter<" ++ ty ++ $">::filter<" ++ desc_text proc ++ $", " ++ dec i ++ $", " ++ getProcKind proc
  ++ $", " ++ direction_name (proc_direction proc) ++ $">(" ++ x ++ $", ProcArgContext("
  ++ SRC_callList (filter_info proc) ++ $"));".

Lemma desc_type_text proc : getProcDescType proc = Done (desc_text proc).
Proof. unfold getProcDescType, desc_text. destruct (proc_kind proc); reflexivity. Qed.

Lemma arg_filter_statement proc i t ty :
  arg_names (filter_info proc) = inner_names (proc_shape proc) → view_argTypes (proc_view proc) !! i = Some t →
  getTypeString (getCanonicalType t) = Done ty →
  getArgFilterStatement proc i = Done (arg_filter_text proc ty i (named_arg proc i)).
Proof.
  intros Hn Ht Hty. unfold getArgFilterStatement. rewrite Ht. cbn [defined mbind run_bind].
  rewrite Hty, desc_type_text. cbn [mbind run_bind].
  rewrite (argumentName_inner _ proc) by (done || by eapply lookup_lt_Some). cbn [mbind run_bind].
  unfold arg_filter_text. generalize (desc_text proc) as d. intros d.
  generalize (named_arg proc i) as x, (SRC_callList (filter_info proc)) as l, (dec i) as n,
    (getProcKind proc) as k, (direction_name (proc_direction proc)) as dir. intros. reflexivity.
Qed.

(** The indexes of the arguments whose type has a filter, with its spelling. *)
Definition filtered_spec (fs : Filters) (k : nat) (tys : list str) : list nat :=
  (λ p, k + p.1) <$> filter (λ p, p.2 ∈ arg_filters fs) (imap (λ i ty, (i, ty)) tys).

Lemma filtered_spec_cons fs k ty tys :
  filtered_spec fs k (ty :: tys) =
    (if bool_decide (ty ∈ arg_filters fs) then [k] else []) ++ filtered_spec fs (S k) tys.
Proof.
  unfold filtered_spec. rewrite imap_cons, filter_cons. cbn [snd].
  assert ((λ p : nat * str, k + p.1) <$> filter (λ p, p.2 ∈ arg_filters fs) (imap ((λ i ty, (i, ty)) ∘ S) tys) =
    (λ p : nat * str, S k + p.1) <$> filter (λ p, p.2 ∈ arg_filters fs) (imap (λ i ty, (i, ty)) tys)) as Heq.
  { assert (imap ((λ i ty, (i, ty)) ∘ S) tys = prod_map S id <$> imap (λ i (ty : str), (i, ty)) tys) as ->
      by by rewrite fmap_imap.
    rewrite filter_fmap, <- list_fmap_compose. apply list_fmap_ext. intros ? [i s] _. simpl. lia. }
  destruct (decide (ty ∈ arg_filters fs)).
  - rewrite bool_decide_true by done. rewrite fmap_cons, Heq. cbn [fst]. by rewrite Nat.add_0_r.
  - rewrite bool_decide_false by done. by rewrite Heq.
Qed.

Lemma filtered_indexes_spec fs ts k :
  ∃ tys, Forall2 (λ t ty, getTypeString (getCanonicalType t) = Done ty) ts tys ∧
    filtered_indexes fs k ts = Done (filtered_spec fs k tys).
Proof.
  revert k. induction ts as [|t ts IH]; intros k; [exists []; by split; [constructor|]|].
  destruct (getTypeString_total (getCanonicalType t)) as [ty Hty].
  destruct (IH (S k)) as (tys & Htys & Hidx). exists (ty :: tys). split; [by constructor|].
  simpl. rewrite Hty, Hidx. cbn [mbind run_bind]. rewrite filtered_spec_cons. by case_bool_decide.
Qed.

(** A write to [Adapt] keeps what the statements read. *)
Lemma filter_info_forward key s proc : filter_info (adapt_forward key s proc) = filter_info proc.
Proof. done. Qed.

Lemma forward_text key s proc :
  terminated s →
  toRawText (forward (body (at_adapt (proc_source (adapt_forward key s proc))))) =
    toRawText (forward (body (at_adapt (proc_source proc)))) ++ s.
Proof. apply append_terminated. Qed.

(** Two procs that differ only in the forward lines of [Adapt]. *)
Definition same_but_forward (p p' : ProcSnippet) : Prop :=
  ∃ lines, p' = with_sources p (set_phase (proc_source p) Adapt
    (let src := at_adapt (proc_source p) in
     MkSource (functionInfo src) (source_head src)
       (MkBody (prolog (body src)) lines (center (body src)) (backward (body src)) (epilog (body src)))
       (source_tail src))).

Lemma same_but_forward_refl p : same_but_forward p p.
Proof.
  exists (forward (body (at_adapt (proc_source p)))).
  by destruct p as [? ? ? ? ? ? ? ? ? [[] [? ? [] ?] []]].
Qed.

Lemma filter_args_spec proc idx tys :
  arg_names (filter_info proc) = inner_names (proc_shape proc) →
  Forall2 (λ t ty, getTypeString (getCanonicalType t) = Done ty) (view_argTypes (proc_view proc)) tys →
  Forall (λ i, i < length tys) idx →
  ∃ proc', filter_args idx proc = Done proc' ∧ same_but_forward proc proc' ∧
    toRawText (forward (body (at_adapt (proc_source proc')))) =
      toRawText (forward (body (at_adapt (proc_source proc)))) ++
      concat ((λ i, SRC_asIs (arg_filter_text proc (default [] (tys !! i)) i (named_arg proc i))) <$> idx).
Proof.
  intros Hn Htys Hidx. revert proc Hn Htys. induction Hidx as [|i idx Hi _ IH]; intros proc Hn Htys; simpl.
  { exists proc. split; [done|]. split; [apply same_but_forward_refl|]. by rewrite app_nil_r. }
  destruct (lookup_lt_is_Some_2 tys i Hi) as [ty Hty].
  destruct (Forall2_lookup_r _ _ _ _ _ Htys Hty) as (t & Ht & Hs).
  rewrite (arg_filter_statement proc i t ty) by done. cbn [mbind run_bind].
  set (s := SRC_asIs _). destruct (IH (adapt_forward filter_key s proc)) as (p' & -> & [lines ->] & Htext); [done..|].
  eexists. split; [done|]. split.
  - by exists lines.
  - rewrite Htext, forward_text, <- app_assoc by apply asIs_terminated. by rewrite Hty.
Qed.

(** On a proc whose [Adapt] layer a builder has filled, [TypeFilter] matches exactly
    when the spelling of an argument's type or of the result's is that of a filter of
    the manifest, and then writes one statement for each such argument, in order, and
    one for the result, changing nothing else; the statement for an index names the
    argument of that index for a function, but for a callback the parameter one place
    before it, the callback pointer itself for the first. *)
Theorem filter_pass fs proc ret :
  arg_names (filter_info proc) = inner_names (proc_shape proc) → view_returnType (proc_view proc) = Some ret →
  ∃ tys rty,
    Forall2 (λ t ty, getTypeString (getCanonicalType t) = Done ty) (view_argTypes (proc_view proc)) tys ∧
    getTypeString (getCanonicalType ret) = Done rty ∧
    let idx := filtered_spec fs 0 tys in
    let has_ret := bool_decide (rty ∈ ret_filters fs) in
    filter_testProc fs proc =
      Done (if bool_decide (idx = []) && negb has_ret then (false, None)
            else (true, Some (TypeFilterMessage idx has_ret))) ∧
    ∃ proc', filter_begin idx false proc = Done proc' ∧ same_but_forward proc proc' ∧
      toRawText (forward (body (at_adapt (proc_source proc')))) =
        toRawText (forward (body (at_adapt (proc_source proc)))) ++
        concat ((λ i, SRC_asIs (arg_filter_text proc (default [] (tys !! i)) i
                                  (if is_callback proc
                                   then match i with 0 => $"callback" | S j => arg_name j end
                                   else arg_name i))) <$> idx) ∧
      ∃ stmt, filter_begin idx true proc = Done (adapt_backward filter_key (SRC_asIs stmt) proc') ∧
        stmt = $"ProcReturnFilter<" ++ rty ++ $">::filter<" ++ desc_text proc ++ $", " ++ getProcKind proc
               ++ $", " ++ direction_name (proc_direction proc) ++ $">(ret, ProcArgContext("
               ++ SRC_callList (filter_info proc) ++ $"));".
Proof.
  intros Hn Hret. destruct (filtered_indexes_spec fs (view_argTypes (proc_view proc)) 0) as (tys & Htys & Hidx).
  destruct (getTypeString_total (getCanonicalType ret)) as [rty Hrty]. exists tys, rty.
  split; [done|]. split; [done|]. intros idx has_ret. split.
  { unfold filter_testProc. rewrite Hidx, Hret. cbn [defined mbind run_bind]. rewrite Hrty. cbn [mbind run_bind].
    fold idx has_ret. by destruct idx, has_ret. }
  assert (Forall (λ i, i < length tys) idx) as Hlt.
  { apply Forall_fmap, Forall_forall. intros [i ty] [_ Hin]%list_elem_of_filter. simpl.
    apply list_elem_of_lookup in Hin as [j Hj]. rewrite list_lookup_imap in Hj.
    apply fmap_Some in Hj as (ty' & Hj & [= -> ->]). by eapply lookup_lt_Some. }
  destruct (filter_args_spec proc idx tys Hn Htys Hlt) as (p' & Hp & [lines ->] & Htext).
  eexists. unfold filter_begin. rewrite Hp. cbn [mbind run_bind]. split; [done|]. split; [by exists lines|].
  split; [exact Htext|]. unfold getRetFilterStatement. cbn [proc_view with_sources]. rewrite Hret.
  cbn [defined mbind run_bind]. rewrite Hrty, desc_type_text. cbn [mbind run_bind].
  eexists. split; [|reflexivity]. reflexivity.
Qed.

(** The filter statements of a callback are shifted by one: for the argument at any
    index the variable handed to the filter is another parameter, and for the first
    argument it is the callback's own pointer. *)
Theorem filter_callback_shifted proc i t :
  is_callback proc = true → arg_names (filter_info proc) = inner_names (proc_shape proc) →
  view_argTypes (proc_view proc) !! i = Some t →
  ∃ ty x, getArgFilterStatement proc i = Done (arg_filter_text proc ty i x) ∧
    getTypeString (getCanonicalType t) = Done ty ∧ x ∈ inner_names (proc_shape proc) ∧
    x ≠ arg_name i ∧ (i = 0 → x = $"callback").
Proof.
  intros Hc Hn Ht. destruct (getTypeString_total (getCanonicalType t)) as [ty Hty].
  exists ty, (named_arg proc i). split_and!.
  - by eapply arg_filter_statement.
  - done.
  - eapply list_elem_of_lookup_2, named_arg_lookup. by eapply lookup_lt_Some.
  - by apply named_arg_callback.
  - intros ->. unfold named_arg. by rewrite Hc.
Qed.

(** ** [GetProcAddress] *)

Definition gpa_text (x : str) : str :=
  $"ret = (decltype(ret)) mod::GuestClient::convertHostProcAddress((const char *) " ++ x
  ++ $", (void *) ret);".

Definition mode_is_guest (mode : Mode) : bool := match mode with Guest => true | Host => false end.

(** In the guest's document [GetProcAddress] rewrites the result of every function,
    of both directions, and of every guest-to-host callback; the name it passes is the
    parameter of the given index for a function and the one before it for a callback,
    and index 0, which a descriptor may give, leaves the arguments' bounds. *)
Theorem gpa_pass mode proc n :
  arg_names (functionInfo (at_adapt (proc_source proc))) = inner_names (proc_shape proc) → n ≤ arity proc →
  gpa_begin mode (Z.of_nat n) proc =
    if negb (mode_is_guest mode) || (is_callback proc && negb (is_g2h proc)) then Done proc
    else match n with
         | 0 => Undef
         | S i =>
             Done (adapt_backward gpa_key
               (SRC_asIs (gpa_text (if is_callback proc
                                    then match i with 0 => $"callback" | S j => arg_name j end
                                    else arg_name i))) proc)
         end.
Proof.
  intros Hn Hle. unfold gpa_begin, is_callback at 1, is_g2h.
  destruct (proc_kind proc) eqn:Hk, (proc_direction proc), mode; simpl; try done.
  all: destruct n as [|i]; [done|].
  all: replace (Z.of_nat (S i) - 1)%Z with (Z.of_nat i) by lia.
  all: rewrite (argumentName_inner _ proc) by (done || lia).
  all: cbn [mbind run_bind]; unfold named_arg, is_callback, gpa_text; rewrite Hk; reflexivity.
Qed.

(** An inferred index is the last argument's. *)
Lemma gpa_test_index proc n :
  gpa_testProc proc = Done (true, Some (GetProcAddressMessage n)) →
  PASS_getIntegralArgumentsInPass 1 proc false ID_GetProcAddress = None →
  n = Z.of_nat (arity proc) ∧ contains (proc_name proc) ($"GetProcAddress") = true ∧
  ∃ t, last (view_argTypes (proc_view proc)) = Some t ∧ isCharPointerType t = true.
Proof.
  unfold gpa_testProc. intros H1 H2. rewrite H2 in H1. simpl in H1.
  destruct (contains _ _); [|done]. destruct (last _) as [t|]; [|done].
  destruct (isCharPointerType t) eqn:Ht; [|done]. injection H1 as <-. split; [done|]. split; [done|].
  by exists t.
Qed.
End passes.

(** ** Examples *)

(** A proc whose [Adapt] layer has been given its signature. *)
Definition filled (proc : ProcSnippet) : ProcSnippet :=
  with_sources proc (set_phase (proc_source proc) Adapt
    (MkSource (inner_info proc) [] (MkBody [] [] [] [] []) [])).

Definition double_filters : Filters := MkFilters {[ $"double" ]} ∅.

Lemma filter_pass_witness :
  filter_testProc double_filters (filled foo_proc) = Done (true, Some (TypeFilterMessage [1] false)) ∧
  ∃ proc', filter_begin [1] false (filled foo_proc) = Done proc' ∧
    toRawText (forward (body (at_adapt (proc_source proc')))) =
      $"    ProcArgFilter<double>::filter<ProcFnDesc<foo>, 1, Function, GuestToHost>(arg2, ProcArgContext(arg1, arg2));"
      ++ [c_nl].
Proof.
  destruct (filter_pass double_filters (filled foo_proc) c_int) as (tys & rty & Htys & Hrty & Htest & p & Hp & _ & Htext & _).
  - reflexivity.
  - reflexivity.
  - assert (tys = [$"int"; $"double"]) as ->.
    { inversion Htys as [|a b la lb Ha Hl]; subst. inversion Hl as [|c d lc ld Hc Hl']; subst.
      inversion Hl'; subst. vm_compute in Ha, Hc. by injection Ha as <-; injection Hc as <-. }
    assert (rty = $"int") as -> by (vm_compute in Hrty; by injection Hrty as <-).
    split; [exact Htest|]. exists p. split; [exact Hp|]. rewrite Htext. vm_compute. reflexivity.
Defined.

Lemma filter_callback_shifted_witness :
  ∃ ty x, getArgFilterStatement (filled cb_proc) 0 = Done (arg_filter_text (filled cb_proc) ty 0 x) ∧
    x = $"callback" ∧ arg_name 0 = $"arg1".
Proof.
  destruct (filter_callback_shifted (filled cb_proc) 0 c_int) as (ty & x & Hs & _ & _ & _ & Hx); [reflexivity..|].
  exists ty, x. split; [exact Hs|]. split; [by apply Hx|reflexivity].
Defined.

Lemma gpa_pass_witness :
  gpa_begin Guest 2 (filled foo_proc) =
    Done (adapt_backward gpa_key
      (SRC_asIs ($"ret = (decltype(ret)) mod::GuestClient::convertHostProcAddress((const char *) arg2, (void *) ret);"))
      (filled foo_proc)).
Proof.
  etransitivity; [apply (gpa_pass Guest (filled foo_proc) 2); [reflexivity|vm_compute; lia]|].
  reflexivity.
Defined.
