(* ===== verification/SourceStatistics.v ===== *)
(** The statistics of the header library rewriter and what they count:
    [src/tools/HLR/Utils/SourceStatistics.cpp], [src/tools/HLR/Utils/ASTConsumers.cpp] and
    [src/tools/HLR/Commands/Stat.cpp].

    The rewriter makes a host library's sources guard the calls through function pointers
    and the functions whose addresses escape.  Its [stat] command walks the sources and
    counts, for the callback signatures of a manifest, the calls, the functions and the
    files concerned.  The theorems say which expressions are counted, what the statistics
    hold after a list of sources, and that they survive their file. *)

From stdpp Require Import gmap sorting.
From S2P Require Import Prelude CppString Assoc Json ManifestSummary ClangExtras.

(** ** The statistics *)

Record SourceStatistics : Type := MkStatistics {
  filesNeedPatch : gset str;
  callbackCheckGuardSignatures : gset str;
  (** By signature, then by location: the file that refers to the function. *)
  functionDecayGuardStats : gmap str (gmap str str)
}.

Definition statistics_clear : SourceStatistics := MkStatistics ∅ ∅ ∅.

(** [std::map::insert]: an entry that is there stays. *)
Definition map_insert {A} (m : gmap str A) (e : str * A) : gmap str A :=
  match m !! e.1 with Some _ => m | None => <[e.1 := e.2]> m end.

(** ** Its file *)

Definition decay_guard_json (e : str * gmap str str) : Json :=
  JObject [($"signature", JString e.1);
           ($"locations", JObject ((λ l, (l.1, JString l.2)) <$> entries e.2))].

Definition statistics_json (s : SourceStatistics) : Json :=
  JObject
    [($"filesNeedPatch", JArray (JString <$> set_entries (filesNeedPatch s)));
     ($"callbackCheckGuardSignatures", JArray (JString <$> set_entries (callbackCheckGuardSignatures s)));
     ($"functionDecayGuardStats", JArray (decay_guard_json <$> entries (functionDecayGuardStats s)))].

Definition parse_string (m : gset str) (item : Json) : gset str :=
  match as_string item with Some s => {[s]} ∪ m | None => m end.

Definition parse_strings (obj : Json) (key : str) : gset str :=
  match as_array (json_field obj key) with Some items => foldl parse_string ∅ items | None => ∅ end.

Definition parse_location (m : gmap str str) (loc : str * Json) : gmap str str :=
  match as_string loc.2 with Some s => map_insert m (loc.1, s) | None => m end.

Definition parse_decay_guard (m : gmap str (gmap str str)) (item : Json) : gmap str (gmap str str) :=
  match as_object item with
  | None => m
  | Some obj =>
      match as_string (json_field obj ($"signature")) with
      | None => m
      | Some signature =>
          let data := match as_object (json_field obj ($"locations")) with
                      | Some locObj => foldl parse_location ∅ (object_items locObj)
                      | None => ∅
                      end in
          if bool_decide (data = ∅) then m else map_insert m (signature, data)
      end
  end.

Definition statistics_of_json (obj : Json) : SourceStatistics :=
  MkStatistics (parse_strings obj ($"filesNeedPatch")) (parse_strings obj ($"callbackCheckGuardSignatures"))
    (match as_array (json_field obj ($"functionDecayGuardStats")) with
     | Some items => foldl parse_decay_guard ∅ items
     | None => ∅
     end).

Section files.
Variable read_file : str → str + str.
Variable parse : str → str + Json.
Variable print : Json → str.
Variable open_error : str → option str.
Variable write_failed : str → bool.

(** The object afterwards, the result, and the message ([None] if untouched). *)
Definition statistics_load (filePath : str) (self : SourceStatistics) : SourceStatistics * bool * option str :=
  match read_file filePath with
  | inl e => (self, false, Some e)
  | inr text =>
      match parse text with
      | inl e => (self, false, Some e)
      | inr json =>
          match as_object json with
          | None => (self, false, Some ($"not an object"))
          | Some obj => (statistics_of_json obj, true, None)
          end
      end
  end.

(** The result, the message, and what the file then holds if all went well. *)
Definition statistics_save (filePath : str) (self : SourceStatistics) : bool * option str * option str :=
  match open_error filePath with
  | Some e => (false, Some e, None)
  | None =>
      if write_failed filePath then (false, Some ($"Failed to write JSON to file"), None)
      else (true, None, Some (print (statistics_json self)))
  end.
End files.

(** ** Expressions *)

Inductive UnaryOpcode : Type := UO_Deref | UO_AddrOf | UO_Other.

(** What a node of the tree is, as far as the rewriter asks: a call with its callee and
    arguments; a reference, to a function or not. *)
Inductive NodeKind (Node FunctionDecl : Type) : Type :=
  | N_Cast
  | N_Paren
  | N_Unary (op : UnaryOpcode)
  | N_Call (callee : Node) (args : list Node)
  | N_DeclRef (fd : option FunctionDecl)
  | N_Other.
Arguments N_Cast {Node FunctionDecl}.
Arguments N_Paren {Node FunctionDecl}.
Arguments N_Unary {Node FunctionDecl} op.
Arguments N_Call {Node FunctionDecl} callee args.
Arguments N_DeclRef {Node FunctionDecl} fd.
Arguments N_Other {Node FunctionDecl}.

(** Clang's tree of a translation unit: nodes are told apart by their addresses; a node's
    first parent, upwards in a finite tree; what wraps an expression; the result of a
    function type without a prototype; in C, what is called is a pointer to a function. *)
Class ClangAst `{Clang} : Type := {
  Node : Type;
  Node_eq :: EqDecision Node;
  node_kind : Node → NodeKind Node FunctionDecl;
  first_parent : Node → option Node;
  parent_rank : Node → nat;
  parent_decreases n p : first_parent n = Some p → parent_rank p < parent_rank n;
  expr_type : Node → QualType;
  ignoreImpCasts : Node → Node;
  ignoreParens : Node → Node;
  ignoreParenImpCasts : Node → Node;
  noproto_result : QualType → option QualType;
  getFunctionType : QualType → list QualType → QualType;
  callee_pointer n callee args :
    node_kind n = N_Call callee args → is_Some (pointee (getCanonicalType (expr_type callee)));
  (** A declaration's begin location, printed. *)
  fn_begin : FunctionDecl → str
}.

Section hlr.
Context `{ClangAst}.

(** [realCalleeType] ([TypeUtils.cpp]). *)
Definition realCalleeType (callee : Node) (args : list Node) : run QualType :=
  T ← defined (pointee (getCanonicalType (expr_type callee)));
  Done (getPointerType
    (match noproto_result T, args with
     | Some result, _ :: _ => getCanonicalType (getFunctionType result (expr_type <$> args))
     | _, _ => T
     end)).

Definition isFunctionPointerCallee (E : Node) : bool :=
  isFunctionPointerType (getCanonicalType (expr_type E))
  || match node_kind (ignoreParenImpCasts E) with N_Unary UO_Deref => true | _ => false end.

(** The loop through the parents. *)
Fixpoint isDeclRefForCall_loop (fuel : nat) (E : Node) : run bool :=
  match first_parent E with
  | None => Done false
  | Some parent =>
      match node_kind parent with
      | N_Cast | N_Paren | N_Unary UO_Deref | N_Unary UO_AddrOf =>
          match fuel with 0 => NoFuel | S fuel => isDeclRefForCall_loop fuel parent end
      | N_Call callee _ => Done (bool_decide (E = callee))
      | _ => Done false
      end
  end.

(** The fuel is the node's own depth. *)
Definition isDeclRefForCall (DRE : Node) : run bool := isDeclRefForCall_loop (parent_rank DRE) DRE.

(** A call that was collected: the expression, its callee and arguments. *)
Abbreviation CallExpr := (Node * Node * list Node)%type.
(** A reference that was collected, and its function. *)
Abbreviation DeclRefExpr := (Node * FunctionDecl)%type.

Definition CallbackInvokeExprMatcher_run (exprList : list CallExpr) (n : Node) : list CallExpr :=
  match node_kind n with
  | N_Call callee args =>
      if isFunctionPointerCallee (ignoreParens (ignoreImpCasts callee)) then exprList ++ [(n, callee, args)] else exprList
  | _ => exprList
  end.

Definition FunctionDecayExprMatcher_run (exprList : list DeclRefExpr) (n : Node) : run (list DeclRefExpr) :=
  match node_kind n with
  | N_DeclRef (Some fd) => called ← isDeclRefForCall n; Done (if called : bool then exprList else exprList ++ [(n, fd)])
  | _ => Done exprList
  end.

(** [matchAST]: both matchers on every node of the unit, in the order of the traversal. *)
Fixpoint FunctionExprConsumer (calls : list CallExpr) (decays : list DeclRefExpr) (nodes : list Node) :
    run (list CallExpr * list DeclRefExpr) :=
  match nodes with
  | [] => Done (calls, decays)
  | n :: nodes =>
      decays ← FunctionDecayExprMatcher_run decays n;
      FunctionExprConsumer (CallbackInvokeExprMatcher_run calls n) decays nodes
  end.

(** ** The [stat] command *)

Section stat.
Context (requestedSignatures : gset str).

Definition stat_call (inFile : str) (acc : SourceStatistics * bool) (E : CallExpr) : run (SourceStatistics * bool) :=
  T ← realCalleeType E.1.2 E.2;
  typeStr ← getTypeString T;
  Done (if bool_decide (typeStr ∈ requestedSignatures)
        then (MkStatistics (filesNeedPatch acc.1) ({[typeStr]} ∪ callbackCheckGuardSignatures acc.1)
                (functionDecayGuardStats acc.1), true)
        else acc).

Definition stat_decay (inFile : str) (acc : SourceStatistics * bool) (E : DeclRefExpr) : run (SourceStatistics * bool) :=
  typeStr ← getTypeString (getPointerType (fn_type E.2));
  Done (if bool_decide (typeStr ∈ requestedSignatures)
        then (MkStatistics (filesNeedPatch acc.1) (callbackCheckGuardSignatures acc.1)
                (<[typeStr := map_insert (default ∅ (functionDecayGuardStats acc.1 !! typeStr)) (fn_begin E.2, inFile)]>
                   (functionDecayGuardStats acc.1)), true)
        else acc).

Fixpoint run_fold {A B} (f : B → A → run B) (acc : B) (l : list A) : run B :=
  match l with [] => Done acc | x :: l => acc ← f acc x; run_fold f acc l end.

(** [EndSourceFileAction]; [None] when the process ends with an error. *)
Definition stat_EndSourceFileAction (inFile : str) (fileData : list CallExpr * list DeclRefExpr)
    (sourceStat : SourceStatistics) : run (option SourceStatistics) :=
  if CPlusPlus then Done None else
  acc ← run_fold (stat_call inFile) (sourceStat, false) fileData.1;
  acc ← run_fold (stat_decay inFile) acc fileData.2;
  let '(st, fileNeedsPatch) := acc in
  Done (Some (if fileNeedsPatch : bool
              then MkStatistics ({[inFile]} ∪ filesNeedPatch st) (callbackCheckGuardSignatures st) (functionDecayGuardStats st)
              else st)).

(** The tool's run over the sources: each file's name, and the nodes of its unit. *)
Fixpoint stat_run (sourceStat : SourceStatistics) (units : list (str * list Node)) : run (option SourceStatistics) :=
  match units with
  | [] => Done (Some sourceStat)
  | (inFile, nodes) :: units =>
      fileData ← FunctionExprConsumer [] [] nodes;
      st ← stat_EndSourceFileAction inFile fileData sourceStat;
      match st with None => Done None | Some st => stat_run st units end
  end.
End stat.
End hlr.

(** ** The file's round trip *)

(** What [map_insert] of a list of entries makes: the first entry of a key stays. *)
Lemma foldl_map_insert {A} (l : list (str * A)) m : foldl map_insert m l = m ∪ list_to_map l.
Proof.
  revert m. induction l as [|[k a] l IH]; intros m; cbn [foldl list_to_map foldr uncurry fmap list_fmap];
    [by rewrite (right_id_L ∅ (∪))|].
  rewrite IH. unfold map_insert. cbn [fst snd]. destruct (m !! k) as [b|] eqn:Hk.
  - apply map_eq. intros j. rewrite !lookup_union. destruct (decide (j = k)) as [->|Hne].
    + rewrite Hk. by rewrite !union_Some_l.
    + by rewrite lookup_insert_ne.
  - rewrite <- insert_union_l. by apply insert_union_r.
Qed.

Lemma foldl_strings l m : foldl parse_string m (JString <$> l) = list_to_set l ∪ m.
Proof.
  revert m. induction l as [|s l IH]; intros m; cbn [fmap list_fmap foldl list_to_set]; [set_solver|].
  rewrite IH. cbn [parse_string as_string]. set_solver.
Qed.

Lemma strings_roundtrip m : foldl parse_string ∅ (JString <$> set_entries m) = m.
Proof. rewrite foldl_strings, set_entries_perm, list_to_set_elements_L. set_solver. Qed.

Lemma entries_to_map {A} (m : gmap str A) : list_to_map (entries m) = m.
Proof.
  rewrite <- (list_to_map_to_list m) at 2. apply list_to_map_proper; [|apply entries_perm].
  rewrite entries_perm. apply NoDup_fst_map_to_list.
Qed.

Lemma locations_roundtrip (m : gmap str str) :
  foldl parse_location ∅ ((λ l, (l.1, JString l.2)) <$> entries m) = m.
Proof.
  rewrite <- (entries_to_map m) at 2. rewrite <- (left_id_L ∅ (∪) (list_to_map (entries m))), <- foldl_map_insert.
  generalize (entries m), (∅ : gmap str str). intros l. induction l as [|[k s] l IH]; intros m0; [done|].
  cbn [fmap list_fmap foldl]. by rewrite IH.
Qed.

(** A counted signature has a location. *)
Definition statistics_wf (s : SourceStatistics) : Prop := map_Forall (λ _ l, l ≠ ∅) (functionDecayGuardStats s).

Lemma parse_decay_guard_json m e :
  e.2 ≠ ∅ → parse_decay_guard m (decay_guard_json e) = map_insert m e.
Proof.
  intros Hne. destruct e as [sig l]. unfold parse_decay_guard, decay_guard_json. cbn [as_object fst snd] in *.
  rewrite json_field_cons_eq. cbn [as_string]. rewrite json_field_cons_ne by discriminate.
  rewrite json_field_cons_eq. cbn [as_object object_items]. rewrite locations_roundtrip. by rewrite bool_decide_false.
Qed.

Lemma decay_guards_roundtrip (m : gmap str (gmap str str)) :
  map_Forall (λ _ l, l ≠ ∅) m → foldl parse_decay_guard ∅ (decay_guard_json <$> entries m) = m.
Proof.
  intros Hm. rewrite <- (entries_to_map m) at 2.
  rewrite <- (left_id_L ∅ (∪) (list_to_map (entries m))), <- foldl_map_insert.
  assert (Forall (λ e, e.2 ≠ ∅) (entries m)) as Hall.
  { apply Forall_forall. intros [k l] Hin. apply (Hm k). apply elem_of_map_to_list. by rewrite <- entries_perm. }
  revert Hall. generalize (∅ : gmap str (gmap str str)). generalize (entries m). intros l.
  induction l as [|e l IH]; intros m0; [done|]. intros [He Hl]%Forall_cons.
  cbn [fmap list_fmap foldl]. by rewrite parse_decay_guard_json, IH.
Qed.

Lemma statistics_json_roundtrip s : statistics_wf s → statistics_of_json (statistics_json s) = s.
Proof.
  intros W. destruct s as [f c d]. unfold statistics_of_json, parse_strings, statistics_json.
  rewrite json_field_cons_eq, json_field_cons_ne by discriminate. rewrite json_field_cons_eq.
  rewrite !json_field_cons_ne by discriminate. rewrite json_field_cons_eq. cbn [as_array].
  by rewrite !strings_roundtrip, decay_guards_roundtrip.
Qed.

(** ** What is counted *)

Section counted.
Context `{ClangAst}.
Abbreviation CallExpr := (Node * Node * list Node)%type.
Abbreviation DeclRefExpr := (Node * FunctionDecl)%type.

(** What [isDeclRefForCall] looks through. *)
Definition transparent (n : Node) : bool :=
  match node_kind n with N_Cast | N_Paren | N_Unary UO_Deref | N_Unary UO_AddrOf => true | _ => false end.

(** A reference is called when only casts, parentheses, [*] and [&] are between it and a
    call of it. *)
Inductive called : Node → Prop :=
  | called_call E p args : first_parent E = Some p → node_kind p = N_Call E args → called E
  | called_wrap E p : first_parent E = Some p → transparent p = true → called p → called E.

Lemma called_inv E p :
  first_parent E = Some p → called E ↔ (transparent p = true ∧ called p) ∨ ∃ args, node_kind p = N_Call E args.
Proof.
  intros Hp. split.
  - intros Hc. destruct Hc as [E p' args Hp' Hc|E p' Hp' Ht Hc]; assert (p' = p) as -> by congruence; [right; by exists args|by left].
  - intros [[Ht Hc]|[args Hk]]; [by eapply called_wrap|by eapply called_call].
Qed.

Lemma isDeclRefForCall_step fuel E :
  isDeclRefForCall_loop fuel E =
  match first_parent E with
  | None => Done false
  | Some p =>
      if transparent p then match fuel with 0 => NoFuel | S fuel => isDeclRefForCall_loop fuel p end
      else Done (match node_kind p with N_Call callee _ => bool_decide (E = callee) | _ => false end)
  end.
Proof.
  unfold transparent. destruct fuel; cbn [isDeclRefForCall_loop]; (destruct (first_parent E) as [p|]; [|done]);
    by destruct (node_kind p) as [| |[]|c args|fd|].
Qed.

Lemma isDeclRefForCall_loop_spec fuel E :
  parent_rank E ≤ fuel → ∃ b, isDeclRefForCall_loop fuel E = Done b ∧ (b = true ↔ called E).
Proof.
  revert E. induction fuel as [fuel IH] using lt_wf_ind. intros E Hfuel. rewrite isDeclRefForCall_step.
  destruct (first_parent E) as [p|] eqn:Hp.
  2: { exists false. split; [done|]. split; [done|]. intros Hc. destruct Hc; congruence. }
  pose proof (called_inv E p Hp) as Hinv. destruct (transparent p) eqn:Ht.
  - pose proof (parent_decreases E p Hp). destruct fuel as [|fuel]; [lia|].
    destruct (IH fuel ltac:(lia) p ltac:(lia)) as (b & Hb & Hspec). exists b. split; [done|]. rewrite Hspec, Hinv.
    split; [by left|]. intros [[_ Hc]|[args Hk]]; [done|]. unfold transparent in Ht. by rewrite Hk in Ht.
  - eexists. split; [done|]. rewrite Hinv. split.
    + destruct (node_kind p) as [| |op|c args|fd|]; try done. intros ->%bool_decide_eq_true. right. by exists args.
    + intros [[Hx _]|[args ->]]; [done|]. by apply bool_decide_eq_true.
Qed.

Lemma isDeclRefForCall_spec E : ∃ b, isDeclRefForCall E = Done b ∧ (b = true ↔ called E).
Proof. by apply isDeclRefForCall_loop_spec. Qed.

(** A call through a function pointer; a function that is referred to without being called. *)
Definition collected_call (E : CallExpr) : Prop :=
  node_kind E.1.1 = N_Call E.1.2 E.2 ∧ isFunctionPointerCallee (ignoreParens (ignoreImpCasts E.1.2)) = true.
Definition collected_decay (E : DeclRefExpr) : Prop := node_kind E.1 = N_DeclRef (Some E.2) ∧ ¬ called E.1.

Lemma FunctionDecay_run_spec ds n :
  ∃ ds', FunctionDecayExprMatcher_run ds n = Done ds' ∧
    ∀ E, E ∈ ds' ↔ E ∈ ds ∨ E.1 = n ∧ collected_decay E.
Proof.
  unfold FunctionDecayExprMatcher_run, collected_decay. destruct (node_kind n) as [| | | |[fd|]|] eqn:Hk.
  1, 2, 3, 4, 6, 7: exists ds; (split; [done|]); intros E; split; [by left|intros [?|(-> & Hx & _)]; [done|congruence]].
  destruct (isDeclRefForCall_spec n) as (b & -> & Hb). cbn [mbind run_bind]. exists (if b then ds else ds ++ [(n, fd)]).
  split; [done|]. intros [m fd']. cbn [fst snd]. destruct b.
  - split; [by left|]. intros [?|(-> & _ & Hn)]; [done|]. destruct Hn. by apply Hb.
  - rewrite elem_of_app, list_elem_of_singleton. f_equiv. split.
    + intros [= -> ->]. split; [done|]. split; [done|]. intros Hc. by apply Hb in Hc.
    + intros (-> & Hx & _). congruence.
Qed.

Lemma CallbackInvoke_run_spec cs n E :
  E ∈ CallbackInvokeExprMatcher_run cs n ↔ E ∈ cs ∨ E.1.1 = n ∧ collected_call E.
Proof.
  unfold CallbackInvokeExprMatcher_run, collected_call. destruct E as [[m c] a]. cbn [fst snd].
  destruct (node_kind n) as [| |op|callee args|fd|] eqn:Hk.
  1, 2, 3, 5, 6: split; [by left|intros [?|(-> & Hx & _)]; [done|congruence]].
  destruct (isFunctionPointerCallee _) eqn:Hf.
  - rewrite elem_of_app, list_elem_of_singleton. f_equiv. split; [intros [= -> -> ->]; done|].
    intros (-> & Hx & _). congruence.
  - split; [by left|]. intros [?|(-> & Hx & Ht)]; [done|]. assert (c = callee) as -> by congruence. congruence.
Qed.

Lemma consumer_spec calls decays nodes :
  ∃ calls' decays', FunctionExprConsumer calls decays nodes = Done (calls', decays') ∧
    (∀ E, E ∈ calls' ↔ E ∈ calls ∨ E.1.1 ∈ nodes ∧ collected_call E) ∧
    (∀ E, E ∈ decays' ↔ E ∈ decays ∨ E.1 ∈ nodes ∧ collected_decay E).
Proof.
  revert calls decays. induction nodes as [|n nodes IH]; intros calls decays.
  { exists calls, decays. split; [done|]. split; intros E; rewrite elem_of_nil; tauto. }
  cbn [FunctionExprConsumer]. destruct (FunctionDecay_run_spec decays n) as (ds & -> & Hds). cbn [mbind run_bind].
  destruct (IH (CallbackInvokeExprMatcher_run calls n) ds) as (cs' & ds' & Hrun & Hc & Hd).
  exists cs', ds'. split; [done|]. split; intros E; rewrite elem_of_cons.
  - rewrite Hc, CallbackInvoke_run_spec. tauto.
  - rewrite Hd, Hds. tauto.
Qed.
Lemma realCalleeType_total E : collected_call E → ∃ T, realCalleeType E.1.2 E.2 = Done T.
Proof.
  intros [Hk _]. unfold realCalleeType. destruct (callee_pointer _ _ _ Hk) as [T ->]. cbn [defined mbind run_bind]. by eexists.
Qed.

End counted.

(** ** The statistics of the sources *)

Section stat_spec.
Context `{ClangAst}.
Context (requested : gset str).
Context (c_language : CPlusPlus = false).
#[local] Set Default Proof Using "All".
Abbreviation CallExpr := (Node * Node * list Node)%type.
Abbreviation DeclRefExpr := (Node * FunctionDecl)%type.

(** The signature of a collected expression, when it is requested. *)
Definition call_signature (E : CallExpr) (sig : str) : Prop :=
  sig ∈ requested ∧ ∃ T, realCalleeType E.1.2 E.2 = Done T ∧ getTypeString T = Done sig.
Definition decay_signature (E : DeclRefExpr) (sig loc : str) : Prop :=
  sig ∈ requested ∧ getTypeString (getPointerType (fn_type E.2)) = Done sig ∧ fn_begin E.2 = loc.

(** A call of a requested callback's type; a reference to a function of such a type. *)
Definition call_site (nodes : list Node) (sig : str) : Prop :=
  ∃ E : CallExpr, E.1.1 ∈ nodes ∧ collected_call E ∧ call_signature E sig.
Definition decay_site (nodes : list Node) (sig loc : str) : Prop :=
  ∃ E : DeclRefExpr, E.1 ∈ nodes ∧ collected_decay E ∧ decay_signature E sig loc.

Definition guard_location (st : SourceStatistics) (sig loc : str) : option str :=
  functionDecayGuardStats st !! sig ≫= (.!! loc).

Lemma stat_calls_spec inFile acc cs :
  Forall collected_call cs →
  ∃ acc', run_fold (stat_call requested inFile) acc cs = Done acc' ∧
    filesNeedPatch acc'.1 = filesNeedPatch acc.1 ∧ functionDecayGuardStats acc'.1 = functionDecayGuardStats acc.1 ∧
    (∀ sig, sig ∈ callbackCheckGuardSignatures acc'.1 ↔
       sig ∈ callbackCheckGuardSignatures acc.1 ∨ ∃ E, E ∈ cs ∧ call_signature E sig) ∧
    (acc'.2 = true ↔ acc.2 = true ∨ ∃ E sig, E ∈ cs ∧ call_signature E sig).
Proof.
  intros Hall. revert acc. induction Hall as [|E cs HE _ IH]; intros acc.
  { exists acc. split; [done|]. split; [done|]. split; [done|]. split; [intros sig|]; (split; [by left|]);
      [intros [?|(E & Hin & _)]|intros [?|(E & sig & Hin & _)]]; try done; by apply not_elem_of_nil in Hin. }
  destruct (realCalleeType_total E HE) as (T & HT). destruct (getTypeString_total T) as (typeStr & Hs).
  assert (∀ sig, call_signature E sig ↔ sig = typeStr ∧ typeStr ∈ requested) as HEs.
  { intros sig. unfold call_signature. rewrite HT. split.
    { intros (Hin & T' & [= <-] & Hs'). rewrite Hs in Hs'. injection Hs' as <-. done. }
    intros [-> Hin]. split; [done|]. by exists T. }
  set (acc1 := if bool_decide (typeStr ∈ requested) then (MkStatistics (filesNeedPatch acc.1) ({[typeStr]} ∪ callbackCheckGuardSignatures acc.1) (functionDecayGuardStats acc.1), true) else acc).
  assert (stat_call requested inFile acc E = Done acc1) as Hstep by (unfold stat_call; rewrite HT; cbn [mbind run_bind]; rewrite Hs; reflexivity).
  cbn [run_fold]. rewrite Hstep. cbn [mbind run_bind].
  destruct (IH acc1) as (acc' & Hrun & Hf & Hd & Hc & Hb). exists acc'. split; [done|].
  rewrite Hf, Hd. unfold acc1 in *. clear Hrun IH acc1.
  case_bool_decide as Hreq; cbn [filesNeedPatch functionDecayGuardStats callbackCheckGuardSignatures fst snd] in *;
    (split; [done|]); (split; [done|]); setoid_rewrite elem_of_cons.
  - split.
    + intros sig. rewrite Hc, elem_of_union, elem_of_singleton. split; [intros [[->|?]|(E' & ? & ?)]; [right; exists E; split; [by left|by apply HEs]|by left|right; exists E'; tauto]|].
      intros [?|(E' & [->|?] & Hsig)]; [left; by right|left; left; apply HEs in Hsig; tauto|right; by exists E'].
    + rewrite Hb. split; [intros _; right; exists E, typeStr; split; [by left|by apply HEs]|intros _; by left].
  - split.
    + intros sig. rewrite Hc. split; [intros [?|(E' & ? & ?)]; [by left|right; exists E'; tauto]|].
      intros [?|(E' & [->|?] & Hsig)]; [by left|apply HEs in Hsig; tauto|right; by exists E'].
    + rewrite Hb. split; [intros [?|(E' & sig & ? & ?)]; [by left|right; exists E', sig; tauto]|].
      intros [?|(E' & sig & [->|?] & Hsig)]; [by left|apply HEs in Hsig; tauto|right; by exists E', sig].
Qed.

Lemma guard_location_insert st sig loc sig' loc' f files sigs :
  guard_location (MkStatistics files sigs
    (<[sig' := map_insert (default ∅ (functionDecayGuardStats st !! sig')) (loc', f)]> (functionDecayGuardStats st))) sig loc =
  match guard_location st sig loc with
  | Some g => Some g
  | None => if decide (sig = sig' ∧ loc = loc') then Some f else None
  end.
Proof.
  unfold guard_location. cbn [functionDecayGuardStats]. destruct (decide (sig = sig')) as [->|Hne].
  - rewrite lookup_insert_eq. cbn [mbind option_bind]. unfold map_insert. cbn [fst snd].
    destruct (functionDecayGuardStats st !! sig') as [m|]; cbn [from_option id mbind option_bind].
    + destruct (m !! loc') as [g|] eqn:Hg.
      * destruct (m !! loc) as [g'|] eqn:Hg'; [done|]. rewrite decide_False; [done|]. intros [_ ->]. congruence.
      * destruct (decide (loc = loc')) as [->|Hl]; [rewrite lookup_insert_eq, Hg; by rewrite decide_True|].
        rewrite lookup_insert_ne by done. destruct (m !! loc); [done|]. rewrite decide_False; [done|]. tauto.
    + rewrite lookup_empty. destruct (decide (loc = loc')) as [->|Hl]; [rewrite lookup_insert_eq; by rewrite decide_True|].
      rewrite lookup_insert_ne by done. rewrite lookup_empty, decide_False; [done|tauto].
  - rewrite lookup_insert_ne by done. destruct (functionDecayGuardStats st !! sig ≫= (.!! loc)); [done|].
    rewrite decide_False; [done|tauto].
Qed.

Lemma map_insert_nonempty {A} (m : gmap str A) e : map_insert m e ≠ ∅.
Proof.
  unfold map_insert. destruct (m !! e.1) eqn:He; [|apply insert_non_empty]. intros ->. by rewrite lookup_empty in He.
Qed.

Lemma stat_decays_spec inFile acc ds :
  statistics_wf acc.1 →
  ∃ acc', run_fold (stat_decay requested inFile) acc ds = Done acc' ∧ statistics_wf acc'.1 ∧
    filesNeedPatch acc'.1 = filesNeedPatch acc.1 ∧ callbackCheckGuardSignatures acc'.1 = callbackCheckGuardSignatures acc.1 ∧
    (∀ sig loc f, guard_location acc'.1 sig loc = Some f ↔
       guard_location acc.1 sig loc = Some f ∨
       guard_location acc.1 sig loc = None ∧ f = inFile ∧ ∃ E, E ∈ ds ∧ decay_signature E sig loc) ∧
    (acc'.2 = true ↔ acc.2 = true ∨ ∃ E sig loc, E ∈ ds ∧ decay_signature E sig loc).
Proof.
  revert acc. induction ds as [|E ds IH]; intros acc Hwf.
  { exists acc. split; [done|]. split; [done|]. split; [done|]. split; [done|]. split; [intros sig loc f|]; (split; [by left|]);
      [intros [?|(_ & _ & E & Hin & _)]|intros [?|(E & sig & loc & Hin & _)]]; try done; by apply not_elem_of_nil in Hin. }
  destruct (getTypeString_total (getPointerType (fn_type E.2))) as (typeStr & Hs).
  assert (∀ sig loc, decay_signature E sig loc ↔ sig = typeStr ∧ loc = fn_begin E.2 ∧ typeStr ∈ requested) as HEs.
  { intros sig loc. unfold decay_signature. rewrite Hs. split; [intros (? & [= <-] & <-); done|]. intros (-> & -> & ?). done. }
  set (acc1 := if bool_decide (typeStr ∈ requested) then (MkStatistics (filesNeedPatch acc.1) (callbackCheckGuardSignatures acc.1)
     (<[typeStr := map_insert (default ∅ (functionDecayGuardStats acc.1 !! typeStr)) (fn_begin E.2, inFile)]> (functionDecayGuardStats acc.1)), true) else acc).
  assert (stat_decay requested inFile acc E = Done acc1) as Hstep by (unfold stat_decay; rewrite Hs; reflexivity).
  cbn [run_fold]. rewrite Hstep. cbn [mbind run_bind].
  assert (statistics_wf acc1.1) as Hwf1.
  { unfold acc1. case_bool_decide; [|done]. cbn [fst]. apply map_Forall_insert_2; [apply map_insert_nonempty|exact Hwf]. }
  destruct (IH acc1 Hwf1) as (acc' & Hrun & Hwf' & Hf & Hc & Hl & Hb). exists acc'. split; [done|]. split; [done|].
  rewrite Hf, Hc. clear Hrun IH Hwf1 Hwf'. unfold acc1 in *.
  case_bool_decide as Hreq; cbn [filesNeedPatch callbackCheckGuardSignatures fst snd] in *;
    (split; [done|]); (split; [done|]); setoid_rewrite elem_of_cons.
  - split.
    + intros sig loc f. rewrite Hl, guard_location_insert. specialize (HEs sig loc).
      destruct (guard_location acc.1 sig loc) as [g|] eqn:Hg.
      { split; [intros [?|[? _]]; [by left|done]|intros [?|[? _]]; [by left|done]]. }
      case_decide as Hd; [destruct Hd as [-> ->]|].
      * split; [intros [[= <-]|[? _]]; [|done]; right; split; [done|]; split; [done|]; exists E; split; [by left|by apply HEs]|].
        intros [?|(_ & -> & _)]; [done|by left].
      * split; [intros [?|(_ & -> & E' & ? & ?)]; [done|]; right; split; [done|]; split; [done|]; exists E'; tauto|].
        intros [?|(_ & -> & E' & [->|?] & Hsig)]; [done|apply HEs in Hsig; tauto|]. right. split; [done|]. split; [done|]. by exists E'.
    + rewrite Hb. split; [intros _; right; exists E, typeStr, (fn_begin E.2); split; [by left|by apply HEs]|intros _; by left].
  - assert (∀ sig loc, (∃ E', (E' = E ∨ E' ∈ ds) ∧ decay_signature E' sig loc) ↔ ∃ E', E' ∈ ds ∧ decay_signature E' sig loc) as Hskip.
    { intros sig loc. split; [intros (E' & [->|?] & Hsig); [apply HEs in Hsig; tauto|by exists E']|intros (E' & ? & ?); exists E'; tauto]. }
    split; [intros sig loc f; rewrite Hl, Hskip; done|]. rewrite Hb. split.
    + intros [?|(E' & sig & loc & ? & ?)]; [by left|right; exists E', sig, loc; tauto].
    + intros [?|(E' & sig & loc & [->|?] & Hsig)]; [by left|apply HEs in Hsig; tauto|right; by exists E', sig, loc].
Qed.

(** The first of the sources with a reference of a signature at a location. *)
Definition first_reference (units : list (str * list Node)) (sig loc f : str) : Prop :=
  ∃ pre nodes post, units = pre ++ (f, nodes) :: post ∧ decay_site nodes sig loc ∧ ∀ u, u ∈ pre → ¬ decay_site u.2 sig loc.

(** What the statistics hold of the sources. *)
Record counts (units : list (str * list Node)) (st : SourceStatistics) : Prop := {
  counts_wf : statistics_wf st;
  counts_files f : f ∈ filesNeedPatch st ↔
    ∃ nodes, (f, nodes) ∈ units ∧ ∃ sig, call_site nodes sig ∨ ∃ loc, decay_site nodes sig loc;
  counts_calls sig : sig ∈ callbackCheckGuardSignatures st ↔ ∃ u, u ∈ units ∧ call_site u.2 sig;
  counts_decays sig loc f : guard_location st sig loc = Some f ↔ first_reference units sig loc f;
  counts_none sig loc : guard_location st sig loc = None → ∀ u, u ∈ units → ¬ decay_site u.2 sig loc
}.

Lemma first_reference_snoc units inFile nodes sig loc f :
  first_reference (units ++ [(inFile, nodes)]) sig loc f ↔
  first_reference units sig loc f ∨ (∀ u, u ∈ units → ¬ decay_site u.2 sig loc) ∧ f = inFile ∧ decay_site nodes sig loc.
Proof.
  split.
  - intros (pre & nodes' & post & Heq & Hd & Hpre). destruct post as [|y post _] using rev_ind.
    + apply app_inj_tail in Heq as [-> [= -> ->]]. by right.
    + left. rewrite app_comm_cons, app_assoc in Heq. apply app_inj_tail in Heq as [-> _]. by exists pre, nodes', post.
  - intros [(pre & nodes' & post & -> & Hrest)|(Hnone & -> & Hd)].
    + exists pre, nodes', (post ++ [(inFile, nodes)]). split; [by rewrite <- app_assoc|done].
    + by exists units, nodes, [].
Qed.

Lemma stat_unit_spec units st inFile nodes :
  counts units st →
  ∃ fileData st', FunctionExprConsumer [] [] nodes = Done fileData ∧
    stat_EndSourceFileAction requested inFile fileData st = Done (Some st') ∧ counts (units ++ [(inFile, nodes)]) st'.
Proof.
  intros [Hwf Hf Hc Hd Hn]. destruct (consumer_spec [] [] nodes) as (cs & ds & Hcons & Hcs & Hds).
  exists (cs, ds). unfold stat_EndSourceFileAction. rewrite c_language. cbn [fst snd].
  assert (Forall collected_call cs) as Hall.
  { apply Forall_forall. intros E [Hin|[_ HE]]%Hcs; [by apply not_elem_of_nil in Hin|done]. }
  destruct (stat_calls_spec inFile (st, false) cs Hall) as (acc1 & Hrun1 & Hf1 & Hd1 & Hc1 & Hb1). rewrite Hrun1. cbn [mbind run_bind].
  assert (statistics_wf acc1.1) as Hwf1 by (unfold statistics_wf; rewrite Hd1; exact Hwf).
  destruct (stat_decays_spec inFile acc1 ds Hwf1) as (acc2 & Hrun2 & Hwf2 & Hf2 & Hc2 & Hd2 & Hb2). rewrite Hrun2. cbn [mbind run_bind].
  cbn [fst snd] in Hf1, Hd1, Hc1, Hb1.
  assert (∀ sig, (∃ E, E ∈ cs ∧ call_signature E sig) ↔ call_site nodes sig) as Hcalls.
  { intros sig. split; intros (E & HE).
    - destruct HE as [[Hin|[Hin HE]]%Hcs Hsig]; [by apply not_elem_of_nil in Hin|by exists E].
    - destruct HE as (Hin & HE & Hsig). exists E. split; [|done]. apply Hcs. by right. }
  assert (∀ sig loc, (∃ E, E ∈ ds ∧ decay_signature E sig loc) ↔ decay_site nodes sig loc) as Hdecays.
  { intros sig loc. split; intros (E & HE).
    - destruct HE as [[Hin|[Hin HE]]%Hds Hsig]; [by apply not_elem_of_nil in Hin|by exists E].
    - destruct HE as (Hin & HE & Hsig). exists E. split; [|done]. apply Hds. by right. }
  assert (∀ sig loc, guard_location acc1.1 sig loc = guard_location st sig loc) as Hloc
    by (intros sig loc; unfold guard_location; by rewrite Hd1).
  assert (acc2.2 = true ↔ ∃ sig, call_site nodes sig ∨ ∃ loc, decay_site nodes sig loc) as Hpatch.
  { rewrite Hb2, Hb1. setoid_rewrite <- Hcalls. setoid_rewrite <- Hdecays. split.
    - intros [[?|(E & sig & HE)]|(E & sig & loc & HE)]; [done|exists sig; left; by exists E|exists sig; right; by exists loc, E].
    - intros (sig & [(E & HE)|(loc & E & HE)]); [left; right; by exists E, sig|right; by exists E, sig, loc]. }
  destruct acc2 as [st2 patch]. cbn [fst snd] in *.
  eexists. split; [done|]. split; [done|].
  set (st' := if patch then _ else _).
  assert (functionDecayGuardStats st' = functionDecayGuardStats st2 ∧ callbackCheckGuardSignatures st' = callbackCheckGuardSignatures st2)
    as [Hst'd Hst'c] by (unfold st'; by destruct patch).
  assert (∀ sig loc, guard_location st' sig loc = guard_location st2 sig loc) as Hloc' by (intros; unfold guard_location; by rewrite Hst'd).
  assert (∀ sig loc f, guard_location st' sig loc = Some f ↔
    guard_location st sig loc = Some f ∨ guard_location st sig loc = None ∧ f = inFile ∧ decay_site nodes sig loc) as Hguard.
  { intros sig loc f. by rewrite Hloc', Hd2, Hloc, Hdecays. }
  split.
  - unfold statistics_wf. by rewrite Hst'd.
  - intros f. assert (f ∈ filesNeedPatch st' ↔ f ∈ filesNeedPatch st ∨ f = inFile ∧ patch = true) as ->.
    { unfold st'. destruct patch; cbn [filesNeedPatch]; rewrite ?elem_of_union, ?elem_of_singleton, Hf2, Hf1; intuition congruence. }
    rewrite Hf, Hpatch. setoid_rewrite elem_of_app. setoid_rewrite list_elem_of_singleton. split.
    + intros [(nodes' & Hin & Hs)|[-> Hs]]; [exists nodes'; tauto|exists nodes; tauto].
    + intros (nodes' & [Hin|[= -> ->]] & Hs); [left; by exists nodes'|by right].
  - intros sig. rewrite Hst'c, Hc2, Hc1, Hc, Hcalls. setoid_rewrite elem_of_app. setoid_rewrite list_elem_of_singleton. split.
    + intros [(u & Hin & Hs)|Hs]; [exists u; tauto|exists (inFile, nodes); tauto].
    + intros (u & [Hin| ->] & Hs); [left; by exists u|by right].
  - intros sig loc f. rewrite Hguard, first_reference_snoc, Hd. split; (intros [?|(Hnone & -> & Hs)]; [by left|right]).
    + split; [by apply Hn|done].
    + split; [|done]. apply eq_None_ne_Some. intros g (pre & nodes' & post & -> & Hs' & _)%Hd.
      apply (Hnone (g, nodes')); [|done]. apply elem_of_app. right. by left.
  - intros sig loc Hnone u Hu Hs. assert (guard_location st sig loc = None) as Hnone'.
    { apply eq_None_ne_Some. intros g Hg. assert (guard_location st' sig loc = Some g) by (apply Hguard; by left). congruence. }
    apply elem_of_app in Hu as [Hu|Hu%list_elem_of_singleton].
    + by apply (Hn sig loc Hnone' u).
    + subst u. assert (guard_location st' sig loc = Some inFile) by (apply Hguard; by right). congruence.
Qed.

Lemma stat_run_spec units st done_ :
  counts done_ st → ∃ st', stat_run requested st units = Done (Some st') ∧ counts (done_ ++ units) st'.
Proof.
  revert st done_. induction units as [|[inFile nodes] units IH]; intros st done_ Hst; [exists st; by rewrite app_nil_r|].
  destruct (stat_unit_spec done_ st inFile nodes Hst) as (fd & st1 & Hcons & Hend & Hst1).
  destruct (IH st1 _ Hst1) as (st' & Hrun & Hst'). exists st'. cbn [stat_run]. rewrite Hcons. cbn [mbind run_bind].
  rewrite Hend. cbn [mbind run_bind]. split; [done|]. by rewrite <- app_assoc in Hst'.
Qed.

Lemma counts_nil : counts [] statistics_clear.
Proof.
  split; cbn [filesNeedPatch callbackCheckGuardSignatures statistics_clear].
  - apply map_Forall_empty.
  - intros f. split; [by intros ?%not_elem_of_empty|]. intros (nodes & Hin & _). by apply not_elem_of_nil in Hin.
  - intros sig. split; [by intros ?%not_elem_of_empty|]. intros (u & Hin & _). by apply not_elem_of_nil in Hin.
  - intros sig loc f. split; [done|]. intros (pre & nodes & post & Heq & _). by destruct pre.
  - intros sig loc _ u Hu. by apply not_elem_of_nil in Hu.
Qed.

(** C15: the statistics of C sources are exactly what the sources refer to: the signatures of
    the calls through pointers of a requested type, the functions of a requested type that
    are referred to without being called, each with the first file that does, and the files
    where either happens; and loading the file that they are saved to gives them back. *)
Theorem hlr_stat_exact units :
  ∃ st, stat_run requested statistics_clear units = Done (Some st) ∧ counts units st ∧
    ∀ parse print read_file open_error write_failed path text other,
      parse (print (statistics_json st)) = inr (statistics_json st) →
      statistics_save print open_error write_failed path st = (true, None, Some text) → read_file path = inr text →
      statistics_load read_file parse path other = (st, true, None).
Proof.
  destruct (stat_run_spec units statistics_clear [] counts_nil) as (st & Hrun & Hst).
  exists st. split; [done|]. split; [done|]. intros parse print read_file open_error write_failed path text other Hp Hs Hr.
  unfold statistics_save in Hs. destruct (open_error path); [done|]. destruct (write_failed path); [done|].
  injection Hs as <-. unfold statistics_load. rewrite Hr, Hp. cbn [as_object statistics_json].
  by rewrite <- (statistics_json_roundtrip st (counts_wf _ _ Hst)) at 2.
Qed.
End stat_spec.

(** ** An example

    [void go(int x) { cb(handler); foo(x); }]: a call through the pointer [cb], to which the
    function [handler] is passed, and a direct call of [foo]. *)

Definition h_clang : Clang := c_clang_of false.
Definition h_handler : CFunction := MkCFunction ($"handler") c_int [(c_int, $"a"); (c_double, $"b")] true false None.

Definition h_kind (n : nat) : NodeKind nat CFunction :=
  match n with
  | 1 => N_Call 2 [4] | 2 => N_Cast | 3 => N_DeclRef None | 4 => N_Cast | 5 => N_DeclRef (Some h_handler)
  | 6 => N_Call 7 [9] | 7 => N_Cast | 8 => N_DeclRef (Some c_foo) | 9 => N_DeclRef None | _ => N_Other
  end.
Definition h_parent (n : nat) : option nat :=
  match n with
  | 1 => Some 0 | 2 => Some 1 | 3 => Some 2 | 4 => Some 1 | 5 => Some 4 | 6 => Some 0 | 7 => Some 6 | 8 => Some 7
  | 9 => Some 6 | _ => None
  end.
Definition h_type (n : nat) : CType :=
  match n with 2 | 3 | 4 | 7 => c_callback | 5 | 8 => CT_function c_int [c_int; c_double] false | _ => c_int end.

#[export] Instance h_ast : @ClangAst h_clang.
Proof.
  refine {| node_kind := h_kind : nat → NodeKind nat (@FunctionDecl h_clang); first_parent := h_parent;
            parent_rank := λ n, n; expr_type := h_type : nat → @QualType h_clang;
            ignoreImpCasts := λ n, match n with 2 => 3 | 4 => 5 | 7 => 8 | n => n end; ignoreParens := λ n, n;
            ignoreParenImpCasts := λ n, n; noproto_result := λ _, None;
            getFunctionType := λ ret args, CT_function ret args false : @QualType h_clang;
            fn_begin := λ f : @FunctionDecl h_clang, c_name f ++ $".h:1:1" |}.
  - intros n p. do 10 (destruct n as [|n]; [intros [= <-] || discriminate; lia|]). discriminate.
  - intros n callee args. do 10 (destruct n as [|n]; [intros [= <- <-] || discriminate; by eexists|]). discriminate.
Defined.

Definition h_nodes : list nat := [0; 1; 2; 3; 4; 5; 6; 7; 8; 9].
Definition h_signature : str := $"int (*)(int, double)".
Definition h_units : list (str * list nat) := [($"a.c", h_nodes); ($"b.c", h_nodes); ($"c.c", [0])].

(** The location keeps its first file. *)
Example h_statistics :
  @stat_run h_clang h_ast {[h_signature]} statistics_clear h_units =
  Done (Some (MkStatistics {[$"a.c"; $"b.c"]} {[h_signature]} {[h_signature := {[$"handler.h:1:1" := $"a.c"]}]})).
Proof. vm_compute. reflexivity. Qed.

Lemma hlr_stat_exact_witness :
  ∃ st, @stat_run h_clang h_ast {[h_signature]} statistics_clear h_units = Done (Some st) ∧
    statistics_load (λ _, inr ($"text")) (λ _, inr (statistics_json st)) ($"stat.json") statistics_clear = (st, true, None).
Proof.
  destruct (@hlr_stat_exact h_clang h_ast {[h_signature]} eq_refl h_units) as (st & Hrun & _ & Hload).
  exists st. split; [exact Hrun|].
  exact (Hload (λ _, inr (statistics_json st)) (λ _, $"text") (λ _, inr ($"text")) (λ _, None) (λ _, false) ($"stat.json")
           ($"text") statistics_clear eq_refl eq_refl eq_refl).
Defined.
