(* ===== verification/RewriteInsertion.v ===== *)
(** Ranges to wrap and the text they make: [include/lorelei/ClangExtras/RewriteInsertion.h],
    and the loop of [src/tools/HLR/Commands/Rewrite.cpp] and
    [src/tools/HLR/Commands/MarkMacros.cpp] that replays them into Clang's rewriter.

    The theorems say which ranges the set keeps when ranges come outermost first, that the
    kept ranges never touch, and that the rewritten text is the source with each kept range
    between its two texts. *)

From stdpp Require Import sorting.
From S2P Require Import Prelude CppString.

(** ** The set of ranges *)

(** Locations of source files compare by their offsets in the table of all files. *)
Record RangePacker : Type := MkPacker {
  range_begin : nat;
  range_end : nat;
  textBefore : str;
  textAfter : str
}.

#[export] Instance RangePacker_eq : EqDecision RangePacker.
Proof. solve_decision. Defined.

(** The entries up to [upper_bound], and from it on, in a list sorted by the ranges' begins. *)
Fixpoint upper_bound (b : nat) (ranges : list RangePacker) : list RangePacker * list RangePacker :=
  match ranges with
  | [] => ([], [])
  | x :: ranges' =>
      if b <? range_begin x then ([], ranges)
      else let '(before, after) := upper_bound b ranges' in (x :: before, after)
  end.

(** [std::set::insert]: nothing when an entry has the same begin. *)
Definition set_insert (before : list RangePacker) (packer : RangePacker) (after : list RangePacker) : list RangePacker :=
  match last before with
  | Some prev => if range_begin prev =? range_begin packer then before ++ after else before ++ packer :: after
  | None => packer :: after
  end.

Definition packer_insert (ranges : list RangePacker) (packer : RangePacker) : bool * list RangePacker :=
  let '(before, after) := upper_bound (range_begin packer) ranges in
  match last before with
  | Some prev =>
      if range_begin packer <=? range_end prev then (false, ranges) else (true, set_insert before packer after)
  | None => (true, set_insert before packer after)
  end.

Definition packers (l : list RangePacker) : list RangePacker := fold_left (λ s p, (packer_insert s p).2) l [].

(** ** The rewriter *)

(** The text with what is inserted before each of its characters, and at its end. *)
Fixpoint weave (inserted : nat → str) (pos : nat) (text : str) : str :=
  match text with
  | [] => inserted pos
  | c :: text => inserted pos ++ c :: weave inserted (S pos) text
  end.

(** Clang's rewriter of the main file: texts are inserted at offsets of the original, after or
    before what is already inserted there. *)
Class Rewriter : Type := {
  Rewrite : Type;
  rewrite_of : str → Rewrite;
  InsertText : Rewrite → nat → str → bool → Rewrite;
  edit_buffer : Rewrite → str;
  original : Rewrite → str;
  inserted : Rewrite → nat → str;
  original_of text : original (rewrite_of text) = text;
  inserted_of text o : inserted (rewrite_of text) o = [];
  original_insert r o t after : original (InsertText r o t after) = original r;
  inserted_insert r o t after o' :
    inserted (InsertText r o t after) o' =
    if decide (o' = o) then (if after then inserted r o ++ t else t ++ inserted r o) else inserted r o';
  edit_buffer_spec r : edit_buffer r = weave (inserted r) 0 (original r)
}.

Section replay.
Context `{Rewriter}.
(** Where the main file is in the table of all files. *)
Context (base : nat) (text : str).

(** Insertions elsewhere go to the buffers of other files, which are not written. *)
Definition insert_at (r : Rewrite) (loc : nat) (t : str) (after : bool) : Rewrite :=
  if (base <=? loc) && (loc <=? base + length text) then InsertText r (loc - base) t after else r.

Definition replay (ranges : list RangePacker) (r : Rewrite) : Rewrite :=
  fold_left (λ r ins, insert_at (insert_at r (range_begin ins) (textBefore ins) false) (range_end ins) (textAfter ins) true)
    ranges r.
End replay.

(** ** Which ranges are kept *)

Definition range_wf (p : RangePacker) : Prop := range_begin p ≤ range_end p.
(** [p] ends before [q] begins, with a character between. *)
Definition range_lt (p q : RangePacker) : Prop := range_end p < range_begin q.
Definition within (p q : RangePacker) : Prop := range_begin q ≤ range_begin p ∧ range_end p ≤ range_end q.

#[export] Instance within_dec p q : Decision (within p q).
Proof. unfold within. apply _. Defined.

(** Ranges in the order of a walk from the outermost: a later one is inside an earlier one or
    apart from it. *)
Definition nested (l : list RangePacker) : Prop :=
  ∀ i j p q, i < j → l !! i = Some p → l !! j = Some q → within q p ∨ range_lt p q ∨ range_lt q p.

Lemma upper_bound_app b ranges before after :
  upper_bound b ranges = (before, after) → ranges = before ++ after.
Proof.
  revert before. induction ranges as [|x ranges IH]; intros before; cbn [upper_bound]; [by intros [= <- <-]|].
  destruct (b <? range_begin x); [by intros [= <- <-]|].
  destruct (upper_bound b ranges) as [before' after'] eqn:Hb. intros [= <- <-]. cbn. f_equal. by apply IH.
Qed.

Lemma upper_bound_before b ranges before after x :
  upper_bound b ranges = (before, after) → x ∈ before → range_begin x ≤ b.
Proof.
  revert before. induction ranges as [|y ranges IH]; intros before; cbn [upper_bound].
  { intros [= <- <-] Hin. by apply not_elem_of_nil in Hin. }
  destruct (Nat.ltb_spec b (range_begin y)); [intros [= <- <-] Hin; by apply not_elem_of_nil in Hin|].
  destruct (upper_bound b ranges) as [before' after'] eqn:Hb. intros [= <- <-] [->|Hin]%elem_of_cons; [lia|].
  by eapply IH.
Qed.

Lemma upper_bound_after b ranges before after x :
  StronglySorted range_lt ranges → Forall range_wf ranges →
  upper_bound b ranges = (before, after) → x ∈ after → b < range_begin x.
Proof.
  intros Hs Hwf. revert before. induction ranges as [|y ranges IH]; intros before; cbn [upper_bound].
  { intros [= <- <-] Hin. by apply not_elem_of_nil in Hin. }
  apply Forall_cons in Hwf as [Hy Hwf]. apply StronglySorted_inv in Hs as [Hs Hall].
  destruct (Nat.ltb_spec b (range_begin y)) as [Hb|Hb].
  - intros [= <- <-] [->|Hin]%elem_of_cons; [done|].
    rewrite Forall_forall in Hall. specialize (Hall x Hin). unfold range_lt, range_wf in *. lia.
  - destruct (upper_bound b ranges) as [before' after'] eqn:Hu. intros [= <- <-] Hin. by eapply IH.
Qed.

Lemma sorted_app (l1 l2 : list RangePacker) :
  StronglySorted range_lt (l1 ++ l2) ↔
  StronglySorted range_lt l1 ∧ StronglySorted range_lt l2 ∧ ∀ p q, p ∈ l1 → q ∈ l2 → range_lt p q.
Proof.
  induction l1 as [|x l1 IH]; cbn [app].
  - split; [intros Hs; split; [constructor|]; split; [done|]; intros p q Hp; by apply not_elem_of_nil in Hp|tauto].
  - split.
    + intros [Hs Hall]%StronglySorted_inv. apply IH in Hs as (H1 & H2 & H3). rewrite Forall_app in Hall. destruct Hall as [Ha Hb].
      split; [by constructor|]. split; [done|]. intros p q [->|Hp]%elem_of_cons Hq; [by eapply Forall_forall in Hb|by apply H3].
    + intros (Hs & H2 & H3). apply StronglySorted_inv in Hs as [H1 Ha]. constructor.
      * apply IH. split; [done|]. split; [done|]. intros p q Hp Hq. apply H3; [by right|done].
      * rewrite Forall_app. split; [done|]. apply Forall_forall. intros q Hq. apply H3; [by left|done].
Qed.

(** One insertion, of a range that is inside or apart from each of the set. *)
Lemma packer_insert_spec ranges p :
  StronglySorted range_lt ranges → Forall range_wf ranges → range_wf p →
  (∀ q, q ∈ ranges → within p q ∨ range_lt q p ∨ range_lt p q) →
  let '(accepted, ranges') := packer_insert ranges p in
  StronglySorted range_lt ranges' ∧ Forall range_wf ranges' ∧
  (accepted = true ↔ ∀ q, q ∈ ranges → ¬ within p q) ∧
  ranges' ≡ₚ if accepted then p :: ranges else ranges.
Proof.
  intros Hs Hwf Hp Hrel. unfold packer_insert. destruct (upper_bound (range_begin p) ranges) as [before after] eqn:Hu.
  pose proof (upper_bound_app _ _ _ _ Hu) as ->.
  assert (∀ q, q ∈ after → range_lt p q) as Hafter.
  { intros q Hq. pose proof (upper_bound_after _ _ _ _ _ Hs Hwf Hu Hq) as Hlt.
    destruct (Hrel q) as [Hin|[Hlt'|?]]; [apply elem_of_app; by right|destruct Hin; lia| |done].
    assert (range_wf q) as Hq' by (rewrite Forall_forall in Hwf; apply Hwf, elem_of_app; by right). unfold range_lt, range_wf in *. lia. }
  apply sorted_app in Hs as (H1 & H2 & H3). pose proof Hwf as Hwf'. apply Forall_app in Hwf as [W1 W2].
  assert ((∀ q, q ∈ before → range_lt q p) →
    StronglySorted range_lt (before ++ p :: after) ∧ Forall range_wf (before ++ p :: after) ∧
    (true = true ↔ ∀ q, q ∈ before ++ after → ¬ within p q) ∧ before ++ p :: after ≡ₚ p :: before ++ after) as Hok.
  { intros Hbefore. split; [|split; [|split]].
    - apply sorted_app. split; [done|]. split; [constructor; [done|by apply Forall_forall]|].
      intros q q' Hq [->|Hq']%elem_of_cons; [by apply Hbefore|by apply H3].
    - apply Forall_app. split; [done|by constructor].
    - split; [|done]. intros _ q [Hq%Hbefore|Hq%Hafter]%elem_of_app [? ?]; unfold range_lt, range_wf in *; lia.
    - by rewrite Permutation_middle. }
  destruct (last before) as [prev|] eqn:Hlast.
  - apply last_Some in Hlast as [before' ->].
    assert (range_begin prev ≤ range_begin p) as Hle by (eapply upper_bound_before; [exact Hu|apply elem_of_app; right; by left]).
    assert (prev ∈ (before' ++ [prev]) ++ after) as Hin by (apply elem_of_app; left; apply elem_of_app; right; by left).
    destruct (Nat.leb_spec (range_begin p) (range_end prev)) as [Hov|Hov].
    + split; [by apply sorted_app|]. split; [done|]. split; [|done]. split; [done|]. intros Hnone. destruct (Hnone prev Hin).
      destruct (Hrel prev Hin) as [?|[?|?]]; [done|unfold range_lt in *; lia|unfold range_lt, range_wf in *; lia].
    + unfold set_insert. rewrite last_snoc. assert (range_wf prev) as Hprev by (rewrite Forall_forall in Hwf'; by apply Hwf').
      destruct (Nat.eqb_spec (range_begin prev) (range_begin p)) as [?|_]; [unfold range_wf in *; lia|].
      apply Hok. intros q [Hq|Hq%list_elem_of_singleton]%elem_of_app; [|by subst].
      apply sorted_app in H1 as (_ & _ & H1). specialize (H1 q prev Hq ltac:(by left)). unfold range_lt, range_wf in *. lia.
  - apply last_None in Hlast as ->. unfold set_insert. cbn [last app]. apply Hok. intros q Hq. by apply not_elem_of_nil in Hq.
Qed.

Lemma packers_snoc l p : packers (l ++ [p]) = (packer_insert (packers l) p).2.
Proof. unfold packers. by rewrite fold_left_app. Qed.

Lemma nested_snoc l p : nested (l ++ [p]) → nested l ∧ ∀ q, q ∈ l → within p q ∨ range_lt q p ∨ range_lt p q.
Proof.
  intros Hn. split.
  - intros i j q q' Hij Hi Hj. apply (Hn i j); [done|by apply lookup_app_l_Some..].
  - intros q [i Hi]%list_elem_of_lookup. apply (Hn i (length l)); [by eapply lookup_lt_Some|by apply lookup_app_l_Some|].
    by rewrite lookup_app_r, Nat.sub_diag by lia.
Qed.

Lemma packers_spec l :
  nested l → Forall range_wf l →
  StronglySorted range_lt (packers l) ∧ Forall range_wf (packers l) ∧
  (∀ p, p ∈ packers l → p ∈ l) ∧ (∀ p, p ∈ l → ∃ q, q ∈ packers l ∧ within p q).
Proof.
  induction l as [|p l IH] using rev_ind; intros Hn Hwf.
  { split; [constructor|]. split; [constructor|]. split; intros p Hp; by apply not_elem_of_nil in Hp. }
  apply nested_snoc in Hn as [Hn Hrel]. apply Forall_app in Hwf as [Hwf [Hp _]%Forall_cons].
  destruct (IH Hn Hwf) as (Hs & W & Hsub & Hcov). rewrite packers_snoc.
  pose proof (packer_insert_spec (packers l) p Hs W Hp) as Hspec.
  destruct (packer_insert (packers l) p) as [accepted ranges']. destruct Hspec as (Hs' & W' & Hacc & Hperm).
  { intros q Hq. apply Hrel. by apply Hsub. }
  cbn [snd]. split; [done|]. split; [done|]. split; intros q; rewrite elem_of_app, list_elem_of_singleton.
  - rewrite Hperm. destruct accepted; [|intros Hq; left; by apply Hsub].
    intros [->|Hq]%elem_of_cons; [by right|left; by apply Hsub].
  - assert (∀ x, x ∈ packers l → x ∈ ranges') as Hkeep by (intros x Hx; rewrite Hperm; destruct accepted; [by right|done]).
    intros [Hq| ->]; [destruct (Hcov q Hq) as (x & Hx & Hin); exists x; by split; [apply Hkeep|]|].
    destruct accepted.
      + exists p. split; [rewrite Hperm; by left|]. unfold within. lia.
      + destruct (decide (Exists (within p) (packers l))) as [(x & Hx & Hin)%Exists_exists|Hno].
        * exists x. by split; [apply Hkeep|].
        * assert (false = true) by (apply Hacc; intros x Hx Hin; apply Hno, Exists_exists; by exists x). done.
Qed.

(** ** The rewritten text *)

Section text.
Context `{Rewriter}.
Context (base : nat) (text : str).

(** A range of the main file. *)
Definition in_main (p : RangePacker) : Prop :=
  base ≤ range_begin p ∧ range_begin p ≤ range_end p ∧ range_end p ≤ base + length text.

(** The text with each range between its two texts; [pos] characters are done. *)
Fixpoint wrap_ranges (ranges : list RangePacker) (pos : nat) (text : str) : str :=
  match ranges with
  | [] => text
  | p :: ranges =>
      let gap := range_begin p - base - pos in
      let len := range_end p - range_begin p in
      take gap text ++ textBefore p ++ take len (drop gap text) ++ textAfter p
      ++ wrap_ranges ranges (range_end p - base) (drop len (drop gap text))
  end.

(** What the ranges insert at an offset. *)
Definition inserted_by (ranges : list RangePacker) (o : nat) : str :=
  concat ((λ p, (if decide (o = range_begin p - base) then textBefore p else [])
                ++ (if decide (o = range_end p - base) then textAfter p else [])) <$> ranges).

Lemma weave_ext f g pos t : (∀ o, pos ≤ o → o ≤ pos + length t → f o = g o) → weave f pos t = weave g pos t.
Proof.
  clear. revert pos. induction t as [|c t IH]; intros pos Hfg; cbn [weave]; [apply Hfg; lia|].
  rewrite Hfg by lia. f_equal. f_equal. apply IH. intros o Ho Hl. apply Hfg; cbn [length]; lia.
Qed.

Lemma weave_skip f pos t n :
  n ≤ length t → (∀ o, pos ≤ o → o < pos + n → f o = []) → weave f pos t = take n t ++ weave f (pos + n) (drop n t).
Proof.
  clear. revert pos n. induction t as [|c t IH]; intros pos [|n] Hn Hf; cbn [length] in Hn; try lia;
    try (rewrite take_0, drop_0, Nat.add_0_r; done).
  cbn [weave take drop firstn skipn]. rewrite Hf by lia. cbn [app]. f_equal.
  rewrite (IH (S pos) n) by (lia || (intros o Ho Hl; apply Hf; lia)). do 2 f_equal. lia.
Qed.

Lemma weave_head f g x pos t :
  f pos = x ++ g pos → (∀ o, pos < o → f o = g o) → weave f pos t = x ++ weave g pos t.
Proof.
  clear. intros Hx Hfg. destruct t as [|c t]; cbn [weave]; rewrite Hx; [done|]. rewrite <- app_assoc. do 3 f_equal.
  apply weave_ext. intros o Ho _. apply Hfg. lia.
Qed.

Lemma inserted_by_outside ranges o :
  Forall in_main ranges →
  (∀ p, p ∈ ranges → o < range_begin p - base ∨ range_end p - base < o) → inserted_by ranges o = [].
Proof.
  clear. intros Hwf. unfold inserted_by. induction Hwf as [|p ranges Hp _ IH]; [done|]. intros Ho.
  rewrite fmap_cons. cbn [concat]. unfold in_main in Hp. pose proof (Ho p ltac:(by left)).
  rewrite !decide_False by lia. cbn [app]. apply IH. intros q Hq. apply Ho. by right.
Qed.

Lemma inserted_by_cons p ranges o :
  inserted_by (p :: ranges) o =
  ((if decide (o = range_begin p - base) then textBefore p else [])
   ++ (if decide (o = range_end p - base) then textAfter p else [])) ++ inserted_by ranges o.
Proof. done. Qed.

Lemma inserted_by_snoc p ranges o :
  inserted_by (ranges ++ [p]) o =
  inserted_by ranges o ++ (if decide (o = range_begin p - base) then textBefore p else [])
   ++ (if decide (o = range_end p - base) then textAfter p else []).
Proof. unfold inserted_by. rewrite fmap_app, concat_app. cbn. by rewrite app_nil_r. Qed.

Lemma weave_ranges ranges pos t tail :
  StronglySorted range_lt ranges → Forall in_main ranges →
  (∀ p, p ∈ ranges → pos ≤ range_begin p - base) → pos + length t = length text →
  weave (λ o, inserted_by ranges o ++ (if decide (o = length text) then tail else [])) pos t = wrap_ranges ranges pos t ++ tail.
Proof.
  intros Hs. revert pos t. induction Hs as [|p ranges Hs IH Hall]; intros pos t Hm Hpos Hlen.
  - cbn [wrap_ranges]. unfold inserted_by. cbn [fmap list_fmap concat app].
    rewrite (weave_skip _ pos t (length t)) by (lia || (intros o Ho Hl; cbn beta; rewrite decide_False by lia; done)).
    rewrite firstn_all, skipn_all. cbn [weave]. by rewrite decide_True.
  - apply Forall_cons in Hm as [Hp Hm]. pose proof (Hpos p ltac:(by left)) as Hb. destruct Hp as (Hp1 & Hp2 & Hp3).
    set (b := range_begin p - base) in *. set (e := range_end p - base).
    assert (∀ q, q ∈ ranges → e < range_begin q - base) as Hlater.
    { intros q Hq. rewrite Forall_forall in Hall, Hm. specialize (Hall q Hq). destruct (Hm q Hq) as (? & ? & ?). unfold range_lt, e in *. lia. }
    assert (∀ o, o ≤ e → inserted_by ranges o = []) as Hnone.
    { intros o Ho. apply inserted_by_outside; [done|]. intros q Hq. left. specialize (Hlater q Hq). lia. }
    assert (b ≤ e ∧ e ≤ length text) as [Hbe Hel] by (unfold b, e; lia).
    cbn [wrap_ranges]. fold b e. replace (range_end p - range_begin p) with (e - b) by (unfold b, e; lia).
    rewrite (weave_skip _ pos t (b - pos)).
    2: lia.
    2: { intros o Ho Hl. cbn beta. rewrite inserted_by_cons, Hnone, !decide_False by (fold b e; lia). done. }
    rewrite <- !app_assoc. f_equal. replace (pos + (b - pos)) with b by lia.
    set (t1 := drop (b - pos) t). assert (length t1 = length text - b) as Hl1 by (unfold t1; rewrite length_drop; lia).
    set (f := λ o, inserted_by ranges o ++ (if decide (o = length text) then tail else [])).
    assert (∀ o, e < o → inserted_by (p :: ranges) o = inserted_by ranges o) as Hafter.
    { intros o Ho. rewrite inserted_by_cons, !decide_False by (fold b e; lia). done. }
    destruct (decide (b = e)) as [Heq|Hne].
    + replace (e - b) with 0 by lia. rewrite take_0, drop_0. cbn [app].
      rewrite (weave_head _ f (textBefore p ++ textAfter p)), <- app_assoc.
      * do 2 f_equal. rewrite <- Heq. apply IH; [done|intros q Hq; specialize (Hlater q Hq); lia|lia].
      * unfold f. rewrite inserted_by_cons. fold b e. by rewrite !decide_True, <- !app_assoc by done.
      * intros o Ho. unfold f. by rewrite Hafter by lia.
    + destruct t1 as [|c t1]; [cbn [length] in Hl1; lia|]. cbn [weave]. cbn beta. rewrite inserted_by_cons. fold b e.
      rewrite decide_True, decide_False, Hnone, (decide_False (P := b = length text)) by lia. rewrite !app_nil_r. cbn [app]. f_equal.
      destruct (e - b) as [|k] eqn:Hk; [lia|]. cbn [take drop firstn skipn app]. f_equal. cbn [length] in Hl1.
      rewrite (weave_skip _ (S b) t1 k).
      2: lia.
      2: { intros o Ho Hl. cbn beta. rewrite inserted_by_cons, Hnone by lia. fold b e. rewrite !decide_False by lia. done. }
      f_equal. replace (S b + k) with e by lia. set (t2 := drop k t1).
      assert (length t2 = length text - e) as Hl2 by (unfold t2; rewrite length_drop; lia).
      rewrite (weave_head _ f (textAfter p)).
      * f_equal. apply IH; [done|intros q Hq; specialize (Hlater q Hq); lia|lia].
      * unfold f. rewrite inserted_by_cons. fold b e. rewrite decide_False, decide_True by lia. cbn [app]. by rewrite <- app_assoc.
      * intros o Ho. unfold f. by rewrite Hafter by lia.
Qed.

Lemma replay_cons p ranges r :
  replay base text (p :: ranges) r =
  replay base text ranges
    (insert_at base text (insert_at base text r (range_begin p) (textBefore p) false) (range_end p) (textAfter p) true).
Proof. done. Qed.

Lemma replay_spec ranges r :
  Forall in_main ranges → StronglySorted range_lt ranges →
  (∀ p o, p ∈ ranges → range_begin p - base ≤ o → inserted r o = []) →
  original (replay base text ranges r) = original r ∧
  ∀ o, inserted (replay base text ranges r) o = inserted r o ++ inserted_by ranges o.
Proof.
  intros Hm Hs. revert r. induction Hs as [|p ranges Hs IH Hall]; intros r Hr.
  { split; [done|]. intros o. unfold inserted_by. cbn. by rewrite app_nil_r. }
  apply Forall_cons in Hm as [Hp Hm]. rewrite !replay_cons.
  assert (∀ r loc t a, base ≤ loc ≤ base + length text → insert_at base text r loc t a = InsertText r (loc - base) t a) as Hat.
  { intros r' loc t a [H1 H2]. unfold insert_at. by rewrite (leb_correct _ _ H1), (leb_correct _ _ H2). }
  unfold in_main in Hp. rewrite !Hat by lia.
  set (r' := InsertText (InsertText r _ _ _) _ _ _).
  assert (∀ o, inserted r' o = inserted r o ++ (if decide (o = range_begin p - base) then textBefore p else [])
                                ++ (if decide (o = range_end p - base) then textAfter p else [])) as Hr'.
  { intros o. unfold r'. rewrite !inserted_insert. destruct (decide (o = range_end p - base)) as [->|He].
    - destruct (decide (range_end p - base = range_begin p - base)) as [Heq|Hne]; [|by rewrite app_nil_l].
      rewrite Heq, (Hr p) by (by left || lia). by rewrite !app_nil_r.
    - destruct (decide (o = range_begin p - base)) as [->|Hb]; [|by rewrite !app_nil_r].
      rewrite (Hr p) by (by left || lia). by rewrite !app_nil_r. }
  destruct (IH Hm r') as [Ho Hi].
  - intros q o Hq Hle. rewrite Hr'. rewrite Forall_forall in Hall, Hm. specialize (Hall q Hq). destruct (Hm q Hq) as (? & ? & ?).
    unfold range_lt in Hall. rewrite (Hr q) by (by right || lia). by rewrite !decide_False by lia.
  - split; [by rewrite Ho; unfold r'; rewrite !original_insert|]. intros o. by rewrite Hi, Hr', inserted_by_cons, <- !app_assoc.
Qed.

(** The text after the ranges are replayed, and [tail] is inserted at the end. *)
Lemma rewritten_text ranges tail :
  StronglySorted range_lt ranges → Forall in_main ranges →
  let r := replay base text ranges (rewrite_of text) in
  edit_buffer (InsertText r (length text) tail true) = wrap_ranges ranges 0 text ++ tail ∧
  edit_buffer r = wrap_ranges ranges 0 text.
Proof.
  intros Hs Hm r. destruct (replay_spec ranges (rewrite_of text) Hm Hs) as [Ho Hi]; [intros; apply inserted_of|].
  fold r in Ho, Hi. rewrite original_of in Ho.
  assert (∀ t, weave (λ o, inserted_by ranges o ++ (if decide (o = length text) then t else [])) 0 text = wrap_ranges ranges 0 text ++ t) as Hw.
  { intros t. apply weave_ranges; [done|done|intros; lia|lia]. }
  split.
  - rewrite edit_buffer_spec, original_insert, Ho, <- (Hw tail). apply weave_ext. intros o _ _.
    rewrite inserted_insert, !Hi, !inserted_of. cbn [app].
    destruct (decide (o = length text)) as [->|Hne]; [done|by rewrite app_nil_r].
  - rewrite edit_buffer_spec, Ho, <- (app_nil_r (wrap_ranges ranges 0 text)), <- (Hw []). apply weave_ext. intros o _ _.
    rewrite Hi, inserted_of. destruct (decide (o = length text)); by rewrite app_nil_r.
Qed.
End text.

(** C19: ranges that come outermost first, as a walk of the expressions gives them, are wrapped
    wherever they are not inside a range already taken: the set keeps ranges that are apart,
    each range is inside one that is kept, and the rewritten file is its text with each kept
    range between its two texts. *)
Theorem ranges_wrapped `{Rewriter} base text l :
  nested l → Forall (in_main base text) l →
  StronglySorted range_lt (packers l) ∧
  (∀ p, p ∈ packers l → p ∈ l) ∧ (∀ p, p ∈ l → ∃ q, q ∈ packers l ∧ within p q) ∧
  edit_buffer (replay base text (packers l) (rewrite_of text)) = wrap_ranges base (packers l) 0 text.
Proof.
  intros Hn Hm. assert (Forall range_wf l) as Hwf by (eapply Forall_impl; [exact Hm|intros p (_ & ? & _); done]).
  destruct (packers_spec l Hn Hwf) as (Hs & _ & Hsub & Hcov). split; [done|]. split; [done|]. split; [done|].
  apply (rewritten_text base text (packers l) [] Hs). apply Forall_forall. intros p Hp. rewrite Forall_forall in Hm. by apply Hm, Hsub.
Qed.

(** ** Examples *)

#[export] Instance plain_rewriter : Rewriter := {|
  Rewrite := str * (nat → str);
  rewrite_of text := (text, λ _, []);
  InsertText r o t after :=
    (r.1, λ o', if decide (o' = o) then (if after then r.2 o ++ t else t ++ r.2 o) else r.2 o');
  edit_buffer r := weave r.2 0 r.1;
  original := fst;
  inserted := snd;
  original_of _ := eq_refl;
  inserted_of _ _ := eq_refl;
  original_insert _ _ _ _ := eq_refl;
  inserted_insert _ _ _ _ _ := eq_refl;
  edit_buffer_spec _ := eq_refl
|}.

Definition wrap_of (b e : nat) : RangePacker := MkPacker b e ($"<") ($">").
Definition rewritten (text : str) (l : list RangePacker) : str :=
  edit_buffer (replay 0 text (packers l) (rewrite_of text)).

(** [a(1) + b(2)]: both callees. *)
Example wrap_two : rewritten ($"a(1) + b(2)") [wrap_of 0 1; wrap_of 7 8] = $"<a>(1) + <b>(2)".
Proof. vm_compute. reflexivity. Qed.

(** [f()()]: the walk meets the callee [f()] first, and the callee [f] inside is not wrapped. *)
Example wrap_curried : rewritten ($"f()()") [wrap_of 0 3; wrap_of 0 1] = $"<f()>()".
Proof. vm_compute. reflexivity. Qed.

(** Were the inner range first, both would be taken: the set tests the preceding range only. *)
Example wrap_overlap : rewritten ($"t[g()]()") [wrap_of 2 3; wrap_of 0 6] = $"<t[<g>()]>()".
Proof. vm_compute. reflexivity. Qed.

Lemma ranges_wrapped_witness :
  let l := [wrap_of 0 6; wrap_of 2 3; wrap_of 9 10] in
  packers l = [wrap_of 0 6; wrap_of 9 10] ∧ rewritten ($"t[g()]() g") l = wrap_ranges 0 (packers l) 0 ($"t[g()]() g").
Proof.
  intros l. split; [reflexivity|]. apply (ranges_wrapped 0 ($"t[g()]() g") l).
  - intros i j p q Hij Hi Hj. unfold within, range_lt.
    destruct i as [|[|[|i]]]; destruct j as [|[|[|j]]]; try lia; try discriminate;
      injection Hi as <-; injection Hj as <-; cbn; lia.
  - repeat constructor; cbn; lia.
Defined.
