(* ===== verification/MacroTags.v ===== *)
(** Macro expansion of the expressions to guard:
    [src/tools/HLR/Commands/MarkMacros.cpp], [src/tools/HLR/Commands/MarkMacros.h] and
    [src/tools/HLR/Commands/Preprocess.cpp].

    A callee or a function reference that lies in the middle of a macro's expansion cannot
    be wrapped in the source.  The first command puts tags, which are comments, around such
    expansions; the second runs the preprocessor, which keeps comments, and puts what it
    made of each tagged text in the text's place.  The theorems say that the replacement
    always ends, what it makes of tagged texts, and that both commands together replace
    exactly the marked ranges of the original source. *)

From stdpp Require Import gmap sorting.
From S2P Require Import Prelude CppString ManifestSummary ClangExtras SourceStatistics RewriteInsertion.

Definition MACRO_BEGIN_TAG : str := $"/*__LORELEI_MACRO_BEGIN__*/".
Definition MACRO_END_TAG : str := $"/*__LORELEI_MACRO_END__*/".

(** ** Replacing: [Preprocess.cpp] *)

(** The texts between tags in the preprocessed code, from [index] on. *)
Fixpoint collect_expansions (fuel : nat) (code : str) (index : nat) (expansions : list str) : run (list str) :=
  match find_from MACRO_BEGIN_TAG code index with
  | None => Done expansions
  | Some beginIndex =>
      let contentIndex := beginIndex + length MACRO_BEGIN_TAG in
      match find_from MACRO_END_TAG code contentIndex with
      | None => Done expansions
      | Some endIndex =>
          match fuel with
          | 0 => NoFuel
          | S fuel =>
              collect_expansions fuel code (endIndex + length MACRO_END_TAG)
                (expansions ++ [substr code contentIndex (endIndex - contentIndex)])
          end
      end
  end.

(** A view made of a pointer alone ends at the first NUL. *)
Fixpoint replace_views (fuel : nat) (orgCode : str) (expansions : list str) (orgIndex expansionIndex : nat)
    (resultViews : list str) : run (list str * nat) :=
  if orgIndex <? length orgCode then
    match find_from MACRO_BEGIN_TAG orgCode orgIndex with
    | None => Done (resultViews ++ [c_str (drop orgIndex orgCode)], expansionIndex)
    | Some beginIndex =>
        let resultViews := resultViews ++ [substr orgCode orgIndex (beginIndex - orgIndex)] in
        let contentIndex := beginIndex + length MACRO_BEGIN_TAG in
        match find_from MACRO_END_TAG orgCode contentIndex with
        | None => Done (resultViews ++ [c_str (drop beginIndex orgCode)], expansionIndex)
        | Some endIndex =>
            let '(view, expansionIndex) :=
              match expansions !! expansionIndex with
              | Some expansion => (expansion, S expansionIndex)
              | None => (substr orgCode contentIndex (endIndex - contentIndex), expansionIndex)
              end in
            match fuel with
            | 0 => NoFuel
            | S fuel =>
                replace_views fuel orgCode expansions (endIndex + length MACRO_END_TAG) expansionIndex
                  (resultViews ++ [view])
            end
        end
    end
  else Done (resultViews, expansionIndex).

(** The result, and whether there is a warning of more expansions than tags.  The fuel is
    the length of the code: each round passes two tags. *)
Definition replaceMacros (orgCode preprocessedCode : str) : run (str * bool) :=
  expansions ← collect_expansions (length preprocessedCode) preprocessedCode 0 [];
  r ← replace_views (length orgCode) orgCode expansions 0 0 [];
  Done (concat r.1, bool_decide (r.2 < length expansions)).

(** ** Marking: [MarkMacros.cpp] *)

(** What the source manager and the lexer say of locations. *)
Class SourceManager `{ClangAst} : Type := {
  isMacroBodyExpansion : nat → bool;
  isMacroArgExpansion : nat → bool;
  getExpansionRange : nat → nat * nat;
  getLocForEndOfToken : nat → nat;
  isInMainFile : nat → bool;
  isAtStartOfMacroExpansion : nat → bool;
  isAtEndOfMacroExpansion : nat → bool;
  (** An expression's source range. *)
  expr_begin : Node → nat;
  expr_end : Node → nat
}.

Section mark.
Context `{SourceManager}.
Abbreviation CallExpr := (Node * Node * list Node)%type.
Abbreviation DeclRefExpr := (Node * FunctionDecl)%type.

Definition isInMacro (loc : nat) : bool := isMacroBodyExpansion loc || isMacroArgExpansion loc.

(** [fixRangeEnd]: the end of a range's last token. *)
Definition fixRangeEnd (range : nat * nat) : nat * nat := (range.1, getLocForEndOfToken range.2).

Definition getExprFullExpansionRange (E : Node) : nat * nat :=
  fixRangeEnd
    (if isInMacro (expr_begin E) then (getExpansionRange (expr_begin E)).1 else expr_begin E,
     if isInMacro (expr_end E) then (getExpansionRange (expr_end E)).2 else expr_end E).

Definition tag_range (range : nat * nat) : RangePacker := MkPacker range.1 range.2 MACRO_BEGIN_TAG MACRO_END_TAG.

(** Whether a range's begin, and its end, are in the middle of an expansion. *)
Definition in_middle (E : Node) : bool * bool :=
  (isInMacro (expr_begin E) && negb (isAtStartOfMacroExpansion (expr_begin E)),
   isInMacro (expr_end E) && negb (isAtEndOfMacroExpansion (expr_end E))).

Definition mark_call (sourceStat : SourceStatistics) (l : list RangePacker) (E : CallExpr) : run (list RangePacker) :=
  T ← realCalleeType E.1.2 E.2;
  signature ← getTypeString T;
  let callee := E.1.2 in
  Done
    (if negb (bool_decide (signature ∈ callbackCheckGuardSignatures sourceStat)) then l
     else if negb (isInMainFile (expr_begin callee)) then l
     else if negb (isInMacro (expr_begin callee)) && negb (isInMacro (expr_end callee)) then l
     else
       match in_middle callee with
       | (false, false) => l
       | (_, false) => l ++ [tag_range (fixRangeEnd (getExpansionRange (expr_begin callee)))]
       | (_, true) => l ++ [tag_range (getExprFullExpansionRange E.1.1)]
       end).

Definition mark_decay (sourceStat : SourceStatistics) (l : list RangePacker) (E : DeclRefExpr) : run (list RangePacker) :=
  signature ← getTypeString (getPointerType (fn_type E.2));
  let DRE := E.1 in
  Done
    (match functionDecayGuardStats sourceStat !! signature with
     | None => l
     | Some _ =>
         if negb (isInMainFile (expr_begin DRE)) then l
         else if negb (isInMacro (expr_begin DRE)) && negb (isInMacro (expr_end DRE)) then l
         else match in_middle DRE with (false, false) => l | _ => l ++ [tag_range (getExprFullExpansionRange DRE)] end
     end).

(** The ranges to tag, in the order they are offered to the set. *)
Definition mark_ranges (sourceStat : SourceStatistics) (fileData : list CallExpr * list DeclRefExpr) : run (list RangePacker) :=
  l ← run_fold (mark_call sourceStat) [] fileData.1;
  run_fold (mark_decay sourceStat) l fileData.2.

(** [None] when the process ends with an error; the text written, empty when nothing is. *)
Definition mark_EndSourceFileAction `{Rewriter} (sourceStat : SourceStatistics) (base : nat) (text : str)
    (fileData : list CallExpr * list DeclRefExpr) : run (option str) :=
  if CPlusPlus then Done None else
  l ← mark_ranges sourceStat fileData;
  Done (Some (match packers l with
              | [] => []
              | _ => edit_buffer (replay base text (packers l) (rewrite_of text))
              end)).
End mark.

(** ** Searching for tags *)

Lemma find_is pat s i : i ≤ length s → prefixb pat (drop i s) = true → (∀ j, j < i → prefixb pat (drop j s) = false) → find pat s = Some i.
Proof.
  revert i. induction s as [|c s IH]; intros i Hi Hp Hmin; cbn [length] in Hi; cbn [find].
  - assert (i = 0) as -> by lia. cbn [drop] in Hp. by rewrite Hp.
  - destruct i as [|i]; [cbn [drop] in Hp; by rewrite Hp|].
    rewrite (Hmin 0 ltac:(lia) : prefixb pat (c :: s) = false). rewrite (IH i); [done|lia|done|].
    intros j Hj. apply (Hmin (S j)). lia.
Qed.

Lemma find_none pat s : find pat s = None → ∀ i, prefixb pat (drop i s) = false.
Proof.
  intros Hn i. destruct (decide (i ≤ length s)) as [Hi|Hi].
  2: { rewrite drop_ge by lia. destruct pat; [by destruct s|done]. }
  destruct (prefixb pat (drop i s)) eqn:Hp; [|done]. exfalso.
  revert i Hi Hp. induction s as [|c s IH]; intros i Hi Hp; cbn [find] in Hn.
  - rewrite drop_nil in Hp. by rewrite Hp in Hn.
  - destruct (prefixb pat (c :: s)) eqn:H0; [done|]. destruct i as [|i]; [cbn [drop] in Hp; congruence|].
    destruct (find pat s) eqn:Hf; [done|]. apply (IH eq_refl i); [cbn [length] in Hi; lia|done].
Qed.

(** A text holds nothing that could be taken for a tag, together with what follows it. *)
Definition free_of (pat t : str) : Prop := find (take (length pat - 1) pat) t = None.

(** No end of a tag but its last character begins a tag. *)
Definition no_border (pat : str) : bool :=
  forallb (λ k, negb (prefixb (drop (S k) pat) pat)) (seq 0 (length pat - 2)).

Lemma no_border_BEGIN : no_border MACRO_BEGIN_TAG = true.
Proof. vm_compute. reflexivity. Qed.
Lemma no_border_END : no_border MACRO_END_TAG = true.
Proof. vm_compute. reflexivity. Qed.

Lemma prefix_of_long (p x y : str) : p `prefix_of` x ++ y → length p ≤ length x → p `prefix_of` x.
Proof.
  intros [k Hk] Hl. exists (drop (length p) x). rewrite <- (take_drop (length p) x) at 1. f_equal.
  apply (f_equal (take (length p))) in Hk. rewrite take_app_le in Hk by done. by rewrite take_app_length in Hk.
Qed.

Lemma find_tag pat t rest :
  no_border pat = true → free_of pat t → find pat (t ++ pat ++ rest) = Some (length t).
Proof.
  intros Hb Hfree. apply find_is.
  - rewrite length_app. lia.
  - rewrite drop_app_length. apply prefixb_app.
  - intros j Hj. destruct (prefixb pat (drop j (t ++ pat ++ rest))) eqn:Hp; [|done]. exfalso.
    apply prefixb_spec in Hp. rewrite drop_app_le in Hp by lia. set (u := drop j t) in *.
    assert (length u = length t - j) as Hu by (unfold u; by rewrite length_drop).
    destruct (decide (length pat - 1 ≤ length u)) as [Hlong|Hshort].
    + assert (take (length pat - 1) pat `prefix_of` u) as Hpre.
      { eapply prefix_of_long; [|rewrite length_take; lia]. etrans; [|exact Hp]. exists (drop (length pat - 1) pat). by rewrite take_drop. }
      apply prefixb_spec in Hpre. unfold u in Hpre. by rewrite (find_none _ _ Hfree) in Hpre.
    + assert (drop (length u) pat `prefix_of` pat) as Hpre.
      { eapply prefix_of_long; [|rewrite length_drop; lia]. destruct Hp as [k Hk]. exists k.
        apply (f_equal (drop (length u))) in Hk. rewrite drop_app_length in Hk. by rewrite drop_app_le in Hk by lia. }
      apply prefixb_spec in Hpre. unfold no_border in Hb. rewrite forallb_forall in Hb.
      specialize (Hb (length u - 1)). rewrite in_seq in Hb. specialize (Hb ltac:(lia)).
      replace (S (length u - 1)) with (length u) in Hb by lia. rewrite Hpre in Hb. done.
Qed.

Lemma find_from_app pat pre t i : find pat t = Some i → find_from pat (pre ++ t) (length pre) = Some (length pre + i).
Proof.
  intros Hf. unfold find_from. rewrite bool_decide_true by (rewrite length_app; lia). by rewrite drop_app_length, Hf.
Qed.

Lemma find_from_none pat pre t : find pat t = None → find_from pat (pre ++ t) (length pre) = None.
Proof.
  intros Hf. unfold find_from. rewrite bool_decide_true by (rewrite length_app; lia). by rewrite drop_app_length, Hf.
Qed.

Lemma find_from_bound pat s pos i : find_from pat s pos = Some i → pos ≤ i ∧ i + length pat ≤ length s.
Proof.
  unfold find_from. case_bool_decide as Hp; [|done]. intros (k & Hk & ->)%fmap_Some.
  apply find_Some_le in Hk. rewrite length_drop in Hk. lia.
Qed.

(** ** Termination *)

Lemma collect_total fuel code index acc :
  length code - index ≤ fuel → ∃ l, collect_expansions fuel code index acc = Done l.
Proof.
  revert index acc. induction fuel as [|fuel IH]; intros index acc Hf; cbn [collect_expansions].
  all: destruct (find_from MACRO_BEGIN_TAG code index) as [b|] eqn:Hb; [|by eexists].
  all: destruct (find_from MACRO_END_TAG code _) as [e|] eqn:He; [|by eexists].
  all: apply find_from_bound in Hb as [Hb1 Hb2]; apply find_from_bound in He as [He1 He2].
  all: assert (0 < length MACRO_BEGIN_TAG) by (cbn; lia); assert (0 < length MACRO_END_TAG) by (cbn; lia).
  - lia.
  - apply IH. lia.
Qed.

Lemma replace_views_total fuel org exps index ei views :
  length org - index ≤ fuel → ∃ r, replace_views fuel org exps index ei views = Done r.
Proof.
  revert index ei views. induction fuel as [|fuel IH]; intros index ei views Hf; cbn [replace_views];
    (destruct (Nat.ltb_spec index (length org)) as [Hlt|Hlt]; [|by eexists]).
  all: destruct (find_from MACRO_BEGIN_TAG org index) as [b|] eqn:Hb; [|by eexists].
  all: destruct (find_from MACRO_END_TAG org _) as [e|] eqn:He; [|by eexists].
  all: apply find_from_bound in Hb as [Hb1 Hb2]; apply find_from_bound in He as [He1 He2].
  all: assert (0 < length MACRO_BEGIN_TAG) by (cbn; lia); assert (0 < length MACRO_END_TAG) by (cbn; lia).
  - lia.
  - destruct (exps !! ei); apply IH; lia.
Qed.

(** C20: the replacement ends on every source and every preprocessed code: both searches pass
    two tags in each round. *)
Theorem replaceMacros_total orgCode preprocessedCode : ∃ r, replaceMacros orgCode preprocessedCode = Done r.
Proof.
  unfold replaceMacros. destruct (collect_total (length preprocessedCode) preprocessedCode 0 [] ltac:(lia)) as [l ->].
  cbn [mbind run_bind]. destruct (replace_views_total (length orgCode) orgCode l 0 0 [] ltac:(lia)) as [r ->]. by eexists.
Qed.

(** ** Replacing tagged texts *)

(** Texts each followed by a tagged text, and the rest. *)
Fixpoint tagged (ps : list (str * str)) (rest : str) : str :=
  match ps with
  | [] => rest
  | (t, m) :: ps => t ++ MACRO_BEGIN_TAG ++ m ++ MACRO_END_TAG ++ tagged ps rest
  end.

(** Each tagged text replaced by the next of the expansions, while there is one. *)
Fixpoint expanded (ps : list (str * str)) (expansions : list str) (rest : str) : str :=
  match ps, expansions with
  | [], _ => rest
  | (t, m) :: ps, [] => t ++ m ++ expanded ps [] rest
  | (t, _) :: ps, e :: es => t ++ e ++ expanded ps es rest
  end.

Definition tag_free (p : str * str) : Prop := free_of MACRO_BEGIN_TAG p.1 ∧ free_of MACRO_END_TAG p.2.

Lemma find_tagged_begin pre t m rest :
  free_of MACRO_BEGIN_TAG t →
  find_from MACRO_BEGIN_TAG (pre ++ t ++ MACRO_BEGIN_TAG ++ m ++ MACRO_END_TAG ++ rest) (length pre) = Some (length pre + length t).
Proof. intros Ht. by apply find_from_app, find_tag. Qed.

Lemma find_tagged_end pre t m rest :
  free_of MACRO_END_TAG m →
  find_from MACRO_END_TAG (pre ++ t ++ MACRO_BEGIN_TAG ++ m ++ MACRO_END_TAG ++ rest)
    (length pre + length t + length MACRO_BEGIN_TAG) =
  Some (length pre + length t + length MACRO_BEGIN_TAG + length m).
Proof.
  intros Hm. pose proof (find_from_app MACRO_END_TAG (pre ++ t ++ MACRO_BEGIN_TAG) (m ++ MACRO_END_TAG ++ rest) (length m)
    (find_tag _ _ _ no_border_END Hm)) as Hf.
  rewrite <- !app_assoc, !length_app, !Nat.add_assoc in Hf. exact Hf.
Qed.

Lemma substr_tagged pre t m rest :
  substr (pre ++ t ++ MACRO_BEGIN_TAG ++ m ++ rest) (length pre + length t + length MACRO_BEGIN_TAG)
    (length pre + length t + length MACRO_BEGIN_TAG + length m - (length pre + length t + length MACRO_BEGIN_TAG)) = m.
Proof.
  unfold substr. replace (length pre + length t + length MACRO_BEGIN_TAG) with (length (pre ++ t ++ MACRO_BEGIN_TAG))
    by (rewrite !length_app; lia).
  replace (pre ++ t ++ MACRO_BEGIN_TAG ++ m ++ rest) with ((pre ++ t ++ MACRO_BEGIN_TAG) ++ m ++ rest) by (by rewrite <- !app_assoc).
  rewrite drop_app_length, Nat.add_comm, Nat.add_sub. by rewrite take_app_length.
Qed.

(** What is behind the next tagged text. *)
Lemma tagged_step pre t m ps rest :
  pre ++ t ++ MACRO_BEGIN_TAG ++ m ++ MACRO_END_TAG ++ tagged ps rest =
    (pre ++ t ++ MACRO_BEGIN_TAG ++ m ++ MACRO_END_TAG) ++ tagged ps rest ∧
  length pre + length t + length MACRO_BEGIN_TAG + length m + length MACRO_END_TAG =
    length (pre ++ t ++ MACRO_BEGIN_TAG ++ m ++ MACRO_END_TAG).
Proof. rewrite <- !app_assoc, !length_app. split; [done|lia]. Qed.

Lemma collect_tagged qs rest pre fuel acc :
  Forall tag_free qs → find MACRO_BEGIN_TAG rest = None → length (tagged qs rest) ≤ fuel →
  collect_expansions fuel (pre ++ tagged qs rest) (length pre) acc = Done (acc ++ qs.*2).
Proof.
  intros Hfree Hrest. revert pre fuel acc. induction Hfree as [|[t m] qs [Ht Hm] _ IH]; intros pre fuel acc Hfuel; cbn [tagged] in *.
  - destruct fuel; cbn [collect_expansions]; rewrite find_from_none by done; by rewrite app_nil_r.
  - cbn [fst snd] in *. rewrite !length_app in Hfuel. destruct fuel as [|fuel]; [cbn in Hfuel; lia|]. cbn [collect_expansions].
    rewrite find_tagged_begin, find_tagged_end by done. rewrite substr_tagged.
    destruct (tagged_step pre t m qs rest) as [-> ->]. rewrite IH by (cbn in Hfuel; lia).
    rewrite fmap_cons. by rewrite <- app_assoc.
Qed.

Lemma expanded_drop ps es i rest :
  i < length es → expanded ps (drop i es) rest =
  match ps with [] => rest | (t, m) :: ps => t ++ default [] (es !! i) ++ expanded ps (drop (S i) es) rest end.
Proof.
  intros Hi. destruct (lookup_lt_is_Some_2 es i Hi) as [e He]. rewrite (drop_S _ _ _ He), He.
  by destruct ps as [|[t m] ps].
Qed.

Lemma replace_tagged ps rest es pre fuel i views :
  Forall tag_free ps → find MACRO_BEGIN_TAG rest = None → no_nul rest → length (tagged ps rest) ≤ fuel →
  ∃ views', replace_views fuel (pre ++ tagged ps rest) es (length pre) i views = Done (views', max i (min (i + length ps) (length es))) ∧
    concat views' = concat views ++ expanded ps (drop i es) rest.
Proof.
  intros Hfree Hrest Hnul. revert pre fuel i views. induction Hfree as [|[t m] ps [Ht Hm] _ IH]; intros pre fuel i views Hfuel; cbn [tagged] in *.
  - replace (max i (min (i + length ([] : list (str * str))) (length es))) with i by (cbn [length]; lia).
    assert (∀ f, replace_views f (pre ++ rest) es (length pre) i views =
      if length pre <? length (pre ++ rest) then Done (views ++ [c_str (drop (length pre) (pre ++ rest))], i) else Done (views, i)) as Hrun.
    { intros f. destruct f; cbn [replace_views]; by rewrite find_from_none. }
    rewrite Hrun, drop_app_length, (c_str_id rest Hnul). destruct (Nat.ltb_spec (length pre) (length (pre ++ rest))) as [Hlt|Hge].
    + eexists. split; [done|]. rewrite concat_app. cbn [concat expanded]. by rewrite app_nil_r.
    + eexists. split; [done|]. rewrite length_app in Hge. destruct rest; [|cbn [length] in Hge; lia]. cbn. by rewrite app_nil_r.
  - cbn [fst snd] in *. rewrite !length_app in Hfuel. destruct fuel as [|fuel]; [cbn in Hfuel; lia|]. cbn [replace_views].
    rewrite (proj2 (Nat.ltb_lt _ _)) by (rewrite !length_app; cbn; lia).
    rewrite find_tagged_begin, find_tagged_end by done. rewrite substr_tagged.
    assert (substr (pre ++ t ++ MACRO_BEGIN_TAG ++ m ++ MACRO_END_TAG ++ tagged ps rest) (length pre) (length pre + length t - length pre) = t) as ->.
    { unfold substr. rewrite drop_app_length, Nat.add_comm, Nat.add_sub. by rewrite take_app_length. }
    destruct (tagged_step pre t m ps rest) as [-> ->].
    destruct (es !! i) as [e|] eqn:He.
    + pose proof (lookup_lt_Some _ _ _ He) as Hi.
      destruct (IH (pre ++ t ++ MACRO_BEGIN_TAG ++ m ++ MACRO_END_TAG) fuel (S i) ((views ++ [t]) ++ [e])) as (views' & Hrun & Hcat); [cbn in Hfuel; lia|].
      exists views'. rewrite Hrun. split; [f_equal; f_equal; cbn [length]; lia|].
      rewrite Hcat, (expanded_drop ((t, m) :: ps)) by done. rewrite He, !concat_app. cbn. by rewrite !app_nil_r, <- !app_assoc.
    + pose proof (lookup_ge_None_1 _ _ He) as Hi.
      destruct (IH (pre ++ t ++ MACRO_BEGIN_TAG ++ m ++ MACRO_END_TAG) fuel i ((views ++ [t]) ++ [m])) as (views' & Hrun & Hcat); [cbn in Hfuel; lia|].
      exists views'. rewrite Hrun. split; [f_equal; f_equal; cbn [length]; lia|].
      rewrite Hcat, (drop_ge es i Hi). cbn [expanded]. rewrite !concat_app. cbn. by rewrite !app_nil_r, <- !app_assoc.
Qed.

Lemma replaceMacros_tagged ps rest qs rest' :
  Forall tag_free ps → find MACRO_BEGIN_TAG rest = None → no_nul rest →
  Forall tag_free qs → find MACRO_BEGIN_TAG rest' = None →
  replaceMacros (tagged ps rest) (tagged qs rest') =
  Done (expanded ps qs.*2 rest, bool_decide (length ps < length qs)).
Proof.
  intros Hps Hrest Hnul Hqs Hrest'. unfold replaceMacros.
  pose proof (collect_tagged qs rest' [] (length (tagged qs rest')) [] Hqs Hrest' ltac:(lia)) as Hc.
  rewrite app_nil_l in Hc. cbn [length] in Hc. rewrite Hc. cbn [mbind run_bind app].
  destruct (replace_tagged ps rest qs.*2 [] (length (tagged ps rest)) 0 [] Hps Hrest Hnul ltac:(lia)) as (views & Hr & Hcat).
  rewrite app_nil_l in Hr. cbn [length] in Hr. rewrite Hr. cbn [mbind run_bind fst snd]. rewrite Hcat, drop_0. cbn [concat app].
  do 2 f_equal. rewrite length_fmap. apply bool_decide_ext. lia.
Qed.

(** In a source with tagged texts the replacement puts, for each of them, what is between
    the tags of the same number in the preprocessed code; without one left the text stays
    and loses its tags.  It warns exactly when there are more expansions than tagged texts. *)
Theorem replaceMacros_exact ps rest qs rest' :
  Forall tag_free ps → find MACRO_BEGIN_TAG rest = None → no_nul rest →
  Forall tag_free qs → find MACRO_BEGIN_TAG rest' = None →
  replaceMacros (tagged ps rest) (tagged qs rest') =
  Done (expanded ps qs.*2 rest, bool_decide (length ps < length qs)).
Proof. apply replaceMacros_tagged. Qed.

(** ** Both commands *)

Section both.
Context `{Rewriter}.
Context (base : nat) (text : str).

(** The text with its ranges replaced. *)
Fixpoint splice_ranges (ranges : list RangePacker) (expansions : list str) (pos : nat) (text : str) : str :=
  match ranges, expansions with
  | p :: ranges, e :: expansions =>
      let gap := range_begin p - base - pos in
      let len := range_end p - range_begin p in
      take gap text ++ e ++ splice_ranges ranges expansions (range_end p - base) (drop len (drop gap text))
  | _, _ => text
  end.

(** The texts that the ranges leave between them, and the ranges' own. *)
Fixpoint range_texts (ranges : list RangePacker) (pos : nat) (text : str) : list (str * str) * str :=
  match ranges with
  | [] => ([], text)
  | p :: ranges =>
      let gap := range_begin p - base - pos in
      let len := range_end p - range_begin p in
      let '(ps, rest) := range_texts ranges (range_end p - base) (drop len (drop gap text)) in
      ((take gap text, take len (drop gap text)) :: ps, rest)
  end.

Definition tags (p : RangePacker) : Prop := textBefore p = MACRO_BEGIN_TAG ∧ textAfter p = MACRO_END_TAG.

Lemma wrap_tagged ranges pos t :
  Forall tags ranges → wrap_ranges base ranges pos t = tagged (range_texts ranges pos t).1 (range_texts ranges pos t).2.
Proof.
  intros Ht. revert pos t. induction Ht as [|p ranges [Hb Ha] _ IH]; intros pos t; [done|].
  cbn [wrap_ranges range_texts]. rewrite IH, Hb, Ha. by destruct (range_texts ranges _ _) as [ps rest].
Qed.

Lemma expanded_splice ranges es pos t :
  length es = length ranges →
  expanded (range_texts ranges pos t).1 es (range_texts ranges pos t).2 = splice_ranges ranges es pos t.
Proof.
  revert es pos t. induction ranges as [|p ranges IH]; intros [|e es] pos t Hl; try discriminate; [done|].
  injection Hl as Hl. cbn [range_texts splice_ranges].
  specialize (IH es (range_end p - base) (drop (range_end p - range_begin p) (drop (range_begin p - base - pos) t)) Hl).
  destruct (range_texts ranges _ _) as [ps rest]. cbn [fst snd expanded] in *. by rewrite IH.
Qed.

Lemma range_texts_length ranges pos t : length (range_texts ranges pos t).1 = length ranges.
Proof.
  revert pos t. induction ranges as [|p ranges IH]; intros pos t; [done|]. cbn [range_texts].
  specialize (IH (range_end p - base) (drop (range_end p - range_begin p) (drop (range_begin p - base - pos) t))).
  destruct (range_texts ranges _ _) as [ps rest]. cbn [fst length] in *. by rewrite IH.
Qed.

Lemma free_of_slice pat t i n : free_of pat t → free_of pat (take n (drop i t)).
Proof.
  unfold free_of. intros Hf. destruct (find _ (take n (drop i t))) as [j|] eqn:Hj; [|done]. exfalso.
  pose proof (find_Some_le _ _ _ Hj) as Hle. destruct (find_Some _ _ _ Hj) as (_ & Hpre & _).
  rewrite !length_take, length_drop in Hle.
  assert (take (length pat - 1) pat `prefix_of` drop (i + j) t) as Hp.
  { destruct Hpre as [k Hk]. exists (k ++ drop (n - j) (drop (i + j) t)). rewrite app_assoc, <- Hk, <- drop_drop.
    rewrite skipn_firstn_comm. by rewrite take_drop. }
  apply prefixb_spec in Hp. by rewrite (find_none _ _ Hf) in Hp.
Qed.

Lemma range_texts_free ranges pos t i :
  free_of MACRO_BEGIN_TAG text → free_of MACRO_END_TAG text → no_nul text → t = drop i text →
  Forall tag_free (range_texts ranges pos t).1 ∧ ∃ j, (range_texts ranges pos t).2 = drop j text.
Proof.
  intros Hb He Hn. revert pos t i. induction ranges as [|p ranges IH]; intros pos t i ->; cbn [range_texts].
  { split; [constructor|]. by exists i. }
  rewrite !drop_drop.
  destruct (IH (range_end p - base) (drop (i + (range_begin p - base - pos + (range_end p - range_begin p))) text) _ eq_refl) as [Hall Hrest].
  destruct (range_texts ranges _ _) as [ps rest]. cbn [fst snd] in *. split; [|done].
  constructor; [|done]. split; cbn [fst snd]; by apply free_of_slice.
Qed.
End both.

Lemma free_of_find pat t : free_of pat t → find pat t = None.
Proof.
  unfold free_of. intros Hf. destruct (find pat t) as [j|] eqn:Hj; [|done]. exfalso.
  pose proof (find_Some_le _ _ _ Hj) as Hle. destruct (find_Some _ _ _ Hj) as (_ & Hpre & _).
  assert (take (length pat - 1) pat `prefix_of` drop j t) as Hp.
  { etrans; [|exact Hpre]. exists (drop (length pat - 1) pat). by rewrite take_drop. }
  apply prefixb_spec in Hp. by rewrite (find_none _ _ Hf) in Hp.
Qed.

Lemma mark_fold_tags {A} (f : list RangePacker → A → run (list RangePacker)) l0 l xs :
  (∀ l x l', f l x = Done l' → Forall tags l → Forall tags l') →
  run_fold f l0 xs = Done l → Forall tags l0 → Forall tags l.
Proof.
  intros Hf. revert l0. induction xs as [|x xs IH]; intros l0; cbn [run_fold]; [by intros [= <-]|].
  destruct (f l0 x) as [l1| |] eqn:Hx; cbn [mbind run_bind]; [|done..]. intros Hr Hl. apply (IH l1 Hr). by eapply Hf.
Qed.

Lemma mark_ranges_tags `{SourceManager} sourceStat fileData l : mark_ranges sourceStat fileData = Done l → Forall tags l.
Proof.
  assert (∀ l r, Forall tags l → Forall tags (l ++ [tag_range r])) as Hadd by (intros; apply Forall_app; split; [done|by repeat constructor]).
  unfold mark_ranges. destruct (run_fold (mark_call sourceStat) [] fileData.1) as [l1| |] eqn:Hcalls; cbn [mbind run_bind]; [|done..].
  intros Hdecays. eapply mark_fold_tags; [|exact Hdecays|eapply mark_fold_tags; [|exact Hcalls|constructor]].
  - clear -Hadd. intros l x l'. unfold mark_decay. destruct (getTypeString _) as [s| |]; cbn [mbind run_bind]; [|done..].
    intros [= <-] Hl. repeat case_match; try done; by apply Hadd.
  - clear -Hadd. intros l x l'. unfold mark_call. destruct (realCalleeType _ _) as [T| |]; cbn [mbind run_bind]; [|done..].
    destruct (getTypeString _) as [s| |]; cbn [mbind run_bind]; [|done..].
    intros [= <-] Hl. repeat case_match; try done; by apply Hadd.
Qed.

Lemma written_some {A} (l : list A) (t marked : str) : match l with [] => [] | _ => t end = marked → marked ≠ [] → t = marked.
Proof. by destruct l; intros <-. Qed.

(** C21: both commands together replace the marked ranges of the source by their expansions
    and leave every other character as it is, if the preprocessor keeps the tags and the
    ranges come outermost first. *)
Theorem marks_replaced `{SourceManager} `{Rewriter} sourceStat base text fileData l marked qs rest' :
  mark_ranges sourceStat fileData = Done l → nested l → Forall (in_main base text) l →
  free_of MACRO_BEGIN_TAG text → free_of MACRO_END_TAG text → no_nul text →
  mark_EndSourceFileAction sourceStat base text fileData = Done (Some marked) → marked ≠ [] →
  Forall tag_free qs → find MACRO_BEGIN_TAG rest' = None → length qs = length (packers l) →
  replaceMacros marked (tagged qs rest') = Done (splice_ranges base (packers l) qs.*2 0 text, false).
Proof.
  intros Hl Hn Hm Hb He Hnul Hmark Hne Hqs Hrest' Hlen. pose proof (mark_ranges_tags _ _ _ Hl) as Htags.
  assert (Forall range_wf l) as Hwf by (eapply Forall_impl; [exact Hm|intros p (_ & ? & _); done]).
  destruct (packers_spec l Hn Hwf) as (Hs & _ & Hsub & _).
  assert (Forall (in_main base text) (packers l)) as Hm' by (apply Forall_forall; intros p Hp; rewrite Forall_forall in Hm; by apply Hm, Hsub).
  assert (Forall tags (packers l)) as Ht' by (apply Forall_forall; intros p Hp; rewrite Forall_forall in Htags; by apply Htags, Hsub).
  unfold mark_EndSourceFileAction in Hmark. destruct CPlusPlus; [done|]. rewrite Hl in Hmark. cbn [mbind run_bind] in Hmark.
  assert (marked = wrap_ranges base (packers l) 0 text) as ->.
  { injection Hmark as Hmark. apply written_some in Hmark as <-; [|done]. by apply (rewritten_text base text (packers l) [] Hs). }
  rewrite (wrap_tagged base (packers l) 0 text Ht').
  destruct (range_texts_free base text (packers l) 0 text 0 Hb He Hnul eq_refl) as (Hfree & j & Hj).
  rewrite replaceMacros_tagged; [|done| | |done|done].
  - rewrite expanded_splice by (by rewrite length_fmap). rewrite range_texts_length, Hlen. by rewrite bool_decide_false by lia.
  - rewrite Hj. apply free_of_find. rewrite <- (firstn_all (drop j text)). by apply free_of_slice.
  - rewrite Hj. intros Hin. apply Hnul. apply list_elem_of_lookup in Hin as [k Hk]. rewrite lookup_drop in Hk. by eapply list_elem_of_lookup_2.
Qed.

(** ** An example

    [CB_CALL(h); z], where the macro expands to a call through [cb]: the callee and the
    argument, a function, are in the middle of one expansion. *)

#[export] Instance h_source : @SourceManager h_clang h_ast := {|
  isMacroBodyExpansion := λ loc, 1000 <=? loc;
  isMacroArgExpansion := λ _, false;
  getExpansionRange := λ _, (100, 109);
  getLocForEndOfToken := S;
  isInMainFile := λ _, true;
  isAtStartOfMacroExpansion := λ loc, loc =? 1000;
  isAtEndOfMacroExpansion := λ loc, loc =? 1005;
  expr_begin := λ n : @Node h_clang h_ast, match n with 1 | 2 => 1000 | _ => 1003 end;
  expr_end := λ n : @Node h_clang h_ast, match n with 1 => 1005 | 2 => 1001 | _ => 1003 end
|}.

Definition h_text : str := $"CB_CALL(h); z".
Definition h_stat : SourceStatistics := MkStatistics ∅ {[h_signature]} {[h_signature := {[$"handler.h:1:1" := $"a.c"]}]}.
Definition h_data : list (nat * nat * list nat) * list (nat * CFunction) := ([(1, 2, [4])], [(5, h_handler)]).
Definition h_preprocessed : list (str * str) := [($"extern int z; ", $"cb(h)")].

Example h_mark :
  @mark_ranges h_clang h_ast h_source h_stat h_data =
    Done [MkPacker 100 110 MACRO_BEGIN_TAG MACRO_END_TAG; MkPacker 100 110 MACRO_BEGIN_TAG MACRO_END_TAG] ∧
  @mark_EndSourceFileAction h_clang h_ast h_source plain_rewriter h_stat 100 h_text h_data =
    Done (Some ($"/*__LORELEI_MACRO_BEGIN__*/CB_CALL(h)/*__LORELEI_MACRO_END__*/; z")).
Proof. split; vm_compute; reflexivity. Qed.

Example h_replaced :
  replaceMacros ($"/*__LORELEI_MACRO_BEGIN__*/CB_CALL(h)/*__LORELEI_MACRO_END__*/; z") (tagged h_preprocessed ($"; z")) =
  Done ($"cb(h); z", false).
Proof. vm_compute. reflexivity. Qed.

(** An end tag that is missing, and a NUL in the source. *)
Example h_unclosed : replaceMacros ($"a /*__LORELEI_MACRO_BEGIN__*/ b") [] = Done ($"a /*__LORELEI_MACRO_BEGIN__*/ b", false).
Proof. vm_compute. reflexivity. Qed.
Example h_nul : replaceMacros ($"a" ++ [c_nul] ++ $"b") [] = Done ($"a", false).
Proof. vm_compute. reflexivity. Qed.

Lemma h_free : Forall tag_free h_preprocessed.
Proof. repeat constructor; vm_compute; reflexivity. Qed.

Lemma no_nul_dec (s : str) : bool_decide (c_nul ∈ s) = false → no_nul s.
Proof. by intros ?%bool_decide_eq_false. Qed.

Lemma replaceMacros_exact_witness :
  replaceMacros (tagged [($"x = ", $"CB_CALL(h)")] ($"; z")) (tagged h_preprocessed ($"; z")) = Done ($"x = cb(h); z", false).
Proof.
  rewrite (replaceMacros_exact [($"x = ", $"CB_CALL(h)")] ($"; z") h_preprocessed ($"; z")); [reflexivity| | | | |].
  - repeat constructor; vm_compute; reflexivity.
  - vm_compute. reflexivity.
  - apply no_nul_dec. vm_compute. reflexivity.
  - apply h_free.
  - vm_compute. reflexivity.
Defined.

Lemma marks_replaced_witness :
  replaceMacros ($"/*__LORELEI_MACRO_BEGIN__*/CB_CALL(h)/*__LORELEI_MACRO_END__*/; z") (tagged h_preprocessed ($"; z")) =
  Done ($"cb(h); z", false).
Proof.
  refine (@marks_replaced h_clang h_ast h_source plain_rewriter h_stat 100 h_text h_data _ _ h_preprocessed ($"; z")
            (proj1 h_mark) _ _ _ _ _ (proj2 h_mark) _ h_free _ _).
  - intros [|[|i]] [|[|j]] p q Hij Hi Hj; try lia; try discriminate. injection Hi as <-. injection Hj as <-. left. split; cbn; lia.
  - repeat constructor; cbn; lia.
  - vm_compute. reflexivity.
  - vm_compute. reflexivity.
  - apply no_nul_dec. vm_compute. reflexivity.
  - discriminate.
  - vm_compute. reflexivity.
  - reflexivity.
Defined.
