(* ===== verification/RewriteCommand.v ===== *)
(** Guarding the sources of a host library: [src/tools/HLR/Commands/Rewrite.cpp] and
    [src/tools/HLR/Commands/Batch.cpp].

    The first command wraps the calls and the functions of the statistics in a file's text
    in guards, and implements the guards of functions; the second runs all commands on the
    files that need it and writes the declarations of the guards.  The theorems say that
    every guard that a file uses is declared and defined, that a function's guard is
    implemented by the one file that the statistics name, if it still refers to the function
    as they saw it, what the text of a rewritten file is, and what the batch leaves in its
    files. *)

From stdpp Require Import gmap sorting.
From S2P Require Import Prelude CppString FsPath ManifestSummary ClangExtras SourceStatistics RewriteInsertion MacroTags.

(** ** The indexes of guards *)

(** Positions in the order of a set or a map; an instance has its position and its file. *)
Record RewriteContext : Type := MkContext {
  CCGIndexMap : gmap str nat;
  FDGIndexMap : gmap str nat;
  FDGInstanceInfoMaps : list (gmap str (nat * str))
}.

Definition index_map (keys : list str) : gmap str nat := list_to_map (imap (λ i k, (k, i)) keys).

Definition instance_map (locations : gmap str str) : gmap str (nat * str) :=
  list_to_map (imap (λ j l, (l.1, (j, l.2))) (entries locations)).

Definition rewrite_context (stat : SourceStatistics) : RewriteContext :=
  MkContext (index_map (set_entries (callbackCheckGuardSignatures stat)))
    (index_map (entries (functionDecayGuardStats stat)).*1)
    ((λ guard, instance_map guard.2) <$> entries (functionDecayGuardStats stat)).

(** ** [Rewrite.cpp] *)

Definition ccg_name (i : nat) : str := $"LORE_CCG_" ++ dec (i + 1).
Definition fdg_name (i j : nat) : str := $"LORE_FDG_" ++ dec (i + 1) ++ $"_" ++ dec (j + 1).

Definition guard_range (range : nat * nat) (name : str) : RangePacker :=
  MkPacker range.1 range.2 (name ++ $"(") ($")").

(** The functions to implement guards for, by guard and instance. *)
Abbreviation ImplList := (gmap (nat * nat) str).

(** [std::map] of pairs: by the first component, then by the second. *)
Definition impl_le (x y : nat * nat * str) : Prop := x.1.1 < y.1.1 ∨ x.1.1 = y.1.1 ∧ x.1.2 ≤ y.1.2.
#[export] Instance impl_le_dec : RelDecision impl_le.
Proof. intros x y. unfold impl_le. apply _. Defined.

Definition impl_entries (impls : ImplList) : list (nat * nat * str) := merge_sort impl_le (map_to_list impls).

Definition impl_line (e : nat * nat * str) : str :=
  $"LORE_FDG_IMPL(" ++ dec (e.1.1 + 1) ++ $", " ++ dec (e.1.2 + 1) ++ $", " ++ e.2 ++ $")" ++ [c_nl].

Definition fdgImplText (impls : ImplList) : str :=
  match impl_entries impls with [] => [] | l => [c_nl] ++ concat (impl_line <$> l) ++ [c_nl] end.

Section rewrite.
Context `{SourceManager}.
Abbreviation CallExpr := (Node * Node * list Node)%type.
Abbreviation DeclRefExpr := (Node * FunctionDecl)%type.
Context (ctx : RewriteContext) (inFile : str).

Definition rewrite_call (l : list RangePacker) (E : CallExpr) : run (list RangePacker) :=
  T ← realCalleeType E.1.2 E.2;
  signature ← getTypeString T;
  Done (match CCGIndexMap ctx !! signature with
        | None => l
        | Some i => l ++ [guard_range (getExprFullExpansionRange E.1.2) (ccg_name i)]
        end).

Definition rewrite_decay (acc : list RangePacker * ImplList) (E : DeclRefExpr) : run (list RangePacker * ImplList) :=
  signature ← getTypeString (getPointerType (fn_type E.2));
  match FDGIndexMap ctx !! signature with
  | None => Done acc
  | Some guardIdx =>
      instanceMap ← defined (FDGInstanceInfoMaps ctx !! guardIdx);
      Done (match instanceMap !! fn_begin E.2 with
            | None => acc
            | Some (instanceIdx, file) =>
                let impls := if file =s? inFile
                             then match acc.2 !! (guardIdx, instanceIdx) with
                                  | Some _ => acc.2
                                  | None => <[(guardIdx, instanceIdx) := fn_name E.2]> acc.2
                                  end
                             else acc.2 in
                (acc.1 ++ [guard_range (getExprFullExpansionRange E.1) (fdg_name guardIdx instanceIdx)], impls)
            end)
  end.

(** The ranges to guard, in the order they are offered to the set, and the functions. *)
Definition rewrite_ranges (fileData : list CallExpr * list DeclRefExpr) : run (list RangePacker * ImplList) :=
  l ← run_fold rewrite_call [] fileData.1;
  run_fold rewrite_decay (l, ∅) fileData.2.

(** [None] when the process ends with an error; the text written, empty when nothing is. *)
Definition rewrite_EndSourceFileAction `{Rewriter} (base : nat) (text : str)
    (fileData : list CallExpr * list DeclRefExpr) : run (option str) :=
  if CPlusPlus then Done None else
  r ← rewrite_ranges fileData;
  let insertions := packers r.1 in
  let implText := fdgImplText r.2 in
  Done (Some (if bool_decide (insertions = []) && (implText =s? []) then []
              else
                let rw := replay base text insertions (rewrite_of text) in
                edit_buffer (if implText =s? [] then rw else InsertText rw (length text) implText true))).
End rewrite.

(** ** The declarations: [Batch.cpp] *)

(** A text for each element, with its position. *)
Definition indexed {A} (f : nat → A → str) (l : list A) : str := concat (imap f l).

Definition line (s : str) : str := s ++ [c_nl].

Section declarations.
Context (stat : SourceStatistics).

(** What the loops go through: each guard; each instance of each guard. *)
Definition ccgs : list str := set_entries (callbackCheckGuardSignatures stat).
Definition fdgs : list (str * gmap str str) := entries (functionDecayGuardStats stat).
Definition fdg_instances (f : nat → nat → str) : str :=
  indexed (λ i guard, indexed (λ j _, f i j) (entries guard.2)) fdgs.

Definition ccg_decl (i : nat) : str := line ($"LORE_CCG_DECL(" ++ dec (i + 1) ++ $")").
Definition fdg_decl (i j : nat) : str := line ($"LORE_FDG_DECL(" ++ dec (i + 1) ++ $", " ++ dec (j + 1) ++ $")").
Definition ccg_define (i : nat) : str :=
  line ($"#define LORE_CCG_" ++ dec (i + 1) ++ $"(X) LORE_CCG_GET(" ++ dec (i + 1) ++ $", (X))").
Definition fdg_define (i j : nat) : str :=
  line ($"#define LORE_FDG_" ++ dec (i + 1) ++ $"_" ++ dec (j + 1) ++ $"(X) LORE_FDG_GET(" ++ dec (i + 1) ++ $", "
        ++ dec (j + 1) ++ $", (X))").

(** [LoreFileContext.h]; [resource] is the text that is built in. *)
Definition common_header (resource : str) : str :=
  $"#pragma once" ++ [c_nl; c_nl] ++ c_str resource ++ [c_nl; c_nl]
  ++ indexed (λ i _, ccg_decl i) ccgs ++ [c_nl] ++ fdg_instances fdg_decl ++ [c_nl]
  ++ indexed (λ i _, ccg_define i) ccgs ++ [c_nl] ++ fdg_instances fdg_define.

Definition quoted (s : str) : str := [c_dquote] ++ s ++ [c_dquote].

(** [LoreFileContext.c]. *)
Definition single_source : str :=
  indexed (λ i _, line ($"LORE_CCG_IMPL(" ++ dec (i + 1) ++ $")")) ccgs
  ++ line ($"static struct LoreStaticCallCheckGuardInfo LoreFileContext_CCGs[] = {")
  ++ indexed (λ i guard, line ($"    {" ++ quoted guard ++ $", &LoreFileContext_CCG_Tramp_" ++ dec (i + 1) ++ $"},")) ccgs
  ++ line ($"};") ++ [c_nl]
  ++ indexed (λ i guard,
       line ($"static struct LoreStaticFunctionDecayGuardPair *LoreFileContext_FDG_Proc_" ++ dec (i + 1) ++ $"_instances[] = {")
       ++ indexed (λ j _, line ($"    &LoreFileContext_FDG_Proc_" ++ dec (i + 1) ++ $"_" ++ dec (j + 1) ++ $",")) (entries guard.2)
       ++ line ($"};") ++ [c_nl]) fdgs
  ++ line ($"static struct LoreStaticFunctionDecayGuardInfo LoreFileContext_FDGs[] = {")
  ++ indexed (λ i guard,
       line ($"    {" ++ quoted guard.1 ++ $", " ++ dec (length (entries guard.2)) ++ $", LoreFileContext_FDG_Proc_"
             ++ dec (i + 1) ++ $"_instances},")) fdgs
  ++ line ($"};") ++ [c_nl]
  ++ line ($"static void *LoreFileContext_initializers[] = {") ++ line ($"};") ++ [c_nl]
  ++ line ($"__LORE_PRIV__ struct LoreFileContext LoreFileContext_instance = {")
  ++ line ($"    .runtimeContext = 0,") ++ line ($"    .emuAddr = 0,") ++ line ($"    .setThreadCallback = 0,")
  ++ line ($"    .numCCGs = " ++ dec (length ccgs) ++ $",") ++ line ($"    .CCGs = LoreFileContext_CCGs,")
  ++ line ($"#ifdef LORE_DISABLE_FDG") ++ line ($"    .numFDGs = 0,") ++ line ($"    .FDGs = 0,") ++ line ($"#else")
  ++ line ($"    .numFDGs = " ++ dec (length fdgs) ++ $",") ++ line ($"    .FDGs = LoreFileContext_FDGs,") ++ line ($"#endif")
  ++ line ($"    .numInitializers = 0,") ++ line ($"    .initializers = LoreFileContext_initializers,")
  ++ line ($"};") ++ [c_nl]
  ++ line ($"__LORE_EXPORT__ struct LoreFileContext *__Lore_GetFileContext() {")
  ++ line ($"    return &LoreFileContext_instance;") ++ line ($"}") ++ [c_nl].
End declarations.

(** ** The batch *)

Section batch.
(** The files by their names; a command run on one file: the files it leaves,
    and its error. *)
Abbreviation Files := (gmap str str).
Variable runSubCommand : str → str → Files → Files * option str.
(** The directories; [std::filesystem::relative]; the texts that are built in. *)
Variable initialCwd outputDir : str.
Variable relative : str → str → str.
Variable warning : str → str.
Variable resource : str.

Definition make_absolute (path : str) : str := if is_absolute path then path else path_append initialCwd path.
Definition normalized (path : str) : str := lexically_normal (make_absolute path).
Definition getRelativeToOutputDir (path : str) : str := relative outputDir (parent_path (make_absolute path)).

Definition outputCommonHeader : str := outputDir ++ $"/LoreFileContext.h".
Definition outputSingleSource : str := outputDir ++ $"/LoreFileContext.c".
Definition include_line (file name : str) : str :=
  line ($"#include " ++ [c_dquote] ++ getRelativeToOutputDir file ++ name ++ [c_dquote]).

(** The warning and the header before the old content. *)
Definition adjustContent (filePath header : str) (files : Files) : Files * option str :=
  match files !! filePath with
  | None => (files, Some ($"cannot open"))
  | Some oldContent => (<[filePath := warning filePath ++ [c_nl; c_nl] ++ header ++ oldContent]> files, None)
  end.

(** What the loop keeps: the files and the first source that changed. *)
Record BatchState : Type := MkBatch { batch_files : Files; fileContextEntrySource : option str }.

(** The three commands on a file, up to the first that fails. *)
Definition run_commands (file : str) (files : Files) : Files * option str :=
  match runSubCommand ($"mark-macros") file files with
  | (files, None) =>
      match runSubCommand ($"preprocess") file files with
      | (files, None) => runSubCommand ($"rewrite") file files
      | failed => failed
      end
  | failed => failed
  end.

(** One round of the loop; an error leaves the files as they are then. *)
Definition batch_file (filesNeedPatch : gset str) (st : BatchState) (file : str) : BatchState * option str :=
  if negb (bool_decide (normalized file ∈ filesNeedPatch)) then (st, None) else
  match batch_files st !! file with
  | None => (st, Some ($"Failed to read input file before mark-macros"))
  | Some contentBefore =>
      match run_commands file (batch_files st) with
      | (files, Some e) => (MkBatch files (fileContextEntrySource st), Some e)
      | (files, None) =>
          match files !! file with
          | None => (MkBatch files (fileContextEntrySource st), Some ($"Failed to read output file after rewrite"))
          | Some content =>
              if content =s? contentBefore then (MkBatch files (fileContextEntrySource st), None) else
              let entry := match fileContextEntrySource st with None => Some file | e => e end in
              let '(files, e) := adjustContent file (include_line file ($"/LoreFileContext.h")) files in
              (MkBatch files entry, e)
          end
      end
  end.

Fixpoint batch_loop (filesNeedPatch : gset str) (st : BatchState) (sources : list str) : BatchState * option str :=
  match sources with
  | [] => (st, None)
  | file :: sources =>
      match batch_file filesNeedPatch st file with
      | (st, None) => batch_loop filesNeedPatch st sources
      | failed => failed
      end
  end.

(** From the statistics on: the files at the end, and the error. *)
Definition batch_run (stat : SourceStatistics) (sources : list str) (files : Files) : Files * option str :=
  let needed := list_to_set (normalized <$> set_entries (filesNeedPatch stat)) in
  match batch_loop needed (MkBatch files None) sources with
  | (st, Some e) => (batch_files st, Some e)
  | (st, None) =>
      match fileContextEntrySource st with
      | None => (batch_files st, None)
      | Some entry =>
          let files := <[outputSingleSource := single_source stat]>
                         (<[outputCommonHeader := common_header stat resource]> (batch_files st)) in
          (<[entry := default [] (files !! entry) ++ [c_nl] ++ include_line entry ($"/LoreFileContext.c")]> files, None)
      end
  end.
End batch.

(** ** Positions *)

Lemma imap_keys {A B} (f : nat → A → str * B) (g : A → str) l :
  (∀ i x, (f i x).1 = g x) → (imap f l).*1 = g <$> l.
Proof.
  intros Hf. revert f Hf. induction l as [|x l IH]; intros f Hf; [done|]. rewrite imap_cons, !fmap_cons, Hf. f_equal.
  apply IH. intros i y. apply Hf.
Qed.

Lemma position_map {A B} (f : nat → A → str * B) (g : A → str) l k b :
  (∀ i x, (f i x).1 = g x) → NoDup (g <$> l) →
  (list_to_map (imap f l) : gmap str B) !! k = Some b ↔ ∃ i x, l !! i = Some x ∧ f i x = (k, b).
Proof.
  intros Hf Hnd. rewrite <- elem_of_list_to_map by (by rewrite (imap_keys f g)). rewrite list_elem_of_lookup.
  setoid_rewrite list_lookup_imap_Some. naive_solver.
Qed.

Lemma entries_keys_NoDup {A} (m : gmap str A) : NoDup (entries m).*1.
Proof. rewrite entries_perm. apply NoDup_fst_map_to_list. Qed.

Lemma set_entries_NoDup m : NoDup (set_entries m).
Proof. rewrite set_entries_perm. apply NoDup_elements. Qed.

Lemma index_map_lookup keys k i : NoDup keys → index_map keys !! k = Some i ↔ keys !! i = Some k.
Proof.
  intros Hnd. unfold index_map. rewrite (position_map _ id) by (done || by rewrite list_fmap_id). naive_solver.
Qed.

Lemma instance_map_lookup m loc j f : instance_map m !! loc = Some (j, f) ↔ entries m !! j = Some (loc, f).
Proof.
  unfold instance_map. rewrite (position_map _ fst) by (done || apply entries_keys_NoDup). split.
  - intros (i & [l f'] & Hi & [= -> -> ->]). done.
  - intros Hj. by exists j, (loc, f).
Qed.

(** A guard of a function: its signature and location, and the file that implements it. *)
Definition fdg_entry (stat : SourceStatistics) (i j : nat) (sig loc f : str) : Prop :=
  ∃ locs, fdgs stat !! i = Some (sig, locs) ∧ entries locs !! j = Some (loc, f).

Lemma fdg_entry_guard stat sig loc f :
  (∃ i j, fdg_entry stat i j sig loc f) ↔ guard_location stat sig loc = Some f.
Proof.
  unfold fdg_entry, guard_location, fdgs. split.
  - intros (i & j & locs & Hi & Hj). apply list_elem_of_lookup_2 in Hi, Hj. rewrite entries_perm in Hi. rewrite entries_perm in Hj.
    apply elem_of_map_to_list in Hi. apply elem_of_map_to_list in Hj. by rewrite Hi.
  - destruct (functionDecayGuardStats stat !! sig) as [locs|] eqn:Hs; cbn [mbind option_bind]; [|done]. intros Hl.
    apply elem_of_map_to_list in Hs. apply elem_of_map_to_list in Hl. rewrite <- entries_perm in Hs. rewrite <- entries_perm in Hl.
    apply list_elem_of_lookup in Hs as [i Hi]. apply list_elem_of_lookup in Hl as [j Hj]. by exists i, j, locs.
Qed.

(** A guard is found by its signature and location, in one place. *)
Lemma fdg_entry_inj stat i j i' j' sig loc f f' :
  fdg_entry stat i j sig loc f → fdg_entry stat i' j' sig loc f' → i = i' ∧ j = j' ∧ f = f'.
Proof.
  intros (locs & Hi & Hj) (locs' & Hi' & Hj'). assert (i = i') as <-.
  { eapply (NoDup_lookup (fdgs stat).*1); [apply entries_keys_NoDup|by rewrite list_lookup_fmap, Hi|by rewrite list_lookup_fmap, Hi']. }
  rewrite Hi in Hi'. injection Hi' as <-. assert (j = j') as <-.
  { eapply (NoDup_lookup (entries locs).*1); [apply entries_keys_NoDup|by rewrite list_lookup_fmap, Hj|by rewrite list_lookup_fmap, Hj']. }
  rewrite Hj in Hj'. by injection Hj' as <-.
Qed.

(** ** The ranges and the functions of a file *)

Section ranges.
Context `{SourceManager}.
Abbreviation CallExpr := (Node * Node * list Node)%type.
Abbreviation DeclRefExpr := (Node * FunctionDecl)%type.
Context (stat : SourceStatistics) (inFile : str).
Abbreviation ctx := (rewrite_context stat).

(** The guard of a call, and of a reference with the file that implements it. *)
Definition call_guard (E : CallExpr) (i : nat) : Prop :=
  ∃ T sig, realCalleeType E.1.2 E.2 = Done T ∧ getTypeString T = Done sig ∧ ccgs stat !! i = Some sig.
Definition decay_guard (E : DeclRefExpr) (i j : nat) (f : str) : Prop :=
  ∃ sig, getTypeString (getPointerType (fn_type E.2)) = Done sig ∧ fdg_entry stat i j sig (fn_begin E.2) f.

Lemma rewrite_calls_spec l cs :
  Forall collected_call cs →
  ∃ l', run_fold (rewrite_call ctx) l cs = Done l' ∧
    ∀ p, p ∈ l' ↔ p ∈ l ∨ ∃ E i, E ∈ cs ∧ call_guard E i ∧ p = guard_range (getExprFullExpansionRange E.1.2) (ccg_name i).
Proof.
  intros Hall. revert l. induction Hall as [|E cs HE _ IH]; intros l.
  { exists l. split; [done|]. intros p. split; [by left|]. intros [?|(E & i & Hin & _)]; [done|by apply not_elem_of_nil in Hin]. }
  destruct (realCalleeType_total E HE) as (T & HT). destruct (getTypeString_total T) as (sig & Hs).
  set (l1 := match CCGIndexMap ctx !! sig with None => l | Some i => l ++ [guard_range (getExprFullExpansionRange E.1.2) (ccg_name i)] end).
  assert (rewrite_call ctx l E = Done l1) as Hstep.
  { unfold rewrite_call. rewrite HT. cbn [mbind run_bind]. rewrite Hs. reflexivity. }
  cbn [run_fold]. rewrite Hstep. cbn [mbind run_bind]. destruct (IH l1) as (l' & Hrun & Hl'). exists l'. split; [done|].
  assert (∀ i, call_guard E i ↔ CCGIndexMap ctx !! sig = Some i) as HEi.
  { intros i. cbn [CCGIndexMap rewrite_context]. rewrite index_map_lookup by apply set_entries_NoDup. unfold call_guard. rewrite HT. split.
    - intros (T' & sig' & [= <-] & Hs' & Hi). rewrite Hs in Hs'. by injection Hs' as <-.
    - intros Hi. by exists T, sig. }
  assert (∀ p, p ∈ l1 ↔ p ∈ l ∨ ∃ i, call_guard E i ∧ p = guard_range (getExprFullExpansionRange E.1.2) (ccg_name i)) as Hl1.
  { intros p. setoid_rewrite HEi. unfold l1. destruct (CCGIndexMap ctx !! sig) as [i|].
    - rewrite elem_of_app, list_elem_of_singleton. f_equiv. split; [intros ->; by exists i|by intros (i' & [= <-] & ->)].
    - split; [by left|]. by intros [?|(i & ? & _)]. }
  intros p. rewrite Hl', Hl1. setoid_rewrite elem_of_cons. split.
  - intros [[?|(i & ? & ->)]|(E' & i & ? & ?)]; [by left|right; exists E, i; tauto|right; exists E', i; tauto].
  - intros [?|(E' & i & [->|?] & ? & ?)]; [left; by left|left; right; by exists i|right; by exists E', i].
Qed.

Lemma rewrite_decays_spec acc ds :
  ∃ acc', run_fold (rewrite_decay ctx inFile) acc ds = Done acc' ∧
    (∀ p, p ∈ acc'.1 ↔ p ∈ acc.1 ∨
       ∃ E i j f, E ∈ ds ∧ decay_guard E i j f ∧ p = guard_range (getExprFullExpansionRange E.1) (fdg_name i j)) ∧
    (∀ i j, is_Some (acc'.2 !! (i, j)) ↔ is_Some (acc.2 !! (i, j)) ∨ ∃ E, E ∈ ds ∧ decay_guard E i j inFile) ∧
    (∀ i j n, acc'.2 !! (i, j) = Some n →
       acc.2 !! (i, j) = Some n ∨ ∃ E, E ∈ ds ∧ decay_guard E i j inFile ∧ n = fn_name E.2).
Proof.
  revert acc. induction ds as [|E ds IH]; intros acc.
  { exists acc. split; [done|]. split; [|split].
    - intros p. split; [by left|]. intros [?|(E & i & j & f & Hin & _)]; [done|by apply not_elem_of_nil in Hin].
    - intros i j. split; [by left|]. intros [?|(E & Hin & _)]; [done|by apply not_elem_of_nil in Hin].
    - by left. }
  destruct (getTypeString_total (getPointerType (fn_type E.2))) as (sig & Hs).
  assert (∃ acc1, rewrite_decay ctx inFile acc E = Done acc1 ∧
    (∀ p, p ∈ acc1.1 ↔ p ∈ acc.1 ∨ ∃ i j f, decay_guard E i j f ∧ p = guard_range (getExprFullExpansionRange E.1) (fdg_name i j)) ∧
    (∀ i j, is_Some (acc1.2 !! (i, j)) ↔ is_Some (acc.2 !! (i, j)) ∨ decay_guard E i j inFile) ∧
    (∀ i j n, acc1.2 !! (i, j) = Some n → acc.2 !! (i, j) = Some n ∨ decay_guard E i j inFile ∧ n = fn_name E.2))
    as (acc1 & Hstep & P1 & P2 & P3).
  { clear IH. unfold rewrite_decay. rewrite Hs. cbn [mbind run_bind FDGIndexMap FDGInstanceInfoMaps rewrite_context].
    assert (∀ i j f, decay_guard E i j f ↔ fdg_entry stat i j sig (fn_begin E.2) f) as HE.
    { intros i j f. unfold decay_guard. rewrite Hs. split; [by intros (? & [= <-] & ?)|by exists sig]. }
    destruct (index_map (entries (functionDecayGuardStats stat)).*1 !! sig) as [i|] eqn:Hi.
    2: { exists acc. split; [done|]. assert (∀ i j f, ¬ decay_guard E i j f) as Hno.
         { intros i j f (locs & Hl & _)%HE. assert (index_map (entries (functionDecayGuardStats stat)).*1 !! sig = Some i); [|congruence].
           apply index_map_lookup; [apply entries_keys_NoDup|]. unfold fdgs in Hl. by rewrite list_lookup_fmap, Hl. }
         naive_solver. }
    apply index_map_lookup in Hi; [|apply entries_keys_NoDup]. rewrite list_lookup_fmap in Hi.
    destruct (entries (functionDecayGuardStats stat) !! i) as [[sig' locs]|] eqn:He; [|done]. injection Hi as ->.
    rewrite list_lookup_fmap, He. cbn [fmap option_fmap option_map defined mbind run_bind snd].
    destruct (instance_map locs !! fn_begin E.2) as [[j f]|] eqn:Hj.
    - apply instance_map_lookup in Hj. assert (decay_guard E i j f) as Hij by (apply HE; by exists locs).
      assert (∀ i' j' f', decay_guard E i' j' f' → i' = i ∧ j' = j ∧ f' = f) as Huniq.
      { intros i' j' f' H'%HE. apply HE in Hij. by eapply fdg_entry_inj. }
      eexists. split; [done|]. cbn [fst snd]. split; [|split].
      + intros p. rewrite elem_of_app, list_elem_of_singleton. f_equiv. split; [intros ->; by exists i, j, f|].
        by intros (i' & j' & f' & (-> & -> & _)%Huniq & ->).
      + intros i' j'. case_bool_decide as Hf; [subst f|].
        * destruct (acc.2 !! (i, j)) as [n|] eqn:Hn.
          -- split; [by left|]. intros [?|(-> & -> & _)%Huniq]; [done|]. rewrite Hn. by eexists.
          -- destruct (decide ((i', j') = (i, j))) as [[= -> ->]|Hne].
             ++ rewrite lookup_insert_eq. split; [by right|by eexists].
             ++ rewrite lookup_insert_ne by done. split; [by left|]. intros [?|(-> & -> & _)%Huniq]; done.
        * split; [by left|]. intros [?|(_ & _ & ?)%Huniq]; [done|congruence].
      + intros i' j' n. case_bool_decide as Hf; [subst f|by left]. destruct (acc.2 !! (i, j)) as [n'|] eqn:Hn; [by left|].
        intros [[[= <- <-] <-]|[_ ?]]%lookup_insert_Some; [by right|by left].
    - exists acc. split; [done|]. assert (∀ i j f, ¬ decay_guard E i j f) as Hno; [|naive_solver].
      intros i' j' f' (locs' & Hl & Hloc)%HE. assert (i' = i) as ->.
      { eapply (NoDup_lookup (fdgs stat).*1); [apply entries_keys_NoDup|by rewrite list_lookup_fmap, Hl|unfold fdgs; by rewrite list_lookup_fmap, He]. }
      unfold fdgs in Hl. rewrite He in Hl. injection Hl as <-. apply instance_map_lookup in Hloc. congruence. }
  cbn [run_fold]. rewrite Hstep. cbn [mbind run_bind]. destruct (IH acc1) as (acc' & Hrun & R1 & R2 & R3). exists acc'. split; [done|].
  split; [|split].
  - intros p. rewrite R1, P1. setoid_rewrite elem_of_cons. split.
    + intros [[?|(i & j & f & ? & ->)]|(E' & i & j & f & ? & ?)]; [by left|right; exists E, i, j, f; tauto|right; exists E', i, j, f; tauto].
    + intros [?|(E' & i & j & f & [->|?] & ? & ?)]; [left; by left|left; right; by exists i, j, f|right; by exists E', i, j, f].
  - intros i j. rewrite R2, P2. setoid_rewrite elem_of_cons. split.
    + intros [[?|?]|(E' & ? & ?)]; [by left|right; exists E; tauto|right; exists E'; tauto].
    + intros [?|(E' & [->|?] & ?)]; [left; by left|left; by right|right; by exists E'].
  - intros i j n Hn. setoid_rewrite elem_of_cons. destruct (R3 i j n Hn) as [Hn'|(E' & ? & ? & ?)]; [|right; exists E'; tauto].
    destruct (P3 i j n Hn') as [?|[? ?]]; [by left|right; exists E; tauto].
Qed.

(** What a file's rewriting collects. *)
Lemma rewrite_ranges_spec cs ds :
  Forall collected_call cs →
  ∃ l impls, rewrite_ranges ctx inFile (cs, ds) = Done (l, impls) ∧
    (∀ p, p ∈ l ↔ (∃ E i, E ∈ cs ∧ call_guard E i ∧ p = guard_range (getExprFullExpansionRange E.1.2) (ccg_name i)) ∨
       ∃ E i j f, E ∈ ds ∧ decay_guard E i j f ∧ p = guard_range (getExprFullExpansionRange E.1) (fdg_name i j)) ∧
    (∀ i j, is_Some (impls !! (i, j)) ↔ ∃ E, E ∈ ds ∧ decay_guard E i j inFile) ∧
    (∀ i j n, impls !! (i, j) = Some n → ∃ E, E ∈ ds ∧ decay_guard E i j inFile ∧ n = fn_name E.2).
Proof.
  intros Hcs. unfold rewrite_ranges. cbn [fst snd]. destruct (rewrite_calls_spec [] cs Hcs) as (l1 & Hrun1 & Hl1). rewrite Hrun1.
  cbn [mbind run_bind]. destruct (rewrite_decays_spec (l1, ∅) ds) as ([l impls] & Hrun2 & R1 & R2 & R3). cbn [fst snd] in *.
  exists l, impls. split; [done|]. split; [|split].
  - intros p. rewrite R1, Hl1, elem_of_nil. tauto.
  - intros i j. rewrite R2, lookup_empty. split; [intros [[? ?]|?]; done|by right].
  - intros i j n Hn. destruct (R3 i j n Hn) as [Hx|?]; [by rewrite lookup_empty in Hx|done].
Qed.
End ranges.

(** ** Every guard that is used is declared *)

Definition occurs (s t : str) : Prop := ∃ a b, t = a ++ s ++ b.

Lemma occurs_refl s : occurs s s.
Proof. exists [], []. by rewrite app_nil_r. Qed.
Lemma occurs_left s t u : occurs s t → occurs s (t ++ u).
Proof. intros (a & b & ->). exists a, (b ++ u). by rewrite <- !app_assoc. Qed.
Lemma occurs_right s t u : occurs s u → occurs s (t ++ u).
Proof. intros (a & b & ->). exists (t ++ a), b. by rewrite <- !app_assoc. Qed.
Lemma occurs_trans s t u : occurs s t → occurs t u → occurs s u.
Proof. intros (a & b & ->) (c & d & ->). exists (c ++ a), (b ++ d). by rewrite <- !app_assoc. Qed.

Lemma indexed_occurs {A} (f : nat → A → str) l i x : l !! i = Some x → occurs (f i x) (indexed f l).
Proof.
  revert f i. induction l as [|y l IH]; intros f i; [done|]. unfold indexed. rewrite imap_cons. cbn [concat].
  destruct i as [|i]; [intros [= ->]; apply occurs_left, occurs_refl|]. intros Hi. apply occurs_right, (IH (f ∘ S) i Hi).
Qed.

Section declared.
Context (stat : SourceStatistics) (resource : str).

(** The header's parts. *)
Lemma header_parts :
  ∃ a b c d, common_header stat resource =
    a ++ indexed (λ i _, ccg_decl i) (ccgs stat) ++ b ++ fdg_instances stat fdg_decl ++ c
    ++ indexed (λ i _, ccg_define i) (ccgs stat) ++ d ++ fdg_instances stat fdg_define.
Proof.
  exists ($"#pragma once" ++ [c_nl; c_nl] ++ c_str resource ++ [c_nl; c_nl]), [c_nl], [c_nl], [c_nl].
  unfold common_header. by rewrite <- !app_assoc.
Qed.

Lemma header_ccg i sig : ccgs stat !! i = Some sig → occurs (ccg_define i) (common_header stat resource).
Proof.
  intros Hi. destruct header_parts as (a & b & c & d & ->). do 5 apply occurs_right. apply occurs_left.
  by apply (indexed_occurs (λ i _, ccg_define i) _ _ sig).
Qed.

Lemma instances_occur f i j sig loc file : fdg_entry stat i j sig loc file → occurs (f i j) (fdg_instances stat f).
Proof.
  intros (locs & Hi & Hj). unfold fdg_instances. eapply occurs_trans; [|by eapply (indexed_occurs (λ i guard, indexed (λ j _, f i j) (entries guard.2)))].
  cbn [snd]. by eapply (indexed_occurs (λ j _, f i j)).
Qed.

Lemma header_fdg i j sig loc file :
  fdg_entry stat i j sig loc file →
  occurs (fdg_decl i j) (common_header stat resource) ∧ occurs (fdg_define i j) (common_header stat resource).
Proof.
  intros He. destruct header_parts as (a & b & c & d & ->). split.
  - do 3 apply occurs_right. apply occurs_left. by eapply instances_occur.
  - do 7 apply occurs_right. by eapply instances_occur.
Qed.

(** A range's texts are an invocation of a macro that the header defines. *)
Definition guard_defined (p : RangePacker) : Prop :=
  ∃ name replacement, textBefore p = name ++ $"(" ∧ textAfter p = $")" ∧
    occurs (line ($"#define " ++ name ++ $"(X) " ++ replacement)) (common_header stat resource).

Lemma ccg_defined i sig range : ccgs stat !! i = Some sig → guard_defined (guard_range range (ccg_name i)).
Proof.
  intros Hi. exists (ccg_name i), ($"LORE_CCG_GET(" ++ dec (i + 1) ++ $", (X))"). split; [done|]. split; [done|].
  apply header_ccg in Hi. unfold ccg_define, ccg_name in *. rewrite <- !app_assoc. exact Hi.
Qed.

Lemma fdg_defined i j sig loc file range : fdg_entry stat i j sig loc file → guard_defined (guard_range range (fdg_name i j)).
Proof.
  intros He. exists (fdg_name i j), ($"LORE_FDG_GET(" ++ dec (i + 1) ++ $", " ++ dec (j + 1) ++ $", (X))").
  split; [done|]. split; [done|]. apply header_fdg in He as [_ He]. unfold fdg_define, fdg_name in *. rewrite <- !app_assoc. exact He.
Qed.
End declared.

Lemma fdgImplText_empty impls : fdgImplText impls = [] ↔ impls = ∅.
Proof.
  unfold fdgImplText. split.
  - destruct (impl_entries impls) eqn:He; [|done]. intros _. apply map_to_list_empty_iff, Permutation_nil.
    rewrite <- He. apply (merge_sort_Permutation impl_le).
  - intros ->. done.
Qed.

Lemma collected_calls `{ClangAst} nodes cs ds :
  FunctionExprConsumer [] [] nodes = Done (cs, ds) →
  Forall collected_call cs ∧ ∀ E, E ∈ ds ↔ E.1 ∈ nodes ∧ collected_decay E.
Proof.
  intros Hrun. destruct (consumer_spec [] [] nodes) as (cs' & ds' & Hrun' & Hc & Hd). rewrite Hrun in Hrun'. injection Hrun' as <- <-.
  split; [apply Forall_forall; intros E [Hx|[_ ?]]%Hc; [by apply not_elem_of_nil in Hx|done]|].
  intros E. rewrite Hd, elem_of_nil. tauto.
Qed.

(** C38: a file is rewritten with guards that the common header defines, and the guards of
    functions that it implements are declared there; the text is the source with each kept
    range in its guard, then the implementations. *)
Theorem rewritten_file `{SourceManager} `{Rewriter} stat resource inFile base text nodes :
  CPlusPlus = false →
  ∃ fileData l impls, FunctionExprConsumer [] [] nodes = Done fileData ∧
    rewrite_ranges (rewrite_context stat) inFile fileData = Done (l, impls) ∧
    (∀ p, p ∈ l → guard_defined stat resource p) ∧
    (∀ i j name, impls !! (i, j) = Some name → occurs (fdg_decl i j) (common_header stat resource)) ∧
    (nested l → Forall (in_main base text) l →
     rewrite_EndSourceFileAction (rewrite_context stat) inFile base text fileData =
     Done (Some (if bool_decide (l = []) && bool_decide (impls = ∅) then []
                 else wrap_ranges base (packers l) 0 text ++ fdgImplText impls))).
Proof.
  intros Hc. destruct (consumer_spec [] [] nodes) as (cs & ds & Hrun & _ & _). destruct (collected_calls _ _ _ Hrun) as [Hcs _].
  destruct (rewrite_ranges_spec stat inFile cs ds Hcs) as (l & impls & Hr & Hl & _ & Hi).
  exists (cs, ds), l, impls. split; [done|]. split; [done|]. split; [|split].
  - intros p [(E & i & _ & (T & sig & _ & _ & Hsig) & ->)|(E & i & j & f & _ & (sig & _ & He) & ->)]%Hl;
      [by eapply ccg_defined|by eapply fdg_defined].
  - intros i j name (E & _ & (sig & _ & He) & _)%Hi. by eapply header_fdg.
  - intros Hn Hm. assert (Forall range_wf l) as Hwf by (eapply Forall_impl; [exact Hm|intros p (_ & ? & _); done]).
    destruct (packers_spec l Hn Hwf) as (Hs & _ & Hsub & Hcov).
    assert (Forall (in_main base text) (packers l)) as Hm' by (apply Forall_forall; intros p Hp; rewrite Forall_forall in Hm; by apply Hm, Hsub).
    assert (packers l = [] ↔ l = []) as Hempty.
    { split; [|by intros ->]. intros Hp. destruct l as [|p l]; [done|]. destruct (Hcov p ltac:(by left)) as (q & Hq & _).
      rewrite Hp in Hq. by apply not_elem_of_nil in Hq. }
    destruct (rewritten_text base text (packers l) (fdgImplText impls) Hs Hm') as [Htail Hplain].
    unfold rewrite_EndSourceFileAction. rewrite Hc, Hr. cbn [mbind run_bind fst snd].
    rewrite (bool_decide_ext (packers l = []) (l = [])) by done.
    rewrite (bool_decide_ext (fdgImplText impls = []) (impls = ∅)) by apply fdgImplText_empty.
    destruct (bool_decide (l = []) && bool_decide (impls = ∅)); [done|].
    case_bool_decide as Hi'; [|by rewrite Htail]. rewrite Hplain. subst impls. by rewrite app_nil_r.
Qed.

(** ** Each guard of a function is implemented at most once *)

Lemma fdg_entry_det stat i j sig loc f sig' loc' f' :
  fdg_entry stat i j sig loc f → fdg_entry stat i j sig' loc' f' → sig' = sig ∧ loc' = loc ∧ f' = f.
Proof. intros (locs & Hi & Hj) (locs' & Hi' & Hj'). rewrite Hi in Hi'. injection Hi' as <- <-. rewrite Hj in Hj'. by injection Hj' as <- <-. Qed.

(** C17: after the statistics of C files, each guard that is declared for a function is
    implemented by at most one file, whatever the rewriting then reads of the files, which
    [mark-macros] and [preprocess] change in between.  A file implements the guard exactly
    when it is the one recorded, the first that referred to the function without calling it,
    and what is read of it still holds such a reference to a function of that signature and
    of the recorded location.  The file has one when it is read as the statistics saw it; a
    guard whose location has moved is implemented by no file, although the common header
    declares it. *)
Theorem decay_guard_once `{SourceManager} requested units resource :
  CPlusPlus = false →
  ∃ stat, stat_run requested statistics_clear units = Done (Some stat) ∧
    ∀ i j sig loc f, fdg_entry stat i j sig loc f →
      f ∈ filesNeedPatch stat ∧ occurs (fdg_decl i j) (common_header stat resource) ∧
      (∃ nodes, (f, nodes) ∈ units ∧ decay_site requested nodes sig loc) ∧
      ∀ f' nodes', ∃ fileData l impls, FunctionExprConsumer [] [] nodes' = Done fileData ∧
        rewrite_ranges (rewrite_context stat) f' fileData = Done (l, impls) ∧
        (is_Some (impls !! (i, j)) ↔ f' = f ∧ decay_site requested nodes' sig loc).
Proof.
  intros Hc. destruct (stat_run_spec requested Hc units statistics_clear [] (counts_nil requested Hc)) as (stat & Hrun & Hcounts).
  rewrite app_nil_l in Hcounts. destruct Hcounts as [_ Hfiles _ Hdecays _]. exists stat. split; [done|].
  intros i j sig loc f He. assert (guard_location stat sig loc = Some f) as Hg by (apply fdg_entry_guard; by exists i, j).
  apply Hdecays in Hg as (pre & nodes0 & post & Hunits & Hsite & _).
  assert ((f, nodes0) ∈ units) as Hin by (rewrite Hunits; apply elem_of_app; right; by left).
  split; [apply Hfiles; exists nodes0; split; [done|]; exists sig; right; by exists loc|].
  split; [by apply (header_fdg stat resource i j sig loc f)|]. split; [by exists nodes0|].
  intros f' nodes'. destruct (consumer_spec [] [] nodes') as (cs & ds & Hcons & _ & _).
  destruct (collected_calls _ _ _ Hcons) as [Hcs Hds].
  destruct (rewrite_ranges_spec stat f' cs ds Hcs) as (l & impls & Hr & _ & Hi & _).
  exists (cs, ds), l, impls. split; [done|]. split; [done|]. rewrite Hi. split.
  - intros (E & [HE Hcol]%Hds & sig' & Hsig & He').
    destruct (fdg_entry_det _ _ _ _ _ _ _ _ _ He He') as (-> & Hloc & ->). split; [done|].
    destruct Hsite as (_ & _ & _ & Hreq & _). by exists E.
  - intros [-> (E & HE & Hcol & _ & Hsig & Hloc)]. exists E. split; [by apply Hds|]. exists sig. split; [done|].
    by rewrite Hloc.
Qed.

(** ** What a batch leaves *)

Section batch_spec.
Abbreviation Files := (gmap str str).
Context (runSubCommand : str → str → Files → Files * option str).
Context (initialCwd outputDir : str) (relative : str → str → str) (warning : str → str) (resource : str).
(** A command writes its own file only. *)
Context (own_file : ∀ command file files g, g ≠ file → (runSubCommand command file files).1 !! g = files !! g).
Abbreviation normal := (normalized initialCwd).
Abbreviation inclusion := (include_line initialCwd outputDir relative).
Abbreviation loop := (batch_loop runSubCommand initialCwd outputDir relative warning).

Lemma run_commands_own file files g : g ≠ file → (run_commands runSubCommand file files).1 !! g = files !! g.
Proof using own_file.
  intros Hne. unfold run_commands. pose proof (own_file ($"mark-macros") file files g Hne) as Hmark.
  destruct (runSubCommand ($"mark-macros") file files) as [f1 [e|]]; [done|].
  pose proof (own_file ($"preprocess") file f1 g Hne) as Hpre.
  destruct (runSubCommand ($"preprocess") file f1) as [f2 [e|]]; cbn [fst] in *; [by rewrite Hpre|].
  by rewrite (own_file ($"rewrite") file f2 g Hne), Hpre.
Qed.

(** What becomes of a file that the commands succeed on: they may see the other files as
    they are then. *)
Definition patched (g before after : str) : Prop :=
  ∃ files files' content, files !! g = Some before ∧ run_commands runSubCommand g files = (files', None) ∧
    files' !! g = Some content ∧
    after = if content =s? before then before
            else warning g ++ [c_nl; c_nl] ++ inclusion g ($"/LoreFileContext.h") ++ content.

Lemma batch_file_spec needed st file st' :
  batch_file runSubCommand initialCwd outputDir relative warning needed st file = (st', None) →
  (∀ g, g ≠ file → batch_files st' !! g = batch_files st !! g) ∧
  (normal file ∉ needed → st' = st) ∧
  (normal file ∈ needed → ∃ before after,
     batch_files st !! file = Some before ∧ batch_files st' !! file = Some after ∧ patched file before after) ∧
  (fileContextEntrySource st' = fileContextEntrySource st ∧ batch_files st' !! file = batch_files st !! file ∨
   normal file ∈ needed ∧ fileContextEntrySource st' = match fileContextEntrySource st with None => Some file | e => e end).
Proof using own_file.
  unfold batch_file. case_bool_decide as Hn; cbn [negb].
  2: { intros [= <-]. split; [done|]. split; [done|]. split; [done|]. by left. }
  destruct (batch_files st !! file) as [before|] eqn:Hb; [|done].
  pose proof (λ g, run_commands_own file (batch_files st) g) as Hown.
  destruct (run_commands runSubCommand file (batch_files st)) as [files [e|]] eqn:Hr; [done|]. cbn [fst] in Hown.
  destruct (files !! file) as [content|] eqn:Hc; [|done].
  case_bool_decide as Heq.
  - intros [= <-]. cbn [batch_files fileContextEntrySource]. split; [done|]. split; [done|]. split.
    + intros _. exists before, content. split; [done|]. split; [done|]. exists (batch_files st), files, content.
      split; [done|]. split; [done|]. split; [done|]. by rewrite bool_decide_true.
    + left. split; [done|]. by rewrite Hc, Heq.
  - unfold adjustContent. rewrite Hc. intros [= <-]. cbn [batch_files fileContextEntrySource]. split; [|split; [|split]].
    + intros g Hg. rewrite lookup_insert_ne by done. by apply Hown.
    + done.
    + intros _. eexists before, _. split; [done|]. split; [by rewrite lookup_insert_eq|]. exists (batch_files st), files, content.
      split; [done|]. split; [done|]. split; [done|]. by rewrite bool_decide_false.
    + by right.
Qed.

Lemma batch_loop_spec needed sources st st' :
  NoDup sources → loop needed st sources = (st', None) →
  (∀ g, g ∉ sources ∨ normal g ∉ needed → batch_files st' !! g = batch_files st !! g) ∧
  (∀ g, g ∈ sources → normal g ∈ needed → ∃ before after,
     batch_files st !! g = Some before ∧ batch_files st' !! g = Some after ∧ patched g before after) ∧
  (fileContextEntrySource st' = fileContextEntrySource st ∧ (∀ g, batch_files st' !! g = batch_files st !! g) ∨
   ∃ e, fileContextEntrySource st' = Some e ∧ (fileContextEntrySource st = Some e ∨ e ∈ sources ∧ normal e ∈ needed)).
Proof using own_file.
  intros Hnd. revert st. induction Hnd as [|file sources Hfile Hnd IH]; intros st; cbn [batch_loop].
  { intros [= <-]. split; [done|]. split; [intros g Hg; by apply not_elem_of_nil in Hg|]. by left. }
  destruct (batch_file _ _ _ _ _ needed st file) as [st1 [e|]] eqn:Hf; [done|]. intros Hrun.
  apply batch_file_spec in Hf as (Hother & Hsame & Hpatch & Hentry). destruct (IH st1 Hrun) as (R1 & R2 & R3). clear IH.
  split; [|split].
  - intros g Hg. destruct (decide (g = file)) as [->|Hne].
    + destruct Hg as [Hg|Hg]; [destruct Hg; by left|]. rewrite R1 by (by left). by rewrite (Hsame Hg).
    + rewrite R1, Hother; [done|done|]. destruct Hg as [Hg|Hg]; [left; intros Hin; apply Hg; by right|by right].
  - intros g [->|Hg]%elem_of_cons Hn.
    + destruct (Hpatch Hn) as (before & after & Hb & Ha & Hp). exists before, after. split; [done|]. split; [|done].
      by rewrite R1 by (by left).
    + destruct (R2 g Hg Hn) as (before & after & Hb & Ha & Hp). exists before, after. split; [|done].
      rewrite <- Hb. symmetry. apply Hother. by intros ->.
  - destruct Hentry as [[Hentry Hfilesame]|[Hn Hentry]].
    + destruct R3 as [[He Hall]|(e & He & [He'|[Hin Hn]])].
      * left. rewrite He, Hentry. split; [done|]. intros g. rewrite Hall. destruct (decide (g = file)) as [->|Hne]; [done|by apply Hother].
      * right. exists e. rewrite He, <- Hentry. by split; [|left].
      * right. exists e. split; [done|]. right. split; [by right|done].
    + right. destruct R3 as [[He _]|(e & He & Hcases)].
      * rewrite Hentry in He. destruct (fileContextEntrySource st) as [e|]; [exists e; by split; [|left]|].
        exists file. split; [done|]. right. split; [by left|done].
      * exists e. split; [done|]. destruct Hcases as [He'|[Hin Hn']]; [|right; split; [by right|done]].
        rewrite Hentry in He'. destruct (fileContextEntrySource st) as [e'|]; [left; by rewrite <- He'|].
        injection He' as <-. right. split; [by left|done].
Qed.

Lemma batch_run_exact stat sources files files' :
  NoDup sources →
  batch_run runSubCommand initialCwd outputDir relative warning resource stat sources files = (files', None) →
  let needed := list_to_set (normal <$> set_entries (filesNeedPatch stat)) in
  ∃ sources_done,
    (∀ g, g ∉ sources ∨ normal g ∉ (needed : gset str) → sources_done !! g = files !! g) ∧
    (∀ g, g ∈ sources → normal g ∈ (needed : gset str) → ∃ before after,
       files !! g = Some before ∧ sources_done !! g = Some after ∧ patched g before after) ∧
    ((∀ g, sources_done !! g = files !! g) ∧ files' = sources_done ∨
     ∃ entry, entry ∈ sources ∧ normal entry ∈ (needed : gset str) ∧
       let all := <[outputSingleSource outputDir := single_source stat]>
                    (<[outputCommonHeader outputDir := common_header stat resource]> sources_done) in
       files' = <[entry := default [] (all !! entry) ++ [c_nl] ++ inclusion entry ($"/LoreFileContext.c")]> all).
Proof using own_file.
  intros Hnd. unfold batch_run. set (needed := list_to_set _).
  destruct (loop needed (MkBatch files None) sources) as [st [e|]] eqn:Hloop; [done|].
  destruct (batch_loop_spec _ _ _ _ Hnd Hloop) as (R1 & R2 & R3). cbn [batch_files fileContextEntrySource] in *.
  intros Hrun. exists (batch_files st). split; [done|]. split; [done|].
  destruct R3 as [[He Hall]|(e & He & [?|[Hin Hn]])]; [left|done|right]; rewrite He in Hrun; injection Hrun as <-; [done|].
  exists e. done.
Qed.
(** A batch that succeeds changes, of distinct sources, those of the statistics only:
    each is what the commands make of it, under the warning and the inclusion of the common
    header if they changed it.  Nothing else is written if no source changed; otherwise the
    header and the single source are, and one changed source includes the latter. *)
Theorem batch_exact stat sources files files' :
  NoDup sources →
  batch_run runSubCommand initialCwd outputDir relative warning resource stat sources files = (files', None) →
  let needed := list_to_set (normal <$> set_entries (filesNeedPatch stat)) in
  ∃ sources_done,
    (∀ g, g ∉ sources ∨ normal g ∉ (needed : gset str) → sources_done !! g = files !! g) ∧
    (∀ g, g ∈ sources → normal g ∈ (needed : gset str) → ∃ before after,
       files !! g = Some before ∧ sources_done !! g = Some after ∧ patched g before after) ∧
    ((∀ g, sources_done !! g = files !! g) ∧ files' = sources_done ∨
     ∃ entry, entry ∈ sources ∧ normal entry ∈ (needed : gset str) ∧
       let all := <[outputSingleSource outputDir := single_source stat]>
                    (<[outputCommonHeader outputDir := common_header stat resource]> sources_done) in
       files' = <[entry := default [] (all !! entry) ++ [c_nl] ++ inclusion entry ($"/LoreFileContext.c")]> all).
Proof using own_file. apply batch_run_exact. Qed.
End batch_spec.

(** ** An example: the statistics and the sources of [SourceStatistics] *)

Definition h_context : RewriteContext := rewrite_context h_stat.

Example h_rewrite_ranges :
  @rewrite_ranges h_clang h_ast h_source h_context ($"a.c") h_data =
    Done ([guard_range (100, 110) ($"LORE_CCG_1"); guard_range (100, 110) ($"LORE_FDG_1_1")], {[(0, 0) := $"handler"]}).
Proof. vm_compute. reflexivity. Qed.

Example h_rewrite :
  @rewrite_EndSourceFileAction h_clang h_ast h_source h_context ($"a.c") plain_rewriter 100 h_text h_data =
  Done (Some ($"LORE_CCG_1(CB_CALL(h)); z" ++ [c_nl] ++ $"LORE_FDG_IMPL(1, 1, handler)" ++ [c_nl; c_nl])).
Proof. vm_compute. reflexivity. Qed.

Lemma rewritten_file_witness :
  ∃ fileData l impls, @FunctionExprConsumer h_clang h_ast [] [] h_nodes = Done fileData ∧
    @rewrite_ranges h_clang h_ast h_source h_context ($"a.c") fileData = Done (l, impls) ∧
    (∀ p, p ∈ l → guard_defined h_stat ($"// guards") p).
Proof.
  destruct (@rewritten_file h_clang h_ast h_source plain_rewriter h_stat ($"// guards") ($"a.c") 100 h_text h_nodes eq_refl)
    as (fd & l & impls & H1 & H2 & H3 & _).
  exists fd, l, impls. exact (conj H1 (conj H2 H3)).
Defined.

Definition h_counted : SourceStatistics :=
  MkStatistics {[$"a.c"; $"b.c"]} {[h_signature]} {[h_signature := {[$"handler.h:1:1" := $"a.c"]}]}.

Lemma h_entry : fdg_entry h_counted 0 0 h_signature ($"handler.h:1:1") ($"a.c").
Proof.
  exists {[$"handler.h:1:1" := $"a.c"]}.
  assert (bool_decide (fdgs h_counted !! 0 = Some (h_signature, {[$"handler.h:1:1" := $"a.c"]})) = true) as H1 by (vm_compute; reflexivity).
  assert (bool_decide (entries ({[$"handler.h:1:1" := $"a.c"]} : gmap str str) !! 0 = Some ($"handler.h:1:1", $"a.c")) = true) as H2
    by (vm_compute; reflexivity).
  exact (conj (bool_decide_eq_true_1 _ H1) (bool_decide_eq_true_1 _ H2)).
Qed.

(** [a.c] implements the guard while it refers to [handler], and not when what is read of it
    does not any more; [b.c] never does. *)
Lemma h_handler_site : @decay_site h_clang h_ast {[h_signature]} h_nodes h_signature ($"handler.h:1:1").
Proof.
  assert (@FunctionExprConsumer h_clang h_ast [] [] h_nodes = Done h_data) as Hrun by (vm_compute; reflexivity).
  destruct (collected_calls _ _ _ Hrun) as [_ Hds]. exists (5, h_handler).
  assert ((5, h_handler) ∈ h_data.2) as [Hin Hcol]%Hds by by left.
  split; [exact Hin|]. split; [exact Hcol|]. split; [by apply elem_of_singleton|]. split; reflexivity.
Qed.

Lemma decay_guard_once_witness :
  ∃ stat, @stat_run h_clang h_ast {[h_signature]} statistics_clear h_units = Done (Some stat) ∧
    fdg_entry stat 0 0 h_signature ($"handler.h:1:1") ($"a.c") ∧
    ∀ file nodes fileData l impls, @FunctionExprConsumer h_clang h_ast [] [] nodes = Done fileData →
      @rewrite_ranges h_clang h_ast h_source (rewrite_context stat) file fileData = Done (l, impls) →
      (file = $"a.c" → nodes = h_nodes → is_Some (impls !! (0, 0))) ∧
      (file = $"a.c" → nodes = [0] → impls !! (0, 0) = None) ∧
      (file = $"b.c" → impls !! (0, 0) = None).
Proof.
  destruct (@decay_guard_once h_clang h_ast h_source {[h_signature]} h_units ($"// guards") eq_refl) as (stat & Hrun & Hall).
  assert (fdg_entry stat 0 0 h_signature ($"handler.h:1:1") ($"a.c")) as He.
  { rewrite h_statistics in Hrun. injection Hrun as <-. exact h_entry. }
  exists stat. split; [exact Hrun|]. split; [exact He|]. intros file nodes fileData l impls Hc Hr.
  destruct (Hall 0 0 h_signature ($"handler.h:1:1") ($"a.c") He) as (_ & _ & _ & Hfiles).
  destruct (Hfiles file nodes) as (fd & l' & impls' & Hc' & Hr' & Hiff).
  rewrite Hc in Hc'. injection Hc' as <-. rewrite Hr in Hr'. injection Hr' as <- <-. split; [|split].
  - intros -> ->. apply Hiff. split; [reflexivity|exact h_handler_site].
  - intros _ ->. apply eq_None_not_Some. intros [_ (E & HE & [Hk _] & _)]%Hiff.
    apply list_elem_of_singleton in HE. rewrite HE in Hk. discriminate Hk.
  - intros ->. apply eq_None_not_Some. intros [Hx _]%Hiff. discriminate Hx.
Defined.

(** Commands that put a mark before the text when they rewrite. *)
Definition h_run (command file : str) (files : gmap str str) : gmap str str * option str :=
  match files !! file with
  | Some content => (if command =s? $"rewrite" then <[file := $"guarded " ++ content]> files else files, None)
  | None => (files, Some ($"no such file"))
  end.
Definition h_files : gmap str str := {[$"a.c" := $"int a;"; $"b.c" := $"int b;"]}.
Definition h_batch (sources : list str) : gmap str str * option str :=
  batch_run h_run ($"/p") ($"/p/out") (λ _ _, $"out") (λ f, $"// " ++ f) ($"// guards")
    (MkStatistics {[$"a.c"]} ∅ ∅) sources h_files.

Lemma h_run_own command file files g : g ≠ file → (h_run command file files).1 !! g = files !! g.
Proof.
  intros Hne. unfold h_run. destruct (files !! file); [|done]. case_bool_decide; [|done]. cbn [fst]. by rewrite lookup_insert_ne.
Qed.

Example h_batch_files :
  (h_batch [$"a.c"; $"b.c"]).2 = None ∧ (h_batch [$"a.c"; $"b.c"]).1 !! $"b.c" = Some ($"int b;") ∧
  (h_batch [$"a.c"; $"b.c"]).1 !! $"a.c" =
    Some ($"// a.c" ++ [c_nl; c_nl] ++ $"#include " ++ [c_dquote] ++ $"out/LoreFileContext.h" ++ [c_dquote; c_nl]
          ++ $"guarded int a;" ++ [c_nl] ++ $"#include " ++ [c_dquote] ++ $"out/LoreFileContext.c" ++ [c_dquote; c_nl]) ∧
  (h_batch [$"b.c"]).1 = h_files ∧ (h_batch [$"c.c"]).2 = None.
Proof. repeat split; vm_compute; reflexivity. Qed.

Lemma pair_none {A B} (x : A * option B) : x.2 = None → x = (x.1, None).
Proof. by destruct x as [? [?|]]. Qed.

Lemma batch_exact_witness :
  ∃ sources_done : gmap str str, ∀ g, g ∉ [$"a.c"; $"b.c"] ∨ g = $"b.c" → sources_done !! g = h_files !! g.
Proof.
  destruct (batch_exact h_run ($"/p") ($"/p/out") (λ _ _, $"out") (λ f, $"// " ++ f) ($"// guards") h_run_own
    (MkStatistics {[$"a.c"]} ∅ ∅) [$"a.c"; $"b.c"] h_files (h_batch [$"a.c"; $"b.c"]).1) as (done_ & Hsame & _).
  - apply (bool_decide_unpack _). vm_compute. exact I.
  - exact (pair_none _ (proj1 h_batch_files)).
  - exists done_. intros g [Hg|Hg]; apply Hsame; [left; exact Hg|right]. subst g.
    apply (bool_decide_unpack _). vm_compute. exact I.
Defined.
