(* ===== verification/ToolMain.v ===== *)
(** The command-line tools: [src/utils/ToolMain/main.cpp.inc], the tables of commands of
    [src/tools/TLC/main.cpp] and [src/tools/HLR/main.cpp], and what the [main] functions of
    the commands share: an output file, and a run of Clang's tool.

    A command is a function on a [World]: the files by name and what was printed.  LLVM's
    parser of options and Clang's tool are parameters of the commands. *)

From stdpp Require Import gmap.
From S2P Require Import Prelude CppString FsPath.

Record World : Type := MkWorld { w_files : gmap str str; w_stdout : str }.

Definition set_file (w : World) (path text : str) : World := MkWorld (<[path := text]> (w_files w)) (w_stdout w).
Definition print_out (w : World) (text : str) : World := MkWorld (w_files w) (w_stdout w ++ text).

(** A command's end: the world and the exit code. *)
Abbreviation outcome := (World * Z)%type.

(** A world changed at the file [path] at most, and not at all by a failure. *)
Definition own_change (path : str) (w : World) (r : outcome) : Prop :=
  (∀ g, g ≠ path → w_files r.1 !! g = w_files w !! g) ∧ (r.2 ≠ 0%Z → r.1 = w).

Lemma own_refl path w code : own_change path w (w, code).
Proof. by split. Qed.

(** ** The output of a command *)

Section output.
(** Whether [raw_fd_ostream] can open a file for writing; it always can open ["-"]. *)
Variable can_open : str → bool.

(** [raw_fd_ostream out(outputPath.empty() ? "-" : outputPath, ec)] and [out << text]. *)
Definition write_output (w : World) (outputPath text : str) : outcome :=
  let path := match outputPath with [] => $"-" | _ => outputPath end in
  if path =s? $"-" then (print_out w text, 0)%Z
  else if can_open path then (set_file w path text, 0)%Z
  else (w, 1)%Z.

(** Only the file named is written, and a failure writes nothing. *)
Lemma write_output_own w outputPath text g :
  g ≠ outputPath → w_files (write_output w outputPath text).1 !! g = w_files w !! g.
Proof.
  intros Hg. unfold write_output. destruct outputPath as [|c p]; [done|].
  case_bool_decide; [done|]. destruct (can_open _); [|done]. simpl. by apply lookup_insert_ne.
Qed.

Lemma write_output_fails w outputPath text w' code :
  write_output w outputPath text = (w', code) → code ≠ 0%Z → w' = w.
Proof. unfold write_output. repeat case_match; naive_solver. Qed.

Lemma write_output_done w outputPath text w' :
  write_output w outputPath text = (w', 0)%Z →
  if bool_decide (outputPath = [] ∨ outputPath = $"-") then w' = print_out w text else w' = set_file w outputPath text.
Proof.
  unfold write_output. intros H. destruct outputPath as [|c p].
  - rewrite bool_decide_true by (by left). rewrite bool_decide_true in H by done. by injection H as <-.
  - destruct (decide (c :: p = $"-")) as [Heq|Hne].
    + rewrite bool_decide_true by (by right). rewrite bool_decide_true in H by done. by injection H as <-.
    + rewrite bool_decide_false by (by intros [?|?]). rewrite bool_decide_false in H by done.
      destruct (can_open (c :: p)); [|done]. by injection H as <-.
Qed.

Lemma write_output_change path w text : own_change path w (write_output w path text).
Proof.
  split; [intros g; apply write_output_own|]. intros Hc.
  destruct (write_output w path text) as [w' code] eqn:E. by apply (write_output_fails _ _ _ _ _ E).
Qed.
End output.

(** ** A run of Clang's tool

    [ClangTool::run] parses the sources it finds commands for, in order, and gives each to
    the command's action; its result is 0 when all of them went through without an error,
    1 when there was an error, and 2 when only sources were skipped. *)

Record ToolRun (unit : Type) : Type := MkToolRun { tool_units : list unit; tool_ret : Z }.
Arguments MkToolRun {unit} _ _.
Arguments tool_units {unit} _.
Arguments tool_ret {unit} _.

(** The actions on the units that were parsed; [None] when one ends the process. *)
Fixpoint run_units {U S : Type} (action : S → U → run (option S)) (s : S) (units : list U) : run (option S) :=
  match units with
  | [] => Done (Some s)
  | u :: units =>
      r ← action s u;
      match r with None => Done None | Some s => run_units action s units end
  end.

Lemma run_units_ind {U S} (action : S → U → run (option S)) (P : S → Prop) units : ∀ s s',
  P s → (∀ u s s', P s → action s u = Done (Some s') → P s') →
  run_units action s units = Done (Some s') → P s'.
Proof.
  induction units as [|u units IH]; intros s s' Hs Hstep H; simpl in H; [by injection H as <-|].
  destruct (action s u) as [[s1|]| |] eqn:E; simpl in H; try done. eapply (IH s1); [|done..]. by eapply Hstep.
Qed.

(** ** The entry point *)

Record Command : Type := MkCommand {
  cmd_name : str;
  cmd_main : list str → World → run outcome;
  cmd_help : str
}.

(** [printf]'s [%-15s]. *)
Definition pad15 (s : str) : str := s ++ List.repeat " "%char (15 - length s).
Definition help_row (name text : str) : str := $"    " ++ pad15 name ++ $"    " ++ text ++ [c_nl].

Section entry.
(** The stem of the executable's path, which LLVM finds by [argv[0]]. *)
Variable app_name : str → str.
Variables (description version : str).

Definition help_text (argv0 : str) (rows : list (str * str)) : str :=
  $"Usage: " ++ app_name argv0 ++ $" <command> [args...]" ++ [c_nl] ++ description ++ [c_nl; c_nl]
  ++ $"Commands:" ++ [c_nl] ++ concat ((λ r, help_row r.1 r.2) <$> rows) ++ [c_nl]
  ++ $"Options:" ++ [c_nl]
  ++ help_row ($"--version, -v") ($"Show version information")
  ++ help_row ($"--help, -h") ($"Show this help message").

Definition help_main (rows : list (str * str)) (argv : list str) (w : World) : run outcome :=
  match argv with
  | [] => Undef
  | argv0 :: _ => Done (print_out w (help_text argv0 rows), 0%Z)
  end.

(** The table [commands], whose last entry is [help]. *)
Definition help_name : str := $"help".
Definition help_help : str := $"Show this help message".
Definition table_rows (cmds : list Command) : list (str * str) :=
  ((λ c, (cmd_name c, cmd_help c)) <$> cmds) ++ [(help_name, help_help)].
Definition command_table (cmds : list Command) : list Command :=
  cmds ++ [MkCommand help_name (help_main (table_rows cmds)) help_help].

Fixpoint find_command (table : list Command) (name : str) : option Command :=
  match table with
  | [] => None
  | c :: table => if name =s? cmd_name c then Some c else find_command table name
  end.

(** [main]. *)
Definition tool_main (cmds : list Command) (argv : list str) (w : World) : run outcome :=
  let rows := table_rows cmds in
  match argv with
  | argv0 :: arg :: rest =>
      if (arg =s? $"--help") || (arg =s? $"-h") then help_main rows argv w
      else if (arg =s? $"--version") || (arg =s? $"-v") then Done (print_out w (version ++ [c_nl]), 0%Z)
      else
        match find_command (command_table cmds) arg with
        | Some c => cmd_main c ((app_name argv0 ++ $" " ++ cmd_name c) :: rest) w
        | None => Done (print_out w ($"Unknown command: " ++ arg ++ [c_nl]), 1%Z)
        end
  | _ => help_main rows argv w
  end.

(** Only commands of the table are found, by their name. *)
Lemma find_command_spec table name c : find_command table name = Some c → cmd_name c = name ∧ c ∈ table.
Proof.
  induction table as [|d table IH]; [done|]. simpl. case_bool_decide as Hn.
  - intros [= <-]. split; [done|by left].
  - intros [Hc Hin]%IH. split; [done|by right].
Qed.

Lemma find_command_in table c :
  NoDup (cmd_name <$> table) → c ∈ table → find_command table (cmd_name c) = Some c.
Proof.
  induction table as [|d table IH]; intros Hnd Hc; [by apply not_elem_of_nil in Hc|].
  rewrite fmap_cons in Hnd. apply NoDup_cons in Hnd as [Hd Hnd]. simpl.
  apply elem_of_cons in Hc as [->|Hc]; [by rewrite bool_decide_true|].
  rewrite bool_decide_false; [by apply IH|]. intros Heq. apply Hd. rewrite <- Heq. by apply list_elem_of_fmap_2.
Qed.

Lemma find_command_none table name : name ∉ cmd_name <$> table → find_command table name = None.
Proof.
  induction table as [|d table IH]; [done|]. rewrite fmap_cons, not_elem_of_cons. intros [Hd Hn]. simpl.
  rewrite bool_decide_false by done. by apply IH.
Qed.

(** The words that are not taken for names. *)
Definition tool_options : list str := [$"--help"; $"-h"; $"--version"; $"-v"].

Lemma not_tool_option arg :
  arg ∉ tool_options →
  (arg =s? $"--help") || (arg =s? $"-h") = false ∧ (arg =s? $"--version") || (arg =s? $"-v") = false.
Proof.
  unfold tool_options. rewrite !not_elem_of_cons. intros (H1 & H2 & H3 & H4 & _).
  by rewrite !bool_decide_false.
Qed.

Lemma table_names cmds : cmd_name <$> command_table cmds = (cmd_name <$> cmds) ++ [help_name].
Proof. unfold command_table. by rewrite fmap_app. Qed.

(** Each command of a table of distinct names is run by its name, on the arguments that
    follow, behind the tool's and the command's name; any other word that is no option is
    refused, and without a word, or with one that asks for it, the help is printed. *)
Lemma tool_main_dispatch cmds :
  NoDup (help_name :: (cmd_name <$> cmds)) → Forall (.∉ tool_options) (cmd_name <$> cmds) →
  (∀ c argv0 rest w, c ∈ cmds →
     tool_main cmds (argv0 :: cmd_name c :: rest) w = cmd_main c ((app_name argv0 ++ $" " ++ cmd_name c) :: rest) w) ∧
  (∀ argv0 arg rest w, arg ∉ tool_options → arg ∉ help_name :: (cmd_name <$> cmds) →
     tool_main cmds (argv0 :: arg :: rest) w = Done (print_out w ($"Unknown command: " ++ arg ++ [c_nl]), 1%Z)) ∧
  (∀ argv0 args w, match args with [] => True | arg :: _ => arg ∈ [$"--help"; $"-h"; help_name] end →
     ∃ a, tool_main cmds (argv0 :: args) w = Done (print_out w (help_text a (table_rows cmds)), 0%Z)).
Proof.
  intros [Hhelp Hnd]%NoDup_cons Hopt.
  assert (NoDup (cmd_name <$> command_table cmds)) as Hndt by (rewrite table_names; by apply NoDup_snoc).
  split_and!.
  - intros c argv0 rest w Hc. rewrite Forall_forall in Hopt.
    destruct (not_tool_option (cmd_name c)) as [H1 H2]; [apply Hopt; by apply list_elem_of_fmap_2|].
    unfold tool_main. rewrite H1, H2, find_command_in; [done|done|]. apply elem_of_app. by left.
  - intros argv0 arg rest w Ha [Hne Hn]%not_elem_of_cons. destruct (not_tool_option arg Ha) as [H1 H2].
    unfold tool_main. rewrite H1, H2, find_command_none; [done|]. rewrite table_names, not_elem_of_app.
    split; [done|]. by intros ->%list_elem_of_singleton.
  - intros argv0 [|arg rest] w Ha; [by exists argv0|].
    rewrite !elem_of_cons in Ha. destruct Ha as [->|[->|[->|Ha]]]; [by exists argv0..| |by apply not_elem_of_nil in Ha].
    exists (app_name argv0 ++ $" " ++ help_name). unfold tool_main.
    destruct (not_tool_option help_name) as [H1 H2]; [apply (bool_decide_unpack _); vm_compute; exact I|].
    rewrite H1, H2.
    pose proof (find_command_in (command_table cmds) (MkCommand help_name (help_main (table_rows cmds)) help_help) Hndt)
      as Hfind. cbn [cmd_name] in Hfind. rewrite Hfind; [done|]. apply elem_of_app. right. by left.
Qed.

(** What a run of the tool is: a run of one of its commands, or something printed. *)
Lemma tool_main_cases cmds argv w r :
  tool_main cmds argv w = Done r →
  (∃ c argv0 rest, c ∈ cmds ∧ argv = argv0 :: cmd_name c :: rest ∧
     cmd_main c ((app_name argv0 ++ $" " ++ cmd_name c) :: rest) w = Done r) ∨
  w_files r.1 = w_files w.
Proof.
  unfold tool_main. destruct argv as [|argv0 [|arg rest]]; [done|intros [= <-]; by right|].
  destruct (_ || _); [intros [= <-]; by right|]. destruct (_ || _); [intros [= <-]; by right|].
  destruct (find_command _ arg) as [c|] eqn:Hf; [|intros [= <-]; by right].
  apply find_command_spec in Hf as [<- Hc]. intros Hr.
  unfold command_table in Hc. apply elem_of_app in Hc as [Hc|Hc]; [left; by exists c, argv0, rest|]. apply list_elem_of_singleton in Hc as ->.
  right. injection Hr as <-. done.
Qed.
End entry.
