(* ===== verification/CompilerCommands.v ===== *)
(** The commands of the thunk compiler: the [main] functions of [src/tools/TLC/Commands] and
    the front-end actions that Clang's tool runs for them.

    Each is a function on the files ([ToolMain]).  [stat] and [dump] read the configuration
    and go through the sources; [generate] reads what [stat] saved and runs the document and
    its passes on the bridge.  The theorems say when a command writes, what it writes, and
    that it writes nothing else. *)

From stdpp Require Import gmap.
From S2P Require Import Prelude CppString FsPath ConfigFile Json ManifestSummary PassScheduler ClangExtras Document.
From S2P Require Import CallbackTree StatCommand GenerateCommand DumpCommand ToolMain.

(** ** Options and the configuration *)

(** The values of the options; a command reads those it declares. *)
Record TlcOptions : Type := MkTlcOptions {
  tlc_config : str;
  tlc_output : str;
  tlc_build : str;
  tlc_stat : str;
  tlc_mode : Mode;
  tlc_sources : list str
}.

(** The configuration is read from the files; the fuel is for nested inclusions. *)
Definition load_config (fuel : nat) (w : World) (path : str) : run (option ConfigFile) :=
  r ← load (λ p, bool_decide (is_Some (w_files w !! p))) (λ p, w_files w !! p) fuel ConfigFile_new path;
  Done (if success r.2 then Some r.1 else None).

Definition read_world (w : World) (path : str) : str + str :=
  match w_files w !! path with Some text => inr text | None => inl ($"Cannot open file") end.

(** ** [stat] *)

Section stat_command.
Context `{ClangUnit}.
Variable options : list str → option TlcOptions.
Variable config_fuel : nat.
Variable clang_tool : list str → gmap str str → ToolRun (list StatNode).
Variable print_json : Json → str.
Variable can_open : str → bool.

Definition tlc_stat_action (config : ConfigFile) (s : ManifestSummary) (nodes : list StatNode) : run (option ManifestSummary) :=
  s ← stat_HandleTranslationUnit config nodes s; Done (Some s).

Definition tlc_stat_save (w : World) (path : str) (s : ManifestSummary) : outcome :=
  let path := match path with [] => $"-" | _ => path end in
  match saveAsJson print_json (λ p, if (p =s? $"-") || can_open p then None else Some ($"cannot open")) (λ _, false) path s with
  | (true, _, Some text) => write_output can_open w path text
  | _ => (w, 1%Z)
  end.

Definition tlc_stat_main (argv : list str) (w : World) : run outcome :=
  match options argv with
  | None => Done (w, 0%Z)
  | Some o =>
      let s := MkSummary (default [] (head (tlc_sources o))) (∅, ∅) (∅, ∅) ∅ in
      config ← match tlc_config o with [] => Done (Some ConfigFile_new) | path => load_config config_fuel w path end;
      match config with
      | None => Done (w, 1%Z)
      | Some config =>
          let t := clang_tool (tlc_sources o) (w_files w) in
          r ← run_units (tlc_stat_action config) s (tool_units t);
          Done (match r with
                | None => (w, 1%Z)
                | Some s => if negb (tool_ret t =? 0)%Z then (w, tool_ret t) else tlc_stat_save w (tlc_output o) s
                end)
      end
  end.
End stat_command.

(** ** [dump] *)

Section dump_command.
Context `{ClangDump}.
Variable path_extension : str → str.
Variable options : list str → option TlcOptions.
Variable current_path : option str.
Variable config_fuel : nat.
(** The commands of the compilation database, each with its directory and file name. *)
Variable database : str → option (list (str * str)).
Variable clang_tool : list str → gmap str str → ToolRun (list FunctionDecl).
Variable can_open : str → bool.

Definition dump_action (initialCwd : str) (requested : gmap str (gset str)) (st : DumpState) (decls : list FunctionDecl) :
    run (option DumpState) :=
  st ← dump_matchAST path_extension initialCwd requested st decls; Done (Some st).

Definition dump_report (configPath : str) (requested : gmap str (gset str)) (st : DumpState) : str :=
  buildOutput requested (resolvedFunctions st) (capturedFunctions st) configPath.

Definition dump_main (argv : list str) (w : World) : run outcome :=
  match options argv, current_path with
  | None, _ | Some _, None => Done (w, 1%Z)
  | Some o, Some initialCwd =>
      config ← load_config config_fuel w (tlc_config o);
      match config with
      | None => Done (w, 1%Z)
      | Some config =>
          requested ← loadRequestedFunctions config;
          match database (tlc_build o) with
          | None => Done (w, 1%Z)
          | Some commands =>
              match select_sources path_extension (tlc_sources o) commands with
              | [] => Done (w, 1%Z)
              | sources =>
                  let t := clang_tool sources (w_files w) in
                  r ← run_units (dump_action initialCwd requested) (MkDumpState ∅ ∅) (tool_units t);
                  Done (match r with
                        | None => (w, 1%Z)
                        | Some st =>
                            if negb (tool_ret t =? 0)%Z then (w, tool_ret t)
                            else write_output can_open w (tlc_output o) (dump_report (tlc_config o) requested st)
                        end)
              end
          end
      end
  end.
End dump_command.

(** ** [generate] *)

Section generate_command.
Context `{Clang} {Msg : Type}.

(** The document, and whether the diagnostics engine has seen an error. *)
Record GenState : Type := MkGen { gen_doc : DocumentContext; gen_error : bool }.
Definition gen_report (s : GenState) : GenState := MkGen (gen_doc s) true.

(** The registry's passes, the alias maker, the warning that heads the output. *)
Variable entries_of_registry : list (option (Pass GenState Msg)).
Variable alias_maker_error : option str.
Variable getInvokeAlias : str → str → FunctionDecl → option QualType → str + str.
Variable warning : str → str.

Abbreviation maps := (beginSourceFileAction entries_of_registry).
Definition document_procs (doc : DocumentContext) (k : ProcKind) (d : Direction) : list str :=
  (entries (procs_of doc k d)).*1.

(** [beginProcessDocument] with its hooks. *)
Definition gen_begin (nodes : list Node) (s : GenState) : run GenState :=
  '(doc, err) ← beginProcessDocument alias_maker_error nodes (gen_doc s);
  Done (match err with
        | Some _ => MkGen doc true
        | None => begin_document_hooks gen_error maps (MkGen doc (gen_error s))
        end).

Definition gen_end (s : GenState) : GenState :=
  endProcessDocument gen_error gen_report (document_procs (gen_doc s)) maps s.

(** [HandleTranslationUnit]: the state, and what is appended to the buffer. *)
Definition gen_HandleTranslationUnit (manifestStatPath : str) (nodes : list Node) (s : GenState) : run (GenState * str) :=
  s ← gen_begin nodes s;
  if gen_error s then Done (s, []) else
  let s := handleTranslationUnit gen_error maps s in
  if gen_error s then Done (s, []) else
  let s := gen_end s in
  if gen_error s then Done (s, []) else
  r ← generateOutput getInvokeAlias (gen_doc s);
  Done (match r.2 with Some _ => gen_report s | None => s end, warning manifestStatPath ++ [c_nl; c_nl] ++ r.1).

Variable options : list str → option TlcOptions.
Variable current_path : option str.
Variable parse_json : str → str + Json.
(** The manifest's command is run on the bridge: its path, its text, the adjuster of the
    arguments.  The tool gives the nodes of the unit it parsed, with the error of the
    parser, unless there was no unit; and its result as far as the parser goes. *)
Variable clang_tool : str → str → str → (list str → list str) → gmap str str → option (list Node * bool) * Z.
Variable can_open : str → bool.

Definition bridge_tool (cwd manifestPath : str) (stat : ManifestSummary) (files : gmap str str) : option (list Node * bool) * Z :=
  clang_tool manifestPath (bridge_path manifestPath)
    (buildBridgeTranslationUnitText (normalize_from cwd manifestPath) stat) (adjust_arguments cwd manifestPath) files.

(** The tool's result is 1 if the diagnostics engine has seen an error. *)
Definition gen_run (doc : DocumentContext) (manifestPath : str) (t : option (list Node * bool) * Z) : run (str * Z) :=
  match t.1 with
  | None => Done ([], t.2)
  | Some (nodes, parse_error) =>
      '(s, out) ← gen_HandleTranslationUnit manifestPath nodes (MkGen doc parse_error);
      Done (out, if gen_error s then 1%Z else t.2)
  end.

Definition generate_main (argv : list str) (w : World) : run outcome :=
  match options argv, current_path with
  | None, _ | Some _, None => Done (w, 1%Z)
  | Some o, Some initialCwd =>
      match tlc_sources o with
      | [] => Undef
      | manifestPath :: _ =>
          match loadFromJson (read_world w) parse_json (tlc_stat o) (MkSummary [] (∅, ∅) (∅, ∅) ∅) with
          | (stat, true, _) =>
              let doc := generate_document (tlc_mode o) manifestPath stat in
              '(out, ret) ← gen_run doc manifestPath (bridge_tool initialCwd manifestPath stat (w_files w));
              Done (if negb (ret =? 0)%Z then (w, ret)
                    else match out with [] => (w, 0%Z) | _ => write_output can_open w (tlc_output o) out end)
          | _ => Done (w, 1%Z)
          end
      end
  end.
End generate_command.

(** ** The tool *)

(** The table of commands; each has options of its own. *)
Definition tlc_commands (dump stat generate : list str → World → run outcome) : list Command :=
  [MkCommand ($"dump") dump ($"Dump include headers for configured functions");
   MkCommand ($"stat") stat ($"Probe statistics of input files");
   MkCommand ($"generate") generate ($"Generate thunk library sources for input files")].

(** ** What the commands write *)

Lemma tlc_stat_save_change print_json can_open w path s : own_change path w (tlc_stat_save print_json can_open w path s).
Proof.
  unfold tlc_stat_save, saveAsJson. destruct path as [|c p].
  - rewrite bool_decide_true by done. cbn [orb]. split; [done|].
    intros Hc. unfold write_output in *. rewrite bool_decide_true in * by done. done.
  - destruct ((_ =s? _) || can_open _); [apply write_output_change|apply own_refl].
Qed.

(** A command whose options are [options] changes its output only; [code] is its exit code
    without options. *)
Definition owns (options : list str → option TlcOptions) (code : Z) (main : list str → World → run outcome) : Prop :=
  ∀ argv w r, main argv w = Done r →
    match options argv with None => r = (w, code) | Some o => own_change (tlc_output o) w r end.

Lemma tlc_stat_owns `{ClangUnit} options fuel tool print_json can_open :
  owns options 0%Z (tlc_stat_main options fuel tool print_json can_open).
Proof.
  intros argv w r. unfold tlc_stat_main. destruct (options argv) as [o|]; [|by intros [= <-]].
  destruct (match tlc_config o with [] => _ | _ => _ end) as [[config|]| |]; [|intros [= <-]; apply own_refl|done..].
  cbn [mbind run_bind]. destruct (run_units _ _ _) as [[s|]| |]; [| |done..]; intros [= <-]; [|apply own_refl].
  destruct (negb _); [apply own_refl|apply tlc_stat_save_change].
Qed.

Lemma dump_owns `{ClangDump} path_extension options cwd fuel database tool can_open :
  owns options 1%Z (dump_main path_extension options cwd fuel database tool can_open).
Proof.
  intros argv w r. unfold dump_main. destruct (options argv) as [o|]; [|by intros [= <-]].
  destruct cwd; [|intros [= <-]; apply own_refl].
  destruct (load_config _ _ _) as [[config|]| |]; [|intros [= <-]; apply own_refl|done..]. cbn [mbind run_bind].
  destruct (loadRequestedFunctions config) as [requested| |]; [|done..]. cbn [mbind run_bind].
  destruct (database _); [|intros [= <-]; apply own_refl]. destruct (select_sources _ _ _); [intros [= <-]; apply own_refl|].
  destruct (run_units _ _ _) as [[st|]| |]; [| |done..]; intros [= <-]; [|apply own_refl].
  destruct (negb _); [apply own_refl|apply write_output_change].
Qed.

Lemma generate_owns `{Clang} {Msg} (passes : list (option (Pass GenState Msg))) alias_error alias warning options cwd parse tool can_open :
  owns options 1%Z (generate_main passes alias_error alias warning options cwd parse tool can_open).
Proof.
  intros argv w r. unfold generate_main. destruct (options argv) as [o|]; [|by intros [= <-]].
  destruct cwd; [|intros [= <-]; apply own_refl]. destruct (tlc_sources o); [done|].
  destruct (loadFromJson _ _ _ _) as [[stat []] ?]; [|intros [= <-]; apply own_refl].
  destruct (gen_run _ _ _ _ _ _ _) as [[out ret]| |]; [|done..]. cbn [mbind run_bind]. intros [= <-].
  destruct (negb _); [apply own_refl|]. destruct out; [apply own_refl|apply write_output_change].
Qed.

(** ** What [generate] writes *)

Section generate_spec.
Context `{Clang} {Msg : Type}.
Variable entries_of_registry : list (option (Pass GenState Msg)).
Variable alias_maker_error : option str.
Variable getInvokeAlias : str → str → FunctionDecl → option QualType → str + str.
Variable warning : str → str.

Abbreviation maps := (beginSourceFileAction entries_of_registry).
Abbreviation all_passes := (document_passes maps).

(** Passes test without an effect, and none takes an error back when the document begins. *)
Hypothesis Hpure : Forall pure (omap (λ entry, entry) entries_of_registry).
Hypothesis Hstay : ∀ p s, Some p ∈ entries_of_registry →
  gen_error s = true → gen_error (hook_beginProcessDocument p s) = true.

(** A document processed to its end without an error: every hook of every pass ran. *)
Definition processed (nodes : list Node) (doc : DocumentContext) (s : GenState) : Prop :=
  ∃ doc1 d, let s1 := foldl (λ s p, hook_beginProcessDocument p s) (MkGen doc1 false) all_passes in
    let s2 := foldl (λ s p, hook_handleTranslationUnit p s) s1 all_passes in
    let tasks := selected (document_procs (gen_doc s2)) maps d s2 in
    beginProcessDocument alias_maker_error nodes doc = Done (doc1, None) ∧
    pass_map maps Builder !! ID_DefaultBuilder = Some d ∧
    gen_error s1 = false ∧ gen_error s2 = false ∧ gen_error s = false ∧
    s = (foldl (λ t a, act a t) (tasks, s2) (schedule maps (length tasks))).2.

Lemma gen_end_ok s : gen_error s = false → gen_error (gen_end entries_of_registry s) = false →
  ∃ d, pass_map maps Builder !! ID_DefaultBuilder = Some d ∧
    let tasks := selected (document_procs (gen_doc s)) maps d s in
    gen_end entries_of_registry s = (foldl (λ t a, act a t) (tasks, s) (schedule maps (length tasks))).2.
Proof using Hpure.
  unfold gen_end. intros Hs Hok. destruct (pass_map maps Builder !! ID_DefaultBuilder) as [d|] eqn:Hd.
  - exists d. split; [done|]. set (tasks := selected _ _ _ _).
    pose proof (endProcessDocument_schedule gen_error gen_report (document_procs (gen_doc s)) maps d s
      (entries_pure entries_of_registry Hpure) Hs Hd) as Hrun. fold tasks in Hrun. rewrite Hrun in Hok |- *. by rewrite until_error_all.
  - exfalso. unfold endProcessDocument, appendBuilderPassTasks in Hok. by rewrite Hd in Hok.
Qed.

Lemma hooks_stay p s : p ∈ all_passes → gen_error s = true → gen_error (hook_beginProcessDocument p s) = true.
Proof using Hstay.
  intros (ph & k & Hp%entries_pass)%document_passes_elem. apply Hstay.
  by apply list_elem_of_omap in Hp as (x & Hx & ->).
Qed.

Lemma unit_ok path nodes doc e s out :
  gen_HandleTranslationUnit entries_of_registry alias_maker_error getInvokeAlias warning path nodes (MkGen doc e) = Done (s, out) →
  gen_error s = false →
  e = false ∧ ∃ text, processed nodes doc s ∧ generateOutput getInvokeAlias (gen_doc s) = Done (text, None) ∧
    out = warning path ++ [c_nl; c_nl] ++ text.
Proof using Hpure Hstay.
  unfold gen_HandleTranslationUnit, gen_begin. cbn [gen_doc gen_error].
  destruct (beginProcessDocument _ nodes doc) as [[doc1 [err|]]| |] eqn:Hbegin; [|cbn [mbind run_bind]|done..].
  { cbn. by intros [= <- <-]. }
  unfold begin_document_hooks, handleTranslationUnit.
  destruct (gen_error (document_hooks _ hook_beginProcessDocument _ _).1) eqn:H1; [intros [= <- _]; by rewrite H1|].
  assert (e = false) as -> by (apply (document_hooks_error _ _ _ _ hooks_stay) in H1; exact H1).
  rewrite (document_hooks_all gen_error _ _ _ H1) in H1 |- *. set (s1 := foldl _ (MkGen doc1 false) _) in *.
  destruct (gen_error (document_hooks _ hook_handleTranslationUnit _ _).1) eqn:H2; [intros [= <- _]; by rewrite H2|].
  rewrite (document_hooks_all gen_error _ _ _ H2) in H2 |- *. set (s2 := foldl _ s1 _) in *.
  destruct (gen_error (gen_end _ s2)) eqn:H3; [intros [= <- _]; by rewrite H3|].
  destruct (gen_end_ok s2 H2 H3) as (d & Hd & Hrun).
  destruct (generateOutput _ _) as [[text [err|]]| |] eqn:Hout; [| |done..]; cbn [mbind run_bind fst snd]; intros [= <- <-];
    [done|]. intros _. split; [done|]. exists text. split; [|done]. exists doc1, d. by split_and!.
Qed.

Variable options : list str → option TlcOptions.
Variable current_path : option str.
Variable parse_json : str → str + Json.
Variable clang_tool : str → str → str → (list str → list str) → gmap str str → option (list Node * bool) * Z.
Variable can_open : str → bool.
Abbreviation generate := (generate_main entries_of_registry alias_maker_error getInvokeAlias warning options
  current_path parse_json clang_tool can_open).

(** C10: [generate] writes a thunk library's source only when everything went well: the
    statistics were read, the bridge was parsed without an error, the document had what it
    needs, and every hook of every pass, in the order of the schedule, ran without an error;
    what it writes is then the text of the resulting document under the warning.  Whatever
    goes wrong changes no file and is told by the exit code. *)
Theorem generate_checked argv w w' code :
  generate argv w = Done (w', code) →
  (code ≠ 0%Z → w' = w) ∧
  (code = 0%Z → w' ≠ w → ∃ o cwd manifestPath sources stat msg nodes s text,
     options argv = Some o ∧ current_path = Some cwd ∧ tlc_sources o = manifestPath :: sources ∧
     loadFromJson (read_world w) parse_json (tlc_stat o) (MkSummary [] (∅, ∅) (∅, ∅) ∅) = (stat, true, msg) ∧
     bridge_tool clang_tool cwd manifestPath stat (w_files w) = (Some (nodes, false), 0%Z) ∧
     processed nodes (generate_document (tlc_mode o) manifestPath stat) s ∧
     generateOutput getInvokeAlias (gen_doc s) = Done (text, None) ∧
     write_output can_open w (tlc_output o) (warning manifestPath ++ [c_nl; c_nl] ++ text) = (w', 0%Z)).
Proof using Hpure Hstay.
  intros Hr. pose proof (generate_owns _ _ _ _ _ _ _ _ _ _ _ _ Hr) as Hown. split.
  { destruct (options argv); [by apply Hown|]. by injection Hown as -> _. }
  intros -> Hne. unfold generate_main in Hr. destruct (options argv) as [o|] eqn:Ho; [|done].
  destruct current_path as [cwd|] eqn:Hcwd; [|done]. destruct (tlc_sources o) as [|manifestPath sources] eqn:Hsrc; [done|].
  destruct (loadFromJson _ _ _ _) as [[stat []] msg] eqn:Hload; [|done].
  unfold gen_run in Hr. destruct (bridge_tool _ _ _ _ _) as [[[nodes e]|] ret] eqn:Htool; cycle 1.
  { cbn in Hr. destruct (negb (ret =? 0)%Z); by injection Hr. }
  cbn [fst snd] in Hr.
  destruct (gen_HandleTranslationUnit _ _ _ _ _ _ _) as [[s out]| |] eqn:Hunit; [|done..]. cbn [mbind run_bind] in Hr.
  destruct (gen_error s) eqn:Hs; [done|].
  destruct (unit_ok _ _ _ _ _ _ Hunit Hs) as (-> & text & Hproc & Hout & ->).
  destruct (ret =? 0)%Z eqn:Hret; cbn [negb] in Hr; [|by injection Hr as Hw; congruence]. apply Z.eqb_eq in Hret as ->.
  exists o, cwd, manifestPath, sources, stat, msg, nodes, s, text. split_and!; try done.
  destruct (warning manifestPath ++ [c_nl; c_nl] ++ text) eqn:Hcontent; by injection Hr.
Qed.
End generate_spec.

(** ** What the other commands write *)

Lemma dump_units `{ClangDump} path_extension cwd requested units st st' :
  run_units (dump_action path_extension cwd requested) st units = Done (Some st') →
  dump_matchAST path_extension cwd requested st (concat units) = Done st'.
Proof.
  unfold dump_action. revert st. induction units as [|decls units IH]; intros st; [by intros [= <-]|].
  cbn [run_units concat]. intros Hr. assert (∀ l l' st, dump_matchAST path_extension cwd requested st (l ++ l') =
    (st ← dump_matchAST path_extension cwd requested st l; dump_matchAST path_extension cwd requested st l')) as Happ.
  { clear. induction l as [|fd l IH]; intros l' st; [done|]. cbn [app dump_matchAST].
    destruct (dump_match _ _ _ _ _) as [st1| |]; [apply IH|done..]. }
  rewrite Happ. revert Hr. destruct (dump_matchAST _ _ _ st decls) as [st1| |]; cbn [mbind run_bind]; [apply IH|done..].
Qed.

(** [dump] that exits with 0 has read the configuration and the compilation database,
    found sources, and writes the report on the configured functions and the declarations
    of all the sources that Clang parsed. *)
Theorem dump_written `{ClangDump} path_extension options cwd fuel database tool can_open argv w w' :
  dump_main path_extension options cwd fuel database tool can_open argv w = Done (w', 0%Z) →
  ∃ o initialCwd config requested commands st,
    options argv = Some o ∧ cwd = Some initialCwd ∧ load_config fuel w (tlc_config o) = Done (Some config) ∧
    loadRequestedFunctions config = Done requested ∧ database (tlc_build o) = Some commands ∧
    select_sources path_extension (tlc_sources o) commands ≠ [] ∧
    let units := tool_units (tool (select_sources path_extension (tlc_sources o) commands) (w_files w)) in
    dump_matchAST path_extension initialCwd requested (MkDumpState ∅ ∅) (concat units) = Done st ∧
    write_output can_open w (tlc_output o) (dump_report (tlc_config o) requested st) = (w', 0%Z).
Proof.
  unfold dump_main. destruct (options argv) as [o|]; [|done]. destruct cwd as [initialCwd|]; [|done].
  destruct (load_config _ _ _) as [[config|]| |] eqn:Hconfig; [|done..]. cbn [mbind run_bind].
  destruct (loadRequestedFunctions config) as [requested| |] eqn:Hreq; [|done..]. cbn [mbind run_bind].
  destruct (database _) as [commands|] eqn:Hdb; [|done].
  destruct (select_sources _ _ _) as [|src sources] eqn:Hsrc; [done|].
  destruct (run_units _ _ _) as [[st|]| |] eqn:Hrun; [|done..]. cbn [mbind run_bind].
  destruct (tool_ret _ =? 0)%Z eqn:Hret; cbn [negb]; [|intros [= _ Hz]; by rewrite Hz in Hret].
  intros [= Hw]. exists o, initialCwd, config, requested, commands, st. rewrite Hsrc. split_and!; try done.
  by apply dump_units.
Qed.

(** A run of the thunk compiler changes one file at most, the one its option names, and
    none when the exit code is not 0; with options that it does not understand it changes
    nothing, but [stat] exits with 0. *)
Theorem compiler_own_output `{ClangUnit} `{!ClangDump} {Msg} app_name description version path_extension cwd fuel database
    can_open (dump_options stat_options generate_options : list str → option TlcOptions) dump_tool stat_tool print_json
    (passes : list (option (Pass GenState Msg))) alias_error alias warning parse_json bridge_tool argv w w' code :
  let commands := tlc_commands
    (dump_main path_extension dump_options cwd fuel database dump_tool can_open)
    (tlc_stat_main stat_options fuel stat_tool print_json can_open)
    (generate_main passes alias_error alias warning generate_options cwd parse_json bridge_tool can_open) in
  tool_main app_name description version commands argv w = Done (w', code) →
  w_files w' = w_files w ∨
  ∃ argv0 name rest options code0,
    (name, options, code0) ∈ [($"dump", dump_options, 1%Z); ($"stat", stat_options, 0%Z); ($"generate", generate_options, 1%Z)] ∧
    argv = argv0 :: name :: rest ∧
    match options ((app_name argv0 ++ $" " ++ name) :: rest) with
    | None => w' = w ∧ code = code0
    | Some o => (∀ g, g ≠ tlc_output o → w_files w' !! g = w_files w !! g) ∧ (code ≠ 0%Z → w' = w)
    end.
Proof.
  intros commands Hr. apply tool_main_cases in Hr as [(c & argv0 & rest & Hc & Hargv & Hr)|Hw]; [right|by left].
  assert (∃ options code0, (cmd_name c, options, code0) ∈
    [($"dump", dump_options, 1%Z); ($"stat", stat_options, 0%Z); ($"generate", generate_options, 1%Z)] ∧
    owns options code0 (cmd_main c)) as (options & code0 & Hin & Hown).
  { unfold commands, tlc_commands in Hc. rewrite !elem_of_cons in Hc. destruct Hc as [->|[->|[->|Hc]]].
    - exists dump_options, 1%Z. split; [by left|apply dump_owns].
    - exists stat_options, 0%Z. split; [right; by left|apply tlc_stat_owns].
    - exists generate_options, 1%Z. split; [right; right; by left|apply generate_owns].
    - by apply not_elem_of_nil in Hc. }
  exists argv0, (cmd_name c), rest, options, code0. split; [done|]. split; [done|]. apply Hown in Hr.
  destruct (options _); [exact Hr|by injection Hr as -> ->].
Qed.

(** ** An example: the unit of [CallbackTree] through [stat], [generate] and [dump]

    The alias maker names every procedure alike, and the one pass is a default builder that
    does nothing. *)

Definition u_dump_rank (t : UType) : nat :=
  match t with
  | U_api_ptr => 5 | U_api => 4 | U_fn_ptr_ptr | U_use_ptr => 3 | U_fn_ptr | U_fn_const_ptr | U_use => 2 | U_fn => 1
  | U_vt_ptr | U_void_ptr | U_va_ptr | U_va_array | U_ops_ptr | U_node_ptr | U_cell_ptr | U_loop_ptr => 1 | _ => 0
  end.

#[export] Instance u_dump : @ClangDump u_clang.
Proof.
  refine {| decayed_original := λ _ : @QualType u_clang, None; paren_inner := λ _ : @QualType u_clang, None;
            attributed_modified := λ _ : @QualType u_clang, None; macro_underlying := λ _ : @QualType u_clang, None;
            elaborated_named := λ _ : @QualType u_clang, None;
            isBuiltinType := λ t : @QualType u_clang, match t with U_void | U_int => true | _ => false end;
            typedef_named := λ _ : @QualType u_clang, None; using_named := λ _ : @QualType u_clang, None;
            enum_named := λ _ : @QualType u_clang, None;
            record_named := λ t : @QualType u_clang, match t with U_node => Some (MkNamedDecl ($"node") (Some ($"api.h"))) | _ => None end;
            referee := λ _ : @QualType u_clang, None; element_type := λ _ : @QualType u_clang, None;
            dep_rank := u_dump_rank : @QualType u_clang → _;
            fn_source := λ _ : @FunctionDecl u_clang, Some ($"api.h", $"api.h:1:6") |};
    try discriminate.
  - intros t t' Ht. destruct t; try discriminate; injection Ht as <-; simpl; lia.
  - intros t ret params v t' Ht Hin. destruct t; try discriminate; injection Ht as <- <- <-; simpl in Hin |- *;
      repeat (apply elem_of_cons in Hin as [->|Hin]; [simpl; lia|]); by apply not_elem_of_nil in Hin.
Defined.

Definition tlc_builder : Pass (@GenState u_clang) unit :=
  MkPass Builder ID_DefaultBuilder id id id (λ _ s, (true, None, s)) (λ _ m s, (m, s)) (λ _ m s, (m, s)).
Definition tlc_passes : list (option (Pass (@GenState u_clang) unit)) := [None; Some tlc_builder].

Definition tlc_options (config output stat : str) (argv : list str) : option TlcOptions :=
  match argv with
  | [_; source] => Some (MkTlcOptions config output ($"/build") stat Host [source])
  | _ => None
  end.
Definition tlc_print (_ : Json) : str := $"{}".
Definition tlc_parse (text : str) : str + Json := if text =s? $"{}" then inr (summary_json u_result) else inl ($"error").
Definition tlc_warning (path : str) : str := $"// from " ++ path.
Definition tlc_bridge_tool (_ _ _ : str) (_ : list str → list str) (_ : gmap str str) : option (list (@Node u_clang) * bool) * Z :=
  (Some (u_bridge_nodes, false), 0%Z).

Definition x_stat : list str → World → run outcome :=
  @tlc_stat_main u_clang u_records u_unit (tlc_options ($"api.conf") ($"api.json") []) 2
    (λ _ _, MkToolRun [u_stat_nodes] 0) tlc_print (λ _, true).
Definition x_generate : list str → World → run outcome :=
  @generate_main u_clang unit tlc_passes None (λ _ _ _ _, inr ($"alias")) tlc_warning
    (tlc_options [] ($"thunk.cpp") ($"api.json")) (Some ($"/src")) tlc_parse tlc_bridge_tool (λ _, true).
Definition x_dump : list str → World → run outcome :=
  @dump_main u_clang u_dump d_extension (tlc_options ($"api.conf") ($"dump.h") []) (Some ($"/src")) 2 (λ _, Some [])
    (λ _ _, MkToolRun [[tt]] 0) (λ _, true).
Definition tlc : list str → World → run outcome :=
  tool_main (λ _, $"tlc") ($"Compiler") ($"1.0") (tlc_commands x_dump x_stat x_generate).

Definition tlc_conf_text : str := $"[Function]" ++ [c_nl] ++ $"api" ++ [c_nl] ++ $"gone" ++ [c_nl].
Definition tlc_world : World := MkWorld {[$"api.conf" := tlc_conf_text]} [].
Definition tlc_stat_world : World := set_file tlc_world ($"api.json") ($"{}").

Definition tlc_generated (r : run outcome) : option (Z * bool) :=
  match r with
  | Done (w, code) =>
      Some (code, match w_files w !! $"thunk.cpp" with
                  | Some text => starts_with text ($"// from api.c" ++ [c_nl; c_nl] ++ $"#define LORE_THUNK_BUILD")
                  | None => false
                  end)
  | _ => None
  end.

Example tlc_runs :
  tlc [$"tlc"; $"stat"; $"api.c"] tlc_world = Done (tlc_stat_world, 0%Z) ∧
  tlc [$"tlc"; $"generate"; $"api.c"] tlc_world = Done (tlc_world, 1%Z) ∧
  tlc_generated (tlc [$"tlc"; $"generate"; $"api.c"] tlc_stat_world) = Some (0%Z, true) ∧
  tlc [$"tlc"; $"stat"] tlc_world = Done (tlc_world, 0%Z) ∧ tlc [$"tlc"; $"dump"] tlc_world = Done (tlc_world, 1%Z).
Proof. repeat split; vm_compute; reflexivity. Qed.

Definition done_world (r : run outcome) : World := match r with Done (w, _) => w | _ => tlc_world end.
Definition done_code (r : run outcome) : option Z := match r with Done (_, code) => Some code | _ => None end.

Lemma done_run r code : done_code r = Some code → r = Done (done_world r, code).
Proof. destruct r as [[w c]| |]; [|discriminate..]. by intros [= ->]. Qed.

Lemma tlc_passes_pure : Forall pure (omap (λ entry, entry) tlc_passes).
Proof. by repeat constructor. Qed.
Lemma tlc_passes_stay p s : Some p ∈ tlc_passes → gen_error s = true → gen_error (hook_beginProcessDocument p s) = true.
Proof.
  intros Hp. unfold tlc_passes in Hp. rewrite !elem_of_cons in Hp. destruct Hp as [[=]|[[= ->]|Hp]]; [done|].
  by apply not_elem_of_nil in Hp.
Qed.

Lemma generate_checked_witness :
  ∃ nodes s text, @processed u_clang unit tlc_passes None nodes
      (@generate_document u_clang Host ($"api.c") u_result) s ∧
    @generateOutput u_clang (λ _ _ _ _, inr ($"alias")) (gen_doc s) = Done (text, None) ∧
    w_files (done_world (x_generate [$"tlc generate"; $"api.c"] tlc_stat_world)) !! $"thunk.cpp" =
      Some ($"// from api.c" ++ [c_nl; c_nl] ++ text).
Proof.
  assert (x_generate [$"tlc generate"; $"api.c"] tlc_stat_world =
    Done (done_world (x_generate [$"tlc generate"; $"api.c"] tlc_stat_world), 0%Z)) as Hrun
    by (apply done_run; vm_compute; reflexivity).
  destruct (@generate_checked u_clang unit tlc_passes None (λ _ _ _ _, inr ($"alias")) tlc_warning tlc_passes_pure
    tlc_passes_stay _ _ _ _ _ _ _ _ _ Hrun) as [_ Hw].
  destruct (Hw eq_refl) as (o & cwd & manifestPath & sources & stat & msg & nodes & s & text & Ho & Hcwd & Hsrc & Hload & _ & Hp & Hout & Hfile).
  { intros Heq. apply (f_equal (λ w, bool_decide (w_files w !! $"thunk.cpp" = None))) in Heq. revert Heq. vm_compute. discriminate. }
  injection Ho as <-. injection Hsrc as <- <-. exists nodes, s, text.
  assert (loadFromJson (read_world tlc_stat_world) tlc_parse ($"api.json") (MkSummary [] (∅, ∅) (∅, ∅) ∅) = (u_result, true, None)) as Hl
    by (vm_compute; reflexivity).
  assert (stat = u_result) as -> by exact (loaded_value _ _ _ _ _ _ (eq_trans (eq_sym Hl) Hload)).
  refine (conj Hp (conj Hout _)). apply (f_equal fst) in Hfile. cbn [fst] in Hfile. rewrite <- Hfile. reflexivity.
Defined.

Lemma dump_written_witness :
  ∃ st, @dump_matchAST u_clang u_dump d_extension ($"/src") {[$"api" := {[$"Function"]}; $"gone" := {[$"Function"]}]}
      (MkDumpState ∅ ∅) [tt] = Done st ∧
    w_files (done_world (x_dump [$"tlc dump"; $"api.c"] tlc_world)) !! $"dump.h" =
      Some (dump_report ($"api.conf") {[$"api" := {[$"Function"]}; $"gone" := {[$"Function"]}]} st).
Proof.
  assert (x_dump [$"tlc dump"; $"api.c"] tlc_world = Done (done_world (x_dump [$"tlc dump"; $"api.c"] tlc_world), 0%Z)) as Hrun
    by (apply done_run; vm_compute; reflexivity).
  destruct (@dump_written u_clang u_dump _ _ _ _ _ _ _ _ _ _ Hrun)
    as (o & cwd & config & requested & commands & st & Ho & Hcwd & Hconfig & Hreq & _ & _ & Hst & Hfile).
  injection Ho as <-. injection Hcwd as <-. exists st.
  assert (requested = {[$"api" := {[$"Function"]}; $"gone" := {[$"Function"]}]}) as ->.
  { assert (load_config 2 tlc_world ($"api.conf") = Done (Some config)) as Hc by exact Hconfig.
    assert ((c ← load_config 2 tlc_world ($"api.conf"); match c with Some c => loadRequestedFunctions c | None => Undef end)
      = Done requested) as Hr by (rewrite Hc; exact Hreq).
    assert ((c ← load_config 2 tlc_world ($"api.conf"); match c with Some c => loadRequestedFunctions c | None => Undef end)
      = Done {[$"api" := {[$"Function"]}; $"gone" := {[$"Function"]}]}) as Hr' by (vm_compute; reflexivity).
    rewrite Hr' in Hr. by injection Hr as <-. }
  split; [exact Hst|]. apply (f_equal fst) in Hfile. cbn [fst] in Hfile. rewrite <- Hfile. reflexivity.
Defined.

Lemma compiler_own_output_witness :
  w_files tlc_stat_world = w_files tlc_world ∨ ∃ name, name ∈ [$"dump"; $"stat"; $"generate"] ∧ name = $"stat".
Proof.
  destruct (@compiler_own_output u_clang u_records u_unit u_dump unit (λ _, $"tlc") ($"Compiler") ($"1.0") d_extension
    (Some ($"/src")) 2 (λ _, Some []) (λ _, true) (tlc_options ($"api.conf") ($"dump.h") [])
    (tlc_options ($"api.conf") ($"api.json") []) (tlc_options [] ($"thunk.cpp") ($"api.json"))
    (λ _ _, MkToolRun [[tt]] 0) (λ _ _, MkToolRun [u_stat_nodes] 0) tlc_print tlc_passes None (λ _ _ _ _, inr ($"alias"))
    tlc_warning tlc_parse tlc_bridge_tool [$"tlc"; $"stat"; $"api.c"] tlc_world tlc_stat_world 0%Z (proj1 tlc_runs))
    as [H|(argv0 & name & rest & options & code0 & Hin & Hargv & _)]; [left; exact H|right].
  exists name. injection Hargv as _ Hname _. split; [|symmetry; exact Hname]. rewrite <- Hname. right. by left.
Defined.
