(* ===== verification/RewriterCommands.v ===== *)
(** The commands of the header library rewriter: the [main] functions of
    [src/tools/HLR/Commands].

    Each is a function on the files ([ToolMain]): it reads its options and its input,
    lets Clang's tool give its sources to the command's action ([SourceStatistics],
    [MacroTags], [RewriteCommand]) and writes one file.  [batch] starts the others as
    processes; here they are run for what they are, and the hypothesis under which
    [RewriteCommand] describes a batch, that a command writes its own file only, is proved
    of them. *)

From stdpp Require Import gmap.
From S2P Require Import Prelude CppString FsPath Json ManifestSummary PassScheduler ClangExtras.
From S2P Require Import SourceStatistics RewriteInsertion MacroTags RewriteCommand ToolMain.

(** The values of the options; a command reads those it declares. *)
Record Options : Type := MkOptions {
  opt_stat : str;
  opt_output : str;
  opt_build : str;
  opt_sources : list str
}.

Section commands.
Context `{SourceManager} `{Rewriter}.

(** A source as Clang presents it: the name it goes by, the nodes of its tree, where its
    text starts in the table of all files, its text, and its preprocessed text. *)
Record SourceUnit : Type := MkUnit {
  u_file : str;
  u_nodes : list Node;
  u_base : nat;
  u_text : str;
  u_preprocessed : str
}.

(** What the commands ask of LLVM, Clang and the system: the options of a command's
    arguments, the current directory, the run of Clang's tool on sources, the text form of
    JSON, which files can be opened for writing, and the signatures of the callbacks of a
    manifest's statistics, whose class the repository does not have. *)
Variable options : str → list str → option Options.
Variable current_path : option str.
Variable clang_tool : list str → gmap str str → ToolRun SourceUnit.
Variable parse_json : str → str + Json.
Variable print_json : Json → str.
Variable can_open : str → bool.
Variable manifest_signatures : str → gmap str str → option (gset str).

Definition read_file (w : World) (path : str) : str + str :=
  match w_files w !! path with Some text => inr text | None => inl ($"Cannot open file") end.
Definition write := write_output can_open.

Definition fileData (u : SourceUnit) : run (list (Node * Node * list Node) * list (Node * FunctionDecl)) :=
  FunctionExprConsumer [] [] (u_nodes u).

(** [stat]: only the result 1 of the tool is an error. *)
Definition stat_action (requested : gset str) (st : SourceStatistics) (u : SourceUnit) : run (option SourceStatistics) :=
  data ← fileData u; stat_EndSourceFileAction requested (u_file u) data st.

Definition stat_save (w : World) (path : str) (st : SourceStatistics) : outcome :=
  let path := match path with [] => $"-" | _ => path end in
  match statistics_save print_json
          (λ p, if (p =s? $"-") || can_open p then None else Some ($"cannot open")) (λ _, false) path st with
  | (true, _, Some text) => write w path text
  | _ => (w, 1%Z)
  end.

Definition stat_main (argv : list str) (w : World) : run outcome :=
  match options ($"stat") argv, current_path with
  | None, _ => Done (w, 0%Z)
  | Some _, None => Done (w, 1%Z)
  | Some o, Some _ =>
      match manifest_signatures (opt_stat o) (w_files w) with
      | None => Done (w, 1%Z)
      | Some requested =>
          let t := clang_tool (opt_sources o) (w_files w) in
          r ← run_units (stat_action requested) statistics_clear (tool_units t);
          Done (match r with
                | None => (w, 1%Z)
                | Some st => if (tool_ret t =? 1)%Z then (w, 1%Z) else stat_save w (opt_output o) st
                end)
      end
  end.

(** The end of the commands that write their buffer if there is something in it. *)
Definition write_buffer (w : World) (o : Options) (ret : Z) (r : option str) : outcome :=
  match r with
  | None => (w, 1%Z)
  | Some buffer =>
      if negb (ret =? 0)%Z then (w, ret)
      else match buffer with [] => (w, 0%Z) | _ => write w (opt_output o) buffer end
  end.

(** [mark-macros] and [rewrite]: the texts of the sources are appended to the buffer. *)
Definition append_text (buffer : str) (r : option str) : option str :=
  match r with None => None | Some text => Some (buffer ++ text) end.

Definition mark_action (stat : SourceStatistics) (buffer : str) (u : SourceUnit) : run (option str) :=
  data ← fileData u;
  r ← mark_EndSourceFileAction stat (u_base u) (u_text u) data;
  Done (append_text buffer r).

Definition mark_main (argv : list str) (w : World) : run outcome :=
  match options ($"mark-macros") argv, current_path with
  | None, _ => Done (w, 0%Z)
  | Some _, None => Done (w, 1%Z)
  | Some o, Some _ =>
      match statistics_load (read_file w) parse_json (opt_stat o) statistics_clear with
      | (stat, true, _) =>
          let t := clang_tool (opt_sources o) (w_files w) in
          r ← run_units (mark_action stat) [] (tool_units t);
          Done (write_buffer w o (tool_ret t) r)
      | _ => Done (w, 1%Z)
      end
  end.

Definition rewrite_action (stat : SourceStatistics) (buffer : str) (u : SourceUnit) : run (option str) :=
  data ← fileData u;
  r ← rewrite_EndSourceFileAction (rewrite_context stat) (u_file u) (u_base u) (u_text u) data;
  Done (append_text buffer r).

Definition rewrite_main (argv : list str) (w : World) : run outcome :=
  match options ($"rewrite") argv, current_path with
  | None, _ => Done (w, 0%Z)
  | Some _, None => Done (w, 1%Z)
  | Some o, Some _ =>
      match statistics_load (read_file w) parse_json (opt_stat o) statistics_clear with
      | (stat, true, _) =>
          let t := clang_tool (opt_sources o) (w_files w) in
          r ← run_units (rewrite_action stat) [] (tool_units t);
          Done (write_buffer w o (tool_ret t) r)
      | _ => Done (w, 1%Z)
      end
  end.

(** [preprocess]: the buffer is the text of the last source, and is always written. *)
Definition preprocess_action (buffer : str) (u : SourceUnit) : run (option str) :=
  if CPlusPlus then Done None else
  r ← replaceMacros (u_text u) (u_preprocessed u);
  Done (Some r.1).

Definition preprocess_main (argv : list str) (w : World) : run outcome :=
  match options ($"preprocess") argv, current_path with
  | None, _ => Done (w, 0%Z)
  | Some _, None => Done (w, 1%Z)
  | Some o, Some _ =>
      let t := clang_tool (opt_sources o) (w_files w) in
      r ← run_units preprocess_action [] (tool_units t);
      Done (match r with
            | None => (w, 1%Z)
            | Some buffer => if negb (tool_ret t =? 0)%Z then (w, tool_ret t) else write w (opt_output o) buffer
            end)
  end.

(** The table of commands but [batch], which only starts these. *)
Definition hlr_commands : list Command :=
  [MkCommand ($"mark-macros") mark_main ($"Mark macros");
   MkCommand ($"preprocess") preprocess_main ($"Execute macro expansion and replace marked macros");
   MkCommand ($"rewrite") rewrite_main ($"Rewrite preprocessed files");
   MkCommand ($"stat") stat_main ($"Probe statistics of input files")].

(** ** [batch] *)

(** A command as a process on the files: what it leaves, and the error of an exit code that
    is not 0 or of a crash, which comes before anything is written.  What it prints is not
    followed. *)
Variable app_name : str → str.
Variables (description version : str).

Definition execute (argv : list str) (files : gmap str str) : gmap str str * option str :=
  match tool_main app_name description version hlr_commands argv (MkWorld files []) with
  | Done (w, code) => (w_files w, if (code =? 0)%Z then None else Some ($"failed"))
  | _ => (files, Some ($"crashed"))
  end.

(** [runSubCommand]. *)
Definition child_arguments (exe subCommand outFile buildPath : str) (sources extraArgs : list str) : list str :=
  [exe; subCommand; $"-o"; outFile; $"-p"; buildPath] ++ sources ++ extraArgs.

Definition runSubCommand (exe subCommand : str) (sources : list str) (outFile buildPath : str) (extraArgs : list str)
    (files : gmap str str) : gmap str str * option str :=
  execute (child_arguments exe subCommand outFile buildPath sources extraArgs) files.

(** The commands of the loop, in place; [preprocess] is not given the statistics. *)
Definition batch_command (exe buildPath statResultFile subCommand file : str) (files : gmap str str) :
    gmap str str * option str :=
  runSubCommand exe subCommand [file] file buildPath
    (if subCommand =s? $"preprocess" then [] else [$"-s"; statResultFile]) files.

(** The output directory is created if it is not there; the temporary file of the
    statistics is removed in the end. *)
Variable batch_options : list str → option (Options * str).
Variable has_database : str → bool.
Variable temporary_file : option str.
Variable main_executable : str → str.
Variable directory_ready : str → bool.
Variable relative : str → str → str.
Variable warning : str → str.
Variable resource : str.

Definition remove_file (files : gmap str str) (path : str) : gmap str str := delete path files.

(** The options come with the output directory. *)
Definition batch_main (argv : list str) (w : World) : outcome :=
  let exit_with files code := (MkWorld files (w_stdout w), code) in
  match batch_options argv with
  | None => (w, 1%Z)
  | Some (o, outputDirOption) =>
      if negb (has_database (opt_build o)) then (w, 1%Z) else
      match current_path, temporary_file with
      | None, _ | Some _, None => (w, 1%Z)
      | Some initialCwd, Some statResultFile =>
          let outputDir := make_absolute initialCwd outputDirOption in
          let exe := main_executable (default [] (head argv)) in
          let files := <[statResultFile := []]> (w_files w) in
          let '(files, err) :=
            runSubCommand exe ($"stat") (opt_sources o) statResultFile (opt_build o)
              (match opt_stat o with [] => [] | s => [$"-s"; s] end) files in
          match err with
          | Some _ => exit_with (remove_file files statResultFile) 1%Z
          | None =>
              match statistics_load (read_file (MkWorld files [])) parse_json statResultFile statistics_clear with
              | (stat, true, _) =>
                  if negb (directory_ready outputDir) then exit_with (remove_file files statResultFile) 1%Z else
                  let '(files, err) :=
                    batch_run (batch_command exe (opt_build o) statResultFile) initialCwd outputDir relative warning
                      resource stat (opt_sources o) files in
                  exit_with (remove_file files statResultFile) (match err with None => 0%Z | Some _ => 1%Z end)
              | _ => exit_with (remove_file files statResultFile) 1%Z
              end
          end
      end
  end.
End commands.

(** ** Each command writes its own file, and only when it succeeds *)

Section commands_spec.
Context `{SourceManager} `{Rewriter}.
Variable options : str → list str → option Options.
Variable current_path : option str.
Variable clang_tool : list str → gmap str str → ToolRun SourceUnit.
Variable parse_json : str → str + Json.
Variable print_json : Json → str.
Variable can_open : str → bool.
Variable manifest_signatures : str → gmap str str → option (gset str).

Lemma own_buffer w o ret r : own_change (opt_output o) w (write_buffer can_open w o ret r).
Proof.
  unfold write_buffer. destruct r as [[|c b]|]; [..|apply own_refl];
    (destruct (negb _); [apply own_refl|]); [apply own_refl|apply write_output_change].
Qed.

Lemma own_stat_save w path st : own_change path w (stat_save print_json can_open w path st).
Proof.
  unfold stat_save, statistics_save. destruct path as [|c p].
  - rewrite bool_decide_true by done. cbn [orb]. split; [done|].
    intros Hc. unfold write, write_output in *. rewrite bool_decide_true in * by done. done.
  - destruct ((_ =s? _) || can_open _); [apply write_output_change|apply own_refl].
Qed.

(** Every command of the table but the first on its options. *)
Abbreviation commands :=
  (hlr_commands options current_path clang_tool parse_json print_json can_open manifest_signatures).

Lemma command_own c argv w r :
  c ∈ commands → cmd_main c argv w = Done r →
  match options (cmd_name c) argv with
  | None => r = (w, 0%Z)
  | Some o => own_change (opt_output o) w r
  end.
Proof.
  unfold hlr_commands. rewrite !elem_of_cons.
  intros [->|[->|[->|[->|Hc]]]]; [..|by apply not_elem_of_nil in Hc]; cbn [cmd_name cmd_main].
  - unfold mark_main. destruct (options _ argv) as [o|]; [|by intros [= <-]].
    destruct current_path; [|intros [= <-]; apply own_refl].
    destruct (statistics_load _ _ _ _) as [[stat []] ?]; [|intros [= <-]; apply own_refl].
    destruct (run_units _ _ _) as [b| |]; intros [= <-]. apply own_buffer.
  - unfold preprocess_main. destruct (options _ argv) as [o|]; [|by intros [= <-]].
    destruct current_path; [|intros [= <-]; apply own_refl].
    destruct (run_units _ _ _) as [[b|]| |]; intros [= <-]; [|apply own_refl].
    destruct (negb _); [apply own_refl|apply write_output_change].
  - unfold rewrite_main. destruct (options _ argv) as [o|]; [|by intros [= <-]].
    destruct current_path; [|intros [= <-]; apply own_refl].
    destruct (statistics_load _ _ _ _) as [[stat []] ?]; [|intros [= <-]; apply own_refl].
    destruct (run_units _ _ _) as [b| |]; intros [= <-]. apply own_buffer.
  - unfold stat_main. destruct (options _ argv) as [o|]; [|by intros [= <-]].
    destruct current_path; [|intros [= <-]; apply own_refl].
    destruct (manifest_signatures _ _) as [requested|]; [|intros [= <-]; apply own_refl].
    destruct (run_units _ _ _) as [[st|]| |]; intros [= <-]; [|apply own_refl].
    destruct (_ =? 1)%Z; [apply own_refl|apply own_stat_save].
Qed.

Variable app_name : str → str.
Variables (description version : str).
Abbreviation tool := (tool_main app_name description version commands).
(** The value of an option is the argument after it. *)
Hypothesis options_output : ∀ name argv0 out rest o,
  options name (argv0 :: $"-o" :: out :: rest) = Some o → opt_output o = out.

Abbreviation execute_tool :=
  (execute options current_path clang_tool parse_json print_json can_open manifest_signatures app_name description version).
Abbreviation run_child :=
  (runSubCommand options current_path clang_tool parse_json print_json can_open manifest_signatures app_name description version).
Abbreviation in_place :=
  (batch_command options current_path clang_tool parse_json print_json can_open manifest_signatures app_name description version).

Lemma run_child_own exe sub sources out build extra files g :
  g ≠ out → (run_child exe sub sources out build extra files).1 !! g = files !! g.
Proof using options_output.
  intros Hg. unfold runSubCommand, execute. destruct (tool_main _ _ _ _ _ _) as [[w code]| |] eqn:Ht; [|done..].
  cbn [fst]. apply tool_main_cases in Ht as [(c & argv0 & rest & Hc & Hargv & Hr)|Hw]; [|by rewrite (Hw : w_files w = files)].
  injection Hargv as <- -> <-. pose proof (command_own _ _ _ _ Hc Hr) as Hown.
  destruct (options _ _) as [o|] eqn:Ho.
  - apply options_output in Ho as <-. by apply Hown.
  - by injection Hown as -> _.
Qed.

Lemma in_place_own exe build stat command file files g :
  g ≠ file → (in_place exe build stat command file files).1 !! g = files !! g.
Proof using options_output. apply run_child_own. Qed.

(** A run of the tool changes one file at most, the one its option names: nothing else
    is touched, nothing at all is when the exit code is not 0, and with options that are
    not understood nothing is done although the exit code is 0. *)
Theorem tool_own_output argv w w' code :
  tool argv w = Done (w', code) →
  w_files w' = w_files w ∨
  ∃ c argv0 rest, c ∈ commands ∧ argv = argv0 :: cmd_name c :: rest ∧
    match options (cmd_name c) ((app_name argv0 ++ $" " ++ cmd_name c) :: rest) with
    | None => w' = w ∧ code = 0%Z
    | Some o => (∀ g, g ≠ opt_output o → w_files w' !! g = w_files w !! g) ∧ (code ≠ 0%Z → w' = w)
    end.
Proof.
  intros Ht. apply tool_main_cases in Ht as [(c & argv0 & rest & Hc & Hargv & Hr)|Hw]; [right|by left].
  exists c, argv0, rest. split; [done|]. split; [done|]. pose proof (command_own _ _ _ _ Hc Hr) as Hown.
  destruct (options _ _); [exact Hown|by injection Hown as -> ->].
Qed.

(** ** The batch with its commands *)

Variable batch_options : list str → option (Options * str).
Variable has_database : str → bool.
Variable temporary_file : option str.
Variable main_executable : str → str.
Variable directory_ready : str → bool.
Variable relative : str → str → str.
Variable warning : str → str.
Variable resource : str.

Abbreviation batch :=
  (batch_main options current_path clang_tool parse_json print_json can_open manifest_signatures app_name description
     version batch_options has_database temporary_file main_executable directory_ready relative warning resource).

Lemma statistics_load_message path w stat msg :
  statistics_load (read_file w) parse_json path statistics_clear = (stat, true, msg) → msg = None.
Proof. unfold statistics_load. repeat case_match; by intros [= <- <-]. Qed.

(** What the loop does to a source, with what it is then called. *)
Definition batch_patched (exe build tmp cwd outputDir g before after : str) : Prop :=
  patched (in_place exe build tmp) cwd outputDir relative warning g before after.

(** A batch that exits with 0 was given options, a database, a directory and a
    temporary file, its statistics were counted and read back, and of distinct sources
    those of the statistics are what the three commands, run in place one after the other,
    make of them, under the warning and the inclusion of the common header if they changed
    them; the temporary file is gone, and no other file is touched, but the header, the
    single source and the source that includes it, and these only if a source changed. *)
Theorem batch_main_exact argv w w' :
  batch argv w = (w', 0%Z) →
  ∃ o out cwd tmp files1 stat,
    let exe := main_executable (default [] (head argv)) in
    let outputDir := make_absolute cwd out in
    let needed : gset str := list_to_set (normalized cwd <$> set_entries (filesNeedPatch stat)) in
    let patched := batch_patched exe (opt_build o) tmp cwd outputDir in
    batch_options argv = Some (o, out) ∧ has_database (opt_build o) = true ∧ current_path = Some cwd ∧
    temporary_file = Some tmp ∧ directory_ready outputDir = true ∧
    run_child exe ($"stat") (opt_sources o) tmp (opt_build o)
      (match opt_stat o with [] => [] | s => [$"-s"; s] end) (<[tmp := []]> (w_files w)) = (files1, None) ∧
    statistics_load (read_file (MkWorld files1 [])) parse_json tmp statistics_clear = (stat, true, None) ∧
    w_files w' !! tmp = None ∧
    (NoDup (opt_sources o) →
     ∃ sources_done : gmap str str,
       (∀ g, g ≠ tmp → g ∉ opt_sources o ∨ normalized cwd g ∉ needed → sources_done !! g = w_files w !! g) ∧
       (∀ g, g ≠ tmp → g ∈ opt_sources o → normalized cwd g ∈ needed → ∃ before after,
          w_files w !! g = Some before ∧ sources_done !! g = Some after ∧ patched g before after) ∧
       ((∀ g, g ≠ tmp → sources_done !! g = w_files w !! g ∧ w_files w' !! g = w_files w !! g) ∨
        ∃ entry, entry ∈ opt_sources o ∧ normalized cwd entry ∈ needed ∧
          ∀ g, g ≠ tmp → g ≠ entry → g ≠ outputCommonHeader outputDir → g ≠ outputSingleSource outputDir →
            w_files w' !! g = sources_done !! g)).
Proof using options_output.
  intros Hb. unfold batch_main in Hb. destruct (batch_options argv) as [[o out]|] eqn:Ho; [|done].
  destruct (has_database _) eqn:Hd; [|done]. cbn [negb] in Hb.
  destruct current_path as [cwd|] eqn:Hcwd; [|done]. rewrite <- Hcwd in Hb |- *.
  destruct temporary_file as [tmp|] eqn:Htmp; [|done]. rewrite <- Htmp.
  set (exe := main_executable _) in *. set (outputDir := make_absolute cwd out) in *.
  set (extra := match opt_stat o with [] => [] | s => [$"-s"; s] end) in *.
  destruct (run_child exe ($"stat") (opt_sources o) tmp (opt_build o) extra (<[tmp := []]> (w_files w)))
    as [files1 [e|]] eqn:Hstat; [done|].
  destruct (statistics_load _ _ _ _) as [[stat []] msg] eqn:Hload; [|done].
  destruct (directory_ready outputDir) eqn:Hdir; [|done]. cbn [negb] in Hb.
  destruct (batch_run _ _ _ _ _ _ _ _ _) as [files2 [e|]] eqn:Hrun; [done|]. injection Hb as <-.
  assert (msg = None) as -> by by eapply statistics_load_message.
  assert (∀ g, g ≠ tmp → files1 !! g = w_files w !! g) as Hf1.
  { intros g Hg. pose proof (run_child_own exe ($"stat") (opt_sources o) tmp (opt_build o) extra
      (<[tmp := []]> (w_files w)) g Hg) as Hown.
    rewrite Hstat in Hown. cbn [fst] in Hown. by rewrite Hown, lookup_insert_ne. }
  exists o, out, cwd, tmp, files1, stat. cbn zeta. split_and!; try done.
  { simpl. apply lookup_delete_eq. }
  intros Hnd.
  destruct (batch_run_exact _ _ _ _ _ _ (in_place_own exe (opt_build o) tmp) _ _ _ _ Hnd Hrun)
    as (done & Hsame & Hpatch & Hend).
  exists done. split_and!.
  - intros g Hg Hn. by rewrite Hsame, Hf1.
  - intros g Hg Hin Hn. destruct (Hpatch g Hin Hn) as (before & after & Hb & Ha & Hp).
    exists before, after. by rewrite <- Hf1.
  - destruct Hend as [[Hall ->]|(entry & Hin & Hn & ->)].
    + left. intros g Hg. split; [by rewrite Hall, Hf1|]. simpl. unfold remove_file.
      rewrite lookup_delete_ne by done. by rewrite Hall, Hf1.
    + right. exists entry. split; [done|]. split; [done|]. intros g Hg He Hh Hs. simpl. unfold remove_file.
      rewrite lookup_delete_ne, !lookup_insert_ne by done. done.
Qed.
End commands_spec.

(** ** An example: [hlr batch] on the source of [MacroTags]

    Clang finds a command for a source if the file is there; the text of the example has the
    nodes of the example, before and after it is marked, and no other text has any. *)

Definition hlr_options (_ : str) (argv : list str) : option Options :=
  match argv with
  | _ :: o :: out :: _ :: build :: source :: rest =>
      if o =s? $"-o" then Some (MkOptions (nth 1 rest []) out build [source]) else None
  | _ => None
  end.

Definition hlr_marked : str := $"/*__LORELEI_MACRO_BEGIN__*/CB_CALL(h)/*__LORELEI_MACRO_END__*/; z".
Definition hlr_unit (file text : str) : @SourceUnit h_clang h_ast :=
  @MkUnit h_clang h_ast file (if (text =s? h_text) || (text =s? hlr_marked) then h_nodes else [0]) 100 text
    (tagged h_preprocessed ($"; z")).
Definition hlr_clang_tool (sources : list str) (files : gmap str str) : ToolRun (@SourceUnit h_clang h_ast) :=
  MkToolRun (omap (λ f, hlr_unit f <$> files !! f) sources) 0.

Definition hlr_stat : SourceStatistics :=
  MkStatistics {[$"a.c"]} {[h_signature]} {[h_signature := {[$"handler.h:1:1" := $"a.c"]}]}.
Definition hlr_parse (text : str) : str + Json := if text =s? $"{}" then inr (statistics_json hlr_stat) else inl ($"error").
Definition hlr_tool : list str → World → run outcome :=
  tool_main (λ _, $"hlr") ($"Rewriter") ($"1.0")
    (@hlr_commands h_clang h_ast h_source plain_rewriter hlr_options (Some ($"/p")) hlr_clang_tool hlr_parse
       (λ _, $"{}") (λ _, true) (λ _ _, Some {[h_signature]})).
Definition hlr_world : World := MkWorld {[$"a.c" := h_text; $"b.c" := $"int b;"]} [].

Example hlr_runs :
  hlr_tool [$"hlr"; $"mark-macros"; $"-o"; $"m.c"; $"-p"; $"/b"; $"a.c"; $"-s"; $"s.json"] hlr_world =
    Done (hlr_world, 1%Z) ∧
  hlr_tool [$"hlr"; $"stat"; $"-o"; $"s.json"; $"-p"; $"/b"; $"a.c"; $"-s"; $"t.json"] hlr_world =
    Done (set_file hlr_world ($"s.json") ($"{}"), 0%Z) ∧
  hlr_tool [$"hlr"; $"mark-macros"; $"-o"; $"m.c"; $"-p"; $"/b"; $"a.c"; $"-s"; $"s.json"]
      (set_file hlr_world ($"s.json") ($"{}")) =
    Done (set_file (set_file hlr_world ($"s.json") ($"{}")) ($"m.c") hlr_marked, 0%Z) ∧
  hlr_tool [$"hlr"; $"rewrite"; $"a.c"] hlr_world = Done (hlr_world, 0%Z).
Proof. repeat split; vm_compute; reflexivity. Qed.

Lemma hlr_options_output name argv0 out rest o :
  hlr_options name (argv0 :: $"-o" :: out :: rest) = Some o → opt_output o = out.
Proof. destruct rest as [|p [|build [|source rest]]]; intros H; [discriminate H..|]. by injection H as <-. Qed.

Lemma tool_own_output_witness :
  w_files (set_file hlr_world ($"s.json") ($"{}")) = w_files hlr_world ∨ ∃ o : Options, opt_output o = $"s.json".
Proof.
  destruct (@tool_own_output h_clang h_ast h_source plain_rewriter hlr_options (Some ($"/p")) hlr_clang_tool hlr_parse
    (λ _, $"{}") (λ _, true) (λ _ _, Some {[h_signature]}) (λ _, $"hlr") ($"Rewriter") ($"1.0")
    [$"hlr"; $"stat"; $"-o"; $"s.json"; $"-p"; $"/b"; $"a.c"; $"-s"; $"t.json"] hlr_world _ _
    (proj1 (proj2 hlr_runs))) as [H|(c & argv0 & rest & _ & Hargv & _)].
  - left. exact H.
  - right. exists (MkOptions [] ($"s.json") [] []). reflexivity.
Defined.

Definition hlr_batch (argv : list str) (w : World) : outcome :=
  @batch_main h_clang h_ast h_source plain_rewriter hlr_options (Some ($"/p")) hlr_clang_tool hlr_parse
    (λ _, $"{}") (λ _, true) (λ _ _, Some {[h_signature]}) (λ _, $"hlr") ($"Rewriter") ($"1.0")
    (λ argv, if decide (argv = []) then None else Some (MkOptions ($"t.json") [] ($"/b") [$"a.c"], $"out"))
    (λ _, true) (Some ($"/tmp/stat")) (λ _, $"/bin/hlr") (λ _, true) (λ _ _, $"out") (λ f, $"// " ++ f) ($"// guards")
    argv w.

Example hlr_batch_run :
  (hlr_batch [$"hlr batch"] hlr_world).2 = 0%Z ∧
  w_files (hlr_batch [$"hlr batch"] hlr_world).1 !! $"a.c" =
    Some ($"// a.c" ++ [c_nl; c_nl] ++ $"#include " ++ [c_dquote] ++ $"out/LoreFileContext.h" ++ [c_dquote; c_nl]
          ++ $"cb(h); z" ++ [c_nl] ++ $"#include " ++ [c_dquote] ++ $"out/LoreFileContext.c" ++ [c_dquote; c_nl]) ∧
  w_files (hlr_batch [$"hlr batch"] hlr_world).1 !! $"/tmp/stat" = None ∧
  hlr_batch [] hlr_world = (hlr_world, 1%Z).
Proof. repeat split; vm_compute; reflexivity. Qed.

Lemma pair_code (r : outcome) : r.2 = 0%Z → r = (r.1, 0%Z).
Proof. destruct r. cbn. by intros ->. Qed.

Lemma batch_main_exact_witness :
  w_files (hlr_batch [$"hlr batch"] hlr_world).1 !! $"/tmp/stat" = None.
Proof.
  destruct (@batch_main_exact h_clang h_ast h_source plain_rewriter hlr_options (Some ($"/p")) hlr_clang_tool hlr_parse
    (λ _, $"{}") (λ _, true) (λ _ _, Some {[h_signature]}) (λ _, $"hlr") ($"Rewriter") ($"1.0") hlr_options_output
    (λ argv, if decide (argv = []) then None else Some (MkOptions ($"t.json") [] ($"/b") [$"a.c"], $"out"))
    (λ _, true) (Some ($"/tmp/stat")) (λ _, $"/bin/hlr") (λ _, true) (λ _ _, $"out") (λ f, $"// " ++ f) ($"// guards")
    [$"hlr batch"] hlr_world _ (pair_code _ (proj1 hlr_batch_run)))
    as (o & out & cwd & tmp & files1 & stat & _ & _ & _ & Htmp & _ & _ & _ & Hgone & _).
  injection Htmp as <-. exact Hgone.
Defined.
